(* ===== verification/_CoqProject ===== *)
-Q . S2P
Prelude.v
Persister.v
Raft.v
RaftCluster.v
RaftInv.v
RaftInvLog.v
RaftInvStep.v
RaftSafety.v
RaftProps.v
RaftIndices.v
RaftCommitRule.v
RaftProgress.v
RaftCommit.v
RaftReplicate.v
RaftCommitStep.v
RaftAgreement.v
RaftApplied.v
RaftSchedules.v
RaftRaces.v
Labrpc.v
LogInterface.v
KVRaft.v
KVRaftProps.v
KVAgreement.v
KVRaftRaces.v
MapReduce.v
MapReduceProps.v
MapReduceJob.v
MapReduceJobProps.v
Clerks.v
ClerksProps.v
DiskV.v
Listener.v
LockService.v
NetCall.v
Drivers.v
Services.v
Ticker.v
ClerkNet.v
ClerkNetProps.v
Random.v
Misc.v
Harness.v
HarnessProps.v
HarnessChecks.v
ShardHarness.v
ShardHarnessProps.v
ShardHarnessBuild.v
NetExamples.v
KVExamples.v
ServiceExamples.v
ShardExamples.v
