(* ===== verification/Prelude.v ===== *)
(** * code2go: a verification development of the Go labs

    ** The program

    The repository is a course's collection of Go packages.  The parts with
    behaviour of their own are a Raft peer (src/src/raft), a simulated network
    with RPC dispatch (src/src/labrpc), a replicated key/value service and its
    clerk on top of Raft (src/src/kvraft), the MapReduce master and worker
    (src/src/mapreduce), the clients of the sharded stores and of the shard
    master, the file layer of a disk-based store (src/src/diskv), the accept
    loops of the servers that listen on sockets, the test configurations that
    wire, partition, crash and restart the clusters, and the command-line
    programs.  The handlers of the other services are unwritten exercises.

    ** The files

    - Prelude.v (this file): outcomes of Go code ([res]: a value, a panic or a
      fatal exit), record update, slices, machine integers, tactics, lemmas on
      lists, strings and decimal numerals.
    - Persister.v: raft/persister.go; gob streams as lists of values.
    - Raft.v: raft/raft.go, one definition for each critical section of the
      peer's mutex, or part of one, and for each check and assignment made outside
      of it.  Make is [Make], RequestVote and AppendEntries are the RPC handlers;
      sendRequestVote and sendAppendEntries are [reply_is_newer], [step_down],
      [rewinds] and the three assignments of [rewind]; doVote is [doVote], [tally],
      [truncate_next] and [fill_indices]; doSubmit is [submit_enter],
      [tick_continues], [prepare_append], [advance_next], [append_done] and
      [submit_exit].
    - RaftCluster.v: the goroutines of raft.go as threads and the network that
      joins them.  [exec] runs one event; a thread's phase says what it does next,
      and [crits] what is left of a critical section that is not one event.  [Reachable] are the states of all
      executions, [ReachableSync] those of the executions in which a condition
      tested without the lock still holds when the lock is taken, and
      [ReachableInOrder] those in which moreover no peer accepts an AppendEntries
      that would take back what it has stored for the same term ([in_order]).
    - RaftInv.v, RaftInvLog.v, RaftInvStep.v: the inductive invariant, with ghost
      state for votes, leaders and the history of each term's log; its
      preservation by the handlers and by every event.
    - RaftSafety.v, RaftProps.v: the theorems on clusters (C1, C2, C7), and
      on persistence and the handlers (C10, C11, C13).
    - RaftIndices.v: the invariant of nextIndex and matchIndex, at every point of
      the critical sections that use them: their bounds (C9), and the only two
      races in which a peer panics (C6).
    - RaftCommitRule.v: the commit loop against the commit rule (C14).
    - RaftProgress.v, RaftReplicate.v: schedules that elect a leader from any state,
      and those that then commit a command (C8).
    - RaftCommit.v, RaftCommitStep.v: a second invariant, for the executions in
      order: what each term has committed, what stands behind every commit index
      and every delivered message; its preservation by every event.
    - RaftAgreement.v: the specification of a replicated log, and its refinement
      by the cluster (C3-C5).
    - RaftApplied.v: what a peer has delivered stays in its log, over restarts too,
      and is what every peer that gets there has delivered or will deliver,
      although commit indices go back (C12).
    - RaftSchedules.v, RaftRaces.v: executions of three peers; those that
      instantiate the theorems, those in which safety is lost (C15,
      [stale_check_two_leaders], [impostor_deposes_leader]), and those in which the
      process panics ([rewind_race_panics], [prepare_race_panics]).
    - Labrpc.v: labrpc/labrpc.go with its theorems (C25, C27, [reliable_call]).
    - LogInterface.v: the class of what a service may rely on from its
      replicated log, with the Raft peer as an instance.
    - KVRaft.v, KVRaftProps.v, KVRaftRaces.v: kvraft/common.go, server.go and
      client.go; exactly-once replay against the specification [store], the
      handlers, the clerk (C19, C22), an execution that reports a lost write
      as done (C23), one with a stale read (C24), clerks with one identity
      ([clerk_ids_collide]), a torn read of the peer's state ([GetState2_torn]), a
      Get that misses its index ([Get_misses_index]).
    - KVAgreement.v: servers of kvraft over a cluster, reading the logs of their
      peers while these write: the service as one sequential store (C16, C17), reads
      as reads of its history, with what a torn read of log and commit index does
      (C18), acknowledged operations are in its history for good (C21) and before
      those requested later (C20).
    - MapReduce.v, MapReduceProps.v: mapreduce: the merge (C34) with its failures
      to open, create and write a file, file names, cleanup, the worker's counters.
    - MapReduceJob.v, MapReduceJobProps.v: a distributed job: the registration
      server, the goroutine of the job and the workers as interleaved steps; it can
      always be finished (C26), and a worker may register too late
      ([late_registration]).
    - Clerks.v, ClerksProps.v: the retry loops of shardmaster, shardkv,
      paxos-shardmaster, paxos-shardkv and diskv, and the client of viewservice
      (C36).
    - DiskV.v: the files of diskv/server.go: the helpers as programs of file-system
      calls, each of which may fail; [run] runs them against a list of failures and
      [crashed] gives what a crash leaves at any point (C38, C39,
      [replace_loses_key]).
    - Listener.v, Ticker.v: the accept loops with the kill operations as separate
      steps (C40), and the goroutines that call tick() until the server is dead
      ([ticker_stops]).
    - LockService.v, NetCall.v: lockservice; the helper call() that nine packages
      have a copy of, over a class of what net/rpc does, and the lock service
      from the clerk through the helper to the handlers, Unlock included, which is
      an unwritten stub (C37); the connection that
      swallows the reply of a dying server ([deaf_serves]).
    - Drivers.v: the programs of main and their arguments, with strconv written
      out ([ParseInt_Itoa], [main_render]); the sequential MapReduce job.
    - Services.v: the constructors of the servers over net/rpc, the Paxos library
      and the handlers that are exercises, as they stand; what diskvd starts does
      not panic ([diskvd_starts]), and the clerks of the sharded stores wait for
      ever ([sharded_clerks_wait]).
    - ClerkNet.v, ClerkNetProps.v: the clerks' loops as one more goroutine of the
      network of Labrpc.v: what a clerk returns is what its loop returns against an
      oracle whose answers its handlers computed (C35), and it returns once a server can be
      reached (C28); the shard master's and kvraft's clerks are instances.
    - Random.v: randstring, random_handles and nrand ([randstring_unique],
      [random_handles_perm], [nrand_range]).
    - Misc.v: rpc/server and rpc/client, newnius.com ([clock_shows]), the debug
      functions.
    - Harness.v, HarnessProps.v, HarnessChecks.v: raft/config.go, kvraft/config.go
      and shardmaster/config.go: partitions ([partition_splits], [make_partition_majority]), what
      the tester's checks of applied commands establish (C29), and its agreement
      loop one() (C30).
    - ShardHarness.v, ShardHarnessProps.v, ShardHarnessBuild.v: shardkv/config.go
      with the constructors of shardkv/server.go and shardmaster/server.go; the
      wiring of the end points as an invariant (C31), crash and restart (C32), the
      sizes for which a cluster can be built (C33).
    - NetExamples.v, KVExamples.v, ServiceExamples.v, ShardExamples.v: the
      theorems at concrete inputs.

    A comment that starts with an at sign before a definition gives the lines of
    the source it translates.

    ** How effects are modelled

    A Go method is a function of its receiver's record.  A method that sends on
    a channel also returns the messages sent.  Code that may index out of range,
    dereference nil or exit returns [res].  Concurrency is a step function over
    events: a goroutine is a program counter in a list of threads, a critical
    section of a mutex is one event, and the order of events is free; delays,
    losses and reordering of messages are events that do or do not happen.  Where
    the code writes without the lock to what a critical section of raft.go uses,
    the section is several events: a winner of an election sets its role, empties
    nextIndex, fills it (one event, since nobody else reads it meanwhile and an
    assignment to a slot that is there already comes to the same as one after
    the loop); a sender of AppendEntries reads its slot, then stores the next.
    What other readers without the lock could see inside of an event is modelled
    where a theorem depends on it: the log that AppendEntries has cut and not yet
    extended ([cut_view], C18).
    Randomness, clocks and what a poll sees are arguments.  Code outside the
    repository is an argument too: gob and reflection (with the round trip as a
    hypothesis), base32 (base64 and strconv are written out), the JSON decoder, the iteration order of maps and the
    listing of a directory (any permutation).

    ** Bounds and fuel

    Integers are Z.  The operations on them that could overflow wrap ([int64],
    [int32]); the term of a peer is the one counter of Raft that others can
    drive up, so [lock_check_holds] asks that it is below the largest int before
    an election.  Lengths and indices of slices are not wrapped: no slice has
    2^63 elements.  The loops that Go runs for ever take fuel: theorems about
    them say with which fuel they return and that they do (C22), or characterise
    every answer for every fuel (C36).  The polls of the kvraft server have
    the bounds of the code, 30 and 500; one() gets 501 rounds, enough for the ten
    seconds it may take when it sleeps 20 milliseconds in each (C30).

    ** What the theorems show

    Under the assumption in [ReachableSync], the peers elect at most one leader
    per term and logs match (C1, C2, C7); indices are in bounds and nothing panics,
    but for the unlocked assignments to nextIndex (C6, C9); and a command can
    always be committed unless there is one peer only (C8);
    persistence restores a peer (C10) and handlers do what they say (C11, C13, C14).
    The assumption is needed ([stale_check_two_leaders]).  It is not enough for
    state machine safety, because AppendEntries trusts the order of messages
    (C15); when messages are handled in order too, no two peers apply different
    commands at an index, leaders have everything that was applied, and the
    cluster refines a log that only grows (C3-C5); what a peer has delivered is
    settled, although a follower's commit index may go back (C12).  The network
    runs a handler at most once (C25) and routes to the right one (C27); a clerk
    on it gets what handlers computed during its call (C35), and once one of its
    end points leads to a server that answers as it wants, and while it does, it has
    at most 24 steps left for each of its servers, and one more (C28): with a fair
    schedule it returns.  Replaying
    the log is exactly-once (C19), and the servers of such a cluster refine one sequential
    store (C16-C18) that keeps what they acknowledge in the order of real time
    (C20, C21: the operation, not the client's request); but handlers and clerks do not compare UUIDs, so that a
    client can lose a write (C23) or read an old value (C24).  A MapReduce job can
    always be finished (C26).  The test configurations keep their
    networks wired as intended (C31, [partition_splits]), and a restarted server finds what was
    persisted (C32), for the sizes the tests use and no others (C33).

    ** Not modelled

    The bodies of the exercises (Paxos, kvpaxos, pbservice, viewservice, the shard
    servers, doMap, doReduce, schedule, mapF and reduceF) are unwritten: there is
    nothing beyond the constants and empty effects of Services.v and Drivers.v.
    The lines that print progress, the gRPC and TLS set-up beyond success and
    failure, the generated protocol buffers of newnius.com, the texts of the usage
    functions, and sockets below dial, accept, read, write and close are left out.
    Slices are lists; where it matters that they share an array, in the log that
    GetState2 hands out, [shared_view] says what a later read of a slot may find (and
    that the slice is not taken from a log that is cut at that moment, which C20 and
    C21 assume and C18 does not).
    kvraft's PutAppend goes on over all servers after a success, so its loop is not
    an instance of ClerkNet.v ([put_loop] models it), and the handlers of kvraft, which sleep
    between polls, are not single events of Labrpc.v's network; KVAgreement.v
    composes them with the cluster directly.

    ** What could follow

    Elections and commits under fair schedules (C8 is about some schedule, C28 about
    every fair one); the exercises, once they are written. *)
From Stdlib Require Export ZArith Lia.
From stdpp Require Export base pretty functions sets relations numbers strings gmap list.

#[global] Open Scope Z_scope.

(** ** Outcomes of Go code

    A Go call either returns, or panics (index out of range, nil dereference,
    failed type assertion), or ends the process through [log.Fatal] /
    [os.Exit]. *)

Inductive res (A : Type) : Type :=
| Ok (a : A)
| Panic
| Fatal.
Arguments Ok {A} a.
Arguments Panic {A}.
Arguments Fatal {A}.

#[export] Instance res_ret : MRet res := λ A a, Ok a.
#[export] Instance res_bind : MBind res := λ A B f m,
  match m with Ok a => f a | Panic => Panic | Fatal => Fatal end.
#[export] Instance res_fmap : FMap res := λ A B f m,
  match m with Ok a => Ok (f a) | Panic => Panic | Fatal => Fatal end.

Definition is_ok {A} (m : res A) : Prop := ∃ a, m = Ok a.

(** ** Record update

    [r <| f := v |>] is [r] with field [f] replaced by [v].  A record opts in
    with an [Eta] instance (its eta expansion); the setter of a projection is
    obtained by abstracting the projection in that expansion. *)

Class Eta (R : Type) := eta : R → R.
Class Setter {R T : Type} (f : R → T) := update : (T → T) → R → R.
Arguments update {R T} f {_} _ _ /.

Ltac solve_setter :=
  match goal with
  | |- @Setter ?R ?T ?f =>
      let e := constr:(_ : Eta R) in
      let e := eval hnf in e in
      let p := eval pattern f in e in
      match p with
      | ?F _ =>
          let s := constr:(λ (g : T → T), F (λ r, g (f r))) in
          let s := eval cbv beta in s in
          exact s
      end
  end.
#[export] Hint Extern 1 (Setter _) => solve_setter : typeclass_instances.

Declare Scope go_scope.
Delimit Scope go_scope with go.
Notation "r <| f := v |>" := (update f (λ _, v) r)
  (at level 12, left associativity, format "r  <| f  :=  v |>") : go_scope.
#[global] Open Scope go_scope.

(** ** Go slices

    [len] is Go's [len]; [slice_get] is [s[i]] (panics out of range);
    [slice_set] is the statement [s[i] = x]; [slice_to] is [s[0:n]] for
    [n <= len(s)] and [slice_from] is [s[n:]]. *)

Definition len {A} (s : list A) : Z := Z.of_nat (length s).

Definition slice_get {A} (s : list A) (i : Z) : res A :=
  if decide (0 ≤ i) then
    match s !! Z.to_nat i with Some x => Ok x | None => Panic end
  else Panic.

Definition slice_set {A} (s : list A) (i : Z) (x : A) : res (list A) :=
  if decide (0 ≤ i < len s) then Ok (<[Z.to_nat i:=x]> s) else Panic.

Definition slice_to {A} (s : list A) (n : Z) : res (list A) :=
  if decide (0 ≤ n ≤ len s) then Ok (take (Z.to_nat n) s) else Panic.

Definition slice_from {A} (s : list A) (n : Z) : res (list A) :=
  if decide (0 ≤ n ≤ len s) then Ok (drop (Z.to_nat n) s) else Panic.

(** The indices a loop [for i := a; i < b; i++] visits. *)
Definition range (a b : Z) : list Z := seqZ a (b - a).

(** A loop whose body may panic. *)
Fixpoint foldM {A B} (f : A → B → res A) (a : A) (l : list B) : res A :=
  match l with
  | [] => mret a
  | x :: l => a ← f a x; foldM f a l
  end.


(** [strconv.Itoa]. *)
Definition Itoa (z : Z) : string := pretty z.

(** 64-bit two's complement wrap-around of Go's [int] and [int64]. *)
Definition int64 (z : Z) : Z := (z + 2 ^ 63) `mod` 2 ^ 64 - 2 ^ 63.
Definition MaxInt64 : Z := 2 ^ 63 - 1.
Definition MinInt64 : Z := - 2 ^ 63.

(** The same for [int32]. *)
Definition int32 (z : Z) : Z := (z + 2 ^ 31) `mod` 2 ^ 32 - 2 ^ 31.

#[global] Arguments int64 : simpl never.
#[global] Arguments int32 : simpl never.
#[global] Arguments len : simpl never.
#[global] Arguments range : simpl never.
#[global] Arguments Itoa : simpl never.
#[global] Arguments slice_get : simpl never.
#[global] Arguments slice_set : simpl never.
#[global] Arguments slice_to : simpl never.
#[global] Arguments slice_from : simpl never.

(** ** Tactics *)

(** Simplify record projections of updated records everywhere. *)
Ltac rsimpl := cbn in *; cbn beta iota in *.

(** Case analysis on the boolean comparisons of [Z] in the goal or in the
    hypotheses, with the arithmetic fact recorded. *)
Ltac zcase :=
  match goal with
  | |- context [?a <? ?b] => destruct (Z.ltb_spec a b)
  | |- context [?a <=? ?b] => destruct (Z.leb_spec a b)
  | |- context [?a =? ?b] => destruct (Z.eqb_spec a b)
  | H : context [?a <? ?b] |- _ => destruct (Z.ltb_spec a b)
  | H : context [?a <=? ?b] |- _ => destruct (Z.leb_spec a b)
  | H : context [?a =? ?b] |- _ => destruct (Z.eqb_spec a b)
  end.

(** Split a monadic hypothesis [m ≫= f = Ok r] into the run of [m] and the
    run of [f]. *)
Ltac mbind_inv H :=
  match type of H with
  | context [mbind _ ?m] =>
      let E := fresh "E" in
      destruct m eqn:E; cbn [mbind res_bind] in H; try discriminate H
  | context [fmap _ ?m] =>
      let E := fresh "E" in
      destruct m eqn:E; cbn [fmap res_fmap] in H; try discriminate H
  | match ?m with Ok _ => _ | Panic => _ | Fatal => _ end = _ =>
      let E := fresh "E" in
      destruct m eqn:E; cbn beta iota in H; try discriminate H
  end.

Create HintDb go discriminated.

(** ** Lemmas on slices *)

Section slices.
Context {A : Type}.
Implicit Types (s : list A) (i n : Z).

Lemma len_nonneg s : 0 ≤ len s.
Proof. unfold len. lia. Qed.

Lemma len_app s s' : len (s ++ s') = len s + len s'.
Proof. unfold len. rewrite length_app. lia. Qed.

Lemma slice_get_Ok s i x :
  slice_get s i = Ok x ↔ 0 ≤ i ∧ s !! Z.to_nat i = Some x.
Proof.
  unfold slice_get. case_decide; [|naive_solver lia].
  destruct (s !! Z.to_nat i); naive_solver.
Qed.

Lemma slice_get_is_Ok s i : 0 ≤ i < len s → ∃ x, slice_get s i = Ok x.
Proof.
  unfold len. intros Hi. destruct (lookup_lt_is_Some_2 s (Z.to_nat i)) as [x Hx]; [lia|].
  exists x. apply slice_get_Ok. split; [lia|done].
Qed.

Lemma slice_get_bounds s i x : slice_get s i = Ok x → 0 ≤ i < len s.
Proof.
  intros [? Hx]%slice_get_Ok. apply lookup_lt_Some in Hx. unfold len. lia.
Qed.

Lemma slice_set_Ok s i x :
  0 ≤ i < len s → slice_set s i x = Ok (<[Z.to_nat i:=x]> s).
Proof. intros Hi. unfold slice_set. by rewrite decide_True. Qed.

Lemma slice_to_Ok s n : 0 ≤ n ≤ len s → slice_to s n = Ok (take (Z.to_nat n) s).
Proof. intros Hn. unfold slice_to. by rewrite decide_True. Qed.

Lemma slice_from_Ok s n : 0 ≤ n ≤ len s → slice_from s n = Ok (drop (Z.to_nat n) s).
Proof. intros Hn. unfold slice_from. by rewrite decide_True. Qed.

Lemma slice_to_inv s n s' :
  slice_to s n = Ok s' → 0 ≤ n ≤ len s ∧ s' = take (Z.to_nat n) s.
Proof. unfold slice_to. case_decide; naive_solver. Qed.

Lemma slice_from_inv s n s' :
  slice_from s n = Ok s' → 0 ≤ n ≤ len s ∧ s' = drop (Z.to_nat n) s.
Proof. unfold slice_from. case_decide; naive_solver. Qed.

(** A slice read after an assignment. *)
Lemma slice_get_set s i x s' k :
  slice_set s i x = Ok s' → slice_get s' k = if decide (k = i) then Ok x else slice_get s k.
Proof.
  unfold slice_set. case_decide as Hi; [|done]. intros [= <-]. unfold len in Hi.
  unfold slice_get. destruct (decide (0 ≤ k)); [|by rewrite decide_False by lia].
  case_decide as Hk; [subst; by rewrite list_lookup_insert_eq by lia|].
  by rewrite list_lookup_insert_ne by lia.
Qed.

Lemma slice_get_Panic s i : ¬ 0 ≤ i < len s → slice_get s i = Panic.
Proof.
  intros Hi. unfold slice_get, len in *. case_decide; [|done].
  by rewrite lookup_ge_None_2 by lia.
Qed.

Lemma slice_set_Panic s i x : ¬ 0 ≤ i < len s → slice_set s i x = Panic.
Proof. intros Hi. unfold slice_set. by rewrite decide_False. Qed.

Lemma slice_set_inv s i x s' :
  slice_set s i x = Ok s' → 0 ≤ i < len s ∧ s' = <[Z.to_nat i:=x]> s.
Proof. unfold slice_set. case_decide; naive_solver. Qed.

Lemma len_take s n : 0 ≤ n ≤ len s → len (take (Z.to_nat n) s) = n.
Proof. unfold len. rewrite length_take. lia. Qed.

Lemma len_insert s k x : len (<[k:=x]> s) = len s.
Proof. unfold len. by rewrite length_insert. Qed.

Lemma len_replicate n (x : A) : 0 ≤ n → len (replicate (Z.to_nat n) x) = n.
Proof. unfold len. rewrite length_replicate. lia. Qed.

Lemma len_singleton (x : A) : len [x] = 1.
Proof. done. Qed.

(** Two prefixes of one list with the same length are equal. *)
Lemma prefix_same_length s1 s2 s :
  s1 `prefix_of` s → s2 `prefix_of` s → length s1 = length s2 → s1 = s2.
Proof.
  intros [k1 ->] [k2 Heq] Hlen. by destruct (app_inj_1 _ _ _ _ Hlen Heq).
Qed.

Lemma prefix_take (k : nat) s1 s2 :
  s1 `prefix_of` s2 → (k ≤ length s1)%nat → take k s1 = take k s2.
Proof. intros [t ->] Hk. by rewrite take_app_le. Qed.

Lemma prefix_take_self (k : nat) s : take k s `prefix_of` s.
Proof. exists (drop k s). by rewrite take_drop. Qed.
End slices.

#[export] Hint Resolve len_nonneg prefix_take_self : go.

Lemma elem_of_range a b i : i ∈ range a b ↔ a ≤ i < b.
Proof. unfold range. rewrite elem_of_seqZ. lia. Qed.

Lemma NoDup_range a b : NoDup (range a b).
Proof. apply NoDup_seqZ. Qed.

Lemma length_range a b : length (range a b) = Z.to_nat (b - a).
Proof. apply length_seqZ. Qed.

Lemma range_empty a b : b ≤ a → range a b = [].
Proof. intros. unfold range. apply seqZ_nil. lia. Qed.

Lemma range_one a b : b = a + 1 → range a b = [a].
Proof. intros ->. unfold range. by replace (a + 1 - a) with 1 by lia. Qed.

Lemma range_app a b c : a ≤ b → b ≤ c → range a c = range a b ++ range b c.
Proof.
  intros Hab Hbc. unfold range. replace (c - a) with ((b - a) + (c - b)) by lia.
  rewrite seqZ_app by lia. f_equal. f_equal. lia.
Qed.

Lemma filter_none {A} (P : A → Prop) `{∀ x, Decision (P x)} (l : list A) :
  (∀ x, x ∈ l → ¬ P x) → filter P l = [].
Proof.
  induction l as [|x l IH]; intros HP; [done|].
  rewrite filter_cons_False by (apply HP; by left). apply IH. intros y ?. apply HP. by right.
Qed.

Lemma filter_all {A} (P : A → Prop) `{∀ x, Decision (P x)} (l : list A) :
  (∀ x, x ∈ l → P x) → filter P l = l.
Proof.
  induction l as [|x l IH]; intros HP; [done|].
  rewrite filter_cons_True by (apply HP; by left). f_equal. apply IH. intros y ?. apply HP. by right.
Qed.

(** ** Quorums

    Two duplicate-free lists of elements of [0..n-1], each longer than n/2,
    share an element. *)
Lemma quorum_intersect (n : Z) (q1 q2 : list Z) :
  0 ≤ n → NoDup q1 → NoDup q2 →
  (∀ x, x ∈ q1 → 0 ≤ x < n) → (∀ x, x ∈ q2 → 0 ≤ x < n) →
  n < 2 * len q1 → n < 2 * len q2 →
  ∃ x, x ∈ q1 ∧ x ∈ q2.
Proof.
  intros Hn Hd1 Hd2 Hr1 Hr2 Hl1 Hl2.
  destruct (decide (Exists (.∈ q2) q1)) as [He|Hne].
  { by apply Exists_exists in He. }
  exfalso.
  assert (Hnd : NoDup (q1 ++ q2)).
  { apply NoDup_app. split_and!; [done| |done].
    intros x Hx1 Hx2. apply Hne, Exists_exists. exists x. done. }
  assert (Hsub : q1 ++ q2 ⊆+ range 0 n).
  { apply NoDup_submseteq; [done|]. intros x [?|?]%elem_of_app; apply elem_of_range; auto. }
  apply submseteq_length in Hsub. rewrite length_app, length_range in Hsub.
  unfold len in *. lia.
Qed.

(** ** Strings *)

Notation chars := String.list_ascii_of_string (only parsing).

Lemma string_app_assoc s t u : s +:+ (t +:+ u) = (s +:+ t) +:+ u.
Proof.
  induction s as [|c s IH]; [done|].
  change (String c (s +:+ (t +:+ u)) = String c ((s +:+ t) +:+ u)). by rewrite IH.
Qed.

Lemma string_length_app s t :
  String.length (s +:+ t) = (String.length s + String.length t)%nat.
Proof.
  induction s as [|c s IH]; [done|].
  change (S (String.length (s +:+ t)) = S (String.length s + String.length t)). by rewrite IH.
Qed.

Lemma substring_prefix s t : String.substring 0 (String.length s) (s +:+ t) = s.
Proof.
  induction s as [|c s IH]; [by destruct t|].
  change (String c (String.substring 0 (String.length s) (s +:+ t)) = String c s).
  by rewrite IH.
Qed.

Lemma substring_all t n : (String.length t ≤ n)%nat → String.substring 0 n t = t.
Proof.
  revert n. induction t as [|c t IH]; intros [|n] Hn; try done; cbn in *; [lia|].
  rewrite IH; [done|lia].
Qed.

Lemma substring_suffix s t n :
  (String.length t ≤ n)%nat → String.substring (String.length s) n (s +:+ t) = t.
Proof.
  intros Hn. induction s as [|c s IH]; [by apply substring_all|]. done.
Qed.

Lemma chars_app s t : chars (s +:+ t) = chars s ++ chars t.
Proof.
  induction s as [|c s IH]; [done|].
  change (c :: chars (s +:+ t) = c :: chars s ++ chars t). by rewrite IH.
Qed.

(** The characters [Itoa] produces: digits and the minus sign. *)
Definition digit (c : Ascii.ascii) : Prop := (48 ≤ Ascii.nat_of_ascii c ≤ 57)%nat.
Definition numeral (c : Ascii.ascii) : Prop := digit c ∨ Ascii.nat_of_ascii c = 45%nat.

Lemma pretty_N_char_digit x : digit (pretty_N_char x).
Proof. unfold digit, pretty_N_char. repeat case_match; split; by apply Nat.leb_le. Qed.

Lemma pretty_N_go_digits x s :
  (∀ c, c ∈ chars s → digit c) → ∀ c, c ∈ chars (pretty_N_go x s) → digit c.
Proof.
  revert s. induction (N.lt_wf_0 x) as [x _ IH]; intros s Hs.
  assert (x = 0 ∨ 0 < x)%N as [->|?] by lia; [by rewrite pretty_N_go_0|].
  rewrite pretty_N_go_step by done. apply IH; [by apply N.div_lt|].
  intros c [->|?]%elem_of_cons; [apply pretty_N_char_digit|auto].
Qed.

Lemma pretty_N_digits (x : N) c : c ∈ chars (pretty x) → digit c.
Proof.
  unfold pretty, pretty_N. case_decide.
  - intros [->|[]%elem_of_nil]%elem_of_cons. split; by apply Nat.leb_le.
  - apply pretty_N_go_digits. by intros ? ?%elem_of_nil.
Qed.

Lemma Itoa_numeral z c : c ∈ chars (Itoa z) → numeral c.
Proof.
  unfold Itoa, pretty, pretty_Z, numeral. destruct z as [|p|p].
  - intros [->|[]%elem_of_nil]%elem_of_cons. left. split; by apply Nat.leb_le.
  - intros ?%(pretty_N_digits (Npos p)). by left.
  - change ("-" +:+ pretty p) with (String (Ascii.ascii_of_nat 45) (pretty (Npos p))).
    intros [->|?%pretty_N_digits]%elem_of_cons; [by right|by left].
Qed.

Lemma Itoa_digits z c : 0 ≤ z → c ∈ chars (Itoa z) → digit c.
Proof.
  unfold Itoa, pretty, pretty_Z. destruct z as [|p|p]; [| |lia]; intros _.
  - intros [->|[]%elem_of_nil]%elem_of_cons. split; by apply Nat.leb_le.
  - apply (pretty_N_digits (Npos p)).
Qed.

Lemma Itoa_no_dash z : 0 ≤ z → Ascii.ascii_of_nat 45 ∉ chars (Itoa z).
Proof. intros Hz [H%Nat.leb_le _]%Itoa_digits; done. Qed.

#[export] Instance Itoa_inj : Inj (=) (=) Itoa.
Proof. unfold Itoa. apply _. Qed.

Lemma string_app_inj_l s t1 t2 : s +:+ t1 = s +:+ t2 → t1 = t2.
Proof. induction s as [|c s IH]; [done|]. intros H. injection H as H. auto. Qed.

(** Two strings that continue with the same separator, which does not occur
    before it, agree up to the separator. *)
Lemma string_split_inj (sep : Ascii.ascii) s1 s2 t1 t2 :
  sep ∉ chars s1 → sep ∉ chars s2 →
  s1 +:+ String sep t1 = s2 +:+ String sep t2 → s1 = s2 ∧ t1 = t2.
Proof.
  revert s2. induction s1 as [|c1 s1 IH]; intros [|c2 s2] H1 H2 Heq.
  - by injection Heq.
  - injection Heq as -> _. exfalso. apply H2. by left.
  - injection Heq as -> _. exfalso. apply H1. by left.
  - injection Heq as -> Heq. destruct (IH s2) as [-> ->]; try done.
    + intros ?. apply H1. by right.
    + intros ?. apply H2. by right.
Qed.

(** Two numbers printed with a separator in between can be read back. *)
Lemma Itoa_pair_inj (sep : Ascii.ascii) i1 c1 i2 c2 :
  ¬ numeral sep →
  Itoa i1 +:+ String sep (Itoa c1) = Itoa i2 +:+ String sep (Itoa c2) → i1 = i2 ∧ c1 = c2.
Proof.
  intros Hsep H.
  apply string_split_inj in H as [?%(inj Itoa) ?%(inj Itoa)]; [done|..];
    by intros ?%Itoa_numeral.
Qed.

(** ** Integers *)

Lemma int64_id z : MinInt64 ≤ z ≤ MaxInt64 → int64 z = z.
Proof.
  unfold int64, MinInt64, MaxInt64. intros Hz.
  rewrite Z.mod_small; lia.
Qed.

Lemma int32_succ z : int32 (int32 z + 1) = int32 (z + 1).
Proof.
  unfold int32. replace (_ - 2 ^ 31 + 1 + 2 ^ 31) with ((z + 2 ^ 31) `mod` 2 ^ 32 + 1) by lia.
  rewrite Z.add_mod_idemp_l by lia. do 2 f_equal. lia.
Qed.

Lemma int64_range z : MinInt64 ≤ int64 z ≤ MaxInt64.
Proof.
  unfold int64, MinInt64, MaxInt64.
  pose proof (Z.mod_pos_bound (z + 2 ^ 63) (2 ^ 64)). lia.
Qed.

(** ** Monadic traversal *)

Lemma mapM_res_Ok {A B} (f : A → res B) (l : list A) :
  (∀ x, x ∈ l → ∃ y, f x = Ok y) → ∃ k, mapM f l = Ok k.
Proof.
  induction l as [|x l IH]; intros Hf; [by eexists|].
  destruct (Hf x) as [y Hy]; [set_solver|].
  destruct IH as [k Hk]; [set_solver|].
  exists (y :: k). cbn. by rewrite Hy; cbn; rewrite Hk.
Qed.

Lemma mapM_res_Forall2 {A B} (f : A → res B) (l : list A) k :
  mapM f l = Ok k → Forall2 (λ x y, f x = Ok y) l k.
Proof.
  revert k. induction l as [|x l IH]; intros k Hk; cbn in Hk; [injection Hk as <-; constructor|].
  destruct (f x) as [y| |] eqn:E; cbn in Hk; try discriminate.
  destruct (mapM f l) as [k'| |] eqn:E'; cbn in Hk; try discriminate.
  injection Hk as <-. constructor; auto.
Qed.

Lemma mapM_res_app {A B} (f : A → res B) (l1 l2 : list A) k1 k2 :
  mapM f l1 = Ok k1 → mapM f l2 = Ok k2 → mapM f (l1 ++ l2) = Ok (k1 ++ k2).
Proof.
  revert k1. induction l1 as [|x l1 IH]; intros k1 H1 H2; cbn in H1.
  { by injection H1 as <-. }
  cbn. destruct (f x) as [y| |]; cbn in *; try discriminate.
  destruct (mapM f l1) as [k1'| |]; cbn in *; try discriminate.
  injection H1 as <-. by rewrite (IH k1').
Qed.
