(* ===== verification/Persister.v ===== *)
(** * Persister: stable storage and the gob streams written to it

    Models src/src/raft/persister.go (the two byte slices a Raft peer and its
    key/value service keep across a crash) and the part of encoding/gob the
    Raft code relies on: an encoder appends one value to a buffer, a decoder
    takes the next one off, and decoding from an exhausted buffer leaves the
    target unchanged.  The mutex makes every method atomic, so a method is a
    function of the stored record. *)
From S2P Require Import Prelude.

Module Persister.

Section persister.
Context {B : Type}.

(*@ src/src/raft/persister.go 14-18 Persister *)
Record Persister := mkPersister {
  raftstate : list B;
  snapshot : list B;
}.

#[export] Instance eta_persister : Eta Persister :=
  λ ps, mkPersister (raftstate ps) (snapshot ps).

(*@ src/src/raft/persister.go 20-22 MakePersister *)
Definition MakePersister : Persister := mkPersister [] [].

(*@ src/src/raft/persister.go 24-31 Persister.Copy *)
Definition Copy (ps : Persister) : Persister :=
  let np := MakePersister in
  let np := np <| raftstate := raftstate ps |> in
  np <| snapshot := snapshot ps |>.

(*@ src/src/raft/persister.go 33-37 Persister.SaveRaftState *)
Definition SaveRaftState (ps : Persister) (data : list B) : Persister :=
  ps <| raftstate := data |>.

(*@ src/src/raft/persister.go 39-43 Persister.ReadRaftState *)
Definition ReadRaftState (ps : Persister) : list B := raftstate ps.

(*@ src/src/raft/persister.go 45-49 Persister.RaftStateSize *)
Definition RaftStateSize (ps : Persister) : Z := len (raftstate ps).

(*@ src/src/raft/persister.go 51-55 Persister.SaveSnapshot *)
Definition SaveSnapshot (ps : Persister) (sn : list B) : Persister :=
  ps <| snapshot := sn |>.

(*@ src/src/raft/persister.go 57-61 Persister.ReadSnapshot *)
Definition ReadSnapshot (ps : Persister) : list B := snapshot ps.

Lemma Copy_id ps : Copy ps = ps.
Proof. by destruct ps. Qed.

Lemma Read_Save ps data : ReadRaftState (SaveRaftState ps data) = data.
Proof. done. Qed.

(** The two stores a client can tell apart: what it reads back. *)
Definition stores (ps : Persister) : list B * list B :=
  (ReadRaftState ps, ReadSnapshot ps).

(** The contract of the storage: a save replaces one slot and leaves the
    other, and a copy reads like the original. *)
Lemma stores_SaveRaftState ps data :
  stores (SaveRaftState ps data) = (data, snd (stores ps)).
Proof. done. Qed.

Lemma stores_SaveSnapshot ps sn :
  stores (SaveSnapshot ps sn) = (fst (stores ps), sn).
Proof. done. Qed.
End persister.
Arguments Persister : clear implicits.

#[export] Hint Rewrite @Copy_id @Read_Save : go.

End Persister.
