(* ===== verification/Raft.v ===== *)
(** * Raft: one consensus peer

    Models src/src/raft/raft.go: the state of one peer and every operation
    that changes it.  A critical section of the peer's mutex is one definition,
    but for the two that use [nextIndex], which other goroutines write without the
    lock: taking office and preparing a message are cut where such a write can
    come in between.  What a goroutine does without the lock (an RPC, a check, each
    assignment to [nextIndex]) is a separate definition, so that RaftCluster.v can
    interleave them the way the Go scheduler may. *)
From S2P Require Import Prelude Persister.
Export Persister.

Module Raft.

(** [rf.role]: 0-follower, 1-candidate, 2-leader. *)
Inductive Role := Follower | Candidate | Leader.

#[export] Instance role_eq_dec : EqDecision Role.
Proof. solve_decision. Defined.

Definition Millisecond : Z := 1000000.

Section raft.
Context {Cmd : Type}.

(** A log entry is the Go map with the two keys "command" and "term" that
    [Start] builds; the "term" value is always an [int]. *)
(*@ src/src/raft/raft.go 350-350 Raft.Start (log entry) *)
Record LogEntry := mkEntry { command : Cmd; term : Z }.

(*@ src/src/raft/raft.go 41-46 ApplyMsg *)
Record ApplyMsg := mkApplyMsg {
  Index : Z;
  Command : Cmd;
  UseSnapshot : bool;
}.

(** The values [persist] writes to its gob stream. *)
Inductive GobVal := GobInt (z : Z) | GobLogs (l : list LogEntry).

(*@ src/src/raft/raft.go 51-88 Raft *)
Record Raft := mkRaft {
  peers : Z;                     (* len(rf.peers) *)
  persister : Persister GobVal;
  me : Z;
  currentTerm : Z;
  votedFor : Z;
  logs : list LogEntry;
  commitIndex : Z;
  lastApplied : Z;
  nextIndex : list Z;
  matchIndex : list Z;
  role : Role;
  electionTimeout : Z;
  heartBeatTimeout : Z;
  lastHeart : Z;
  running : bool;
  counter : Z;
}.

#[export] Instance eta_raft : Eta Raft := λ r,
  mkRaft (peers r) (persister r) (me r) (currentTerm r) (votedFor r) (logs r)
    (commitIndex r) (lastApplied r) (nextIndex r) (matchIndex r) (role r)
    (electionTimeout r) (heartBeatTimeout r) (lastHeart r) (running r)
    (counter r).

(*@ src/src/raft/raft.go 92-97 Raft.GetState *)
Definition GetState (rf : Raft) : Z * bool :=
  (currentTerm rf, bool_decide (role rf = Leader)).

(*@ src/src/raft/raft.go 99-104 Raft.GetState2 *)
Definition GetState2 (rf : Raft) : bool * list LogEntry * Z :=
  (bool_decide (role rf = Leader), logs rf, commitIndex rf).

(** gob: [Encode] appends a value to the buffer ... *)
Definition encode_state (term vote : Z) (l : list LogEntry) : list GobVal :=
  [GobInt term; GobInt vote; GobLogs l].

(** ... and [Decode(&x)] takes the next value; on an empty buffer (io.EOF)
    or on a value of another type [x] keeps its old value. *)
Definition decode_int (old : Z) (r : list GobVal) : Z * list GobVal :=
  match r with
  | GobInt z :: r' => (z, r')
  | _ :: r' => (old, r')
  | [] => (old, [])
  end.

Definition decode_logs (old : list LogEntry) (r : list GobVal) :
    list LogEntry * list GobVal :=
  match r with
  | GobLogs l :: r' => (l, r')
  | _ :: r' => (old, r')
  | [] => (old, [])
  end.

(*@ src/src/raft/raft.go 111-119 Raft.persist *)
Definition persist (rf : Raft) : Raft :=
  let data := encode_state (currentTerm rf) (votedFor rf) (logs rf) in
  rf <| persister := SaveRaftState (persister rf) data |>.

(*@ src/src/raft/raft.go 124-131 Raft.readPersist *)
Definition readPersist (rf : Raft) (data : list GobVal) : Raft :=
  let '(t, r) := decode_int (currentTerm rf) data in
  let '(v, r) := decode_int (votedFor rf) r in
  let '(l, r) := decode_logs (logs rf) r in
  rf <| currentTerm := t |> <| votedFor := v |> <| logs := l |>.

(*@ src/src/raft/raft.go 139-145 RequestVoteArgs *)
Record RequestVoteArgs := mkRVArgs {
  rv_Term : Z;
  CandidateId : Z;
  LastLogIndex : Z;
  LastLogTerm : Z;
}.

(*@ src/src/raft/raft.go 150-154 RequestVoteReply *)
Record RequestVoteReply := mkRVReply { rvr_Term : Z; VoteGranted : bool }.

(*@ src/src/raft/raft.go 156-163 AppendEntriesArgs *)
Record AppendEntriesArgs := mkAEArgs {
  ae_Term : Z;
  LeaderId : Z;
  PrevLogIndex : Z;
  PrevLogTerm : Z;
  Entries : list LogEntry;
  LeaderCommit : Z;
}.

(*@ src/src/raft/raft.go 165-169 AppendEntriesReply *)
Record AppendEntriesReply := mkAEReply {
  aer_Term : Z;
  Success : bool;
  Len : Z;
}.

(** The term of the last entry, 0 for an empty log. *)
(*@ src/src/raft/raft.go 193-197 Raft.RequestVote (lastLogTerm) *)
Definition lastLogTerm (l : list LogEntry) : Z :=
  match last l with Some e => term e | None => 0 end.

(** Is the candidate's log at least as up to date as [l]? *)
(*@ src/src/raft/raft.go 198-198 Raft.RequestVote (condition) *)
Definition log_ok (l : list LogEntry) (args : RequestVoteArgs) : bool :=
  (lastLogTerm l <? LastLogTerm args) ||
  ((lastLogTerm l =? LastLogTerm args) && (len l <=? LastLogIndex args)).

(** A term higher than ours: become a follower that has not voted. *)
(*@ src/src/raft/raft.go 183-191 Raft.RequestVote (higher term) *)
Definition adopt_term (rf : Raft) (t : Z) : Raft :=
  if currentTerm rf <? t then
    rf <| role := Follower |> <| votedFor := -1 |> <| currentTerm := t |>
  else rf.

(*@ src/src/raft/raft.go 174-215 Raft.RequestVote *)
Definition RequestVote (now : Z) (rf : Raft) (args : RequestVoteArgs) :
    Raft * RequestVoteReply :=
  let '(rf, granted) :=
    if rv_Term args <? currentTerm rf then (rf, false)
    else
      let rf := adopt_term rf (rv_Term args) in
      if ((votedFor rf =? -1) || (votedFor rf =? CandidateId args)) &&
         log_ok (logs rf) args
      then
        (rf <| role := Follower |> <| votedFor := CandidateId args |>
            <| lastHeart := now |>, true)
      else (rf, false) in
  let rf := persist rf in
  (rf, mkRVReply (currentTerm rf) granted).

(** The check [reply.Term > rf.currentTerm] both senders make without
    holding the lock ... *)
(*@ src/src/raft/raft.go 240-240 Raft.sendRequestVote (check) *)
Definition reply_is_newer (rf : Raft) (t : Z) : bool := currentTerm rf <? t.

(** ... and the critical section that follows it. *)
(*@ src/src/raft/raft.go 241-246 Raft.sendRequestVote (step down) *)
Definition step_down (rf : Raft) (t : Z) : Raft :=
  persist (rf <| currentTerm := t |> <| role := Follower |> <| votedFor := -1 |>).

(** Does the follower's log contain the entry the leader's message builds on?
    [rf.logs[args.PrevLogIndex-1]["term"] == args.PrevLogTerm], guarded by
    the length test. *)
(*@ src/src/raft/raft.go 268-268 Raft.AppendEntries (condition) *)
Definition prev_matches (l : list LogEntry) (args : AppendEntriesArgs) : res bool :=
  if PrevLogIndex args <=? len l then
    e ← slice_get l (PrevLogIndex args - 1);
    mret (term e =? PrevLogTerm args)
  else mret false.

(** The messages the loop [for iter := a; iter < b; iter++] sends on applyCh. *)
(*@ src/src/raft/raft.go 283-289 Raft.AppendEntries (apply loop) *)
Definition apply_range (l : list LogEntry) (a b : Z) : res (list ApplyMsg) :=
  mapM (λ iter, e ← slice_get l iter;
                mret (mkApplyMsg (iter + 1) (command e) false)) (range a b).

(** The sender is the leader of its term. *)
(*@ src/src/raft/raft.go 263-265 Raft.AppendEntries (follow) *)
Definition follow (rf : Raft) (args : AppendEntriesArgs) : Raft :=
  rf <| currentTerm := ae_Term args |> <| role := Follower |>
     <| votedFor := LeaderId args |>.

(** Accept or reject: the new state, [reply.Success] and [reply.Len]. *)
(*@ src/src/raft/raft.go 256-277 Raft.AppendEntries (check) *)
Definition check_append (now : Z) (rf : Raft) (args : AppendEntriesArgs) :
    res (Raft * bool * Z) :=
  if ae_Term args <? currentTerm rf then mret (rf, false, 0)
  else
    let rf := follow rf args in
    if 0 <? PrevLogIndex args then
      m ← prev_matches (logs rf) args;
      if m : bool then mret (rf, true, 0)
      else mret (rf <| lastHeart := now |>, false, len (logs rf))
    else mret (rf, true, 0).

(** The log is cut at [PrevLogIndex] and extended; newly committed entries are
    applied; [commitIndex] becomes the leader's. *)
(*@ src/src/raft/raft.go 279-293 Raft.AppendEntries (accept) *)
Definition accept_entries (now : Z) (rf : Raft) (args : AppendEntriesArgs) :
    res (Raft * list ApplyMsg) :=
  kept ← slice_to (logs rf) (PrevLogIndex args);
  let rf := rf <| logs := kept ++ Entries args |> in
  msgs ← apply_range (logs rf) (commitIndex rf) (LeaderCommit args);
  mret (rf <| commitIndex := LeaderCommit args |> <| lastHeart := now |>, msgs).

(*@ src/src/raft/raft.go 252-298 Raft.AppendEntries *)
Definition AppendEntries (now : Z) (rf : Raft) (args : AppendEntriesArgs) :
    res (Raft * AppendEntriesReply * list ApplyMsg) :=
  '(rf, success, rlen) ← check_append now rf args;
  let reply := mkAEReply (currentTerm rf) success rlen in
  '(rf, msgs) ← (if success : bool then accept_entries now rf args else mret (rf, []));
  mret (persist rf, reply, msgs).

(** An assignment to an element of [nextIndex]. *)
Definition set_next (rf : Raft) (server x : Z) : res Raft :=
  nx ← slice_set (nextIndex rf) server x;
  mret (rf <| nextIndex := nx |>).

(** A peer has rejected the leader's message ([Call] returned true): the test, and
    the three assignments of which the last one ("use snapshot") decides.  All of
    it without the lock. *)
(*@ src/src/raft/raft.go 314-314 Raft.sendAppendEntries (condition) *)
Definition rewinds (rf : Raft) (reply : AppendEntriesReply) : bool :=
  bool_decide (role rf = Leader) && negb (Success reply).

Inductive Rewind := RewindPrev | RewindLen | RewindOne.

(*@ src/src/raft/raft.go 315-322 Raft.sendAppendEntries (rewind) *)
Definition rewind (rf : Raft) (server : Z) (args : AppendEntriesArgs)
    (reply : AppendEntriesReply) (w : Rewind) : res Raft :=
  match w with
  | RewindPrev => set_next rf server (PrevLogIndex args)
  | RewindLen =>
      if Len reply <? PrevLogIndex args then set_next rf server (Len reply + 1) else mret rf
  | RewindOne => set_next rf server 1
  end.

(*@ src/src/raft/raft.go 345-360 Raft.Start *)
Definition Start (rf : Raft) (cmd : Cmd) : Raft * (Z * Z * bool) :=
  let index := len (logs rf) + 1 in
  let rf :=
    if decide (role rf = Leader) then
      persist (rf <| logs := logs rf ++ [mkEntry cmd (currentTerm rf)] |>)
    else rf in
  (rf, (index, currentTerm rf, bool_decide (role rf = Leader))).

(*@ src/src/raft/raft.go 368-371 Raft.Kill *)
Definition Kill (rf : Raft) : Raft := rf <| running := false |>.

(** [rand.Intn(100) + 100] and [rand.Intn(50) + 50] milliseconds. *)
(*@ src/src/raft/raft.go 403-403 Make (election timeout) *)
Definition election_timeout (r : Z) : Z := (r + 100) * Millisecond.

(*@ src/src/raft/raft.go 404-404 Make (heartbeat timeout) *)
Definition heartbeat_timeout (r : Z) : Z := (r + 50) * Millisecond.

(** The zero value [&Raft{}]. *)
Definition zero_raft : Raft :=
  mkRaft 0 MakePersister 0 0 0 [] 0 0 [] [] Follower 0 0 0 false 0.

(** [r1], [r2] are the two random numbers drawn, [now] the clock. *)
(*@ src/src/raft/raft.go 384-413 Make *)
Definition Make (npeers i : Z) (ps : Persister GobVal) (r1 r2 now : Z) : Raft :=
  let rf := zero_raft in
  let rf := rf <| peers := npeers |> <| persister := ps |> <| me := i |> in
  let rf := rf <| running := true |> in
  let rf := readPersist rf (ReadRaftState ps) in
  let rf := rf <| electionTimeout := election_timeout r1 |>
               <| heartBeatTimeout := heartbeat_timeout r2 |>
               <| counter := 0 |> <| lastHeart := now |> in
  rf <| role := Follower |> <| commitIndex := 0 |> <| lastApplied := 0 |>.

(** The check of the election loop, made without the lock. *)
(*@ src/src/raft/raft.go 423-423 Make (election loop, check) *)
Definition election_due (rf : Raft) (now : Z) : bool :=
  negb (bool_decide (role rf = Leader)) &&
  (electionTimeout rf <=? now - lastHeart rf).

(** The critical section of the election loop. *)
(*@ src/src/raft/raft.go 424-431 Make (election loop, critical section) *)
Definition start_election (rf : Raft) (r : Z) : Raft :=
  persist (rf <| electionTimeout := election_timeout r |>
              <| currentTerm := int64 (currentTerm rf + 1) |>
              <| votedFor := me rf |> <| role := Candidate |>).

(** "sleep at most electionTimeout duration" *)
(*@ src/src/raft/raft.go 434-437 Make (election loop, end) *)
Definition election_loop_end (rf : Raft) (now : Z) : Raft :=
  if electionTimeout rf <=? now - lastHeart rf
  then rf <| lastHeart := now |> else rf.

(** The peers a broadcast loop visits: every index but [rf.me]. *)
Definition others (rf : Raft) : list Z :=
  filter (λ i, i ≠ me rf) (range 0 (peers rf)).

(** The requests doVote sends, one goroutine each. *)
(*@ src/src/raft/raft.go 444-459 Raft.doVote *)
Definition doVote (rf : Raft) : list (Z * RequestVoteArgs) :=
  let index := len (logs rf) in
  let term := lastLogTerm (logs rf) in
  (λ p, (p, mkRVArgs (currentTerm rf) (me rf) index term)) <$> others rf.

(** A vote came back ([ok]): count it while still a candidate of that term,
    and take office at a majority.  Returns the new value of [agreed] and
    whether there was one.  [matchIndex], which only holders of the lock use, is
    emptied here already. *)
(*@ src/src/raft/raft.go 461-467 Raft.doVote (tally) *)
Definition tally (rf : Raft) (args : RequestVoteArgs) (ok : bool) (agreed : Z) :
    Raft * Z * bool :=
  if ok && (rv_Term args =? currentTerm rf) && bool_decide (role rf = Candidate) then
    let agreed := agreed + 1 in
    if peers rf <? agreed * 2 then
      (rf <| role := Leader |> <| matchIndex := [] |>, agreed, true)
    else (rf, agreed, false)
  else (rf, agreed, false).

(*@ src/src/raft/raft.go 466-466 Raft.doVote (truncate) *)
Definition truncate_next (rf : Raft) : Raft := rf <| nextIndex := [] |>.

(** The loop that fills the two slices, turn by turn, and [rf.persist()]. *)
(*@ src/src/raft/raft.go 469-470 Raft.doVote (loop body) *)
Definition append_indices (rf : Raft) : Raft :=
  rf <| nextIndex := nextIndex rf ++ [len (logs rf) + 1] |>
     <| matchIndex := matchIndex rf ++ [0] |>.

(*@ src/src/raft/raft.go 468-473 Raft.doVote (fill) *)
Definition fill_indices (rf : Raft) : Raft :=
  persist (foldl (λ rf _, append_indices rf) rf (range 0 (peers rf))).

(** Entering doSubmit: at most one heartbeat goroutine per peer.  The new
    state, and whether the goroutine goes on; if not, it takes its increment back,
    as it does in the end. *)
(*@ src/src/raft/raft.go 489-489 Raft.doSubmit (guard) *)
Definition submit_enter (rf : Raft) : Raft * bool :=
  (rf <| counter := int64 (counter rf + 1) |>, int64 (counter rf + 1) <=? 1).

(*@ src/src/raft/raft.go 560-564 Raft.doSubmit (exit) *)
Definition submit_exit (rf : Raft) : Raft :=
  rf <| counter := int64 (counter rf - 1) |>.

(** The two tests at each tick, made without the lock. *)
(*@ src/src/raft/raft.go 493-499 Raft.doSubmit (tick) *)
Definition tick_continues (rf : Raft) : bool :=
  running rf && bool_decide (role rf = Leader).

(** One AppendEntries message to [peer] ... *)
(*@ src/src/raft/raft.go 503-516 Raft.doSubmit (prepare) *)
Definition prepare_append (rf : Raft) (peer : Z) : res AppendEntriesArgs :=
  index ← slice_get (nextIndex rf) peer;
  entries ← (if index <=? len (logs rf) then slice_from (logs rf) (index - 1)
             else mret []);
  term ← (if 1 <? index then e ← slice_get (logs rf) (index - 2); mret (term e)
          else mret 0);
  mret (mkAEArgs (currentTerm rf) (me rf) (index - 1) term entries (commitIndex rf)).

(** ... and the optimistic [nextIndex], the last statement of the section. *)
(*@ src/src/raft/raft.go 517-517 Raft.doSubmit (advance) *)
Definition advance_next (rf : Raft) (peer : Z) (args : AppendEntriesArgs) : res Raft :=
  set_next rf peer (PrevLogIndex args + len (Entries args) + 1).

(** How many peers hold the entry at [iter] (0-based), the leader included. *)
(*@ src/src/raft/raft.go 531-540 Raft.doSubmit (count) *)
Definition count_replicas (rf : Raft) (iter : Z) : res Z :=
  ms ← mapM (λ j, if j =? me rf then mret 0 else
                  m ← slice_get (matchIndex rf) j;
                  mret (if iter <? m then 1 else 0)) (range 0 (peers rf));
  mret (1 + foldr Z.add 0 ms).

(** Commit everything up to [iter] in order. *)
(*@ src/src/raft/raft.go 541-549 Raft.doSubmit (commit) *)
Definition commit_to (rf : Raft) (iter : Z) : res (Raft * list ApplyMsg) :=
  msgs ← apply_range (logs rf) (commitIndex rf) (iter + 1);
  mret (rf <| commitIndex := Z.max (commitIndex rf) (iter + 1) |>, msgs).

(** The commit loop; [iters] is what is left of
    [for iter := rf.commitIndex; iter < len(rf.logs); iter++]. *)
(*@ src/src/raft/raft.go 527-553 Raft.doSubmit (commit loop) *)
Fixpoint commit_loop (rf : Raft) (iters : list Z) : res (Raft * list ApplyMsg) :=
  match iters with
  | [] => mret (rf, [])
  | iter :: rest =>
      e ← slice_get (logs rf) iter;
      if term e <? currentTerm rf then commit_loop rf rest
      else
        count ← count_replicas rf iter;
        if peers rf <? count * 2 then
          '(rf, msgs) ← commit_to rf iter;
          '(rf, msgs') ← commit_loop rf rest;
          mret (rf, msgs ++ msgs')
        else mret (rf, [])
  end.

(** What the sender does with the outcome of one AppendEntries. *)
(*@ src/src/raft/raft.go 522-555 Raft.doSubmit (reply) *)
Definition append_done (rf : Raft) (peer : Z) (args : AppendEntriesArgs) (ok : bool) :
    res (Raft * list ApplyMsg) :=
  if ok && (ae_Term args =? currentTerm rf) && bool_decide (role rf = Leader) then
    mt ← slice_set (matchIndex rf) peer (PrevLogIndex args + len (Entries args));
    let rf := rf <| matchIndex := mt |> in
    commit_loop rf (range (commitIndex rf) (len (logs rf)))
  else mret (rf, []).
End raft.

Arguments LogEntry : clear implicits.
Arguments ApplyMsg : clear implicits.
Arguments GobVal : clear implicits.
Arguments Raft : clear implicits.
Arguments AppendEntriesArgs : clear implicits.
End Raft.
