(* ===== verification/RaftCluster.v ===== *)
(** * RaftCluster: the peers, their goroutines and the network

    The goroutines src/src/raft/raft.go starts, as threads whose atomic steps
    are the critical sections of Raft.v, the checks and the assignments made
    without the lock, and the delivery or loss of one RPC.  [sendAppendEntries]
    assigns to [nextIndex] without the lock; therefore the two critical sections
    that use [nextIndex] are not atomic: they end at the points where such an
    assignment matters, and [crits] says what is left of them.  Meanwhile the
    lock is taken, and the other goroutines of the peer only take steps that do
    not need it.  Labrpc executes every request at most
    once and may lose the request or the reply; it may delay both for any time,
    so the order of deliveries is free.  A restart is [start1] of
    src/src/raft/config.go: the peer is rebuilt from a copy of its persister and
    the end points of the old instance stay disconnected, so the old instance's
    requests may still be executed but it never acts on a reply.

    [exec] is executable: a list of events is a schedule. *)
From S2P Require Import Prelude Persister Raft.
Export Raft.

Module Cluster.

Section cluster.
Context {Cmd : Type}.
#[local] Notation Raft := (Raft.Raft Cmd).
#[local] Notation AEArgs := (AppendEntriesArgs Cmd).

(** One [sendRequestVote] goroutine of doVote. *)
(*@ src/src/raft/raft.go 456-481 Raft.doVote (goroutine) *)
Inductive RVPhase :=
| RVSent                                (* request on the network *)
| RVReplied (r : RequestVoteReply)      (* reply on the network *)
| RVStale (r : RequestVoteReply)        (* saw a newer term, wants the lock *)
| RVGot (ok : bool)                     (* sendRequestVote returned *)
| RVDone (counted : bool).

(** One [sendAppendEntries] goroutine of doSubmit. *)
(*@ src/src/raft/raft.go 500-557 Raft.doSubmit (goroutine) *)
Inductive AEPhase :=
| AESpawned                             (* wants the lock to build the message *)
| AEPreparing (args : AEArgs)           (* holds the lock, has read nextIndex *)
| AESent (args : AEArgs)
| AEReplied (args : AEArgs) (r : AppendEntriesReply)
| AEStale (args : AEArgs) (r : AppendEntriesReply)
| AEChecked (args : AEArgs) (r : AppendEntriesReply)
| AERewind (args : AEArgs) (r : AppendEntriesReply) (w : Rewind)
                                        (* the assignment it is about to make *)
| AEGot (args : AEArgs) (ok : bool)     (* sendAppendEntries returned *)
| AEDone.

(** [SubmitBack]: one too many, it takes back its increment of the counter. *)
(*@ src/src/raft/raft.go 487-493 Raft.doSubmit (phases) *)
Inductive SubmitPhase := SubmitNew | SubmitBack | SubmitLoop | SubmitEnd.

Inductive Thread :=
| RVThread (owner peer : Z) (epoch camp : nat) (args : RequestVoteArgs) (ph : RVPhase)
| AEThread (owner peer : Z) (epoch : nat) (ph : AEPhase)
| SubmitThread (owner : Z) (epoch : nat) (ph : SubmitPhase).

(** Where the election loop of a peer stands. *)
(*@ src/src/raft/raft.go 415-440 Make (election loop) *)
Inductive LoopPC := LoopTop | LoopDue | LoopVote | LoopEnd | LoopExit.

(** What is left of the critical section some goroutine of a peer is in.  A winner
    of an election has to empty [nextIndex], then to fill it: nobody else reads
    it, and an assignment to a slot that is there already comes to the same as
    one after the loop, so that the loop is one step.  A goroutine that has built
    its message has to store the next index. *)
(*@ src/src/raft/raft.go 464-480 Raft.doVote (taking office) *)
Inductive Critical := Free | Truncating | Filling | Sending (tid : nat).

(** [campaigns] holds the variable [agreed] of every doVote call so far. *)
Record Cluster := mkCluster {
  size : Z;
  nodes : Z → Raft;
  loops : Z → LoopPC;
  epochs : Z → nat;
  campaigns : list Z;
  threads : list Thread;
  applied : Z → list (ApplyMsg Cmd);
  crits : Z → Critical;
}.

#[export] Instance eta_cluster : Eta Cluster := λ s,
  mkCluster (size s) (nodes s) (loops s) (epochs s) (campaigns s) (threads s)
    (applied s) (crits s).

Inductive Event :=
| ELoopTop (i now : Z)
| EElect (i rnd : Z)
| EDoVote (i : Z)
| ELoopEnd (i now : Z)
| EStart (i : Z) (cmd : Cmd)
| EKill (i : Z)
| ERestart (i r1 r2 now : Z)
| EDeliver (tid : nat) (now : Z)
| ELose (tid : nat)
| ECheck (tid : nat)
| EStepDown (tid : nat)
| ERewind (tid : nat)
| ETally (tid : nat)
| ESubmit (tid : nat)
| ETick (tid : nat)
| EPrepare (tid : nat)
| EAppendDone (tid : nat)
| ECritical (i : Z).

Definition valid (s : Cluster) (i : Z) : bool := (0 <=? i) && (i <? size s).

(** Is the instance that started the goroutine still the current one? *)
Definition alive (s : Cluster) (owner : Z) (epoch : nat) : bool :=
  (epoch =? epochs s owner)%nat.

(** Nobody is inside a critical section of peer [i]. *)
Definition unlocked (s : Cluster) (i : Z) : bool :=
  match crits s i with Free => true | _ => false end.

(** May a goroutine of that instance take the lock? *)
Definition may_lock (s : Cluster) (owner : Z) (epoch : nat) : bool :=
  alive s owner epoch && unlocked s owner.

Definition put_node (s : Cluster) (i : Z) (rf : Raft) : Cluster :=
  s <| nodes := <[i:=rf]> (nodes s) |>.
Definition put_loop (s : Cluster) (i : Z) (pc : LoopPC) : Cluster :=
  s <| loops := <[i:=pc]> (loops s) |>.
Definition put_thread (s : Cluster) (tid : nat) (th : Thread) : Cluster :=
  s <| threads := <[tid:=th]> (threads s) |>.
Definition spawn (s : Cluster) (ths : list Thread) : Cluster :=
  s <| threads := threads s ++ ths |>.
Definition apply (s : Cluster) (i : Z) (msgs : list (ApplyMsg Cmd)) : Cluster :=
  s <| applied := <[i:=applied s i ++ msgs]> (applied s) |>.

Definition put_crit (s : Cluster) (i : Z) (c : Critical) : Cluster :=
  s <| crits := <[i:=c]> (crits s) |>.

(** Steps of the election loop goroutine of peer [i]. *)
Definition exec_loop_top (s : Cluster) (i now : Z) : option (res Cluster) :=
  match loops s i with
  | LoopTop =>
      Some (Ok (put_loop s i
        (if negb (running (nodes s i)) then LoopExit
         else if election_due (nodes s i) now then LoopDue else LoopEnd)))
  | _ => None
  end.

Definition exec_elect (s : Cluster) (i rnd : Z) : option (res Cluster) :=
  match loops s i with
  | LoopDue => Some (Ok (put_node (put_loop s i LoopVote) i
                           (start_election (nodes s i) rnd)))
  | _ => None
  end.

Definition vote_threads (s : Cluster) (i : Z) : list Thread :=
  (λ '(p, args), RVThread i p (epochs s i) (length (campaigns s)) args RVSent)
    <$> doVote (nodes s i).

Definition exec_do_vote (s : Cluster) (i : Z) : option (res Cluster) :=
  match loops s i with
  | LoopVote =>
      let s' := put_loop (spawn s (vote_threads s i)) i LoopEnd in
      Some (Ok (s' <| campaigns := campaigns s ++ [1] |>))
  | _ => None
  end.

Definition exec_loop_end (s : Cluster) (i now : Z) : option (res Cluster) :=
  match loops s i with
  | LoopEnd => Some (Ok (put_node (put_loop s i LoopTop) i
                           (election_loop_end (nodes s i) now)))
  | _ => None
  end.

(** crash1 and start1 of the tester: the old instance is cut off, the new one
    starts from a copy of the saved state, with a lock of its own. *)
(*@ src/src/raft/config.go 112-189 config.start1 *)
Definition exec_restart (s : Cluster) (i r1 r2 now : Z) : option (res Cluster) :=
  let rf := Make (size s) i (Copy (persister (nodes s i))) r1 r2 now in
  let s' := put_loop (put_node s i rf) i LoopTop in
  Some (Ok (put_crit (s' <| epochs := <[i:=S (epochs s i)]> (epochs s) |>
                         <| applied := <[i:=[]]> (applied s) |>) i Free)).

(** The network hands a request to the peer's handler. *)
Definition exec_deliver (s : Cluster) (tid : nat) (now : Z) : option (res Cluster) :=
  match threads s !! tid with
  | Some (RVThread o p ep k args RVSent) =>
      if unlocked s p then
        let '(rf, r) := RequestVote now (nodes s p) args in
        Some (Ok (put_thread (put_node s p rf) tid
                    (RVThread o p ep k args (RVReplied r))))
      else None
  | Some (AEThread o p ep (AESent args)) =>
      if unlocked s p then
        Some ('(rf, r, msgs) ← AppendEntries now (nodes s p) args;
              mret (apply (put_thread (put_node s p rf) tid
                             (AEThread o p ep (AEReplied args r))) p msgs))
      else None
  | _ => None
  end.

(** The request or the reply is lost: [Call] returns false. *)
Definition exec_lose (s : Cluster) (tid : nat) : option (res Cluster) :=
  match threads s !! tid with
  | Some (RVThread o p ep k args (RVSent | RVReplied _)) =>
      Some (Ok (put_thread s tid (RVThread o p ep k args (RVGot false))))
  | Some (AEThread o p ep (AESent args | AEReplied args _)) =>
      Some (Ok (put_thread s tid (AEThread o p ep (AEGot args false))))
  | _ => None
  end.

(** [Call] returned true: the unlocked comparison of terms (lines 239-240 for a
    vote). *)
(*@ src/src/raft/raft.go 305-307 Raft.sendAppendEntries (check) *)
Definition exec_check (s : Cluster) (tid : nat) : option (res Cluster) :=
  match threads s !! tid with
  | Some (RVThread o p ep k args (RVReplied r)) =>
      if alive s o ep then
        Some (Ok (put_thread s tid (RVThread o p ep k args
          (if reply_is_newer (nodes s o) (rvr_Term r) then RVStale r
           else RVGot (VoteGranted r)))))
      else None
  | Some (AEThread o p ep (AEReplied args r)) =>
      if alive s o ep then
        Some (Ok (put_thread s tid (AEThread o p ep
          (if reply_is_newer (nodes s o) (aer_Term r) then AEStale args r
           else AEChecked args r))))
      else None
  | _ => None
  end.

(** The critical section after it (lines 241-246 for a vote). *)
(*@ src/src/raft/raft.go 307-313 Raft.sendAppendEntries (step down) *)
Definition exec_step_down (s : Cluster) (tid : nat) : option (res Cluster) :=
  match threads s !! tid with
  | Some (RVThread o p ep k args (RVStale r)) =>
      if may_lock s o ep then
        Some (Ok (put_thread (put_node s o (step_down (nodes s o) (rvr_Term r)))
                    tid (RVThread o p ep k args (RVGot (VoteGranted r)))))
      else None
  | Some (AEThread o p ep (AEStale args r)) =>
      if may_lock s o ep then
        Some (Ok (put_thread (put_node s o (step_down (nodes s o) (aer_Term r)))
                    tid (AEThread o p ep (AEChecked args r))))
      else None
  | _ => None
  end.

(** The unlocked test, then the three assignments. *)
(*@ src/src/raft/raft.go 314-328 Raft.sendAppendEntries (rewind) *)
Definition exec_rewind (s : Cluster) (tid : nat) : option (res Cluster) :=
  match threads s !! tid with
  | Some (AEThread o p ep (AEChecked args r)) =>
      if alive s o ep then
        Some (Ok (put_thread s tid (AEThread o p ep
          (if rewinds (nodes s o) r then AERewind args r RewindPrev
           else AEGot args (Success r)))))
      else None
  | Some (AEThread o p ep (AERewind args r w)) =>
      if alive s o ep then
        Some (rf ← rewind (nodes s o) p args r w;
              mret (put_thread (put_node s o rf) tid (AEThread o p ep
                      match w with
                      | RewindPrev => AERewind args r RewindLen
                      | RewindLen => AERewind args r RewindOne
                      | RewindOne => AEGot args (Success r)
                      end)))
      else None
  | _ => None
  end.

Definition exec_tally (s : Cluster) (tid : nat) : option (res Cluster) :=
  match threads s !! tid with
  | Some (RVThread o p ep k args (RVGot ok)) =>
      match campaigns s !! k with
      | Some agreed =>
          if may_lock s o ep then
            let '(rf, agreed', won) := tally (nodes s o) args ok agreed in
            let s' := put_thread (put_node s o rf) tid
                        (RVThread o p ep k args (RVDone (agreed <? agreed'))) in
            let s' := s' <| campaigns := <[k:=agreed']> (campaigns s) |> in
            Some (Ok (if won : bool then put_crit s' o Truncating else s'))
          else None
      | None => None
      end
  | _ => None
  end.

(*@ src/src/raft/raft.go 489-492 Raft.doSubmit (entry) *)
Definition exec_submit (s : Cluster) (tid : nat) : option (res Cluster) :=
  match threads s !! tid with
  | Some (SubmitThread o ep SubmitNew) =>
      if alive s o ep then
        let '(rf, go) := submit_enter (nodes s o) in
        Some (Ok (put_thread (put_node s o rf) tid
                    (SubmitThread o ep (if go : bool then SubmitLoop else SubmitBack))))
      else None
  | Some (SubmitThread o ep SubmitBack) =>
      if alive s o ep then
        Some (Ok (put_thread (put_node s o (submit_exit (nodes s o))) tid
                    (SubmitThread o ep SubmitEnd)))
      else None
  | _ => None
  end.

Definition exec_tick (s : Cluster) (tid : nat) : option (res Cluster) :=
  match threads s !! tid with
  | Some (SubmitThread o ep SubmitLoop) =>
      if alive s o ep then
        Some (Ok (if tick_continues (nodes s o) then
                    spawn s ((λ p, AEThread o p ep AESpawned) <$> others (nodes s o))
                  else put_thread (put_node s o (submit_exit (nodes s o))) tid
                         (SubmitThread o ep SubmitEnd)))
      else None
  | _ => None
  end.

Definition exec_prepare (s : Cluster) (tid : nat) : option (res Cluster) :=
  match threads s !! tid with
  | Some (AEThread o p ep AESpawned) =>
      if may_lock s o ep then
        Some (args ← prepare_append (nodes s o) p;
              mret (put_crit (put_thread s tid (AEThread o p ep (AEPreparing args)))
                      o (Sending tid)))
      else None
  | _ => None
  end.

Definition exec_append_done (s : Cluster) (tid : nat) : option (res Cluster) :=
  match threads s !! tid with
  | Some (AEThread o p ep (AEGot args ok)) =>
      if may_lock s o ep then
        Some ('(rf, msgs) ← append_done (nodes s o) p args ok;
              mret (apply (put_thread (put_node s o rf) tid
                             (AEThread o p ep AEDone)) o msgs))
      else None
  | _ => None
  end.

(** The goroutine inside the critical section of peer [i] goes on; the last step
    releases the lock. *)
(*@ src/src/raft/raft.go 466-480 Raft.doVote (taking office) *)
Definition exec_critical (s : Cluster) (i : Z) : option (res Cluster) :=
  match crits s i with
  | Free => None
  | Truncating => Some (Ok (put_crit (put_node s i (truncate_next (nodes s i))) i Filling))
  | Filling =>
      Some (Ok (put_crit (spawn (put_node s i (fill_indices (nodes s i)))
                            [SubmitThread i (epochs s i) SubmitNew]) i Free))
  | Sending tid =>
      match threads s !! tid with
      | Some (AEThread o p ep (AEPreparing args)) =>
          Some (rf ← advance_next (nodes s i) p args;
                mret (put_crit (put_thread (put_node s i rf) tid
                                  (AEThread o p ep (AESent args))) i Free))
      | _ => None
      end
  end.

(** [None]: the event is not enabled; [Some Panic]: the process panics. *)
Definition exec (s : Cluster) (e : Event) : option (res Cluster) :=
  match e with
  | ELoopTop i now => if valid s i then exec_loop_top s i now else None
  | EElect i rnd => if valid s i && unlocked s i then exec_elect s i rnd else None
  | EDoVote i => if valid s i && unlocked s i then exec_do_vote s i else None
  | ELoopEnd i now => if valid s i then exec_loop_end s i now else None
  | EStart i cmd =>
      if valid s i && unlocked s i
      then Some (Ok (put_node s i (fst (Start (nodes s i) cmd)))) else None
  | EKill i =>
      if valid s i then Some (Ok (put_node s i (Kill (nodes s i)))) else None
  | ERestart i r1 r2 now => if valid s i then exec_restart s i r1 r2 now else None
  | EDeliver tid now => exec_deliver s tid now
  | ELose tid => exec_lose s tid
  | ECheck tid => exec_check s tid
  | EStepDown tid => exec_step_down s tid
  | ERewind tid => exec_rewind s tid
  | ETally tid => exec_tally s tid
  | ESubmit tid => exec_submit s tid
  | ETick tid => exec_tick s tid
  | EPrepare tid => exec_prepare s tid
  | EAppendDone tid => exec_append_done s tid
  | ECritical i => if valid s i then exec_critical s i else None
  end.

(** A cluster of [n] fresh peers; [boot i] gives the random numbers and the
    clock [Make] reads at peer [i]. *)
Definition init (n : Z) (boot : Z → Z * Z * Z) : Cluster :=
  mkCluster n
    (λ i, let '(r1, r2, now) := boot i in Make n i MakePersister r1 r2 now)
    (λ _, LoopTop) (λ _, O) [] [] (λ _, []) (λ _, Free).

(** The code tests a condition without the lock, then takes the lock and acts
    on it.  [lock_check_holds s e]: for the critical section [e] runs in [s],
    that condition still holds; and a term counter about to be incremented is
    below the largest [int]. *)
Definition lock_check_holds (s : Cluster) (e : Event) : bool :=
  match e with
  | EElect i _ => currentTerm (nodes s i) <? MaxInt64
  | EStepDown tid =>
      match threads s !! tid with
      | Some (RVThread o _ _ _ _ (RVStale r)) => reply_is_newer (nodes s o) (rvr_Term r)
      | Some (AEThread o _ _ (AEStale _ r)) => reply_is_newer (nodes s o) (aer_Term r)
      | _ => true
      end
  | EPrepare tid =>
      match threads s !! tid with
      | Some (AEThread o _ _ AESpawned) => bool_decide (role (nodes s o) = Leader)
      | _ => true
      end
  | _ => true
  end.

(** A message that was overtaken by a later one of the same leader cuts off
    entries of its own term when it is accepted.  [keeps_own_term s e]: the
    message [e] delivers does not. *)
Definition keeps_own_term (s : Cluster) (e : Event) : bool :=
  match e with
  | EDeliver tid now =>
      match threads s !! tid with
      | Some (AEThread _ p _ (AESent args)) =>
          match AppendEntries now (nodes s p) args with
          | Ok (rf, _, _) =>
              forallb (λ e, negb (term e =? ae_Term args))
                (drop (length (logs rf)) (logs (nodes s p)))
          | _ => true
          end
      | _ => true
      end
  | _ => true
  end.

Definition in_order (s : Cluster) (e : Event) : bool :=
  lock_check_holds s e && keeps_own_term s e.

(** Executions all of whose events satisfy [ok]. *)
Inductive reachable (ok : Cluster → Event → bool) : Cluster → Prop :=
| reach_init n boot : 1 ≤ n → reachable ok (init n boot)
| reach_step s e s' :
    reachable ok s → ok s e = true → exec s e = Some (Ok s') → reachable ok s'.

(** All executions, and the executions in which no check was invalidated. *)
Definition any_schedule (_ : Cluster) (_ : Event) : bool := true.
Definition Reachable : Cluster → Prop := reachable any_schedule.
Definition ReachableSync : Cluster → Prop := reachable lock_check_holds.
Definition ReachableInOrder : Cluster → Prop := reachable in_order.

(** Run a schedule; [None] when an event is not enabled, not allowed, or panics. *)
Fixpoint run (ok : Cluster → Event → bool) (s : Cluster) (es : list Event) :
    option Cluster :=
  match es with
  | [] => Some s
  | e :: es =>
      if ok s e then
        match exec s e with Some (Ok s') => run ok s' es | _ => None end
      else None
  end.

Lemma run_reachable ok s es s' :
  reachable ok s → run ok s es = Some s' → reachable ok s'.
Proof.
  revert s. induction es as [|e es IH]; intros s Hs Hrun; cbn in Hrun; [by simplify_eq|].
  destruct (ok s e) eqn:Hok; [|done].
  destruct (exec s e) as [[s1| |]|] eqn:He; try done.
  eapply IH; [|done]. by eapply reach_step.
Qed.

Lemma exec_size s e s' : exec s e = Some (Ok s') → size s' = size s.
Proof.
  intros He. destruct e; cbn [exec] in He;
    unfold exec_loop_top, exec_elect, exec_do_vote, exec_loop_end, exec_restart, exec_deliver, exec_lose,
      exec_check, exec_step_down, exec_rewind, exec_tally, exec_submit, exec_tick, exec_prepare,
      exec_append_done, exec_critical in He;
    repeat (case_match; simplify_eq/=; try done);
    repeat (mbind_inv He; repeat (case_match; simplify_eq/=; try done));
    by injection He as <-.
Qed.

Lemma run_size ok s es s' : run ok s es = Some s' → size s' = size s.
Proof.
  revert s. induction es as [|e es IH]; intros s Hrun; cbn in Hrun; [by simplify_eq|].
  destruct (ok s e); [|done].
  destruct (exec s e) as [[s1| |]|] eqn:He; try done.
  apply exec_size in He. rewrite <- He. by apply IH.
Qed.
End cluster.

Arguments RVPhase : clear implicits.
Arguments AEPhase : clear implicits.
Arguments Thread : clear implicits.
Arguments Cluster : clear implicits.
Arguments Event : clear implicits.
End Cluster.
