(* ===== verification/RaftInv.v ===== *)
(** * RaftInv: the invariant of synchronised executions

    Everything RaftSafety.v concludes comes from one inductive invariant of the
    executions of RaftCluster.v in which no unlocked check is invalidated.  It
    is stated with a ghost history: who voted first for whom in a term, who won
    a term, the log of the winner, and which doVote call a goroutine belongs to. *)
From S2P Require Import Prelude Persister Raft RaftCluster.
Export Cluster.

Module Inv.

(** Prove an invariant record field by field; what is left needs an argument. *)
Ltac node_fields := constructor; rsimpl; try done; try lia; try (intros; congruence).

Section inv.
Context {Cmd : Type}.
#[local] Notation Raft := (Raft.Raft Cmd).
#[local] Notation Entry := (LogEntry Cmd).
#[local] Notation Cluster := (Cluster.Cluster Cmd).
#[local] Notation Thread := (Cluster.Thread Cmd).

Record Ghost := mkGhost {
  hist : Z → Z → option Z;        (* voter, term: first vote granted *)
  won : Z → option Z;             (* term: elected leader *)
  canon : Z → list Entry;         (* term: the leader's log *)
  camp : nat → option (Z * Z);    (* doVote call: candidate and term *)
}.

#[export] Instance eta_ghost : Eta Ghost :=
  λ G, mkGhost (hist G) (won G) (canon G) (camp G).

(** The history only grows. *)
Record ext (G G' : Ghost) : Prop := mkExt {
  ext_hist p T c : hist G p T = Some c → hist G' p T = Some c;
  ext_won T c : won G T = Some c → won G' T = Some c;
  ext_canon T : canon G T `prefix_of` canon G' T;
  ext_camp k x : camp G k = Some x → camp G' k = Some x;
}.

#[export] Instance ext_preorder : PreOrder ext.
Proof.
  split; [intros G; constructor; auto; intros T; reflexivity|].
  intros G1 G2 G3 [?? Hc1 ?] [?? Hc2 ?]. constructor; eauto. intros T.
  etrans; [apply Hc1|apply Hc2].
Qed.

(** Every entry sits on the prefix its term's leader put below it. *)
Definition log_sound (G : Ghost) (l : list Entry) : Prop :=
  ∀ k e, l !! k = Some e → take (S k) l `prefix_of` canon G (term e).

Definition quorum (n : Z) (G : Ghost) (T L : Z) : Prop :=
  ∃ q, NoDup q ∧ (∀ x, x ∈ q → 0 ≤ x < n) ∧ n < 2 * len q ∧
       ∀ x, x ∈ q → hist G x T = Some L.

Record ghost_ok (n : Z) (G : Ghost) : Prop := mkGhostOk {
  gk_won T L : won G T = Some L → 1 ≤ T ∧ 0 ≤ L < n ∧ quorum n G T L;
  gk_canon T : won G T = None → canon G T = [];
  gk_closed T : log_sound G (canon G T);
}.

(** What a restart would restore. *)
Definition restore (ps : Persister (GobVal Cmd)) : Z * Z * list Entry :=
  let r := readPersist zero_raft (ReadRaftState ps) in
  (currentTerm r, votedFor r, logs r).

Definition saved (rf : Raft) : Z * Z * list Entry := restore (persister rf).

Record node_ok (n : Z) (G : Ghost) (i : Z) (rf : Raft) : Prop := mkNodeOk {
  nk_me : me rf = i;
  nk_peers : peers rf = n;
  nk_term : 0 ≤ currentTerm rf;
  nk_saved : saved rf = (currentTerm rf, votedFor rf, logs rf);
  nk_active : role rf ≠ Follower → 1 ≤ currentTerm rf;
  nk_cand : role rf = Candidate →
    hist G i (currentTerm rf) = Some i ∧ won G (currentTerm rf) ≠ Some i;
  nk_lead : role rf = Leader →
    won G (currentTerm rf) = Some i ∧ canon G (currentTerm rf) = logs rf;
  nk_novote : 1 ≤ currentTerm rf → votedFor rf = -1 →
    hist G i (currentTerm rf) = None;
  nk_vote : 1 ≤ currentTerm rf → votedFor rf ≠ -1 →
    hist G i (currentTerm rf) = Some (votedFor rf) ∨
    won G (currentTerm rf) = Some (votedFor rf);
  nk_hist T c : hist G i T = Some c → 1 ≤ T ≤ currentTerm rf;
  nk_won T : won G T = Some i → T ≤ currentTerm rf;
  nk_log : log_sound G (logs rf);
  nk_commit : 0 ≤ commitIndex rf ≤ len (logs rf);
}.

(** [p] gave its vote of term [T] to [c], or [c] had already won [T]. *)
Definition voted (G : Ghost) (p T c : Z) : Prop :=
  hist G p T = Some c ∨ won G T = Some c.

(** An AppendEntries message carries a piece of its term's leader's log. *)
Record msg_ok (G : Ghost) (o : Z) (args : AppendEntriesArgs Cmd) : Prop := mkMsgOk {
  mk_leader : LeaderId args = o;
  mk_term : 1 ≤ ae_Term args;
  mk_won : won G (ae_Term args) = Some o;
  mk_commit : 0 ≤ LeaderCommit args ≤ PrevLogIndex args + len (Entries args);
  mk_log : ∃ pre, len pre = PrevLogIndex args ∧
    (0 < PrevLogIndex args → ∃ e, last pre = Some e ∧ term e = PrevLogTerm args) ∧
    pre ++ Entries args `prefix_of` canon G (ae_Term args);
}.

Definition rv_phase_ok (G : Ghost) (p T c : Z) (ph : RVPhase) : Prop :=
  match ph with
  | RVSent => True
  | RVReplied r | RVStale r => VoteGranted r = true → voted G p T c
  | RVGot b | RVDone b => b = true → voted G p T c
  end.

Definition ae_phase_ok (G : Ghost) (o : Z) (ph : AEPhase Cmd) : Prop :=
  match ph with
  | AESpawned | AEDone => True
  | AEPreparing args | AESent args | AEReplied args _ | AEStale args _
  | AEChecked args _ | AERewind args _ _ | AEGot args _ => msg_ok G o args
  end.

Definition thread_ok (n : Z) (G : Ghost) (th : Thread) : Prop :=
  match th with
  | RVThread o p _ k args ph =>
      0 ≤ o < n ∧ 0 ≤ p < n ∧ p ≠ o ∧ CandidateId args = o ∧ 1 ≤ rv_Term args ∧
      camp G k = Some (o, rv_Term args) ∧ rv_phase_ok G p (rv_Term args) o ph
  | AEThread o p _ ph => 0 ≤ o < n ∧ 0 ≤ p < n ∧ p ≠ o ∧ ae_phase_ok G o ph
  | SubmitThread o _ _ => 0 ≤ o < n
  end.

(** The peers the goroutines of doVote call [k] ask, and those counted. *)
Definition asked (k : nat) (ths : list Thread) : list Z :=
  omap (λ th, match th with
              | RVThread _ p _ k' _ _ => if decide (k' = k) then Some p else None
              | _ => None
              end) ths.

Definition counted (k : nat) (ths : list Thread) : list Z :=
  omap (λ th, match th with
              | RVThread _ p _ k' _ (RVDone true) =>
                  if decide (k' = k) then Some p else None
              | _ => None
              end) ths.

Record camps_ok (G : Ghost) (agreed : list Z) (ths : list Thread) : Prop := mkCampsOk {
  ck_nodup k : NoDup (asked k ths);
  ck_agreed k a : agreed !! k = Some a → a = 1 + len (counted k ths);
  ck_camp k : is_Some (camp G k) ↔ (k < length agreed)%nat;
}.

Record Inv (s : Cluster) (G : Ghost) : Prop := mkInv {
  inv_size : 1 ≤ size s;
  inv_ghost : ghost_ok (size s) G;
  inv_nodes i : 0 ≤ i < size s → node_ok (size s) G i (nodes s i);
  inv_threads : Forall (thread_ok (size s) G) (threads s);
  inv_camps : camps_ok G (campaigns s) (threads s);
  inv_loops i : 0 ≤ i < size s → loops s i = LoopVote →
    1 ≤ currentTerm (nodes s i);
}.

Implicit Types (rf : Raft) (G : Ghost) (s : Cluster).

(** ** The invariant under growth of the history *)

Lemma log_sound_ext G G' l : ext G G' → log_sound G l → log_sound G' l.
Proof. intros HE Hl k e He. etrans; [by apply Hl|apply HE]. Qed.

Lemma voted_ext G G' p T c : ext G G' → voted G p T c → voted G' p T c.
Proof. intros [] [?|?]; [left|right]; eauto. Qed.

Lemma msg_ok_ext G G' o args : ext G G' → msg_ok G o args → msg_ok G' o args.
Proof.
  intros HE [????(pre&?&?&?)]. constructor; [done..|by apply HE|done|].
  exists pre. split_and!; [done..|]. etrans; [done|apply HE].
Qed.

Lemma thread_ok_ext n G G' th : ext G G' → thread_ok n G th → thread_ok n G' th.
Proof.
  intros HE. destruct th as [o p ep k args ph|o p ep ph|o ep ph]; cbn; [| |done].
  - intros (?&?&?&?&?&?&Hph). do 5 (split; [done|]). split; [by apply HE|].
    destruct ph; cbn in *; eauto using voted_ext.
  - intros (?&?&?&Hph). do 3 (split; [done|]).
    destruct ph; cbn in *; eauto using msg_ok_ext.
Qed.

Lemma node_ok_ext n G G' i rf :
  ext G G' →
  (∀ T, hist G' i T = hist G i T) →
  (∀ T, won G' T = Some i → won G T = Some i) →
  (role rf = Leader → canon G' (currentTerm rf) = canon G (currentTerm rf)) →
  node_ok n G i rf → node_ok n G' i rf.
Proof.
  intros HE Hh Hw Hc [? ? ? ? ? Hcand Hlead Hnov Hv Hhi Hwo Hl ?].
  constructor; try done.
  - intros Hr. rewrite Hh. destruct (Hcand Hr) as [? Hn]. split; [done|]. eauto.
  - intros Hr. destruct (Hlead Hr) as (?&?). rewrite Hc by done.
    split; [by apply HE|done].
  - intros. rewrite Hh. auto.
  - intros. rewrite Hh. destruct Hv; [done..|by left|right; by apply HE].
  - intros T c. rewrite Hh. apply Hhi.
  - intros T HT. auto.
  - by eapply log_sound_ext.
Qed.

Lemma camps_ok_ext G G' agreed ths :
  (∀ k, camp G' k = camp G k) → camps_ok G agreed ths → camps_ok G' agreed ths.
Proof. intros Hk [? ? Hc]. constructor; try done. intros k. by rewrite Hk. Qed.

Lemma inv_ext s G G' :
  ext G G' → ghost_ok (size s) G' → (∀ k, camp G' k = camp G k) →
  (∀ i, 0 ≤ i < size s → node_ok (size s) G' i (nodes s i)) →
  Inv s G → Inv s G'.
Proof.
  intros HE HG Hk Hn [? ? ? Ht ? ?]. constructor; try done.
  - eapply Forall_impl; [done|]. intros th. by apply thread_ok_ext.
  - by eapply camps_ok_ext.
Qed.

(** ** Steps of one node that leave the history alone *)

Lemma saved_persist rf : saved (persist rf) = (currentTerm rf, votedFor rf, logs rf).
Proof. done. Qed.

(** The fields the invariants of the logs read. *)
Definition core (rf : Raft) :=
  (me rf, peers rf, persister rf, currentTerm rf, votedFor rf, logs rf, commitIndex rf,
   matchIndex rf, role rf).

Lemma node_ok_core n G i rf rf' :
  core rf' = core rf → node_ok n G i rf → node_ok n G i rf'.
Proof.
  destruct rf, rf'. unfold core. cbn. intros Hc []. simplify_eq.
  by constructor.
Qed.

Lemma node_ok_persist n G i rf : node_ok n G i rf → node_ok n G i (persist rf).
Proof. intros []. by constructor. Qed.

Lemma election_loop_end_core rf now : core (election_loop_end rf now) = core rf.
Proof. unfold election_loop_end. by case_match. Qed.

Lemma submit_enter_core rf : core (fst (submit_enter rf)) = core rf.
Proof. done. Qed.

Lemma step_down_adopt rf t : currentTerm rf < t → step_down rf t = persist (adopt_term rf t).
Proof. intros Ht. unfold adopt_term. by rewrite (proj2 (Z.ltb_lt _ _) Ht). Qed.

Lemma adopt_term_term rf t : currentTerm (adopt_term rf t) = Z.max (currentTerm rf) t.
Proof. unfold adopt_term. zcase; cbn; lia. Qed.

Lemma adopt_term_ok n G i rf t :
  node_ok n G i rf → node_ok n G i (persist (adopt_term rf t)).
Proof.
  unfold adopt_term. zcase; [|by apply node_ok_persist].
  intros [? ? ? ? ? ? ? ? ? Hh Hw ? ?].
  node_fields.
  - intros _ _. destruct (hist G i t) as [c|] eqn:E; [|done].
    apply Hh in E. lia.
  - intros T c HT%Hh. lia.
  - intros T HT%Hw. lia.
Qed.

Lemma Make_eq n i ps r1 r2 now :
  Make n i ps r1 r2 now =
  mkRaft n ps i (restore ps).1.1 (restore ps).1.2 (restore ps).2 0 0 [] [] Follower
    (election_timeout r1) (heartbeat_timeout r2) now true 0.
Proof.
  unfold Make, restore, readPersist. cbn.
  destruct (decode_int 0 _) as [t d1]. destruct (decode_int _ d1) as [v d2].
  by destruct (decode_logs _ d2).
Qed.

Lemma Make_ok n G i rf r1 r2 now :
  node_ok n G i rf → node_ok n G i (Make n i (Copy (persister rf)) r1 r2 now).
Proof.
  intros [? ? ? Hs ? ? ? Hn Hv Hh Hw Hl ?]. rewrite Copy_id, Make_eq.
  unfold saved in Hs. rewrite Hs. node_fields.
Qed.

(** ** Votes *)

Definition give_vote (G : Ghost) (p T c : Z) : Ghost :=
  G <| hist := λ q U, if decide (q = p ∧ U = T) then Some c else hist G q U |>.

Lemma hist_give_vote G p T c q U :
  hist (give_vote G p T c) q U = if decide (q = p ∧ U = T) then Some c else hist G q U.
Proof. done. Qed.

(** A step of peer [p] adds at most one first vote, of [p]. *)
Definition votes_at (p : Z) (G G' : Ghost) : Prop :=
  G' = G ∨ ∃ T c, hist G p T = None ∧ G' = give_vote G p T c.

Lemma votes_at_ext p G G' : votes_at p G G' → ext G G'.
Proof.
  intros [->|(T & c & HN & ->)]; [done|]. constructor; cbn; auto.
  intros q U d Hd. case_decide; naive_solver.
Qed.

Lemma quorum_ext n G G' T L : ext G G' → quorum n G T L → quorum n G' T L.
Proof. intros [] (q & ? & ? & ? & ?). exists q. do 3 (split; [done|]). eauto. Qed.

Lemma votes_at_ghost n p G G' : votes_at p G G' → ghost_ok n G → ghost_ok n G'.
Proof.
  intros HV [Hw Hc Hl]. pose proof (votes_at_ext _ _ _ HV) as HE.
  destruct HV as [->|(T & c & HN & ->)]; [done|]. constructor; cbn; auto.
  intros U L HU. destruct (Hw _ _ HU) as (?&?&?). split_and!; eauto using quorum_ext; lia.
Qed.

Lemma votes_at_other n p G G' j rf :
  votes_at p G G' → j ≠ p → node_ok n G j rf → node_ok n G' j rf.
Proof.
  intros HV Hj. pose proof (votes_at_ext _ _ _ HV) as HE.
  destruct HV as [->|(T & c & HN & ->)]; [done|].
  apply node_ok_ext; [done| |done..].
  intros U. cbn. by rewrite decide_False by naive_solver.
Qed.

Lemma votes_at_camp p G G' k : votes_at p G G' → camp G' k = camp G k.
Proof. by intros [->|(T & c & HN & ->)]. Qed.

#[local] Arguments give_vote : simpl never.

Lemma give_vote_eq G p T c : hist (give_vote G p T c) p T = Some c.
Proof. rewrite hist_give_vote. by rewrite decide_True. Qed.

(** The first vote of peer [p] for [c] in term [T], if [free] and there was none. *)
Definition ballot (p T c : Z) (free : Prop) (G G' : Ghost) : Prop :=
  G' = G ∨ free ∧ hist G p T = None ∧ G' = give_vote G p T c.

Lemma ballot_votes p T c free G G' : ballot p T c free G G' → votes_at p G G'.
Proof. intros [->|(_ & HN & ->)]; [by left|right; eauto]. Qed.

(** Granting the vote of the current term. *)
Lemma grant_ok n G p rf c now :
  node_ok n G p (persist rf) → 1 ≤ currentTerm rf → 0 ≤ c →
  votedFor rf = -1 ∨ votedFor rf = c →
  ∃ G', ballot p (currentTerm rf) c (votedFor rf = -1) G G' ∧ voted G' p (currentTerm rf) c ∧
    node_ok n G' p (persist (rf <| role := Follower |> <| votedFor := c |>
                                <| lastHeart := now |>)).
Proof.
  intros [? ? ? ? ? ? ? Hn Hv Hh Hw Hl ?] HT Hc [Hvf|Hvf]; rsimpl.
  - pose proof (Hn HT Hvf) as HN.
    exists (give_vote G p (currentTerm rf) c).
    split; [by right|]. split; [left; apply give_vote_eq|].
    node_fields.
    + intros _ _. left. apply give_vote_eq.
    + intros T d. rewrite hist_give_vote. case_decide; [intros _; lia|apply Hh].
  - exists G. split; [by left|]. destruct (decide (c = -1)); [lia|].
    split; [unfold voted; rewrite <- Hvf; apply Hv; lia|].
    node_fields.
    intros _ _. rewrite <- Hvf. apply Hv; lia.
Qed.

(** When RequestVote casts the vote of a term. *)
Definition ballot_free now rf (args : RequestVoteArgs) : Prop :=
  VoteGranted (snd (RequestVote now rf args)) = true ∧
  (currentTerm rf < rv_Term args ∨ currentTerm rf = rv_Term args ∧ votedFor rf = -1).

Lemma RequestVote_ok n G p rf now args :
  node_ok n G p rf → 1 ≤ rv_Term args → 0 ≤ CandidateId args →
  ∃ G', ballot p (rv_Term args) (CandidateId args) (ballot_free now rf args) G G' ∧
    node_ok n G' p (fst (RequestVote now rf args)) ∧
    (VoteGranted (snd (RequestVote now rf args)) = true →
     voted G' p (rv_Term args) (CandidateId args)) ∧
    currentTerm rf ≤ currentTerm (fst (RequestVote now rf args)).
Proof.
  intros HN HT Hc. unfold ballot_free, RequestVote.
  destruct (Z.ltb_spec (rv_Term args) (currentTerm rf)).
  { exists G. cbn. split; [by left|]. split; [by apply node_ok_persist|done]. }
  pose proof (adopt_term_ok _ _ _ _ (rv_Term args) HN) as HA.
  pose proof (adopt_term_term rf (rv_Term args)) as Hat.
  destruct (_ && _) eqn:E; cbn [fst snd].
  - apply andb_prop in E as [E _]. apply orb_prop in E.
    destruct (grant_ok n G p (adopt_term rf (rv_Term args)) (CandidateId args) now)
      as (G' & HB & HV & ?); [done|lia|done| |].
    { destruct E as [E|E]; apply Z.eqb_eq in E; auto. }
    rewrite Hat, Z.max_r in HV by lia.
    exists G'. split; [|split; [done|]; split; [done|]; cbn; lia].
    rewrite Hat, Z.max_r in HB by lia.
    destruct HB as [->|(Hf & HN0 & ->)]; [by left|right]. split; [|done]. split; [done|].
    unfold adopt_term in Hf. revert Hf. zcase; cbn; [by left|]. right. split; [lia|done].
  - exists G. split; [by left|]. split; [done|]. split; [done|]. cbn. lia.
Qed.

Lemma start_election_ok n G i rf r :
  node_ok n G i rf → 0 ≤ i → currentTerm rf < MaxInt64 →
  let G' := give_vote G i (currentTerm rf + 1) i in
  votes_at i G G' ∧ hist G i (currentTerm rf + 1) = None ∧
  node_ok n G' i (start_election rf r) ∧
  currentTerm (start_election rf r) = currentTerm rf + 1.
Proof.
  intros [? ? ? ? ? ? ? Hn Hv Hh Hw Hl ?] Hi Hmax.
  assert (Ht : int64 (currentTerm rf + 1) = currentTerm rf + 1).
  { apply int64_id. unfold MinInt64, MaxInt64 in *. lia. }
  assert (HN : hist G i (currentTerm rf + 1) = None).
  { destruct (hist G i (currentTerm rf + 1)) as [c|] eqn:E; [|done]. apply Hh in E. lia. }
  cbv zeta. unfold start_election.
  split; [right; eauto|]. split; [done|]. split; [|exact Ht].
  constructor; rsimpl; rewrite ?Ht; try done; try lia; try (intros; congruence).
  - intros _. split; [apply give_vote_eq|]. intros HW%Hw. lia.
  - intros _ _. left. rewrite give_vote_eq. congruence.
  - intros T c. rewrite hist_give_vote. case_decide; [lia|]. intros ?%Hh. lia.
  - intros T HT%Hw. lia.
Qed.
End inv.
Arguments Ghost : clear implicits.
End Inv.
