(* ===== verification/RaftInvLog.v ===== *)
(** * RaftInvLog: log replication and elections preserve the node invariant

    For each critical section of Raft.v that touches the log, the leader's
    indices or the office of leader: it does not panic in a state that satisfies
    the invariant, and the new state satisfies it. *)
From S2P Require Import Prelude Persister Raft RaftCluster RaftInv.
Export Inv.

Module InvLog.

Section invlog.
Context {Cmd : Type}.
#[local] Notation Raft := (Raft.Raft Cmd).
#[local] Notation Entry := (LogEntry Cmd).
Implicit Types (rf : Raft) (G : Ghost Cmd) (l : list Entry) (args : AppendEntriesArgs Cmd).

(** ** Logs *)

Lemma log_sound_prefix n G T l :
  ghost_ok n G → l `prefix_of` canon G T → log_sound G l.
Proof.
  intros HG Hpre k e He.
  assert (k < length l)%nat by (by eapply lookup_lt_Some).
  rewrite (prefix_take _ _ (canon G T)) by (done || lia).
  apply (gk_closed _ _ HG T). by eapply prefix_lookup_Some.
Qed.

(** The follower keeps exactly the part of its log the leader built on. *)
Lemma kept_prefix n G o l args pre e :
  ghost_ok n G → log_sound G l →
  len pre = PrevLogIndex args → 0 < PrevLogIndex args →
  pre `prefix_of` canon G (ae_Term args) →
  (∃ e', last pre = Some e' ∧ term e' = PrevLogTerm args) →
  slice_get l (PrevLogIndex args - 1) = Ok e → term e = PrevLogTerm args →
  won G (ae_Term args) = Some o →
  take (Z.to_nat (PrevLogIndex args)) l = pre.
Proof.
  intros HG Hl Hlen Hpos Hpre (e' & Hlast & He') He HeT _.
  apply slice_get_Ok in He as [_ He].
  assert (Hk : Z.to_nat (PrevLogIndex args) = S (Z.to_nat (PrevLogIndex args - 1))) by lia.
  assert (Hlk : pre !! Z.to_nat (PrevLogIndex args - 1) = Some e').
  { rewrite last_lookup in Hlast. rewrite <- Hlast. f_equal. unfold len in Hlen. lia. }
  pose proof (Hl _ _ He) as H1.
  pose proof (log_sound_prefix _ _ _ _ HG Hpre _ _ Hlk) as H2.
  rewrite HeT in H1. rewrite He' in H2. rewrite <- Hk in H1, H2.
  unfold len in Hlen.
  rewrite (take_ge pre) in H2 by lia.
  apply lookup_lt_Some in He.
  eapply prefix_same_length; [done..|]. rewrite length_take. lia.
Qed.

Lemma apply_range_Ok l a b :
  0 ≤ a → b ≤ len l → ∃ msgs, apply_range l a b = Ok msgs.
Proof.
  intros Ha Hb. apply mapM_res_Ok. intros i Hi%elem_of_range.
  destruct (slice_get_is_Ok l i) as [e He]; [lia|]. rewrite He. by eexists.
Qed.

Lemma prev_matches_Ok l args :
  0 < PrevLogIndex args →
  ∃ b, prev_matches l args = Ok b ∧
    (b = true → PrevLogIndex args ≤ len l ∧ ∃ e,
       slice_get l (PrevLogIndex args - 1) = Ok e ∧ term e = PrevLogTerm args).
Proof.
  intros Hpos. unfold prev_matches. zcase; [|by exists false].
  destruct (slice_get_is_Ok l (PrevLogIndex args - 1)) as [e He]; [lia|].
  rewrite He. cbn. eexists. split; [done|]. intros ?%Z.eqb_eq. eauto.
Qed.

Lemma follow_ok n G p o rf args :
  node_ok n G p rf → msg_ok G o args → 0 ≤ o → currentTerm rf ≤ ae_Term args →
  node_ok n G p (persist (follow rf args)).
Proof.
  intros [? ? ? ? ? ? ? Hn Hv Hh Hw Hl ?] [Hlead HT Hwon ? ?] Ho Hle.
  unfold follow. node_fields.
  - intros _ _. right. by rewrite Hlead.
  - intros T c HT'%Hh. lia.
  - intros T HT'%Hw. lia.
Qed.

(** Replacing the log by a piece of the leader's. *)
Lemma adopt_log_ok n G p rf l c now :
  node_ok n G p (persist rf) → role rf = Follower → log_sound G l →
  0 ≤ c ≤ len l →
  node_ok n G p (persist (rf <| logs := l |> <| commitIndex := c |>
                             <| lastHeart := now |>)).
Proof.
  intros [? ? ? ? ? ? ? Hn Hv Hh Hw Hl ?] Hr Hs Hc. rsimpl. rewrite Hr in *.
  node_fields.
Qed.

(** Accepting entries, given that the kept part of the log is [pre]. *)
Lemma accept_entries_ok n G p rf now args pre :
  ghost_ok n G → node_ok n G p (persist rf) → role rf = Follower →
  0 ≤ PrevLogIndex args ≤ len (logs rf) →
  take (Z.to_nat (PrevLogIndex args)) (logs rf) = pre →
  pre ++ Entries args `prefix_of` canon G (ae_Term args) →
  0 ≤ LeaderCommit args ≤ len (pre ++ Entries args) →
  ∃ rf' msgs, accept_entries now rf args = Ok (rf', msgs) ∧
    node_ok n G p (persist rf') ∧ currentTerm rf' = currentTerm rf.
Proof.
  intros HG HN Hr Hle Hkept Hpre Hcm. unfold accept_entries.
  rewrite slice_to_Ok, Hkept by done. cbn.
  destruct (apply_range_Ok (pre ++ Entries args) (commitIndex rf) (LeaderCommit args))
    as [msgs Hmsgs]; [apply HN|lia|].
  rewrite Hmsgs. cbn. eexists _, _. split; [done|]. split; [|done].
  apply adopt_log_ok; try done. by eapply log_sound_prefix.
Qed.

Lemma AppendEntries_ok n G p o rf now args :
  ghost_ok n G → node_ok n G p rf → msg_ok G o args → 0 ≤ o →
  ∃ rf' r msgs, AppendEntries now rf args = Ok (rf', r, msgs) ∧
    node_ok n G p rf' ∧ currentTerm rf ≤ currentTerm rf'.
Proof.
  intros HG HN HM Ho. unfold AppendEntries, check_append.
  destruct (Z.ltb_spec (ae_Term args) (currentTerm rf)).
  { cbn. eexists _, _, _. split; [done|]. split; [by apply node_ok_persist|done]. }
  pose proof (follow_ok _ _ _ _ _ _ HN HM Ho ltac:(lia)) as HF.
  destruct HM as [_ _ Hwon Hcm (pre & Hlen & Hprev & Hpre)].
  assert (Hacc : PrevLogIndex args ≤ len (logs rf) →
    take (Z.to_nat (PrevLogIndex args)) (logs rf) = pre →
    ∃ rf' msgs, accept_entries now (follow rf args) args = Ok (rf', msgs) ∧
      node_ok n G p (persist rf') ∧ currentTerm rf' = ae_Term args).
  { intros Hle Hkept. pose proof (len_nonneg pre).
    eapply accept_entries_ok; try done; cbn; try lia. rewrite len_app. lia. }
  destruct (Z.ltb_spec 0 (PrevLogIndex args)).
  - destruct (prev_matches_Ok (logs rf) args) as (b & Hb & Hbt); [done|].
    cbn. rewrite Hb. cbn. destruct b; cbn.
    + destruct Hbt as (Hle & e & He & HeT); [done|].
      destruct Hacc as (rf' & msgs & -> & ? & ?); [done| |].
      { eapply kept_prefix; eauto; [apply HN|]. etrans; [|done]. by eexists. }
      cbn. eexists _, _, _. split; [done|]. split; [done|]. cbn. lia.
    + eexists _, _, _. split; [done|]. split; [|cbn; lia].
      eapply node_ok_core; [|exact HF]. done.
  - destruct Hacc as (rf' & msgs & Hacc & ? & ?).
    + pose proof (len_nonneg (logs rf)). lia.
    + pose proof (len_nonneg pre). replace (PrevLogIndex args) with 0 by lia.
      unfold len in *. destruct pre; [done|cbn in *; lia].
    + cbn. rewrite Hacc. cbn. eexists _, _, _. split; [done|]. split; [done|]. cbn. lia.
Qed.

(** ** The leader's messages *)

Lemma last_take_lookup l k e :
  l !! k = Some e → last (take (S k) l) = Some e.
Proof.
  intros He. rewrite last_lookup, length_take.
  apply lookup_lt_Some in He as Hlt.
  replace (Nat.pred (S k `min` length l)) with k by lia.
  by rewrite lookup_take_lt by lia.
Qed.

(** What a message that could be built looks like: the slot was in bounds. *)
Lemma prepare_append_inv rf peer args :
  prepare_append rf peer = Ok args →
  slice_get (nextIndex rf) peer = Ok (PrevLogIndex args + 1) ∧
  0 ≤ PrevLogIndex args ≤ len (logs rf) ∧
  Entries args = drop (Z.to_nat (PrevLogIndex args)) (logs rf) ∧
  (0 < PrevLogIndex args → ∃ e,
     last (take (Z.to_nat (PrevLogIndex args)) (logs rf)) = Some e ∧ term e = PrevLogTerm args) ∧
  ae_Term args = currentTerm rf ∧ LeaderId args = me rf ∧ LeaderCommit args = commitIndex rf.
Proof.
  unfold prepare_append.
  destruct (slice_get (nextIndex rf) peer) as [index| |]; cbn [mbind res_bind]; try done.
  intros HP. mbind_inv HP. mbind_inv HP. injection HP as <-.
  cbn [PrevLogIndex Entries ae_Term LeaderId LeaderCommit PrevLogTerm].
  pose proof (len_nonneg (logs rf)).
  assert (Hlast : 1 < index → index ≤ len (logs rf) + 1 ∧ ∃ e,
    last (take (Z.to_nat (index - 1)) (logs rf)) = Some e ∧ term e = a0).
  { intros Hi. rewrite (proj2 (Z.ltb_lt _ _) Hi) in E0. mbind_inv E0. injection E0 as <-.
    apply slice_get_Ok in E1 as [_ He].
    split; [apply lookup_lt_Some in He; unfold len; lia|]. eexists. split; [|done].
    replace (Z.to_nat (index - 1)) with (S (Z.to_nat (index - 2))) by lia.
    by apply last_take_lookup. }
  split; [f_equal; lia|]. revert E. zcase; intros E.
  - unfold slice_from in E. case_decide; [|done]. injection E as <-.
    split_and!; try done; try lia. intros. apply Hlast. lia.
  - injection E as <-.
    destruct (Z.ltb_spec 1 index) as [Hi|].
    + destruct (Hlast Hi) as [? ?]. split_and!; try done; try lia.
      rewrite drop_ge; [done|]. unfold len in *. lia.
    + split_and!; try done; try lia. rewrite drop_ge; [done|]. unfold len in *. lia.
Qed.

Lemma prepare_append_Ok rf peer index :
  slice_get (nextIndex rf) peer = Ok index → 1 ≤ index ≤ len (logs rf) + 1 →
  is_ok (prepare_append rf peer).
Proof.
  intros Hi Hix. unfold prepare_append. rewrite Hi. cbn [mbind res_bind].
  assert (is_ok (if index <=? len (logs rf) then slice_from (logs rf) (index - 1)
    else mret [])) as [en ->].
  { zcase; [|by eexists]. rewrite slice_from_Ok by lia. by eexists. }
  cbn [mbind res_bind].
  assert (is_ok (if 1 <? index then e ← slice_get (logs rf) (index - 2); mret (term e)
    else mret 0)) as [t ->]; [|by eexists].
  zcase; [|by eexists].
  destruct (slice_get_is_Ok (logs rf) (index - 2)) as [e He]; [lia|]. rewrite He. by eexists.
Qed.

Lemma prepare_append_ok n G i rf peer args :
  node_ok n G i rf → role rf = Leader → prepare_append rf peer = Ok args → msg_ok G i args.
Proof.
  intros HN Hr (_ & Hle & Hen & Hlast & HT & Hme & Hc)%prepare_append_inv.
  destruct (nk_lead _ _ _ _ HN Hr) as [Hwon Hcanon].
  destruct HN as [? ? ? ? Hact ? ? ? ? ? ? ? Hci].
  constructor.
  - congruence.
  - rewrite HT. apply Hact. by rewrite Hr.
  - by rewrite HT.
  - rewrite Hc, Hen. unfold len in *. rewrite length_drop. lia.
  - exists (take (Z.to_nat (PrevLogIndex args)) (logs rf)).
    split; [rewrite len_take; lia|]. split; [done|].
    by rewrite Hen, take_drop, HT, Hcanon.
Qed.

(** ** Writes to [nextIndex] *)

Lemma set_next_inv rf p x rf' :
  set_next rf p x = Ok rf' →
  0 ≤ p < len (nextIndex rf) ∧ rf' = rf <| nextIndex := <[Z.to_nat p := x]> (nextIndex rf) |>.
Proof.
  unfold set_next. intros HS. mbind_inv HS. injection HS as <-.
  by apply slice_set_inv in E as [? ->].
Qed.

Lemma set_next_Ok rf p x : 0 ≤ p < len (nextIndex rf) → is_ok (set_next rf p x).
Proof. intros Hp. unfold set_next. rewrite slice_set_Ok by done. by eexists. Qed.

Lemma set_next_core rf p x rf' : set_next rf p x = Ok rf' → core rf' = core rf.
Proof. by intros [_ ->]%set_next_inv. Qed.

Lemma rewind_cases rf p args r w :
  rewind rf p args r w = Ok rf ∨ ∃ x, rewind rf p args r w = set_next rf p x.
Proof. destruct w; cbn; [eauto|case_match; eauto|eauto]. Qed.

Lemma rewind_core rf p args r w rf' : rewind rf p args r w = Ok rf' → core rf' = core rf.
Proof.
  destruct (rewind_cases rf p args r w) as [->|[x ->]]; [by intros [= ->]|].
  apply set_next_core.
Qed.

(** ** The two slices of a new leader *)

Lemma append_indices_loop (js : list Z) rf :
  foldl (λ rf _, append_indices rf) rf js =
  rf <| nextIndex := nextIndex rf ++ replicate (length js) (len (logs rf) + 1) |>
     <| matchIndex := matchIndex rf ++ replicate (length js) 0 |>.
Proof.
  revert rf. induction js as [|j js IH]; intros rf; cbn [foldl length replicate].
  - rewrite !app_nil_r. by destruct rf.
  - rewrite IH. unfold append_indices. cbn. by rewrite <- !app_assoc.
Qed.

Lemma fill_indices_eq rf :
  fill_indices rf =
  persist (rf <| nextIndex := nextIndex rf ++ replicate (Z.to_nat (peers rf)) (len (logs rf) + 1) |>
              <| matchIndex := matchIndex rf ++ replicate (Z.to_nat (peers rf)) 0 |>).
Proof.
  unfold fill_indices. rewrite append_indices_loop. unfold range. rewrite length_seqZ.
  by rewrite Z.sub_0_r.
Qed.

Lemma fill_indices_ok n G i rf : node_ok n G i rf → node_ok n G i (fill_indices rf).
Proof. rewrite fill_indices_eq. intros []. by constructor. Qed.

(** ** Committing *)

Lemma count_replicas_Ok rf iter :
  len (matchIndex rf) = peers rf → ∃ c, count_replicas rf iter = Ok c.
Proof.
  intros Hlen. unfold count_replicas.
  destruct (mapM_res_Ok (λ j, if j =? me rf then mret 0 else
    m ← slice_get (matchIndex rf) j; mret (if iter <? m then 1 else 0))
    (range 0 (peers rf))) as [ms Hms].
  { intros j Hj%elem_of_range. zcase; [by eexists|].
    destruct (slice_get_is_Ok (matchIndex rf) j) as [m Hm]; [lia|].
    rewrite Hm. by eexists. }
  rewrite Hms. by eexists.
Qed.

(** The loop only moves [commitIndex], up, and within the log. *)
Lemma commit_loop_Ok rf iters :
  len (matchIndex rf) = peers rf → 0 ≤ commitIndex rf ≤ len (logs rf) →
  (∀ i, i ∈ iters → 0 ≤ i < len (logs rf)) →
  ∃ c msgs, commit_loop rf iters = Ok (rf <| commitIndex := c |>, msgs) ∧
    commitIndex rf ≤ c ≤ len (logs rf).
Proof.
  revert rf. induction iters as [|i iters IH]; intros rf Hmt Hci Hin.
  { exists (commitIndex rf), []. cbn. split; [by destruct rf|lia]. }
  cbn. destruct (slice_get_is_Ok (logs rf) i) as [e He]; [apply Hin; set_solver|].
  rewrite He. cbn. zcase.
  { apply IH; try done. intros; apply Hin; set_solver. }
  destruct (count_replicas_Ok rf i Hmt) as [c Hc]. rewrite Hc. cbn. zcase; cycle 1.
  { exists (commitIndex rf), []. cbn. split; [by destruct rf|lia]. }
  assert (Hi : 0 ≤ i < len (logs rf)) by (apply Hin; set_solver).
  unfold commit_to.
  destruct (apply_range_Ok (logs rf) (commitIndex rf) (i + 1)) as [msgs Hm]; [lia..|].
  rewrite Hm. cbn.
  destruct (IH (rf <| commitIndex := Z.max (commitIndex rf) (i + 1) |>))
    as (c' & msgs' & Hl & Hle); cbn; [done|lia|intros; apply Hin; set_solver|].
  cbn in Hl. rewrite Hl. cbn. exists c', (msgs ++ msgs'). split; [done|]. cbn in Hle. lia.
Qed.

Lemma commit_loop_safe rf iters rf' msgs :
  commit_loop rf iters = Ok (rf', msgs) → 0 ≤ commitIndex rf ≤ len (logs rf) →
  (∀ i, i ∈ iters → 0 ≤ i < len (logs rf)) →
  ∃ c, rf' = rf <| commitIndex := c |> ∧ commitIndex rf ≤ c ≤ len (logs rf).
Proof.
  revert rf rf' msgs. induction iters as [|i iters IH]; intros rf rf' msgs HL Hci Hin; cbn in HL.
  { injection HL as <- <-. exists (commitIndex rf). split; [by destruct rf|lia]. }
  mbind_inv HL. case_match.
  { eapply IH; [done..|]. intros; apply Hin; set_solver. }
  mbind_inv HL. case_match; cycle 1.
  { injection HL as <- <-. exists (commitIndex rf). split; [by destruct rf|lia]. }
  assert (Hi : 0 ≤ i < len (logs rf)) by (apply Hin; set_solver).
  destruct (commit_to rf i) as [[rf1 m1]| |] eqn:E1; cbn in HL; try done.
  unfold commit_to in E1. mbind_inv E1. injection E1 as <- _.
  destruct (commit_loop _ iters) as [[rf2 m2]| |] eqn:E3; cbn in HL; try done.
  injection HL as <- <-. apply IH in E3 as (c & -> & Hc); cbn in *;
    [|lia|intros; apply Hin; set_solver].
  exists c. split; [done|lia].
Qed.

Lemma append_done_ok n G i rf p args ok rf' msgs :
  node_ok n G i rf → append_done rf p args ok = Ok (rf', msgs) →
  node_ok n G i rf' ∧ currentTerm rf' = currentTerm rf.
Proof.
  intros HN. unfold append_done.
  destruct (ok && _ && _); [|by intros [= <- <-]].
  intros HA. mbind_inv HA. apply commit_loop_safe in HA as (c & -> & Hc).
  - split; [|done]. cbn in Hc. destruct HN. node_fields.
  - apply HN.
  - intros j Hj%elem_of_range. cbn in Hj |- *. pose proof (nk_commit _ _ _ _ HN). lia.
Qed.

Lemma append_done_Ok n G i rf p args ok :
  node_ok n G i rf → 0 ≤ p < n → (role rf = Leader → len (matchIndex rf) = n) →
  is_ok (append_done rf p args ok).
Proof.
  intros HN Hp HL. unfold append_done.
  destruct (ok && _ && _) eqn:E; [|by eexists].
  apply andb_prop in E as [_ Hr]. apply bool_decide_eq_true in Hr. specialize (HL Hr).
  rewrite slice_set_Ok by lia. cbn [mbind res_bind].
  destruct (commit_loop_Ok (rf <| matchIndex :=
    <[Z.to_nat p := PrevLogIndex args + len (Entries args)]> (matchIndex rf) |>)
    (range (commitIndex rf) (len (logs rf)))) as (c & msgs & Hc & _).
  - cbn. rewrite len_insert. by rewrite (nk_peers _ _ _ _ HN).
  - apply HN.
  - intros j Hj%elem_of_range. cbn in Hj |- *. pose proof (nk_commit _ _ _ _ HN). lia.
  - cbn in Hc |- *. rewrite Hc. by eexists.
Qed.

(** ** Winning a term *)

Definition win (G : Ghost Cmd) (T L : Z) (l : list Entry) : Ghost Cmd :=
  G <| won := λ U, if decide (U = T) then Some L else won G U |>
    <| canon := λ U, if decide (U = T) then l else canon G U |>.

(** A step of peer [p] wins at most one vacant term, for [p]. *)
Definition wins_at (n p : Z) (G G' : Ghost Cmd) : Prop :=
  G' = G ∨ ∃ T l, won G T = None ∧ log_sound G l ∧ 1 ≤ T ∧ 0 ≤ p < n ∧
    quorum n G T p ∧ G' = win G T p l.

Lemma wins_at_ext n p G G' : ghost_ok n G → wins_at n p G G' → ext G G'.
Proof.
  intros HG [->|(T & l & HN & Hl & _ & _ & _ & ->)]; [done|]. constructor; cbn; auto.
  - intros U c HU. case_decide; [congruence|done].
  - intros U. case_decide; [|done]. subst.
    rewrite (gk_canon _ _ HG T HN). apply prefix_nil.
Qed.

Lemma wins_at_ghost n p G G' : wins_at n p G G' → ghost_ok n G → ghost_ok n G'.
Proof.
  intros HW HG. pose proof (wins_at_ext _ _ _ _ HG HW) as HE.
  destruct HW as [->|(T & l & HN & Hl & HT & Hp & Hq & ->)]; [done|].
  pose proof HG as [Hw Hc Hcl]. constructor.
  - intros U L. cbn. case_decide.
    + intros [= <-]. subst. do 2 (split; [lia|]). by eapply quorum_ext.
    + intros HU. destruct (Hw _ _ HU) as (?&?&?).
      do 2 (split; [lia|]). by eapply quorum_ext.
  - intros U. cbn. case_decide; [done|]. apply Hc.
  - intros U. cbn. case_decide; eapply log_sound_ext; eauto.
Qed.

Lemma wins_at_other n p G G' j rf :
  ghost_ok n G → wins_at n p G G' → j ≠ p → node_ok n G j rf → node_ok n G' j rf.
Proof.
  intros HG HW Hj HN. pose proof (wins_at_ext _ _ _ _ HG HW) as HE.
  destruct HW as [->|(T & l & HNo & Hl & HT & Hp & Hq & ->)]; [done|].
  apply node_ok_ext with G; try done; cbn.
  - intros U. case_decide; [congruence|done].
  - intros Hr. case_decide; [|done]. subst.
    destruct (nk_lead _ _ _ _ HN Hr). congruence.
Qed.

Lemma wins_at_camp n p G G' k : wins_at n p G G' → camp G' k = camp G k.
Proof. by intros [->|(T & l & _ & _ & _ & _ & _ & ->)]. Qed.

(** A candidate that sees a majority of votes for its term faces no other
    winner of that term. *)
Lemma vacant n G T i cs :
  ghost_ok n G → 1 ≤ n → won G T ≠ Some i → hist G i T = Some i → 0 ≤ i < n →
  NoDup (i :: cs) → (∀ x, x ∈ cs → 0 ≤ x < n ∧ voted G x T i) →
  n < 2 * len (i :: cs) →
  won G T = None ∧ quorum n G T i.
Proof.
  intros HG Hn Hnw Hself Hi Hnd Hcs Hlen.
  assert (Hq : quorum n G T i).
  { exists (i :: cs). split; [done|]. split; [|split; [done|]].
    - intros x [->|Hx]%elem_of_cons; [done|]. by apply Hcs.
    - intros x [->|Hx]%elem_of_cons; [done|].
      destruct (Hcs x Hx) as [_ [?|?]]; [done|congruence]. }
  split; [|done].
  destruct (won G T) as [L|] eqn:HW; [|done]. exfalso.
  destruct (gk_won _ _ HG _ _ HW) as (_ & _ & (q & Hqd & Hqr & Hql & Hqh)).
  destruct Hq as (q' & Hqd' & Hqr' & Hql' & Hqh').
  destruct (quorum_intersect n q q') as (x & Hx & Hx'); try done; [lia|].
  specialize (Hqh x Hx). specialize (Hqh' x Hx'). congruence.
Qed.

(** Taking office. *)
Definition elected rf : Raft := rf <| role := Leader |> <| matchIndex := [] |>.

Lemma elected_ok n G i rf :
  ghost_ok n G → node_ok n G i rf → 0 ≤ i < n → role rf = Candidate →
  won G (currentTerm rf) = None → quorum n G (currentTerm rf) i →
  node_ok n (win G (currentTerm rf) i (logs rf)) i (elected rf).
Proof.
  intros HG HN Hi Hr Hvac Hq.
  assert (HE : ext G (win G (currentTerm rf) i (logs rf))).
  { eapply wins_at_ext; [done|]. right.
    eexists _, _. split; [done|]. split; [apply HN|]. split; [|split; [done|split; [done|done]]].
    apply (nk_active _ _ _ _ HN). by rewrite Hr. }
  destruct HN as [? Hpe ? ? Hact Hcand Hlead Hn Hv Hh Hw Hl ?].
  constructor; unfold elected; try done.
  - intros _. apply Hact. by rewrite Hr.
  - intros _. cbn. by rewrite !decide_True by done.
  - intros HT HV. destruct (Hv HT HV) as [?|?]; [by left|cbn in *; congruence].
  - intros T. cbn. case_decide; [intros _; subst; lia|apply Hw].
  - by eapply log_sound_ext.
Qed.

(** What counting a vote does to the candidate and to the history. *)
Definition takes_office (i : Z) rf (args : RequestVoteArgs) rf' G G' : Prop :=
  rf' = rf ∧ G' = G ∨
  rf' = elected rf ∧ role rf = Candidate ∧ rv_Term args = currentTerm rf ∧
  won G (currentTerm rf) = None ∧ G' = win G (currentTerm rf) i (logs rf).

(** [cs] are the peers already counted in this campaign, [p] the one whose
    answer arrives. *)
Lemma tally_ok n G i rf (args : RequestVoteArgs) ok p cs :
  ghost_ok n G → node_ok n G i rf → 1 ≤ n → 0 ≤ i < n →
  NoDup (i :: p :: cs) → 0 ≤ p < n →
  (ok = true → voted G p (rv_Term args) i) →
  (∀ x, x ∈ cs → 0 ≤ x < n ∧ voted G x (rv_Term args) i) →
  ∃ G' rf' a' w, tally rf args ok (1 + len cs) = (rf', a', w) ∧
    wins_at n i G G' ∧ takes_office i rf args rf' G G' ∧
    node_ok n G' i rf' ∧ currentTerm rf' = currentTerm rf ∧
    (a' = 1 + len cs ∨ ok = true ∧ a' = 1 + len cs + 1).
Proof.
  intros HG HN Hn Hi Hnd Hp Hok Hcs. unfold tally.
  destruct (ok && _ && _) eqn:E; cycle 1.
  { exists G. do 3 eexists. split; [done|]. do 2 (split; [by left|]). eauto. }
  apply andb_prop in E as [[-> HT%Z.eqb_eq]%andb_prop Hr%bool_decide_eq_true].
  zcase; cycle 1.
  { exists G. do 3 eexists. split; [done|]. do 2 (split; [by left|]). eauto. }
  destruct (nk_cand _ _ _ _ HN Hr) as [Hself Hnw].
  destruct (vacant n G (currentTerm rf) i (p :: cs)) as [Hvac Hq]; try done.
  { rewrite <- HT. intros x [->|Hx]%elem_of_cons; [auto|]. by apply Hcs. }
  { rewrite (nk_peers _ _ _ _ HN) in *. unfold len in *. cbn. lia. }
  exists (win G (currentTerm rf) i (logs rf)). do 3 eexists. split; [done|].
  split; [|split; [by right|split; [by apply elected_ok|split; [done|eauto]]]].
  right. eexists _, _. split; [done|]. split; [apply HN|].
  split; [apply (nk_active _ _ _ _ HN); by rewrite Hr|]. done.
Qed.

(** ** The leader appends *)

Definition grow (G : Ghost Cmd) (T : Z) (l : list Entry) : Ghost Cmd :=
  G <| canon := λ U, if decide (U = T) then l else canon G U |>.

(** A step of leader [p] extends the log of its own term. *)
Definition grows_at (p : Z) (G G' : Ghost Cmd) : Prop :=
  G' = G ∨ ∃ T e, won G T = Some p ∧ term e = T ∧
    G' = grow G T (canon G T ++ [e]).

Lemma grows_at_ext p G G' : grows_at p G G' → ext G G'.
Proof.
  intros [->|(T & e & Hw & He & ->)]; [done|]. constructor; cbn; auto.
  intros U. case_decide; [|done]. subst. by eexists.
Qed.

Lemma grows_at_ghost n p G G' : grows_at p G G' → ghost_ok n G → ghost_ok n G'.
Proof.
  intros HW HG. pose proof (grows_at_ext _ _ _ HW) as HE.
  destruct HW as [->|(T & e & Hw & He & ->)]; [done|].
  destruct HG as [Hgw Hgc Hgl]. constructor; cbn; auto.
  - intros U HU. case_decide; [subst; congruence|]. auto.
  - intros U k e' Hk. cbn in Hk. case_decide as HU; [|].
    + subst U. apply lookup_app_Some in Hk as [Hk|[Hlen Hk]].
      * rewrite take_app_le by (apply lookup_lt_Some in Hk; lia).
        etrans; [by apply Hgl|apply HE].
      * apply list_lookup_singleton_Some in Hk as [Hk <-].
        cbn. rewrite decide_True by done.
        rewrite take_ge by (rewrite length_app; cbn; lia). done.
    + etrans; [by apply Hgl|apply HE].
Qed.

Lemma grows_at_other n p G G' j rf :
  grows_at p G G' → j ≠ p → node_ok n G j rf → node_ok n G' j rf.
Proof.
  intros HW Hj HN. pose proof (grows_at_ext _ _ _ HW) as HE.
  destruct HW as [->|(T & e & Hw & He & ->)]; [done|].
  apply node_ok_ext with G; try done.
  cbn. intros Hr. case_decide; [|done]. subst.
  destruct (nk_lead _ _ _ _ HN Hr). congruence.
Qed.

Lemma grows_at_camp p G G' k : grows_at p G G' → camp G' k = camp G k.
Proof. by intros [->|(T & e & _ & _ & ->)]. Qed.

(** The history after [Start]. *)
Definition started rf (cmd : Cmd) G : Ghost Cmd :=
  if decide (role rf = Leader)
  then grow G (currentTerm rf) (canon G (currentTerm rf) ++ [mkEntry cmd (currentTerm rf)])
  else G.

Lemma Start_ok n G i rf cmd :
  ghost_ok n G → node_ok n G i rf →
  grows_at i G (started rf cmd G) ∧ node_ok n (started rf cmd G) i (fst (Start rf cmd)) ∧
    currentTerm (fst (Start rf cmd)) = currentTerm rf.
Proof.
  intros HG HN. unfold Start, started. case_decide as Hr; cycle 1.
  { split; [by left|]. done. }
  pose proof HN as [? ? ? ? Hact Hcand Hlead Hn Hv Hh Hw Hl ?].
  destruct (Hlead Hr) as (Hwon & Hcanon).
  set (e := mkEntry cmd (currentTerm rf)).
  set (G' := grow G (currentTerm rf) (canon G (currentTerm rf) ++ [e])).
  assert (HW : grows_at i G G') by (right; exists (currentTerm rf), e; eauto).
  pose proof (grows_at_ext _ _ _ HW) as HE.
  assert (Hc' : canon G' (currentTerm rf) = logs rf ++ [e]).
  { unfold G'. cbn. by rewrite decide_True, Hcanon. }
  pose proof (gk_closed _ _ (grows_at_ghost n i G G' HW HG) (currentTerm rf)) as HC.
  assert (Hhist : ∀ T, hist G' i T = hist G i T) by done.
  assert (Hwins : ∀ T, won G' T = won G T) by done.
  fold e. fold G'. split; [done|]. split; [|done]. clearbody G'. cbn [fst].
  assert (len (logs rf ++ [e]) = len (logs rf) + 1) by apply len_app.
  constructor; rsimpl; rewrite ?Hr, ?Hhist, ?Hwins; auto; try lia; try by rewrite <- Hc'.
  - intros _. apply Hact. congruence.
  - done.
  - intros T c. rewrite Hhist. apply Hh.
  - intros T. rewrite Hwins. apply Hw.
Qed.
End invlog.
End InvLog.
