(* ===== verification/RaftInvStep.v ===== *)
(** * RaftInvStep: every synchronised step preserves the invariant *)
From S2P Require Import Prelude Persister Raft RaftCluster RaftInv RaftInvLog.
Export InvLog.

Module InvStep.

Section invstep.
Context {Cmd : Type}.
#[local] Notation Raft := (Raft.Raft Cmd).
#[local] Notation Cluster := (Cluster.Cluster Cmd).
#[local] Notation Thread := (Cluster.Thread Cmd).
Implicit Types (rf : Raft) (G : Ghost Cmd) (s : Cluster) (th : Thread).

(** ** Goroutine bookkeeping *)

Lemma omap_insert_same {A B} (f : A → option B) (l : list A) i x y :
  l !! i = Some x → f x = f y → omap f (<[i:=y]> l) = omap f l.
Proof.
  intros Hi Hf. rewrite <- (take_drop_middle l i x) at 2 by done.
  rewrite insert_take_drop by (by eapply lookup_lt_Some).
  rewrite !omap_app. cbn. by rewrite Hf.
Qed.

Lemma omap_insert_new {A B} (f : A → option B) (l : list A) i x y b :
  l !! i = Some x → f x = None → f y = Some b →
  omap f (<[i:=y]> l) ≡ₚ b :: omap f l.
Proof.
  intros Hi Hx Hy. rewrite <- (take_drop_middle l i x) at 2 by done.
  rewrite insert_take_drop by (by eapply lookup_lt_Some).
  rewrite !omap_app. cbn. rewrite Hx, Hy. cbn. by rewrite <- Permutation_middle.
Qed.

Lemma omap_sublist {A B} (f g : A → option B) (l : list A) :
  (∀ x b, f x = Some b → g x = Some b) → omap f l `sublist_of` omap g l.
Proof.
  intros Hfg. induction l as [|x l IH]; cbn; [done|].
  destruct (f x) as [b|] eqn:E.
  - rewrite (Hfg _ _ E). by constructor.
  - destruct (g x); [by constructor|done].
Qed.

Lemma counted_asked k (ths : list Thread) : counted k ths `sublist_of` asked k ths.
Proof.
  apply omap_sublist. intros [o p ep k' args []|?|?] b; try done.
  by destruct counted0.
Qed.

Lemma elem_of_counted k (ths : list Thread) x :
  x ∈ counted k ths →
  ∃ o ep args, RVThread o x ep k args (RVDone true) ∈ ths.
Proof.
  unfold counted. rewrite list_elem_of_omap. intros (th & Hin & Hth).
  destruct th as [o p ep k' args ph|?|?]; try done.
  destruct ph as [| | | |[]]; try done. case_decide; naive_solver.
Qed.

(** The peer a goroutine asks and its doVote call; whether it was counted. *)
Definition rv_key th : option (Z * nat) :=
  match th with RVThread _ p _ k _ _ => Some (p, k) | _ => None end.
Definition rv_counted th : bool :=
  match th with RVThread _ _ _ _ _ (RVDone b) => b | _ => false end.

Lemma asked_insert k (ths : list Thread) tid th th' :
  ths !! tid = Some th → rv_key th' = rv_key th → asked k (<[tid:=th']> ths) = asked k ths.
Proof.
  intros Ht Hk. eapply omap_insert_same; [done|].
  destruct th, th'; cbn in *; naive_solver.
Qed.

Lemma counted_insert k (ths : list Thread) tid th th' :
  ths !! tid = Some th → rv_key th' = rv_key th → rv_counted th = rv_counted th' →
  counted k (<[tid:=th']> ths) = counted k ths.
Proof.
  intros Ht Hk Hc. eapply omap_insert_same; [done|].
  destruct th as [? ? ? ? ? []|?|?], th' as [? ? ? ? ? []|?|?];
    cbn in *; simplify_eq; try done; repeat case_match; naive_solver.
Qed.

(** One step: the new state is good, the history grew, no term decreased. *)
Record good_step s G s' G' : Prop := mkGood {
  gs_inv : Inv s' G';
  gs_ext : ext G G';
  gs_size : size s' = size s;
  gs_term i : 0 ≤ i < size s → currentTerm (nodes s i) ≤ currentTerm (nodes s' i);
}.

Lemma good_refl s G : Inv s G → good_step s G s G.
Proof. by constructor. Qed.

Lemma good_trans s1 G1 s2 G2 s3 G3 :
  good_step s1 G1 s2 G2 → good_step s2 G2 s3 G3 → good_step s1 G1 s3 G3.
Proof.
  intros [? ? Hs1 Ht1] [? ? Hs2 Ht2]. constructor; [done|by etrans|congruence|].
  intros i Hi. etrans; [by apply Ht1|]. apply Ht2. by rewrite Hs1.
Qed.

(** ** Updates of one part of the state *)

Lemma good_put_node s G G' i rf :
  Inv s G → ext G G' → ghost_ok (size s) G' → (∀ k, camp G' k = camp G k) →
  (∀ j rf', j ≠ i → node_ok (size s) G j rf' → node_ok (size s) G' j rf') →
  0 ≤ i < size s → node_ok (size s) G' i rf →
  currentTerm (nodes s i) ≤ currentTerm rf →
  good_step s G (put_node s i rf) G'.
Proof.
  intros [? ? Hn Ht Hc Hl] HE HG Hk Ho Hi HN Hle.
  constructor; [constructor|done|done|]; cbn; try done.
  - intros j Hj. destruct (decide (i = j)) as [<-|]; [by rewrite fn_lookup_insert|].
    rewrite fn_lookup_insert_ne by done. auto.
  - eapply Forall_impl; [done|]. intros th. by apply thread_ok_ext.
  - by eapply camps_ok_ext.
  - intros j Hj. destruct (decide (i = j)) as [<-|].
    + rewrite fn_lookup_insert. intros HV. specialize (Hl i Hi HV). lia.
    + rewrite fn_lookup_insert_ne by done. auto.
  - intros j Hj. destruct (decide (i = j)) as [<-|]; [by rewrite fn_lookup_insert|].
    by rewrite fn_lookup_insert_ne.
Qed.

(** The same when the history does not change. *)
Lemma good_put_node_same s G i rf :
  Inv s G → 0 ≤ i < size s → node_ok (size s) G i rf →
  currentTerm (nodes s i) ≤ currentTerm rf →
  good_step s G (put_node s i rf) G.
Proof. intros HI ? ? ?. apply good_put_node; try done. apply HI. Qed.

Lemma good_core s G i rf :
  Inv s G → 0 ≤ i < size s → core rf = core (nodes s i) →
  good_step s G (put_node s i rf) G.
Proof.
  intros HI Hi Hc. apply good_put_node_same; [done..| |].
  - eapply node_ok_core; [done|]. by apply HI.
  - assert (currentTerm rf = currentTerm (nodes s i)) by (unfold core in Hc; congruence). lia.
Qed.

Lemma good_put_thread s G tid th th' :
  Inv s G → threads s !! tid = Some th → thread_ok (size s) G th' →
  rv_key th' = rv_key th → rv_counted th = rv_counted th' →
  good_step s G (put_thread s tid th') G.
Proof.
  intros [? ? ? Ht [Hnd Hag Hk] ?] Hth Hok Hkey Hcnt.
  constructor; [constructor|done|done|]; cbn; try done.
  - by apply Forall_insert.
  - constructor; [|intros k a Ha|done].
    + intros k. by erewrite asked_insert.
    + erewrite counted_insert; eauto.
Qed.

Lemma good_spawn s G ths :
  Inv s G → Forall (thread_ok (size s) G) ths → Forall (λ th, rv_key th = None) ths →
  good_step s G (spawn s ths) G.
Proof.
  intros [? ? ? Ht [Hnd Hag Hk] ?] Hok Hnone.
  assert (Ha : ∀ k, asked k ths = []).
  { intros k. clear Hok. induction Hnone as [|[] ths' Hx _ IH]; [done|discriminate|exact IH|exact IH]. }
  assert (Hc : ∀ k, counted k ths = []).
  { intros k. clear Hok Ha. induction Hnone as [|[] ths' Hx _ IH]; [done|discriminate|exact IH|exact IH]. }
  constructor; [constructor|done|done|]; cbn; try done.
  - by apply Forall_app.
  - constructor; [|intros k a Hka|done].
    + intros k. unfold asked in *. by rewrite omap_app, Ha, app_nil_r.
    + unfold counted in *. rewrite omap_app, Hc, app_nil_r. auto.
Qed.

Lemma good_put_loop s G i pc :
  Inv s G → (pc = LoopVote → 1 ≤ currentTerm (nodes s i)) →
  good_step s G (put_loop s i pc) G.
Proof.
  intros [] Hpc. constructor; [constructor|done|done|]; cbn; try done.
  intros j Hj. destruct (decide (i = j)) as [<-|].
  - rewrite fn_lookup_insert. done.
  - rewrite fn_lookup_insert_ne by done. auto.
Qed.

(** The parts of the state the invariant does not read. *)
Lemma good_view s G s' :
  Inv s G → size s' = size s → nodes s' = nodes s → threads s' = threads s →
  campaigns s' = campaigns s → loops s' = loops s → good_step s G s' G.
Proof.
  destruct s, s'. cbn. intros [] -> -> -> -> ->. constructor; [by constructor|done|done|].
  cbn. intros; lia.
Qed.

Lemma good_apply s G i msgs : Inv s G → good_step s G (apply s i msgs) G.
Proof. intros. by apply good_view. Qed.

Lemma inv_thread s G tid th :
  Inv s G → threads s !! tid = Some th → thread_ok (size s) G th.
Proof. intros HI Ht. by eapply Forall_lookup_1; [apply HI|]. Qed.

(** ** doVote *)

Definition new_camp G (k : nat) (c T : Z) : Ghost Cmd :=
  G <| camp := λ j, if decide (j = k) then Some (c, T) else camp G j |>.

(** What an event does to the history. *)
Definition traced s (e : Cluster.Event Cmd) G G' : Prop :=
  match e with
  | EElect i _ => hist G i (currentTerm (nodes s i) + 1) = None ∧
                  G' = give_vote G i (currentTerm (nodes s i) + 1) i
  | EDoVote i => G' = new_camp G (length (campaigns s)) i (currentTerm (nodes s i))
  | EStart i cmd => G' = started (nodes s i) cmd G
  | EDeliver tid now =>
      match threads s !! tid with
      | Some (RVThread o p _ _ args _) =>
          ballot p (rv_Term args) o (ballot_free now (nodes s p) args) G G'
      | _ => G' = G
      end
  | ETally tid =>
      match threads s !! tid with
      | Some (RVThread o p _ k args (RVGot ok)) =>
          ∀ a, campaigns s !! k = Some a →
               takes_office o (nodes s o) args (tally (nodes s o) args ok a).1.1 G G'
      | _ => G' = G
      end
  | _ => G' = G
  end.

(** When the event runs to completion, that is a good step. *)
Definition succeeds s G (e : Cluster.Event Cmd) : Prop :=
  ∀ s', exec s e = Some (Ok s') → ∃ G', good_step s G s' G' ∧ traced s e G G'.

Lemma camp_fresh G agreed (ths : list Thread) :
  camps_ok G agreed ths → camp G (length agreed) = None.
Proof.
  intros [_ _ Hk]. destruct (camp G (length agreed)) eqn:E; [|done].
  assert (is_Some (camp G (length agreed))) as Hs by (rewrite E; eauto).
  apply Hk in Hs. lia.
Qed.

(** No goroutine belongs to a doVote call that has not run yet. *)
Lemma asked_fresh n G agreed (ths : list Thread) :
  camps_ok G agreed ths → Forall (thread_ok n G) ths → asked (length agreed) ths = [].
Proof.
  intros HC HT. pose proof (camp_fresh _ _ _ HC) as HN. clear HC.
  unfold asked. induction HT as [|th ths Hth _ IH]; [done|].
  destruct th as [o p ep k args ph|?|?]; cbn; try done.
  case_decide; [subst|done]. cbn in Hth. naive_solver.
Qed.

Lemma asked_vote_threads k s i :
  asked k (vote_threads s i) =
  if decide (length (campaigns s) = k) then others (nodes s i) else [].
Proof.
  unfold asked, vote_threads, doVote.
  induction (others (nodes s i)) as [|p ps IH]; [by case_decide|].
  cbn in *. case_decide; [f_equal|]; done.
Qed.

Lemma counted_vote_threads k s i : counted k (vote_threads s i) = [].
Proof.
  unfold counted, vote_threads, doVote. by induction (others (nodes s i)).
Qed.

Lemma vote_threads_ok s G i :
  Inv s G → 0 ≤ i < size s → 1 ≤ currentTerm (nodes s i) →
  Forall (thread_ok (size s) (new_camp G (length (campaigns s)) i (currentTerm (nodes s i))))
    (vote_threads s i).
Proof.
  intros HI Hi HT. apply Forall_forall. unfold vote_threads, doVote.
  intros th. rewrite list_elem_of_fmap. intros ([p args] & -> & Hp).
  apply list_elem_of_fmap in Hp as (p' & [= -> ->] & Hp).
  unfold others in Hp. apply list_elem_of_filter in Hp as [Hne Hp%elem_of_range].
  pose proof (inv_nodes _ _ HI i Hi) as HN.
  rewrite (nk_me _ _ _ _ HN) in *. rewrite (nk_peers _ _ _ _ HN) in Hp.
  cbn. by rewrite decide_True.
Qed.

Lemma good_do_vote s G i :
  Inv s G → 0 ≤ i < size s → loops s i = LoopVote →
  let G' := new_camp G (length (campaigns s)) i (currentTerm (nodes s i)) in
  ∃ s', exec_do_vote s i = Some (Ok s') ∧ good_step s G s' G'.
Proof.
  intros HI Hi Hpc. unfold exec_do_vote. rewrite Hpc.
  pose proof (inv_loops _ _ HI i Hi Hpc) as HT.
  pose proof (vote_threads_ok _ _ _ HI Hi HT) as HV.
  pose proof (inv_camps _ _ HI) as HC. pose proof (camp_fresh _ _ _ HC) as HF.
  pose proof (asked_fresh _ _ _ _ HC (inv_threads _ _ HI)) as HA.
  set (G' := new_camp G (length (campaigns s)) i (currentTerm (nodes s i))) in *.
  assert (HE : ext G G').
  { constructor; cbn; auto. intros k x Hk. case_decide; congruence. }
  eexists. split; [done|].
  destruct HI as [? HG Hn Ht _ Hl]. destruct HC as [Hnd Hag Hk].
  constructor; [constructor|done|done|]; cbn; try done.
  - by destruct HG.
  - intros j Hj. apply node_ok_ext with G; auto.
  - apply Forall_app. split; [|done].
    eapply Forall_impl; [done|]. intros th. by apply thread_ok_ext.
  - constructor; cbn.
    + intros k. unfold asked. rewrite omap_app. fold (asked k (threads s)).
      fold (asked k (vote_threads s i)). rewrite asked_vote_threads.
      case_decide as HD; [|by rewrite app_nil_r].
      rewrite <- HD, HA. cbn. apply NoDup_filter, NoDup_range.
    + intros k a Ha. unfold counted. rewrite omap_app. fold (counted k (threads s)).
      fold (counted k (vote_threads s i)).
      rewrite counted_vote_threads, app_nil_r.
      apply lookup_snoc_Some in Ha as [[_ Ha]|[-> <-]]; [by apply Hag|].
      pose proof (counted_asked (length (campaigns s)) (threads s)) as Hsub.
      rewrite HA in Hsub. apply sublist_nil_r in Hsub. by rewrite Hsub.
    + intros k. rewrite length_app. cbn. case_decide; [subst; split; [lia|eauto]|].
      rewrite Hk. lia.
  - intros j Hj. destruct (decide (i = j)) as [<-|].
    + by rewrite fn_lookup_insert.
    + rewrite fn_lookup_insert_ne by done. auto.
Qed.

(** ** Counting a vote *)

(** The peers counted so far in call [k], seen from goroutine [tid] of it. *)
Lemma counted_others n G k (ths : list Thread) tid o p ep args ok :
  NoDup (asked k ths) → Forall (thread_ok n G) ths →
  ths !! tid = Some (RVThread o p ep k args (RVGot ok)) →
  NoDup (o :: p :: counted k ths) ∧
  ∀ x, x ∈ counted k ths → 0 ≤ x < n ∧ voted G x (rv_Term args) o.
Proof.
  intros Hnd Ht Hth.
  pose proof (Forall_lookup_1 _ _ _ _ Ht Hth) as (?&?&Hpo&?&?&Hcamp&_).
  assert (Hall : ∀ x, x ∈ counted k ths →
    0 ≤ x < n ∧ x ≠ o ∧ voted G x (rv_Term args) o).
  { intros x (o' & ep' & args' & Hin)%elem_of_counted.
    eapply Forall_forall in Hin; [|done].
    destruct Hin as (?&?&?&_&_&Hc'&Hv'). rewrite Hcamp in Hc'.
    injection Hc' as -> HT'. cbn in Hv'. rewrite HT'. auto. }
  split; [|intros x Hx; by destruct (Hall x Hx) as (?&_&?)].
  set (th' := RVThread o p ep k args (RVDone true) : Thread).
  assert (Hp : counted k (<[tid:=th']> ths) ≡ₚ p :: counted k ths).
  { eapply omap_insert_new; [done|done|]. cbn. by rewrite decide_True. }
  assert (Hnd' : NoDup (p :: counted k ths)).
  { rewrite <- Hp. eapply sublist_NoDup; [|apply counted_asked].
    by erewrite asked_insert. }
  constructor; [|done].
  intros [->|Hin]%elem_of_cons; [done|]. by destruct (Hall o Hin) as (_&?&_).
Qed.

Lemma good_count s G tid o p ep k args ok a a' :
  Inv s G → threads s !! tid = Some (RVThread o p ep k args (RVGot ok)) →
  campaigns s !! k = Some a → a' = a ∨ ok = true ∧ a' = a + 1 →
  good_step s G
    (put_thread s tid (RVThread o p ep k args (RVDone (a <? a')))
       <| campaigns := <[k:=a']> (campaigns s) |>) G.
Proof.
  intros HI Hth Ha Ha'. pose proof (inv_thread _ _ _ _ HI Hth) as Hok.
  destruct HI as [? ? ? Ht [Hnd Hag Hk] ?].
  constructor; [constructor|done|done|]; cbn; try done.
  - apply Forall_insert; [done|]. cbn in *. destruct Hok as (?&?&?&?&?&?&Hv).
    do 6 (split; [done|]). cbn. intros ?%Z.ltb_lt. apply Hv. destruct Ha'; [lia|naive_solver].
  - constructor.
    + intros j. by erewrite asked_insert.
    + intros j b Hb. destruct Ha' as [->|[-> ->]].
      * rewrite Z.ltb_irrefl. erewrite counted_insert by done.
        rewrite list_insert_id in Hb by done. auto.
      * rewrite (proj2 (Z.ltb_lt a (a + 1))) by lia.
        destruct (decide (k = j)) as [<-|Hkj].
        -- rewrite list_lookup_insert_eq in Hb by (by eapply lookup_lt_Some).
           injection Hb as <-.
           assert (Hp : counted k (<[tid:=RVThread o p ep k args (RVDone true)]> (threads s))
             ≡ₚ p :: counted k (threads s)).
           { eapply omap_insert_new; [done|done|]. cbn. by rewrite decide_True. }
           unfold len. rewrite Hp. cbn. rewrite (Hag _ _ Ha). unfold len. lia.
        -- rewrite list_lookup_insert_ne in Hb by done.
           unfold counted. erewrite omap_insert_same; [by apply Hag|done|].
           cbn. by rewrite decide_False.
    + intros j. rewrite length_insert. apply Hk.
Qed.

Lemma good_tally s G tid : Inv s G → succeeds s G (ETally tid).
Proof.
  intros HI s'. cbn [exec traced]. unfold exec_tally.
  destruct (threads s !! tid) as [[o p ep k args [| | |ok|]|?|?]|] eqn:Hth; try done.
  destruct (campaigns s !! k) as [a|] eqn:Ha; [|done].
  destruct (may_lock s o ep); [|done].
  pose proof (inv_thread _ _ _ _ HI Hth) as (Ho&Hp&Hpo&Hc&HT&Hcamp&Hv).
  destruct (counted_others _ _ _ _ _ _ _ _ _ _ (ck_nodup _ _ _ (inv_camps _ _ HI) k)
    (inv_threads _ _ HI) Hth) as [Hnd Hcs].
  pose proof (ck_agreed _ _ _ (inv_camps _ _ HI) k a Ha) as Hag.
  destruct (tally_ok (size s) G o (nodes s o) args ok p (counted k (threads s)))
    as (G' & rf' & a' & w & Htal & HW & Htk & HN & Hterm & Hcnt); try done.
  { apply HI. } { by apply HI. } { apply HI. }
  rewrite <- Hag in *. rewrite Htal. intros [= <-].
  assert (H1 : good_step s G (put_node s o rf') G').
  { apply good_put_node; try done; try lia.
    - eapply wins_at_ext; [apply HI|done].
    - eapply wins_at_ghost; [done|apply HI].
    - intros. by eapply wins_at_camp.
    - intros. eapply wins_at_other; try done. apply HI. }
  pose proof (good_count _ _ tid o p ep k args ok a a' (gs_inv _ _ _ _ H1) Hth Ha Hcnt) as H2.
  pose proof (good_trans _ _ _ _ _ _ H1 H2) as H12.
  assert (Htr : ∀ a0, Some a = Some a0 →
    takes_office o (nodes s o) args (tally (nodes s o) args ok a0).1.1 G G').
  { intros a0 [= <-]. by rewrite Htal. }
  destruct w; exists G'; (split; [|exact Htr]); [|exact H12].
  eapply good_trans; [exact H12|]. by apply good_view; [exact (gs_inv _ _ _ _ H12)|..].
Qed.

(** ** The other events *)

(** Update a node, then one of the goroutines. *)
Lemma good_node_thread s G G' i rf tid th th' :
  good_step s G (put_node s i rf) G' →
  threads s !! tid = Some th → thread_ok (size s) G' th' →
  rv_key th' = rv_key th → rv_counted th = rv_counted th' →
  good_step s G (put_thread (put_node s i rf) tid th') G'.
Proof.
  intros H1 Hth Hok Hk Hc. eapply good_trans; [exact H1|].
  eapply good_put_thread; [apply H1|exact Hth|done..].
Qed.

(** A step that leaves the history alone. *)
Definition keeps s G (o : option (res Cluster)) : Prop :=
  ∀ s', o = Some (Ok s') → good_step s G s' G.

Lemma good_loop_top s G i now : Inv s G → keeps s G (exec_loop_top s i now).
Proof.
  intros HI s'. unfold exec_loop_top. destruct (loops s i); try done.
  intros [= <-]. apply good_put_loop; [done|].
  repeat case_match; done.
Qed.

Lemma good_elect s G i rnd :
  Inv s G → 0 ≤ i < size s → lock_check_holds s (EElect i rnd) = true → loops s i = LoopDue →
  let G' := give_vote G i (currentTerm (nodes s i) + 1) i in
  hist G i (currentTerm (nodes s i) + 1) = None ∧
  good_step s G (put_node (put_loop s i LoopVote) i (start_election (nodes s i) rnd)) G'.
Proof.
  intros HI Hi Hlc%Z.ltb_lt Hl G'.
  destruct (start_election_ok (size s) G i (nodes s i) rnd) as (HV & HN0 & HN & HT);
    [by apply HI|lia|done|]. fold G' in HV, HN. clearbody G'. split; [done|].
  pose proof (nk_term _ _ _ _ (inv_nodes _ _ HI i Hi)).
  assert (H1 : good_step s G (put_node s i (start_election (nodes s i) rnd)) G').
  { apply good_put_node; [done| | | | |done|done|lia].
    - by eapply votes_at_ext.
    - eapply votes_at_ghost; [done|apply HI].
    - intros. by eapply votes_at_camp.
    - intros. by eapply votes_at_other. }
  eapply good_trans; [exact H1|].
  refine (good_put_loop (put_node s i (start_election (nodes s i) rnd)) G' i LoopVote
            (gs_inv _ _ _ _ H1) _).
  intros _. cbn. rewrite fn_lookup_insert, HT. lia.
Qed.

Lemma good_loop_end s G i now :
  Inv s G → 0 ≤ i < size s → keeps s G (exec_loop_end s i now).
Proof.
  intros HI Hi s'. unfold exec_loop_end. destruct (loops s i); try done.
  intros [= <-].
  pose proof (good_put_loop s G i LoopTop HI ltac:(done)) as H1.
  eapply good_trans; [exact H1|].
  apply good_core; [apply H1|done|]. apply election_loop_end_core.
Qed.

Lemma good_start s G i cmd :
  Inv s G → 0 ≤ i < size s →
  good_step s G (put_node s i (fst (Start (nodes s i) cmd))) (started (nodes s i) cmd G).
Proof.
  intros HI Hi.
  destruct (Start_ok (size s) G i (nodes s i) cmd) as (HW & HN & HT);
    [apply HI|by apply HI|].
  apply good_put_node; try done; [| | | |lia].
  - by eapply grows_at_ext.
  - eapply grows_at_ghost; [done|apply HI].
  - intros. by eapply grows_at_camp.
  - intros. by eapply grows_at_other.
Qed.

Lemma restored_term n G i rf r1 r2 now :
  node_ok n G i rf →
  currentTerm (Make n i (Copy (persister rf)) r1 r2 now) = currentTerm rf.
Proof.
  intros HN. rewrite Copy_id, Make_eq. pose proof (nk_saved _ _ _ _ HN) as Hs.
  unfold saved in Hs. by rewrite Hs.
Qed.

Lemma good_restart s G i r1 r2 now :
  Inv s G → 0 ≤ i < size s → keeps s G (exec_restart s i r1 r2 now).
Proof.
  intros HI Hi s'. unfold exec_restart. intros [= <-].
  pose proof (inv_nodes _ _ HI i Hi) as HN.
  pose proof (good_put_node_same s G i _ HI Hi (Make_ok _ _ _ _ r1 r2 now HN)) as H1.
  erewrite restored_term in H1 by done. specialize (H1 ltac:(lia)).
  eapply good_trans; [exact H1|]. pose proof (gs_inv _ _ _ _ H1) as HI1.
  pose proof (good_put_loop _ _ i LoopTop HI1 ltac:(done)) as H2.
  eapply good_trans; [exact H2|]. by apply good_view; [apply H2|..].
Qed.

Lemma good_deliver s G tid now : Inv s G → succeeds s G (EDeliver tid now).
Proof.
  intros HI s'. cbn [exec traced]. unfold exec_deliver.
  destruct (threads s !! tid) as [[o p ep k args []|o p ep [|args|args|args rep|args rep|args rep|args rep w|args ok|]|?]|] eqn:Hth; try done.
  - destruct (unlocked s p); [|done].
    pose proof (inv_thread _ _ _ _ HI Hth) as (Ho&Hp&Hpo&Hc&HT&Hcamp&_).
    destruct (RequestVote_ok (size s) G p (nodes s p) now args) as (G' & HB & HN & Hv & Hle);
      [by apply HI|done|lia|].
    pose proof (ballot_votes _ _ _ _ _ _ HB) as HV. rewrite Hc in HB.
    destruct (RequestVote now (nodes s p) args) as [rf' rep]. cbn in HN, Hv, Hle.
    intros [= <-]. exists G'. split; [|exact HB].
    eapply good_node_thread; [|exact Hth| |done|done].
    + apply good_put_node; try done.
      * by eapply votes_at_ext.
      * eapply votes_at_ghost; [done|apply HI].
      * intros. by eapply votes_at_camp.
      * intros. by eapply votes_at_other.
    + cbn. rewrite (votes_at_camp _ _ _ _ HV). by subst o.
  - destruct (unlocked s p); [|done].
    pose proof (inv_thread _ _ _ _ HI Hth) as (Ho&Hp&Hpo&HM).
    destruct (AppendEntries_ok (size s) G p o (nodes s p) now args)
      as (rf' & rep & msgs & HA & HN & Hle); [apply HI|by apply HI|done|lia|].
    rewrite HA. cbn. intros [= <-]. exists G. split; [|done].
    eapply good_trans; [|apply good_apply].
    + eapply good_node_thread; [by apply good_put_node_same|exact Hth| |done|done]. done.
    + eapply gs_inv, good_node_thread; [by apply good_put_node_same|exact Hth| |done|done].
      done.
Qed.

Lemma good_lose s G tid : Inv s G → keeps s G (exec_lose s tid).
Proof.
  intros HI s'. unfold exec_lose.
  destruct (threads s !! tid) as [[o p ep k args []|o p ep [|args|args|args rep|args rep|args rep|args rep w|args ok|]|?]|] eqn:Hth; try done;
    pose proof (inv_thread _ _ _ _ HI Hth) as Hok; intros [= <-]; (eapply good_put_thread; [done|exact Hth| |done|done]);
    cbn in *; naive_solver.
Qed.

Lemma good_check s G tid : Inv s G → keeps s G (exec_check s tid).
Proof.
  intros HI s'. unfold exec_check.
  destruct (threads s !! tid) as [[o p ep k args []|o p ep [|args|args|args rep|args rep|args rep|args rep w|args ok|]|?]|] eqn:Hth; try done;
    pose proof (inv_thread _ _ _ _ HI Hth) as Hok; (destruct (alive s o ep); [|done]);
    intros [= <-];
    (eapply good_put_thread; [done|exact Hth| |done|]); case_match; cbn in *; done.
Qed.

Lemma good_step_down s G tid :
  Inv s G → lock_check_holds s (EStepDown tid) = true →
  keeps s G (exec_step_down s tid).
Proof.
  intros HI Hlc s'. unfold exec_step_down. cbn in Hlc.
  destruct (threads s !! tid) as [[o p ep k args []|o p ep [|args|args|args rep|args rep|args rep|args rep w|args ok|]|?]|] eqn:Hth; try done;
    pose proof (inv_thread _ _ _ _ HI Hth) as Hok; (destruct (may_lock s o ep); [|done]);
    intros [= <-]; apply Z.ltb_lt in Hlc;
    (eapply good_node_thread; [|exact Hth| |done|done]; [|cbn in *; done]);
    rewrite step_down_adopt by done;
    (apply good_put_node_same; [done|apply Hok|apply adopt_term_ok, HI, Hok|]);
    cbn; rewrite adopt_term_term; lia.
Qed.

Lemma good_rewind s G tid : Inv s G → keeps s G (exec_rewind s tid).
Proof.
  intros HI s'. unfold exec_rewind.
  destruct (threads s !! tid) as [[?|o p ep [|args|args|args rep|args rep|args rep|args rep w|args ok|]|?]|] eqn:Hth; try done;
    pose proof (inv_thread _ _ _ _ HI Hth) as Hok; (destruct (alive s o ep); [|done]).
  - intros [= <-]. eapply good_put_thread; [done|exact Hth| |done|done].
    case_match; cbn in *; done.
  - destruct (rewind (nodes s o) p args rep w) as [rf| |] eqn:Hrw; cbn; try done.
    intros [= <-]. apply rewind_core in Hrw.
    eapply good_node_thread; [|exact Hth| |done|done]; [by apply good_core; [..|apply Hok|]|].
    destruct w; cbn in *; done.
Qed.

Lemma good_submit s G tid : Inv s G → keeps s G (exec_submit s tid).
Proof.
  intros HI s'. unfold exec_submit.
  destruct (threads s !! tid) as [[?|?|o ep []]|] eqn:Hth; try done;
    pose proof (inv_thread _ _ _ _ HI Hth) as Ho; (destruct (alive s o ep); [|done]);
    intros [= <-]; (eapply good_node_thread; [|exact Hth|done|done|done]); by apply good_core.
Qed.

Lemma good_tick s G tid : Inv s G → keeps s G (exec_tick s tid).
Proof.
  intros HI s'. unfold exec_tick.
  destruct (threads s !! tid) as [[?|?|o ep []]|] eqn:Hth; try done.
  destruct (alive s o ep); [|done].
  pose proof (inv_thread _ _ _ _ HI Hth) as Ho. cbn in Ho.
  intros [= <-]. case_match.
  - apply good_spawn; [done| |].
    + apply Forall_fmap, Forall_forall. intros p Hp. cbn.
      unfold others in Hp. apply list_elem_of_filter in Hp as [Hne Hp%elem_of_range].
      pose proof (inv_nodes _ _ HI o Ho) as HN.
      rewrite (nk_me _ _ _ _ HN) in *. by rewrite (nk_peers _ _ _ _ HN) in Hp.
    + by apply Forall_fmap, Forall_forall.
  - eapply good_node_thread; [|exact Hth|done|done|done]. by apply good_core.
Qed.

Lemma good_prepare s G tid :
  Inv s G → lock_check_holds s (EPrepare tid) = true →
  keeps s G (exec_prepare s tid).
Proof.
  intros HI Hlc s'. unfold exec_prepare. cbn in Hlc.
  destruct (threads s !! tid) as [[?|o p ep [|args|args|args rep|args rep|args rep|args rep w|args ok|]|?]|] eqn:Hth; try done.
  destruct (may_lock s o ep); [|done]. apply bool_decide_eq_true in Hlc.
  pose proof (inv_thread _ _ _ _ HI Hth) as (Ho&Hp&Hpo&_).
  destruct (prepare_append (nodes s o) p) as [args| |] eqn:Hpa; cbn; try done.
  eapply prepare_append_ok in Hpa; [|by apply HI|done].
  intros [= <-]. eapply good_trans.
  - eapply (good_put_thread _ _ _ _ (AEThread o p ep (AEPreparing args))); [done|exact Hth|done..].
  - apply good_view; [|done..].
    eapply gs_inv, good_put_thread; [done|exact Hth|done..].
Qed.

Lemma good_append_done s G tid : Inv s G → keeps s G (exec_append_done s tid).
Proof.
  intros HI s'. unfold exec_append_done.
  destruct (threads s !! tid) as [[?|o p ep [|args|args|args rep|args rep|args rep|args rep w|args ok|]|?]|] eqn:Hth; try done.
  destruct (may_lock s o ep); [|done].
  pose proof (inv_thread _ _ _ _ HI Hth) as (Ho&Hp&Hpo&HM).
  destruct (append_done (nodes s o) p args ok) as [[rf' msgs]| |] eqn:Had; cbn; try done.
  eapply append_done_ok in Had as [HN HT]; [|by apply HI].
  intros [= <-].
  assert (H1 : good_step s G (put_thread (put_node s o rf') tid
    (AEThread o p ep AEDone)) G).
  { eapply good_node_thread; [|exact Hth|done|done|done].
    apply good_put_node_same; [done..|lia]. }
  eapply good_trans; [exact H1|]. apply good_apply, H1.
Qed.

Lemma good_put_crit s G i c : Inv s G → good_step s G (put_crit s i c) G.
Proof. intros. by apply good_view. Qed.

Lemma good_critical s G i : Inv s G → 0 ≤ i < size s → keeps s G (exec_critical s i).
Proof.
  intros HI Hi s'. unfold exec_critical. destruct (crits s i) as [| | |tid]; [done|..].
  - intros [= <-].
    assert (H1 : good_step s G (put_node s i (truncate_next (nodes s i))) G) by by apply good_core.
    eapply good_trans; [exact H1|]. apply good_put_crit, H1.
  - intros [= <-].
    assert (H1 : good_step s G (put_node s i (fill_indices (nodes s i))) G).
    { apply good_put_node_same; [done..|by apply fill_indices_ok, HI|].
      by rewrite fill_indices_eq. }
    assert (H2 : good_step s G (spawn (put_node s i (fill_indices (nodes s i)))
      [SubmitThread i (epochs s i) SubmitNew]) G).
    { eapply good_trans; [exact H1|]. apply good_spawn; [apply H1|repeat (constructor; try done)..]. }
    eapply good_trans; [exact H2|]. apply good_put_crit, H2.
  - destruct (threads s !! tid) as [[?|o p ep [|args|args|args rep|args rep|args rep|args rep w|args ok|]|?]|] eqn:Hth; try done.
    destruct (advance_next (nodes s i) p args) as [rf| |] eqn:Ha; cbn; try done.
    intros [= <-]. apply set_next_core in Ha.
    assert (H1 : good_step s G (put_thread (put_node s i rf) tid
      (AEThread o p ep (AESent args))) G).
    { eapply good_node_thread; [by apply good_core|exact Hth| |done|done].
      exact (inv_thread _ _ _ _ HI Hth). }
    eapply good_trans; [exact H1|]. apply good_put_crit, H1.
Qed.
End invstep.
End InvStep.
