(* ===== verification/RaftSafety.v ===== *)
(** * RaftSafety: what Raft guarantees when no unlocked check goes stale

    The theorems about executions of RaftCluster.v in which every critical
    section entered after an unlocked check still finds the checked condition
    true ([ReachableSync]): at most one leader per term, matching logs, a leader
    that only appends, and terms that never decrease.  RaftRaces.v shows that the
    first and the fourth fail without that restriction. *)
From S2P Require Import Prelude Persister Raft RaftCluster RaftInv RaftInvLog.
From S2P Require Import RaftInvStep.
Export InvStep.

Module Safety.

Section safety.
Context {Cmd : Type}.
#[local] Notation Raft := (Raft.Raft Cmd).
#[local] Notation Cluster := (Cluster.Cluster Cmd).
Implicit Types (rf : Raft) (G : Ghost Cmd) (s : Cluster).

Lemma valid_range s i : valid s i = true → 0 ≤ i < size s.
Proof. intros [?%Z.leb_le ?%Z.ltb_lt]%andb_prop. lia. Qed.

Lemma keeps_succeeds s G e :
  keeps s G (exec s e) → (∀ G', G' = G → traced s e G G') → succeeds s G e.
Proof. intros Hk Ht s' Hs'. exists G. split; [by apply Hk|by apply Ht]. Qed.

Lemma exec_traced s G e : Inv s G → lock_check_holds s e = true → succeeds s G e.
Proof.
  intros HI Hlc. destruct e;
    try (apply keeps_succeeds; [|by intros G' ->]; intros s'; cbn [exec];
         try (destruct (valid s i) eqn:Hv; [apply valid_range in Hv|done])).
  - by apply good_loop_top.
  - intros s'. cbn [exec traced]. destruct (valid s i) eqn:Hv; [apply valid_range in Hv|done].
    cbn [andb]. destruct (unlocked s i); [|done].
    unfold exec_elect. destruct (loops s i) eqn:Hl; try done. intros [= <-].
    destruct (good_elect s G i rnd HI Hv Hlc Hl) as [HN ?].
    eexists. split; [done|]. by split.
  - intros s'. cbn [exec traced]. destruct (valid s i) eqn:Hv; [apply valid_range in Hv|done].
    cbn [andb]. destruct (unlocked s i); [|done].
    unfold exec_do_vote. destruct (loops s i) eqn:Hl; try done. intros [= <-].
    destruct (good_do_vote s G i HI Hv Hl) as (s' & He & ?).
    unfold exec_do_vote in He. rewrite Hl in He. injection He as <-.
    eexists. by split.
  - by apply good_loop_end.
  - intros s'. cbn [exec traced]. destruct (valid s i) eqn:Hv; [apply valid_range in Hv|done].
    cbn [andb]. destruct (unlocked s i); [|done].
    intros [= <-]. eexists. split; [by apply good_start|done].
  - intros [= <-]. by apply good_core.
  - by apply good_restart.
  - by apply good_deliver.
  - by apply good_lose.
  - by apply good_check.
  - by apply good_step_down.
  - by apply good_rewind.
  - by apply good_tally.
  - by apply good_submit.
  - by apply good_tick.
  - by apply good_prepare.
  - by apply good_append_done.
  - by apply good_critical.
Qed.

Lemma exec_good s G e s' :
  Inv s G → lock_check_holds s e = true → exec s e = Some (Ok s') →
  ∃ G', good_step s G s' G'.
Proof.
  intros HI Hlc He. destruct (exec_traced s G e HI Hlc s' He) as (G' & ? & _). eauto.
Qed.

(** Nobody has voted, won or proposed anything before the first term. *)
Definition empty_ghost : Ghost Cmd :=
  mkGhost (λ _ _, None) (λ _, None) (λ _, []) (λ _, None).

Lemma init_inv n boot : 1 ≤ n → Inv (init n boot) empty_ghost.
Proof.
  intros Hn. constructor; cbn; try done.
  - intros i Hi. destruct (boot i) as [[r1 r2] now]. rewrite Make_eq. node_fields.
  - constructor; [intros k; constructor|done|].
    intros k. cbn. split; [by intros []|lia].
Qed.

Lemma reachable_inv s : ReachableSync s → ∃ G, Inv s G.
Proof.
  induction 1 as [n boot Hn|s e s' _ [G HI] Hlc He]; [eauto using init_inv|].
  destruct (exec_good s G e s' HI Hlc He) as (G' & []). eauto.
Qed.

(** ** Consequences of the invariant *)

Lemma inv_election s G i j :
  Inv s G → 0 ≤ i < size s → 0 ≤ j < size s →
  role (nodes s i) = Leader → role (nodes s j) = Leader →
  currentTerm (nodes s i) = currentTerm (nodes s j) → i = j.
Proof.
  intros HI Hi Hj Hri Hrj HT.
  destruct (nk_lead _ _ _ _ (inv_nodes _ _ HI i Hi) Hri) as [H1 _].
  destruct (nk_lead _ _ _ _ (inv_nodes _ _ HI j Hj) Hrj) as [H2 _].
  congruence.
Qed.

Lemma log_sound_match G (l1 l2 : list (LogEntry Cmd)) k e1 e2 :
  log_sound G l1 → log_sound G l2 →
  l1 !! k = Some e1 → l2 !! k = Some e2 → term e1 = term e2 →
  take (S k) l1 = take (S k) l2.
Proof.
  intros H1 H2 He1 He2 HT.
  pose proof (H1 _ _ He1) as Hp1. pose proof (H2 _ _ He2) as Hp2.
  rewrite <- HT in Hp2. eapply prefix_same_length; [done..|].
  apply lookup_lt_Some in He1, He2. rewrite !length_take. lia.
Qed.

(** ** Theorems *)

(** C1. Election safety: in every state the peers can reach without a stale
    check, two peers that both believe to be leader of the same term are the
    same peer. *)
Theorem election_safety s i j :
  ReachableSync s → 0 ≤ i < size s → 0 ≤ j < size s →
  role (nodes s i) = Leader → role (nodes s j) = Leader →
  currentTerm (nodes s i) = currentTerm (nodes s j) → i = j.
Proof. intros [G HI]%reachable_inv. by eapply inv_election. Qed.

(** C2. Log matching: if the logs of two peers hold entries of the same term
    at the same index, they agree on every entry up to that index. *)
Theorem log_matching s i j k e1 e2 :
  ReachableSync s → 0 ≤ i < size s → 0 ≤ j < size s →
  logs (nodes s i) !! k = Some e1 → logs (nodes s j) !! k = Some e2 →
  term e1 = term e2 →
  take (S k) (logs (nodes s i)) = take (S k) (logs (nodes s j)).
Proof.
  intros [G HI]%reachable_inv Hi Hj.
  apply (log_sound_match G); [apply (inv_nodes _ _ HI i Hi)|apply (inv_nodes _ _ HI j Hj)].
Qed.

(** The term of a peer never decreases, across restarts too. *)
Theorem terms_monotone s e s' i :
  ReachableSync s → lock_check_holds s e = true → exec s e = Some (Ok s') →
  0 ≤ i < size s → currentTerm (nodes s i) ≤ currentTerm (nodes s' i).
Proof.
  intros [G HI]%reachable_inv Hlc He.
  destruct (exec_good s G e s' HI Hlc He) as (G' & []). auto.
Qed.

(** C7. A leader only appends: while a peer stays leader of a term, its log
    keeps every entry it has. *)
Theorem leader_append_only s e s' i :
  ReachableSync s → lock_check_holds s e = true → exec s e = Some (Ok s') →
  0 ≤ i < size s →
  role (nodes s i) = Leader → role (nodes s' i) = Leader →
  currentTerm (nodes s i) = currentTerm (nodes s' i) →
  logs (nodes s i) `prefix_of` logs (nodes s' i).
Proof.
  intros [G HI]%reachable_inv Hlc He Hi Hr Hr' HT.
  destruct (exec_good s G e s' HI Hlc He) as (G' & [HI' HE Hsz _]).
  destruct (nk_lead _ _ _ _ (inv_nodes _ _ HI i Hi) Hr) as (_ & <-).
  rewrite <- Hsz in Hi.
  destruct (nk_lead _ _ _ _ (inv_nodes _ _ HI' i Hi) Hr') as (_ & <-).
  rewrite HT. apply HE.
Qed.

End safety.
End Safety.
