(* ===== verification/RaftProps.v ===== *)
(** * RaftProps: what single operations of a peer guarantee, in any state

    Properties that hold for every schedule, with or without stale checks: the
    durable state is what a restart restores, one vote per term, what an
    accepted or rejected AppendEntries does, the order of applied messages, and
    the majority behind every commit. *)
From S2P Require Import Prelude Persister Raft RaftCluster RaftInv RaftInvLog.
Export InvLog.

Module RaftProps.

Section props.
Context {Cmd : Type}.
#[local] Notation Raft := (Raft.Raft Cmd).
#[local] Notation Cluster := (Cluster.Cluster Cmd).
Implicit Types (rf : Raft) (s : Cluster) (args : AppendEntriesArgs Cmd).

(** ** Inversion of the fallible operations *)

Lemma accept_entries_inv now rf args rf' msgs :
  accept_entries now rf args = Ok (rf', msgs) →
  0 ≤ PrevLogIndex args ≤ len (logs rf) ∧
  apply_range (take (Z.to_nat (PrevLogIndex args)) (logs rf) ++ Entries args)
    (commitIndex rf) (LeaderCommit args) = Ok msgs ∧
  rf' = rf <| logs := take (Z.to_nat (PrevLogIndex args)) (logs rf) ++ Entries args |>
           <| commitIndex := LeaderCommit args |> <| lastHeart := now |>.
Proof.
  unfold accept_entries. intros H. mbind_inv H.
  apply slice_to_inv in E as [Hle ->]. cbn in H. mbind_inv H.
  injection H as <- <-. done.
Qed.

Lemma prev_matches_inv (l : list (LogEntry Cmd)) args b :
  prev_matches l args = Ok b →
  b = true ↔ ∃ e, slice_get l (PrevLogIndex args - 1) = Ok e ∧ term e = PrevLogTerm args.
Proof.
  unfold prev_matches. intros H. zcase.
  - mbind_inv H. injection H as <-. rewrite Z.eqb_eq. split; [eauto|].
    by intros (e & [= ->] & ?).
  - injection H as <-. split; [done|].
    intros (e & ?%slice_get_bounds & _). lia.
Qed.

(** The three outcomes of the check: an old term, a follower that lacks the
    previous entry, acceptance. *)
Lemma check_append_inv now rf args rf0 b n :
  check_append now rf args = Ok (rf0, b, n) →
  (ae_Term args < currentTerm rf ∧ rf0 = rf ∧ b = false ∧ n = 0) ∨
  (currentTerm rf ≤ ae_Term args ∧ b = false ∧ n = len (logs rf) ∧
   rf0 = follow rf args <| lastHeart := now |> ∧ 0 < PrevLogIndex args ∧
   ¬ ∃ e, slice_get (logs rf) (PrevLogIndex args - 1) = Ok e ∧ term e = PrevLogTerm args) ∨
  (currentTerm rf ≤ ae_Term args ∧ b = true ∧ n = 0 ∧ rf0 = follow rf args ∧
   (0 < PrevLogIndex args → ∃ e,
      slice_get (logs rf) (PrevLogIndex args - 1) = Ok e ∧ term e = PrevLogTerm args)).
Proof.
  unfold check_append. intros H. zcase; [left; by injection H as <- <- <-|right].
  zcase; cycle 1.
  { right. injection H as <- <- <-. do 4 (split; [done|]). lia. }
  mbind_inv H. apply prev_matches_inv in E. cbn in E. destruct a.
  - right. injection H as <- <- <-. do 4 (split; [done|]). intros _. by apply E.
  - left. injection H as <- <- <-. do 5 (split; [done|]).
    intros He. by apply E in He.
Qed.

Lemma AppendEntries_inv now rf args rf' r msgs :
  AppendEntries now rf args = Ok (rf', r, msgs) →
  ∃ rf0 n, check_append now rf args = Ok (rf0, Success r, n) ∧
    r = mkAEReply (currentTerm rf0) (Success r) n ∧
    if Success r then
      ∃ rf1, accept_entries now rf0 args = Ok (rf1, msgs) ∧ rf' = persist rf1
    else msgs = [] ∧ rf' = persist rf0.
Proof.
  unfold AppendEntries. intros H. mbind_inv H. destruct a as [[rf0 b] n].
  destruct b; cbn in H.
  - mbind_inv H. destruct a as [rf1 m1]. injection H as <- <- <-. cbn. eauto 10.
  - injection H as <- <- <-. cbn. eauto 10.
Qed.

Lemma AppendEntries_saves now rf args rf' r msgs :
  AppendEntries now rf args = Ok (rf', r, msgs) → ∃ rf0, rf' = persist rf0.
Proof.
  intros (rf0 & n & _ & _ & H)%AppendEntries_inv.
  destruct (Success r); [destruct H as (rf1 & _ & ->)|destruct H as [_ ->]]; eauto.
Qed.

Lemma commit_loop_inv rf iters rf' msgs :
  commit_loop rf iters = Ok (rf', msgs) → ∃ c, rf' = rf <| commitIndex := c |>.
Proof.
  revert rf msgs. induction iters as [|i iters IH]; intros rf msgs H; cbn in H.
  { injection H as <- <-. exists (commitIndex rf). by destruct rf. }
  mbind_inv H. zcase; [by eapply IH|]. mbind_inv H. zcase; cycle 1.
  { injection H as <- <-. exists (commitIndex rf). by destruct rf. }
  mbind_inv H. destruct a1 as [rf1 m1]. mbind_inv H. destruct a1 as [rf2 m2].
  injection H as <- <-. unfold commit_to in E1. mbind_inv E1.
  injection E1 as <- <-. apply IH in E2 as [c ->]. by exists c.
Qed.

(** ** Durability *)

(** The persister holds the current term, vote and log. *)
Definition durable rf : Prop := saved rf = (currentTerm rf, votedFor rf, logs rf).

Lemma durable_persist rf : durable (persist rf).
Proof. done. Qed.

Lemma durable_core rf rf' :
  persister rf' = persister rf → currentTerm rf' = currentTerm rf →
  votedFor rf' = votedFor rf → logs rf' = logs rf → durable rf → durable rf'.
Proof. unfold durable, saved. by intros -> -> -> ->. Qed.

Lemma durable_Make n i rf r1 r2 now :
  durable rf → durable (Make n i (Copy (persister rf)) r1 r2 now).
Proof.
  intros _. rewrite Copy_id, Make_eq. unfold durable, saved.
  cbn [persister currentTerm votedFor logs]. by destruct (restore (persister rf)) as [[??]?].
Qed.

Lemma durable_put s i rf :
  (∀ j, durable (nodes s j)) → durable rf → ∀ j, durable (nodes (put_node s i rf) j).
Proof.
  intros Hs Hrf j. cbn. destruct (decide (i = j)) as [<-|].
  - by rewrite fn_lookup_insert.
  - by rewrite fn_lookup_insert_ne.
Qed.

#[local] Hint Resolve durable_persist durable_put durable_Make : core.

Lemma durable_tally rf (args : RequestVoteArgs) ok a :
  durable rf → durable (fst (fst (tally rf args ok a))).
Proof. unfold tally. intros. repeat case_match; done. Qed.

Lemma durable_set_next rf p x rf' : set_next rf p x = Ok rf' → durable rf → durable rf'.
Proof. intros [_ ->]%set_next_inv. by apply durable_core. Qed.

Lemma durable_rewind rf p args r w rf' :
  rewind rf p args r w = Ok rf' → durable rf → durable rf'.
Proof.
  destruct (rewind_cases rf p args r w) as [->|[x ->]]; [by intros [= ->]|].
  apply durable_set_next.
Qed.

Lemma durable_append_done rf p args ok rf' msgs :
  append_done rf p args ok = Ok (rf', msgs) → durable rf → durable rf'.
Proof.
  unfold append_done. case_match; [|by intros [= <- <-]].
  intros H0. mbind_inv H0. cbn in H0. apply commit_loop_inv in H0 as [c ->].
  by apply durable_core.
Qed.

Lemma durable_step s e s' :
  exec s e = Some (Ok s') → (∀ i, durable (nodes s i)) → ∀ i, durable (nodes s' i).
Proof.
  intros He Hs.
  destruct e; cbn in He; try (destruct (valid s i); [|done]); cbn [andb] in He;
    try (destruct (unlocked s i); [|done]).
  - unfold exec_loop_top in He. case_match; by simplify_eq.
  - unfold exec_elect in He. case_match; simplify_eq.
    apply (durable_put s); [done|apply durable_persist].
  - unfold exec_do_vote in He. case_match; by simplify_eq.
  - unfold exec_loop_end in He. case_match; simplify_eq.
    apply (durable_put s); [done|]. unfold election_loop_end. case_match; [|done].
    eapply durable_core; [..|apply (Hs i)]; done.
  - simplify_eq. apply (durable_put s); [done|]. unfold Start. by case_match.
  - simplify_eq. apply (durable_put s); [done|].
    eapply durable_core; [..|apply (Hs i)]; done.
  - unfold exec_restart in He. simplify_eq. apply (durable_put s); auto.
  - unfold exec_deliver in He. repeat case_match; try done; simplify_eq.
    + apply (durable_put s); [done|]. unfold RequestVote in *.
      repeat case_match; simplify_eq; done.
    + cbn in He. destruct (AppendEntries _ _ _) as [[[rf' r] msgs]| |] eqn:E; try done.
      injection He as <-. apply AppendEntries_saves in E as [rf0 ->].
      by apply (durable_put s).
  - unfold exec_lose in He. repeat case_match; by simplify_eq.
  - unfold exec_check in He. repeat case_match; by simplify_eq.
  - unfold exec_step_down in He. repeat case_match; simplify_eq;
      by apply (durable_put s).
  - unfold exec_rewind in He.
    destruct (threads s !! tid) as [[?|o p ep []|?]|]; try done; (destruct (alive s o ep); [|done]);
      [by simplify_eq|].
    destruct (rewind _ _ _ _ _) as [rf'| |] eqn:E; try done. injection He as <-.
    apply (durable_put s); [done|]. by eapply durable_rewind.
  - unfold exec_tally in He. repeat case_match; try done; simplify_eq;
      (apply (durable_put s); [done|]);
      match goal with H : tally ?rf ?a ?ok ?n = _ |- _ =>
        pose proof (durable_tally rf a ok n) as Hd; rewrite H in Hd; by apply Hd end.
  - unfold exec_submit in He.
    destruct (threads s !! tid) as [[?|?|o ep []]|]; try done; (destruct (alive s o ep); [|done]);
      injection He as <-; (apply (durable_put s); [done|]);
      by eapply durable_core; [..|apply (Hs o)].
  - unfold exec_tick in He. repeat case_match; try done; simplify_eq; [done|].
    apply (durable_put s); [done|]. eapply durable_core; [..|apply (Hs owner)]; done.
  - unfold exec_prepare in He. repeat case_match; try done; simplify_eq.
    destruct (prepare_append _ _) as [args| |] eqn:E; try done. by injection He as <-.
  - unfold exec_append_done in He. repeat case_match; try done; simplify_eq.
    destruct (append_done _ _ _ _) as [[rf' msgs]| |] eqn:E; try done. injection He as <-. apply (durable_put s); [done|]. by eapply durable_append_done.
  - unfold exec_critical in He. repeat case_match; try done; simplify_eq.
    + apply (durable_put s); [done|]. eapply durable_core; [..|apply (Hs i)]; done.
    + apply (durable_put s); [done|]. by rewrite fill_indices_eq.
    + destruct (advance_next _ _ _) as [rf'| |] eqn:E; try done. injection He as <-.
      apply (durable_put s); [done|]. by eapply durable_set_next.
Qed.

Lemma reachable_durable ok s : reachable ok s → ∀ i, durable (nodes s i).
Proof.
  induction 1 as [n boot Hn|s e s' _ IH _ He]; [|by eapply durable_step].
  intros i. cbn. destruct (boot i) as [[r1 r2] now]. by rewrite Make_eq.
Qed.

(** ** Applied messages *)

Lemma apply_range_spec (l : list (LogEntry Cmd)) a b msgs :
  apply_range l a b = Ok msgs →
  Forall2 (λ i m, ∃ e, slice_get l i = Ok e ∧ m = mkApplyMsg (i + 1) (command e) false)
    (range a b) msgs.
Proof.
  intros H%mapM_res_Forall2. eapply Forall2_impl; [done|].
  intros i m Hm. cbn in Hm. mbind_inv Hm. injection Hm as <-. eauto.
Qed.

Lemma apply_range_app (l : list (LogEntry Cmd)) a b c m1 m2 :
  a ≤ b → b ≤ c → apply_range l a b = Ok m1 → apply_range l b c = Ok m2 →
  apply_range l a c = Ok (m1 ++ m2).
Proof. intros Hab Hbc H1 H2. unfold apply_range. rewrite (range_app a b c) by done. by apply mapM_res_app. Qed.

(** The messages of the commit loop are those of one pass from the old to the
    new [commitIndex]. *)
Lemma commit_loop_msgs rf iters rf' msgs :
  commit_loop rf iters = Ok (rf', msgs) →
  commitIndex rf ≤ commitIndex rf' ∧
  apply_range (logs rf) (commitIndex rf) (commitIndex rf') = Ok msgs.
Proof.
  assert (Hnil : ∀ rf, apply_range (logs rf) (commitIndex rf) (commitIndex rf) = Ok []).
  { intros r. unfold apply_range. by rewrite range_empty by lia. }
  revert rf msgs. induction iters as [|i iters IH]; intros rf msgs H; cbn in H.
  { injection H as <- <-. auto with lia. }
  mbind_inv H. zcase; [by eapply IH|]. mbind_inv H. zcase; cycle 1.
  { injection H as <- <-. auto with lia. }
  mbind_inv H. destruct a1 as [rf1 m1]. mbind_inv H. destruct a1 as [rf2 m2].
  injection H as <- <-. unfold commit_to in E1. mbind_inv E1.
  injection E1 as <- <-. apply IH in E2 as [Hle Hm2]. cbn in Hle, Hm2.
  split; [lia|]. eapply apply_range_app; [|exact Hle| |exact Hm2]; [lia|].
  destruct (Z.le_gt_cases (i + 1) (commitIndex rf)).
  - rewrite Z.max_l by done. unfold apply_range in *. by rewrite range_empty in E3 |- * by lia.
  - by rewrite Z.max_r by lia.
Qed.

(** ** The majority behind a commit *)

(** Is peer [j] known to the leader to hold the entry at [iter]? *)
Definition holds rf (iter j : Z) : bool :=
  negb (j =? me rf) &&
  match slice_get (matchIndex rf) j with Ok m => iter <? m | _ => false end.

Definition holders rf (iter : Z) : list Z := filter (holds rf iter) (range 0 (peers rf)).

Lemma holders_sum rf iter (js : list Z) ms :
  mapM (λ j, if j =? me rf then mret 0 else
             m ← slice_get (matchIndex rf) j;
             mret (if iter <? m then 1 else 0)) js = Ok ms →
  foldr Z.add 0 ms = len (filter (holds rf iter) js).
Proof.
  revert ms. induction js as [|j js IH]; intros ms H; cbn in H; [by injection H as <-|].
  assert (Hcons : len (filter (holds rf iter) (j :: js)) =
    (if holds rf iter j then 1 else 0) + len (filter (holds rf iter) js)).
  { rewrite filter_cons. destruct (holds rf iter j); case_decide as Hd; try (by destruct Hd);
      unfold len; cbn [length]; lia. }
  rewrite Hcons. clear Hcons. unfold holds at 1.
  destruct (Z.eqb_spec j (me rf)); cbn in *.
  - mbind_inv H. injection H as <-. cbn. by rewrite (IH a).
  - destruct (slice_get (matchIndex rf) j) as [m| |]; cbn in *; try discriminate.
    mbind_inv H. injection H as <-. cbn [foldr]. by rewrite (IH a).
Qed.

Lemma count_replicas_spec rf iter c :
  count_replicas rf iter = Ok c → c = 1 + len (holders rf iter).
Proof.
  unfold count_replicas. intros H. mbind_inv H. injection H as <-.
  by rewrite (holders_sum _ _ _ _ E).
Qed.

(** If the loop moves [commitIndex], the last entry it commits has the current
    term (or a later one) and a majority holds it. *)
Lemma commit_loop_majority rf iters rf' msgs :
  commit_loop rf iters = Ok (rf', msgs) → commitIndex rf < commitIndex rf' →
  ∃ e, slice_get (logs rf) (commitIndex rf' - 1) = Ok e ∧ currentTerm rf ≤ term e ∧
    peers rf < (1 + len (holders rf (commitIndex rf' - 1))) * 2.
Proof.
  revert rf msgs. induction iters as [|i iters IH]; intros rf msgs H Hlt; cbn in H.
  { injection H as <- <-. lia. }
  mbind_inv H. zcase; [by eapply IH|]. mbind_inv H. zcase; cycle 1.
  { injection H as <- <-. lia. }
  mbind_inv H. destruct a1 as [rf1 m1]. mbind_inv H. destruct a1 as [rf2 m2].
  injection H as <- <-. unfold commit_to in E1. mbind_inv E1.
  injection E1 as <- <-.
  pose proof (commit_loop_msgs _ _ _ _ E2) as [Hle _]. cbn in Hle.
  destruct (Z.eq_dec (commitIndex rf2) (Z.max (commitIndex rf) (i + 1))) as [Heq|Hne].
  - apply count_replicas_spec in E0 as ->. rewrite Heq in *.
    replace (Z.max (commitIndex rf) (i + 1) - 1) with i by lia. eauto.
  - apply IH in E2; [done|]. cbn. lia.
Qed.

(** ** Votes *)

Lemma RequestVote_grant now rf (args : RequestVoteArgs) :
  VoteGranted (snd (RequestVote now rf args)) = true →
  currentTerm rf ≤ rv_Term args ∧
  (currentTerm rf = rv_Term args → votedFor rf = -1 ∨ votedFor rf = CandidateId args) ∧
  currentTerm (fst (RequestVote now rf args)) = rv_Term args ∧
  votedFor (fst (RequestVote now rf args)) = CandidateId args.
Proof.
  unfold RequestVote. destruct (Z.ltb_spec (rv_Term args) (currentTerm rf)); [done|].
  unfold adopt_term.
  destruct (Z.ltb_spec (currentTerm rf) (rv_Term args)); cbn;
    destruct (log_ok (logs rf) args); rewrite ?andb_true_r, ?andb_false_r; try done; cbn.
  - intros _. split_and!; try done; lia.
  - destruct (Z.eqb_spec (votedFor rf) (-1)); cbn;
      [|destruct (Z.eqb_spec (votedFor rf) (CandidateId args)); cbn; [|done]];
      intros _; split_and!; auto; lia.
Qed.

(** The peer cannot vote for anyone but [c] in term [T] any more. *)
Definition pledged rf (T c : Z) : Prop :=
  T < currentTerm rf ∨ (currentTerm rf = T ∧ votedFor rf = c).

Lemma RequestVote_pledges now rf (args : RequestVoteArgs) :
  VoteGranted (snd (RequestVote now rf args)) = true →
  pledged (fst (RequestVote now rf args)) (rv_Term args) (CandidateId args).
Proof. intros (_ & _ & ? & ?)%RequestVote_grant. by right. Qed.

Lemma RequestVote_pledged now rf (args : RequestVoteArgs) T c :
  0 ≤ c → pledged rf T c → pledged (fst (RequestVote now rf args)) T c.
Proof.
  intros Hc. unfold pledged, RequestVote.
  destruct (Z.ltb_spec (rv_Term args) (currentTerm rf)); [done|].
  unfold adopt_term.
  destruct (Z.ltb_spec (currentTerm rf) (rv_Term args)); cbn.
  - intros [?|[? _]]; left; destruct (log_ok _ _); cbn; lia.
  - destruct (_ && _) eqn:E; cbn; [|done]. intros [?|[? Hv]]; [by left|right].
    split; [done|]. subst c.
    apply andb_prop in E as [[E%Z.eqb_eq|E%Z.eqb_eq]%orb_prop _]; congruence || lia.
Qed.

(** A peer serving vote requests one after the other. *)
Fixpoint serve_votes rf (reqs : list (Z * RequestVoteArgs)) :
    list (Z * RequestVoteArgs * RequestVoteReply) :=
  match reqs with
  | [] => []
  | (now, a) :: reqs =>
      let '(rf', r) := RequestVote now rf a in (now, a, r) :: serve_votes rf' reqs
  end.

Lemma pledged_serves rf reqs T c now a r :
  0 ≤ c → pledged rf T c → (now, a, r) ∈ serve_votes rf reqs →
  VoteGranted r = true → rv_Term a = T → CandidateId a = c.
Proof.
  intros Hc. revert rf. induction reqs as [|[now' a'] reqs IH]; intros rf Hp Hin Hg HT; cbn in *.
  { by apply elem_of_nil in Hin. }
  pose proof (RequestVote_pledged now' rf a' T c Hc Hp) as Hp'.
  pose proof (RequestVote_grant now' rf a') as Hgr.
  destruct (RequestVote now' rf a') as [rf' r'] eqn:HR. cbn in *.
  apply elem_of_cons in Hin as [[= -> -> ->]|Hin]; [|by eapply IH].
  destruct (Hgr Hg) as (? & Hfree & ? & ?). destruct Hp as [?|[? ?]]; [lia|].
  destruct Hp' as [?|[? ?]]; [lia|congruence].
Qed.

(** ** Theorems *)

(** C10. Durability: after any schedule whatsoever, restarting a peer from a
    copy of its persister brings back its current term, its vote and its log,
    and makes it a follower that has applied nothing yet. *)
Theorem restart_restores s i r1 r2 now :
  Reachable s →
  let rf' := Make (size s) i (Copy (persister (nodes s i))) r1 r2 now in
  currentTerm rf' = currentTerm (nodes s i) ∧ votedFor rf' = votedFor (nodes s i) ∧
  logs rf' = logs (nodes s i) ∧ role rf' = Follower ∧ commitIndex rf' = 0.
Proof.
  intros HR rf'. pose proof (reachable_durable _ _ HR i) as HD.
  unfold durable, saved in HD. subst rf'. rewrite Copy_id, Make_eq. by rewrite HD.
Qed.

(** C11. RequestVote grants exactly when the candidate's term is not old, the
    peer is free to vote for it in that term, and its log is at least as up to
    date; the reply carries the larger of the two terms; the log is untouched. *)
Theorem RequestVote_spec now rf (args : RequestVoteArgs) :
  let '(rf', r) := RequestVote now rf args in
  (VoteGranted r = true ↔
     currentTerm rf ≤ rv_Term args ∧
     (currentTerm rf < rv_Term args ∨ votedFor rf = -1 ∨ votedFor rf = CandidateId args) ∧
     log_ok (logs rf) args = true) ∧
  rvr_Term r = Z.max (currentTerm rf) (rv_Term args) ∧ currentTerm rf' = rvr_Term r ∧
  logs rf' = logs rf ∧
  (VoteGranted r = true → votedFor rf' = CandidateId args ∧ role rf' = Follower).
Proof.
  unfold RequestVote.
  destruct (Z.ltb_spec (rv_Term args) (currentTerm rf)); cbn [fst snd].
  { cbn. split; [split; [done|lia]|]. split_and!; try done; lia. }
  unfold adopt_term. destruct (Z.ltb_spec (currentTerm rf) (rv_Term args)); cbn;
    destruct (log_ok (logs rf) args) eqn:HL; rewrite ?andb_true_r, ?andb_false_r; cbn.
  - split; [split; [intros _|done]; auto|]. split_and!; try done; lia.
  - split; [split; [done|naive_solver]|]. split_and!; try done; lia.
  - destruct (Z.eqb_spec (votedFor rf) (-1)); cbn;
      [|destruct (Z.eqb_spec (votedFor rf) (CandidateId args)); cbn].
    + split; [split; [intros _|done]; auto|]. split_and!; try done; lia.
    + split; [split; [intros _|done]; auto|]. split_and!; try done; lia.
    + split; [split; [done|]|split_and!; try done; lia].
      intros (_ & [?|[?|?]] & _); lia || done.
  - split; [split; [done|naive_solver]|]. split_and!; try done; lia.
Qed.

(** One vote per term: whatever sequence of vote requests a peer serves,
    two votes it grants for the same term go to the same candidate. *)
Theorem vote_once rf reqs now1 now2 (a1 a2 : RequestVoteArgs) r1 r2 :
  (∀ now a, (now, a) ∈ reqs → 0 ≤ CandidateId a) →
  (now1, a1, r1) ∈ serve_votes rf reqs → (now2, a2, r2) ∈ serve_votes rf reqs →
  VoteGranted r1 = true → VoteGranted r2 = true → rv_Term a1 = rv_Term a2 →
  CandidateId a1 = CandidateId a2.
Proof.
  revert rf. induction reqs as [|[now a] reqs IH]; intros rf Hc H1 H2 G1 G2 HT; cbn in *.
  { by apply elem_of_nil in H1. }
  destruct (RequestVote now rf a) as [rf' r] eqn:HR.
  assert (Hc' : ∀ now a, (now, a) ∈ reqs → 0 ≤ CandidateId a) 
    by (intros ???; eapply Hc; by right).
  assert (Ha : 0 ≤ CandidateId a) by (eapply Hc; by left).
  pose proof (RequestVote_pledges now rf a) as Hp. rewrite HR in Hp. cbn in Hp.
  apply elem_of_cons in H1 as [[= -> -> ->]|H1]; apply elem_of_cons in H2 as [[= -> -> ->]|H2].
  - done.
  - symmetry. by eapply (pledged_serves rf' reqs (rv_Term a)); eauto.
  - by eapply (pledged_serves rf' reqs (rv_Term a)); eauto.
  - by eapply IH.
Qed.

(** C13. AppendEntries: a reply of success means the follower had the entry
    the message builds on; its log is then that prefix followed by the
    message's entries, whatever came after is dropped, and it considers
    committed what the leader does.  On failure the log is untouched, and a
    failure that is not for an old term reports the length of the log. *)
Theorem AppendEntries_spec now rf args rf' r msgs :
  AppendEntries now rf args = Ok (rf', r, msgs) →
  aer_Term r = currentTerm rf' ∧
  if Success r then
    currentTerm rf ≤ ae_Term args ∧ currentTerm rf' = ae_Term args ∧
    role rf' = Follower ∧ 0 ≤ PrevLogIndex args ≤ len (logs rf) ∧
    (0 < PrevLogIndex args → ∃ e,
       slice_get (logs rf) (PrevLogIndex args - 1) = Ok e ∧ term e = PrevLogTerm args) ∧
    logs rf' = take (Z.to_nat (PrevLogIndex args)) (logs rf) ++ Entries args ∧
    commitIndex rf' = LeaderCommit args
  else
    logs rf' = logs rf ∧ commitIndex rf' = commitIndex rf ∧ msgs = [] ∧
    (currentTerm rf ≤ ae_Term args →
       Len r = len (logs rf) ∧ role rf' = Follower ∧ 0 < PrevLogIndex args ∧
       ¬ ∃ e, slice_get (logs rf) (PrevLogIndex args - 1) = Ok e ∧
              term e = PrevLogTerm args).
Proof.
  intros (rf0 & n & Hc & Hr & H)%AppendEntries_inv.
  destruct (check_append_inv _ _ _ _ _ _ Hc) as
    [(Hlt & -> & Hs & ->)|[(Hle & Hs & -> & -> & Hpos & Hno)|(Hle & Hs & -> & -> & Hm)]];
    rewrite Hs in *.
  - destruct H as [-> ->]. rewrite Hr. cbn. split; [done|].
    split_and!; try done. lia.
  - destruct H as [-> ->]. rewrite Hr. cbn. split_and!; try done.
  - destruct H as (rf1 & Ha & ->).
    apply accept_entries_inv in Ha as (Hb & _ & ->). rewrite Hr. cbn in *.
    split_and!; try done; lia.
Qed.

(** Messages on applyCh come in order: AppendEntries sends the commands
    of the entries from the old commit index up to the leader's, each exactly
    once, numbered consecutively from [commitIndex + 1]. *)
Theorem AppendEntries_applies_in_order now rf args rf' r msgs :
  AppendEntries now rf args = Ok (rf', r, msgs) → Success r = true →
  Forall2 (λ i m, ∃ e, slice_get (logs rf') i = Ok e ∧
                       m = mkApplyMsg (i + 1) (command e) false)
    (range (commitIndex rf) (commitIndex rf')) msgs.
Proof.
  intros (rf0 & n & Hc & Hr & H)%AppendEntries_inv Hs. rewrite Hs in *.
  destruct (check_append_inv _ _ _ _ _ _ Hc) as
    [(_ & _ & ? & _)|[(_ & ? & _)|(_ & _ & _ & -> & _)]]; try done.
  destruct H as (rf1 & Ha & ->).
  apply accept_entries_inv in Ha as (_ & Ha & ->). by apply apply_range_spec in Ha.
Qed.

(** Commitment by counting: when the reply to an AppendEntries makes the
    leader commit something, a majority of the peers is known to hold the last
    entry committed, that entry is not from an earlier term, and the messages
    sent on applyCh are the newly committed commands in order. *)
Theorem commit_needs_majority rf peer args ok rf' msgs :
  append_done rf peer args ok = Ok (rf', msgs) → commitIndex rf < commitIndex rf' →
  role rf = Leader ∧ ae_Term args = currentTerm rf ∧
  (∃ e, slice_get (logs rf) (commitIndex rf' - 1) = Ok e ∧ currentTerm rf ≤ term e) ∧
  peers rf < (1 + len (holders rf' (commitIndex rf' - 1))) * 2 ∧
  Forall2 (λ i m, ∃ e, slice_get (logs rf) i = Ok e ∧
                       m = mkApplyMsg (i + 1) (command e) false)
    (range (commitIndex rf) (commitIndex rf')) msgs.
Proof.
  unfold append_done. intros H Hlt.
  destruct (ok && _ && _) eqn:E; [|injection H as <- <-; lia].
  apply andb_prop in E as [[_ HT%Z.eqb_eq]%andb_prop Hr%bool_decide_eq_true].
  mbind_inv H. cbn in H. pose proof (commit_loop_inv _ _ _ _ H) as [c Hc].
  destruct (commit_loop_majority _ _ _ _ H) as (e & He & Hte & Hmaj); [done|].
  apply commit_loop_msgs in H as [_ Hm]. subst rf'. cbn in *.
  split; [done|]. split; [done|]. split; [by eauto|]. split; [exact Hmaj|].
  by apply apply_range_spec in Hm.
Qed.
End props.
End RaftProps.
