(* ===== verification/RaftIndices.v ===== *)
(** * RaftIndices: the slices [nextIndex] and [matchIndex], and what can panic

    [sendAppendEntries] writes to [nextIndex] without the lock
    (src/src/raft/raft.go:316-321), in three assignments that other goroutines can
    see one by one.  The invariant of this file says what is nevertheless true of
    the two slices of every peer in synchronised executions, at every point of the
    critical sections that use them; with it, the only two races in which an index
    is out of range are identified.  RaftRaces.v shows that both happen. *)
From S2P Require Import Prelude Persister Raft RaftCluster RaftInv RaftInvLog.
From S2P Require Import RaftInvStep RaftSafety RaftProps.

Module Indices.
Import InvStep Safety RaftProps.

Section indices.
Context {Cmd : Type}.
#[local] Notation Raft := (Raft.Raft Cmd).
#[local] Notation Cluster := (Cluster.Cluster Cmd).
#[local] Notation Event := (Cluster.Event Cmd).
#[local] Notation Thread := (Cluster.Thread Cmd).
Implicit Types (rf : Raft) (s : Cluster) (th : Thread) (ths : list Thread).

(** ** The races *)

(** The goroutine has made the first of the three assignments to slot [p] of
    [nextIndex], and not yet the last. *)
Definition mid_rewind (o p : Z) (ep : nat) th : bool :=
  match th with
  | AEThread o' p' ep' (AERewind _ _ (RewindLen | RewindOne)) =>
      (o' =? o) && (p' =? p) && (ep' =? ep)%nat
  | _ => false
  end.

Definition rewinding (o p : Z) (ep : nat) ths : bool := existsb (mid_rewind o p ep) ths.

(** An assignment to a slot while a new term's leader has emptied the slice and
    not yet filled it; and a message built from a slot that is being rewound. *)
Definition races s (e : Event) : bool :=
  match e with
  | ERewind tid =>
      match threads s !! tid with
      | Some (AEThread o _ _ (AERewind _ _ _)) => match crits s o with Filling => true | _ => false end
      | _ => false
      end
  | EPrepare tid =>
      match threads s !! tid with
      | Some (AEThread o p ep AESpawned) => rewinding o p ep (threads s)
      | _ => false
      end
  | _ => false
  end.

(** ** The invariant *)

(** The instance a heartbeat or AppendEntries goroutine belongs to. *)
Definition sender th : option (Z * nat) :=
  match th with
  | AEThread o _ ep _ | SubmitThread o ep _ => Some (o, ep)
  | RVThread _ _ _ _ _ _ => None
  end.

Definition sends (i : Z) (ep : nat) ths : Prop := ∃ th, th ∈ ths ∧ sender th = Some (i, ep).

(** Peer [i] in state [rf], at point [c] of a critical section, in its [ep]th life. *)
Record ix_peer (n i : Z) rf (c : Critical) (ep : nat) ths : Prop := mkIxPeer {
  ix_next : c ≠ Filling → sends i ep ths ∨ role rf = Leader ∧ c ≠ Truncating →
    len (nextIndex rf) = n;
  ix_match : c ≠ Truncating → c ≠ Filling → sends i ep ths ∨ role rf = Leader →
    len (matchIndex rf) = n;
  ix_office : c = Truncating ∨ c = Filling → len (matchIndex rf) = 0;
  ix_filling : c = Filling → nextIndex rf = [];
  ix_slots p x : role rf = Leader → c ≠ Truncating → c ≠ Filling →
    slice_get (nextIndex rf) p = Ok x →
    1 ≤ x ≤ len (logs rf) + 1 ∨ rewinding i p ep ths = true;
  ix_sending tid : c = Sending tid → ∃ p args,
    ths !! tid = Some (AEThread i p ep (AEPreparing args)) ∧
    role rf = Leader ∧ PrevLogIndex args + len (Entries args) = len (logs rf);
}.

(** No goroutine comes from a life its peer has not begun. *)
Definition epoch_ok (eps : Z → nat) th : Prop :=
  ∀ i ep, sender th = Some (i, ep) → (ep ≤ eps i)%nat.

Record IX s : Prop := mkIX {
  ix_peers i : 0 ≤ i < size s →
    ix_peer (size s) i (nodes s i) (crits s i) (epochs s i) (threads s);
  ix_epochs : Forall (epoch_ok (epochs s)) (threads s);
}.

(** ** Steps that leave the slices and the critical sections alone *)

(** What the node of a peer may do meanwhile, at point [c]. *)
Record tame (c : Critical) rf rf' : Prop := mkTame {
  tm_next : nextIndex rf' = nextIndex rf;
  tm_match : len (matchIndex rf') = len (matchIndex rf);
  tm_role : role rf' = Leader → role rf = Leader ∧ len (logs rf) ≤ len (logs rf');
  tm_crit : c ≠ Free → role rf' = role rf ∧ logs rf' = logs rf;
}.

Lemma tame_fields c rf rf' :
  nextIndex rf' = nextIndex rf → matchIndex rf' = matchIndex rf → role rf' = role rf →
  logs rf' = logs rf → tame c rf rf'.
Proof. intros ? Hm ? Hl. constructor; rewrite ?Hm, ?Hl; auto. by intros <-. Qed.

(** A peer that is no leader any more, or stands for election. *)
Lemma tame_deposed rf rf' :
  nextIndex rf' = nextIndex rf → matchIndex rf' = matchIndex rf → role rf' ≠ Leader →
  tame Free rf rf'.
Proof. intros ? Hm ?. constructor; rewrite ?Hm; done. Qed.

Lemma ix_tame n i c ep ths rf rf' :
  tame c rf rf' → ix_peer n i rf c ep ths → ix_peer n i rf' c ep ths.
Proof.
  intros [Tn Tm Tr Tc] [In Im Io If Isl Ise]. constructor; rewrite ?Tn, ?Tm; auto.
  - intros Hc [?|[Hr ?]]; apply In; auto. right. split; [by apply Tr|done].
  - intros ? ? [?|Hr]; apply Im; auto. right. by apply Tr.
  - intros p x Hr ? ? Hx. destruct (Tr Hr) as [Hr0 Hl].
    destruct (Isl p x Hr0) as [?|?]; auto. left. lia.
  - intros tid Hc. destruct (Tc ltac:(by rewrite Hc)) as [-> ->]. auto.
Qed.

Lemma ix_threads n i rf c ep ths ths' :
  (sends i ep ths' → sends i ep ths) →
  (∀ p, rewinding i p ep ths = true → rewinding i p ep ths' = true) →
  (∀ tid th, c = Sending tid → ths !! tid = Some th → ths' !! tid = Some th) →
  ix_peer n i rf c ep ths → ix_peer n i rf c ep ths'.
Proof.
  intros Hs Hr Hse [In Im Io If Isl Ise]. constructor; auto.
  - intros ? [?|?]; auto.
  - intros ? ? [?|?]; auto.
  - intros p x ? ? ? Hx. destruct (Isl p x) as [?|?]; auto.
  - intros tid Hc. destruct (Ise tid Hc) as (p & args & ? & ?). exists p, args. auto.
Qed.

(** The phases the invariant depends on. *)
Definition busy th : bool :=
  match th with
  | AEThread _ _ _ (AEPreparing _ | AERewind _ _ (RewindLen | RewindOne)) => true
  | _ => false
  end.

Lemma rewinding_spec o p ep ths :
  rewinding o p ep ths = true ↔
  ∃ tid th, ths !! tid = Some th ∧ mid_rewind o p ep th = true.
Proof.
  unfold rewinding. rewrite existsb_exists. split.
  - intros (th & [tid Hin]%list_elem_of_In%list_elem_of_lookup & ?). eauto.
  - intros (tid & th & Hin & ?). exists th. split; [|done].
    apply list_elem_of_In. by eapply list_elem_of_lookup_2.
Qed.

Lemma mid_rewind_busy o p ep th : mid_rewind o p ep th = true → busy th = true.
Proof. by destruct th as [|? ? ? [| | | | | |? ? []| |]|]. Qed.

Lemma rewinding_put o p ep ths tid th th' :
  ths !! tid = Some th → mid_rewind o p ep th = false →
  rewinding o p ep ths = true → rewinding o p ep (<[tid:=th']> ths) = true.
Proof.
  intros Ht Hm (k & thk & Hk & Hmk)%rewinding_spec. apply rewinding_spec. exists k, thk.
  split; [|done]. rewrite list_lookup_insert_ne; [done|]. intros <-. congruence.
Qed.

Lemma sends_put i ep ths tid th th' :
  ths !! tid = Some th → sender th' = sender th →
  sends i ep (<[tid:=th']> ths) → sends i ep ths.
Proof.
  intros Ht Hs (x & [k Hk]%list_elem_of_lookup & Hx).
  apply list_lookup_insert_Some in Hk as [(-> & -> & _)|[_ Hk]];
    [exists th|exists x]; (split; [by eapply list_elem_of_lookup_2|congruence]).
Qed.

(** Goroutine [tid] goes on, and neither was nor is in one of those phases. *)
Lemma ix_put_thread n i rf c ep ths tid th th' :
  ths !! tid = Some th → sender th' = sender th → busy th = false →
  ix_peer n i rf c ep ths → ix_peer n i rf c ep (<[tid:=th']> ths).
Proof.
  intros Ht Hs Hb HI. eapply ix_threads; [by eapply sends_put| | |exact HI].
  - intros p. eapply rewinding_put; [done|].
    destruct (mid_rewind i p ep th) eqn:E; [|done]. apply mid_rewind_busy in E. congruence.
  - intros k x Hc Hk. destruct (ix_sending _ _ _ _ _ _ HI k Hc) as (p & args & Hp & _).
    rewrite list_lookup_insert_ne; [done|]. intros ->. rewrite Hp in Ht. by simplify_eq.
Qed.

Lemma epochs_put s tid th th' :
  threads s !! tid = Some th → sender th' = sender th →
  Forall (epoch_ok (epochs s)) (threads s) → Forall (epoch_ok (epochs s)) (<[tid:=th']> (threads s)).
Proof.
  intros Ht Hs HF. apply Forall_insert; [done|]. intros i ep. rewrite Hs.
  exact (Forall_lookup_1 _ _ _ _ HF Ht i ep).
Qed.

Lemma IX_put_thread s tid th th' :
  IX s → threads s !! tid = Some th → sender th' = sender th → busy th = false →
  IX (put_thread s tid th').
Proof.
  intros [HP HE] Ht Hs Hb. constructor; [|exact (epochs_put s tid th th' Ht Hs HE)].
  intros i Hi. eapply ix_put_thread; [done..|]. by apply HP.
Qed.

Lemma IX_put_node s i rf : IX s → tame (crits s i) (nodes s i) rf → IX (put_node s i rf).
Proof.
  intros [HP HE] HT. constructor; [|done]. intros j Hj. specialize (HP j Hj). cbn.
  destruct (decide (i = j)) as [<-|]; [rewrite fn_lookup_insert|by rewrite fn_lookup_insert_ne].
  by eapply ix_tame.
Qed.

Lemma IX_node_thread s i rf tid th th' :
  IX s → tame (crits s i) (nodes s i) rf → threads s !! tid = Some th →
  sender th' = sender th → busy th = false → IX (put_thread (put_node s i rf) tid th').
Proof. intros HI HT Ht Hs Hb. eapply IX_put_thread; [by apply IX_put_node|exact Ht|done..]. Qed.

(** Other goroutines appear. *)
Lemma IX_spawn s ths :
  IX s → (∀ th i ep, th ∈ ths → sender th = Some (i, ep) → sends i ep (threads s)) →
  IX (spawn s ths).
Proof.
  intros [HP HE] Hths. constructor; cbn.
  - intros i Hi. eapply ix_threads; [| | |by apply HP].
    + intros (th & [Hin|Hin]%elem_of_app & Hs); [by exists th|by eapply Hths].
    + intros p. unfold rewinding. rewrite existsb_app. by intros ->.
    + intros tid th _ Ht. by apply lookup_app_l_Some.
  - apply Forall_app. split; [done|]. apply Forall_forall. intros th Hin i ep Hs.
    destruct (Hths th i ep Hin Hs) as (th0 & Hin0 & Hs0).
    eapply Forall_forall in HE; [|exact Hin0]. by apply HE.
Qed.

(** Nothing the invariant reads changes. *)
Lemma IX_view s s' :
  size s' = size s → nodes s' = nodes s → crits s' = crits s → epochs s' = epochs s →
  threads s' = threads s → IX s → IX s'.
Proof.
  destruct s, s'. cbn. intros -> -> -> -> -> [HP HE]. constructor; [exact HP|].
  eapply Forall_impl; [exact HE|]. done.
Qed.

(** ** The events *)

Lemma adopt_tame rf t : tame Free rf (adopt_term rf t).
Proof. unfold adopt_term. case_match; first [by apply tame_deposed|by apply tame_fields]. Qed.

Lemma tame_trans rf1 rf2 rf3 : tame Free rf1 rf2 → tame Free rf2 rf3 → tame Free rf1 rf3.
Proof.
  intros [N1 M1 R1 _] [N2 M2 R2 _]. constructor; [congruence..| |done].
  intros Hr. destruct (R2 Hr) as [Hr2 ?]. destruct (R1 Hr2). split; [done|lia].
Qed.

Lemma RequestVote_tame now rf args :
  tame Free rf (fst (RequestVote now rf args)).
Proof.
  unfold RequestVote. destruct (rv_Term args <? currentTerm rf); [by apply tame_fields|].
  pose proof (adopt_tame rf (rv_Term args)) as HA. cbn zeta.
  set (rf1 := adopt_term rf (rv_Term args)) in *. clearbody rf1.
  match goal with |- context [if ?b then _ else _] => destruct b end; cbn;
    (eapply tame_trans; [exact HA|]); first [by apply tame_deposed|by apply tame_fields].
Qed.

Lemma AppendEntries_tame now rf (args : AppendEntriesArgs Cmd) rf' r msgs :
  AppendEntries now rf args = Ok (rf', r, msgs) → tame Free rf rf'.
Proof.
  intros (rf1 & k & Hc & _ & HA)%AppendEntries_inv.
  destruct (check_append_inv _ _ _ _ _ _ Hc) as
    [(_ & -> & Hs & _)|[(_ & Hs & _ & -> & _)|(_ & Hs & _ & -> & _)]]; rewrite Hs in HA.
  - destruct HA as [_ ->]. by apply tame_fields.
  - destruct HA as [_ ->]. by apply tame_deposed.
  - destruct HA as (rf2 & Ha & ->). apply accept_entries_inv in Ha as (_ & _ & ->).
    by apply tame_deposed.
Qed.

Lemma Start_tame rf cmd : tame Free rf (fst (Start rf cmd)).
Proof.
  unfold Start. case_decide; cbn; [|by apply tame_fields].
  constructor; cbn; try done. intros ?. rewrite len_app. unfold len. cbn. split; [done|lia].
Qed.

Lemma append_done_tame c rf p (args : AppendEntriesArgs Cmd) ok rf' msgs :
  append_done rf p args ok = Ok (rf', msgs) → tame c rf rf'.
Proof.
  unfold append_done. destruct (ok && _ && _); [|intros [= <- <-]; by apply tame_fields].
  intros HA. mbind_inv HA. apply slice_set_inv in E as [_ ->]. cbn in HA.
  apply commit_loop_inv in HA as [ci ->].
  constructor; cbn; try done. by rewrite len_insert.
Qed.

Lemma free_of s i : unlocked s i = true → crits s i = Free.
Proof. unfold unlocked. by destruct (crits s i). Qed.

Lemma may_lock_spec s o ep : may_lock s o ep = true → ep = epochs s o ∧ crits s o = Free.
Proof. intros [He%Nat.eqb_eq Hf%free_of]%andb_prop. done. Qed.

Lemma alive_spec s o ep : alive s o ep = true → ep = epochs s o.
Proof. by intros ?%Nat.eqb_eq. Qed.

Lemma IX_do_vote s i s' : IX s → exec_do_vote s i = Some (Ok s') → IX s'.
Proof.
  intros HI. unfold exec_do_vote. destruct (loops s i); try done. intros [= <-].
  apply (IX_view (spawn s (vote_threads s i))); [done..|].
  apply IX_spawn; [done|]. intros th j ep. unfold vote_threads.
  intros ([p args] & -> & _)%list_elem_of_fmap. done.
Qed.

Lemma IX_deliver s tid now s' : IX s → exec_deliver s tid now = Some (Ok s') → IX s'.
Proof.
  intros HI. unfold exec_deliver.
  destruct (threads s !! tid) as [[o p ep k args []|o p ep []|?]|] eqn:Hth; try done;
    (destruct (unlocked s p) eqn:Hu; [apply free_of in Hu|done]).
  - pose proof (RequestVote_tame now (nodes s p) args) as HT.
    destruct (RequestVote _ _ _) as [rf r]. intros [= <-].
    eapply IX_node_thread; [done|by rewrite Hu|exact Hth|done..].
  - destruct (AppendEntries _ _ _) as [[[rf r] m]| |] eqn:HA; cbn; try done. intros [= <-].
    apply AppendEntries_tame in HA.
    eapply IX_view; [..|eapply IX_node_thread; [done|by rewrite Hu|exact Hth|..]]; done.
Qed.

Lemma IX_lose s tid s' : IX s → exec_lose s tid = Some (Ok s') → IX s'.
Proof.
  intros HI. unfold exec_lose.
  destruct (threads s !! tid) as [[o p ep k args []|o p ep []|?]|] eqn:Hth; try done;
    intros [= <-]; (eapply IX_put_thread; [done|exact Hth|done..]).
Qed.

Lemma IX_check s tid s' : IX s → exec_check s tid = Some (Ok s') → IX s'.
Proof.
  intros HI. unfold exec_check.
  destruct (threads s !! tid) as [[o p ep k args []|o p ep []|?]|] eqn:Hth; try done;
    (destruct (alive s o ep); [|done]); intros [= <-]; (eapply IX_put_thread; [done|exact Hth|done..]).
Qed.

Lemma IX_step_down s tid s' : IX s → exec_step_down s tid = Some (Ok s') → IX s'.
Proof.
  intros HI. unfold exec_step_down.
  destruct (threads s !! tid) as [[o p ep k args []|o p ep []|?]|] eqn:Hth; try done;
    (destruct (may_lock s o ep) eqn:Hm; [apply may_lock_spec in Hm as [_ Hf]|done]);
    intros [= <-]; (eapply IX_node_thread; [done| |exact Hth|done..]);
    rewrite Hf; by apply tame_deposed.
Qed.

Lemma IX_submit s tid s' : IX s → exec_submit s tid = Some (Ok s') → IX s'.
Proof.
  intros HI. unfold exec_submit.
  destruct (threads s !! tid) as [[?|?|o ep []]|] eqn:Hth; try done;
    (destruct (alive s o ep); [|done]); intros [= <-];
    (eapply IX_node_thread; [done| |exact Hth|done..]); by apply tame_fields.
Qed.

Lemma IX_tick s tid s' : IX s → exec_tick s tid = Some (Ok s') → IX s'.
Proof.
  intros HI. unfold exec_tick.
  destruct (threads s !! tid) as [[?|?|o ep []]|] eqn:Hth; try done.
  destruct (alive s o ep); [|done]. intros [= <-]. case_match.
  - apply IX_spawn; [done|]. intros th i ep' (p & -> & _)%list_elem_of_fmap [= <- <-].
    exists (SubmitThread o ep SubmitLoop). split; [by eapply list_elem_of_lookup_2|done].
  - eapply IX_node_thread; [done| |exact Hth|done..]. by apply tame_fields.
Qed.

Lemma IX_append_done s tid s' : IX s → exec_append_done s tid = Some (Ok s') → IX s'.
Proof.
  intros HI. unfold exec_append_done.
  destruct (threads s !! tid) as [[?|o p ep []|?]|] eqn:Hth; try done.
  destruct (may_lock s o ep); [|done].
  destruct (append_done _ _ _ _) as [[rf m]| |] eqn:HA; cbn; try done. intros [= <-].
  eapply IX_view; [..|eapply IX_node_thread; [done|by eapply append_done_tame|exact Hth|..]]; done.
Qed.

Lemma IX_restart s i r1 r2 now s' :
  IX s → exec_restart s i r1 r2 now = Some (Ok s') → IX s'.
Proof.
  intros [HP HE]. unfold exec_restart. intros [= <-]. constructor; cbn.
  - intros j Hj. specialize (HP j Hj). destruct (decide (i = j)) as [<-|];
      [|by rewrite !fn_lookup_insert_ne by done].
    rewrite !fn_lookup_insert, Make_eq.
    assert (Hno : ¬ sends i (S (epochs s i)) (threads s)).
    { intros (th & Hin & Hs). eapply Forall_forall in HE; [|exact Hin]. specialize (HE _ _ Hs). lia. }
    constructor; cbn; try done; [by intros _ [?|[??]]|by intros _ _ [?|?]].
  - eapply Forall_impl; [exact HE|]. intros th Hth j ep Hs. specialize (Hth j ep Hs). cbn.
    destruct (decide (i = j)) as [<-|]; [rewrite fn_lookup_insert; lia|by rewrite fn_lookup_insert_ne].
Qed.

(** ** The events of the two critical sections, and the assignments *)

(** The slots after a write. *)
Lemma slots_set rf p x rf' :
  set_next rf p x = Ok rf' → ∀ q y, slice_get (nextIndex rf') q = Ok y →
  q = p ∧ y = x ∨ q ≠ p ∧ slice_get (nextIndex rf) q = Ok y.
Proof.
  unfold set_next. intros HS q y Hq. mbind_inv HS. injection HS as <-. cbn in Hq.
  rewrite (slice_get_set _ _ _ _ q E) in Hq. case_decide; [left|by right].
  by injection Hq as ->.
Qed.

Lemma rewinding_now o p ep ths tid th :
  ths !! tid = Some th → mid_rewind o p ep th = true → rewinding o p ep ths = true.
Proof. intros. apply rewinding_spec. eauto. Qed.

Lemma mid_rewind_self o p ep (args : AppendEntriesArgs Cmd) r w :
  w ≠ RewindPrev → mid_rewind o p ep (AEThread o p ep (AERewind args r w)) = true.
Proof. destruct w; cbn; [done|..]; by rewrite !Z.eqb_refl, Nat.eqb_refl. Qed.

(** The peer of a goroutine that is mid-rewind. *)
Lemma mid_rewind_key i q epi o p ep (ph : AEPhase Cmd) :
  mid_rewind i q epi (AEThread o p ep ph) = true → i = o ∧ q = p ∧ epi = ep.
Proof.
  destruct ph as [| | | | | |? ? []| |]; cbn; try done;
    by intros [[->%Z.eqb_eq ->%Z.eqb_eq]%andb_prop ->%Nat.eqb_eq]%andb_prop.
Qed.

(** One assignment of a rewind, at its peer: the goroutine goes from [ph] to [ph']. *)
Lemma ix_write n o rf c ep ths tid p ph ph' rf' x :
  ix_peer n o rf c ep ths → ths !! tid = Some (AEThread o p ep ph) →
  set_next rf p x = Ok rf' → (∀ args, ph ≠ AEPreparing args) ∨ c = Free →
  (mid_rewind o p ep (AEThread o p ep ph') = true ∨ 1 ≤ x ≤ len (logs rf) + 1) →
  ix_peer n o rf' c ep (<[tid:=AEThread o p ep ph']> ths).
Proof.
  intros [In Im Io If Isl Ise] Ht HS Hprep Hx.
  assert (Hsend : sends o ep (<[tid:=AEThread o p ep ph']> ths) → sends o ep ths)
    by by eapply sends_put.
  pose proof (set_next_inv _ _ _ _ HS) as [Hp Heq].
  assert (Hl : len (nextIndex rf') = len (nextIndex rf)) by (rewrite Heq; cbn; apply len_insert).
  assert (Hf : role rf' = role rf ∧ logs rf' = logs rf ∧ matchIndex rf' = matchIndex rf)
    by by rewrite Heq.
  destruct Hf as (Hr & Hlo & Hm). constructor; rewrite ?Hl, ?Hr, ?Hlo, ?Hm.
  - intros Hc [?|?]; apply In; auto.
  - intros ? ? [?|?]; apply Im; auto.
  - done.
  - intros Hc. rewrite (If Hc) in Hp. unfold len in Hp. cbn in Hp. lia.
  - intros q y Hro ? ? Hq. destruct (slots_set _ _ _ _ HS q y Hq) as [[-> ->]|[Hne Hq']].
    + destruct Hx as [Hx|?]; [right|by left]. eapply rewinding_now; [|exact Hx].
      apply list_lookup_insert_eq. by eapply lookup_lt_Some.
    + destruct (Isl q y Hro) as [?|Hrw]; auto. right. eapply rewinding_put; [done| |done].
      destruct (mid_rewind o q ep (AEThread o p ep ph)) eqn:E; [|done].
      apply mid_rewind_key in E as (_ & -> & _). done.
  - intros k Hc. destruct (Ise k Hc) as (p' & args & Hk & ?). exists p', args.
    split; [|done]. rewrite list_lookup_insert_ne; [done|]. intros ->.
    rewrite Ht in Hk. injection Hk as -> Hph. destruct Hprep as [Hno|Hc']; [by destruct (Hno args)|congruence].
Qed.

(** The other peers do not see it. *)
Lemma ix_foreign n i rf c epi ths tid th th' :
  ix_peer n i rf c epi ths → ths !! tid = Some th → sender th' = sender th →
  (∀ ep, sender th ≠ Some (i, ep)) → ix_peer n i rf c epi (<[tid:=th']> ths).
Proof.
  intros HI Ht Hs Hne. eapply ix_threads; [by eapply sends_put| | |exact HI].
  - intros p. eapply rewinding_put; [done|].
    destruct (mid_rewind i p epi th) eqn:E; [|done].
    destruct th as [|o q ep ph|]; try done. apply mid_rewind_key in E as (-> & _).
    by destruct (Hne ep).
  - intros k x Hc Hk. destruct (ix_sending _ _ _ _ _ _ HI k Hc) as (p & args & Hp & _).
    rewrite list_lookup_insert_ne; [done|]. intros ->. rewrite Hp in Ht. injection Ht as <-.
    by destruct (Hne epi).
Qed.

(** A step of goroutine [tid] of peer [o] at its node and in its section. *)
Lemma IX_section s o rf tid ep th th' c' :
  IX s → threads s !! tid = Some th → sender th = Some (o, ep) → sender th' = sender th →
  (0 ≤ o < size s → ix_peer (size s) o rf c' (epochs s o) (<[tid:=th']> (threads s))) →
  IX (put_crit (put_thread (put_node s o rf) tid th') o c').
Proof.
  intros [HP HE] Ht Hs Hs' Ho. constructor; [|exact (epochs_put s tid th th' Ht Hs' HE)].
  intros i Hi. cbn. destruct (decide (o = i)) as [<-|Hne]; [by rewrite !fn_lookup_insert; apply Ho|].
  rewrite !fn_lookup_insert_ne by done. eapply ix_foreign; [by apply HP|done..|].
  rewrite Hs. intros e [= ->]. done.
Qed.

(** Forget that the section was put back where it was. *)
Lemma IX_uncrit s i : IX (put_crit s i (crits s i)) → IX s.
Proof.
  intros [HP HE]. constructor; [|done]. intros j Hj. specialize (HP j Hj). cbn in HP.
  destruct (decide (i = j)) as [<-|]; [by rewrite fn_lookup_insert in HP|].
  by rewrite fn_lookup_insert_ne in HP.
Qed.

Lemma IX_rewind s tid s' : IX s → exec_rewind s tid = Some (Ok s') → IX s'.
Proof.
  intros HI. unfold exec_rewind.
  destruct (threads s !! tid) as [[?|o p ep [|args|args|args r|args r|args r|args r w|args ok|]|?]|] eqn:Hth;
    try done; (destruct (alive s o ep) eqn:Ha; [apply alive_spec in Ha as ->|done]).
  { intros [= <-]. by eapply IX_put_thread. }
  destruct (rewind _ _ _ _ _) as [rf| |] eqn:Hrw; cbn; try done. intros [= <-].
  set (th' := AEThread o p (epochs s o) _).
  apply (IX_uncrit _ o). change (crits _ o) with (crits s o).
  eapply IX_section; [exact HI|exact Hth|done|done|]. intros Ho.
  pose proof (ix_peers _ HI o Ho) as HP.
  assert (Hkeep : w ≠ RewindOne → mid_rewind o p (epochs s o) th' = true).
  { intros Hw. unfold th'. destruct w; [by apply mid_rewind_self..|done]. }
  destruct w; cbn in Hrw.
  - eapply ix_write; [exact HP|exact Hth|exact Hrw|by left|]. left. by apply Hkeep.
  - destruct (_ <? _).
    + eapply ix_write; [exact HP|exact Hth|exact Hrw|by left|]. left. by apply Hkeep.
    + injection Hrw as <-. eapply ix_threads; [by eapply sends_put| | |exact HP].
      * intros q Hq. destruct (decide (q = p)) as [->|Hne].
        -- eapply rewinding_now; [|by apply Hkeep].
           apply list_lookup_insert_eq. by eapply lookup_lt_Some.
        -- eapply rewinding_put; [done| |done].
           destruct (mid_rewind o q _ _) eqn:E; [|done]. by apply mid_rewind_key in E as (_ & -> & _).
      * intros k x Hc Hk. destruct (ix_sending _ _ _ _ _ _ HP k Hc) as (p' & args' & Hp & _).
        rewrite list_lookup_insert_ne; [done|]. intros ->. rewrite Hp in Hth. by simplify_eq.
  - eapply ix_write; [exact HP|exact Hth|exact Hrw|by left|]. right.
    pose proof (len_nonneg (logs (nodes s o))). lia.
Qed.

Lemma IX_prepare s tid s' :
  IX s → lock_check_holds s (EPrepare tid) = true → exec_prepare s tid = Some (Ok s') → IX s'.
Proof.
  intros HI Hlc. unfold exec_prepare. cbn in Hlc.
  destruct (threads s !! tid) as [[?|o p ep [|args|args|args r|args r|args r|args r w|args ok|]|?]|] eqn:Hth; try done.
  destruct (may_lock s o ep) eqn:Ha; [apply may_lock_spec in Ha as [-> Hf]|done].
  apply bool_decide_eq_true in Hlc.
  destruct (prepare_append (nodes s o) p) as [args| |] eqn:Hpa; cbn; try done. intros [= <-].
  apply prepare_append_inv in Hpa as (_ & Hle & Hen & _).
  set (th' := AEThread o p (epochs s o) (AEPreparing args)).
  assert (H1 : IX (put_thread s tid th')) by by eapply IX_put_thread.
  destruct H1 as [HP HE]. constructor; [|exact HE]. intros i Hi. specialize (HP i Hi). cbn in *.
  destruct (decide (o = i)) as [<-|Hne]; [|by rewrite fn_lookup_insert_ne].
  rewrite fn_lookup_insert. rewrite Hf in HP. destruct HP as [In Im Io If Isl _].
  constructor; try done.
  - intros _ [?|[? _]]; apply In; auto.
  - intros _ _ ?. by apply Im.
  - by intros [?|?].
  - intros q x Hr _ _. by apply Isl.
  - intros k [= <-]. exists p, args. split; [|split; [done|]].
    + apply list_lookup_insert_eq. by eapply lookup_lt_Some.
    + rewrite Hen. unfold len in *. rewrite length_drop. lia.
Qed.

Lemma IX_tally s tid s' : IX s → exec_tally s tid = Some (Ok s') → IX s'.
Proof.
  intros HI. unfold exec_tally.
  destruct (threads s !! tid) as [[o p ep k args [| | |ok|]|?|?]|] eqn:Hth; try done.
  destruct (campaigns s !! k) as [a|]; [|done].
  destruct (may_lock s o ep) eqn:Ha; [apply may_lock_spec in Ha as [_ Hf]|done].
  unfold tally. destruct (ok && _ && _); cycle 1.
  { cbn. intros [= <-]. eapply IX_view; [..|eapply IX_node_thread; [done| |exact Hth|..]]; done. }
  destruct (peers (nodes s o) <? _); cycle 1.
  { cbn. intros [= <-]. eapply IX_view; [..|eapply IX_node_thread; [done| |exact Hth|..]]; done. }
  cbn. intros [= <-].
  assert (H1 : IX (put_thread s tid (RVThread o p ep k args (RVDone (a <? a + 1)))))
    by by eapply IX_put_thread.
  destruct H1 as [HP HE]. constructor; [|exact HE]. intros i Hi. specialize (HP i Hi). cbn in *.
  destruct (decide (o = i)) as [<-|Hne]; [|by rewrite !fn_lookup_insert_ne].
  rewrite !fn_lookup_insert. rewrite Hf in HP. destruct HP as [In Im Io If Isl _].
  constructor; try done; cbn. intros _ [?|[??]]; [|done]. apply In; auto.
Qed.

Lemma ix_release n i rf tid ep ths :
  ix_peer n i rf (Sending tid) ep ths → ix_peer n i rf Free ep ths.
Proof.
  intros [In Im Io If Isl _]. constructor; try done.
  - intros _ [?|[? _]]; apply In; auto.
  - intros _ _ ?. by apply Im.
  - by intros [?|?].
  - intros p x Hr _ _. by apply Isl.
Qed.

Lemma IX_critical s i s' :
  0 ≤ i < size s → peers (nodes s i) = size s → IX s → exec_critical s i = Some (Ok s') → IX s'.
Proof.
  intros Hi Hpe HI. unfold exec_critical. destruct (crits s i) as [| | |tid] eqn:Hc; [done|..].
  - intros [= <-]. destruct HI as [HP HE]. constructor; [|exact HE]. intros j Hj.
    specialize (HP j Hj). cbn. destruct (decide (i = j)) as [<-|Hne]; [|by rewrite !fn_lookup_insert_ne].
    rewrite !fn_lookup_insert. rewrite Hc in HP. destruct HP as [In Im Io If Isl _].
    constructor; try done; cbn. intros _. apply Io. by left.
  - intros [= <-]. destruct HI as [HP HE]. constructor; cbn.
    + intros j Hj. specialize (HP j Hj).
      destruct (decide (i = j)) as [<-|Hne].
      * rewrite !fn_lookup_insert. rewrite Hc in HP. destruct HP as [In Im Io If Isl _].
        specialize (If eq_refl). specialize (Io (or_intror eq_refl)).
        assert (Hm : matchIndex (nodes s i) = []) by (destruct (matchIndex (nodes s i)); [done|unfold len in Io; cbn in Io; lia]).
        rewrite fill_indices_eq, If, Hm, Hpe. cbn [app].
        constructor; cbn; try done; try (by intros [?|?]);
          try (intros; apply len_replicate; lia).
        intros p x _ _ _ [_ Hx]%slice_get_Ok. apply lookup_replicate in Hx as [-> _].
        left. pose proof (len_nonneg (logs (nodes s i))). lia.
      * rewrite !fn_lookup_insert_ne by done. eapply ix_threads; [| | |exact HP].
        -- intros (th & [Hin|Hin]%elem_of_app & Hs); [by exists th|].
           apply list_elem_of_singleton in Hin as ->. injection Hs as ->. done.
        -- intros p. unfold rewinding. rewrite existsb_app. by intros ->.
        -- intros tid th _ Ht. by apply lookup_app_l_Some.
    + apply Forall_app. split; [done|]. constructor; [|done]. by intros j ep [= <- <-].
  - destruct (threads s !! tid) as [[?|o p ep [|args|args|args r|args r|args r|args r w|args ok|]|?]|] eqn:Hth; try done.
    destruct (advance_next (nodes s i) p args) as [rf| |] eqn:Ha; cbn; try done. intros [= <-].
    pose proof (ix_peers _ HI i Hi) as HP. rewrite Hc in HP.
    destruct (ix_sending _ _ _ _ _ _ HP tid eq_refl) as (p' & args' & Hp & Hr & Hlen).
    rewrite Hp in Hth. injection Hth as <- <- <- <-.
    eapply IX_section; [exact HI|exact Hp|done|done|]. intros _.
    eapply ix_write; [by eapply ix_release|exact Hp|exact Ha|by right|].
    right. pose proof (len_nonneg (logs (nodes s i))). lia.
Qed.

Lemma IX_step s e s' :
  (∃ G, Inv s G) → IX s → lock_check_holds s e = true → exec s e = Some (Ok s') → IX s'.
Proof.
  intros [G HG] HI Hlc He. destruct e; cbn [exec] in He;
    try (destruct (valid s i) eqn:Hv; [|done]); cbn [andb] in He;
    try (destruct (unlocked s i) eqn:Hu; [apply free_of in Hu|done]).
  - unfold exec_loop_top in He. case_match; try done. injection He as <-. by apply (IX_view s).
  - unfold exec_elect in He. case_match; try done. injection He as <-.
    apply IX_put_node; [by apply (IX_view s)|]. cbn. rewrite Hu. by apply tame_deposed.
  - by eapply IX_do_vote.
  - unfold exec_loop_end in He. case_match; try done. injection He as <-.
    apply IX_put_node; [by apply (IX_view s)|].
    unfold election_loop_end. case_match; by apply tame_fields.
  - injection He as <-. apply IX_put_node; [done|]. rewrite Hu. apply Start_tame.
  - injection He as <-. apply IX_put_node; [done|]. by apply tame_fields.
  - by eapply IX_restart.
  - by eapply IX_deliver.
  - by eapply IX_lose.
  - by eapply IX_check.
  - by eapply IX_step_down.
  - by eapply IX_rewind.
  - by eapply IX_tally.
  - by eapply IX_submit.
  - by eapply IX_tick.
  - by eapply IX_prepare.
  - by eapply IX_append_done.
  - apply valid_range in Hv. eapply IX_critical; [done| |done..].
    apply (nk_peers _ _ _ _ (inv_nodes _ _ HG i Hv)).
Qed.

Lemma IX_init n boot : IX (init n boot).
Proof.
  constructor; [|done]. intros i _. cbn. destruct (boot i) as [[r1 r2] now]. rewrite Make_eq.
  assert (Hno : ¬ sends i 0 []) by (intros (th & ?%elem_of_nil & _); done).
  constructor; try done; cbn; [by intros _ [?|[??]]|by intros _ _ [?|?]].
Qed.

Lemma reachable_ix s : ReachableSync s → IX s.
Proof.
  induction 1 as [n boot Hn|s e s' HR IH Hlc He]; [apply IX_init|].
  by eapply IX_step; [by apply reachable_inv|..].
Qed.

(** ** What can panic *)

Lemma set_next_total rf p x : is_ok (set_next rf p x) ∨ set_next rf p x = Panic.
Proof.
  unfold set_next, slice_set. case_decide; [left; by eexists|by right].
Qed.

Lemma rewind_total rf p (args : AppendEntriesArgs Cmd) r w :
  is_ok (rewind rf p args r w) ∨ rewind rf p args r w = Panic.
Proof.
  destruct (rewind_cases rf p args r w) as [->|[x ->]]; [left; by eexists|apply set_next_total].
Qed.

Lemma slice_get_total {A} (l : list A) i : is_ok (slice_get l i) ∨ slice_get l i = Panic.
Proof.
  destruct (decide (0 ≤ i < len l)) as [Hi|Hi]; [left|right; by apply slice_get_Panic].
  destruct (slice_get_is_Ok l i Hi) as [x ->]. by eexists.
Qed.

Lemma prepare_append_total rf p : is_ok (prepare_append rf p) ∨ prepare_append rf p = Panic.
Proof.
  unfold prepare_append.
  destruct (slice_get_total (nextIndex rf) p) as [[index ->]| ->]; [|by right]. cbn.
  assert (H1 : is_ok (if index <=? len (logs rf) then slice_from (logs rf) (index - 1) else mret []) ∨
    (if index <=? len (logs rf) then slice_from (logs rf) (index - 1) else mret []) = Panic).
  { case_match; [|left; by eexists]. unfold slice_from.
    case_decide; [left; by eexists|by right]. }
  destruct H1 as [[en ->]| ->]; [|by right]. cbn. case_match; [|left; by eexists].
  destruct (slice_get_total (logs rf) (index - 2)) as [[e ->]| ->]; [left; by eexists|by right].
Qed.

Lemma deliver_runs s G tid now r : Inv s G → exec_deliver s tid now = Some r → is_ok r.
Proof.
  intros HI. unfold exec_deliver.
  destruct (threads s !! tid) as [[o p ep k args []|o p ep [|args|args|args rep|args rep|args rep|args rep w|args ok|]|?]|] eqn:Hth; try done;
    (destruct (unlocked s p); [|done]).
  - destruct (RequestVote _ _ _). intros [= <-]. by eexists.
  - pose proof (inv_thread _ _ _ _ HI Hth) as (Ho & Hp & _ & HM).
    destruct (AppendEntries_ok (size s) G p o (nodes s p) now args) as (rf & rep & m & -> & _);
      [apply HI|by apply HI|done|lia|]. intros [= <-]. by eexists.
Qed.

Lemma rewind_runs s G tid r :
  Inv s G → IX s → exec_rewind s tid = Some r →
  is_ok r ∨ r = Panic ∧ races s (ERewind tid) = true.
Proof.
  intros HI HX. unfold exec_rewind, races.
  destruct (threads s !! tid) as [[?|o p ep [|args|args|args rep|args rep|args rep|args rep w|args ok|]|?]|] eqn:Hth;
    try done; (destruct (alive s o ep) eqn:Ha; [apply alive_spec in Ha as ->|done]).
  { intros [= <-]. left. by eexists. }
  pose proof (inv_thread _ _ _ _ HI Hth) as (Ho & Hp & _).
  destruct (rewind_total (nodes s o) p args rep w) as [[rf Hrw]|Hrw]; rewrite Hrw; cbn.
  { intros [= <-]. left. by eexists. }
  intros [= <-]. right. split; [done|].
  destruct (crits s o) eqn:Hc; [exfalso..|done|exfalso]; 
    destruct (rewind_cases (nodes s o) p args rep w) as [Hok|[x Hok]]; rewrite Hok in Hrw; try done;
    assert (Hl : len (nextIndex (nodes s o)) = size s)
      by (apply (ix_next _ _ _ _ _ _ (ix_peers _ HX o Ho)); [by rewrite Hc|left];
          eexists; split; [by eapply list_elem_of_lookup_2|done]);
    destruct (set_next_Ok (nodes s o) p x) as [y Hy]; try lia; congruence.
Qed.

Lemma prepare_runs s G tid r :
  Inv s G → IX s → lock_check_holds s (EPrepare tid) = true → exec_prepare s tid = Some r →
  is_ok r ∨ r = Panic ∧ races s (EPrepare tid) = true.
Proof.
  intros HI HX Hlc. unfold exec_prepare, races. cbn in Hlc.
  destruct (threads s !! tid) as [[?|o p ep [|args|args|args rep|args rep|args rep|args rep w|args ok|]|?]|] eqn:Hth; try done.
  destruct (may_lock s o ep) eqn:Ha; [apply may_lock_spec in Ha as [-> Hf]|done].
  apply bool_decide_eq_true in Hlc.
  pose proof (inv_thread _ _ _ _ HI Hth) as (Ho & Hp & _).
  destruct (prepare_append_total (nodes s o) p) as [[args Hpa]|Hpa]; rewrite Hpa; cbn; intros [= <-].
  { left. by eexists. }
  right. split; [done|]. pose proof (ix_peers _ HX o Ho) as HP. rewrite Hf in HP.
  destruct (slice_get_is_Ok (nextIndex (nodes s o)) p) as [x Hx].
  { rewrite (ix_next _ _ _ _ _ _ HP); [done..|]. right. done. }
  destruct (ix_slots _ _ _ _ _ _ HP p x Hlc) as [Hb|?]; try done.
  destruct (prepare_append_Ok _ _ _ Hx Hb) as [y Hy]. congruence.
Qed.

Lemma append_done_runs s G tid r :
  Inv s G → IX s → exec_append_done s tid = Some r → is_ok r.
Proof.
  intros HI HX. unfold exec_append_done.
  destruct (threads s !! tid) as [[?|o p ep [|args|args|args rep|args rep|args rep|args rep w|args ok|]|?]|] eqn:Hth; try done.
  destruct (may_lock s o ep) eqn:Ha; [apply may_lock_spec in Ha as [-> Hf]|done].
  pose proof (inv_thread _ _ _ _ HI Hth) as (Ho & Hp & _).
  destruct (append_done_Ok (size s) G o (nodes s o) p args ok) as [[rf m] ->]; [by apply HI|done|..].
  - intros Hr. pose proof (ix_peers _ HX o Ho) as HP. rewrite Hf in HP.
    apply (ix_match _ _ _ _ _ _ HP); [done..|]. by right.
  - intros [= <-]. by eexists.
Qed.

Lemma critical_runs s i r :
  IX s → 0 ≤ i < size s → (∀ tid p ep ph, threads s !! tid = Some (AEThread i p ep ph) → 0 ≤ p < size s) →
  exec_critical s i = Some r → is_ok r.
Proof.
  intros HX Hi Hpeer. unfold exec_critical. destruct (crits s i) as [| | |tid] eqn:Hc; [done|..].
  - intros [= <-]. by eexists.
  - intros [= <-]. by eexists.
  - pose proof (ix_peers _ HX i Hi) as HP. rewrite Hc in HP.
    destruct (ix_sending _ _ _ _ _ _ HP tid eq_refl) as (p & args & Hth & Hr & _). rewrite Hth.
    destruct (set_next_Ok (nodes s i) p (PrevLogIndex args + len (Entries args) + 1)) as [rf Hs].
    { rewrite (ix_next _ _ _ _ _ _ HP); [by eapply Hpeer|done|]. by right. }
    unfold advance_next. rewrite Hs. intros [= <-]. by eexists.
Qed.

(** ** Theorems *)

(** C6. No panic but in two races: in a reachable state no handler, loop body or
    goroutine step whose checked condition still holds indexes out of range, so
    that every enabled event runs to completion, except an assignment of
    sendAppendEntries to [nextIndex] while a new leader has emptied it and not yet
    filled it, and the message for a peer whose slot of [nextIndex] is being
    rewound at that moment.  (In both, the process panics in some executions:
    [rewind_race_panics] and [prepare_race_panics].) *)
Theorem no_panic s e r :
  ReachableSync s → lock_check_holds s e = true → exec s e = Some r →
  is_ok r ∨ r = Panic ∧ races s e = true.
Proof.
  intros HR Hlc He. destruct (reachable_inv _ HR) as [G HI]. pose proof (reachable_ix _ HR) as HX.
  destruct e; cbn [exec] in He;
    try (destruct (valid s i) eqn:Hv; [apply valid_range in Hv|done]); cbn [andb] in He;
    try (destruct (unlocked s i) eqn:Hu; [|done]);
    try (injection He as <-; left; by eexists).
  - left. unfold exec_loop_top in He. case_match; simplify_eq. by eexists.
  - left. unfold exec_elect in He. case_match; simplify_eq. by eexists.
  - left. unfold exec_do_vote in He. case_match; simplify_eq. by eexists.
  - left. unfold exec_loop_end in He. case_match; simplify_eq. by eexists.
  - left. by eapply deliver_runs.
  - left. unfold exec_lose in He. repeat case_match; simplify_eq; by eexists.
  - left. unfold exec_check in He. repeat case_match; simplify_eq; by eexists.
  - left. unfold exec_step_down in He. repeat case_match; simplify_eq; by eexists.
  - by eapply rewind_runs.
  - left. unfold exec_tally in He. repeat case_match; simplify_eq; by eexists.
  - left. unfold exec_submit in He. repeat case_match; simplify_eq; by eexists.
  - left. unfold exec_tick in He. repeat case_match; simplify_eq; by eexists.
  - by eapply prepare_runs.
  - left. by eapply append_done_runs.
  - left. eapply critical_runs; [done..| |exact He].
    intros tid p ep ph Hth. apply (inv_thread _ _ _ _ HI Hth).
Qed.

End indices.
End Indices.
