(* ===== verification/RaftCommitRule.v ===== *)
(** * RaftCommitRule: the leader's commit loop computes the commit rule

    The loop of [doSubmit] walks the log from the commit index and stops at the
    first entry of its term that is not held by a majority.  The reference
    definition has no order and no early exit: the largest entry of the current
    term that a majority holds.  They are equal. *)
From S2P Require Import Prelude Persister Raft RaftCluster RaftInv RaftInvLog RaftProps.

Module CommitRule.
Import RaftProps.

Section rule.
Context {Cmd : Type}.
#[local] Notation Raft := (Raft.Raft Cmd).
Implicit Types (rf : Raft) (args : AppendEntriesArgs Cmd).

(** May the leader commit up to the entry at [i]?  It is not from an earlier
    term, and a majority holds it. *)
Definition committable rf (i : Z) : bool :=
  match slice_get (logs rf) i with
  | Ok e => (currentTerm rf <=? term e) && (peers rf <? (1 + len (holders rf i)) * 2)
  | _ => false
  end.

Definition largest (c : Z) (l : list Z) : Z := foldr Z.max c ((λ i, i + 1) <$> l).

(** The commit index the leader should have. *)
Definition commit_target rf : Z :=
  largest (commitIndex rf) (filter (committable rf) (range 0 (len (logs rf)))).

Lemma largest_le c l : c ≤ largest c l.
Proof. unfold largest. induction l; cbn; lia. Qed.

Lemma largest_cons c i l : largest c (i :: l) = largest (Z.max c (i + 1)) l.
Proof.
  unfold largest. cbn. induction l as [|j l IH]; cbn; [lia|].
  rewrite <- IH. lia.
Qed.

Lemma largest_absorb c l : (∀ i, i ∈ l → i < c) → largest c l = c.
Proof.
  induction l as [|i l IH]; intros Hl; [done|]. rewrite largest_cons, Z.max_l.
  - apply IH. intros j Hj. apply Hl. by right.
  - assert (i < c) by (apply Hl; by left). lia.
Qed.

Lemma largest_app c l1 l2 : largest c (l1 ++ l2) = largest (largest c l1) l2.
Proof.
  revert c. induction l1 as [|i l1 IH]; intros c; [done|].
  rewrite <- app_comm_cons, !largest_cons. apply IH.
Qed.

(** Entries further down the log are held by fewer peers. *)
Lemma len_filter_le (P Q : Z → bool) l :
  (∀ j, P j = true → Q j = true) → len (filter P l) ≤ len (filter Q l).
Proof.
  intros HPQ. induction l as [|j l IH]; [done|]. rewrite !filter_cons. unfold len in *.
  specialize (HPQ j). repeat case_decide; cbn [length]; try lia.
  destruct (P j), (Q j); try done. by specialize (HPQ eq_refl).
Qed.

Lemma holders_antitone rf i j : i ≤ j → len (holders rf j) ≤ len (holders rf i).
Proof.
  intros Hij. apply len_filter_le. intros p. unfold holds.
  intros [-> Hm]%andb_prop. destruct (slice_get _ p); try done. cbn.
  apply Z.ltb_lt in Hm. apply Z.ltb_lt. lia.
Qed.

Lemma commit_loop_largest rf k rf' msgs :
  commitIndex rf ≤ len (logs rf) - Z.of_nat k →
  commit_loop rf (range (len (logs rf) - Z.of_nat k) (len (logs rf))) = Ok (rf', msgs) →
  commitIndex rf' = largest (commitIndex rf)
    (filter (committable rf) (range (len (logs rf) - Z.of_nat k) (len (logs rf)))).
Proof.
  revert rf rf' msgs. induction k as [|k IH]; intros rf rf' msgs Hci H.
  { rewrite range_empty in * by lia. injection H as <- _. done. }
  set (a := len (logs rf) - Z.of_nat (S k)) in *.
  assert (Ha : a + 1 = len (logs rf) - Z.of_nat k) by lia.
  rewrite (range_app a (a + 1)) in * by lia. rewrite (range_one a) in * by lia.
  rewrite filter_app. cbn [app] in H. cbn [commit_loop] in H. mbind_inv H.
  assert (Hfa : filter (committable rf) [a] = if committable rf a then [a] else []).
  { rewrite filter_cons, filter_nil. destruct (committable rf a); case_decide as Hd; try done; by destruct Hd. }
  rewrite Hfa. unfold committable at 1. rewrite E. destruct (Z.ltb_spec (term a0) (currentTerm rf)).
  { rewrite (proj2 (Z.leb_gt _ _)) by lia. cbn [andb app]. rewrite Ha in *. eapply IH; [lia|exact H]. }
  rewrite (proj2 (Z.leb_le _ _)) by lia. cbn [andb]. mbind_inv H.
  apply count_replicas_spec in E0 as ->. destruct (Z.ltb_spec (peers rf) ((1 + len (holders rf a)) * 2)); cycle 1.
  { injection H as <- _. cbn [app]. rewrite filter_none; [done|].
    intros j Hj%elem_of_range. unfold committable. destruct (slice_get _ j); [|by intros []..].
    intros Hc%Is_true_true. apply andb_prop in Hc as [_ Hm%Z.ltb_lt]. pose proof (holders_antitone rf a j). lia. }
  mbind_inv H. destruct a1 as [rf1 m1]. mbind_inv H. destruct a1 as [rf2 m2]. injection H as <- _.
  unfold commit_to in E0. mbind_inv E0. injection E0 as <- <-.
  rewrite Ha in *. cbn [app]. rewrite largest_cons.
  assert (Hci' : Z.max (commitIndex rf) (len (logs rf) - Z.of_nat k) ≤ len (logs rf) - Z.of_nat k)
    by lia.
  rewrite Ha. exact (IH (rf <| commitIndex := Z.max (commitIndex rf) (len (logs rf) - Z.of_nat k) |>)
    _ _ Hci' E1).
Qed.

Lemma commit_target_range rf :
  0 ≤ commitIndex rf ≤ len (logs rf) →
  commit_target rf = largest (commitIndex rf)
    (filter (committable rf) (range (commitIndex rf) (len (logs rf)))).
Proof.
  intros Hci. unfold commit_target. rewrite (range_app 0 (commitIndex rf)) by lia.
  rewrite filter_app, largest_app. f_equal. apply largest_absorb.
  intros i [_ Hi%elem_of_range]%list_elem_of_filter. lia.
Qed.

Lemma commit_loop_target rf :
  len (matchIndex rf) = peers rf → 0 ≤ commitIndex rf ≤ len (logs rf) →
  ∃ msgs,
    commit_loop rf (range (commitIndex rf) (len (logs rf))) =
      Ok (rf <| commitIndex := commit_target rf |>, msgs) ∧
    apply_range (logs rf) (commitIndex rf) (commit_target rf) = Ok msgs.
Proof.
  intros Hmt Hci.
  destruct (InvLog.commit_loop_Ok rf (range (commitIndex rf) (len (logs rf)))) as (c & msgs & Hc & Hle);
    [done|done|by intros j Hj%elem_of_range; lia|].
  exists msgs. assert (Hct : c = commit_target rf).
  { rewrite commit_target_range by done.
    pose proof (commit_loop_largest rf (Z.to_nat (len (logs rf) - commitIndex rf))
      (rf <| commitIndex := c |>) msgs) as HL.
    replace (len (logs rf) - Z.of_nat _) with (commitIndex rf) in HL by lia.
    exact (HL (Z.le_refl _) Hc). }
  rewrite <- Hct. split; [exact Hc|]. by apply commit_loop_msgs in Hc as [_ Hm].
Qed.

Lemma largest_ge c i l : i ∈ l → i + 1 ≤ largest c l.
Proof.
  unfold largest. induction l as [|j l IH]; [by intros ?%elem_of_nil|].
  intros [->|Hi]%elem_of_cons; cbn; [lia|]. specialize (IH Hi). lia.
Qed.

Lemma largest_bound c b l : c ≤ b → (∀ i, i ∈ l → i + 1 ≤ b) → largest c l ≤ b.
Proof.
  unfold largest. intros Hc. induction l as [|j l IH]; intros Hl; cbn; [done|].
  assert (j + 1 ≤ b) by (apply Hl; by left).
  assert (foldr Z.max c ((λ i, i + 1) <$> l) ≤ b) by (apply IH; intros; apply Hl; by right). lia.
Qed.

Lemma commit_target_bounds rf :
  0 ≤ commitIndex rf ≤ len (logs rf) → commitIndex rf ≤ commit_target rf ≤ len (logs rf).
Proof.
  intros Hci. split; [apply largest_le|]. apply largest_bound; [lia|].
  intros i [_ Hi%elem_of_range]%list_elem_of_filter. lia.
Qed.

(** C14. The commit loop is the commit rule: when the leader of a term gets a
    successful reply for that term it records what the follower now holds, and its
    commit index becomes the largest index of an entry that is not of an earlier
    term and is held by a majority, or stays when there is none larger; the
    entries in between are sent on applyCh once and in order.  The loop, which
    starts at the old commit index and stops early, agrees with that definition,
    which scans the whole log. *)
Theorem commit_loop_reference rf peer args :
  len (matchIndex rf) = peers rf → 0 ≤ commitIndex rf ≤ len (logs rf) → 0 ≤ peer < peers rf →
  role rf = Leader → ae_Term args = currentTerm rf →
  let mt := <[Z.to_nat peer := PrevLogIndex args + len (Entries args)]> (matchIndex rf) in
  let rf1 := rf <| matchIndex := mt |> in
  ∃ msgs,
    append_done rf peer args true = Ok (rf1 <| commitIndex := commit_target rf1 |>, msgs) ∧
    apply_range (logs rf) (commitIndex rf) (commit_target rf1) = Ok msgs.
Proof.
  intros Hmt Hci Hp Hr HT mt rf1. unfold append_done.
  rewrite HT, Z.eqb_refl, bool_decide_eq_true_2 by done. cbn [andb].
  rewrite slice_set_Ok by lia. cbn [mbind res_bind].
  apply (commit_loop_target rf1); [|done]. cbn. unfold mt. by rewrite len_insert.
Qed.
End rule.
End CommitRule.
