(* ===== verification/RaftProgress.v ===== *)
(** * RaftProgress: a leader can always be elected, except by a lone peer

    From every state of an execution, in which any messages are pending, lost or
    stale, some schedule elects a leader of the newest term: all peers restart, the
    one with the best log campaigns until its term is above all others, and its last
    requests are delivered and counted.  The schedule is in order throughout.  A
    cluster of one peer never has a leader: votes are counted where a reply comes
    back, and nobody replies. *)
From S2P Require Import Prelude Persister Raft RaftCluster RaftInv RaftInvLog RaftSafety.
From S2P Require Import RaftProps.
Export Inv.

Module Progress.
Import RaftProps.

Section progress.
Context {Cmd : Type}.
#[local] Notation Raft := (Raft.Raft Cmd).
#[local] Notation Cluster := (Cluster.Cluster Cmd).
#[local] Notation Event := (Cluster.Event Cmd).
#[local] Notation Thread := (Cluster.Thread Cmd).
Implicit Types (rf : Raft) (s : Cluster) (l : list (LogEntry Cmd)).

(** ** Schedules *)

(** Some schedule leads from [s] to [s'], in order. *)
Definition leads s s' : Prop := ∃ es, run in_order s es = Some s'.

#[export] Instance leads_preorder : PreOrder leads.
Proof.
  split; [intros s; by exists []|]. intros s1 s2 s3 [es1 H1] [es2 H2]. exists (es1 ++ es2).
  revert s1 H1. induction es1 as [|e es1 IH]; intros s1 H1; cbn in *; [by simplify_eq|].
  destruct (in_order s1 e); [|done]. destruct (exec s1 e) as [[s| |]|]; try done. by apply IH.
Qed.

Lemma leads_step s e s' : in_order s e = true → exec s e = Some (Ok s') → leads s s'.
Proof. intros Hok He. exists [e]. cbn. by rewrite Hok, He. Qed.

(** No critical section has been left halfway. *)
Definition all_free s : Prop := ∀ q, 0 ≤ q < size s → crits s q = Free.

Lemma free_unlocked s q : crits s q = Free → unlocked s q = true.
Proof. unfold unlocked. by intros ->. Qed.

Lemma leads_sync s s' : ReachableSync s → leads s s' → ReachableSync s'.
Proof.
  intros HR [es H]. revert s HR H. induction es as [|e es IH]; intros s HR H; cbn in H; [by simplify_eq|].
  destruct (in_order s e) eqn:Hok; [|done]. destruct (exec s e) as [[s1| |]|] eqn:He; try done.
  eapply IH; [|exact H]. eapply reach_step; [exact HR| |exact He].
  unfold in_order in Hok. by apply andb_prop in Hok as [? _].
Qed.

(** ** The best log *)

(** The order in which RequestVote compares logs. *)
Definition log_le l1 l2 : Prop :=
  lastLogTerm l1 < lastLogTerm l2 ∨ lastLogTerm l1 = lastLogTerm l2 ∧ len l1 ≤ len l2.

Lemma log_le_total l1 l2 : log_le l1 l2 ∨ log_le l2 l1.
Proof. unfold log_le. lia. Qed.

Lemma log_le_trans l1 l2 l3 : log_le l1 l2 → log_le l2 l3 → log_le l1 l3.
Proof. unfold log_le. lia. Qed.

Lemma log_le_ok l1 l2 T c : log_le l1 l2 → log_ok l1 (mkRVArgs T c (len l2) (lastLogTerm l2)) = true.
Proof.
  intros Hle. unfold log_ok. cbn. apply orb_true_iff. rewrite Z.ltb_lt, andb_true_iff, Z.eqb_eq, Z.leb_le.
  exact Hle.
Qed.

Lemma best_log (f : Z → list (LogEntry Cmd)) (n : nat) :
  (0 < n)%nat → ∃ p, 0 ≤ p < Z.of_nat n ∧ ∀ q, 0 ≤ q < Z.of_nat n → log_le (f q) (f p).
Proof.
  induction n as [|n IH]; intros Hn; [lia|]. destruct (decide (n = 0)%nat) as [->|Hne].
  { exists 0. split; [lia|]. intros q Hq. replace q with 0 by lia. right. lia. }
  destruct IH as (p & Hp & Hbest); [lia|].
  destruct (log_le_total (f (Z.of_nat n)) (f p)) as [Hle|Hle].
  - exists p. split; [lia|]. intros q Hq. destruct (decide (q = Z.of_nat n)) as [->|]; [done|].
    apply Hbest. lia.
  - exists (Z.of_nat n). split; [lia|]. intros q Hq.
    destruct (decide (q = Z.of_nat n)) as [->|]; [right; lia|].
    eapply log_le_trans; [|exact Hle]. apply Hbest. lia.
Qed.

Lemma highest (f : Z → Z) (n : nat) :
  (0 < n)%nat → ∃ m, 0 ≤ m < Z.of_nat n ∧ ∀ q, 0 ≤ q < Z.of_nat n → f q ≤ f m.
Proof.
  induction n as [|n IH]; intros Hn; [lia|]. destruct (decide (n = 0)%nat) as [->|Hne].
  { exists 0. split; [lia|]. intros q Hq. by replace q with 0 by lia. }
  destruct IH as (m & Hm & Hmax); [lia|].
  destruct (Z.le_ge_cases (f (Z.of_nat n)) (f m)) as [Hle|Hle];
    [exists m|exists (Z.of_nat n)]; (split; [lia|]); intros q Hq;
    (destruct (decide (q = Z.of_nat n)) as [->|]; [lia|]); specialize (Hmax q); lia.
Qed.

(** ** A vote *)

Lemma RequestVote_new_term now rf (args : RequestVoteArgs) :
  currentTerm rf < rv_Term args → log_ok (logs rf) args = true →
  let '(rf', r) := RequestVote now rf args in
  VoteGranted r = true ∧ rvr_Term r = rv_Term args ∧ currentTerm rf' = rv_Term args ∧
  logs rf' = logs rf.
Proof.
  intros HT Hlog. unfold RequestVote. rewrite (proj2 (Z.ltb_ge _ _)) by lia.
  unfold adopt_term. rewrite (proj2 (Z.ltb_lt _ _)) by done. cbn. by rewrite Hlog.
Qed.

(** ** Campaigning *)

(** Peer [p] has applied nothing since it restarted, and runs no heartbeats. *)
Record anew s (p : Z) : Prop := mkAnew {
  an_running : running (nodes s p) = true;
  an_commit : commitIndex (nodes s p) = 0;
  an_counter : counter (nodes s p) = 0;
  an_applied : applied s p = [];
}.

(** Peer [p] stands at [pc] of its election loop with role [r], term [t] and log
    [l]; the others are as in [s0]. *)
Record stands s0 s (p : Z) (pc : LoopPC) (r : Role) (t : Z) l : Prop := mkStands {
  sd_size : size s = size s0;
  sd_loop : loops s p = pc;
  sd_anew : anew s p;
  sd_role : role (nodes s p) = r;
  sd_me : me (nodes s p) = p;
  sd_peers : peers (nodes s p) = size s0;
  sd_term : currentTerm (nodes s p) = t;
  sd_logs : logs (nodes s p) = l;
  sd_free : all_free s;
  sd_rest q : q ≠ p → nodes s q = nodes s0 q;
}.

Lemma valid_true s p : 0 ≤ p < size s → valid s p = true.
Proof. intros Hp. unfold valid. by rewrite (proj2 (Z.leb_le _ _)), (proj2 (Z.ltb_lt _ _)) by lia. Qed.

(** A restart keeps the term and the log, and leaves the lock free. *)
Lemma restart_step s p :
  0 ≤ p < size s → durable (nodes s p) →
  ∃ s', leads s s' ∧ size s' = size s ∧ crits s' p = Free ∧
    anew s' p ∧ loops s' p = LoopTop ∧ role (nodes s' p) = Follower ∧
    me (nodes s' p) = p ∧ peers (nodes s' p) = size s ∧
    currentTerm (nodes s' p) = currentTerm (nodes s p) ∧ logs (nodes s' p) = logs (nodes s p) ∧
    ∀ q, q ≠ p → nodes s' q = nodes s q ∧ crits s' q = crits s q.
Proof.
  intros Hp HD. unfold durable, saved in HD.
  eexists. split.
  - eapply (leads_step s (ERestart p 0 0 0)); [done|]. cbn. rewrite valid_true by done. reflexivity.
  - split_and!; cbn; try by rewrite ?fn_lookup_insert, ?Copy_id, ?Make_eq, ?HD.
    + by constructor; cbn; rewrite ?fn_lookup_insert, ?Make_eq.
    + intros q Hq. by rewrite !fn_lookup_insert_ne by done.
Qed.

(** All peers restart. *)
Lemma restart_all s :
  ReachableSync s → ∃ s', leads s s' ∧ size s' = size s ∧ all_free s' ∧
    ∀ q, 0 ≤ q < size s → currentTerm (nodes s' q) = currentTerm (nodes s q) ∧
                          logs (nodes s' q) = logs (nodes s q).
Proof.
  intros HR. assert (H : ∀ k : nat, Z.of_nat k ≤ size s → ∃ s', leads s s' ∧ size s' = size s ∧
    (∀ q, 0 ≤ q < Z.of_nat k → crits s' q = Free) ∧
    ∀ q, 0 ≤ q < size s → currentTerm (nodes s' q) = currentTerm (nodes s q) ∧
                          logs (nodes s' q) = logs (nodes s q)).
  - induction k as [|k IH]; intros Hk; [exists s; split_and!; try done; intros; lia|].
    destruct IH as (s1 & L1 & Hs1 & Hf1 & Hk1); [lia|].
    pose proof (reachable_durable _ _ (leads_sync _ _ HR L1) (Z.of_nat k)) as HD.
    destruct (restart_step s1 (Z.of_nat k)) as (s2 & L2 & Hs2 & Hf2 & _ & _ & _ & _ & _ & Ht & Hl & Ho);
      [lia|done|].
    exists s2. split; [by etrans|]. split; [congruence|]. split; intros q Hq;
      (destruct (decide (q = Z.of_nat k)) as [->|Hne]; [|destruct (Ho q Hne) as [Hn Hc]]).
    + done.
    + rewrite Hc. apply Hf1. lia.
    + rewrite Ht, Hl. by apply Hk1.
    + rewrite Hn. by apply Hk1.
  - assert (1 ≤ size s) by (destruct (Safety.reachable_inv _ HR) as [G []]; done).
    destruct (H (Z.to_nat (size s))) as (s' & L & Hs & Hf & Hk); [lia|].
    exists s'. split; [done|]. split; [done|]. split; [|done]. intros q Hq. apply Hf. lia.
Qed.

Lemma restart_stands s p :
  0 ≤ p < size s → durable (nodes s p) → all_free s →
  ∃ s', leads s s' ∧
    stands s s' p LoopTop Follower (currentTerm (nodes s p)) (logs (nodes s p)).
Proof.
  intros Hp HD Hf. destruct (restart_step s p Hp HD) as (s' & L & Hs & Hc & ? & ? & ? & ? & ? & ? & ? & Ho).
  exists s'. split; [done|]. constructor; try done.
  - intros q Hq. destruct (decide (q = p)) as [->|Hne]; [done|].
    rewrite (proj2 (Ho q Hne)). apply Hf. congruence.
  - intros q Hq. apply Ho, Hq.
Qed.

(** The election loop finds the timeout elapsed, and the peer stands for election. *)
Lemma elect_stands s0 s p r t l :
  stands s0 s p LoopTop r t l → r ≠ Leader → 0 ≤ p < size s0 → 0 ≤ t < MaxInt64 →
  ∃ s', leads s s' ∧ stands s0 s' p LoopVote Candidate (t + 1) l.
Proof.
  intros [Hs Hl [Hrun Hci Hct Hap] Hr Hme Hpe Ht Hlo Hf Hrest] Hnl Hp Htm.
  set (now := lastHeart (nodes s p) + electionTimeout (nodes s p)).
  assert (H1 : exec s (ELoopTop p now) = Some (Ok (put_loop s p LoopDue))).
  { cbn. rewrite valid_true by lia. unfold exec_loop_top, election_due. rewrite Hl, Hrun, Hr.
    rewrite bool_decide_eq_false_2 by done. cbn.
    rewrite (proj2 (Z.leb_le _ _)) by (unfold now; lia). done. }
  set (s1 := put_loop s p LoopDue) in *.
  assert (Hl1 : loops s1 p = LoopDue) by (cbn; by rewrite fn_lookup_insert).
  assert (H2 : exec s1 (EElect p 0) =
    Some (Ok (put_node (put_loop s1 p LoopVote) p (start_election (nodes s1 p) 0)))).
  { cbn. change (valid s1 p) with (valid s p). change (unlocked s1 p) with (unlocked s p).
    rewrite valid_true by lia. rewrite free_unlocked by (apply Hf; lia).
    unfold exec_elect. cbn. by rewrite fn_lookup_insert. }
  eexists. split.
  - etrans; [exact (leads_step s (ELoopTop p now) s1 eq_refl H1)|]. eapply leads_step; [|exact H2].
    unfold in_order, lock_check_holds, keeps_own_term. rewrite andb_true_r. apply Z.ltb_lt. cbn. lia.
  - constructor; cbn; try by rewrite ?fn_lookup_insert.
    + by constructor; cbn; rewrite ?fn_lookup_insert.
    + rewrite fn_lookup_insert. cbn. rewrite int64_id; [lia|]. unfold MinInt64, MaxInt64 in *. lia.
    + intros q Hq. rewrite fn_lookup_insert_ne by done. by apply Hrest.
Qed.

(** The requests are sent, and remain so far undelivered. *)
Lemma do_vote_stands s0 s p t l :
  stands s0 s p LoopVote Candidate t l → 0 ≤ p < size s0 →
  ∃ s', leads s s' ∧ stands s0 s' p LoopEnd Candidate t l ∧
    threads s' = threads s ++ vote_threads s p ∧ campaigns s' = campaigns s ++ [1] ∧
    epochs s' p = epochs s p.
Proof.
  intros [Hs Hl [Hrun Hci Hct Hap] Hr Hme Hpe Ht Hlo Hf Hrest] Hp.
  eexists. split.
  - eapply (leads_step s (EDoVote p)); [done|]. cbn. rewrite valid_true by lia. rewrite free_unlocked by (apply Hf; lia).
    cbn [andb].
    unfold exec_do_vote. rewrite Hl. reflexivity.
  - split; [|done]. by constructor; cbn; rewrite ?fn_lookup_insert.
Qed.

Lemma loop_end_stands s0 s p t l :
  stands s0 s p LoopEnd Candidate t l → 0 ≤ p < size s0 →
  ∃ s', leads s s' ∧ stands s0 s' p LoopTop Candidate t l.
Proof.
  intros [Hs Hl [Hrun Hci Hct Hap] Hr Hme Hpe Ht Hlo Hf Hrest] Hp.
  eexists. split.
  - eapply (leads_step s (ELoopEnd p 0)); [done|]. cbn. rewrite valid_true by lia.
    unfold exec_loop_end. rewrite Hl. reflexivity.
  - constructor; cbn; rewrite ?fn_lookup_insert; try done;
      try (unfold election_loop_end; by case_match).
    { constructor; cbn; rewrite ?fn_lookup_insert; try (unfold election_loop_end; by case_match). done. }
    intros q Hq. rewrite fn_lookup_insert_ne by done. by apply Hrest.
Qed.

(** Unanswered campaigns raise the term as far as needed. *)
Lemma campaigns_stands s0 s p r t l (k : nat) :
  stands s0 s p LoopTop r t l → r ≠ Leader → 0 ≤ p < size s0 → 0 ≤ t →
  t + Z.of_nat k ≤ MaxInt64 →
  ∃ s' r', leads s s' ∧ r' ≠ Leader ∧ stands s0 s' p LoopTop r' (t + Z.of_nat k) l.
Proof.
  revert s r t. induction k as [|k IH]; intros s r t HS Hr Hp Ht Hk.
  { exists s, r. rewrite Z.add_0_r. split; [done|]. by split. }
  destruct (elect_stands _ _ _ _ _ _ HS Hr Hp) as (s1 & L1 & S1); [lia|].
  destruct (do_vote_stands _ _ _ _ _ S1 Hp) as (s2 & L2 & S2 & _).
  destruct (loop_end_stands _ _ _ _ _ S2 Hp) as (s3 & L3 & S3).
  destruct (IH _ _ _ S3) as (s4 & r' & L4 & Hr' & S4); [done|done|lia|lia|].
  exists s4, r'. split; [|split; [done|]].
  - etrans; [exact L1|]. etrans; [exact L2|]. by etrans; [exact L3|].
  - by replace (t + Z.of_nat (S k)) with (t + 1 + Z.of_nat k) by lia.
Qed.

(** ** Collecting the votes *)

(** The two slices as taking office leaves them. *)
Definition fresh_indices rf : Prop :=
  nextIndex rf = replicate (Z.to_nat (peers rf)) (len (logs rf) + 1) ∧
  matchIndex rf = replicate (Z.to_nat (peers rf)) 0.

(** The winner of an election goes through with taking office. *)
Definition office rf : Raft := fill_indices (truncate_next rf).

Lemma take_office s p :
  0 ≤ p < size s → crits s p = Truncating →
  ∃ s', leads s s' ∧ size s' = size s ∧ crits s' p = Free ∧ nodes s' p = office (nodes s p) ∧
    threads s' = threads s ++ [SubmitThread p (epochs s p) SubmitNew] ∧
    campaigns s' = campaigns s ∧ epochs s' = epochs s ∧ applied s' = applied s ∧
    ∀ q, q ≠ p → nodes s' q = nodes s q ∧ crits s' q = crits s q.
Proof.
  intros Hp Hc. set (s1 := put_crit (put_node s p (truncate_next (nodes s p))) p Filling).
  assert (H1 : exec s (ECritical p) = Some (Ok s1)).
  { cbn. rewrite valid_true by done. unfold exec_critical. by rewrite Hc. }
  eexists. split.
  - etrans; [exact (leads_step s (ECritical p) s1 eq_refl H1)|].
    eapply (leads_step s1 (ECritical p)); [done|]. cbn.
    change (valid s1 p) with (valid s p). rewrite valid_true by done.
    unfold exec_critical. cbn. rewrite fn_lookup_insert. reflexivity.
  - split_and!; cbn; rewrite ?fn_lookup_insert; try done.
    intros q Hq. by rewrite !fn_lookup_insert_ne by done.
Qed.

(** The requests of call [k] of doVote are the threads from [base] on, to the
    peers [ps]; the first [j] have been delivered and counted. *)
Record voting s0 s (p T : Z) (ps : list Z) (ep k base : nat) (args : RequestVoteArgs) (j : nat) : Prop :=
  mkVoting {
  vt_size : size s = size s0;
  vt_peers : peers (nodes s p) = size s0;
  vt_term : currentTerm (nodes s p) = T;
  vt_anew : anew s p;
  vt_logs q : 0 ≤ q < size s0 → logs (nodes s q) = logs (nodes s0 q);
  vt_epoch : epochs s p = ep;
  vt_waiting i q : ps !! i = Some q → (j ≤ i)%nat →
    threads s !! (base + i)%nat = Some (RVThread p q ep k args RVSent) ∧ nodes s q = nodes s0 q;
  vt_terms q : 0 ≤ q < size s0 → currentTerm (nodes s q) ≤ T;
  vt_count : is_Some (campaigns s !! k);
  vt_free : all_free s;
  vt_role : role (nodes s p) = Leader ∧ fresh_indices (nodes s p) ∧
      (∃ tid, threads s !! tid = Some (SubmitThread p ep SubmitNew)) ∨
    role (nodes s p) = Candidate ∧ campaigns s !! k = Some (1 + Z.of_nat j) ∧
    (1 + Z.of_nat j) * 2 ≤ size s0;
}.

(** What the tally of a granted vote leaves. *)
Lemma tally_granted rf (args : RequestVoteArgs) a :
  rv_Term args = currentTerm rf →
  let '(rf', a', won) := tally rf args true a in
  peers rf' = peers rf ∧ currentTerm rf' = currentTerm rf ∧ running rf' = running rf ∧
  commitIndex rf' = commitIndex rf ∧ counter rf' = counter rf ∧ logs rf' = logs rf ∧
  (role rf = Leader → rf' = rf ∧ won = false) ∧
  (role rf = Candidate →
     role rf' = Leader ∧ matchIndex rf' = [] ∧ won = true ∨
     role rf' = Candidate ∧ a' = a + 1 ∧ (a + 1) * 2 ≤ peers rf ∧ won = false).
Proof.
  intros HT. unfold tally. rewrite HT, Z.eqb_refl. cbn [andb].
  destruct (bool_decide_reflect (role rf = Candidate)) as [Hc|Hc].
  - destruct (Z.ltb_spec (peers rf) ((a + 1) * 2)); cbn.
    + split_and!; try done; [congruence|auto].
    + split_and!; try done. intros _. right. by split_and!.
  - by split_and!.
Qed.

Lemma office_indices rf : matchIndex rf = [] → fresh_indices (office rf).
Proof. intros Hm. unfold office. rewrite fill_indices_eq. unfold fresh_indices. cbn. by rewrite Hm. Qed.

Lemma office_same rf :
  peers (office rf) = peers rf ∧ currentTerm (office rf) = currentTerm rf ∧
  running (office rf) = running rf ∧ commitIndex (office rf) = commitIndex rf ∧
  counter (office rf) = counter rf ∧ logs (office rf) = logs rf ∧ role (office rf) = role rf.
Proof. unfold office. by rewrite fill_indices_eq. Qed.

(** The last part of counting a vote: the winner takes office. *)
Lemma tally_office s tid p q ep k args a :
  threads s !! tid = Some (RVThread p q ep k args (RVGot true)) → campaigns s !! k = Some a →
  epochs s p = ep → all_free s → 0 ≤ p < size s →
  let '(rp, a', won) := tally (nodes s p) args true a in
  ∃ s', leads s s' ∧ size s' = size s ∧ all_free s' ∧ epochs s' = epochs s ∧ applied s' = applied s ∧
    nodes s' p = (if won : bool then office rp else rp) ∧
    (∀ x, x ≠ p → nodes s' x = nodes s x) ∧
    campaigns s' = <[k:=a']> (campaigns s) ∧
    (∀ t th, t ≠ tid → threads s !! t = Some th → threads s' !! t = Some th) ∧
    (won = true → ∃ t, threads s' !! t = Some (SubmitThread p ep SubmitNew)).
Proof.
  intros Hth Ha He Hf Hp. destruct (tally (nodes s p) args true a) as [[rp a'] won] eqn:Etal.
  set (s1 := put_thread (put_node s p rp) tid (RVThread p q ep k args (RVDone (a <? a')))
             <| campaigns := <[k:=a']> (campaigns s) |>).
  assert (H1 : exec s (ETally tid) =
    Some (Ok (if won then put_crit s1 p Truncating else s1))).
  { cbn [exec]. unfold exec_tally. rewrite Hth, Ha. unfold may_lock, alive.
    rewrite He, Nat.eqb_refl, free_unlocked by by apply Hf. cbn [andb]. by rewrite Etal. }
  pose proof (leads_step s (ETally tid) _ eq_refl H1) as L1.
  assert (N1 : nodes s1 p = rp) by (cbn; by rewrite fn_lookup_insert).
  assert (O1 : ∀ x, x ≠ p → nodes s1 x = nodes s x).
  { intros x Hx. cbn. by rewrite fn_lookup_insert_ne. }
  assert (T1 : ∀ t th, t ≠ tid → threads s !! t = Some th → threads s1 !! t = Some th).
  { intros t th Ht Hx. cbn. by rewrite list_lookup_insert_ne. }
  destruct won; [|by exists s1; split_and!].
  destruct (take_office (put_crit s1 p Truncating) p) as
    (s2 & L2 & Hs & Hc & Hn & Hths & Hca & Hep & Hap & Ho); [done|cbn; by rewrite fn_lookup_insert|].
  exists s2. split; [by etrans|]. split; [done|]. split; [|split; [done|split; [done|split; [|split; [|split; [done|split]]]]]].
  - intros x Hx. destruct (decide (x = p)) as [->|Hne]; [done|].
    rewrite (proj2 (Ho x Hne)). cbn. rewrite fn_lookup_insert_ne by done. apply Hf. by rewrite Hs in Hx.
  - rewrite Hn. change (nodes (put_crit s1 p Truncating) p) with (nodes s1 p). by rewrite N1.
  - intros x Hx. rewrite (proj1 (Ho x Hx)). by apply O1.
  - intros t th Ht Hx. rewrite Hths. by apply lookup_app_l_Some, T1.
  - intros _. exists (length (threads s1)). rewrite Hths. change (epochs (put_crit s1 p Truncating) p) with (epochs s p).
    rewrite He. exact (list_lookup_middle (threads s1) [] _ _ eq_refl).
Qed.

Lemma vote_step s0 s p T ps ep k base args j q :
  voting s0 s p T ps ep k base args j → NoDup ps → p ∉ ps → ps !! j = Some q → 0 ≤ p < size s0 →
  0 ≤ q < size s0 → rv_Term args = T → currentTerm (nodes s0 q) < T →
  log_ok (logs (nodes s0 q)) args = true →
  ∃ s', leads s s' ∧ voting s0 s' p T ps ep k base args (S j).
Proof.
  intros [Vs Vp Vt [An1 An2 An3 An4] Vl Ve Vw Vts [a Ha] Vf Vr] Hnd Hp Hj Hpr Hq HT Hlt Hlog.
  destruct (Vw j q Hj (Nat.le_refl _)) as [Hth Hnq]. set (tid := (base + j)%nat) in *.
  assert (Hqp : q ≠ p) by (intros ->; apply Hp; by eapply list_elem_of_lookup_2).
  assert (Htl : (tid < length (threads s))%nat) by by eapply lookup_lt_Some.
  rewrite <- HT in Hlt. pose proof (RequestVote_new_term 0 (nodes s0 q) args Hlt Hlog) as HV.
  destruct (RequestVote 0 (nodes s0 q) args) as [rq r] eqn:HR. destruct HV as (Hg & Hrt & Hqt & Hql).
  set (s1 := put_thread (put_node s q rq) tid (RVThread p q ep k args (RVReplied r))).
  assert (H1 : exec s (EDeliver tid 0) = Some (Ok s1)).
  { cbn. unfold exec_deliver. rewrite Hth, free_unlocked by (apply Vf; lia). by rewrite Hnq, HR. }
  assert (O1 : in_order s (EDeliver tid 0) = true) by (unfold in_order; cbn; by rewrite Hth).
  assert (N1 : nodes s1 p = nodes s p) by (cbn; by rewrite fn_lookup_insert_ne).
  assert (T1 : threads s1 !! tid = Some (RVThread p q ep k args (RVReplied r)))
    by (cbn; by rewrite list_lookup_insert_eq).
  set (s2 := put_thread s1 tid (RVThread p q ep k args (RVGot true))).
  assert (H2 : exec s1 (ECheck tid) = Some (Ok s2)).
  { cbn [exec]. unfold exec_check. rewrite T1. unfold alive. cbn [epochs s1].
    change (epochs s1 p) with (epochs s p). rewrite Ve, Nat.eqb_refl. unfold reply_is_newer.
    rewrite N1, (proj2 (Z.ltb_ge _ _)) by lia. by rewrite Hg. }
  assert (T2 : threads s2 !! tid = Some (RVThread p q ep k args (RVGot true))).
  { cbn. rewrite list_lookup_insert_eq; [done|]. by rewrite length_insert. }
  assert (HTP : rv_Term args = currentTerm (nodes s p)) by congruence.
  pose proof (tally_granted (nodes s p) args a HTP) as Htal.
  pose proof (tally_office s2 tid p q ep k args a T2 Ha Ve Vf ltac:(cbn; lia)) as Hto.
  change (nodes s2 p) with (nodes s1 p) in Hto. rewrite N1 in Hto.
  destruct (tally (nodes s p) args true a) as [[rp a'] won].
  destruct Htal as (Hpp & Hpt & Hrun & Hci & Hct & Hpl & Hlead & Hcand).
  destruct Hto as (s4 & L4 & Hs4 & Hf4 & He4 & Ha4 & N4p & N4 & C4 & T4 & W4).
  set (rp' := if won then office rp else rp) in *.
  assert (Hrp : peers rp' = peers rp ∧ currentTerm rp' = currentTerm rp ∧ running rp' = running rp ∧
    commitIndex rp' = commitIndex rp ∧ counter rp' = counter rp ∧ logs rp' = logs rp ∧
    role rp' = role rp) by (subst rp'; destruct won; [apply office_same|done]).
  destruct Hrp as (Op & Ot & Or & Oc & On & Ol & Oro).
  exists s4. split.
  { etrans; [exact (leads_step s _ s1 O1 H1)|].
    etrans; [exact (leads_step s1 (ECheck tid) s2 eq_refl H2)|exact L4]. }
  assert (Hkl : (k < length (campaigns s))%nat) by by eapply lookup_lt_Some.
  constructor.
  - by rewrite Hs4.
  - rewrite N4p. congruence.
  - rewrite N4p. congruence.
  - constructor; [rewrite N4p; congruence..|]. by rewrite Ha4.
  - intros q' Hq'. destruct (decide (q' = p)) as [->|Hne].
    { rewrite N4p, Ol, Hpl. by apply Vl. }
    rewrite N4 by done. cbn. destruct (decide (q' = q)) as [->|Hne'].
    + by rewrite fn_lookup_insert.
    + rewrite fn_lookup_insert_ne by done. by apply Vl.
  - by rewrite He4.
  - intros i q' Hi Hji. destruct (Vw i q' Hi ltac:(lia)) as [Hth' Hnq'].
    assert (Hne : q' ≠ q).
    { intros ->. assert (i = j) by (by eapply NoDup_lookup). lia. }
    assert (Hq'p : q' ≠ p) by (intros ->; apply Hp; by eapply list_elem_of_lookup_2).
    split.
    + apply T4; [lia|]. cbn. rewrite !list_lookup_insert_ne by lia. done.
    + rewrite N4 by done. cbn. by rewrite fn_lookup_insert_ne.
  - intros q' Hq'. destruct (decide (q' = p)) as [->|Hne]; [rewrite N4p; lia|].
    rewrite N4 by done. cbn. destruct (decide (q' = q)) as [->|Hne'].
    + rewrite fn_lookup_insert. lia.
    + rewrite fn_lookup_insert_ne by done. by apply Vts.
  - rewrite C4. rewrite list_lookup_insert_eq by done. by eexists.
  - done.
  - rewrite N4p, C4, list_lookup_insert_eq by done. unfold fresh_indices in *.
    destruct Vr as [(Hl & Hfr & ts & Hts)|(Hc & Hk & Hle)].
    { left. destruct (Hlead Hl) as [-> ->]. split; [done|]. split; [done|]. exists ts. apply T4.
      - intros ->. rewrite Hth in Hts. done.
      - cbn. rewrite !list_lookup_insert_ne; [done|..]; intros <-; rewrite Hth in Hts; done. }
    destruct (Hcand Hc) as [(Hl & Hm & ->)|(Hc' & -> & Hle' & ->)]; [left|right].
    { split; [by rewrite Oro|]. split; [by apply office_indices|by apply W4]. }
    rewrite Ha in Hk. injection Hk as ->. rewrite Oro. split; [done|]. split; [f_equal; lia|lia].
Qed.

Lemma collect s0 s p T ps ep k base args j :
  voting s0 s p T ps ep k base args j → (j ≤ length ps)%nat → NoDup ps → p ∉ ps →
  (∀ q, q ∈ ps → 0 ≤ q < size s0 ∧ currentTerm (nodes s0 q) < T ∧
                 log_ok (logs (nodes s0 q)) args = true) →
  rv_Term args = T → 0 ≤ p < size s0 →
  ∃ s', leads s s' ∧ voting s0 s' p T ps ep k base args (length ps).
Proof.
  intros HV Hj Hnd Hp Hq HT Hpr. remember (length ps - j)%nat as d eqn:Hd. revert s j HV Hj Hd.
  induction d as [|d IH]; intros s j HV Hj Hd.
  { exists s. split; [done|]. by replace (length ps) with j by lia. }
  destruct (lookup_lt_is_Some_2 ps j) as [q Hjq]; [lia|].
  destruct (Hq q) as (Hq1 & Hq2 & Hq3); [by eapply list_elem_of_lookup_2|].
  destruct (vote_step _ _ _ _ _ _ _ _ _ _ _ HV Hnd Hp Hjq Hpr Hq1 HT Hq2 Hq3) as (s1 & L1 & HV1).
  destruct (IH s1 (S j) HV1) as (s2 & L2 & HV2); [lia|lia|]. exists s2. split; [by etrans|done].
Qed.

Lemma others_spec rf q : q ∈ others rf ↔ 0 ≤ q < peers rf ∧ q ≠ me rf.
Proof.
  unfold others. rewrite list_elem_of_filter, elem_of_range. tauto.
Qed.

Lemma NoDup_others rf : NoDup (others rf).
Proof. apply NoDup_filter, NoDup_range. Qed.

Lemma length_others rf : 0 ≤ me rf < peers rf → Z.of_nat (length (others rf)) = peers rf - 1.
Proof.
  intros Hm. unfold others. set (m := me rf) in *. set (n := peers rf) in *.
  rewrite (range_app 0 m n), (range_app m (m + 1) n), (range_one m) by lia.
  rewrite !filter_app. cbn. rewrite decide_False by (intros []; done). cbn.
  rewrite !filter_all by (intros x Hx%elem_of_range; lia).
  rewrite length_app, !length_range. lia.
Qed.

(** The votes a candidate asks for as it enters doVote. *)
Lemma do_vote_voting s0 s p t l :
  stands s0 s p LoopVote Candidate t l → 0 ≤ p < size s0 → 2 ≤ size s0 →
  l = logs (nodes s0 p) → (∀ q, 0 ≤ q < size s0 → q ≠ p → currentTerm (nodes s0 q) ≤ t) →
  ∃ s', leads s s' ∧ voting s0 s' p t (others (nodes s p)) (epochs s p) (length (campaigns s))
    (length (threads s)) (mkRVArgs t p (len l) (lastLogTerm l)) 0.
Proof.
  intros HS Hp Hn Hlogs Hterms. pose proof HS as [Hs _ _ _ Hme Hpe Ht Hlo _ Hrest].
  destruct (do_vote_stands _ _ _ _ _ HS Hp) as (s' & L & HS' & Hths & Hcs & Hep).
  exists s'. split; [done|]. destruct HS' as [Hs' _ Han Hr' _ Hpe' Ht' Hlo' Hf' Hrest'].
  constructor; try done.
  - intros q Hq. destruct (decide (q = p)) as [->|Hne]; [congruence|]. by rewrite Hrest'.
  - intros i q Hi _. split.
    + rewrite Hths, lookup_app_r by lia. replace (length (threads s) + i - length (threads s))%nat with i by lia.
      unfold vote_threads, doVote. rewrite !list_lookup_fmap, Hi. cbn. by rewrite Ht, Hme, Hlo.
    + apply Hrest'. intros ->. apply list_elem_of_lookup_2, others_spec in Hi. lia.
  - intros q Hq. destruct (decide (q = p)) as [->|Hne]; [lia|]. rewrite Hrest' by done. by apply Hterms.
  - rewrite Hcs, lookup_app_r by lia. rewrite Nat.sub_diag. by eexists.
  - right. split; [done|]. rewrite Hcs, lookup_app_r by lia. rewrite Nat.sub_diag. split; [done|lia].
Qed.

(** [p] has just been elected, from [s]. *)
Record elected s s' (p : Z) : Prop := mkElected {
  el_leads : leads s s';
  el_size : size s' = size s;
  el_peer : 0 ≤ p < size s;
  el_role : role (nodes s' p) = Leader;
  el_anew : anew s' p;
  el_free : all_free s';
  el_indices : fresh_indices (nodes s' p);
  el_submit : ∃ tid, threads s' !! tid = Some (SubmitThread p (epochs s' p) SubmitNew);
  el_terms q : 0 ≤ q < size s → currentTerm (nodes s' q) ≤ currentTerm (nodes s' p);
  el_newer q : 0 ≤ q < size s → currentTerm (nodes s q) < currentTerm (nodes s' p);
  el_logs q : 0 ≤ q < size s → logs (nodes s' q) = logs (nodes s q);
}.

Lemma electable_free s :
  ReachableSync s → all_free s → 2 ≤ size s →
  (∀ q, 0 ≤ q < size s → currentTerm (nodes s q) < MaxInt64) →
  ∃ s' p, elected s s' p.
Proof.
  intros HR Hf Hn Hmax. pose proof (reachable_durable _ _ HR) as HD.
  destruct (Safety.reachable_inv _ HR) as [G HI].
  assert (Hsz : Z.of_nat (Z.to_nat (size s)) = size s) by lia.
  destruct (best_log (λ q, logs (nodes s q)) (Z.to_nat (size s))) as (p & Hp & Hbest); [lia|].
  destruct (highest (λ q, currentTerm (nodes s q)) (Z.to_nat (size s))) as (m & Hm & Hhigh); [lia|].
  rewrite Hsz in *. set (t := currentTerm (nodes s p)). set (M := currentTerm (nodes s m)).
  assert (Ht : 0 ≤ t) by apply (nk_term _ _ _ _ (inv_nodes _ _ HI p Hp)).
  assert (HtM : t ≤ M) by by apply Hhigh. assert (HM : M < MaxInt64) by by apply Hmax.
  destruct (restart_stands s p Hp (HD p) Hf) as (s1 & L1 & S1).
  destruct (campaigns_stands _ _ _ _ _ _ (Z.to_nat (M - t)) S1) as (s2 & r2 & L2 & Hr2 & S2);
    [done|done|done|fold t; lia|].
  fold t in S2. replace (t + Z.of_nat (Z.to_nat (M - t))) with M in S2 by lia.
  destruct (elect_stands _ _ _ _ _ _ S2 Hr2 Hp) as (s3 & L3 & S3); [lia|].
  destruct (do_vote_voting _ _ _ _ _ S3 Hp Hn) as (s4 & L4 & V4); [done|..].
  { intros q Hq _. specialize (Hhigh q Hq). fold M in Hhigh. lia. }
  pose proof (sd_me _ _ _ _ _ _ _ S3) as Hme. pose proof (sd_peers _ _ _ _ _ _ _ S3) as Hpe.
  destruct (collect _ _ _ _ _ _ _ _ _ _ V4) as (s5 & L5 & V5); [lia|apply NoDup_others| | |done|done|].
  { intros Hin%others_spec. lia. }
  { intros q [Hq _]%others_spec. rewrite Hpe in Hq. split; [done|]. split.
    - specialize (Hhigh q Hq). fold M in Hhigh. lia.
    - by apply log_le_ok, Hbest. }
  destruct V5 as [Vs _ Vt Va Vl Ve _ Vts _ Vf Vr]. exists s5, p.
  destruct Vr as [(Hlead & Hix & Hsub)|(_ & _ & Hle)]; [|rewrite length_others in Hle by lia; lia].
  constructor; try done.
  - etrans; [exact L1|]. etrans; [exact L2|]. etrans; [exact L3|]. by etrans; [exact L4|].
  - by rewrite Ve.
  - intros q Hq. rewrite Vt. by apply Vts.
  - intros q Hq. rewrite Vt. specialize (Hhigh q Hq). fold M in Hhigh. lia.
Qed.

Lemma electable s :
  ReachableSync s → 2 ≤ size s →
  (∀ q, 0 ≤ q < size s → currentTerm (nodes s q) < MaxInt64) →
  ∃ s' p, elected s s' p.
Proof.
  intros HR Hn Hmax. destruct (restart_all s HR) as (s1 & L1 & Hs1 & Hf1 & Hk1).
  destruct (electable_free s1) as (s2 & p & [L2 ? ? ? ? ? ? ? ? Hnew Hlo]);
    [by eapply leads_sync|done|lia| |].
  { intros q Hq. rewrite Hs1 in Hq. rewrite (proj1 (Hk1 q Hq)). by apply Hmax. }
  rewrite Hs1 in *. exists s2, p. constructor; try done.
  - by etrans.
  - intros q Hq. rewrite <- (proj1 (Hk1 q Hq)). by apply Hnew.
  - intros q Hq. rewrite <- (proj2 (Hk1 q Hq)). by apply Hlo.
Qed.

(** ** A lone peer *)

Record lone s : Prop := mkLone {
  ln_size : size s = 1;
  ln_threads : threads s = [];
  ln_role : role (nodes s 0) ≠ Leader;
  ln_me : me (nodes s 0) = 0;
  ln_peers : peers (nodes s 0) = 1;
  ln_free : crits s 0 = Free;
}.

Lemma lone_put_node s rf :
  lone s → role rf ≠ Leader → me rf = 0 → peers rf = 1 → lone (put_node s 0 rf).
Proof. intros [? ? ? ? ? ?] ? ? ?. constructor; cbn; rewrite ?fn_lookup_insert; done. Qed.

Lemma lone_put_loop s pc : lone s → lone (put_loop s 0 pc).
Proof. intros [? ? ? ? ? ?]. by constructor. Qed.

Lemma lone_step s e s' : lone s → exec s e = Some (Ok s') → lone s'.
Proof.
  intros HL. pose proof HL as [Hs Hth Hr Hm Hp Hf].
  assert (Hv : ∀ i, valid s i = true → i = 0).
  { intros i Hi. unfold valid in Hi. rewrite Hs in Hi. lia. }
  destruct e; cbn [exec];
    try (unfold exec_deliver, exec_lose, exec_check, exec_step_down, exec_rewind, exec_tally,
           exec_submit, exec_tick, exec_prepare, exec_append_done; rewrite Hth; done);
    (destruct (valid s i) eqn:Hvi; [apply Hv in Hvi as ->|done]); cbn [andb];
    try (destruct (unlocked s 0); [|done]).
  - unfold exec_loop_top. destruct (loops s 0); try done. intros [= <-]. by apply lone_put_loop.
  - unfold exec_elect. destruct (loops s 0); try done. intros [= <-].
    apply lone_put_node; [by apply lone_put_loop|done..].
  - unfold exec_do_vote. destruct (loops s 0); try done. intros [= <-].
    assert (Hnone : vote_threads s 0 = []).
    { unfold vote_threads, doVote, others. rewrite Hm, Hp. done. }
    constructor; cbn; rewrite ?Hnone, ?app_nil_r; done.
  - unfold exec_loop_end. destruct (loops s 0); try done. intros [= <-].
    apply lone_put_node; [by apply lone_put_loop|unfold election_loop_end; by case_match..].
  - intros [= <-]. unfold Start. destruct (decide (role (nodes s 0) = Leader)); [done|].
    by apply lone_put_node.
  - intros [= <-]. by apply lone_put_node.
  - unfold exec_restart. intros [= <-].
    constructor; cbn; rewrite ?fn_lookup_insert, ?Make_eq, ?Hs; done.
  - unfold exec_critical. by rewrite Hf.
Qed.

Lemma lone_reachable ok s : reachable ok s → size s = 1 → lone s.
Proof.
  induction 1 as [n boot Hn|s e s' HR IH _ He]; intros Hs.
  - cbn in Hs. subst n. constructor; cbn; try done;
      destruct (boot 0) as [[r1 r2] now]; by rewrite Make_eq.
  - eapply lone_step; [|exact He]. apply IH. by rewrite <- (exec_size _ _ _ He).
Qed.

Lemma lone_leads s s' : lone s → leads s s' → lone s'.
Proof.
  intros HL [es H]. revert s HL H. induction es as [|e es IH]; intros s HL H; cbn in H; [by simplify_eq|].
  destruct (in_order s e); [|done]. destruct (exec s e) as [[s1| |]|] eqn:He; try done.
  eapply IH; [|exact H]. by eapply lone_step.
Qed.

(** ** Theorem *)

Lemma lone_never_leads s s' p :
  ReachableSync s → leads s s' → 0 ≤ p < size s → role (nodes s' p) = Leader → 2 ≤ size s.
Proof.
  intros HR HL Hp Hr. destruct (decide (2 ≤ size s)) as [|Hlt]; [done|].
  assert (Hone : size s = 1) by lia. assert (H1 : lone s') by
    (eapply lone_leads; [by eapply lone_reachable|done]).
  replace p with 0 in Hr by lia. by destruct (ln_role _ H1).
Qed.

(** A leader can be elected whatever has happened: from every state of an
    execution without stale checks, some schedule that is in order elects a leader
    whose term no peer has passed, as long as no term counter is at its maximum;
    that is, when there are at least two peers. *)
Theorem leader_electable s :
  ReachableSync s → (∀ q, 0 ≤ q < size s → currentTerm (nodes s q) < MaxInt64) →
  (∃ es s' p, run in_order s es = Some s' ∧ 0 ≤ p < size s ∧ role (nodes s' p) = Leader ∧
     ∀ q, 0 ≤ q < size s → currentTerm (nodes s' q) ≤ currentTerm (nodes s' p)) ↔
  2 ≤ size s.
Proof.
  intros HR Hmax. split.
  - intros (es & s' & p & Hrun & Hp & Hlead & _). apply (lone_never_leads s s' p); eauto. by exists es.
  - intros Hn. destruct (electable s HR Hn Hmax) as (s' & p & [[es H] ? ? ? ? ? ? ? ? ? ?]).
    exists es, s', p. split; [done|]. split; [done|]. by split.
Qed.
End progress.
End Progress.
