(* ===== verification/RaftCommit.v ===== *)
(** * RaftCommit: the invariant behind commitment

    State machine safety needs more than RaftInv.v: which logs candidates stood
    for election with, how much of a leader's log each peer has acknowledged, and
    how much each leader has committed.  This file states that part of the
    invariant over a second ghost history and derives leader completeness from
    it.  It holds in the executions in which no message cuts off a follower's
    entries of the message's own term, as an overtaken message would. *)
From S2P Require Import Prelude Persister Raft RaftCluster RaftInv RaftInvLog.
From S2P Require Import RaftInvStep RaftSafety RaftProps.
Export Safety.

Module Commit.

Section commit.
Context {Cmd : Type}.
#[local] Notation Raft := (Raft.Raft Cmd).
#[local] Notation Entry := (LogEntry Cmd).
#[local] Notation Cluster := (Cluster.Cluster Cmd).
#[local] Notation Thread := (Cluster.Thread Cmd).

(** ** The ghost history *)

Record Marks := mkMarks {
  cand : Z → Z → option (list Entry);   (* term, candidate: its log *)
  ack : Z → Z → nat;                    (* peer, term: accepted length *)
  cmt : Z → nat;                        (* term: committed length *)
}.
#[export] Instance eta_marks : Eta Marks := λ H, mkMarks (cand H) (ack H) (cmt H).

Implicit Types (rf : Raft) (G : Ghost Cmd) (H : Marks) (s : Cluster) (l : list Entry).

(** The log the leader of [T] was elected with. *)
Definition base G H (T : Z) l : Prop := ∃ L, won G T = Some L ∧ cand H T L = Some l.

(** The first [k] entries of [T]'s log end with an entry of term [T]. *)
Definition proper G H (T : Z) (k : nat) : Prop :=
  ∃ l, base G H T l ∧ (length l < k ≤ length (canon G T))%nat.

(** Every leader between [T] and [hi] was elected with those entries ... *)
Definition sustained G H (T : Z) (k : nat) (hi : Z) : Prop :=
  ∀ U l, T < U < hi → base G H U l → take k (canon G T) `prefix_of` l.

(** ... and the log [l] has them unless one was not. *)
Definition retained G H (T : Z) (k : nat) (hi : Z) l : Prop :=
  sustained G H T k hi → take k (canon G T) `prefix_of` l.

(** The first [c] entries of a log have been committed by some leader of a term
    up to [hi]. *)
Definition covered G H (hi : Z) l (c : nat) : Prop :=
  c = 0%nat ∨ ∃ T, T ≤ hi ∧ (c ≤ cmt H T)%nat ∧ take c l = take c (canon G T).

Definition majority (n : Z) (P : Z → Prop) : Prop :=
  ∃ q, NoDup q ∧ (∀ x, x ∈ q → 0 ≤ x < n) ∧ n < 2 * len q ∧ ∀ x, x ∈ q → P x.

Definition elected_with G H (U L : Z) : Prop :=
  ∃ l ext, cand H U L = Some l ∧ canon G U = l ++ ext ∧ Forall (λ e, term e = U) ext.

(** What the vote of [y] for [c] in [U] says about the entries [y] had accepted:
    the candidate has them unless an earlier leader did not; or another peer won
    the term. *)
Definition vote_ok G H (y U c : Z) l : Prop :=
  (∃ d, d ≠ c ∧ won G U = Some d) ∨
  ∀ T k, T < U → proper G H T k → (k ≤ ack H y T)%nat → retained G H T k U l.

Definition commit_ok (n : Z) G H (T : Z) (c : nat) : Prop :=
  proper G H T c ∧ majority n (λ x, (c ≤ ack H x T)%nat).

Record global_ok (n : Z) G H : Prop := mkGlobal {
  g_cand U c l : cand H U c = Some l → Forall (λ e, term e < U) l ∧ log_sound G l;
  g_won U L : won G U = Some L → elected_with G H U L;
  g_ack y T : (ack H y T ≤ length (canon G T))%nat;
  g_vote y U c l : cand H U c = Some l → hist G y U = Some c → vote_ok G H y U c l;
  g_cmt T : (0 < cmt H T)%nat → commit_ok n G H T (cmt H T);
}.

(** Up to which term a leader may have overwritten what the peer accepted. *)
Definition horizon rf : Z :=
  if decide (votedFor rf = -1) then currentTerm rf else currentTerm rf + 1.

(** A peer that cannot win its term. *)
Definition unelectable G H (U i : Z) : Prop :=
  cand H U i = None ∨ ∃ d, d ≠ i ∧ won G U = Some d.

Record peer_ok G H (i : Z) rf (pc : LoopPC) : Prop := mkPeerOk {
  p_terms : Forall (λ e, term e ≤ currentTerm rf) (logs rf);
  p_cand : role rf = Candidate → cand H (currentTerm rf) i = Some (logs rf);
  p_cand_le U l : cand H U i = Some l → U ≤ currentTerm rf;
  p_hist_le y U : hist G y U = Some i → U ≤ currentTerm rf;
  p_ack_le T : (0 < ack H i T)%nat → T ≤ currentTerm rf;
  p_ack T k : proper G H T k → (k ≤ ack H i T)%nat →
    retained G H T k (horizon rf) (logs rf);
  p_match : role rf = Leader → ∀ p x, p ≠ i → slice_get (matchIndex rf) p = Ok x →
    x ≤ Z.of_nat (ack H p (currentTerm rf));
  p_self : role rf = Leader → ack H i (currentTerm rf) = length (logs rf);
  p_commit : covered G H (currentTerm rf) (logs rf) (Z.to_nat (commitIndex rf));
  p_loop : pc = LoopVote →
    role rf ≠ Leader ∧ (role rf = Candidate ∨ unelectable G H (currentTerm rf) i);
}.

(** A vote request carries the log its sender stands with. *)
Definition request_ok G H (o : Z) rf (pc : LoopPC) (args : RequestVoteArgs) : Prop :=
  rv_Term args ≤ currentTerm rf ∧
  (pc = LoopVote → role rf = Candidate → rv_Term args < currentTerm rf) ∧
  ∀ l, cand H (rv_Term args) o = Some l →
    (LastLogIndex args = len l ∧ LastLogTerm args = lastLogTerm l) ∨
    ∃ d, d ≠ o ∧ won G (rv_Term args) = Some d.

(** An AppendEntries message carries the rest of the leader's log, and what it
    calls committed is. *)
Definition append_ok G H (args : AppendEntriesArgs Cmd) : Prop :=
  (∃ l, base G H (ae_Term args) l ∧ len l ≤ PrevLogIndex args + len (Entries args)) ∧
  covered G H (ae_Term args) (canon G (ae_Term args)) (Z.to_nat (LeaderCommit args)).

(** The peer has accepted the message. *)
Definition acked H (p : Z) (args : AppendEntriesArgs Cmd) : Prop :=
  PrevLogIndex args + len (Entries args) ≤ Z.of_nat (ack H p (ae_Term args)).

Definition append_phase_ok G H (p : Z) (ph : AEPhase Cmd) : Prop :=
  match ph with
  | AESpawned | AEDone => True
  | AEPreparing args | AESent args => append_ok G H args
  | AEReplied args r | AEStale args r | AEChecked args r | AERewind args r _ => Success r = true → acked H p args
  | AEGot args ok => ok = true → acked H p args
  end.

Definition goroutine_ok s G H (th : Thread) : Prop :=
  match th with
  | RVThread o _ _ _ args _ => request_ok G H o (nodes s o) (loops s o) args
  | AEThread _ p _ ph => append_phase_ok G H p ph
  | SubmitThread _ _ _ => True
  end.

(** The command at [idx] (from 1) that some leader committed. *)
Definition chosen G H (idx : Z) (cmd : Cmd) : Prop :=
  ∃ T e, 1 ≤ idx ≤ Z.of_nat (cmt H T) ∧ canon G T !! Z.to_nat (idx - 1) = Some e ∧
         command e = cmd.

Record InvC s G H : Prop := mkInvC {
  ic_global : global_ok (size s) G H;
  ic_peers i : 0 ≤ i < size s → peer_ok G H i (nodes s i) (loops s i);
  ic_threads : Forall (goroutine_ok s G H) (threads s);
  ic_applied i m : m ∈ applied s i → chosen G H (Index m) (Command m);
}.

(** ** Growth of the histories *)

Record grown G H G' H' : Prop := mkGrown {
  gr_ext : ext G G';
  gr_cand U c l : cand H U c = Some l → cand H' U c = Some l;
  gr_ack y T : (ack H y T ≤ ack H' y T)%nat;
  gr_cmt T : (cmt H T ≤ cmt H' T)%nat;
}.

Lemma grown_refl G H : grown G H G H.
Proof. by constructor. Qed.

Lemma grown_ext G H G' : ext G G' → grown G H G' H.
Proof. by constructor. Qed.

Lemma take_canon G G' T k :
  ext G G' → (k ≤ length (canon G T))%nat → take k (canon G' T) = take k (canon G T).
Proof.
  intros HE Hk. destruct (ext_canon _ _ HE T) as [l ->]. by rewrite take_app_le.
Qed.

Lemma base_grown G H G' H' T l : grown G H G' H' → base G H T l → base G' H' T l.
Proof. intros [[] ? ? ?] (L & ? & ?). exists L. auto. Qed.

Lemma base_inj G H T l l' : base G H T l → base G H T l' → l = l'.
Proof. intros (L & H1 & H2) (L' & H1' & H2'). congruence. Qed.

(** The base of a term that has entries is old. *)
Lemma base_back n G H G' H' T l :
  ghost_ok n G → global_ok n G H → grown G H G' H' → (0 < length (canon G T))%nat →
  base G' H' T l → base G H T l.
Proof.
  intros HG HL HW Hc Hb. destruct (won G T) as [L|] eqn:HL0.
  - destruct (g_won _ _ _ HL T L HL0) as (l0 & e0 & Hl0 & _).
    assert (Hb0 : base G H T l0) by (by exists L).
    by rewrite (base_inj _ _ _ _ _ Hb (base_grown _ _ _ _ _ _ HW Hb0)).
  - rewrite (gk_canon _ _ HG T HL0) in Hc. cbn in Hc. lia.
Qed.

Lemma proper_back n G H G' H' T k :
  ghost_ok n G → global_ok n G H → grown G H G' H' → (k ≤ length (canon G T))%nat →
  proper G' H' T k → proper G H T k.
Proof.
  intros HG HL HW Hk (l & Hb & Hlt & _). exists l. split; [|done].
  eapply base_back; eauto. lia.
Qed.

Lemma proper_grown G H G' H' T k : grown G H G' H' → proper G H T k → proper G' H' T k.
Proof.
  intros HW (l & Hb & Hlt & Hle). exists l. split; [by eapply base_grown|]. split; [done|].
  destruct (ext_canon _ _ (gr_ext _ _ _ _ HW) T) as [e ->]. rewrite length_app. lia.
Qed.

Lemma retained_grown G H G' H' T k hi hi' l :
  grown G H G' H' → (k ≤ length (canon G T))%nat → hi ≤ hi' →
  retained G H T k hi l → retained G' H' T k hi' l.
Proof.
  intros HW Hk Hhi Hr HS. rewrite (take_canon _ _ _ _ (gr_ext _ _ _ _ HW) Hk).
  apply Hr. intros U b HU Hb. rewrite <- (take_canon _ _ _ _ (gr_ext _ _ _ _ HW) Hk).
  apply (HS U b); [lia|]. by eapply base_grown.
Qed.

Lemma commit_ok_grown n G H G' H' T c :
  grown G H G' H' → commit_ok n G H T c → commit_ok n G' H' T c.
Proof.
  intros HW [Hp (q & ? & ? & ? & Hq)]. split; [by eapply proper_grown|].
  exists q. do 3 (split; [done|]). intros x Hx. specialize (Hq x Hx).
  pose proof (gr_ack _ _ _ _ HW x T). lia.
Qed.

Lemma cmt_le n G H T : global_ok n G H → (cmt H T ≤ length (canon G T))%nat.
Proof.
  intros HL. destruct (decide (cmt H T = 0%nat)) as [->|]; [lia|].
  destruct (g_cmt _ _ _ HL T) as [(l & _ & _ & Hle) _]; [lia|done].
Qed.

Lemma covered_grown n G H G' H' hi l c :
  global_ok n G H → grown G H G' H' → covered G H hi l c → covered G' H' hi l c.
Proof.
  intros HL HW [->|(T & HT & Hc & Ht)]; [by left|right]. exists T.
  pose proof (gr_cmt _ _ _ _ HW T). pose proof (cmt_le _ _ _ T HL). split; [done|]. split; [lia|].
  rewrite (take_canon _ _ _ _ (gr_ext _ _ _ _ HW)); [done|lia].
Qed.

Lemma covered_canon n G H G' H' hi T c :
  global_ok n G H → grown G H G' H' → (c ≤ length (canon G T))%nat →
  covered G H hi (canon G T) c → covered G' H' hi (canon G' T) c.
Proof.
  intros HL HW Hle Hc. destruct (covered_grown _ _ _ _ _ _ _ _ HL HW Hc) as [->|(U & ? & ? & Ht)];
    [by left|right]. exists U. split; [done|]. split; [done|].
  by rewrite (take_canon _ _ _ _ (gr_ext _ _ _ _ HW) Hle).
Qed.

(** Only the first [c] entries matter, and a later bound is weaker. *)
Lemma covered_take G H hi hi' l l' c :
  take c l = take c l' → hi ≤ hi' → covered G H hi l c → covered G H hi' l' c.
Proof.
  intros Ht Hhi [->|(T & ? & ? & ?)]; [by left|right]. exists T. split; [lia|]. split; [done|congruence].
Qed.

Lemma chosen_grown n G H G' H' idx cmd :
  global_ok n G H → grown G H G' H' → chosen G H idx cmd → chosen G' H' idx cmd.
Proof.
  intros HL HW (T & e & Hi & He & Hc). exists T, e.
  pose proof (gr_cmt _ _ _ _ HW T). split; [lia|]. split; [|done].
  destruct (ext_canon _ _ (gr_ext _ _ _ _ HW) T) as [e' ->].
  rewrite lookup_app_l; [done|]. by eapply lookup_lt_Some.
Qed.

Lemma vote_ok_grown n G H G' H' y U c l :
  ghost_ok n G → global_ok n G H → grown G H G' H' →
  (∀ T, T < U → ack H' y T = ack H y T) → vote_ok G H y U c l → vote_ok G' H' y U c l.
Proof.
  intros HG HL HW Ha [(d & Hd & Hw)|Hv].
  { left. exists d. split; [done|]. by apply (ext_won _ _ (gr_ext _ _ _ _ HW)). }
  right. intros T k HT Hp Hk. rewrite Ha in Hk by done.
  pose proof (g_ack _ _ _ HL y T) as Hle.
  apply (proper_back _ _ _ _ _ _ _ HG HL HW) in Hp; [|lia].
  eapply retained_grown; [done|lia|reflexivity|auto].
Qed.

Lemma append_ok_grown n G H G' H' o args :
  global_ok n G H → grown G H G' H' → msg_ok G o args → append_ok G H args →
  append_ok G' H' args.
Proof.
  intros HL HW HM [(l & Hb & Hlen) Hc]. split.
  - exists l. split; [by eapply base_grown|done].
  - eapply covered_canon; [done..| |done].
    destruct HM as [_ _ _ Hcm (pre & Hpre & _ & Hpf)].
    apply prefix_length in Hpf. rewrite length_app in Hpf. unfold len in *. lia.
Qed.

Lemma acked_grown G H G' H' p args : grown G H G' H' → acked H p args → acked H' p args.
Proof. unfold acked. intros HW ?. pose proof (gr_ack _ _ _ _ HW p (ae_Term args)). lia. Qed.

Lemma append_phase_grown n G H G' H' o p ph :
  global_ok n G H → grown G H G' H' → ae_phase_ok G o ph → append_phase_ok G H p ph →
  append_phase_ok G' H' p ph.
Proof.
  intros HL HW. destruct ph; cbn; eauto using acked_grown, append_ok_grown.
Qed.

(** ** Terms along a log *)

Lemma canon_terms n G H T e k :
  ghost_ok n G → global_ok n G H → canon G T !! k = Some e → term e ≤ T.
Proof.
  intros HG HL He. destruct (won G T) as [L|] eqn:HW.
  - destruct (g_won _ _ _ HL T L HW) as (l & x & Hl & Hc & Hx). rewrite Hc in He.
    apply lookup_app_Some in He as [He|[_ He]].
    + destruct (g_cand _ _ _ HL _ _ _ Hl) as [Hf _].
      eapply Forall_lookup_1 in Hf; [|done]. cbn in Hf. lia.
    + eapply Forall_lookup_1 in Hx; [|done]. cbn in Hx. lia.
  - by rewrite (gk_canon _ _ HG T HW) in He.
Qed.

Lemma log_won n G l k e :
  ghost_ok n G → log_sound G l → l !! k = Some e → is_Some (won G (term e)).
Proof.
  intros HG Hl He. destruct (won G (term e)) eqn:HW; [by eexists|].
  pose proof (Hl _ _ He) as Hp. rewrite (gk_canon _ _ HG _ HW) in Hp.
  apply prefix_length in Hp. rewrite length_take in Hp.
  apply lookup_lt_Some in He. change (length []) with 0%nat in Hp. lia.
Qed.

Lemma log_sorted n G H l a b ea eb :
  ghost_ok n G → global_ok n G H → log_sound G l → (a ≤ b)%nat →
  l !! a = Some ea → l !! b = Some eb → term ea ≤ term eb.
Proof.
  intros HG HL Hl Hab Ha Hb. pose proof (Hl _ _ Hb) as Hp.
  eapply (canon_terms n G H (term eb) ea a); [done..|].
  eapply prefix_lookup_Some; [|exact Hp]. rewrite lookup_take_lt by lia. done.
Qed.

(** The last entry of a proper prefix has its leader's term. *)
Lemma proper_last n G H T k :
  global_ok n G H → proper G H T k →
  ∃ e, canon G T !! (k - 1)%nat = Some e ∧ term e = T ∧ (0 < k)%nat.
Proof.
  intros HL (l & (L & HW & Hl) & Hlt & Hle).
  destruct (g_won _ _ _ HL T L HW) as (l0 & x & Hl0 & Hc & Hx).
  assert (l0 = l) as -> by congruence.
  destruct (lookup_lt_is_Some_2 (canon G T) (k - 1)) as [e He]; [lia|].
  exists e. split; [done|]. split; [|lia]. rewrite Hc in He.
  rewrite lookup_app_r in He by lia. by eapply Forall_lookup_1 in Hx.
Qed.

Lemma lastLogTerm_lookup l e : l !! (length l - 1)%nat = Some e → lastLogTerm l = term e.
Proof.
  intros He. unfold lastLogTerm. rewrite last_lookup.
  replace (Nat.pred (length l)) with (length l - 1)%nat by lia. by rewrite He.
Qed.

(** ** A granted vote *)

(** A candidate whose log is at least as up to date as one that has a proper
    prefix has it too, unless a leader in between was elected without it. *)
Lemma up_to_date n G H T k U ly l args :
  ghost_ok n G → global_ok n G H → log_sound G ly → log_sound G l →
  Forall (λ e, term e < U) l → proper G H T k → take k (canon G T) `prefix_of` ly →
  LastLogIndex args = len l → LastLogTerm args = lastLogTerm l → log_ok ly args = true →
  retained G H T k U l.
Proof.
  intros HG HL Hly Hl HU Hp Hpre Hidx Hlt Hok HS.
  destruct (proper_last _ _ _ _ _ HL Hp) as (e & He & HeT & Hk0).
  destruct Hp as (bT & HbT & Hlo & Hhi).
  assert (HeL : ly !! (k - 1)%nat = Some e).
  { eapply prefix_lookup_Some; [|exact Hpre]. by rewrite lookup_take_lt by lia. }
  pose proof (lookup_lt_Some _ _ _ HeL) as Hlen.
  destruct (lookup_lt_is_Some_2 ly (length ly - 1)) as [ey Hey]; [lia|].
  pose proof (log_sorted n G H ly (k - 1) (length ly - 1) e ey HG HL Hly ltac:(lia) HeL Hey) as HTy.
  pose proof (lastLogTerm_lookup _ _ Hey) as Hty.
  assert (HlastT : T ≤ lastLogTerm ly) by lia.
  assert (HT1 : 1 ≤ T). { destruct HbT as (L & HW & _). by apply (gk_won _ _ HG T L HW). }
  unfold log_ok in Hok. rewrite Hidx, Hlt in Hok.
  (* the candidate's log is not empty *)
  assert (Hne : (0 < length l)%nat).
  { destruct l; [|cbn; lia]. change (lastLogTerm []) with 0 in Hok.
    apply orb_prop in Hok as [?%Z.ltb_lt|[?%Z.eqb_eq _]%andb_prop]; lia. }
  destruct (lookup_lt_is_Some_2 l (length l - 1)) as [el Hel]; [lia|].
  pose proof (lastLogTerm_lookup _ _ Hel) as Htl.
  pose proof (Hl _ _ Hel) as Hlc. rewrite take_ge in Hlc by lia.
  apply orb_prop in Hok as [Hlt'%Z.ltb_lt|[Heq%Z.eqb_eq Hle%Z.leb_le]%andb_prop].
  - destruct (log_won _ _ _ _ _ HG Hl Hel) as [L' HW'].
    destruct (g_won _ _ _ HL _ _ HW') as (b & x & Hb & Hcan & Hx).
    assert (Hin : take k (canon G T) `prefix_of` b).
    { apply (HS (term el)); [|by exists L'].
      eapply Forall_lookup_1 in HU; [|exact Hel]. cbn in HU. lia. }
    assert (Hbl : (length b < length l)%nat).
    { destruct (Nat.lt_ge_cases (length b) (length l)); [done|exfalso].
      assert (Hbe : b !! (length l - 1)%nat = Some el).
      { pose proof (prefix_lookup_Some _ _ _ _ Hel Hlc) as Hc2. rewrite Hcan in Hc2.
        by rewrite lookup_app_l in Hc2 by lia. }
      destruct (g_cand _ _ _ HL _ _ _ Hb) as [Hf _].
      eapply Forall_lookup_1 in Hf; [|exact Hbe]. cbn in Hf. lia. }
    destruct (prefix_weak_total b l (canon G (term el))) as [?|Hlb]; [|done|by etrans|].
    + rewrite Hcan. by eexists.
    + apply prefix_length in Hlb. lia.
  - pose proof (Hly _ _ Hey) as Hyc. rewrite take_ge in Hyc by lia.
    rewrite <- Hty, Heq, Htl in Hyc. etrans; [exact Hpre|].
    destruct (prefix_weak_total ly l (canon G (term el))) as [?|Hll]; [done..|].
    apply prefix_length in Hll as Hll'. unfold len in Hle.
    destruct Hll as [z Hz]. assert (z = []) as ->.
    { destruct z; [done|]. rewrite Hz, length_app in Hle. cbn in Hle. lia. }
    rewrite app_nil_r in Hz. by subst.
Qed.

(** ** Leader completeness *)

(** What a leader committed is in the log of every later leader. *)
Lemma committed_kept n G H T U l :
  1 ≤ n → ghost_ok n G → global_ok n G H → (0 < cmt H T)%nat → T < U → base G H U l →
  take (cmt H T) (canon G T) `prefix_of` l.
Proof.
  intros Hn HG HL Hc. revert l. set (c := cmt H T) in *.
  assert (Hind : ∀ m : nat, ∀ U l, U ≤ T + Z.of_nat m → T < U → base G H U l →
    take c (canon G T) `prefix_of` l); [|intros l HU; by apply (Hind (Z.to_nat (U - T))); lia].
  clear U. induction m as [|m IH]; intros U l Hm HU Hb; [lia|].
  destruct (g_cmt _ _ _ HL T Hc) as [Hp (q & Hqd & Hqr & Hql & Hqa)].
  destruct Hb as (L & HW & Hl).
  destruct (gk_won _ _ HG _ _ HW) as (_ & _ & (q' & Hqd' & Hqr' & Hql' & Hqh)).
  destruct (quorum_intersect n q q') as (y & Hy & Hy'); try done; [lia|].
  destruct (g_vote _ _ _ HL y U L l Hl (Hqh y Hy')) as [(d & Hd & HWd)|Hv]; [congruence|].
  apply (Hv T c HU Hp (Hqa y Hy)). intros V lv HV Hbv. apply (IH V); [lia|lia|done].
Qed.

(** Two committed prefixes are prefixes of one another. *)
Lemma chosen_agree n G H idx c1 c2 :
  1 ≤ n → ghost_ok n G → global_ok n G H →
  chosen G H idx c1 → chosen G H idx c2 → c1 = c2.
Proof.
  intros Hn HG HL.
  assert (Hlt : ∀ T1 T2 e1 e2, T1 < T2 → 1 ≤ idx ≤ Z.of_nat (cmt H T1) →
    canon G T1 !! Z.to_nat (idx - 1) = Some e1 → canon G T2 !! Z.to_nat (idx - 1) = Some e2 →
    (0 < cmt H T2)%nat → e1 = e2).
  { intros T1 T2 e1 e2 HT Hi H1 H2 Hc2.
    destruct (g_cmt _ _ _ HL T2 Hc2) as [(b & Hb & _) _].
    pose proof (committed_kept n G H T1 T2 b Hn HG HL ltac:(lia) HT Hb) as Hp.
    destruct Hb as (L & HW & Hl). destruct (g_won _ _ _ HL _ _ HW) as (b' & x & Hb' & Hcan & _).
    assert (b' = b) as -> by congruence.
    assert (H1' : take (cmt H T1) (canon G T1) !! Z.to_nat (idx - 1) = Some e1).
    { rewrite lookup_take_lt by lia. done. }
    pose proof (prefix_lookup_Some _ _ _ _ H1' Hp) as Hb1.
    rewrite Hcan, lookup_app_l in H2 by (by eapply lookup_lt_Some). congruence. }
  intros (T1 & e1 & Hi1 & H1 & <-) (T2 & e2 & Hi2 & H2 & <-).
  destruct (Z.lt_trichotomy T1 T2) as [HT|[->|HT]].
  - by rewrite (Hlt T1 T2 e1 e2) by (done || lia).
  - congruence.
  - by rewrite (Hlt T2 T1 e2 e1) by (done || lia).
Qed.
End commit.
Arguments Marks : clear implicits.
End Commit.
