(* ===== verification/RaftReplicate.v ===== *)
(** * RaftReplicate: a command can always be committed

    From every state of an execution without stale checks, some schedule that is
    in order elects a leader (RaftProgress.v), gives it a command, and brings its
    log to one peer after the other, in at most two rounds each: a peer that
    rejects the first message gets the whole log.  When all have acknowledged, the
    commit rule (RaftCommitRule.v) commits the command and it is applied. *)
From S2P Require Import Prelude Persister Raft RaftCluster RaftInv RaftInvLog RaftSafety.
From S2P Require Import RaftProps RaftIndices RaftCommit RaftCommitRule RaftProgress.

Module Replicate.
Import RaftProps Indices CommitRule Progress.

Section replicate.
Context {Cmd : Type}.
#[local] Notation Raft := (Raft.Raft Cmd).
#[local] Notation Cluster := (Cluster.Cluster Cmd).
#[local] Notation Event := (Cluster.Event Cmd).
#[local] Notation Thread := (Cluster.Thread Cmd).
Implicit Types (rf : Raft) (s : Cluster) (args : AppendEntriesArgs Cmd).

(** ** Steps *)

Lemma sync_step s e s' :
  ReachableSync s → in_order s e = true → exec s e = Some (Ok s') → leads s s' ∧ ReachableSync s'.
Proof.
  intros HR Hok He. pose proof (leads_step s e s' Hok He) as HL.
  split; [done|by eapply leads_sync].
Qed.

(** ** One message *)

(** [rf'] differs from [rf] in the two index arrays and the commit index only. *)
Record same_log rf rf' : Prop := mkSameLog {
  sl_me : me rf' = me rf;
  sl_peers : peers rf' = peers rf;
  sl_term : currentTerm rf' = currentTerm rf;
  sl_role : role rf' = role rf;
  sl_running : running rf' = running rf;
  sl_logs : logs rf' = logs rf;
}.

#[export] Instance same_log_preorder : PreOrder same_log.
Proof. split; [by constructor|]. intros a b c [] []. constructor; congruence. Qed.

Lemma AppendEntries_answer now rf args rf' r msgs :
  AppendEntries now rf args = Ok (rf', r, msgs) → currentTerm rf ≤ ae_Term args →
  aer_Term r = ae_Term args ∧ currentTerm rf' = ae_Term args ∧
  (Success r = false → logs rf' = logs rf ∧ 0 < PrevLogIndex args).
Proof.
  intros (rf0 & k & Hc & Hr & H)%AppendEntries_inv Hle.
  destruct (check_append_inv _ _ _ _ _ _ Hc) as
    [(Hlt & _)|[(_ & Hs & -> & -> & Hpos & _)|(_ & Hs & -> & -> & _)]]; [lia|..]; rewrite Hs in *.
  - destruct H as [_ ->]. by rewrite Hr.
  - destruct H as (rf1 & Ha & ->). apply accept_entries_inv in Ha as (_ & _ & ->). by rewrite Hr.
Qed.

(** When every other peer holds the whole log, which ends in an entry of the
    leader's term, all of it is to be committed. *)
Lemma all_acked_target rf e :
  0 ≤ me rf < peers rf → 2 ≤ peers rf → 0 ≤ commitIndex rf ≤ len (logs rf) →
  last (logs rf) = Some e → term e = currentTerm rf →
  (∀ x, 0 ≤ x < peers rf → x ≠ me rf → slice_get (matchIndex rf) x = Ok (len (logs rf))) →
  commit_target rf = len (logs rf).
Proof.
  intros Hme Hn Hci Hlast He Hall. pose proof (commit_target_bounds rf Hci).
  assert (Hpos : (0 < length (logs rf))%nat) by (destruct (logs rf); [done|cbn; lia]).
  assert (Hin : len (logs rf) - 1 ∈ filter (committable rf) (range 0 (len (logs rf)))).
  { apply list_elem_of_filter. split; [|apply elem_of_range; unfold len; lia].
    assert (Hget : slice_get (logs rf) (len (logs rf) - 1) = Ok e).
    { apply slice_get_Ok. rewrite last_lookup in Hlast. unfold len. split; [lia|].
      by replace (Z.to_nat (Z.of_nat (length (logs rf)) - 1)) with (Nat.pred (length (logs rf))) by lia. }
    unfold committable. rewrite Hget, He, Z.leb_refl. cbn [andb].
    apply Is_true_true, Z.ltb_lt.
    assert (Hsub : (length (others rf) ≤ length (holders rf (len (logs rf) - 1)))%nat).
    { apply submseteq_length, NoDup_submseteq; [apply NoDup_others|].
      intros x [Hx Hxm]%others_spec. apply list_elem_of_filter. split; [|by apply elem_of_range].
      unfold holds. rewrite (proj2 (Z.eqb_neq _ _)) by done. rewrite Hall by done. cbn [negb andb].
      apply Is_true_true, Z.ltb_lt. lia. }
    pose proof (length_others rf Hme). unfold len at 1. lia. }
  pose proof (largest_ge (commitIndex rf) _ _ Hin) as Hge. unfold commit_target in *. lia.
Qed.

(** The tally of an acknowledgement, at a leader whose arrays have the right size. *)
Lemma append_done_acked rf q args rf' msgs e :
  append_done rf q args true = Ok (rf', msgs) →
  role rf = Leader → ae_Term args = currentTerm rf →
  0 ≤ me rf < peers rf → 2 ≤ peers rf → len (matchIndex rf) = peers rf →
  0 ≤ commitIndex rf ≤ len (logs rf) → last (logs rf) = Some e → term e = currentTerm rf →
  same_log rf rf' ∧ commitIndex rf ≤ commitIndex rf' ∧
  apply_range (logs rf) (commitIndex rf) (commitIndex rf') = Ok msgs ∧
  (∀ x, slice_get (matchIndex rf') x =
     if decide (x = q) then Ok (PrevLogIndex args + len (Entries args)) else slice_get (matchIndex rf) x) ∧
  ((∀ x, 0 ≤ x < peers rf → x ≠ me rf → slice_get (matchIndex rf') x = Ok (len (logs rf))) →
   commitIndex rf' = len (logs rf)).
Proof.
  intros H Hr HT Hme Hn Hmt Hci Hlast He. unfold append_done in H.
  rewrite HT, Z.eqb_refl, bool_decide_eq_true_2 in H by done. cbn [andb] in H. mbind_inv H.
  rename a into mt. pose proof (slice_set_inv _ _ _ _ E) as [_ Ha].
  set (rf1 := rf <| matchIndex := mt |>) in *.
  destruct (commit_loop_target rf1) as (msgs' & Hc & Hm); [by subst rf1; cbn; rewrite Ha, len_insert|done|].
  change (len (logs rf)) with (len (logs rf1)) in H. cbn in Hc, H. rewrite Hc in H. injection H as <- <-.
  split; [done|]. split; [apply (commit_target_bounds rf1 Hci)|]. split; [done|].
  split; [intros x; by apply slice_get_set|].
  exact (all_acked_target rf1 e Hme Hn Hci Hlast He).
Qed.

(** ** One message, step by step *)

(** The slots of the leader's [nextIndex] are in bounds. *)
Definition slots s (p : Z) : Prop :=
  Forall (λ x, 1 ≤ x ≤ len (logs (nodes s p)) + 1) (nextIndex (nodes s p)).

(** From [s] to [s'] the leader [p] changed its next indices at most, and of the
    other peers only [q] took a step, within the leader's term. *)
Record quiet (p q : Z) (tS : nat) s s' : Prop := mkQuiet {
  qt_leads : leads s s';
  qt_size : size s' = size s;
  qt_epoch : epochs s' p = epochs s p;
  qt_log : same_log (nodes s p) (nodes s' p);
  qt_match : matchIndex (nodes s' p) = matchIndex (nodes s p);
  qt_commit : commitIndex (nodes s' p) = commitIndex (nodes s p);
  qt_applied : applied s' p = applied s p;
  qt_submit : threads s' !! tS = threads s !! tS;
  qt_term : currentTerm (nodes s' q) ≤ Z.max (currentTerm (nodes s q)) (currentTerm (nodes s p));
  qt_rest x : x ≠ p → x ≠ q → nodes s' x = nodes s x;
  qt_free : all_free s → all_free s';
  qt_slots : slots s p → slots s' p;
}.

#[export] Instance quiet_preorder p q tS : PreOrder (quiet p q tS).
Proof.
  split; [intros s; constructor; try done; lia|]. intros s1 s2 s3 [] [].
  constructor; try congruence; try (by etrans); auto.
  - destruct qt_log0. rewrite sl_term0 in *. lia.
  - intros x Hp Hq. by rewrite qt_rest1, qt_rest0.
Qed.

(** The goroutine [tid] of [p] brings a message to [q]. *)
Definition at_phase s (p q : Z) (tid : nat) (ph : AEPhase Cmd) : Prop :=
  threads s !! tid = Some (AEThread p q (epochs s p) ph).

Lemma alive_epoch s p : alive s p (epochs s p) = true.
Proof. by apply Nat.eqb_eq. Qed.

Lemma at_put s p q tid ph ph' :
  at_phase s p q tid ph →
  <[tid := AEThread p q (epochs s p) ph']> (threads s) !! tid = Some (AEThread p q (epochs s p) ph').
Proof. intros H. apply list_lookup_insert_eq. by eapply lookup_lt_Some. Qed.

(** The heartbeat goroutine of [p]. *)
Definition beats s (p : Z) (tS : nat) : Prop :=
  threads s !! tS = Some (SubmitThread p (epochs s p) SubmitLoop).

Lemma beats_other s p q tid ph tS : at_phase s p q tid ph → beats s p tS → tid ≠ tS.
Proof. intros H1 H2 ->. unfold at_phase, beats in *. congruence. Qed.

Lemma tick_quiet s p q tS :
  beats s p tS →
  running (nodes s p) = true → role (nodes s p) = Leader → q ∈ others (nodes s p) →
  ∃ s' tid, quiet p q tS s s' ∧ nodes s' = nodes s ∧ at_phase s' p q tid AESpawned.
Proof.
  intros Hth Hrun Hr [i Hi]%list_elem_of_lookup.
  set (ths := (λ x, AEThread p x (epochs s p) AESpawned) <$> others (nodes s p) : list Thread).
  assert (He : exec s (ETick tS) = Some (Ok (spawn s ths))).
  { cbn. unfold exec_tick. rewrite Hth, alive_epoch. unfold tick_continues. by rewrite Hrun, Hr. }
  exists (spawn s ths), (length (threads s) + i)%nat. split; [|split; [done|]].
  - constructor; try done; [exact (leads_step s (ETick tS) _ eq_refl He)|..|cbn; lia].
    cbn. unfold beats in Hth. rewrite Hth. by apply lookup_app_l_Some.
  - unfold at_phase. cbn. rewrite lookup_app_r by lia.
    replace (length (threads s) + i - length (threads s))%nat with i by lia.
    unfold ths. by rewrite list_lookup_fmap, Hi.
Qed.

Lemma may_lock_free s p : all_free s → 0 ≤ p < size s → may_lock s p (epochs s p) = true.
Proof. intros Hf Hp. unfold may_lock. by rewrite alive_epoch, free_unlocked by by apply Hf. Qed.

(** A leader without critical section has a slot for every peer. *)
Lemma leader_indices s p :
  ReachableSync s → all_free s → 0 ≤ p < size s → role (nodes s p) = Leader →
  len (nextIndex (nodes s p)) = size s ∧ len (matchIndex (nodes s p)) = size s.
Proof.
  intros HR Hf Hp Hr. pose proof (ix_peers _ (reachable_ix _ HR) p Hp) as HP.
  rewrite (Hf p Hp) in HP. split; [apply (ix_next _ _ _ _ _ _ HP)|apply (ix_match _ _ _ _ _ _ HP)];
    try done; by right.
Qed.

Lemma prepare_quiet s p q tid tS :
  ReachableSync s → all_free s → slots s p → 0 ≤ p < size s → 0 ≤ q < size s →
  at_phase s p q tid AESpawned → beats s p tS → role (nodes s p) = Leader → q ≠ p →
  ∃ s' args, quiet p q tS s s' ∧ at_phase s' p q tid (AESent args) ∧ nodes s' q = nodes s q ∧
    prepare_append (nodes s p) q = Ok args.
Proof.
  intros HR Hf Hsl Hp Hq Hat Hb Hr Hqp. pose proof (beats_other _ _ _ _ _ _ Hat Hb) as Hne.
  assert (Hok : in_order s (EPrepare tid) = true).
  { unfold in_order, lock_check_holds. rewrite Hat. cbn. by rewrite Hr. }
  destruct (leader_indices s p HR Hf Hp Hr) as [Hnx _].
  destruct (slice_get_is_Ok (nextIndex (nodes s p)) q) as [x Hx]; [lia|].
  assert (Hb1 : 1 ≤ x ≤ len (logs (nodes s p)) + 1).
  { apply slice_get_Ok in Hx as [_ Hx]. exact (Forall_lookup_1 _ _ _ _ Hsl Hx). }
  destruct (prepare_append_Ok _ _ _ Hx Hb1) as [args E].
  pose proof (prepare_append_inv _ _ _ E) as (_ & Hle & Hen & _).
  set (s1 := put_crit (put_thread s tid (AEThread p q (epochs s p) (AEPreparing args))) p (Sending tid)).
  assert (H1 : exec s (EPrepare tid) = Some (Ok s1)).
  { cbn. unfold exec_prepare. rewrite Hat, may_lock_free by done. by rewrite E. }
  destruct (set_next_Ok (nodes s p) q (PrevLogIndex args + len (Entries args) + 1)) as [rf Hrf]; [lia|].
  pose proof (set_next_inv _ _ _ _ Hrf) as [_ Hrf'].
  set (s2 := put_crit (put_thread (put_node s1 p rf) tid (AEThread p q (epochs s p) (AESent args))) p Free).
  assert (H2 : exec s1 (ECritical p) = Some (Ok s2)).
  { cbn. change (valid s1 p) with (valid s p). rewrite valid_true by done. unfold exec_critical. cbn.
    rewrite fn_lookup_insert, list_lookup_insert_eq by by eapply lookup_lt_Some.
    unfold advance_next. by rewrite Hrf. }
  exists s2, args. split; [|split; [|split; [by cbn; rewrite fn_lookup_insert_ne|done]]].
  - constructor; cbn; rewrite ?fn_lookup_insert, ?Hrf'; try done.
    + etrans; [exact (leads_step s _ s1 Hok H1)|exact (leads_step s1 (ECritical p) s2 eq_refl H2)].
    + by rewrite !list_lookup_insert_ne.
    + rewrite fn_lookup_insert_ne by done. lia.
    + intros y Hy _. by rewrite fn_lookup_insert_ne.
    + intros _ y Hy. cbn. destruct (decide (y = p)) as [->|Hyp]; [by rewrite fn_lookup_insert|].
      rewrite !fn_lookup_insert_ne by done. by apply Hf.
    + intros _. unfold slots. cbn. rewrite fn_lookup_insert, Hrf'. cbn.
      apply Forall_insert; [done|]. rewrite Hen. unfold len in *. rewrite length_drop. lia.
  - unfold at_phase. cbn. apply list_lookup_insert_eq. rewrite length_insert. by eapply lookup_lt_Some.
Qed.

Lemma deliver_quiet s p q tid tS args :
  ReachableSync s → all_free s → 0 ≤ q < size s →
  at_phase s p q tid (AESent args) → beats s p tS → q ≠ p →
  ae_Term args = currentTerm (nodes s p) → currentTerm (nodes s q) ≤ currentTerm (nodes s p) →
  (∀ e, e ∈ logs (nodes s q) → term e ≠ currentTerm (nodes s p)) →
  ∃ s' r, quiet p q tS s s' ∧ at_phase s' p q tid (AEReplied args r) ∧ nodes s' p = nodes s p ∧
    aer_Term r = currentTerm (nodes s p) ∧
    (Success r = false → logs (nodes s' q) = logs (nodes s q) ∧ 0 < PrevLogIndex args).
Proof.
  intros HR Hf Hqs Hat Hb Hq HT Hle Hpend. pose proof (beats_other _ _ _ _ _ _ Hat Hb) as Hne.
  assert (Hok : in_order s (EDeliver tid 0) = true).
  { unfold in_order, lock_check_holds, keeps_own_term. rewrite Hat. cbn.
    destruct (AppendEntries 0 (nodes s q) args) as [[[rf r] m]| |]; try done.
    apply forallb_forall. intros e He%list_elem_of_In%subseteq_drop. apply negb_true_iff, Z.eqb_neq.
    rewrite HT. by apply Hpend. }
  destruct (Safety.reachable_inv _ HR) as [G HI].
  pose proof (inv_thread _ _ _ _ HI Hat) as (Ho & _ & _ & HM).
  destruct (AppendEntries_ok (size s) G q p (nodes s q) 0 args) as (rf & r & m & E & _);
    [apply HI|by apply HI|exact HM|lia|].
  destruct (AppendEntries_answer _ _ _ _ _ _ E) as (Hrt & Hct & Hrej); [by rewrite HT|].
  set (s1 := apply (put_thread (put_node s q rf) tid (AEThread p q (epochs s p) (AEReplied args r))) q m).
  assert (He : exec s (EDeliver tid 0) = Some (Ok s1)).
  { cbn. unfold exec_deliver. rewrite Hat, free_unlocked by by apply Hf. by rewrite E. }
  exists s1, r. split; [|split; [exact (at_put _ _ _ _ _ _ Hat)|]]; cbn.
  - constructor; cbn; try done; rewrite ?fn_lookup_insert, ?fn_lookup_insert_ne by done; try done.
    + exact (leads_step s _ s1 Hok He).
    + by rewrite list_lookup_insert_ne.
    + lia.
    + intros x _ Hx. by rewrite fn_lookup_insert_ne.
    + unfold slots. cbn. by rewrite fn_lookup_insert_ne.
  - rewrite fn_lookup_insert, fn_lookup_insert_ne by done. split; [done|]. by rewrite <- HT.
Qed.

Lemma check_quiet s p q tid tS args r :
  at_phase s p q tid (AEReplied args r) → beats s p tS → aer_Term r = currentTerm (nodes s p) →
  ∃ s', quiet p q tS s s' ∧ at_phase s' p q tid (AEChecked args r) ∧ nodes s' = nodes s.
Proof.
  intros Hat Hb HT. pose proof (beats_other _ _ _ _ _ _ Hat Hb) as Hne.
  exists (put_thread s tid (AEThread p q (epochs s p) (AEChecked args r))).
  split; [|split; [exact (at_put _ _ _ _ _ _ Hat)|done]].
  assert (He : exec s (ECheck tid) = Some (Ok (put_thread s tid (AEThread p q (epochs s p) (AEChecked args r))))).
  { cbn. unfold exec_check. rewrite Hat, alive_epoch. unfold reply_is_newer.
    by rewrite (proj2 (Z.ltb_ge _ _)) by lia. }
  constructor; try done; [exact (leads_step s (ECheck tid) _ eq_refl He)|cbn; by rewrite list_lookup_insert_ne|cbn; lia].
Qed.

(** One assignment of a rewind. *)
Lemma rewind_write s p q tid args r w rf :
  at_phase s p q tid (AERewind args r w) → rewind (nodes s p) q args r w = Ok rf →
  let ph := match w with
            | RewindPrev => AERewind args r RewindLen
            | RewindLen => AERewind args r RewindOne
            | RewindOne => AEGot args (Success r)
            end in
  leads s (put_thread (put_node s p rf) tid (AEThread p q (epochs s p) ph)).
Proof.
  intros Hat Hrw. eapply (leads_step s (ERewind tid)); [done|].
  cbn. unfold exec_rewind. rewrite Hat, alive_epoch. by rewrite Hrw.
Qed.

(** The three of them, in a state where the slice is long enough. *)
Lemma rewind_writes s p q tid args r :
  at_phase s p q tid (AERewind args r RewindPrev) → 0 ≤ q < len (nextIndex (nodes s p)) →
  ∃ s', leads s s' ∧ size s' = size s ∧ epochs s' = epochs s ∧ applied s' = applied s ∧ crits s' = crits s ∧
    (∀ x, x ≠ p → nodes s' x = nodes s x) ∧
    nodes s' p = nodes s p <| nextIndex := <[Z.to_nat q := 1]> (nextIndex (nodes s p)) |> ∧
    (∀ t, t ≠ tid → threads s' !! t = threads s !! t) ∧
    at_phase s' p q tid (AEGot args (Success r)).
Proof.
  intros Hat Hq.
  assert (Hw : ∀ s0 w, at_phase s0 p q tid (AERewind args r w) → 0 ≤ q < len (nextIndex (nodes s0 p)) →
    ∃ x, rewind (nodes s0 p) q args r w =
           Ok (nodes s0 p <| nextIndex := <[Z.to_nat q := x]> (nextIndex (nodes s0 p)) |>) ∧
         (w = RewindOne → x = 1)).
  { intros s0 w _ Hl. destruct w; cbn; unfold set_next.
    - rewrite slice_set_Ok by done. by eexists.
    - destruct (_ <? _); [rewrite slice_set_Ok by done; by eexists|].
      destruct (slice_get_is_Ok (nextIndex (nodes s0 p)) q Hl) as [x [_ Hx]%slice_get_Ok].
      exists x. rewrite list_insert_id by done. split; [by destruct (nodes s0 p)|done].
    - rewrite slice_set_Ok by done. by eexists. }
  destruct (Hw s RewindPrev Hat Hq) as (x1 & W1 & _).
  pose proof (rewind_write _ _ _ _ _ _ _ _ Hat W1) as L1.
  cbv zeta beta iota in L1. match type of L1 with leads _ ?a => set (s1 := a) in * end.
  assert (A1 : at_phase s1 p q tid (AERewind args r RewindLen)) by exact (at_put _ _ _ _ _ _ Hat).
  assert (N1 : nodes s1 p = nodes s p <| nextIndex := <[Z.to_nat q := x1]> (nextIndex (nodes s p)) |>)
    by (cbn; by rewrite fn_lookup_insert).
  destruct (Hw s1 RewindLen A1) as (x2 & W2 & _); [rewrite N1; cbn; by rewrite len_insert|].
  pose proof (rewind_write _ _ _ _ _ _ _ _ A1 W2) as L2.
  cbv zeta beta iota in L2. match type of L2 with leads _ ?a => set (s2 := a) in * end.
  assert (A2 : at_phase s2 p q tid (AERewind args r RewindOne)) by exact (at_put _ _ _ _ _ _ A1).
  assert (N2 : nodes s2 p = nodes s p <| nextIndex := <[Z.to_nat q := x2]> (nextIndex (nodes s p)) |>).
  { etrans; [exact (fn_lookup_insert _ _ _)|]. rewrite N1. cbn. by rewrite list_insert_insert_eq. }
  destruct (Hw s2 RewindOne A2) as (x3 & W3 & Hx3); [rewrite N2; cbn; by rewrite len_insert|].
  rewrite (Hx3 eq_refl) in W3.
  pose proof (rewind_write _ _ _ _ _ _ _ _ A2 W3) as L3.
  cbv zeta beta iota in L3. match type of L3 with leads _ ?a => set (s3 := a) in * end.
  exists s3. split; [etrans; [exact L1|]; by etrans|].
  split; [done|]. split; [done|]. split; [done|]. split; [done|]. split; [|split; [|split]].
  - intros x Hx. cbn. by rewrite !fn_lookup_insert_ne.
  - etrans; [exact (fn_lookup_insert _ _ _)|]. rewrite N2. cbn. by rewrite list_insert_insert_eq.
  - intros t Ht. cbn. by rewrite !list_lookup_insert_ne.
  - exact (at_put _ _ _ _ _ _ A2).
Qed.

Lemma rewind_quiet s p q tid tS args r :
  ReachableSync s → all_free s → 0 ≤ p < size s → 0 ≤ q < size s →
  at_phase s p q tid (AEChecked args r) → beats s p tS → q ≠ p →
  role (nodes s p) = Leader →
  ∃ s', quiet p q tS s s' ∧ at_phase s' p q tid (AEGot args (Success r)) ∧ nodes s' q = nodes s q ∧
    (Success r = false → slice_get (nextIndex (nodes s' p)) q = Ok 1).
Proof.
  intros HR Hf Hp Hqs Hat Hb Hq Hr. pose proof (beats_other _ _ _ _ _ _ Hat Hb) as Hne.
  destruct (leader_indices s p HR Hf Hp Hr) as [Hnx _].
  set (ph := if rewinds (nodes s p) r then AERewind args r RewindPrev else AEGot args (Success r)).
  set (s1 := put_thread s tid (AEThread p q (epochs s p) ph)).
  assert (L1 : leads s s1).
  { eapply (leads_step s (ERewind tid)); [done|]. cbn. unfold exec_rewind. by rewrite Hat, alive_epoch. }
  assert (A1 : at_phase s1 p q tid ph) by exact (at_put _ _ _ _ _ _ Hat).
  destruct (Success r) eqn:HS.
  - assert (Hph : ph = AEGot args true) by (unfold ph, rewinds; by rewrite HS, andb_false_r).
    exists s1. rewrite Hph in A1. split; [|by split_and!].
    constructor; try done; [cbn; by rewrite list_lookup_insert_ne|cbn; lia].
  - assert (Hph : ph = AERewind args r RewindPrev).
    { unfold ph, rewinds. by rewrite HS, Hr. }
    rewrite Hph in A1.
    destruct (rewind_writes s1 p q tid args r A1) as
      (s2 & L2 & Hs & He & Ha & Hc & Ho & Hn & Ht & A2); [change (nodes s1 p) with (nodes s p); lia|].
    change (nodes s1 p) with (nodes s p) in Hn. exists s2. rewrite HS in A2.
    split; [|split; [done|split; [by rewrite Ho|]]].
    + constructor; rewrite ?He, ?Ha, ?Hn; try done.
      * by etrans.
      * rewrite Ht by done. cbn. by rewrite list_lookup_insert_ne.
      * rewrite Ho by done. cbn. lia.
      * intros x Hx _. by rewrite Ho.
      * intros _ x Hx. rewrite Hc. apply Hf. by rewrite Hs in Hx.
      * intros Hsl. unfold slots. rewrite Hn. cbn. apply Forall_insert; [done|].
        pose proof (len_nonneg (logs (nodes s p))). lia.
    + intros _. rewrite Hn. cbn. apply slice_get_Ok. split; [lia|].
      apply list_lookup_insert_eq. unfold len in Hnx. lia.
Qed.

(** ** A leader with a log to replicate *)

(** [p] leads term [T], the newest, with log [lg], whose last entry is of its term. *)
Record leading s (p T : Z) (lg : list (LogEntry Cmd)) (tS : nat) : Prop := mkLeading {
  ld_sync : ReachableSync s;
  ld_peer : 0 ≤ p < size s;
  ld_size : 2 ≤ size s;
  ld_role : role (nodes s p) = Leader;
  ld_running : running (nodes s p) = true;
  ld_term : currentTerm (nodes s p) = T;
  ld_logs : logs (nodes s p) = lg;
  ld_last : ∃ e, last lg = Some e ∧ term e = T;
  ld_beats : beats s p tS;
  ld_terms x : 0 ≤ x < size s → currentTerm (nodes s x) ≤ T;
  ld_applied : apply_range lg 0 (commitIndex (nodes s p)) = Ok (applied s p);
  ld_free : all_free s;
  ld_slots : slots s p;
}.

(** Peer [x] is known to hold the leader's log of length [n]. *)
Definition acked s (p x n : Z) : Prop := slice_get (matchIndex (nodes s p)) x = Ok n.

(** Peer [x] holds no entry of term [T]. *)
Definition pending s (x T : Z) : Prop := ∀ e, e ∈ logs (nodes s x) → term e ≠ T.

(** When all are known to hold the leader's log, it is committed. *)
Definition settled s (p n : Z) : Prop :=
  (∀ x, 0 ≤ x < size s → x ≠ p → acked s p x n) → commitIndex (nodes s p) = n.

Lemma leading_inv s p T lg tS :
  leading s p T lg tS →
  me (nodes s p) = p ∧ peers (nodes s p) = size s ∧
  len (nextIndex (nodes s p)) = size s ∧ len (matchIndex (nodes s p)) = size s ∧
  Forall (λ x, 1 ≤ x ≤ len lg + 1) (nextIndex (nodes s p)) ∧
  0 ≤ commitIndex (nodes s p) ≤ len lg.
Proof.
  intros [HR Hp _ Hr _ _ <- _ _ _ _ Hf Hsl]. destruct (Safety.reachable_inv _ HR) as [G HI].
  destruct (leader_indices s p HR Hf Hp Hr).
  pose proof (inv_nodes _ _ HI p Hp) as HN. destruct HN. split_and!; try done; lia.
Qed.

Lemma leading_quiet s s' p q T lg tS :
  leading s p T lg tS → quiet p q tS s s' → 0 ≤ q < size s → leading s' p T lg tS.
Proof.
  intros [] [HL Hs He [] ? Hci Hap Hsub Ht Hrest Hfr Hsl] Hq.
  constructor; try done; try congruence; try lia; auto.
  - by eapply leads_sync.
  - intros x Hx. rewrite Hs in Hx. destruct (decide (x = p)) as [->|Hxp]; [lia|].
    destruct (decide (x = q)) as [->|Hxq]; [|rewrite Hrest by done; auto].
    specialize (ld_terms0 q Hq). lia.
Qed.

Lemma done_leading s p T lg tS q tid args :
  leading s p T lg tS → at_phase s p q tid (AEGot args true) → q ≠ p →
  ae_Term args = T → PrevLogIndex args + len (Entries args) = len lg →
  ∃ s', leads s s' ∧ leading s' p T lg tS ∧ size s' = size s ∧ (∀ x, x ≠ p → nodes s' x = nodes s x) ∧
    acked s' p q (len lg) ∧ (∀ x, acked s p x (len lg) → acked s' p x (len lg)) ∧
    settled s' p (len lg).
Proof.
  intros HL Hat Hq HT Hlen. pose proof (leading_inv _ _ _ _ _ HL) as (Hme & Hpe & _ & Hmt & _ & Hci).
  destruct HL as [HR Hp Hn Hr Hrun Ht Hlg (e & Hlast & He) Hb Hts Hap Hf Hsl].
  pose proof (beats_other _ _ _ _ _ _ Hat Hb) as Hne.
  destruct (Safety.reachable_inv _ HR) as [G HI].
  pose proof (inv_thread _ _ _ _ HI Hat) as (_ & Hqs & _).
  destruct (append_done_Ok (size s) G p (nodes s p) q args true) as [[rf m] E];
    [by apply HI|done|by intros _|].
  destruct (sync_step s (EAppendDone tid)
    (apply (put_thread (put_node s p rf) tid (AEThread p q (epochs s p) AEDone)) p m)) as [L HR']; [done|done|..].
  { cbn. unfold exec_append_done. rewrite Hat, may_lock_free by done. by rewrite E. }
  destruct (append_done_acked _ _ _ _ _ e E) as (Hsame & Hci' & Hm & Hget & Hset);
    rewrite ?Hme, ?Hpe, ?Hlg, ?Hlen in *; try done; try congruence.
  match type of L with leads _ ?s1 => exists s1 end. split; [exact L|].
  split; [|split; [done|split; [|split; [|split]]]].
  - destruct Hsame. constructor; cbn; rewrite ?fn_lookup_insert; try done; try congruence; [by eexists|..].
    + unfold beats. cbn. by rewrite list_lookup_insert_ne.
    + intros x Hx. destruct (decide (x = p)) as [->|Hxp]; [rewrite fn_lookup_insert; lia|].
      rewrite fn_lookup_insert_ne by done. by apply Hts.
    + eapply apply_range_app; [|exact Hci'|exact Hap|exact Hm]. lia.
    + unfold slots. cbn. rewrite fn_lookup_insert, (tm_next _ _ _ (append_done_tame Free _ _ _ _ _ _ E)).
      by rewrite sl_logs0.
  - intros x Hx. cbn. by rewrite fn_lookup_insert_ne.
  - unfold acked. cbn. by rewrite fn_lookup_insert, Hget, decide_True.
  - intros x. unfold acked. cbn. rewrite fn_lookup_insert, Hget. by case_decide.
  - unfold settled, acked. cbn. by rewrite fn_lookup_insert.
Qed.

(** ** Rounds *)

(** [s'] is further than [s]: what was acknowledged still is, and of the peers
    other than the leader only [q] took a step. *)
Record advance s s' (p T : Z) (lg : list (LogEntry Cmd)) (tS : nat) (q : Z) : Prop := mkAdvance {
  ad_leads : leads s s';
  ad_leading : leading s' p T lg tS;
  ad_size : size s' = size s;
  ad_rest x : x ≠ p → x ≠ q → nodes s' x = nodes s x;
  ad_acked x : acked s p x (len lg) → acked s' p x (len lg);
}.

Lemma advance_trans s1 s2 s3 p T lg tS q :
  advance s1 s2 p T lg tS q → advance s2 s3 p T lg tS q → advance s1 s3 p T lg tS q.
Proof.
  intros [] []. constructor; [by etrans|done|congruence| |auto].
  intros x Hp Hq. by rewrite ad_rest1, ad_rest0.
Qed.

Lemma quiet_advance s s' p T lg tS q :
  leading s p T lg tS → quiet p q tS s s' → 0 ≤ q < size s → advance s s' p T lg tS q.
Proof.
  intros HL HQ Hq. pose proof (leading_quiet _ _ _ _ _ _ _ HL HQ Hq) as HL'.
  destruct HQ. constructor; try done. intros x. unfold acked. by rewrite qt_match0.
Qed.

(** The message for [q] reaches it, and the answer comes back. *)
Lemma exchange s p T lg tS q :
  leading s p T lg tS → 0 ≤ q < size s → q ≠ p → pending s q T →
  ∃ s' tid args r, quiet p q tS s s' ∧ at_phase s' p q tid (AEChecked args r) ∧
    ae_Term args = T ∧ PrevLogIndex args + len (Entries args) = len lg ∧
    slice_get (nextIndex (nodes s p)) q = Ok (PrevLogIndex args + 1) ∧
    (Success r = false → pending s' q T ∧ 0 < PrevLogIndex args).
Proof.
  intros HL Hq Hqp Hpend. pose proof (leading_inv _ _ _ _ _ HL) as (Hme & Hpe & _ & _ & Hnx & _).
  destruct (tick_quiet s p q tS) as (s1 & tid & Q1 & N1 & A1); [apply HL..| |].
  { apply others_spec. by rewrite Hpe, Hme. }
  pose proof (leading_quiet _ _ _ _ _ _ _ HL Q1 Hq) as L1.
  assert (Hq1 : 0 ≤ q < size s1) by (by rewrite (qt_size _ _ _ _ _ Q1)).
  destruct (prepare_quiet s1 p q tid tS) as (s2 & args & Q2 & A2 & N2 & Hprep);
    [apply L1..|done|done|apply L1|apply L1|done|].
  destruct (prepare_append_inv _ _ _ Hprep) as (Hget & Hle & Hen & _ & HT & _). rewrite N1 in Hget, N2.
  pose proof (leading_quiet _ _ _ _ _ _ _ L1 Q2 Hq1) as L2.
  assert (Hq2 : 0 ≤ q < size s2) by (by rewrite (qt_size _ _ _ _ _ Q2)).
  rewrite (ld_term _ _ _ _ _ L1) in HT. rewrite (ld_logs _ _ _ _ _ L1) in Hen, Hle.
  assert (Hlen : PrevLogIndex args + len (Entries args) = len lg).
  { rewrite Hen. unfold len in *. rewrite length_drop. lia. }
  destruct (deliver_quiet s2 p q tid tS args) as (s3 & r & Q3 & A3 & N3 & Hr & Hrej);
    [apply L2|apply L2|done|done|apply L2|done|by rewrite (ld_term _ _ _ _ _ L2)|..].
  { rewrite (ld_term _ _ _ _ _ L2). by apply L2. }
  { rewrite (ld_term _ _ _ _ _ L2), N2. exact Hpend. }
  destruct (check_quiet s3 p q tid tS args r) as (s4 & Q4 & A4 & N4); [done| |by rewrite N3|].
  { apply (leading_quiet _ _ _ _ _ _ _ L2 Q3 Hq2). }
  exists s4, tid, args, r. split; [by etrans; [etrans; [exact Q1|exact Q2]|etrans; [exact Q3|exact Q4]]|].
  do 4 (split; [done|]).
  intros HS. destruct (Hrej HS) as [Hlog Hpos]. split; [|done].
  unfold pending. rewrite N4, Hlog, N2. exact Hpend.
Qed.

Lemma round s p T lg tS q :
  leading s p T lg tS → 0 ≤ q < size s → q ≠ p → pending s q T →
  ∃ s', advance s s' p T lg tS q ∧
    (acked s' p q (len lg) ∧ settled s' p (len lg) ∨
     pending s' q T ∧ slice_get (nextIndex (nodes s' p)) q = Ok 1 ∧
       slice_get (nextIndex (nodes s p)) q ≠ Ok 1).
Proof.
  intros HL Hq Hqp Hpend.
  destruct (exchange _ _ _ _ _ _ HL Hq Hqp Hpend) as (s1 & tid & args & r & Q1 & A1 & HT & Hlen & Hget & Hrej).
  pose proof (leading_quiet _ _ _ _ _ _ _ HL Q1 Hq) as L1.
  assert (Hq1 : 0 ≤ q < size s1) by (by rewrite (qt_size _ _ _ _ _ Q1)).
  destruct (rewind_quiet s1 p q tid tS args r) as (s2 & Q2 & A2 & N2 & Hrew);
    [apply L1..|done|done|apply L1|done|apply L1|].
  assert (Q : quiet p q tS s s2) by by etrans.
  pose proof (quiet_advance _ _ _ _ _ _ _ HL Q Hq) as Had.
  destruct (Success r) eqn:HS.
  - destruct (done_leading _ _ _ _ _ _ _ _ (ad_leading _ _ _ _ _ _ _ Had) A2 Hqp HT Hlen)
      as (s3 & L3 & HL3 & Hs3 & Hrest & Hack & Hmono & Hset).
    exists s3. split; [|by left]. eapply advance_trans; [exact Had|]. constructor; auto.
  - destruct (Hrej eq_refl) as [Hp Hpos]. exists s2. split; [done|]. right.
    split; [|split; [auto|]].
    + unfold pending. by rewrite N2.
    + rewrite Hget. intros [= Hx]. lia.
Qed.

(** Two rounds are enough. *)
Lemma bring_up s p T lg tS q :
  leading s p T lg tS → 0 ≤ q < size s → q ≠ p → pending s q T →
  ∃ s', advance s s' p T lg tS q ∧ acked s' p q (len lg) ∧ settled s' p (len lg).
Proof.
  intros HL Hq Hqp Hpend.
  destruct (round _ _ _ _ _ _ HL Hq Hqp Hpend) as (s1 & A1 & [[? ?]|(Hpend1 & Hone & _)]); [by exists s1|].
  assert (Hq1 : 0 ≤ q < size s1) by (by rewrite (ad_size _ _ _ _ _ _ _ A1)).
  destruct (round _ _ _ _ _ _ (ad_leading _ _ _ _ _ _ _ A1) Hq1 Hqp Hpend1) as (s2 & A2 & [[? ?]|(_ & _ & Hno)]);
    [|done].
  exists s2. split; [by eapply advance_trans|done].
Qed.

Lemma bring_up_all s p T lg tS (l : list Z) :
  leading s p T lg tS → NoDup l → (∀ x, x ∈ l → 0 ≤ x < size s ∧ x ≠ p ∧ pending s x T) →
  (∀ x, 0 ≤ x < size s → x ≠ p → x ∉ l → acked s p x (len lg)) →
  (l = [] → settled s p (len lg)) →
  ∃ s', leads s s' ∧ size s' = size s ∧ leading s' p T lg tS ∧ commitIndex (nodes s' p) = len lg.
Proof.
  revert s. induction l as [|q l IH]; intros s HL Hnd Hl Hrest Hset.
  { exists s. split; [done|]. split; [done|]. split; [done|]. apply Hset; [done|].
    intros x Hx Hxp. apply Hrest; [done..|]. apply not_elem_of_nil. }
  apply NoDup_cons in Hnd as [Hql Hnd]. destruct (Hl q) as (Hq & Hqp & Hpend); [by left|].
  destruct (bring_up _ _ _ _ _ _ HL Hq Hqp Hpend) as (s1 & [L1 HL1 Hs1 Hr1 Ha1] & Hack & Hset1).
  destruct (IH s1 HL1 Hnd) as (s2 & L2 & Hs2 & HL2 & Hci); [..|by intros _|].
  - intros x Hx. destruct (Hl x) as (? & ? & Hpx); [by right|]. rewrite Hs1. split; [done|]. split; [done|].
    unfold pending. rewrite Hr1 by (try done; by intros ->). exact Hpx.
  - intros x Hx Hxp Hxl. rewrite Hs1 in Hx. destruct (decide (x = q)) as [->|Hne]; [done|].
    apply Ha1, Hrest; [done..|]. rewrite not_elem_of_cons. done.
  - exists s2. split; [by etrans|]. split; [congruence|]. done.
Qed.

(** ** From the election to the commit *)

(** No entry has a term that no peer has reached. *)
Lemma fresh_term s x T :
  ReachableSync s → 0 ≤ x < size s → (∀ q, 0 ≤ q < size s → currentTerm (nodes s q) < T) → pending s x T.
Proof.
  intros HR Hx Hlt e [k He]%list_elem_of_lookup HT. destruct (Safety.reachable_inv _ HR) as [G HI].
  destruct (Commit.log_won _ _ _ _ _ (inv_ghost _ _ HI) (nk_log _ _ _ _ (inv_nodes _ _ HI x Hx)) He)
    as [L HW].
  destruct (gk_won _ _ (inv_ghost _ _ HI) _ _ HW) as (_ & HL & _).
  pose proof (nk_won _ _ _ _ (inv_nodes _ _ HI L HL) _ HW). specialize (Hlt L HL). lia.
Qed.

Lemma start_leading s s1 p cmd :
  ReachableSync s → 2 ≤ size s → elected s s1 p →
  let T := currentTerm (nodes s1 p) in
  ∃ s2 tS, leads s s2 ∧ size s2 = size s ∧ leading s2 p T (logs (nodes s p) ++ [mkEntry cmd T]) tS ∧
    ∀ x, x ≠ p → nodes s2 x = nodes s1 x.
Proof.
  intros HR Hn [L1 Hs Hp Hr [Hrun Hci Hct Hap] Hf [Hfn Hfm] [tS Hth] Hts _ Hlg] T.
  set (rf1 := nodes s1 p <| counter := int64 (counter (nodes s1 p) + 1) |>).
  set (s2 := put_thread (put_node s1 p rf1) tS (SubmitThread p (epochs s1 p) SubmitLoop)).
  assert (H2 : exec s1 (ESubmit tS) = Some (Ok s2)).
  { assert (HE : submit_enter (nodes s1 p) = (rf1, true)) by (unfold submit_enter, rf1; by rewrite Hct).
    cbn [exec]. unfold exec_submit. rewrite Hth, alive_epoch. by rewrite HE. }
  set (rf2 := persist (rf1 <| logs := logs rf1 ++ [mkEntry cmd T] |>)). set (s3 := put_node s2 p rf2).
  assert (H3 : exec s2 (EStart p cmd) = Some (Ok s3)).
  { assert (HS : fst (Start rf1 cmd) = rf2) by (unfold Start; by rewrite decide_True by exact Hr).
    cbn [exec]. change (valid s2 p) with (valid s1 p). rewrite valid_true by lia.
    change (unlocked s2 p) with (unlocked s1 p). rewrite free_unlocked by (apply Hf; lia). cbn [andb].
    replace (nodes s2 p) with rf1 by (cbn; by rewrite fn_lookup_insert). by rewrite HS. }
  assert (L3 : leads s s3).
  { etrans; [exact L1|]. etrans; [exact (leads_step s1 (ESubmit tS) s2 eq_refl H2)|].
    exact (leads_step s2 (EStart p cmd) s3 eq_refl H3). }
  exists s3, tS. split; [done|]. split; [done|].
  split; [|intros x Hx; subst s3 s2; cbn; by rewrite !fn_lookup_insert_ne].
  constructor; subst s3 s2; cbn; rewrite ?fn_lookup_insert; try done; try lia.
  - by eapply leads_sync.
  - cbn. by rewrite Hlg.
  - eexists. split; [apply last_snoc|done].
  - unfold beats. cbn. apply list_lookup_insert_eq. by eapply lookup_lt_Some.
  - intros x Hx. destruct (decide (x = p)) as [->|Hne]; [by rewrite fn_lookup_insert|].
    rewrite !fn_lookup_insert_ne by done. apply Hts. lia.
  - cbn. by rewrite Hci, Hap.
  - unfold slots. cbn. rewrite fn_lookup_insert. cbn. rewrite Hfn, len_app.
    apply Forall_replicate. pose proof (len_nonneg (logs (nodes s1 p))).
    assert (len [mkEntry cmd T] = 1) by done. lia.
Qed.

(** ** Theorem *)

(** C8. A command can be committed whatever has happened: from every state of an
    execution without stale checks, whatever is pending or has been lost, and as
    long as no term counter is at its maximum, some schedule that is in order
    elects a leader whose term no peer has passed, appends the given command to
    the log that peer had, commits the whole log and sends all of it on applyCh;
    that is, when there are at least two peers.  A cluster of one peer never has a
    leader, because votes are counted only where the reply of another arrives. *)
Theorem command_committable s cmd :
  ReachableSync s → (∀ q, 0 ≤ q < size s → currentTerm (nodes s q) < MaxInt64) →
  (∃ es s' p, run in_order s es = Some s' ∧ 0 ≤ p < size s ∧ role (nodes s' p) = Leader ∧
     (∀ q, 0 ≤ q < size s → currentTerm (nodes s' q) ≤ currentTerm (nodes s' p)) ∧
     let l := logs (nodes s p) ++ [mkEntry cmd (currentTerm (nodes s' p))] in
     logs (nodes s' p) = l ∧ commitIndex (nodes s' p) = len l ∧
     apply_range l 0 (len l) = Ok (applied s' p)) ↔
  2 ≤ size s.
Proof.
  intros HR Hmax. split.
  { intros (es & s' & p & Hrun & Hp & Hlead & _). apply (lone_never_leads s s' p); eauto. by exists es. }
  intros Hn. destruct (electable s HR Hn Hmax) as (s1 & p & HE).
  destruct (start_leading s s1 p cmd HR Hn HE) as (s2 & tS & L2 & Hs2 & HL2 & Hrest).
  pose proof (leading_inv _ _ _ _ _ HL2) as (Hme & Hpe & _).
  destruct (bring_up_all s2 p _ _ tS (others (nodes s2 p)) HL2) as (s3 & [es3 L3] & Hs3 & HL3 & Hci).
  - apply NoDup_others.
  - intros x [Hx Hxp]%others_spec. rewrite Hpe in Hx. rewrite Hme in Hxp. split; [done|]. split; [done|].
    unfold pending. rewrite Hrest by done. rewrite Hs2 in Hx. rewrite (el_logs _ _ _ HE) by done.
    apply fresh_term; [done..|]. apply HE.
  - intros x Hx Hxp Hno. destruct Hno. apply others_spec. by rewrite Hpe, Hme.
  - intros Hnil. pose proof (length_others (nodes s2 p)) as Hlo. rewrite Hnil, Hpe, Hme in Hlo.
    destruct HL2. cbn in Hlo. lia.
  - destruct (leads_preorder.(PreOrder_Transitive) s s2 s3 L2 (ex_intro _ es3 L3)) as [es L].
    destruct HL3. rewrite Hci in ld_applied0. exists es, s3, p. split; [done|]. rewrite ld_term0.
    split; [lia|]. split; [done|]. split; [|by split_and!]. intros q Hq. apply ld_terms0. lia.
Qed.
End replicate.
End Replicate.
