(* ===== verification/RaftCommitStep.v ===== *)
(** * RaftCommitStep: every in-order step preserves the invariant behind commitment

    How the second ghost history grows, a frame lemma that reduces a step of the
    cluster to what its actor does, and the case of each event.  The last lemma
    says that every state reached without a stale check and without an overtaken
    message satisfies the invariant of RaftCommit.v. *)
From S2P Require Import Prelude Persister Raft RaftCluster RaftInv RaftInvLog.
From S2P Require Import RaftInvStep RaftSafety RaftProps RaftCommit.
Export Commit.

Module CommitStep.
Import RaftProps.

Section step.
Context {Cmd : Type}.
#[local] Notation Raft := (Raft.Raft Cmd).
#[local] Notation Entry := (LogEntry Cmd).
#[local] Notation Cluster := (Cluster.Cluster Cmd).
#[local] Notation Thread := (Cluster.Thread Cmd).
Implicit Types (rf : Raft) (G : Ghost Cmd) (H : Marks Cmd) (s : Cluster) (l : list Entry).

(** ** How the history grows *)

(** Peer [i] stands in term [T] with log [l]. *)
Definition stand H (T i : Z) l : Marks Cmd :=
  H <| cand := λ U c, if decide (U = T ∧ c = i) then Some l else cand H U c |>.

(** Peer [p] has accepted [m] entries in term [T]. *)
Definition accept H (p T : Z) (m : nat) : Marks Cmd :=
  H <| ack := λ q U, if decide (q = p ∧ U = T) then (ack H q U `max` m)%nat else ack H q U |>.

(** The leader of [T] has committed [c] entries. *)
Definition commit H (T : Z) (c : nat) : Marks Cmd :=
  H <| cmt := λ U, if decide (U = T) then (cmt H U `max` c)%nat else cmt H U |>.

Lemma grown_stand G H G' T i l :
  ext G G' → cand H T i = None → grown G H G' (stand H T i l).
Proof.
  intros HE HN. constructor; [done| |done..]. intros U c l' Hc. cbn.
  case_decide; [naive_solver congruence|done].
Qed.

Lemma grown_accept G H G' p T m : ext G G' → grown G H G' (accept H p T m).
Proof. intros HE. constructor; [done..| |done]. intros q U. cbn. case_decide; lia. Qed.

Lemma grown_commit G H G' T c : ext G G' → grown G H G' (commit H T c).
Proof. intros HE. constructor; [done..|]. intros U. cbn. case_decide; lia. Qed.

Lemma accept_ge H p T m : (m ≤ ack (accept H p T m) p T)%nat.
Proof. cbn. rewrite decide_True by done. lia. Qed.

Lemma accept_other H p T m q U : q ≠ p ∨ U ≠ T → ack (accept H p T m) q U = ack H q U.
Proof. intros. cbn. by rewrite decide_False by naive_solver. Qed.

Lemma accept_inv H p T m q U :
  ack (accept H p T m) q U = ack H q U ∨
  q = p ∧ U = T ∧ (ack (accept H p T m) q U = m)%nat.
Proof. cbn. case_decide; [|by left]. destruct (Nat.max_spec (ack H q U) m); naive_solver. Qed.

(** The second part of the invariant that speaks about the whole history. *)
Lemma global_grown n G H G' H' :
  ghost_ok n G → global_ok n G H → grown G H G' H' →
  (∀ U c l, cand H' U c = Some l →
     cand H U c = Some l ∨ Forall (λ e, term e < U) l ∧ log_sound G' l) →
  (∀ U L, won G' U = Some L →
     won G U = Some L ∧ canon G' U = canon G U ∨ elected_with G' H' U L) →
  (∀ y T, ack H' y T = ack H y T ∨ (ack H' y T ≤ length (canon G' T))%nat) →
  (∀ y U c l, cand H' U c = Some l → hist G' y U = Some c →
     cand H U c = Some l ∧ hist G y U = Some c ∧ (∀ T, T < U → ack H' y T = ack H y T) ∨
     vote_ok G' H' y U c l) →
  (∀ T, cmt H' T = cmt H T ∨ commit_ok n G' H' T (cmt H' T)) →
  global_ok n G' H'.
Proof.
  intros HG HL HW Hcand Hwon Hack Hvote Hcmt. pose proof HL as [Lc Lw La Lv Lm].
  constructor.
  - intros U c l Hc. destruct (Hcand U c l Hc) as [Hc'|?]; [|done].
    destruct (Lc _ _ _ Hc'). split; [done|]. eapply log_sound_ext; [apply HW|done].
  - intros U L HU. destruct (Hwon U L HU) as [[HU' Hcan]|?]; [|done].
    destruct (Lw U L HU') as (l & x & Hl & Heq & Hx). exists l, x.
    split; [by apply HW|]. by rewrite Hcan.
  - intros y T. destruct (Hack y T) as [->|?]; [|done].
    etrans; [apply La|]. apply prefix_length, HW.
  - intros y U c l Hc Hh. destruct (Hvote y U c l Hc Hh) as [(Hc' & Hh' & Ha)|?]; [|done].
    eapply vote_ok_grown; eauto.
  - intros T HT. destruct (Hcmt T) as [Heq|?]; [|done]. rewrite Heq in *.
    eapply commit_ok_grown; eauto.
Qed.

(** ** One actor per step *)

Lemma peer_ok_grown n G H G' H' i rf pc :
  ghost_ok n G → global_ok n G H → grown G H G' H' →
  (∀ U, cand H' U i = cand H U i) → (∀ T, ack H' i T = ack H i T) →
  (∀ y U, hist G' y U = Some i → hist G y U = Some i ∨ U ≤ currentTerm rf) →
  peer_ok G H i rf pc → peer_ok G' H' i rf pc.
Proof.
  intros HG HL HW Hcand Hack Hhist [Pt Pc Pcl Phl Pal Pa Pm Ps Pco Pl].
  constructor; try done.
  - intros Hr. by apply HW, Pc.
  - intros U l. rewrite Hcand. apply Pcl.
  - intros y U HU. destruct (Hhist y U HU); eauto.
  - intros T. rewrite Hack. apply Pal.
  - intros T k Hp Hk. rewrite Hack in Hk. pose proof (g_ack _ _ _ HL i T).
    eapply retained_grown; [done|lia|reflexivity|]. apply Pa; [|done].
    eapply proper_back; [done..| |done]. lia.
  - intros Hr p x Hp Hx. specialize (Pm Hr p x Hp Hx).
    pose proof (gr_ack _ _ _ _ HW p (currentTerm rf)). lia.
  - intros Hr. rewrite Hack. auto.
  - by eapply covered_grown.
  - intros Hpc. destruct (Pl Hpc) as [? [?|[?|(d & ? & ?)]]]; split; auto; right.
    + left. by rewrite Hcand.
    + right. exists d. split; [done|]. by apply HW.
Qed.

(** The fields [peer_ok] reads. *)
Definition view rf :=
  (currentTerm rf, votedFor rf, logs rf, commitIndex rf, matchIndex rf, role rf).

Lemma peer_ok_view G H i rf rf' pc :
  view rf' = view rf → peer_ok G H i rf pc → peer_ok G H i rf' pc.
Proof.
  destruct rf, rf'. unfold view. cbn. intros Hv []. simplify_eq. by constructor.
Qed.

(** Outside of LoopVote the program counter does not matter. *)
Lemma peer_ok_loop G H i rf pc pc' :
  (pc' = LoopVote → pc = LoopVote) → peer_ok G H i rf pc → peer_ok G H i rf pc'.
Proof. intros Hpc []. constructor; auto. Qed.

(** What a step may do to the term, the candidacy and the loop of a peer. *)
Definition moves H H' (i : Z) rf (pc : LoopPC) rf' (pc' : LoopPC) : Prop :=
  currentTerm rf ≤ currentTerm rf' ∧
  (∀ U l, U ≤ currentTerm rf → cand H' U i = Some l → cand H U i = Some l) ∧
  (pc' = LoopVote → role rf' = Candidate →
   currentTerm rf < currentTerm rf' ∨ pc = LoopVote ∧ role rf = Candidate).

Lemma moves_refl H H' i rf pc :
  (∀ U, cand H' U i = cand H U i) → moves H H' i rf pc rf pc.
Proof. intros Hc. split; [done|]. split; [|by right]. intros U l _. by rewrite Hc. Qed.

Lemma request_ok_moves G H G' H' o rf pc rf' pc' args :
  grown G H G' H' → moves H H' o rf pc rf' pc' →
  request_ok G H o rf pc args → request_ok G' H' o rf' pc' args.
Proof.
  intros HW (HT & Hc & Hr) (Rt & Rv & Rl). split; [lia|]. split.
  - intros Hpc Hcand. destruct (Hr Hpc Hcand) as [?|[Hpc0 Hcand0]]; [lia|].
    specialize (Rv Hpc0 Hcand0). lia.
  - intros l Hl. apply Hc in Hl; [|done]. destruct (Rl l Hl) as [?|(d & ? & ?)]; [by left|].
    right. exists d. split; [done|]. by apply HW.
Qed.

Lemma goroutine_ok_moves s s' G H G' H' th :
  global_ok (size s) G H → grown G H G' H' →
  (∀ j, 0 ≤ j < size s → moves H H' j (nodes s j) (loops s j) (nodes s' j) (loops s' j)) →
  thread_ok (size s) G th → goroutine_ok s G H th → goroutine_ok s' G' H' th.
Proof.
  intros HL HW Hm. destruct th as [o p ep k args ph|o p ep ph|]; cbn; [| |done].
  - intros (Ho & _) HR. eapply request_ok_moves; eauto.
  - intros (_ & _ & _ & Hph). by apply append_phase_grown with (n := size s) (o := o) (G := G).
Qed.

(** A step in which peer [i] acts. *)
Lemma actor_step i rf pc s G H s' G' H' :
  Inv s G → InvC s G H → grown G H G' H' → global_ok (size s) G' H' →
  size s' = size s → nodes s' i = rf → loops s' i = pc →
  (∀ j, j ≠ i → nodes s' j = nodes s j ∧ loops s' j = loops s j) →
  (∀ j, j ≠ i → (∀ U, cand H' U j = cand H U j) ∧ (∀ T, ack H' j T = ack H j T)) →
  (∀ j y U, j ≠ i → hist G' y U = Some j →
     hist G y U = Some j ∨ (0 ≤ j < size s → U ≤ currentTerm (nodes s j))) →
  (0 ≤ i < size s → peer_ok G' H' i rf pc ∧ moves H H' i (nodes s i) (loops s i) rf pc) →
  (∀ th, th ∈ threads s' → th ∈ threads s ∨ goroutine_ok s' G' H' th) →
  (∀ j m, m ∈ applied s' j → m ∈ applied s j ∨ chosen G' H' (Index m) (Command m)) →
  InvC s' G' H'.
Proof.
  intros HI [HL HP HT HA] HW HL' Hsz <- <- Hn Hm Hh Hi Hth Hap.
  assert (Hmov : ∀ j, 0 ≤ j < size s →
    moves H H' j (nodes s j) (loops s j) (nodes s' j) (loops s' j)).
  { intros j Hj. destruct (decide (j = i)) as [->|Hji]; [by apply Hi|].
    destruct (Hn j Hji) as [-> ->]. by apply moves_refl, Hm. }
  constructor; rewrite ?Hsz; [done| | |].
  - intros j Hj. destruct (decide (j = i)) as [->|Hji]; [by apply Hi|].
    destruct (Hn j Hji) as [-> ->]. destruct (Hm j Hji) as [Hmc Hma].
    apply (peer_ok_grown (size s) G H); [apply HI|done..| |by apply HP].
    intros y U HU. destruct (Hh j y U Hji HU); auto.
  - apply Forall_forall. intros th Hin. destruct (Hth th Hin) as [Hin'|?]; [|done].
    eapply Forall_forall in HT; [|exact Hin'].
    pose proof (inv_threads _ _ HI) as HTo. eapply Forall_forall in HTo; [|exact Hin'].
    exact (goroutine_ok_moves s s' G H G' H' th HL HW Hmov HTo HT).
  - intros j m Hin. destruct (Hap j m Hin) as [Hin'|?]; [|done].
    eapply chosen_grown; [exact HL|exact HW|by eapply HA].
Qed.

(** A step that leaves both histories alone. *)
Lemma quiet_step i s G H s' :
  Inv s G → InvC s G H → size s' = size s →
  (∀ j, j ≠ i → nodes s' j = nodes s j ∧ loops s' j = loops s j) →
  (0 ≤ i < size s → peer_ok G H i (nodes s' i) (loops s' i) ∧
     moves H H i (nodes s i) (loops s i) (nodes s' i) (loops s' i)) →
  (∀ th, th ∈ threads s' → th ∈ threads s ∨ goroutine_ok s' G H th) →
  (∀ j m, m ∈ applied s' j → m ∈ applied s j ∨ chosen G H (Index m) (Command m)) →
  InvC s' G H.
Proof.
  intros HI HC ? ? ? ? ?.
  apply (actor_step i (nodes s' i) (loops s' i) s G H); try done; auto using grown_refl.
  apply HC.
Qed.

Lemma elem_of_put {A} (l : list A) k x y : x ∈ <[k:=y]> l → x = y ∨ x ∈ l.
Proof.
  intros [j Hj]%list_elem_of_lookup. apply list_lookup_insert_Some in Hj.
  destruct Hj as [(_ & -> & _)|[_ Hj]]; [by left|right]. by eapply list_elem_of_lookup_2.
Qed.

Lemma commit_goroutine s G H tid th :
  InvC s G H → threads s !! tid = Some th → goroutine_ok s G H th.
Proof. intros HC Ht. by eapply Forall_lookup_1; [apply HC|]. Qed.

(** Only goroutine [tid] changes. *)
Lemma commit_put_thread s G H tid th' :
  Inv s G → InvC s G H → goroutine_ok s G H th' → InvC (put_thread s tid th') G H.
Proof.
  intros HI HC Hok. apply (quiet_step 0 s); try done; auto.
  - intros Hr. split; [by apply HC|by apply moves_refl].
  - intros th [->|?]%elem_of_put; [right|by left].
    by destruct th' as [? ? ? ? ? []|? ? ? []|].
Qed.

(** The actor's node is unchanged as far as the invariant reads it. *)
Lemma moves_view H i rf pc rf' pc' :
  view rf' = view rf → (pc' = LoopVote → pc = LoopVote) → moves H H i rf pc rf' pc'.
Proof.
  destruct rf, rf'. unfold view, moves. cbn. intros Hv Hpc. simplify_eq.
  split; [done|]. split; [done|]. auto.
Qed.

Lemma put_node_here s i rf : nodes (put_node s i rf) i = rf.
Proof. cbn. by rewrite fn_lookup_insert. Qed.

Lemma put_node_there s i rf j : j ≠ i → nodes (put_node s i rf) j = nodes s j.
Proof. intros. cbn. by rewrite fn_lookup_insert_ne. Qed.

Lemma commit_put_node s G H i rf :
  Inv s G → InvC s G H → view rf = view (nodes s i) → InvC (put_node s i rf) G H.
Proof.
  intros HI HC Hv. apply (quiet_step i s); try done; auto.
  - intros j Hj. by rewrite put_node_there.
  - rewrite put_node_here. cbn. intros Hr. split; [|by apply moves_view].
    eapply peer_ok_view; [done|]. by apply HC.
Qed.

Lemma commit_put_loop s G H i pc :
  Inv s G → InvC s G H → pc ≠ LoopVote → InvC (put_loop s i pc) G H.
Proof.
  intros HI HC Hpc. apply (quiet_step i s); try done; auto.
  - intros j Hj. cbn. by rewrite fn_lookup_insert_ne.
  - cbn. rewrite fn_lookup_insert. intros Hr. split; [|by apply moves_view].
    eapply peer_ok_loop; [|by apply HC]. done.
Qed.

Lemma commit_spawn s G H ths :
  Inv s G → InvC s G H → Forall (goroutine_ok s G H) ths → InvC (spawn s ths) G H.
Proof.
  intros HI HC Hok. apply (quiet_step 0 s); try done; auto.
  - intros Hr. split; [by apply HC|by apply moves_refl].
  - intros th. cbn. intros [?|Hin]%elem_of_app; [by left|right].
    eapply Forall_forall in Hok; [|exact Hin]. by destruct th as [? ? ? ? ? []|? ? ? []|].
Qed.

Lemma view_core rf rf' : core rf' = core rf → view rf' = view rf.
Proof. destruct rf, rf'. unfold core, view. cbn. congruence. Qed.

(** The actor's node and goroutine [tid] change, the node not in what the
    invariant reads. *)
Lemma commit_node_thread s G H i rf tid th' :
  Inv s G → InvC s G H → view rf = view (nodes s i) →
  goroutine_ok (put_node s i rf) G H th' →
  InvC (put_thread (put_node s i rf) tid th') G H.
Proof.
  intros HI HC Hv Hok. apply (quiet_step i s); try done; auto.
  - intros j Hj. split; [by apply put_node_there|done].
  - change (nodes (put_thread _ _ _)) with (nodes (put_node s i rf)).
    rewrite put_node_here. cbn. intros Hr. split; [|by apply moves_view].
    eapply peer_ok_view; [done|]. by apply HC.
  - intros th [->|?]%elem_of_put; [right|by left].
    by destruct th' as [? ? ? ? ? []|? ? ? []|].
Qed.

(** ** Events that leave the histories alone *)

Lemma commit_loop_top s G H i now s' :
  Inv s G → InvC s G H → exec_loop_top s i now = Some (Ok s') → InvC s' G H.
Proof.
  intros HI HC. unfold exec_loop_top. destruct (loops s i); try done. intros [= <-].
  apply commit_put_loop; [done..|]. by repeat case_match.
Qed.

Lemma commit_loop_end s G H i now s' :
  Inv s G → InvC s G H → exec_loop_end s i now = Some (Ok s') → InvC s' G H.
Proof.
  intros HI HC. unfold exec_loop_end. destruct (loops s i); try done. intros [= <-].
  apply (commit_put_node (put_loop s i LoopTop)).
  - by apply (good_put_loop s G i LoopTop).
  - by apply commit_put_loop.
  - by apply view_core, election_loop_end_core.
Qed.

Lemma commit_lose s G H tid s' :
  Inv s G → InvC s G H → exec_lose s tid = Some (Ok s') → InvC s' G H.
Proof.
  intros HI HC. unfold exec_lose.
  destruct (threads s !! tid) as [[o p ep k args []|o p ep [|args|args|args rep|args rep|args rep|args rep w|args ok|]|?]|] eqn:Hth; try done;
    pose proof (commit_goroutine _ _ _ _ _ HC Hth) as Hok; intros [= <-];
    by apply commit_put_thread.
Qed.

Lemma commit_check s G H tid s' :
  Inv s G → InvC s G H → exec_check s tid = Some (Ok s') → InvC s' G H.
Proof.
  intros HI HC. unfold exec_check.
  destruct (threads s !! tid) as [[o p ep k args []|o p ep [|args|args|args rep|args rep|args rep|args rep w|args ok|]|?]|] eqn:Hth; try done;
    pose proof (commit_goroutine _ _ _ _ _ HC Hth) as Hok; (destruct (alive s o ep); [|done]);
    intros [= <-]; apply commit_put_thread; try done; by case_match.
Qed.

Lemma commit_rewind s G H tid s' :
  Inv s G → InvC s G H → exec_rewind s tid = Some (Ok s') → InvC s' G H.
Proof.
  intros HI HC. unfold exec_rewind.
  destruct (threads s !! tid) as [[?|o p ep [|args|args|args rep|args rep|args rep|args rep w|args ok|]|?]|] eqn:Hth; try done;
    pose proof (commit_goroutine _ _ _ _ _ HC Hth) as Hok; (destruct (alive s o ep); [|done]).
  - intros [= <-]. apply commit_put_thread; try done. by case_match.
  - destruct (rewind _ _ _ _ _) as [rf| |] eqn:Hrw; cbn; try done. intros [= <-].
    apply commit_node_thread; try done; [by eapply view_core, rewind_core|by destruct w].
Qed.

Lemma commit_submit s G H tid s' :
  Inv s G → InvC s G H → exec_submit s tid = Some (Ok s') → InvC s' G H.
Proof.
  intros HI HC. unfold exec_submit.
  destruct (threads s !! tid) as [[?|?|o ep []]|] eqn:Hth; try done;
    (destruct (alive s o ep); [|done]); intros [= <-]; by apply commit_node_thread.
Qed.

Lemma commit_tick s G H tid s' :
  Inv s G → InvC s G H → exec_tick s tid = Some (Ok s') → InvC s' G H.
Proof.
  intros HI HC. unfold exec_tick.
  destruct (threads s !! tid) as [[?|?|o ep []]|] eqn:Hth; try done.
  destruct (alive s o ep); [|done]. intros [= <-]. case_match.
  - apply commit_spawn; [done..|]. by apply Forall_fmap, Forall_forall.
  - by apply commit_node_thread.
Qed.

(** A leader's log extends the log it was elected with. *)
Lemma leader_base n G H i rf :
  node_ok n G i rf → global_ok n G H → role rf = Leader →
  ∃ l x, base G H (currentTerm rf) l ∧ logs rf = l ++ x ∧
         Forall (λ e, term e = currentTerm rf) x ∧ Forall (λ e, term e < currentTerm rf) l.
Proof.
  intros HN HL Hr. destruct (nk_lead _ _ _ _ HN Hr) as (HW & Hc).
  destruct (g_won _ _ _ HL _ _ HW) as (l & x & Hl & Heq & Hx).
  exists l, x. split; [by exists i|]. split; [congruence|]. split; [done|].
  by destruct (g_cand _ _ _ HL _ _ _ Hl).
Qed.

(** The parts of the state the invariant does not read. *)
Lemma commit_put_crit s G H i c : InvC s G H → InvC (put_crit s i c) G H.
Proof. intros [HL HP HT HA]. by constructor. Qed.

Lemma commit_prepare s G H tid s' :
  Inv s G → InvC s G H → lock_check_holds s (EPrepare tid) = true →
  exec_prepare s tid = Some (Ok s') → InvC s' G H.
Proof.
  intros HI HC Hlc. unfold exec_prepare. cbn in Hlc.
  destruct (threads s !! tid) as [[?|o p ep [|args|args|args rep|args rep|args rep|args rep w|args ok|]|?]|] eqn:Hth; try done.
  destruct (may_lock s o ep); [|done]. apply bool_decide_eq_true in Hlc.
  pose proof (inv_thread _ _ _ _ HI Hth) as (Ho & _).
  intros [= Hs]. mbind_inv Hs. rename a into args. injection Hs as <-.
  apply prepare_append_inv in E as (_ & Hle & Hen & _ & HT & _ & Hcm).
  apply commit_put_crit, commit_put_thread; [done..|]. cbn.
  pose proof (inv_nodes _ _ HI o Ho) as HN.
  destruct (leader_base _ _ _ _ _ HN (ic_global _ _ _ HC) Hlc) as (l & x & Hb & Hlog & _ & _).
  destruct (nk_lead _ _ _ _ HN Hlc) as (_ & Hcan).
  unfold append_ok. rewrite HT, Hcm, Hcan. split.
  - exists l. split; [done|]. rewrite Hen, Hlog in *. rewrite len_app in Hle.
    unfold len in *. rewrite length_drop, length_app. lia.
  - apply (ic_peers _ _ _ HC o Ho).
Qed.

(** What the holder of the lock does next. *)
Lemma fill_peer G H i rf pc : peer_ok G H i rf pc → peer_ok G H i (fill_indices rf) pc.
Proof.
  rewrite fill_indices_eq. intros [Pt Pc Pcl Phl Pal Pa Pm Ps Pco Pl]. constructor; try done.
  cbn [role matchIndex persist currentTerm]. intros Hr p x Hp Hx. cbn in Hx |- *.
  apply slice_get_Ok in Hx as [Hp0 [Hx|[_ Hx]]%lookup_app_Some].
  - apply (Pm Hr p x Hp). by apply slice_get_Ok.
  - apply lookup_replicate in Hx as [-> _]. lia.
Qed.

Lemma commit_critical s G H i s' :
  Inv s G → InvC s G H → 0 ≤ i < size s → exec_critical s i = Some (Ok s') → InvC s' G H.
Proof.
  intros HI HC Hi. unfold exec_critical. destruct (crits s i) as [| | |tid]; [done|..].
  - intros [= <-]. by apply commit_put_crit, commit_put_node.
  - intros [= <-]. apply commit_put_crit.
    assert (H1 : good_step s G (put_node s i (fill_indices (nodes s i))) G).
    { apply good_put_node_same; [done..|by apply fill_indices_ok, HI|].
      by rewrite fill_indices_eq. }
    apply commit_spawn; [apply H1| |by repeat (constructor; try done)].
    apply (quiet_step i s); try done; auto.
    + intros j Hj. by rewrite put_node_there.
    + rewrite put_node_here. cbn. intros _. split; [by apply fill_peer, HC|].
      rewrite fill_indices_eq. split; [done|]. split; [done|]. by right.
  - destruct (threads s !! tid) as [[?|o p ep [|args|args|args rep|args rep|args rep|args rep w|args ok|]|?]|] eqn:Hth; try done.
    destruct (advance_next (nodes s i) p args) as [rf| |] eqn:Ha; cbn; try done.
    intros [= <-]. apply commit_put_crit, commit_node_thread; try done.
    + by eapply view_core, set_next_core.
    + exact (commit_goroutine _ _ _ _ _ HC Hth).
Qed.

(** ** A peer that follows, steps down or restarts *)

Lemma horizon_le rf rf' :
  currentTerm rf < currentTerm rf' ∨
  currentTerm rf = currentTerm rf' ∧ (votedFor rf' = votedFor rf ∨ votedFor rf' ≠ -1) →
  horizon rf ≤ horizon rf'.
Proof. unfold horizon. intros. repeat case_decide; intuition (congruence || lia). Qed.

Lemma peer_ok_follow G H i rf rf' pc pc' :
  role rf' = Follower → logs rf' = logs rf → currentTerm rf ≤ currentTerm rf' →
  horizon rf ≤ horizon rf' → covered G H (currentTerm rf') (logs rf') (Z.to_nat (commitIndex rf')) →
  (pc' = LoopVote → pc = LoopVote ∧
    (currentTerm rf < currentTerm rf' ∨ role rf ≠ Candidate ∨
     unelectable G H (currentTerm rf) i)) →
  peer_ok G H i rf pc → peer_ok G H i rf' pc'.
Proof.
  intros Hr Hl HT Hh Hco Hpc [Pt Pc Pcl Phl Pal Pa Pm Ps _ Pl].
  constructor; rewrite ?Hr, ?Hl in *; try done.
  - eapply Forall_impl; [exact Pt|]. intros e He. cbn in He. lia.
  - intros U l Hc. specialize (Pcl U l Hc). lia.
  - intros y U Hy. specialize (Phl y U Hy). lia.
  - intros T Ha. specialize (Pal T Ha). lia.
  - intros T k Hp Hk HS. apply (Pa T k Hp Hk). intros U l HU. apply HS. lia.
  - intros Hv. destruct (Hpc Hv) as [Hv' Hc]. destruct (Pl Hv') as [_ Hu].
    split; [done|]. right. destruct (decide (currentTerm rf = currentTerm rf')) as [Heq|].
    + rewrite <- Heq. destruct Hc as [?|[?|?]]; [lia|by destruct Hu|done].
    + left. destruct (cand H (currentTerm rf') i) eqn:E; [|done]. apply Pcl in E. lia.
Qed.

Lemma moves_follow H i rf pc rf' pc' :
  role rf' = Follower → currentTerm rf ≤ currentTerm rf' → moves H H i rf pc rf' pc'.
Proof. intros Hr HT. split; [done|]. split; [done|]. by rewrite Hr. Qed.

Lemma commit_restart s G H i r1 r2 now s' :
  Inv s G → InvC s G H → 0 ≤ i < size s →
  exec_restart s i r1 r2 now = Some (Ok s') → InvC s' G H.
Proof.
  intros HI HC Hi. unfold exec_restart. intros [= <-].
  pose proof (nk_saved _ _ _ _ (inv_nodes _ _ HI i Hi)) as Hs. unfold saved in Hs.
  rewrite Copy_id, Make_eq, Hs. cbn [fst snd].
  apply (quiet_step i s); try done; auto.
  - intros j Hj. cbn. by rewrite !fn_lookup_insert_ne.
  - intros _. cbn. rewrite !fn_lookup_insert. split; [|by apply moves_follow].
    apply (peer_ok_follow G H i (nodes s i) _ (loops s i)); [done..| | |done|by apply HC].
    + apply horizon_le. right. split; [done|by left].
    + by left.
  - intros j m. cbn. destruct (decide (i = j)) as [<-|].
    + rewrite fn_lookup_insert. by intros ?%elem_of_nil.
    + rewrite fn_lookup_insert_ne by done. by left.
Qed.

(** The node of the actor of a goroutine becomes a follower of a later term. *)
Lemma commit_step_down s G H tid s' :
  Inv s G → InvC s G H → lock_check_holds s (EStepDown tid) = true →
  exec_step_down s tid = Some (Ok s') → InvC s' G H.
Proof.
  assert (Hgen : ∀ o t th', Inv s G → InvC s G H → currentTerm (nodes s o) < t →
    (∀ s', loops s' = loops s → nodes s' o = step_down (nodes s o) t → 0 ≤ o < size s →
       goroutine_ok s' G H th') → 0 ≤ o < size s →
    InvC (put_thread (put_node s o (step_down (nodes s o) t)) tid th') G H).
  { intros o t th' HI HC Ht Hok Ho. apply (quiet_step o s); try done; auto.
    - intros j Hj. split; [by apply put_node_there|done].
    - intros _. cbn. rewrite fn_lookup_insert. split; [|apply moves_follow; [done|cbn; lia]].
      eapply peer_ok_follow; [..|by apply HC]; try done; cbn; try lia.
      + apply horizon_le. left. done.
      + eapply covered_take; [done| |by apply HC]. lia.
      + intros. split; [done|]. by left.
    - intros th [->|?]%elem_of_put; [right|by left]. apply Hok; try done.
      apply put_node_here. }
  intros HI HC Hlc. unfold exec_step_down. cbn in Hlc.
  destruct (threads s !! tid) as [[o p ep k args []|o p ep [|args|args|args rep|args rep|args rep|args rep w|args ok|]|?]|] eqn:Hth; try done;
    pose proof (inv_thread _ _ _ _ HI Hth) as (Ho & _);
    pose proof (commit_goroutine _ _ _ _ _ HC Hth) as Hok; (destruct (may_lock s o ep); [|done]);
    intros [= <-]; apply Z.ltb_lt in Hlc; apply Hgen; try done.
  intros s' Hls Hns _. cbn in *. rewrite Hns, Hls.
  eapply request_ok_moves; [apply grown_refl| |exact Hok]. apply moves_follow; [done|cbn; lia].
Qed.

(** ** Elections *)

Lemma vote_request_ok s G H i p (args : RequestVoteArgs) pc :
  InvC s G H → node_ok (size s) G i (nodes s i) → 0 ≤ i < size s →
  loops s i = LoopVote → pc ≠ LoopVote → (p, args) ∈ doVote (nodes s i) →
  request_ok G H i (nodes s i) pc args.
Proof.
  intros HC HN Hi Hpc Hpc' Hin. apply list_elem_of_fmap in Hin as (p' & [= _ ->] & _).
  split; [done|]. split; [done|]. cbn. intros l Hl.
  pose proof (ic_peers _ _ _ HC i Hi) as HP.
  destruct (p_loop _ _ _ _ _ HP Hpc) as [_ [Hr|[Hu|Hu]]]; [left|congruence|by right].
  pose proof (p_cand _ _ _ _ _ HP Hr). naive_solver congruence.
Qed.

Lemma commit_do_vote s G H i G' s' :
  Inv s G → InvC s G H → 0 ≤ i < size s → exec_do_vote s i = Some (Ok s') → ext G G' →
  G' = new_camp G (length (campaigns s)) i (currentTerm (nodes s i)) → InvC s' G' H.
Proof.
  intros HI HC Hi. unfold exec_do_vote. destruct (loops s i) eqn:Hpc; try done.
  intros [= <-] HE HG'.
  assert (HL : global_ok (size s) G' H) by (subst G'; by destruct (ic_global _ _ _ HC)).
  assert (HP : 0 ≤ i < size s → peer_ok G' H i (nodes s i) (loops s i)).
  { intros _. subst G'. by destruct (ic_peers _ _ _ HC i Hi). }
  apply (actor_step i (nodes s i) LoopEnd s G H);
    [done|done|by apply grown_ext|done|done|done|..|by left]; cbn.
  - by rewrite fn_lookup_insert.
  - intros j Hj. by rewrite fn_lookup_insert_ne.
  - done.
  - subst G'. by left.
  - intros _. split; [|by apply moves_view]. eapply peer_ok_loop; [|by apply HP]. done.
  - intros th [?|Hin]%elem_of_app; [by left|right].
    apply list_elem_of_fmap in Hin as ([p args] & -> & Hin). cbn. rewrite fn_lookup_insert.
    subst G'. exact (vote_request_ok s G H i p args LoopEnd HC (inv_nodes _ _ HI i Hi) Hi Hpc
      ltac:(done) Hin).
Qed.

Lemma commit_elect s G H i rnd G' s' :
  Inv s G → InvC s G H → 0 ≤ i < size s → lock_check_holds s (EElect i rnd) = true →
  exec_elect s i rnd = Some (Ok s') → good_step s G s' G' → traced s (EElect i rnd) G G' →
  ∃ H', InvC s' G' H' ∧ grown G H G' H'.
Proof.
  intros HI HC Hi Hlc%Z.ltb_lt. unfold exec_elect. destruct (loops s i) eqn:Hpc; try done.
  intros [= <-] [_ HE _ _] [HN0 HG']. cbn in HG'.
  pose proof (ic_peers _ _ _ HC i Hi) as HP. pose proof (ic_global _ _ _ HC) as HL.
  pose proof (inv_nodes _ _ HI i Hi) as HN.
  set (rf := nodes s i) in *.
  destruct (start_election_ok (size s) G i rf rnd HN ltac:(lia) Hlc) as (_ & _ & _ & HT).
  set (t := currentTerm rf + 1) in *.
  exists (stand H t i (logs rf)).
  assert (Hnew : cand H t i = None).
  { destruct (cand H t i) eqn:E; [|done]. apply (p_cand_le _ _ _ _ _ HP) in E. lia. }
  assert (HW : grown G H G' (stand H t i (logs rf))) by by apply grown_stand.
  assert (Hret : ∀ T k hi, t ≤ hi → proper G' (stand H t i (logs rf)) T k →
    (k ≤ ack H i T)%nat → retained G' (stand H t i (logs rf)) T k hi (logs rf)).
  { intros T k hi Hhi Hp Hk. pose proof (g_ack _ _ _ HL i T).
    eapply retained_grown; [exact HW|lia| |apply (p_ack _ _ _ _ _ HP)]; [| |done].
    - unfold horizon. fold rf. case_decide; lia.
    - eapply proper_back; [apply HI|exact HL|exact HW| |done]. lia. }
  assert (Hhist : ∀ y U c, hist G' y U = Some c → hist G y U = Some c ∨ y = i ∧ U = t ∧ c = i).
  { intros y U c. rewrite HG'. cbn. case_decide; naive_solver. }
  assert (Hcand : ∀ U c l, cand (stand H t i (logs rf)) U c = Some l →
    cand H U c = Some l ∨ U = t ∧ c = i ∧ l = logs rf).
  { intros U c l. cbn. case_decide; naive_solver. }
  assert (Hterms : Forall (λ e, term e < t) (logs rf)).
  { eapply Forall_impl; [apply HP|]. intros e He. cbn in He. lia. }
  assert (HL' : global_ok (size s) G' (stand H t i (logs rf))).
  { apply (global_grown _ G H); [apply HI|done|done| | | | |]; [..|by left].
    - intros U c l Hc. destruct (Hcand U c l Hc) as [?|(-> & -> & ->)]; [by left|right].
      split; [done|]. eapply log_sound_ext; [done|apply HN].
    - intros U L HU. left. by rewrite HG' in *.
    - by left.
    - intros y U c l Hc Hh. destruct (Hcand U c l Hc) as [Hc'|(-> & -> & ->)].
      + left. split; [done|]. split; [|done].
        destruct (Hhist y U c Hh) as [?|(-> & -> & ->)]; [done|congruence].
      + right. destruct (Hhist y t i Hh) as [Hh'|(-> & _ & _)].
        * apply (p_hist_le _ _ _ _ _ HP) in Hh'. lia.
        * right. intros T k _. by apply Hret. }
  split; [|done].
  apply (actor_step i (start_election rf rnd) LoopVote s G H);
    [done|done|done|done|done|..|by left|by left]; cbn [nodes loops put_node put_loop].
  - by cbn; rewrite fn_lookup_insert.
  - by cbn; rewrite fn_lookup_insert.
  - intros j Hj. cbn. by rewrite !fn_lookup_insert_ne.
  - intros j Hj. split; [|done]. intros U. cbn. by rewrite decide_False by naive_solver.
  - intros j y U Hj Hh. left. destruct (Hhist _ _ _ Hh) as [?|(_ & _ & ?)]; done.
  - intros _. split; [|split; [fold rf; lia|split; [|left; fold rf; lia]]].
    + constructor; rewrite ?HT; try done; cbn [logs start_election persist update].
      * eapply Forall_impl; [exact Hterms|]. intros e He. cbn in He. lia.
      * intros _. cbn. by rewrite decide_True.
      * intros U l Hc. destruct (Hcand U i l Hc) as [Hc'|(-> & _ & _)]; [|done].
        apply (p_cand_le _ _ _ _ _ HP) in Hc'. lia.
      * intros y U Hh. destruct (Hhist _ _ _ Hh) as [Hh'|(_ & -> & _)]; [|done].
        apply (p_hist_le _ _ _ _ _ HP) in Hh'. lia.
      * intros T Ha. apply (p_ack_le _ _ _ _ _ HP) in Ha. lia.
      * intros T k. apply Hret. unfold horizon. rewrite HT. case_decide; lia.
      * eapply covered_take; [done| |eapply covered_grown; [exact HL|done|apply HP]]. lia.
      * intros _. split; [done|by left].
    + intros U l HU Hc. destruct (Hcand U i l Hc) as [?|(-> & _ & _)]; [done|fold rf in HU; lia].
Qed.

(** ** The leader appends *)

(** Votes of later terms do not see an acceptance in term [T]. *)
Lemma accept_before H p T m y U T' :
  (y = p → U ≤ T) → T' < U → ack (accept H p T m) y T' = ack H y T'.
Proof. intros Hy HU. apply accept_other. destruct (decide (y = p)); [right|by left]. naive_solver lia. Qed.

Lemma prefix_snoc l (e : Entry) l' : l' `prefix_of` l → l' `prefix_of` l ++ [e].
Proof. intros. by apply prefix_app_r. Qed.

Lemma start_global n G H i rf cmd :
  ghost_ok n G → global_ok n G H → node_ok n G i rf → role rf = Leader →
  ext G (started rf cmd G) →
  global_ok n (started rf cmd G) (accept H i (currentTerm rf) (length (logs rf ++ [mkEntry cmd (currentTerm rf)]))).
Proof.
  intros HG HL HN Hr HE. pose proof HN as [? ? ? ? ? ? Hlead ? ? Hh ? ? ?].
  destruct (Hlead Hr) as (HW & Hc).
  assert (Hcan : canon (started rf cmd G) (currentTerm rf) = logs rf ++ [mkEntry cmd (currentTerm rf)]).
  { unfold started. rewrite decide_True by done. cbn. by rewrite decide_True, Hc. }
  apply (global_grown _ G H);
    [done|done|by apply grown_accept|by left|..|by left].
  - intros U L HU. destruct (decide (U = currentTerm rf)) as [->|Hne].
    + right. destruct (leader_base _ _ _ _ _ HN HL Hr) as (l & x & (L' & HW' & Hl) & Heq & Hx & _).
      unfold started in HU. rewrite decide_True in HU by done. cbn in HU.
      exists l, (x ++ [mkEntry cmd (currentTerm rf)]). split; [naive_solver congruence|].
      split; [by rewrite Hcan, Heq, app_assoc|]. apply Forall_app. split; [done|].
      by constructor.
    + left. unfold started in *. rewrite decide_True in * by done. cbn in *.
      by rewrite decide_False.
  - intros y T. destruct (accept_inv H i (currentTerm rf) (length (logs rf ++ [mkEntry cmd (currentTerm rf)])) y T) as [?|(-> & -> & ->)];
      [by left|right]. by rewrite Hcan.
  - intros y U c l Hca Hhi. left. split; [done|].
    assert (Hhi' : hist G y U = Some c).
    { unfold started in Hhi. by case_decide. }
    split; [done|]. intros T HT. apply (accept_before _ _ _ _ _ U); [|done]. intros ->.
    apply Hh in Hhi'. lia.
Qed.

Lemma start_peer n G H i rf cmd pc :
  ghost_ok n G → global_ok n G H → node_ok n G i rf → role rf = Leader →
  ext G (started rf cmd G) → peer_ok G H i rf pc →
  peer_ok (started rf cmd G)
    (accept H i (currentTerm rf) (length (logs rf ++ [mkEntry cmd (currentTerm rf)]))) i
    (fst (Start rf cmd)) pc.
Proof.
  intros HG HL HN Hr HE [Pt Pc Pcl Phl Pal Pa Pm Ps Pco Pl].
  set (e := mkEntry cmd (currentTerm rf)). set (T := currentTerm rf) in *.
  set (H' := accept H i T (length (logs rf ++ [e]))). set (G' := started rf cmd G) in *.
  assert (HW : grown G H G' H') by by apply grown_accept.
  destruct (nk_lead _ _ _ _ HN Hr) as (_ & Hc).
  assert (Hcan : canon G' T = logs rf ++ [e]).
  { unfold G', started. rewrite decide_True by done. cbn. by rewrite decide_True, Hc. }
  unfold Start. rewrite decide_True by done. fold e. cbn [fst].
  constructor; cbn [logs currentTerm role votedFor commitIndex matchIndex persist update];
    rewrite ?Hr; try done; fold T.
  - apply Forall_app. split; [done|]. by constructor.
  - intros y U. unfold G', started. rewrite decide_True by done. apply Phl.
  - intros U Ha. destruct (accept_inv H i T (length (logs rf ++ [e])) i U) as [Heq|(_ & -> & _)];
      [|done]. fold H' in Heq. rewrite Heq in Ha. auto.
  - intros U k Hp Hk HS. destruct (decide (U = T)) as [->|Hne].
    + rewrite Hcan. apply prefix_take_self.
    + unfold H' in Hk. rewrite accept_other in Hk by auto.
      pose proof (g_ack _ _ _ HL i U). apply prefix_snoc. revert HS.
      eapply retained_grown; [exact HW|lia|reflexivity|]. apply Pa; [|done].
      eapply proper_back; [done..| |done]. lia.
  - intros _ p x Hp Hx. etrans; [exact (Pm Hr p x Hp Hx)|]. apply inj_le, HW.
  - intros _. unfold H', accept. cbn. rewrite decide_True by done.
    rewrite (Ps Hr), !length_app. cbn. lia.
  - eapply covered_take; [|reflexivity|by eapply covered_grown].
    pose proof (nk_commit _ _ _ _ HN). unfold len in *. by rewrite take_app_le by lia.
  - intros Hpc. by destruct (Pl Hpc).
Qed.

Lemma commit_start s G H i cmd G' s' :
  Inv s G → InvC s G H → 0 ≤ i < size s →
  s' = put_node s i (fst (Start (nodes s i) cmd)) → good_step s G s' G' →
  G' = started (nodes s i) cmd G → ∃ H', InvC s' G' H' ∧ grown G H G' H'.
Proof.
  intros HI HC Hi -> [_ HE _ _] ->. pose proof (ic_global _ _ _ HC) as HL.
  pose proof (inv_nodes _ _ HI i Hi) as HN. pose proof (ic_peers _ _ _ HC i Hi) as HP.
  destruct (decide (role (nodes s i) = Leader)) as [Hr|Hr]; cycle 1.
  { exists H. unfold started, Start. rewrite !decide_False by done. split; [by apply commit_put_node|done]. }
  eexists. split; [|by apply grown_accept].
  apply (actor_step i (fst (Start (nodes s i) cmd)) (loops s i) s G H);
    [done|done|by apply grown_accept|by apply start_global; try apply HI|done|..|by left|by left].
  - apply put_node_here.
  - done.
  - intros j Hj. split; [by apply put_node_there|done].
  - intros j Hj. split; [done|]. intros T. apply accept_other. auto.
  - intros j y U Hj Hh. left. unfold started in Hh. by case_decide.
  - intros _. split; [by apply (start_peer (size s)); try apply HI|].
    unfold Start. rewrite decide_True by done. split; [done|]. split; [done|]. cbn. by rewrite Hr.
Qed.

(** ** Votes *)

Lemma RequestVote_log_ok now rf args :
  VoteGranted (snd (RequestVote now rf args)) = true → log_ok (logs rf) args = true.
Proof.
  unfold RequestVote. zcase; [done|]. unfold adopt_term.
  destruct (currentTerm rf <? rv_Term args); cbn;
    destruct (log_ok (logs rf) args); rewrite ?andb_false_r; done.
Qed.

(** A vote request leaves a peer as it is or makes it a follower: of a later
    term, or one that voted for the sender, for the first time or again. *)
Lemma RequestVote_cases now rf args :
  let rf' := fst (RequestVote now rf args) in
  view rf' = view rf ∨
  role rf' = Follower ∧ logs rf' = logs rf ∧ commitIndex rf' = commitIndex rf ∧
  (currentTerm rf < currentTerm rf' ∨
   currentTerm rf' = currentTerm rf ∧ votedFor rf' = CandidateId args ∧
   (votedFor rf = -1 ∨ votedFor rf = CandidateId args)).
Proof.
  cbv zeta. unfold RequestVote. zcase; [by left|]. unfold adopt_term.
  destruct (Z.ltb_spec (currentTerm rf) (rv_Term args)).
  - right. destruct (_ && _); cbn; do 3 (split; [done|]); by left.
  - destruct (_ && _) eqn:E; [right|by left]. cbn. do 3 (split; [done|]). right.
    do 2 (split; [done|]). apply andb_prop in E as [E _].
    apply orb_prop in E as [?%Z.eqb_eq|?%Z.eqb_eq]; auto.
Qed.

(** A peer that has just voted for another in its own term is no candidate that
    can still win. *)
Lemma voted_unelectable n G H p rf c :
  node_ok n G p rf → role rf = Candidate → c ≠ p → c ≠ -1 →
  votedFor rf = -1 ∨ votedFor rf = c → unelectable G H (currentTerm rf) p.
Proof.
  intros HN Hr Hc Hc' Hv. assert (1 ≤ currentTerm rf) by (apply HN; by rewrite Hr).
  destruct (nk_cand _ _ _ _ HN Hr) as [Hself _].
  destruct Hv as [Hv|Hv]; [pose proof (nk_novote _ _ _ _ HN); naive_solver|].
  destruct (nk_vote _ _ _ _ HN) as [?|?]; [done|congruence|naive_solver|].
  right. exists c. naive_solver.
Qed.

Lemma vote_peer n G H p rf now args pc :
  node_ok n G p rf → 0 ≤ CandidateId args → CandidateId args ≠ p →
  peer_ok G H p rf pc →
  let rf' := fst (RequestVote now rf args) in
  peer_ok G H p rf' pc ∧ moves H H p rf pc rf' pc.
Proof.
  intros HN Hc Hne HP. cbv zeta.
  destruct (RequestVote_cases now rf args) as [Hv|(Hr & Hl & Hci & HT)].
  { split; [by eapply peer_ok_view|by apply moves_view]. }
  assert (Hle : currentTerm rf ≤ currentTerm (RequestVote now rf args).1) by lia.
  split; [|by apply moves_follow].
  eapply peer_ok_follow; [done..| | |intros; split; [done|]|exact HP].
  - apply horizon_le. destruct HT as [?|(? & -> & _)]; [by left|right; split; [done|right; lia]].
  - rewrite Hl, Hci. eapply covered_take; [done| |apply HP]. lia.
  - destruct HT as [?|(_ & _ & Hvf)]; [by left|right].
    destruct (role rf) eqn:Hro; [by left| |by left]. right.
    eapply voted_unelectable; try done. lia.
Qed.

(** The vote of [p] for [o] vouches for what [p] has accepted. *)
Lemma vote_vouches n G H p rf pc o rfo pco now args l :
  ghost_ok n G → global_ok n G H → node_ok n G p rf → peer_ok G H p rf pc →
  request_ok G H o rfo pco args → ballot_free now rf args →
  cand H (rv_Term args) o = Some l → vote_ok G H p (rv_Term args) o l.
Proof.
  intros HG HL HN HP (_ & _ & Hreq) [Hgr Hfree] Hl.
  destruct (Hreq l Hl) as [[Hidx Hlt]|?]; [right|by left].
  intros T k HT Hp Hk HS. destruct (g_cand _ _ _ HL _ _ _ Hl) as [Hterms Hsound].
  refine (up_to_date n G H T k _ (logs rf) l args HG HL _ Hsound Hterms Hp _ Hidx Hlt _ HS).
  - apply HN.
  - apply (p_ack _ _ _ _ _ HP T k Hp Hk). intros U b HU. apply HS. revert HU.
    unfold horizon. case_decide; lia.
  - by eapply RequestVote_log_ok.
Qed.

Lemma vote_global n G H p rf pc o rfo pco now args G' :
  ghost_ok n G → global_ok n G H → node_ok n G p rf → peer_ok G H p rf pc →
  request_ok G H o rfo pco args → ext G G' →
  ballot p (rv_Term args) o (ballot_free now rf args) G G' → global_ok n G' H.
Proof.
  intros HG HL HN HP Hreq HE HB.
  apply (global_grown _ G H); [done|done|by apply grown_ext|by left| |by left| |by left].
  - intros U L. destruct HB as [->|(_ & _ & ->)]; auto.
  - intros y U c l Hc Hh.
    assert (Hor : hist G y U = Some c ∨
      y = p ∧ U = rv_Term args ∧ c = o ∧ ballot_free now rf args).
    { destruct HB as [->|(Hf & _ & ->)]; [by left|]. revert Hh. rewrite hist_give_vote.
      case_decide; naive_solver. }
    destruct Hor as [?|(-> & -> & -> & Hf)]; [by left|right].
    eapply vote_ok_grown; [exact HG|exact HL|by apply grown_ext|done|].
    by eapply vote_vouches.
Qed.

Lemma commit_deliver_vote s G H tid o p ep k args now G' s' :
  Inv s G → InvC s G H → threads s !! tid = Some (RVThread o p ep k args RVSent) →
  exec_deliver s tid now = Some (Ok s') → good_step s G s' G' →
  ballot p (rv_Term args) o (ballot_free now (nodes s p) args) G G' → InvC s' G' H.
Proof.
  intros HI HC Hth Hex [_ HE _ _] HB. unfold exec_deliver in Hex. rewrite Hth in Hex.
  destruct (unlocked s p); [|done].
  pose proof (inv_thread _ _ _ _ HI Hth) as (Ho & Hp & Hpo & Hcid & _ & _ & _).
  pose proof (commit_goroutine _ _ _ _ _ HC Hth) as Hreq. cbn in Hreq.
  pose proof (inv_nodes _ _ HI p Hp) as HN. pose proof (ic_peers _ _ _ HC p Hp) as HP.
  destruct (vote_peer _ _ _ _ _ now args _ HN ltac:(lia) ltac:(congruence) HP) as [HP' HM].
  pose proof (vote_global _ _ _ _ _ _ _ _ _ _ _ _ (inv_ghost _ _ HI) (ic_global _ _ _ HC)
    HN HP Hreq HE HB) as HL'.
  destruct (RequestVote now (nodes s p) args) as [rf' r]. cbn in HP', HM. injection Hex as <-.
  assert (Hhist : ∀ y U c, hist G' y U = Some c → hist G y U = Some c ∨ c = o ∧ U = rv_Term args).
  { intros y U c. destruct HB as [->|(_ & _ & ->)]; [by left|]. rewrite hist_give_vote.
    case_decide; naive_solver. }
  apply (actor_step p rf' (loops s p) s G H);
    [done|done|by apply grown_ext|done|done|apply put_node_here|done|..|by left].
  - intros j Hj. split; [by apply put_node_there|done].
  - done.
  - intros j y U Hj Hh. destruct (Hhist _ _ _ Hh) as [?|[-> ->]]; [by left|right].
    intros _. apply Hreq.
  - intros _. split; [|done].
    apply (peer_ok_grown (size s) G H); [apply HI|apply HC|by apply grown_ext|done|done| |done].
    intros y U Hh. left. destruct (Hhist _ _ _ Hh) as [?|[-> _]]; done.
  - intros th [->|?]%elem_of_put; [right|by left]. cbn. rewrite fn_lookup_insert_ne by done.
    eapply request_ok_moves; [by apply grown_ext|by apply moves_refl|done].
Qed.

(** ** AppendEntries *)

(** What the handler does with a message of the leader of its term. *)
Lemma append_cases n G p o rf now (args : AppendEntriesArgs Cmd) rf' r msgs :
  ghost_ok n G → node_ok n G p rf → msg_ok G o args →
  AppendEntries now rf args = Ok (rf', r, msgs) →
  Success r = false ∧ msgs = [] ∧
    (view rf' = view rf ∨
     role rf' = Follower ∧ logs rf' = logs rf ∧ commitIndex rf' = commitIndex rf ∧
     currentTerm rf ≤ currentTerm rf' ∧ currentTerm rf' = ae_Term args ∧ votedFor rf' = o) ∨
  Success r = true ∧ currentTerm rf ≤ currentTerm rf' ∧ currentTerm rf' = ae_Term args ∧
    votedFor rf' = o ∧ role rf' = Follower ∧ commitIndex rf' = LeaderCommit args ∧
    len (logs rf') = PrevLogIndex args + len (Entries args) ∧
    logs rf' `prefix_of` canon G (ae_Term args) ∧
    apply_range (logs rf') (commitIndex rf) (LeaderCommit args) = Ok msgs.
Proof.
  intros HG HN HM (rf0 & k & Hc & Hr & H)%AppendEntries_inv.
  destruct HM as [Hlead _ Hwon _ (pre & Hlen & Hprev & Hpre)].
  destruct (check_append_inv _ _ _ _ _ _ Hc) as
    [(Hlt & -> & Hs & ->)|[(Hle & Hs & -> & -> & Hpos & Hno)|(Hle & Hs & -> & -> & Hm)]];
    rewrite Hs in *; [left|left|right].
  - destruct H as [-> ->]. split; [done|]. split; [done|]. by left.
  - destruct H as [-> ->]. split; [done|]. split; [done|]. right. by cbn.
  - destruct H as (rf1 & Ha & ->). apply accept_entries_inv in Ha as (Hb & Hap & ->).
    cbn in *.
    assert (Hkept : take (Z.to_nat (PrevLogIndex args)) (logs rf) = pre).
    { destruct (Z.eq_dec (PrevLogIndex args) 0) as [Heq|].
      - rewrite Heq in *. unfold len in Hlen. by destruct pre.
      - destruct (Hm ltac:(lia)) as (e & He & HeT).
        eapply kept_prefix; [done|apply HN|done|lia| |by apply Hprev; lia|done..].
        etrans; [|done]. by eexists. }
    rewrite Hkept in *. rewrite len_app, Hlen. split_and!; done.
Qed.

(** Messages about committed entries carry chosen commands. *)
Lemma covered_chosen G H hi l a c msgs m :
  0 ≤ a → covered G H hi l (Z.to_nat c) → apply_range l a c = Ok msgs → m ∈ msgs →
  chosen G H (Index m) (Command m).
Proof.
  intros Ha Hc Hr%apply_range_spec [j Hj]%list_elem_of_lookup.
  destruct (Forall2_lookup_r _ _ _ _ _ Hr Hj) as (i & Hi & e & He & ->).
  apply list_elem_of_lookup_2, elem_of_range in Hi. apply slice_get_Ok in He as [_ He].
  destruct Hc as [Hc|(T & _ & Hle & Ht)]; [lia|]. exists T, e. cbn. split; [lia|].
  replace (i + 1 - 1) with i by lia. split; [|done].
  rewrite <- (lookup_take_lt _ (Z.to_nat c)), <- Ht, lookup_take_lt by lia. done.
Qed.

(** The follower has what it acknowledged in the term of the message. *)
Lemma own_term_kept n G H p rf pc T k m :
  global_ok n G H → peer_ok G H p rf pc → currentTerm rf ≤ T →
  Forall (λ e, term e ≠ T) (drop m (logs rf)) →
  proper G H T k → (k ≤ ack H p T)%nat → (k ≤ m)%nat.
Proof.
  intros HL HP HT Hdrop Hp Hk. destruct (Nat.le_gt_cases k m) as [|Hlt]; [done|exfalso].
  destruct (proper_last _ _ _ _ _ HL Hp) as (e & He & HeT & Hk0).
  assert (Hpre : take k (canon G T) `prefix_of` logs rf).
  { apply (p_ack _ _ _ _ _ HP T k Hp Hk). intros U l HU. exfalso. revert HU.
    unfold horizon. case_decide; lia. }
  assert (Hl : logs rf !! (k - 1)%nat = Some e).
  { eapply prefix_lookup_Some; [|exact Hpre]. by rewrite lookup_take_lt by lia. }
  eapply Forall_lookup_1 in Hdrop; [|rewrite lookup_drop; replace (m + (k - 1 - m))%nat
    with (k - 1)%nat by lia; exact Hl]. done.
Qed.

(** What a follower has after accepting goes beyond the log the leader was
    elected with. *)
Lemma accept_base n G H args l :
  global_ok n G H → append_ok G H args → len l = PrevLogIndex args + len (Entries args) →
  l `prefix_of` canon G (ae_Term args) → ∃ b, base G H (ae_Term args) b ∧ b `prefix_of` l.
Proof.
  intros HL [(b & Hb & Hblen) _] Hlen Hpre. exists b. split; [done|].
  destruct Hb as (L & HW & Hl). destruct (g_won _ _ _ HL _ L HW) as (b' & x & Hb' & Hcan & _).
  assert (b' = b) as -> by congruence.
  apply (prefix_weak_total b l (canon G (ae_Term args))) in Hpre
    as [?|Hlb]; [done| |rewrite Hcan; by eexists].
  apply prefix_length in Hlb as Hlb'. unfold len in *.
  destruct Hlb as [z ->]. rewrite length_app in Hblen, Hlb'. destruct z; [by rewrite app_nil_r|cbn in *; lia].
Qed.

Lemma accept_peer n G H p o rf rf' args pc :
  ghost_ok n G → global_ok n G H → peer_ok G H p rf pc → msg_ok G o args →
  append_ok G H args → p ≠ o → 0 ≤ o →
  currentTerm rf ≤ currentTerm rf' → currentTerm rf' = ae_Term args → votedFor rf' = o →
  role rf' = Follower → commitIndex rf' = LeaderCommit args →
  len (logs rf') = PrevLogIndex args + len (Entries args) →
  logs rf' `prefix_of` canon G (ae_Term args) →
  Forall (λ e, term e ≠ ae_Term args) (drop (length (logs rf')) (logs rf)) →
  peer_ok G (accept H p (ae_Term args) (length (logs rf'))) p rf' pc.
Proof.
  intros HG HL HP [_ _ Hwon Hcm _] Happ Hpo Ho Hle HT Hv Hr Hci Hlen Hpre Hdrop.
  destruct (accept_base _ _ _ _ _ HL Happ Hlen Hpre) as (b & Hb & Hbl). destruct Happ as [_ Hcov].
  set (T := ae_Term args) in *. pose proof HP as [Pt Pc Pcl Phl Pal Pa Pm Ps Pco Pl].
  constructor; rewrite ?HT, ?Hr; try done.
  - apply Forall_forall. intros e [j Hj]%list_elem_of_lookup.
    eapply (canon_terms n G H T e j); [done..|]. by eapply prefix_lookup_Some.
  - intros U l Hc. specialize (Pcl U l Hc). lia.
  - intros y U Hh. specialize (Phl y U Hh). lia.
  - intros U Ha. destruct (accept_inv H p T (length (logs rf')) p U) as [Heq|(_ & -> & _)]; [|done].
    rewrite Heq in Ha. specialize (Pal U Ha). lia.
  - intros U k Hp Hk HS. change (proper G H U k) in Hp.
    destruct (decide (U = T)) as [->|Hne].
    + assert (Hkm : (k ≤ length (logs rf'))%nat).
      { destruct (accept_inv H p T (length (logs rf')) p T) as [Heq|(_ & _ & Heq)]; [|lia].
        rewrite Heq in Hk. eapply own_term_kept; [exact HL|exact HP| |done..]. lia. }
      rewrite <- (prefix_take k _ _ Hpre Hkm). apply prefix_take_self.
    + rewrite accept_other in Hk by auto.
      destruct (proper_last _ _ _ _ _ HL Hp) as (_ & _ & _ & Hk0).
      specialize (Pal U ltac:(lia)). etrans; [|exact Hbl]. apply (HS T b); [|done].
      unfold horizon. rewrite Hv, HT. case_decide; lia.
  - rewrite Hci. apply (covered_take _ _ T T (canon G T)); [|done|exact Hcov]. symmetry.
    apply prefix_take; [done|]. unfold len in *. lia.
  - intros Hpc. split; [done|]. right. right. exists o. auto.
Qed.

Lemma accept_global n G H p m T rf :
  ghost_ok n G → global_ok n G H → node_ok n G p rf → currentTerm rf ≤ T →
  (m ≤ length (canon G T))%nat → global_ok n G (accept H p T m).
Proof.
  intros HG HL HN HT Hm.
  apply (global_grown _ G H); [done|done|by apply grown_accept|by left|by left| | |by left].
  - intros y U. destruct (accept_inv H p T m y U) as [?|(-> & -> & ->)]; auto.
  - intros y U c l Hc Hh. left. do 2 (split; [done|]). intros T' HT'.
    apply (accept_before _ _ _ _ _ U); [|done]. intros ->. apply (nk_hist _ _ _ _ HN) in Hh. lia.
Qed.

(** The handler has answered: node, goroutine and channel of peer [p] change. *)
Definition answered s (p : Z) rf (tid : nat) (th : Thread) msgs : Cluster :=
  apply (put_thread (put_node s p rf) tid th) p msgs.

Lemma answered_applied s p rf tid th msgs j m :
  m ∈ applied (answered s p rf tid th msgs) j → m ∈ applied s j ∨ m ∈ msgs.
Proof.
  cbn. destruct (decide (p = j)) as [<-|].
  - rewrite fn_lookup_insert. by intros [?|?]%elem_of_app; [left|right].
  - rewrite fn_lookup_insert_ne by done. by left.
Qed.

(** A step of peer [p] that only adds to the second history. *)
Lemma answered_step s G H H' p rf tid o q ep ph msgs :
  Inv s G → InvC s G H → grown G H G H' → global_ok (size s) G H' →
  (∀ j, j ≠ p → ∀ T, ack H' j T = ack H j T) → (∀ U c, cand H' U c = cand H U c) →
  peer_ok G H' p rf (loops s p) → moves H H' p (nodes s p) (loops s p) rf (loops s p) →
  append_phase_ok G H' q ph → (∀ m, m ∈ msgs → chosen G H' (Index m) (Command m)) →
  InvC (answered s p rf tid (AEThread o q ep ph) msgs) G H'.
Proof.
  intros HI HC HW HL' Ha Hc HP HM Hph Hms.
  apply (actor_step p rf (loops s p) s G H); [done|done|done|done|done|..].
  - apply put_node_here.
  - done.
  - intros j Hj. split; [by apply put_node_there|done].
  - auto.
  - by left.
  - done.
  - intros th [->|?]%elem_of_put; [by right|by left].
  - intros j m Hm. apply answered_applied in Hm as [?|?]; auto.
Qed.

Lemma commit_deliver_append s G H tid o p ep args now s' :
  Inv s G → InvC s G H → threads s !! tid = Some (AEThread o p ep (AESent args)) →
  keeps_own_term s (EDeliver tid now) = true →
  exec_deliver s tid now = Some (Ok s') → ∃ H', InvC s' G H' ∧ grown G H G H'.
Proof.
  intros HI HC Hth Hkeep Hex. unfold exec_deliver in Hex. cbn in Hkeep. rewrite Hth in *.
  destruct (unlocked s p); [|done].
  injection Hex as Hex. mbind_inv Hex. destruct a as [[rf' r] msgs]. injection Hex as <-.
  pose proof (inv_thread _ _ _ _ HI Hth) as (Ho & Hp & Hpo & HM). cbn in HM.
  pose proof (commit_goroutine _ _ _ _ _ HC Hth) as Hap. cbn in Hap.
  pose proof (inv_nodes _ _ HI p Hp) as HN. pose proof (ic_peers _ _ _ HC p Hp) as HP.
  pose proof (ic_global _ _ _ HC) as HL. pose proof (inv_ghost _ _ HI) as HG.
  destruct (append_cases _ _ _ _ _ _ _ _ _ _ HG HN HM E) as
    [(Hs & -> & Hcase)|(Hs & Hle & HT & Hv & Hr & Hci & Hlen & Hpre & Hms)].
  - exists H. split; [|done]. apply (answered_step s G H H); try done.
    + destruct Hcase as [?|(Hr & Hl & Hci & Hle & HT & Hv)]; [by eapply peer_ok_view|].
      eapply peer_ok_follow; [done..| | | |exact HP].
      * apply horizon_le. destruct (Z.eq_dec (currentTerm (nodes s p)) (currentTerm rf'));
          [right; split; [done|right; lia]|left; lia].
      * rewrite Hl, Hci. eapply covered_take; [done| |apply HP]. lia.
      * intros Hpc. split; [done|].
        destruct (Z.eq_dec (currentTerm (nodes s p)) (currentTerm rf')) as [Heq|]; [|left; lia].
        right. right. right. exists o. rewrite Heq, HT. split; [done|apply HM].
    + destruct Hcase as [?|(Hr & _ & _ & Hle & _)]; [by apply moves_view|by apply moves_follow].
    + cbn. by rewrite Hs.
    + by intros m ?%elem_of_nil.
  - assert (Hdrop : Forall (λ e, term e ≠ ae_Term args)
      (drop (length (logs rf')) (logs (nodes s p)))).
    { apply Is_true_true, forallb_True in Hkeep.
      eapply Forall_impl; [exact Hkeep|]. intros e He Heq. cbn in He. by rewrite Heq, Z.eqb_refl in He. }
    exists (accept H p (ae_Term args) (length (logs rf'))).
    assert (Hmm : (length (logs rf') ≤ length (canon G (ae_Term args)))%nat)
      by by apply prefix_length.
    split; [|by apply grown_accept].
    apply (answered_step s G H); try done; [by apply grown_accept|..].
    + eapply accept_global; [done..| |done]. lia.
    + intros j Hj T. apply accept_other. by left.
    + eapply accept_peer; try done. lia.
    + by refine (moves_follow H _ _ _ _ _ _ _).
    + intros _. unfold acked. rewrite <- Hlen. apply inj_le, accept_ge.
    + intros m Hm. eapply covered_chosen; [|  |exact Hms|exact Hm]; [apply HN|].
      rewrite <- Hci. apply (accept_peer (size s) _ _ _ o _ _ _ (loops s p) HG HL HP HM Hap); done || lia.
Qed.

(** ** Taking office *)

Lemma win_global n G H i rf pc :
  ghost_ok n G → global_ok n G H → node_ok n G i rf → peer_ok G H i rf pc →
  role rf = Candidate → won G (currentTerm rf) = None →
  let G' := win G (currentTerm rf) i (logs rf) in
  let H' := accept H i (currentTerm rf) (length (logs rf)) in
  ext G G' → global_ok n G' H'.
Proof.
  intros HG HL HN HP Hr Hvac G' H' HE.
  apply (global_grown _ G H); [done|done|by apply grown_accept|by left|..|by left].
  - intros U L HU. destruct (decide (U = currentTerm rf)) as [->|Hne]; [right|left].
    + cbn in HU. rewrite decide_True in HU by done. injection HU as <-.
      exists (logs rf), []. split; [apply (p_cand _ _ _ _ _ HP Hr)|]. split; [|done].
      cbn. by rewrite decide_True, app_nil_r.
    + cbn in *. rewrite decide_False in HU by done. by rewrite decide_False.
  - intros y U. destruct (accept_inv H i (currentTerm rf) (length (logs rf)) y U)
      as [?|(-> & -> & Heq)]; [by left|right]. unfold H'. rewrite Heq. cbn.
    by rewrite decide_True.
  - intros y U c l Hc Hh. left. do 2 (split; [done|]). intros T HT.
    apply (accept_before _ _ _ _ _ U); [|done]. intros ->.
    apply (nk_hist _ _ _ _ HN) in Hh. lia.
Qed.

Lemma win_peer n G H i rf pc :
  ghost_ok n G → global_ok n G H → node_ok n G i rf → peer_ok G H i rf pc →
  role rf = Candidate → won G (currentTerm rf) = None → pc ≠ LoopVote →
  let G' := win G (currentTerm rf) i (logs rf) in
  let H' := accept H i (currentTerm rf) (length (logs rf)) in
  ext G G' → peer_ok G' H' i (elected rf) pc.
Proof.
  intros HG HL HN HP Hr Hvac Hpc G' H' HE. pose proof HP as [Pt Pc Pcl Phl Pal Pa Pm Ps Pco Pl].
  assert (HW : grown G H G' H') by by apply grown_accept.
  constructor; try done; cbn [logs currentTerm role votedFor commitIndex matchIndex elected update].
  - intros T Ha. destruct (accept_inv H i (currentTerm rf) (length (logs rf)) i T)
      as [Heq|(_ & -> & _)]; [|done]. unfold H' in Ha. rewrite Heq in Ha. auto.
  - intros T k Hp Hk. destruct (decide (T = currentTerm rf)) as [->|Hne].
    + destruct Hp as (l & (L & HW' & Hl) & Hlt & Hle). cbn in HW'.
      rewrite decide_True in HW' by done. injection HW' as <-. cbn in Hl.
      rewrite (Pc Hr) in Hl. injection Hl as <-.
      revert Hle. cbn. rewrite decide_True by done. lia.
    + unfold H' in Hk. rewrite accept_other in Hk by auto. pose proof (g_ack _ _ _ HL i T).
      eapply retained_grown; [exact HW|lia|reflexivity|]. apply Pa; [|done].
      eapply proper_back; [done..| |done]. lia.
  - intros _ p x Hp Hx. by apply slice_get_Ok in Hx as [_ Hx].
  - intros _. unfold H', accept. cbn. rewrite decide_True by done.
    pose proof (g_ack _ _ _ HL i (currentTerm rf)) as Ha.
    rewrite (gk_canon _ _ HG _ Hvac) in Ha. cbn in Ha. lia.
  - by eapply covered_grown.
Qed.

(** The state after a vote is counted. *)
Definition tallied s (o : Z) rf (tid : nat) (th : Thread) (camps : list Z) (w : bool) :
    Cluster :=
  let s' := put_thread (put_node s o rf) tid th <| campaigns := camps |> in
  if w then put_crit s' o Truncating else s'.

Lemma tallied_step s G H G' H' o p ep k args rf tid ph camps w :
  Inv s G → InvC s G H → grown G H G' H' → global_ok (size s) G' H' →
  (∀ U c, cand H' U c = cand H U c) → (∀ j, j ≠ o → ∀ T, ack H' j T = ack H j T) →
  (∀ y U c, hist G' y U = Some c → hist G y U = Some c) →
  request_ok G H o (nodes s o) (loops s o) args →
  peer_ok G' H' o rf (loops s o) → moves H H' o (nodes s o) (loops s o) rf (loops s o) →
  InvC (tallied s o rf tid (RVThread o p ep k args ph) camps w) G' H'.
Proof.
  intros HI HC HW HL' Hcd Hak Hh Hreq HP' HM.
  apply (actor_step o rf (loops s o) s G H); [done|done|done|done|by destruct w|..].
  - destruct w; apply put_node_here.
  - by destruct w.
  - intros j Hj. destruct w; (split; [by apply put_node_there|done]).
  - auto.
  - intros j y U _ Hy. left. eauto.
  - done.
  - intros th Hin.
    assert (Hin' : th ∈ <[tid:=RVThread o p ep k args ph]> (threads s)) by by destruct w.
    apply elem_of_put in Hin' as [->|?]; [right|by left].
    destruct w; cbn; rewrite fn_lookup_insert; by eapply request_ok_moves.
  - destruct w; by left.
Qed.

Lemma commit_tally s G H tid G' s' :
  Inv s G → InvC s G H → exec_tally s tid = Some (Ok s') → good_step s G s' G' →
  traced s (ETally tid) G G' → ∃ H', InvC s' G' H' ∧ grown G H G' H'.
Proof.
  intros HI HC Hex [_ HE _ _] Htr. unfold exec_tally in Hex. cbn in Htr.
  destruct (threads s !! tid) as [[o p ep k args [| | |ok|]|?|?]|] eqn:Hth; try done.
  destruct (campaigns s !! k) as [a|] eqn:Ha; [|done]. specialize (Htr a eq_refl).
  destruct (may_lock s o ep); [|done].
  pose proof (inv_thread _ _ _ _ HI Hth) as (Ho & _).
  pose proof (commit_goroutine _ _ _ _ _ HC Hth) as Hreq. cbn in Hreq.
  pose proof (ic_peers _ _ _ HC o Ho) as HP. pose proof (inv_nodes _ _ HI o Ho) as HN.
  destruct (tally (nodes s o) args ok a) as [[rf' a'] w]. injection Hex as <-. cbn in Htr.
  destruct Htr as [[-> ->]|(-> & Hr & HT & Hvac & ->)].
  - exists H. split; [|done].
    apply (tallied_step s G H G H o p ep k args); try done; [apply HC|by apply moves_refl].
  - exists (accept H o (currentTerm (nodes s o)) (length (logs (nodes s o)))).
    split; [|by apply grown_accept].
    apply (tallied_step s G H _ _ o p ep k args); try done; [by apply grown_accept|..].
    + eapply win_global; try done; [apply HI|apply HC].
    + intros j Hj T. apply accept_other. by left.
    + eapply win_peer; try done; [apply HI|apply HC|].
      intros Hpc. destruct Hreq as (_ & Hlt & _). specialize (Hlt Hpc Hr). lia.
Qed.

(** ** Committing *)

(** The reply of a peer that accepted a message of the current term. *)
Lemma match_peer G H i rf pc p m mt :
  peer_ok G H i rf pc → slice_set (matchIndex rf) p m = Ok mt →
  m ≤ Z.of_nat (ack H p (currentTerm rf)) → peer_ok G H i (rf <| matchIndex := mt |>) pc.
Proof.
  intros [Pt Pc Pcl Phl Pal Pa Pm Ps Pco Pl] [Hr ->]%slice_set_inv Hm.
  constructor; try done. intros Hro q x Hq Hx. cbn in Hx |- *.
  destruct (decide (q = p)) as [->|Hne].
  - apply slice_get_Ok in Hx as [_ Hx]. unfold len in Hr.
    rewrite list_lookup_insert_eq in Hx by lia. by injection Hx as <-.
  - apply (Pm Hro q x Hq). apply slice_get_Ok in Hx as [Hq0 Hx].
    apply slice_get_Ok. split; [done|]. by rewrite list_lookup_insert_ne in Hx by lia.
Qed.

(** The peers counted for an entry have accepted the log up to it. *)
Lemma holders_majority n G H i rf pc c :
  peer_ok G H i rf pc → role rf = Leader → me rf = i → peers rf = n → 0 ≤ i < n →
  1 ≤ c ≤ len (logs rf) → n < (1 + len (holders rf (c - 1))) * 2 →
  majority n (λ x, (Z.to_nat c ≤ ack H x (currentTerm rf))%nat).
Proof.
  intros HP Hr Hme Hn Hi Hc Hq. exists (i :: holders rf (c - 1)).
  assert (Hh : ∀ x, x ∈ holders rf (c - 1) → 0 ≤ x < n ∧ x ≠ i ∧
    (Z.to_nat c ≤ ack H x (currentTerm rf))%nat).
  { intros x [Hx Hin]%list_elem_of_filter. rewrite elem_of_range, Hn in Hin. split; [done|].
    unfold holds in Hx. rewrite Hme in Hx. destruct (Z.eqb_spec x i); [done|].
    split; [done|]. destruct (slice_get (matchIndex rf) x) as [m| |] eqn:Hm; [|done..].
    apply Is_true_true, Z.ltb_lt in Hx.
    pose proof (p_match _ _ _ _ _ HP Hr x m ltac:(done) Hm). lia. }
  split; [|split; [|split]].
  - constructor; [|apply NoDup_filter, NoDup_range]. intros Hin%Hh. naive_solver.
  - intros x [->|Hx%Hh]%elem_of_cons; [done|apply Hx].
  - unfold len in *. cbn. lia.
  - intros x [->|Hx%Hh]%elem_of_cons; [|apply Hx].
    rewrite (p_self _ _ _ _ _ HP Hr). unfold len in Hc. lia.
Qed.

Lemma commit_global n G H T c :
  ghost_ok n G → global_ok n G H → commit_ok n G H T c → global_ok n G (commit H T c).
Proof.
  intros HG HL Hc.
  apply (global_grown _ G H); [done|done|by apply grown_commit|by left|by left|by left|by left|].
  intros U. cbn. case_decide; [subst|by left].
  destruct (Nat.max_spec (cmt H T) c) as [[_ ->]|[_ ->]]; [by right|by left].
Qed.

Lemma commit_peer G H i rf pc c :
  peer_ok G H i rf pc → canon G (currentTerm rf) = logs rf →
  peer_ok G (commit H (currentTerm rf) (Z.to_nat c)) i (rf <| commitIndex := c |>) pc.
Proof.
  intros [Pt Pc Pcl Phl Pal Pa Pm Ps Pco Pl] Hcan. constructor; try done.
  right. exists (currentTerm rf). cbn. rewrite decide_True by done. split; [lia|]. split; [lia|].
  by rewrite Hcan.
Qed.

(** What a leader's reply handler does, once the message counts. *)
Lemma append_done_inv rf p (args : AppendEntriesArgs Cmd) ok rf' msgs :
  append_done rf p args ok = Ok (rf', msgs) →
  rf' = rf ∧ msgs = [] ∨
  ok = true ∧ ae_Term args = currentTerm rf ∧ role rf = Leader ∧
  ∃ mt, slice_set (matchIndex rf) p (PrevLogIndex args + len (Entries args)) = Ok mt ∧
        commit_loop (rf <| matchIndex := mt |>) (range (commitIndex rf) (len (logs rf))) =
          Ok (rf', msgs).
Proof.
  unfold append_done. intros H. destruct (ok && _ && _) eqn:E;
    [right|left; by injection H as <- <-].
  apply andb_prop in E as [[-> HT%Z.eqb_eq]%andb_prop Hr%bool_decide_eq_true].
  mbind_inv H. do 3 (split; [done|]). by eexists.
Qed.

(** An entry of the leader's own term comes after what it was elected with. *)
Lemma leader_proper n G H i rf c e :
  node_ok n G i rf → global_ok n G H → role rf = Leader →
  slice_get (logs rf) (c - 1) = Ok e → currentTerm rf ≤ term e →
  proper G H (currentTerm rf) (Z.to_nat c).
Proof.
  intros HN HL Hr [Hc0 He]%slice_get_Ok HT.
  destruct (leader_base _ _ _ _ _ HN HL Hr) as (l & x & Hb & Heq & _ & Hl).
  destruct (nk_lead _ _ _ _ HN Hr) as (_ & Hcan).
  exists l. split; [done|]. rewrite Hcan. apply lookup_lt_Some in He as Hlt.
  split; [|lia]. destruct (Nat.lt_ge_cases (length l) (Z.to_nat c)); [done|exfalso].
  rewrite Heq, lookup_app_l in He by lia. eapply Forall_lookup_1 in Hl; [|exact He].
  cbn in Hl. lia.
Qed.

(** The leader's commit loop, from a state that knows of every acceptance. *)
Lemma loop_commits n G H i rf mt iters rf' msgs pc :
  ghost_ok n G → global_ok n G H → node_ok n G i rf → 0 ≤ i < n → role rf = Leader →
  peer_ok G H i (rf <| matchIndex := mt |>) pc →
  commit_loop (rf <| matchIndex := mt |>) iters = Ok (rf', msgs) →
  ∃ H', grown G H G H' ∧ global_ok n G H' ∧ cand H' = cand H ∧ ack H' = ack H ∧
    peer_ok G H' i rf' pc.
Proof.
  intros HG HL HN Hi Hr HP Hloop.
  pose proof (commit_loop_inv _ _ _ _ Hloop) as [c Hrf'].
  pose proof (commit_loop_msgs _ _ _ _ Hloop) as [Hle _].
  pose proof (commit_loop_majority _ _ _ _ Hloop) as Hmaj. clear Hloop.
  destruct (nk_lead _ _ _ _ HN Hr) as (_ & Hcan).
  destruct (Z.eq_dec (commitIndex rf') (commitIndex rf)) as [Heq|Hne].
  { exists H. split_and!; try done. eapply peer_ok_view; [|exact HP].
    subst rf'. cbn in Heq. by subst c. }
  subst rf'. cbn in Hmaj, Hle, Hne. destruct (Hmaj ltac:(lia)) as (e & He & HTe & Hq).
  exists (commit H (currentTerm rf) (Z.to_nat c)).
  split; [by apply grown_commit|]. split; [|split; [done|split; [done|]]].
  - apply commit_global; [done|done|]. split; [by eapply leader_proper|].
    refine (holders_majority n G H i (rf <| matchIndex := mt |>) pc c HP Hr _ _ Hi _ _).
    + apply HN.
    + apply HN.
    + pose proof (slice_get_bounds _ _ _ He). cbn. lia.
    + eapply Z.le_lt_trans; [|exact Hq]. by rewrite (nk_peers _ _ _ _ HN).
  - exact (commit_peer _ _ _ (rf <| matchIndex := mt |>) _ c HP Hcan).
Qed.

Lemma commit_append_done s G H tid s' :
  Inv s G → InvC s G H → exec_append_done s tid = Some (Ok s') →
  ∃ H', InvC s' G H' ∧ grown G H G H'.
Proof.
  intros HI HC Hex. unfold exec_append_done in Hex.
  destruct (threads s !! tid) as [[?|o p ep [|args|args|args rep|args rep|args rep|args rep w|args ok|]|?]|] eqn:Hth; try done.
  destruct (may_lock s o ep); [|done]. injection Hex as Hex. mbind_inv Hex.
  destruct a as [rf' msgs]. injection Hex as <-.
  pose proof (inv_thread _ _ _ _ HI Hth) as (Ho & Hp & Hpo & _).
  pose proof (commit_goroutine _ _ _ _ _ HC Hth) as Hok. cbn in Hok.
  pose proof (ic_peers _ _ _ HC o Ho) as HP. pose proof (inv_nodes _ _ HI o Ho) as HN.
  change (apply _ o msgs) with (answered s o rf' tid (AEThread o p ep AEDone) msgs).
  apply append_done_inv in E as [[-> ->]|(-> & HT & Hr & mt & Hmt & Hloop)].
  { exists H. split; [|done]. apply (answered_step s G H H); try done.
    - apply HC.
    - by apply moves_refl.
    - by intros m ?%elem_of_nil. }
  unfold acked in Hok. rewrite HT in Hok.
  pose proof (match_peer _ _ _ _ _ _ _ _ HP Hmt (Hok eq_refl)) as HP1.
  destruct (loop_commits _ _ _ _ _ _ _ _ _ _ (inv_ghost _ _ HI) (ic_global _ _ _ HC) HN Ho Hr
    HP1 Hloop) as (H' & HW & HL' & Hc & Ha & HP').
  exists H'. split; [|done].
  apply (answered_step s G H H'); try done; try (by rewrite ?Hc, ?Ha).
  - destruct (commit_loop_inv _ _ _ _ Hloop) as [c ->].
    split; [done|]. split; [by rewrite Hc|by right].
  - apply commit_loop_msgs in Hloop as Hms. destruct Hms as [_ Hms].
    intros m Hm. eapply covered_chosen; [| |exact Hms|exact Hm]; [apply HN|].
    pose proof (p_commit _ _ _ _ _ HP') as Hcov.
    destruct (commit_loop_inv _ _ _ _ Hloop) as [c ->]. exact Hcov.
Qed.

(** ** Every event *)

Lemma commit_step s G H e G' s' :
  Inv s G → InvC s G H → in_order s e = true → exec s e = Some (Ok s') →
  good_step s G s' G' → traced s e G G' → ∃ H', InvC s' G' H' ∧ grown G H G' H'.
Proof.
  intros HI HC [Hlc Hkeep]%andb_prop Hex Hgood Htr.
  assert (Hsame : G' = G → InvC s' G H → ∃ H', InvC s' G' H' ∧ grown G H G' H').
  { intros -> ?. exists H. auto using grown_refl. }
  destruct e; cbn [exec] in Hex;
    try (destruct (valid s i) eqn:Hv; [apply valid_range in Hv|done]); cbn [andb] in Hex;
    try (destruct (unlocked s i); [|done]).
  - apply Hsame; [done|]. by eapply commit_loop_top.
  - by eapply commit_elect.
  - exists H. split; [|by apply grown_ext, Hgood]. eapply commit_do_vote; try done. apply Hgood.
  - apply Hsame; [done|]. by eapply commit_loop_end.
  - injection Hex as <-. by eapply commit_start.
  - apply Hsame; [done|]. injection Hex as <-. by apply commit_put_node.
  - apply Hsame; [done|]. by eapply commit_restart.
  - pose proof Hex as Hex'. unfold exec_deliver in Hex'. cbn in Htr.
    destruct (threads s !! tid) as [[o p ep k args []|o p ep [|args|args|args rep|args rep|args rep|args rep w|args ok|]|?]|] eqn:Hth; try done.
    + exists H. split; [by eapply commit_deliver_vote|by apply grown_ext, Hgood].
    + subst G'. by eapply commit_deliver_append.
  - apply Hsame; [done|]. by eapply commit_lose.
  - apply Hsame; [done|]. by eapply commit_check.
  - apply Hsame; [done|]. by eapply commit_step_down.
  - apply Hsame; [done|]. by eapply commit_rewind.
  - by eapply commit_tally.
  - apply Hsame; [done|]. by eapply commit_submit.
  - apply Hsame; [done|]. by eapply commit_tick.
  - apply Hsame; [done|]. by eapply commit_prepare.
  - destruct (commit_append_done _ _ _ _ _ HI HC Hex) as (H' & ? & ?). exists H'.
    by rewrite Htr.
  - apply Hsame; [done|]. by eapply commit_critical.
Qed.

(** ** Reachable states *)

(** Nobody stood, accepted or committed anything before the first term. *)
Definition no_marks : Marks Cmd := mkMarks (λ _ _, None) (λ _ _, 0%nat) (λ _, 0%nat).

Lemma init_commit n boot : InvC (init n boot) empty_ghost no_marks.
Proof.
  constructor; try done.
  - constructor; try done; cbn; lia.
  - intros i Hi. cbn. destruct (boot i) as [[r1 r2] now]. rewrite Make_eq.
    constructor; try done; cbn; try lia; [|by left].
    intros T k (l & (L & ? & _) & _). done.
  - by intros i m ?%elem_of_nil.
Qed.

Lemma in_order_sync s e : in_order s e = true → lock_check_holds s e = true.
Proof. by intros [? _]%andb_prop. Qed.

Lemma in_order_step s G H e s' :
  Inv s G → InvC s G H → in_order s e = true → exec s e = Some (Ok s') →
  ∃ G' H', good_step s G s' G' ∧ InvC s' G' H' ∧ grown G H G' H'.
Proof.
  intros HI HC Hord Hex.
  destruct (exec_traced s G e HI (in_order_sync _ _ Hord) _ Hex) as (G' & Hg & Ht).
  destruct (commit_step _ _ _ _ _ _ HI HC Hord Hex Hg Ht) as (H' & ? & ?). eauto.
Qed.

Lemma reachable_commit s : ReachableInOrder s → ∃ G H, Inv s G ∧ InvC s G H.
Proof.
  induction 1 as [n boot Hn|s e s' _ (G & H & HI & HC) Hord Hex].
  { eexists _, _. eauto using init_inv, init_commit. }
  destruct (in_order_step _ _ _ _ _ HI HC Hord Hex) as (G' & H' & Hg & HC' & _).
  exists G', H'. split; [apply Hg|done].
Qed.
End step.
End CommitStep.
