(* ===== verification/RaftAgreement.v ===== *)
(** * RaftAgreement: one agreed log

    What the invariant of RaftCommit.v gives in the executions in which no check
    goes stale and no message is overtaken: leader completeness, state machine
    safety, and a forward simulation of the cluster by the simplest
    specification of a replicated log, a list of commands that only grows.
    RaftRaces.v shows that state machine safety fails without the order. *)
From S2P Require Import Prelude Persister Raft RaftCluster RaftInv RaftInvLog.
From S2P Require Import RaftInvStep RaftSafety RaftProps RaftCommit RaftCommitStep.
Export CommitStep.

Module Agreement.

(** ** The specification

    The state of a replicated log is the list of the commands agreed upon; a
    step may add commands at its end, and nothing else. *)
Definition log_step {Cmd} (L L' : list Cmd) : Prop := L `prefix_of` L'.

(** What an observer of a peer may see: the peer delivered [Command m] as
    number [Index m], counted from 1. *)
Definition log_shows {Cmd} (L : list Cmd) (m : ApplyMsg Cmd) : Prop :=
  1 ≤ Index m ∧ L !! Z.to_nat (Index m - 1) = Some (Command m).

Section agreement.
Context {Cmd : Type}.
#[local] Notation Raft := (Raft.Raft Cmd).
#[local] Notation Entry := (LogEntry Cmd).
#[local] Notation Cluster := (Cluster.Cluster Cmd).
Implicit Types (rf : Raft) (G : Ghost Cmd) (H : Marks Cmd) (s : Cluster) (l : list Entry).

(** ** The agreed log of a history *)

(** What the leader of [T] has committed. *)
Definition committed_by G H (T : Z) : list Entry := take (cmt H T) (canon G T).

(** [l] is the longest prefix any leader committed. *)
Definition agreed G H l : Prop :=
  (∀ T, committed_by G H T `prefix_of` l) ∧ (l = [] ∨ ∃ T, l = committed_by G H T).

(** The log of a later leader starts with what an earlier one committed. *)
Lemma committed_in_canon n G H T U :
  1 ≤ n → ghost_ok n G → global_ok n G H → (0 < cmt H T)%nat → T ≤ U → is_Some (won G U) →
  committed_by G H T `prefix_of` canon G U.
Proof.
  intros Hn HG HL HT HU [L HW]. destruct (decide (T = U)) as [->|]; [apply prefix_take_self|].
  destruct (g_won _ _ _ HL U L HW) as (l & x & Hl & Hc & _).
  etrans; [apply (committed_kept n G H T U l Hn HG HL HT); [lia|by exists L]|].
  rewrite Hc. by eexists.
Qed.

Lemma cmt_won n G H T : global_ok n G H → (0 < cmt H T)%nat → is_Some (won G T).
Proof. intros HL HT. destruct (g_cmt _ _ _ HL T HT) as [(l & (L & ? & _) & _) _]. by exists L. Qed.

(** ... and with what it committed itself, which is longer. *)
Lemma committed_chain n G H T U :
  1 ≤ n → ghost_ok n G → global_ok n G H → (0 < cmt H T)%nat → (0 < cmt H U)%nat → T ≤ U →
  committed_by G H T `prefix_of` committed_by G H U.
Proof.
  intros Hn HG HL HT HU Hle. destruct (decide (T = U)) as [->|]; [done|].
  destruct (g_cmt _ _ _ HL U HU) as [(b & Hb & Hlt & _) _].
  etrans; [apply (committed_kept n G H T U b); [done..|lia|done]|].
  destruct Hb as (L & HW & Hl). destruct (g_won _ _ _ HL U L HW) as (b' & x & Hl' & Hc & _).
  assert (b' = b) as -> by congruence. unfold committed_by. rewrite Hc.
  rewrite take_app_ge by lia. by eexists.
Qed.

(** Commitment stays within the terms of the peers. *)
Lemma committed_bound s G H T :
  Inv s G → InvC s G H → (0 < cmt H T)%nat →
  ∃ i, 0 ≤ i < size s ∧ 1 ≤ T ≤ currentTerm (nodes s i) ∧ won G T = Some i.
Proof.
  intros HI HC HT. destruct (cmt_won _ _ _ _ (ic_global _ _ _ HC) HT) as [L HW].
  destruct (gk_won _ _ (inv_ghost _ _ HI) _ _ HW) as (? & HLr & _). exists L.
  split; [done|]. split; [|done]. split; [done|]. by apply (inv_nodes _ _ HI L HLr).
Qed.

(** Every term below some bound is accounted for by one list. *)
Lemma agreed_upto n G H (N : nat) :
  1 ≤ n → ghost_ok n G → global_ok n G H →
  ∃ l, (∀ T, T ≤ Z.of_nat N → committed_by G H T `prefix_of` l) ∧
       (l = [] ∨ ∃ T, T ≤ Z.of_nat N ∧ (0 < cmt H T)%nat ∧ l = committed_by G H T).
Proof.
  intros Hn HG HL.
  assert (Hnone : ∀ T, (0 < cmt H T)%nat ∨ committed_by G H T = []).
  { intros T. unfold committed_by. destruct (cmt H T); [right|left]; [done|lia]. }
  induction N as [|N (l & Hl & Hor)].
  { exists []. split; [|by left]. intros T HT. destruct (Hnone T) as [Hc| ->]; [|done].
    destruct (cmt_won _ _ _ _ HL Hc) as [L HW]. apply (gk_won _ _ HG) in HW as [? _]. lia. }
  destruct (Hnone (Z.of_nat (S N))) as [Hc|Hc].
  - exists (committed_by G H (Z.of_nat (S N))). split; [|right; by eexists].
    intros T HT. destruct (Hnone T) as [HcT| ->]; [|apply prefix_nil].
    by apply (committed_chain n).
  - exists l. split; [|destruct Hor as [?|(T & ? & ?)]; [by left|right; exists T; split; [lia|done]]].
    intros T HT. destruct (decide (T = Z.of_nat (S N))) as [->|]; [|apply Hl; lia].
    rewrite Hc. apply prefix_nil.
Qed.

Lemma bounded_on (f : Z → Z) (js : list Z) : ∃ N : nat, ∀ i, i ∈ js → f i ≤ Z.of_nat N.
Proof.
  induction js as [|i js [N HN]]; [exists 0%nat; by intros ? ?%elem_of_nil|].
  exists (Z.to_nat (f i) `max` N)%nat. intros j [->|Hj%HN]%elem_of_cons; lia.
Qed.

Lemma agreed_exists s G H : Inv s G → InvC s G H → ∃ l, agreed G H l.
Proof.
  intros HI HC.
  assert (Hmax : ∃ N : nat, ∀ i, 0 ≤ i < size s → currentTerm (nodes s i) ≤ Z.of_nat N).
  { destruct (bounded_on (λ i, currentTerm (nodes s i)) (range 0 (size s))) as [N HN].
    exists N. intros i Hi. by apply HN, elem_of_range. }
  destruct Hmax as [N HN].
  destruct (agreed_upto (size s) G H N) as (l & Hl & Hor);
    [apply HI|apply HI|apply HC|].
  exists l. split; [|destruct Hor as [?|(T & _ & _ & ?)]; [by left|right; by exists T]].
  intros T. destruct (Nat.eq_0_gt_0_cases (cmt H T)) as [Hc|Hc].
  - unfold committed_by. rewrite Hc. apply prefix_nil.
  - destruct (committed_bound _ _ _ _ HI HC Hc) as (i & Hi & HT & _).
    apply Hl. specialize (HN i Hi). lia.
Qed.

Lemma agreed_grows n G H G' H' l l' :
  global_ok n G H → grown G H G' H' → agreed G H l → agreed G' H' l' → l `prefix_of` l'.
Proof.
  intros HL HW [_ [->|(T & ->)]] [Hl' _]; [apply prefix_nil|].
  etrans; [|apply (Hl' T)]. unfold committed_by.
  rewrite <- (take_canon _ _ _ _ (gr_ext _ _ _ _ HW) (cmt_le _ _ _ T HL)).
  pose proof (gr_cmt _ _ _ _ HW T) as Hc.
  replace (cmt H T) with (cmt H T `min` cmt H' T)%nat by lia.
  rewrite <- take_take. apply prefix_take_self.
Qed.

(** ** What peers hold of it *)

Lemma chosen_agreed n G H l idx cmd :
  global_ok n G H → agreed G H l → chosen G H idx cmd →
  1 ≤ idx ∧ (command <$> l) !! Z.to_nat (idx - 1) = Some cmd.
Proof.
  intros HL [Hl _] (T & e & Hi & He & <-). split; [lia|]. rewrite list_lookup_fmap.
  assert (Hc : committed_by G H T !! Z.to_nat (idx - 1) = Some e).
  { unfold committed_by. rewrite lookup_take_lt by lia. done. }
  by rewrite (prefix_lookup_Some _ _ _ _ Hc (Hl T)).
Qed.

Lemma covered_agreed G H hi l l' c :
  agreed G H l → covered G H hi l' c → take c l' `prefix_of` l.
Proof.
  intros [Hl _] [->|(T & _ & Hc & ->)]; [apply prefix_nil|].
  etrans; [|apply (Hl T)]. unfold committed_by.
  replace c with (c `min` cmt H T)%nat by lia. rewrite <- take_take. apply prefix_take_self.
Qed.

(** Two peers' applied messages with the same number carry the same command. *)
Lemma applied_agree s i j m1 m2 :
  ReachableInOrder s → m1 ∈ applied s i → m2 ∈ applied s j → Index m1 = Index m2 →
  Command m1 = Command m2.
Proof.
  intros (G & H & HI & HC)%reachable_commit H1%(ic_applied _ _ _ HC) H2%(ic_applied _ _ _ HC) Hi.
  rewrite Hi in H1. by apply (chosen_agree (size s) G H (Index m2)); try apply HI; try apply HC.
Qed.

(** The state of the specification that a cluster stands for. *)
Definition abstracts s (L : list Cmd) : Prop :=
  ∃ G H l, Inv s G ∧ InvC s G H ∧ agreed G H l ∧ L = command <$> l.

Lemma abstracts_init n boot : 1 ≤ n → abstracts (init n boot) [].
Proof.
  intros Hn. exists empty_ghost, no_marks, []. split; [by apply init_inv|].
  split; [apply init_commit|]. split; [|done]. split; [|by left]. intros T. apply prefix_nil.
Qed.

Lemma abstracts_step s L e s' :
  abstracts s L → in_order s e = true → exec s e = Some (Ok s') →
  ∃ L', log_step L L' ∧ abstracts s' L'.
Proof.
  intros (G & H & l & HI & HC & Hl & ->) Hord Hex.
  destruct (in_order_step _ _ _ _ _ HI HC Hord Hex) as (G' & H' & [HI' _ _ _] & HC' & HW).
  destruct (agreed_exists _ _ _ HI' HC') as [l' Hl']. exists (command <$> l'). split.
  - destruct (agreed_grows _ _ _ _ _ _ _ (ic_global _ _ _ HC) HW Hl Hl') as [x ->].
    rewrite fmap_app. by eexists.
  - exists G', H', l'. done.
Qed.

Lemma abstracts_committed s L i :
  abstracts s L → 0 ≤ i < size s →
  command <$> take (Z.to_nat (commitIndex (nodes s i))) (logs (nodes s i)) `prefix_of` L.
Proof.
  intros (G & H & l & _ & HC & Hl & ->) Hi.
  destruct (covered_agreed _ _ _ _ _ _ Hl (p_commit _ _ _ _ _ (ic_peers _ _ _ HC i Hi))) as [x ->].
  rewrite fmap_app. by eexists.
Qed.

Lemma abstracts_applied s L i m : abstracts s L → m ∈ applied s i → log_shows L m.
Proof.
  intros (G & H & l & _ & HC & Hl & ->) Hm.
  eapply chosen_agreed; [apply HC|done|]. by eapply ic_applied.
Qed.

(** ** Theorems *)

(** C3. State machine safety: in every state reached without a stale check and
    without an overtaken AppendEntries, two peers that have delivered a message
    with the same index have delivered the same command at it; so has one peer
    that delivered an index twice. *)
Theorem state_machine_safety s i j m1 m2 :
  ReachableInOrder s → m1 ∈ applied s i → m2 ∈ applied s j → Index m1 = Index m2 →
  Command m1 = Command m2.
Proof. apply applied_agree. Qed.

(** C4. Leader completeness: in such a state, a leader whose term no peer has
    passed has every command any peer ever delivered, at the index it was
    delivered with, and at least as long a log as anyone's commit index. *)
Theorem leader_completeness s ld :
  ReachableInOrder s → 0 ≤ ld < size s → role (nodes s ld) = Leader →
  (∀ j, 0 ≤ j < size s → currentTerm (nodes s j) ≤ currentTerm (nodes s ld)) →
  (∀ i m, m ∈ applied s i →
     log_shows (command <$> logs (nodes s ld)) m) ∧
  (∀ i, 0 ≤ i < size s →
     take (Z.to_nat (commitIndex (nodes s i))) (logs (nodes s i)) `prefix_of`
     logs (nodes s ld)).
Proof.
  intros (G & H & HI & HC)%reachable_commit Hld Hr Hmax.
  destruct (agreed_exists _ _ _ HI HC) as [l Hl].
  assert (Hpre : l `prefix_of` logs (nodes s ld)).
  { destruct (nk_lead _ _ _ _ (inv_nodes _ _ HI ld Hld) Hr) as (HW & Hcan).
    destruct Hl as [_ [->|(T & ->)]]; [apply prefix_nil|]. rewrite <- Hcan.
    destruct (Nat.eq_0_gt_0_cases (cmt H T)) as [Hc|Hc].
    - unfold committed_by. rewrite Hc. apply prefix_nil.
    - destruct (committed_bound _ _ _ _ HI HC Hc) as (i & Hi & HT & _).
      apply (committed_in_canon (size s));
        [apply HI|apply HI|apply HC|done|specialize (Hmax i Hi); lia|by exists ld]. }
  split.
  - intros i m Hm%(ic_applied _ _ _ HC).
    destruct (chosen_agreed _ _ _ _ _ _ (ic_global _ _ _ HC) Hl Hm) as [? Hx]. split; [done|].
    destruct Hpre as [x ->]. rewrite fmap_app. by apply lookup_app_l_Some.
  - intros i Hi. etrans; [|exact Hpre].
    eapply covered_agreed; [exact Hl|]. by apply (ic_peers _ _ _ HC i Hi).
Qed.

(** C5. The cluster refines a replicated log: there is a relation between its
    states and lists of commands under which the initial cluster is the empty
    list, every in-order step of the cluster is a step of the specification
    (the list grows at its end or stays), everything a peer delivers is in the
    list at its index, and what any peer considers committed is a prefix of it. *)
Theorem cluster_refines_log :
  ∃ R : Cluster → list Cmd → Prop,
    (∀ n boot, 1 ≤ n → R (init n boot) []) ∧
    (∀ s L e s', R s L → in_order s e = true → exec s e = Some (Ok s') →
       ∃ L', log_step L L' ∧ R s' L') ∧
    (∀ s L i m, R s L → m ∈ applied s i → log_shows L m) ∧
    (∀ s L i, R s L → 0 ≤ i < size s →
       command <$> take (Z.to_nat (commitIndex (nodes s i))) (logs (nodes s i)) `prefix_of` L).
Proof.
  exists abstracts. split; [exact abstracts_init|]. split; [exact abstracts_step|].
  split; [exact abstracts_applied|exact abstracts_committed].
Qed.
End agreement.
End Agreement.
