(* ===== verification/RaftApplied.v ===== *)
(** * RaftApplied: a peer keeps what it has delivered

    A follower takes over the commit index of the leader whose message it accepts,
    and a new leader may know less than the follower had applied: the commit
    index of a peer can go back.  What the peer has delivered nevertheless stays
    in its log, at its place, in every in-order execution.  That is what a service
    may rely on that looks an applied index up in the log. *)
From S2P Require Import Prelude Persister Raft RaftCluster RaftInv RaftInvLog.
From S2P Require Import RaftInvStep RaftSafety RaftProps RaftCommit RaftCommitStep.
From S2P Require Import RaftAgreement.
Export CommitStep.

Module Applied.
Import RaftProps.

Section applied.
Context {Cmd : Type}.
#[local] Notation Raft := (Raft.Raft Cmd).
#[local] Notation Cluster := (Cluster.Cluster Cmd).
#[local] Notation Event := (Cluster.Event Cmd).
Implicit Types (rf : Raft) (s : Cluster) (G : Ghost Cmd) (H : Marks Cmd) (m : ApplyMsg Cmd).

(** ** What a step does to the log and the deliveries of one peer *)

Inductive change s (e : Event) s' (i : Z) : Prop :=
| ChReset r1 r2 now :
    nodes s' i = Make (size s) i (Copy (persister (nodes s i))) r1 r2 now → applied s' i = [] →
    change s e s' i
| ChGrow msgs :
    logs (nodes s i) `prefix_of` logs (nodes s' i) → applied s' i = applied s i ++ msgs →
    (∀ m, m ∈ msgs → commitIndex (nodes s i) < Index m ≤ commitIndex (nodes s' i)) →
    change s e s' i
| ChAccept tid now o ep args r msgs :
    e = EDeliver tid now → threads s !! tid = Some (AEThread o i ep (AESent args)) →
    AppendEntries now (nodes s i) args = Ok (nodes s' i, r, msgs) →
    applied s' i = applied s i ++ msgs → change s e s' i.

Lemma ch_same s e s' i :
  logs (nodes s' i) = logs (nodes s i) → applied s' i = applied s i → change s e s' i.
Proof.
  intros Hl Ha. apply (ChGrow _ _ _ _ []); [by rewrite Hl|by rewrite app_nil_r|].
  by intros m ?%elem_of_nil.
Qed.

Lemma put_node_logs s j rf i :
  logs rf = logs (nodes s j) → logs (nodes (put_node s j rf) i) = logs (nodes s i).
Proof.
  intros Hl. cbn. destruct (decide (i = j)) as [->|]; [by rewrite fn_lookup_insert|].
  by rewrite fn_lookup_insert_ne.
Qed.

Lemma apply_range_indices l a b msgs m :
  @apply_range Cmd l a b = Ok msgs → m ∈ msgs → a < Index m ≤ b.
Proof.
  intros Hr%apply_range_spec [j Hj]%list_elem_of_lookup.
  destruct (Forall2_lookup_r _ _ _ _ _ Hr Hj) as (i & Hi & e & _ & ->). cbn.
  apply list_elem_of_lookup_2, elem_of_range in Hi. lia.
Qed.

Lemma append_done_change rf p args ok rf' msgs :
  append_done rf p args ok = Ok (rf', msgs) →
  logs rf' = logs rf ∧ ∀ m, m ∈ msgs → commitIndex rf < Index m ≤ commitIndex rf'.
Proof.
  intros [[-> ->]|(_ & _ & _ & mt & _ & Hloop)]%append_done_inv.
  { split; [done|]. by intros m ?%elem_of_nil. }
  pose proof (commit_loop_msgs _ _ _ _ Hloop) as [_ Hms].
  destruct (commit_loop_inv _ _ _ _ Hloop) as [c ->]. split; [done|].
  intros m Hm. exact (apply_range_indices _ _ _ _ _ Hms Hm).
Qed.

Lemma core_logs rf rf' : @core Cmd rf' = core rf → logs rf' = logs rf.
Proof. unfold core. congruence. Qed.

Lemma tally_logs rf args ok a : logs (tally rf args ok a).1.1 = @logs Cmd rf.
Proof. unfold tally. by repeat case_match. Qed.

Lemma RequestVote_logs now rf args : logs (RequestVote now rf args).1 = @logs Cmd rf.
Proof.
  unfold RequestVote, adopt_term. zcase; [done|].
  destruct (currentTerm rf <? rv_Term args); cbn;
    by match goal with |- context [if ?b then (_, true) else _] => destruct b end.
Qed.

(** Case analysis on the goroutine a step belongs to. *)
#[local] Ltac step_cases He := repeat (case_match; try done); injection He as <-.

Lemma step_change s e s' i : exec s e = Some (Ok s') → change s e s' i.
Proof.
  intros He. destruct e; cbn [exec] in He;
    try (destruct (valid s _); [|done]); cbn [andb] in He; try (destruct (unlocked s _); [|done]);
    unfold exec_loop_top, exec_elect, exec_do_vote, exec_loop_end, exec_restart, exec_lose, exec_check,
      exec_step_down, exec_tally, exec_submit, exec_tick, exec_rewind, exec_prepare, exec_deliver,
      exec_append_done, exec_critical in He.
  1-4, 9-11, 15: step_cases He; apply ch_same; try done; apply (put_node_logs s);
    first [done|unfold election_loop_end in *; by repeat (case_match; simplify_eq/=)].
  - injection He as <-. apply (ChGrow _ _ _ _ []); [|by rewrite app_nil_r|by intros m ?%elem_of_nil].
    cbn. destruct (decide (i = i0)) as [->|]; [rewrite fn_lookup_insert|by rewrite fn_lookup_insert_ne].
    unfold Start. case_decide; [by eexists|done].
  - injection He as <-. apply ch_same; [|done]. by apply (put_node_logs s).
  - injection He as <-. destruct (decide (i = i0)) as [->|].
    + by apply (ChReset _ _ _ _ r1 r2 now); cbn; rewrite fn_lookup_insert.
    + apply ch_same; cbn; by rewrite !fn_lookup_insert_ne.
  - destruct (threads s !! tid) as [[o p ep k args []|o p ep [|args|args|args rep|args rep|args rep|args rep w|args ok|]|?]|] eqn:Hth;
      try done; (destruct (unlocked s p); [|done]).
    + pose proof (RequestVote_logs now (nodes s p) args) as Hl.
      destruct (RequestVote now (nodes s p) args) as [rf r]. injection He as <-.
      apply ch_same; [|done]. by apply (put_node_logs s).
    + injection He as He. mbind_inv He. destruct a as [[rf r] msgs]. injection He as <-.
      destruct (decide (i = p)) as [->|].
      * apply (ChAccept _ _ _ _ tid now o ep args r msgs); try done; cbn; by rewrite fn_lookup_insert.
      * apply ch_same; cbn; by rewrite fn_lookup_insert_ne.
  - destruct (threads s !! tid) as [[?|o p ep []|?]|]; try done; (destruct (alive s o ep); [|done]).
    + injection He as <-. by apply ch_same.
    + destruct (rewind _ _ _ _ _) as [rf| |] eqn:E; try done. injection He as <-.
      apply rewind_core, core_logs in E. apply ch_same; [|done]. by apply (put_node_logs s).
  - destruct (threads s !! tid) as [[o p ep k args [| | |ok|]|?|?]|]; try done.
    destruct (campaigns s !! k) as [a|]; [|done]. destruct (may_lock s o ep); [|done].
    pose proof (tally_logs (nodes s o) args ok a) as Hl.
    destruct (tally (nodes s o) args ok a) as [[rf a'] won]. injection He as <-.
    apply ch_same; destruct won; try done; by apply (put_node_logs s).
  - destruct (threads s !! tid) as [[?|?|o ep []]|]; try done; (destruct (alive s o ep); [|done]);
      injection He as <-; (apply ch_same; [|done]); by apply (put_node_logs s).
  - destruct (threads s !! tid) as [[?|o p ep []|?]|]; try done. destruct (may_lock s o ep); [|done].
    destruct (prepare_append _ _) as [args| |]; try done. injection He as <-. by apply ch_same.
  - repeat (case_match; try done). injection He as He. mbind_inv He. destruct a as [rf msgs]. injection He as <-.
    apply append_done_change in E as [Hl Hms].
    destruct (decide (i = owner)) as [->|]; [|apply ch_same; cbn; by rewrite fn_lookup_insert_ne].
    apply (ChGrow _ _ _ _ msgs); cbn; rewrite fn_lookup_insert; [by rewrite Hl|done|done].
  - destruct (crits s i0) as [| | |tid]; [done|..].
    + injection He as <-. apply ch_same; [|done]. by apply (put_node_logs s).
    + injection He as <-. apply ch_same; [|done]. apply (put_node_logs s). by rewrite fill_indices_eq.
    + destruct (threads s !! tid) as [[?|o p ep []|?]|]; try done.
      destruct (advance_next _ _ _) as [rf| |] eqn:E; try done. injection He as <-.
      apply set_next_core, core_logs in E. apply ch_same; [|done]. by apply (put_node_logs s).
Qed.

(** ** The invariant *)

(** The log of peer [i] agrees up to index [k] with what a leader of a term the
    peer knows has committed. *)
Definition kept_at s G H (i k : Z) : Prop :=
  ∃ T, T ≤ currentTerm (nodes s i) ∧ 1 ≤ k ≤ Z.of_nat (cmt H T) ∧
       take (Z.to_nat k) (logs (nodes s i)) = take (Z.to_nat k) (canon G T).
Definition kept s G H (i : Z) m : Prop := kept_at s G H i (Index m).

Definition all_kept s G H : Prop := ∀ i m, 0 ≤ i < size s → m ∈ applied s i → kept s G H i m.

(** The log of a peer reaches the index up to which it is kept. *)
Lemma kept_length s G H n i k :
  global_ok n G H → kept_at s G H i k → k ≤ len (logs (nodes s i)).
Proof.
  intros HL (T & _ & Hk & Ht). pose proof (cmt_le _ _ _ T HL).
  apply (f_equal length) in Ht. rewrite !length_take in Ht. unfold len. lia.
Qed.

Lemma kept_grown s s' G H G' H' n i k :
  global_ok n G H → grown G H G' H' → currentTerm (nodes s i) ≤ currentTerm (nodes s' i) →
  logs (nodes s i) `prefix_of` logs (nodes s' i) → kept_at s G H i k → kept_at s' G' H' i k.
Proof.
  intros HL HW HT Hl HK. pose proof (kept_length _ _ _ _ _ _ HL HK) as Hlen.
  destruct HK as (T & Hle & Hk & Ht). pose proof (gr_cmt _ _ _ _ HW T). pose proof (cmt_le _ _ _ T HL).
  exists T. split; [lia|]. split; [lia|]. rewrite (take_canon _ _ _ _ (gr_ext _ _ _ _ HW)) by lia.
  destruct Hl as [x ->]. unfold len in Hlen. by rewrite take_app_le by lia.
Qed.

(** What is below the commit index is kept. *)
Lemma kept_commit s G H i k :
  InvC s G H → 0 ≤ i < size s → 1 ≤ k ≤ commitIndex (nodes s i) → kept_at s G H i k.
Proof.
  intros HC Hi Hm. destruct (p_commit _ _ _ _ _ (ic_peers _ _ _ HC i Hi)) as [Hc|(T & HT & Hc & Ht)]; [lia|].
  exists T. split; [done|]. split; [lia|].
  replace (Z.to_nat k) with (Z.to_nat k `min` Z.to_nat (commitIndex (nodes s i)))%nat by lia.
  by rewrite <- !take_take, Ht.
Qed.

(** A message of the leader of [T] that is accepted in order: the follower's log
    is a piece of that leader's which goes beyond the log it was elected with,
    and takes back nothing of term [T]. *)
Lemma kept_accept n G H (T T0 : Z) k (l l' b : list (LogEntry Cmd)) :
  1 ≤ n → ghost_ok n G → global_ok n G H → T0 ≤ T → (1 ≤ k ≤ cmt H T0)%nat →
  take k l = take k (canon G T0) → base G H T b → b `prefix_of` l' → l' `prefix_of` canon G T →
  Forall (λ e, term e ≠ T) (drop (length l') l) → take k l' = take k (canon G T0).
Proof.
  intros Hn HG HL HT Hk Hl Hb Hbl Hpre Hdrop. pose proof (cmt_le _ _ _ T0 HL) as Hcl.
  destruct (decide (T0 = T)) as [->|Hne].
  - assert (Hkl : (k ≤ length l')%nat).
    { destruct (Nat.le_gt_cases k (length l')) as [|Hlt]; [done|exfalso].
      destruct (lookup_lt_is_Some_2 (canon G T) (k - 1)) as [e He]; [lia|].
      assert (Hle : l !! (k - 1)%nat = Some e).
      { rewrite <- (lookup_take_lt _ k), Hl, lookup_take_lt by lia. done. }
      assert (HeT : term e = T).
      { destruct Hb as (L & HW & Hb). destruct (g_won _ _ _ HL T L HW) as (b' & x & Hb' & Hcan & Hx).
        assert (b' = b) as -> by congruence. apply prefix_length in Hbl.
        rewrite Hcan, lookup_app_r in He by lia. by eapply Forall_lookup_1 in Hx. }
      eapply Forall_lookup_1 in Hdrop; [|rewrite lookup_drop;
        replace (length l' + (k - 1 - length l'))%nat with (k - 1)%nat by lia; exact Hle]. done. }
    by apply prefix_take.
  - assert (Hp : take k (canon G T0) `prefix_of` l').
    { etrans; [|exact Hbl]. etrans; [|apply (committed_kept n G H T0 T b); [done..|lia|lia|done]].
      replace k with (k `min` cmt H T0)%nat by lia. rewrite <- take_take. apply prefix_take_self. }
    destruct Hp as [x ->]. rewrite take_app_le by (rewrite length_take; lia).
    by rewrite take_take, Nat.min_id.
Qed.

(** A restarted peer finds its log and term on its disk. *)
Lemma restart_logs s G i r1 r2 now :
  Inv s G → 0 ≤ i < size s →
  let rf := Make (size s) i (Copy (persister (nodes s i))) r1 r2 now in
  logs rf = logs (nodes s i) ∧ currentTerm rf = currentTerm (nodes s i).
Proof.
  intros HI Hi. pose proof (nk_saved _ _ _ _ (inv_nodes _ _ HI i Hi)) as Hs. unfold saved in Hs.
  rewrite Make_eq, Persister.Copy_id, Hs. done.
Qed.

(** An in-order step takes back nothing of what a peer has kept. *)
Lemma kept_at_step s G H e s' G' H' i k :
  Inv s G → InvC s G H → in_order s e = true → exec s e = Some (Ok s') →
  good_step s G s' G' → traced s e G G' → grown G H G' H' →
  0 ≤ i < size s → kept_at s G H i k → kept_at s' G' H' i k.
Proof.
  intros HI HC [_ Hkeep]%andb_prop Hex [HI' _ Hsz Hterm] Htr HW Hi HK.
  pose proof (ic_global _ _ _ HC) as HL. pose proof (inv_ghost _ _ HI) as HG.
  destruct (step_change s e s' i Hex) as [r1 r2 now Hmk _|msgs Hl _ _|tid now o ep args r msgs -> Hth E _].
  - destruct (restart_logs s G i r1 r2 now HI Hi) as [Hl Ht]. rewrite <- Hmk in Hl, Ht.
    eapply (kept_grown s s'); [exact HL|exact HW|lia|by rewrite Hl|done].
  - eapply (kept_grown s s'); [exact HL|exact HW|auto..].
  - cbn in Htr, Hkeep. rewrite Hth in *. subst G'. rewrite E in Hkeep.
    pose proof (inv_thread _ _ _ _ HI Hth) as (_ & _ & _ & HM).
    pose proof (commit_goroutine _ _ _ _ _ HC Hth) as Happ. cbn in HM, Happ.
    destruct (append_cases _ _ _ _ _ _ _ _ _ _ HG (inv_nodes _ _ HI i Hi) HM E) as
      [(_ & _ & Hcase)|(_ & Hle & HT & _ & _ & _ & Hlen & Hpre & _)].
    { eapply (kept_grown s s'); [exact HL|exact HW|auto| |done].
      destruct Hcase as [Hv|(_ & -> & _)]; [|done]. unfold view in Hv. by replace (logs (nodes s' i)) with (logs (nodes s i)) by congruence. }
    destruct (accept_base _ _ _ _ _ HL Happ Hlen Hpre) as (b & Hb & Hbl).
    destruct HK as (T0 & HT0 & Hk & Ht). exists T0.
    pose proof (gr_cmt _ _ _ _ HW T0). split; [lia|]. split; [lia|].
    eapply (kept_accept (size s) G H (ae_Term args) T0); [apply HI|done|done|lia|lia|done..|].
    apply Is_true_true, forallb_True in Hkeep.
    eapply Forall_impl; [exact Hkeep|]. intros x Hx Heq. cbn in Hx. by rewrite Heq, Z.eqb_refl in Hx.
Qed.

(** A message delivered by a step lies below the commit index the step leaves. *)
Lemma delivered_below s G e s' i m :
  Inv s G → 0 ≤ i < size s → exec s e = Some (Ok s') → m ∈ applied s' i →
  m ∈ applied s i ∨ 1 ≤ Index m ≤ commitIndex (nodes s' i).
Proof.
  intros HI Hi Hex Hm. pose proof (nk_commit _ _ _ _ (inv_nodes _ _ HI i Hi)) as Hcm.
  destruct (step_change s e s' i Hex) as [r1 r2 now _ Hap|msgs _ Hap Hms|tid now o ep args r msgs -> Hth E Hap];
    rewrite Hap in Hm.
  - by apply elem_of_nil in Hm.
  - apply elem_of_app in Hm as [Hm|Hm]; [by left|]. specialize (Hms m Hm). right. lia.
  - apply elem_of_app in Hm as [Hm|Hm]; [by left|]. right.
    pose proof (inv_thread _ _ _ _ HI Hth) as (_ & _ & _ & HM). cbn in HM.
    destruct (append_cases _ _ _ _ _ _ _ _ _ _ (inv_ghost _ _ HI) (inv_nodes _ _ HI i Hi) HM E) as
      [(_ & -> & _)|(_ & _ & _ & _ & _ & Hci & _ & _ & Hms)]; [by apply elem_of_nil in Hm|].
    apply (apply_range_indices _ _ _ _ _ Hms) in Hm as Hidx. rewrite <- Hci in Hidx. lia.
Qed.

Lemma all_kept_step s G H e s' G' H' :
  Inv s G → InvC s G H → all_kept s G H → in_order s e = true → exec s e = Some (Ok s') →
  good_step s G s' G' → traced s e G G' → InvC s' G' H' → grown G H G' H' → all_kept s' G' H'.
Proof.
  intros HI HC HA Hord Hex Hg Htr HC' HW i m Hi Hm. pose proof (gs_size _ _ _ _ Hg) as Hsz.
  rewrite Hsz in Hi. destruct (delivered_below s G e s' i m HI Hi Hex Hm) as [Hold|Hnew].
  - eapply kept_at_step; [done..|]. by apply HA.
  - apply kept_commit; [done|lia|done].
Qed.

(** ** From a state on *)

Lemma grown_trans G1 H1 G2 H2 G3 H3 :
  grown G1 H1 G2 H2 → grown G2 H2 G3 H3 → grown G1 H1 G3 H3.
Proof.
  intros [E1 C1 A1 M1] [E2 C2 A2 M2]. constructor; [by etrans|auto|intros; etrans; [apply A1|apply A2]|].
  intros. etrans; [apply M1|apply M2].
Qed.

Lemma kept_step s G H e s' :
  Inv s G → InvC s G H → all_kept s G H → in_order s e = true → exec s e = Some (Ok s') →
  ∃ G' H', Inv s' G' ∧ InvC s' G' H' ∧ all_kept s' G' H' ∧ grown G H G' H'.
Proof.
  intros HI HC HA Hord Hex.
  destruct (exec_traced s G e HI (in_order_sync _ _ Hord) _ Hex) as (G' & Hg & Ht).
  destruct (commit_step _ _ _ _ _ _ HI HC Hord Hex Hg Ht) as (H' & HC' & HW).
  exists G', H'. split; [apply Hg|]. split; [done|]. split; [|done]. by eapply all_kept_step.
Qed.

Lemma reachable_kept s :
  ReachableInOrder s → ∃ G H, Inv s G ∧ InvC s G H ∧ all_kept s G H.
Proof.
  induction 1 as [n boot Hn|s e s' _ (G & H & HI & HC & HA) Hord Hex].
  { exists empty_ghost, no_marks. split; [by apply init_inv|]. split; [apply init_commit|].
    by intros i m _ ?%elem_of_nil. }
  destruct (kept_step _ _ _ _ _ HI HC HA Hord Hex) as (G' & H' & ? & ? & ? & _). eauto.
Qed.

Lemma run_kept s G H es s' :
  Inv s G → InvC s G H → all_kept s G H → run in_order s es = Some s' →
  ∃ G' H', Inv s' G' ∧ InvC s' G' H' ∧ all_kept s' G' H' ∧ grown G H G' H'.
Proof.
  revert s G H. induction es as [|e es IH]; intros s G H HI HC HA Hr; cbn in Hr.
  { injection Hr as <-. eauto 6 using grown_refl. }
  destruct (in_order s e) eqn:Hord; [|done]. destruct (exec s e) as [[s1| |]|] eqn:Hex; try done.
  destruct (kept_step _ _ _ _ _ HI HC HA Hord Hex) as (G1 & H1 & HI1 & HC1 & HA1 & HW1).
  destruct (IH _ _ _ HI1 HC1 HA1 Hr) as (G' & H' & ? & ? & ? & ?). eauto 7 using grown_trans.
Qed.

(** What a peer has kept it keeps, over restarts too. *)
Lemma run_kept_at s G H i k es s' :
  Inv s G → InvC s G H → 0 ≤ i < size s → kept_at s G H i k → run in_order s es = Some s' →
  ∃ G' H', Inv s' G' ∧ InvC s' G' H' ∧ grown G H G' H' ∧ kept_at s' G' H' i k.
Proof.
  revert s G H. induction es as [|e es IH]; intros s G H HI HC Hi HK Hr; cbn in Hr.
  { injection Hr as <-. exists G, H. eauto using grown_refl. }
  destruct (in_order s e) eqn:Hord; [|done]. destruct (exec s e) as [[s1| |]|] eqn:Hex; try done.
  destruct (exec_traced s G e HI (in_order_sync _ _ Hord) _ Hex) as (G1 & Hg & Ht).
  destruct (commit_step _ _ _ _ _ _ HI HC Hord Hex Hg Ht) as (H1 & HC1 & HW1).
  assert (HK1 : kept_at s1 G1 H1 i k) by (by eapply kept_at_step).
  rewrite <- (gs_size _ _ _ _ Hg) in Hi.
  destruct (IH _ _ _ (gs_inv _ _ _ _ Hg) HC1 Hi HK1 Hr) as (G' & H' & ? & ? & ? & ?).
  eauto 7 using grown_trans.
Qed.

(** Two committed prefixes agree as far as both go. *)
Lemma committed_agree s G H T1 T2 k :
  Inv s G → InvC s G H → (k ≤ cmt H T1)%nat → (k ≤ cmt H T2)%nat →
  take k (canon G T1) = take k (canon G T2).
Proof.
  intros HI HC H1 H2. destruct (Agreement.agreed_exists _ _ _ HI HC) as (l & Hl & _).
  assert (Hk : ∀ T, (k ≤ cmt H T)%nat → take k (canon G T) = take k l).
  { intros T HT. pose proof (cmt_le _ _ _ T (ic_global _ _ _ HC)) as Hle.
    rewrite <- (prefix_take k _ _ (Hl T)) by (unfold Agreement.committed_by; rewrite length_take; lia).
    unfold Agreement.committed_by. by rewrite take_take, Nat.min_l by lia. }
  by rewrite !Hk.
Qed.

(** The log of peer [j] agrees up to [k] with what some leader has committed. *)
Definition settled s G H (j : Z) (k : nat) : Prop :=
  ∃ T, (k ≤ cmt H T)%nat ∧ take k (logs (nodes s j)) = take k (canon G T).

Lemma take_le {A} (k k' : nat) (l l' : list A) :
  (k ≤ k')%nat → take k' l = take k' l' → take k l = take k l'.
Proof. intros Hk Hl. replace k with (k `min` k')%nat by lia. by rewrite <- !take_take, Hl. Qed.

Lemma settled_commit s G H j (k : Z) :
  InvC s G H → 0 ≤ j < size s → 1 ≤ k ≤ commitIndex (nodes s j) → settled s G H j (Z.to_nat k).
Proof.
  intros HC Hj Hk. destruct (p_commit _ _ _ _ _ (ic_peers _ _ _ HC j Hj)) as [Hc|(T & _ & Hc & Ht)]; [lia|].
  exists T. split; [lia|]. eapply take_le; [|exact Ht]. lia.
Qed.

Lemma settled_kept s G H j m (k : Z) : kept s G H j m → k ≤ Index m → settled s G H j (Z.to_nat k).
Proof.
  intros (T & _ & Hc & Ht) Hk. exists T. split; [lia|]. eapply take_le; [|exact Ht]. lia.
Qed.

(** A settled prefix is that of any log of a later state settled as far. *)
Lemma settled_later s G H s' G' H' i j k :
  Inv s' G' → InvC s G H → InvC s' G' H' → grown G H G' H' →
  settled s G H i k → settled s' G' H' j k →
  take k (logs (nodes s' j)) = take k (logs (nodes s i)).
Proof.
  intros HI' HC HC' HW (T & Hk & ->) (T' & Hk' & ->).
  pose proof (cmt_le _ _ _ T (ic_global _ _ _ HC)). pose proof (gr_cmt _ _ _ _ HW T).
  rewrite <- (take_canon _ _ _ _ (gr_ext _ _ _ _ HW)) by lia.
  apply (committed_agree s' G' H'); [done|done|lia|lia].
Qed.

(** The agreed log at the index of a delivered message. *)
Lemma kept_shows s G H i m :
  Inv s G → InvC s G H → m ∈ applied s i → kept s G H i m →
  Agreement.log_shows (command <$> logs (nodes s i)) m.
Proof.
  intros HI HC (T' & e & Hi & He & Hcmd)%(ic_applied _ _ _ HC) (T & _ & Hk & Ht).
  split; [lia|]. set (k := Z.to_nat (Index m)) in *.
  pose proof (committed_agree s G H T T' k HI HC ltac:(lia) ltac:(lia)) as Heq.
  rewrite list_lookup_fmap, <- (lookup_take_lt _ k), Ht, Heq, lookup_take_lt by lia.
  by rewrite He, <- Hcmd.
Qed.

(** A peer's own log never loses what the peer has considered committed, or
    delivered. *)
Lemma own_log_kept s i k es s' :
  ReachableInOrder s → 0 ≤ i < size s →
  (k ≤ commitIndex (nodes s i) ∨ ∃ m, m ∈ applied s i ∧ k ≤ Index m) →
  run in_order s es = Some s' →
  take (Z.to_nat k) (logs (nodes s' i)) = take (Z.to_nat k) (logs (nodes s i)).
Proof.
  intros (G & H & HI & HC & HA)%reachable_kept Hi Hk Hr.
  destruct (Z.le_gt_cases k 0) as [Hz|Hpos]; [by rewrite (Z2Nat.nonpos k)|].
  assert (HK : kept_at s G H i k).
  { destruct Hk as [?|(m & (T & HT & Hc & Ht)%HA & Hle)]; [by apply kept_commit; [..|lia]| |done].
    exists T. split; [done|]. split; [lia|]. eapply take_le; [|exact Ht]. lia. }
  destruct (run_kept_at _ _ _ _ _ _ _ HI HC Hi HK Hr) as (G' & H' & HI' & HC' & HW & HK').
  apply (settled_later s G H s' G' H'); [done..| |].
  - destruct HK as (T & _ & ? & ?). exists T. split; [lia|done].
  - destruct HK' as (T & _ & ? & ?). exists T. split; [lia|done].
Qed.

Lemma settled_for_good s i m es s' j :
  ReachableInOrder s → 0 ≤ i < size s → m ∈ applied s i →
  run in_order s es = Some s' → 0 ≤ j < size s' →
  (j = i ∨ Index m ≤ commitIndex (nodes s' j) ∨ ∃ m', m' ∈ applied s' j ∧ Index m ≤ Index m') →
  Agreement.log_shows (command <$> logs (nodes s i)) m ∧
  take (Z.to_nat (Index m)) (logs (nodes s' j)) = take (Z.to_nat (Index m)) (logs (nodes s i)).
Proof.
  intros Hs Hi Hm Hr Hj Hor. pose proof Hs as (G & H & HI & HC & HA)%reachable_kept.
  pose proof (HA i m Hi Hm) as HK. split; [by eapply kept_shows|].
  destruct Hor as [->|Hor]; [eapply own_log_kept; [done..|right; by exists m|done]|].
  destruct (run_kept _ _ _ _ _ HI HC HA Hr) as (G' & H' & HI' & HC' & HA' & HW).
  apply (settled_later s G H s' G' H'); try done; [by eapply settled_kept|].
  destruct Hor as [?|(m' & Hm' & ?)]; [|eapply settled_kept; [by apply HA'|done]].
  apply settled_commit; [done..|]. destruct HK as (T & _ & Hk & _). lia.
Qed.

(** ** Theorem *)

(** C12. What a peer has delivered is settled for good: the peer's log has the
    command at its index, although its commit index may have gone back; and
    whatever happens afterwards in order, restarts included, the peer's own log
    keeps everything up to the index, and the log of any other peer agrees with it
    up to the index as soon as that peer considers the index committed or has
    delivered it. *)
Theorem delivered_is_settled s i m es s' j :
  ReachableInOrder s → 0 ≤ i < size s → m ∈ applied s i →
  run in_order s es = Some s' → 0 ≤ j < size s' →
  (j = i ∨ Index m ≤ commitIndex (nodes s' j) ∨ ∃ m', m' ∈ applied s' j ∧ Index m ≤ Index m') →
  Agreement.log_shows (command <$> logs (nodes s i)) m ∧
  take (Z.to_nat (Index m)) (logs (nodes s' j)) = take (Z.to_nat (Index m)) (logs (nodes s i)).
Proof. apply settled_for_good. Qed.
End applied.
End Applied.
