(* ===== verification/RaftSchedules.v ===== *)
(** * RaftSchedules: concrete executions of a cluster of three peers

    Schedules of RaftCluster.v that the theorems of RaftSafety.v and
    RaftProps.v are instantiated with: peer 0 wins the first election, accepts
    two commands, replicates the first to peer 1 and commits it. *)
From S2P Require Import Prelude Persister Raft RaftCluster RaftInv RaftInvLog.
From S2P Require Import RaftInvStep RaftSafety RaftProps RaftIndices RaftCommitRule RaftProgress.
From S2P Require Import RaftReplicate RaftAgreement.
Export Cluster.

Module Schedules.

(** Peers boot at time 0 with the smallest timeouts. *)
Definition boot0 (_ : Z) : Z * Z * Z := (0, 0, 0).

Section schedules.
Context {Cmd : Type}.
#[local] Notation Cluster := (Cluster.Cluster Cmd).
#[local] Notation Event := (Cluster.Event Cmd).
Implicit Types (s : Cluster) (ok : Cluster → Event → bool).

Definition start3 : Cluster := init 3 boot0.

Definition runs ok (es : list Event) : bool := bool_decide (is_Some (run ok start3 es)).

(** The state a schedule leads to. *)
Definition after ok (es : list Event) : Cluster := default start3 (run ok start3 es).

Lemma after_reachable ok es : runs ok es = true → reachable ok (after ok es).
Proof.
  intros [s Hs]%bool_decide_eq_true. unfold after. rewrite Hs. cbn.
  eapply run_reachable; [|done]. by apply reach_init.
Qed.

Lemma run_app ok s es es' : run ok s (es ++ es') = run ok s es ≫= λ s', run ok s' es'.
Proof.
  revert s. induction es as [|e es IH]; intros s; cbn; [done|].
  destruct (ok s e); [|done]. by destruct (exec s e) as [[s1| |]|].
Qed.

(** The rest of a schedule that runs is a run from the state in between. *)
Lemma after_app ok es es' :
  runs ok (es ++ es') = true → run ok (after ok es) es' = Some (after ok (es ++ es')).
Proof.
  intros [s' H]%bool_decide_eq_true. unfold after. rewrite H. rewrite run_app in H.
  apply bind_Some in H as (s & -> & H). done.
Qed.

(** The last event of a schedule that runs is a step. *)
Lemma after_step ok es e :
  runs ok (es ++ [e]) = true →
  ok (after ok es) e = true ∧ exec (after ok es) e = Some (Ok (after ok (es ++ [e]))).
Proof.
  intros H%after_app. cbn in H. destruct (ok _ e); [|done].
  destruct (exec _ e) as [[s1| |]|]; try done. by injection H as ->.
Qed.

(** Peer [i] times out at [now] and sends its vote requests. *)
Definition campaign (i now : Z) : list Event := [ELoopTop i now; EElect i 0; EDoVote i].

(** Request [tid] is executed at time [now], its vote comes back and counts. *)
Definition vote (tid : nat) (now : Z) : list Event := [EDeliver tid now; ECheck tid; ETally tid].

(** ... and elects peer [i], which takes office. *)
Definition win (i : Z) (tid : nat) (now : Z) : list Event := vote tid now ++ [ECritical i; ECritical i].

(** Goroutine [tid] of peer [i] builds its message. *)
Definition prepare (i : Z) (tid : nat) : list Event := [EPrepare tid; ECritical i].

(** AppendEntries [tid], built before, is executed and its reply processed. *)
Definition acked (tid : nat) (now : Z) : list Event :=
  [EDeliver tid now; ECheck tid; ERewind tid; EAppendDone tid].

Lemma any_after es : runs any_schedule es = true → Reachable (after any_schedule es).
Proof. apply after_reachable. Qed.
End schedules.

Definition elect : list (Event Z) := campaign 0 200000000 ++ win 0 0 0 ++ [ESubmit 2].
Definition propose : list (Event Z) := elect ++ [EStart 0 7; EStart 0 8; ETick 2] ++ prepare 0 3.
Definition replicate1 : list (Event Z) :=
  propose ++ [EDeliver 3 0; ECheck 3; ERewind 3].
#[local] Notation commit1 := (replicate1 ++ [EAppendDone 3]).

#[local] Notation sync_after := (after lock_check_holds).

(** Decide a closed goal by evaluation. *)
Ltac by_run :=
  vm_compute; try reflexivity; try (intuition congruence); try discriminate.

(** Name the step that ends a schedule. *)
Ltac last_step es e H1 H2 :=
  destruct (after_step lock_check_holds es e) as [H1 H2]; [by_run|].

Lemma sync_elect : ReachableSync (sync_after elect).
Proof. apply after_reachable. by_run. Qed.
Lemma sync_replicate1 : ReachableSync (sync_after replicate1).
Proof. apply after_reachable. by_run. Qed.
Lemma sync_commit1 : ReachableSync (sync_after commit1).
Proof. apply after_reachable. by_run. Qed.

(** ** The theorems at these states *)

Lemma election_safety_witness :
  role (nodes (sync_after elect) 0) = Leader ∧ 0 = 0.
Proof.
  split; [by_run|].
  apply (Safety.election_safety (sync_after elect) 0 0);
    [exact sync_elect|by_run..].
Defined.

Lemma log_matching_witness :
  take 2 (logs (nodes (sync_after commit1) 0)) = take 2 (logs (nodes (sync_after commit1) 1)) ∧
  logs (nodes (sync_after commit1) 1) = [mkEntry 7 1; mkEntry 8 1].
Proof.
  split; [|by_run].
  apply (Safety.log_matching (sync_after commit1) 0 1 1 (mkEntry 8 1) (mkEntry 8 1));
    [exact sync_commit1|by_run..].
Defined.

(** The step that commits the first two commands. *)
Lemma no_panic_witness :
  let s := sync_after replicate1 in
  ∃ r, exec s (EAppendDone 3) = Some r ∧
    (is_ok r ∨ r = Panic ∧ Indices.races s (EAppendDone 3) = true) ∧
    Indices.races s (EAppendDone 3) = false.
Proof.
  last_step replicate1 (@EAppendDone Z 3) H1 H2.
  eexists. split; [exact H2|]. split; [|by_run].
  apply (Indices.no_panic (sync_after replicate1) (EAppendDone 3));
    [exact sync_replicate1|exact H1|exact H2].
Defined.

Lemma terms_monotone_witness :
  currentTerm (nodes (sync_after (commit1 ++ [ELoopTop 1 200000000])) 1) ≤
  currentTerm (nodes (sync_after ((commit1 ++ [ELoopTop 1 200000000]) ++ [EElect 1 0])) 1) ∧
  currentTerm (nodes (sync_after commit1) 1) = 1.
Proof.
  last_step (commit1 ++ [ELoopTop 1 200000000]) (@EElect Z 1 0) H1 H2.
  split; [|by_run].
  apply (Safety.terms_monotone (sync_after (commit1 ++ [ELoopTop 1 200000000])) (EElect 1 0));
    [apply after_reachable; by_run|exact H1|exact H2|by_run].
Defined.

Lemma leader_append_only_witness :
  logs (nodes (sync_after elect) 0) `prefix_of`
  logs (nodes (sync_after (elect ++ [EStart 0 7])) 0) ∧
  len (logs (nodes (sync_after (elect ++ [EStart 0 7])) 0)) = 1.
Proof.
  last_step elect (@EStart Z 0 7) H1 H2. split; [|by_run].
  apply (Safety.leader_append_only (sync_after elect) (EStart 0 7));
    [exact sync_elect|exact H1|exact H2|by_run..].
Defined.


(** Peer 1 learns what is committed from the next heartbeat. *)
Definition told1 : list (Event Z) := commit1 ++ [ETick 2] ++ prepare 0 5 ++ [EDeliver 5 0].

Lemma in_order_told1 : ReachableInOrder (after in_order told1).
Proof. apply after_reachable. by_run. Qed.

Lemma state_machine_safety_witness :
  let s := after in_order told1 in
  7 = 7 ∧ applied s 0 = [mkApplyMsg 1 7 false; mkApplyMsg 2 8 false] ∧
  applied s 1 = applied s 0.
Proof.
  split; [|by_run].
  apply (Agreement.state_machine_safety (after in_order told1) 0 1
           (mkApplyMsg 1 7 false) (mkApplyMsg 1 7 false));
    [exact in_order_told1|vm_compute; by left..|done].
Defined.

Lemma leader_completeness_witness :
  let s := after in_order told1 in
  Agreement.log_shows (command <$> logs (nodes s 0)) (mkApplyMsg 2 8 false) ∧
  role (nodes s 0) = Leader.
Proof.
  split; [|by_run].
  destruct (Agreement.leader_completeness (after in_order told1) 0) as [Ha _];
    [exact in_order_told1|by_run|by_run| |].
  - change (size (after in_order told1)) with 3. intros j Hj.
    assert (j = 0 ∨ j = 1 ∨ j = 2) as [->|[->| ->]] by lia; by_run.
  - apply (Ha 1). vm_compute. right. by left.
Defined.

Lemma restart_restores_witness :
  let s := after any_schedule commit1 in
  let rf' := Make (size s) 1 (Copy (persister (nodes s 1))) 0 0 0 in
  logs rf' = logs (nodes s 1) ∧ logs rf' = [mkEntry 7 1; mkEntry 8 1] ∧
  votedFor rf' = 0 ∧ role rf' = Follower.
Proof.
  split; [|by_run].
  apply (RaftProps.restart_restores (after any_schedule commit1) 1 0 0 0).
  apply any_after. by_run.
Defined.

Definition ask (c : Z) : RequestVoteArgs := mkRVArgs 1 c 0 0.
Definition fresh (i : Z) : Raft Z := nodes start3 i.

Lemma vote_once_witness :
  CandidateId (ask 0) = CandidateId (ask 0) ∧
  (λ r, VoteGranted (snd r)) <$>
    RaftProps.serve_votes (fresh 1) [(0, ask 0); (0, ask 2); (0, ask 0)] =
    [true; false; true].
Proof.
  split; [|by_run].
  apply (RaftProps.vote_once (fresh 1) [(0, ask 0); (0, ask 2); (0, ask 0)] 0 0
           (ask 0) (ask 0) (mkRVReply 1 true) (mkRVReply 1 true));
    [|vm_compute; left|vm_compute; right; right; left|by_run..].
  intros now a Ha. repeat (apply elem_of_cons in Ha as [[= -> ->]|Ha]; [by_run|]).
  by apply elem_of_nil in Ha.
Defined.

Definition msg1 : AppendEntriesArgs Z := mkAEArgs 1 0 0 0 [mkEntry 7 1; mkEntry 8 1] 2.

(** What peer 1 does with [msg1]. *)
Definition got1 : Raft Z * AppendEntriesReply * list (ApplyMsg Z) :=
  match AppendEntries 5 (fresh 1) msg1 with
  | Ok r => r
  | _ => (fresh 1, mkAEReply 0 false 0, [])
  end.

Lemma AppendEntries_spec_witness :
  aer_Term (snd (fst got1)) = currentTerm (fst (fst got1)) ∧
  Success (snd (fst got1)) = true ∧ logs (fst (fst got1)) = [mkEntry 7 1; mkEntry 8 1].
Proof.
  split; [|by_run].
  apply (RaftProps.AppendEntries_spec 5 (fresh 1) msg1 (fst (fst got1)) (snd (fst got1))
           (snd got1)). by_run.
Defined.

Lemma AppendEntries_applies_in_order_witness :
  Forall2 (λ i m, ∃ e, slice_get (logs (fst (fst got1))) i = Ok e ∧
                       m = mkApplyMsg (i + 1) (command e) false)
    (range 0 2) (snd got1) ∧
  snd got1 = [mkApplyMsg 1 7 false; mkApplyMsg 2 8 false].
Proof.
  split; [|by_run].
  apply (RaftProps.AppendEntries_applies_in_order 5 (fresh 1) msg1 (fst (fst got1))
           (snd (fst got1)) (snd got1)); by_run.
Defined.

(** The leader, and its state and messages once peer 1 has acknowledged. *)
Definition lead0 : Raft Z := nodes (sync_after replicate1) 0.
Definition done0 : Raft Z * list (ApplyMsg Z) :=
  match append_done lead0 1 msg1 true with Ok r => r | _ => (lead0, []) end.

Lemma commit_needs_majority_witness :
  peers lead0 <
    (1 + len (RaftProps.holders (fst done0) (commitIndex (fst done0) - 1))) * 2 ∧
  commitIndex (fst done0) = 2.
Proof.
  split; [|by_run].
  apply (RaftProps.commit_needs_majority lead0 1 msg1 true (fst done0) (snd done0)); by_run.
Defined.

Lemma commit_loop_reference_witness :
  ∃ msgs, append_done lead0 1 msg1 true = Ok (fst done0, msgs) ∧
    apply_range (logs lead0) (commitIndex lead0) 2 = Ok msgs ∧
    CommitRule.commit_target (fst done0) = 2.
Proof.
  destruct (CommitRule.commit_loop_reference lead0 1 msg1) as (msgs & H1 & H2);
    [by_run|by_run|by_run|by_run|by_run|].
  exists msgs. split; [|split; [exact H2|by_run]]. rewrite H1. by_run.
Defined.

(** In the middle of replicating entries, with messages on the network. *)
Lemma leader_electable_witness :
  ∃ es s' p, run in_order (sync_after replicate1) es = Some s' ∧ 0 ≤ p < 3 ∧
    role (nodes s' p) = Leader.
Proof.
  destruct (Progress.leader_electable (sync_after replicate1)) as [_ H].
  - exact sync_replicate1.
  - change (size (sync_after replicate1)) with 3. intros q Hq.
    assert (q = 0 ∨ q = 1 ∨ q = 2) as [->|[->| ->]] by lia; by_run.
  - destruct H as (es & s' & p & H1 & H2 & H3 & _); [by_run|].
    exists es, s', p. split; [exact H1|split; [exact H2|exact H3]].
Defined.

(** ... a new command can still be committed, behind whatever the new leader holds. *)
Lemma command_committable_witness :
  ∃ es s' p, run in_order (sync_after replicate1) es = Some s' ∧ role (nodes s' p) = Leader ∧
    last (logs (nodes s' p)) = Some (mkEntry 9 (currentTerm (nodes s' p))) ∧
    commitIndex (nodes s' p) = len (logs (nodes s' p)).
Proof.
  destruct (Replicate.command_committable (sync_after replicate1) 9) as [_ H].
  - exact sync_replicate1.
  - change (size (sync_after replicate1)) with 3. intros q Hq.
    assert (q = 0 ∨ q = 1 ∨ q = 2) as [->|[->| ->]] by lia; by_run.
  - destruct H as (es & s' & p & H1 & _ & H3 & _ & Hl & Hc & _); [by_run|].
    exists es, s', p. split; [exact H1|]. split; [exact H3|]. rewrite Hl. split; [|exact Hc].
    apply last_snoc.
Defined.
End Schedules.
