(* ===== verification/RaftRaces.v ===== *)
(** * RaftRaces: executions in which a lock not taken or a reordered message hurts

    Schedules of three peers, run by evaluation.  The first two use a check made
    without the lock that is no longer true when the critical section runs; the
    next two an assignment to [nextIndex] made without the lock, which stops the
    process; the last is a synchronised execution and needs only a heartbeat that
    overtakes a later message, which the TODO at src/src/raft/raft.go:524 asks
    about. *)
From S2P Require Import Prelude Persister Raft RaftCluster RaftInv RaftInvLog.
From S2P Require Import RaftInvStep RaftSafety RaftProps RaftIndices RaftSchedules.
Export Cluster.

Module Races.
Import Schedules.

#[local] Notation anyhow := (after any_schedule).
#[local] Notation sync_after := (after lock_check_holds).

(** Peer 1 is in term 2 when peer 0 asks for its vote in term 1.  Peer 0 reads
    that its term is old, but before it takes the lock it votes for peer 2 in
    term 3; the critical section then sets its term back to 2 and forgets the
    vote, so that it votes in term 3 again, for peer 1. *)
Definition term_goes_back : list (Event Z) :=
  campaign 0 200000000 ++
  campaign 1 200000000 ++ [ELoopEnd 1 200000000] ++ campaign 1 400000000 ++
  [EDeliver 0 0; ECheck 0] ++
  [EDeliver 5 0] ++ campaign 2 600000000 ++ win 2 6 0.

Definition two_leaders : list (Event Z) :=
  (term_goes_back ++ [EStepDown 0]) ++
  [ELoopEnd 1 400000000] ++ campaign 1 600000000 ++ win 1 9 0.

(** Without the assumption that unlocked checks still hold when the lock is
    taken, election safety fails: there is an execution of three peers after
    which two of them are leader of the same term, because a peer's term went
    back from 3 to 2 in between. *)
Theorem stale_check_two_leaders :
  ∃ s : Cluster Z, Reachable s ∧
    role (nodes s 1) = Leader ∧ role (nodes s 2) = Leader ∧
    currentTerm (nodes s 1) = 3 ∧ currentTerm (nodes s 2) = 3.
Proof.
  exists (anyhow two_leaders). split; [apply any_after; by_run|]. by_run.
Qed.

(** Peer 0, leader of term 1, decides to send a heartbeat; before its goroutine
    takes the lock to build the message, it votes for peer 1 in term 2. *)
Definition impostor : list (Event Z) :=
  elect ++ [ETick 2] ++ campaign 1 400000000 ++ win 1 5 0 ++
  [EStart 1 8] ++ prepare 0 3.

(** A peer that is no longer leader can send AppendEntries in a term that is
    not its own: the message deposes the real leader of that term and erases the
    entry it had accepted, without any change of term. *)
Theorem impostor_deposes_leader :
  ∃ s s' args, Reachable s ∧ threads s !! 3%nat = Some (AEThread 0 1 0 (AESent args)) ∧
    role (nodes s 0) = Follower ∧ LeaderId args = 0 ∧
    role (nodes s 1) = Leader ∧ currentTerm (nodes s 1) = 2 ∧
    logs (nodes s 1) = [mkEntry 8 2] ∧
    exec s (EDeliver 3 0) = Some (Ok s') ∧
    role (nodes s' 1) = Follower ∧ currentTerm (nodes s' 1) = 2 ∧ logs (nodes s' 1) = [].
Proof.
  destruct (after_step any_schedule impostor (EDeliver 3 0)) as [_ H]; [by_run|].
  exists (anyhow impostor), (anyhow (impostor ++ [EDeliver 3 0])), (mkAEArgs 2 0 0 0 [] 0).
  split; [apply any_after; by_run|].
  do 6 (split; [by_run|]). split; [exact H|]. by_run.
Qed.

(** Peer 1 stands in term 2 and rejects the heartbeat of peer 0, leader of term 1.
    Peer 0 steps down, stands in term 3 and is elected; the goroutine that got the
    rejection has not gone on yet. *)
Definition rejected : list (Event Z) :=
  elect ++ [ETick 2] ++ prepare 0 3 ++ campaign 1 400000000 ++
  [EDeliver 3 0; ECheck 3; EStepDown 3; ELoopEnd 0 200000000] ++
  campaign 0 600000000 ++ vote 7 0.

(** A new leader empties [nextIndex] before it fills it again (raft.go:466-471);
    a goroutine of its previous term in office that has read its role just before
    writes to the empty slice without the lock (raft.go:314-316): the index is out
    of range and the process stops.  The execution is in order. *)
Theorem rewind_race_panics :
  ∃ s : Cluster Z, ReachableInOrder s ∧ in_order s (ERewind 3) = true ∧
    exec s (ERewind 3) = Some Panic ∧ Indices.races s (ERewind 3) = true.
Proof.
  exists (after in_order (rejected ++ [ERewind 3; ECritical 0])).
  split; [apply after_reachable; by_run|]. by_run.
Qed.

(** The same goroutine stores the index of the entry before its old message, 0,
    in a slot of the slice of the new term (raft.go:316); a heartbeat goroutine that
    builds its message before the next assignment slices the log from -1
    (raft.go:508-509), and the process stops. *)
Theorem prepare_race_panics :
  ∃ s : Cluster Z, ReachableInOrder s ∧ in_order s (EPrepare 10) = true ∧
    exec s (EPrepare 10) = Some Panic ∧ Indices.races s (EPrepare 10) = true.
Proof.
  exists (after in_order (rejected ++ [ECritical 0; ECritical 0; ERewind 3; ERewind 3; ETick 2])).
  split; [apply after_reachable; by_run|]. by_run.
Qed.

(** Peer 0 builds a heartbeat for peer 1 before it accepts command 7; the
    heartbeat arrives after 7 has been replicated to peer 1 and committed. *)
Definition late_heartbeat : list (Event Z) :=
  elect ++ [ETick 2] ++ prepare 0 3 ++ [EStart 0 7; ETick 2] ++ prepare 0 5 ++ acked 5 0 ++
  [ETick 2] ++ prepare 0 7 ++ [EDeliver 7 0; EDeliver 3 0].

(** Peer 1 wins the next election with the vote of peer 2 and commits 8. *)
Definition overwritten : list (Event Z) :=
  late_heartbeat ++ campaign 1 800000000 ++ win 1 10 0 ++
  [ESubmit 11; EStart 1 8; ETick 11] ++ prepare 1 13 ++ acked 13 0 ++
  [ETick 11] ++ prepare 1 15 ++ [EDeliver 15 0].

(** C15. State machine safety fails even when every check is synchronised: a
    delayed heartbeat cuts a committed entry off a follower's log and moves its
    commit index back, and after the next election two peers have applied
    different commands at index 1 (and one of them both). *)
Theorem reordering_loses_commit :
  ∃ s : Cluster Z, ReachableSync s ∧
    applied s 0 = [mkApplyMsg 1 7 false] ∧
    applied s 2 = [mkApplyMsg 1 8 false] ∧
    applied s 1 = [mkApplyMsg 1 7 false; mkApplyMsg 1 8 false].
Proof.
  exists (sync_after overwritten). split; [apply after_reachable; by_run|]. by_run.
Qed.
End Races.
