(* ===== verification/Labrpc.v ===== *)
(** * Labrpc: the simulated RPC network

    Models src/src/labrpc/labrpc.go: the tables of a [Network], the servers and
    services behind it, and [ProcessReq] as a step function in which the
    goroutine of a request, the goroutine of its handler, the 100 ms timer and
    the administration of the network interleave freely.

    Names ([interface{}] values) are a countable type; a server pointer is an
    index into [heap].  What a handler does to its receiver is a function on the
    receivers' state [W]; one event runs a handler from its dispatch to its return
    (handlers that hold their receiver's mutex throughout, as those of raft and
    kvraft do, are such functions); gob is a pair of functions on values and byte strings,
    with the round trip as a hypothesis where a theorem needs it. *)
From Stdlib Require Import Ascii.
From S2P Require Import Prelude.

Module Labrpc.

Section labrpc.
Context {Name : Type} `{Countable Name}.
Context {W V B : Type} (Encode : V → B) (Decode : B → option V) (zero : V).

(*@ src/src/labrpc/labrpc.go 60-66 reqMsg *)
Record reqMsg := mkReq { endname : Name; svcMeth : string; args : B }.

(*@ src/src/labrpc/labrpc.go 68-71 replyMsg *)
Record replyMsg := mkReply { ok : bool; reply : option B }.

(** Client side of [Call]: build the request ... *)
(*@ src/src/labrpc/labrpc.go 81-94 ClientEnd.Call (request) *)
Definition call_request (e : Name) (meth : string) (a : V) : reqMsg :=
  mkReq e meth (Encode a).

(** ... and digest the answer: [None] is a return value of false. *)
(*@ src/src/labrpc/labrpc.go 95-106 ClientEnd.Call (reply) *)
Definition call_reply (rep : replyMsg) : res (option V) :=
  if ok rep then
    match reply rep ≫= Decode with
    | Some v => Ok (Some v)
    | None => Fatal
    end
  else Ok None.

(** ** Services *)

(** What reflect tells about a method of the receiver: [PkgPath] is empty for
    an exported method, [NumIn] counts the receiver, [In2Ptr] says whether the
    second argument is a pointer. *)
Record Method := mkMethod {
  mname : string;
  PkgPath : string;
  NumIn : Z;
  In2Ptr : bool;
  NumOut : Z;
  Func : W → V → W * V;
}.

(*@ src/src/labrpc/labrpc.go 385-390 Service *)
Record Service := mkService { name : string; methods : gmap string Method }.

(** Does the method look like a handler? *)
(*@ src/src/labrpc/labrpc.go 407-411 MakeService (condition) *)
Definition is_handler (m : Method) : bool :=
  negb (negb (String.eqb (PkgPath m) "") || negb (NumIn m =? 3) || negb (In2Ptr m) ||
        negb (NumOut m =? 0)).

(*@ src/src/labrpc/labrpc.go 392-421 MakeService *)
Definition MakeService (n : string) (ms : list Method) : Service :=
  mkService n
    (foldl (λ tbl m, if is_handler m then <[mname m := m]> tbl else tbl) ∅ ms).

(** An argument that does not decode leaves the zero value. *)
(*@ src/src/labrpc/labrpc.go 423-458 Service.dispatch *)
Definition svc_dispatch (svc : Service) (methname : string) (w : W) (req : reqMsg) :
    res (W * replyMsg) :=
  match methods svc !! methname with
  | Some m =>
      let a := default zero (Decode (args req)) in
      let '(w', r) := Func m w a in
      Ok (w', mkReply true (Some (Encode r)))
  | None => Fatal
  end.

(** ** Servers *)

(*@ src/src/labrpc/labrpc.go 332-336 Server *)
Record Server := mkServer { services : gmap string Service; count : Z }.
#[export] Instance eta_server : Eta Server := λ s, mkServer (services s) (count s).

(*@ src/src/labrpc/labrpc.go 338-342 MakeServer *)
Definition MakeServer : Server := mkServer ∅ 0.

(*@ src/src/labrpc/labrpc.go 344-348 Server.AddService *)
Definition AddService (rs : Server) (svc : Service) : Server :=
  rs <| services := <[name svc := svc]> (services rs) |>.

(** [strings.LastIndex(s, ".")]. *)
(*@ src/src/labrpc/labrpc.go 356-356 Server.dispatch (LastIndex) *)
Fixpoint LastDot (s : string) : Z :=
  match s with
  | EmptyString => -1
  | String c s' =>
      let i := LastDot s' in
      if 0 <=? i then i + 1
      else if Ascii.eqb c "."%char then 0 else -1
  end.

(** Service and method name; slicing panics when there is no dot. *)
(*@ src/src/labrpc/labrpc.go 355-358 Server.dispatch (split) *)
Definition split_meth (s : string) : res (string * string) :=
  let dot := LastDot s in
  if dot <? 0 then Panic
  else Ok (String.substring 0 (Z.to_nat dot) s,
           String.substring (Z.to_nat dot + 1) (String.length s) s).

(*@ src/src/labrpc/labrpc.go 350-375 Server.dispatch *)
Definition srv_dispatch (rs : Server) (w : W) (req : reqMsg) :
    Server * res (W * replyMsg) :=
  let rs := rs <| count := count rs + 1 |> in
  (rs,
   '(serviceName, methodName) ← split_meth (svcMeth req);
   match services rs !! serviceName with
   | Some service => svc_dispatch service methodName w req
   | None => Fatal
   end).

(** ** The network *)

(*@ src/src/labrpc/labrpc.go 108-118 Network *)
Record Network := mkNetwork {
  reliable : bool;
  longDelays : bool;
  longReordering : bool;
  ends : gset Name;
  enabled : gmap Name bool;
  servers : gmap Name (option nat);
  connections : gmap Name (option Name);
}.
#[export] Instance eta_network : Eta Network := λ n,
  mkNetwork (reliable n) (longDelays n) (longReordering n) (ends n) (enabled n)
    (servers n) (connections n).

(*@ src/src/labrpc/labrpc.go 120-137 MakeNetwork *)
Definition MakeNetwork : Network := mkNetwork true false false ∅ ∅ ∅ ∅.

(*@ src/src/labrpc/labrpc.go 139-144 Network.Reliable *)
Definition Reliable (rn : Network) (yes : bool) : Network := rn <| reliable := yes |>.

(*@ src/src/labrpc/labrpc.go 146-151 Network.LongReordering *)
Definition LongReordering (rn : Network) (yes : bool) : Network :=
  rn <| longReordering := yes |>.

(*@ src/src/labrpc/labrpc.go 153-158 Network.LongDelays *)
Definition LongDelays (rn : Network) (yes : bool) : Network :=
  rn <| longDelays := yes |>.

(** A missing key and a nil value read the same. *)
(*@ src/src/labrpc/labrpc.go 160-174 Network.ReadEndnameInfo *)
Definition ReadEndnameInfo (rn : Network) (e : Name) :
    bool * option Name * option nat * bool * bool :=
  let servername := mjoin (connections rn !! e) in
  (default false (enabled rn !! e), servername,
   sn ← servername; mjoin (servers rn !! sn),
   reliable rn, longReordering rn).

(*@ src/src/labrpc/labrpc.go 176-184 Network.IsServerDead *)
Definition IsServerDead (rn : Network) (e sn : Name) (server : nat) : bool :=
  negb (default false (enabled rn !! e)) ||
  negb (bool_decide (mjoin (servers rn !! sn) = Some server)).

(*@ src/src/labrpc/labrpc.go 269-285 Network.MakeEnd *)
Definition MakeEnd (rn : Network) (e : Name) : res Network :=
  if decide (e ∈ ends rn) then Fatal
  else Ok (rn <| ends := {[e]} ∪ ends rn |>
              <| enabled := <[e:=false]> (enabled rn) |>
              <| connections := <[e:=None]> (connections rn) |>).

(*@ src/src/labrpc/labrpc.go 287-292 Network.AddServer *)
Definition AddServer (rn : Network) (sn : Name) (rs : nat) : Network :=
  rn <| servers := <[sn:=Some rs]> (servers rn) |>.

(*@ src/src/labrpc/labrpc.go 294-299 Network.DeleteServer *)
Definition DeleteServer (rn : Network) (sn : Name) : Network :=
  rn <| servers := <[sn:=None]> (servers rn) |>.

(*@ src/src/labrpc/labrpc.go 303-308 Network.Connect *)
Definition Connect (rn : Network) (e sn : Name) : Network :=
  rn <| connections := <[e:=Some sn]> (connections rn) |>.

(*@ src/src/labrpc/labrpc.go 311-316 Network.Enable *)
Definition Enable (rn : Network) (e : Name) (en : bool) : Network :=
  rn <| enabled := <[e:=en]> (enabled rn) |>.

(** ** Requests in flight *)

(** What ReadEndnameInfo returned when the request was admitted. *)
Record Info := mkInfo { i_sn : Name; i_srv : nat; i_rel : bool; i_reorder : bool }.

(** Where ProcessReq stands. *)
(*@ src/src/labrpc/labrpc.go 186-265 Network.ProcessReq (phases) *)
Inductive Phase :=
| Queued                              (* sent on rn.endCh *)
| Routed (i : Info)
| Waiting (i : Info)                  (* in the select loop *)
| Finished (i : Info) (r : option replyMsg) (* left the loop; None: server dead *)
| Delayed (r : replyMsg)              (* long reordering *)
| Refused                             (* no such enabled connection *)
| Replied (r : replyMsg).

(** The goroutine that runs the handler; once started it does not depend on
    the phase of the request any more. *)
Inductive Handler :=
  NotStarted | Started (srv : nat) | Returned (r : replyMsg) | Consumed.

Record Flight := mkFlight { request : reqMsg; phase : Phase; handler : Handler }.
#[export] Instance eta_flight : Eta Flight := λ f,
  mkFlight (request f) (phase f) (handler f).

(** The whole system; [calls] lists, for each handler execution in order, the
    request and the server it ran on. *)
Record State := mkState {
  net : Network;
  heap : list Server;
  world : W;
  flights : list Flight;
  calls : list (nat * nat);
}.
#[export] Instance eta_state : Eta State := λ s,
  mkState (net s) (heap s) (world s) (flights s) (calls s).

Inductive Admin :=
| OpReliable (b : bool) | OpReordering (b : bool) | OpDelays (b : bool)
| OpMakeEnd (e : Name) | OpAddServer (sn : Name) (rs : nat) | OpDeleteServer (sn : Name)
| OpConnect (e sn : Name) | OpEnable (e : Name) (b : bool).

Definition exec_admin (rn : Network) (op : Admin) : res Network :=
  match op with
  | OpReliable b => Ok (Reliable rn b)
  | OpReordering b => Ok (LongReordering rn b)
  | OpDelays b => Ok (LongDelays rn b)
  | OpMakeEnd e => MakeEnd rn e
  | OpAddServer sn rs => Ok (AddServer rn sn rs)
  | OpDeleteServer sn => Ok (DeleteServer rn sn)
  | OpConnect e sn => Ok (Connect rn e sn)
  | OpEnable e b => Ok (Enable rn e b)
  end.

Inductive Event :=
| NAdmin (op : Admin)
| NNewServer (rs : Server)
| NSend (req : reqMsg)
| NRead (k : nat)
| NAccept (k : nat) (rnd : Z)
| NHandle (k : nat)
| NReceive (k : nat)
| NTimer (k : nat)
| NFinish (k : nat) (rnd1 rnd2 : Z)
| NRelease (k : nat).

Definition failure : replyMsg := mkReply false None.

(** [rand.Int()%1000 < 100]. *)
(*@ src/src/labrpc/labrpc.go 196-196 Network.ProcessReq (drop) *)
Definition dropped (rel : bool) (rnd : Z) : bool := negb rel && (rnd `mod` 1000 <? 100).

(*@ src/src/labrpc/labrpc.go 187-189 Network.ProcessReq (admission) *)
Definition admit_req (rn : Network) (req : reqMsg) : Phase :=
  match ReadEndnameInfo rn (endname req) with
  | (true, Some sn, Some srv, rel, reorder) => Routed (mkInfo sn srv rel reorder)
  | _ => Refused
  end.

(** After the loop: the last look at the server, then the reply, dropped,
    delayed or sent. *)
(*@ src/src/labrpc/labrpc.go 233-250 Network.ProcessReq (reply) *)
Definition finish_req (rn : Network) (req : reqMsg) (i : Info) (r : option replyMsg)
    (rnd1 rnd2 : Z) : Phase :=
  match r with
  | None => Replied failure
  | Some rep =>
      if IsServerDead rn (endname req) (i_sn i) (i_srv i) then Replied failure
      else if dropped (i_rel i) rnd1 then Replied failure
      else if i_reorder i && (rnd2 <? 600) then Delayed rep
      else Replied rep
  end.

Definition put_flight (s : State) (k : nat) (f : Flight) : State :=
  s <| flights := <[k:=f]> (flights s) |>.

(** The handler goroutine of request [k]; a panic or log.Fatal in it ends the
    process. *)
(*@ src/src/labrpc/labrpc.go 206-209 Network.ProcessReq (handler) *)
Definition exec_handle (s : State) (k : nat) (f : Flight) (srv : nat) :
    option (res State) :=
  rs ← heap s !! srv;
  let '(rs', out) := srv_dispatch rs (world s) (request f) in
  Some ('(w', r) ← out;
        mret (put_flight
                (s <| heap := <[srv:=rs']> (heap s) |> <| world := w' |>
                   <| calls := calls s ++ [(k, srv)] |>)
                k (f <| handler := Returned r |>))).

(** The steps of ProcessReq for request [k]; [None]: not enabled. *)
(*@ src/src/labrpc/labrpc.go 186-265 Network.ProcessReq *)
Definition exec_flight (s : State) (k : nat) (f : Flight) (e : Event) :
    option (res State) :=
  match e, phase f, handler f with
  | NRead _, Queued, _ =>
      Some (Ok (put_flight s k (f <| phase := admit_req (net s) (request f) |>)))
  | NAccept _ rnd, Routed i, _ =>
      Some (Ok (put_flight s k
        (if dropped (i_rel i) rnd then f <| phase := Replied failure |>
         else f <| phase := Waiting i |> <| handler := Started (i_srv i) |>)))
  | NHandle _, _, Started srv => exec_handle s k f srv
  | NReceive _, Waiting i, Returned r =>
      Some (Ok (put_flight s k
        (f <| phase := Finished i (Some r) |> <| handler := Consumed |>)))
  | NTimer _, Waiting i, _ =>
      Some (Ok (if IsServerDead (net s) (endname (request f)) (i_sn i) (i_srv i)
                then put_flight s k (f <| phase := Finished i None |>) else s))
  | NFinish _ rnd1 rnd2, Finished i r, _ =>
      Some (Ok (put_flight s k
        (f <| phase := finish_req (net s) (request f) i r rnd1 rnd2 |>)))
  | NRelease _, Delayed r, _ => Some (Ok (put_flight s k (f <| phase := Replied r |>)))
  | NRelease _, Refused, _ => Some (Ok (put_flight s k (f <| phase := Replied failure |>)))
  | _, _, _ => None
  end.

Definition exec (s : State) (e : Event) : option (res State) :=
  match e with
  | NAdmin op => Some (rn ← exec_admin (net s) op; mret (s <| net := rn |>))
  | NNewServer rs => Some (Ok (s <| heap := heap s ++ [rs] |>))
  | NSend req => Some (Ok (s <| flights := flights s ++ [mkFlight req Queued NotStarted] |>))
  | NRead k | NAccept k _ | NHandle k | NReceive k | NTimer k | NFinish k _ _
  | NRelease k => f ← flights s !! k; exec_flight s k f e
  end.

(** [GetCount] of a server. *)
(*@ src/src/labrpc/labrpc.go 377-381 Server.GetCount *)
Definition srv_GetCount (rs : Server) : Z := count rs.

(** get a server's count of incoming RPCs; the pointer of a deleted server is
    nil and is dereferenced *)
(*@ src/src/labrpc/labrpc.go 319-325 Network.GetCount *)
Definition GetCount (s : State) (sn : Name) : res Z :=
  match mjoin (servers (net s) !! sn) ≫= λ srv, heap s !! srv with
  | Some rs => Ok (srv_GetCount rs)
  | None => Panic
  end.

(** ** Executions *)

Definition init (w : W) : State := mkState MakeNetwork [] w [] [].

Inductive Reachable : State → Prop :=
| reach_init w : Reachable (init w)
| reach_step s e s' : Reachable s → exec s e = Some (Ok s') →
    (∀ rs, e = NNewServer rs → count rs = 0) → Reachable s'.

Fixpoint run (s : State) (es : list Event) : option State :=
  match es with
  | [] => Some s
  | e :: es => match exec s e with Some (Ok s') => run s' es | _ => None end
  end.

(** ** The invariant *)

Definition executed (f : Flight) : bool :=
  match handler f with Returned _ | Consumed => true | _ => false end.

(** The servers a request's phase and handler refer to. *)
Definition started (f : Flight) : bool :=
  match handler f with NotStarted => false | _ => true end.

(** A positive answer is only held by a request whose handler has run. *)
Definition flight_ok (f : Flight) : Prop :=
  match phase f with
  | Queued | Routed _ | Refused => handler f = NotStarted
  | Waiting _ => started f = true
  | Finished _ (Some _) | Delayed _ => handler f = Consumed
  | Finished _ None => started f = true
  | Replied r => ok r = true → handler f = Consumed
  end.

Record inv (s : State) : Prop := mkInv {
  inv_flight k f : flights s !! k = Some f → flight_ok f;
  inv_calls k srv : (k, srv) ∈ calls s →
    ∃ f, flights s !! k = Some f ∧ executed f = true;
  inv_done k f : flights s !! k = Some f → executed f = true → ∃ srv, (k, srv) ∈ calls s;
  inv_once : NoDup (fst <$> calls s);
  inv_count srv rs : heap s !! srv = Some rs →
    count rs = len (filter (λ c, c.2 = srv) (calls s));
  inv_heap k srv : (k, srv) ∈ calls s → (srv < length (heap s))%nat;
}.

Lemma net_init_inv w : inv (init w).
Proof.
  constructor; cbn; try done; try (intros; set_solver); constructor.
Qed.

(** A step that moves one request without running a handler. *)
Lemma inv_put s k f f' :
  inv s → flights s !! k = Some f → flight_ok f' → executed f' = executed f →
  inv (put_flight s k f').
Proof.
  intros [Hf Hc Hd Ho Hn Hh] Hk Hok He. constructor; cbn; try done.
  - intros j g [[-> [-> _]]|[Hj Hg]]%list_lookup_insert_Some; eauto.
  - intros j srv Hj. destruct (Hc j srv Hj) as (g & Hg & Heg).
    destruct (decide (k = j)) as [->|].
    + exists f'. rewrite list_lookup_insert_eq by (by eapply lookup_lt_Some).
      simplify_eq. by rewrite He.
    + exists g. by rewrite list_lookup_insert_ne.
  - intros j g [[-> [-> _]]|[Hj Hg]]%list_lookup_insert_Some Hex; [|eauto].
    apply (Hd _ f Hk). congruence.
Qed.

(** The handler of a request runs: one more call, counted by its server. *)
Lemma inv_handle s k f srv s' :
  inv s → flights s !! k = Some f → handler f = Started srv →
  exec_handle s k f srv = Some (Ok s') → inv s'.
Proof.
  intros [Hf Hc Hd Ho Hn Hh] Hk Hst. unfold exec_handle.
  destruct (heap s !! srv) as [rs|] eqn:Hrs; cbn; [|done].
  destruct (srv_dispatch rs (world s) (request f)) as [rs' out] eqn:HD.
  intros [= H1]. mbind_inv H1. destruct a as [w' r]. injection H1 as <-.
  assert (Hnew : k ∉ (fst <$> calls s)).
  { intros ([k' srv'] & ? & Hin)%list_elem_of_fmap. cbn in *. subst k'.
    destruct (Hc _ _ Hin) as (g & Hg & Heg). simplify_eq.
    unfold executed in Heg. by rewrite Hst in Heg. }
  constructor; cbn.
  - intros j g [[-> [<- _]]|[Hj Hg]]%list_lookup_insert_Some; [|eauto].
    pose proof (Hf _ _ Hk) as Hfo. unfold flight_ok, started in *. cbn. rewrite Hst in Hfo.
    destruct (phase f) as [| | |? []| | |]; try done. intros Hr. by apply Hfo in Hr.
  - intros j srv' [Hj|Hj]%elem_of_app.
    + destruct (decide (k = j)) as [->|]; [exfalso; apply Hnew, list_elem_of_fmap; by exists (j, srv')|].
      destruct (Hc _ _ Hj) as (g & ? & ?). exists g. by rewrite list_lookup_insert_ne.
    + apply list_elem_of_singleton in Hj as [= -> ->]. exists (f <| handler := Returned r |>).
      by rewrite list_lookup_insert_eq by (by eapply lookup_lt_Some).
  - intros j g [[-> [<- _]]|[Hj Hg]]%list_lookup_insert_Some Hex.
    + exists srv. apply elem_of_app. right. by apply list_elem_of_singleton.
    + destruct (Hd _ _ Hg Hex) as [srv' ?]. exists srv'. apply elem_of_app. by left.
  - rewrite fmap_app. apply NoDup_app. split_and!; [done| |apply NoDup_singleton].
    intros x Hx Hx2%list_elem_of_singleton. cbn in Hx2. by subst x.
  - intros srv' rs2. rewrite filter_app, len_app.
    intros [[-> [<- _]]|[Hj Hg]]%list_lookup_insert_Some.
    + cbn. rewrite (Hn _ _ Hrs). by case_decide.
    + rewrite (Hn _ _ Hg). cbn. case_decide; [done|]. unfold len. cbn. lia.
  - intros j srv'. rewrite length_insert. intros [Hj|Hj]%elem_of_app; [eauto|].
    apply list_elem_of_singleton in Hj as [= _ ->]. by eapply lookup_lt_Some.
Qed.

Lemma finish_req_cases rn req i r rnd1 rnd2 :
  finish_req rn req i r rnd1 rnd2 = Replied failure ∨
  ∃ rep, r = Some rep ∧ (finish_req rn req i r rnd1 rnd2 = Delayed rep ∨
                         finish_req rn req i r rnd1 rnd2 = Replied rep).
Proof. unfold finish_req. repeat case_match; eauto. Qed.

Lemma inv_flight_step s k f e s' :
  inv s → flights s !! k = Some f → exec_flight s k f e = Some (Ok s') → inv s'.
Proof.
  intros HI Hk He. pose proof (inv_flight _ HI _ _ Hk) as Hfo.
  unfold exec_flight in He. unfold flight_ok, started in Hfo.
  destruct e; try done.
  - destruct (phase f) eqn:Hp; try done. injection He as <-.
    eapply inv_put; [done..| |done]. unfold flight_ok, admit_req. cbn.
    by repeat case_match.
  - destruct (phase f) eqn:Hp; try done. injection He as <-. case_match.
    + by eapply inv_put.
    + eapply inv_put; [done|done|done|]. unfold executed. cbn. by rewrite Hfo.
  - destruct (handler f) eqn:Hh; try (destruct (phase f); done).
    eapply inv_handle; [done..|]. by destruct (phase f).
  - destruct (phase f) eqn:Hp; try done. destruct (handler f) eqn:Hh; try done.
    injection He as <-. eapply inv_put; [done|done|done|].
    unfold executed. cbn. by rewrite Hh.
  - destruct (phase f) eqn:Hp; try done. injection He as <-.
    destruct (IsServerDead _ _ _ _); [|done]. by eapply inv_put.
  - destruct (phase f) as [| | |i r| | |] eqn:Hp; try done. injection He as <-.
    eapply inv_put; [done..| |done]. unfold flight_ok. cbn.
    by destruct (finish_req_cases (net s) (request f) i r rnd1 rnd2)
      as [->|(rep & -> & [->| ->])].
  - destruct (phase f) eqn:Hp; try done; injection He as <-;
      (eapply inv_put; [done|done|unfold flight_ok; cbn; done|done]).
Qed.

Lemma net_reachable_inv s : Reachable s → inv s.
Proof.
  induction 1 as [w|s e s' _ IH He Hnew]; [apply net_init_inv|].
  destruct e; cbn [exec] in He;
    try (apply bind_Some in He as (f & Hk & He); by eapply inv_flight_step).
  - injection He as He. mbind_inv He. injection He as <-. destruct IH. by constructor.
  - injection He as <-. destruct IH as [Hf Hc Hd Ho Hn Hh]. constructor; cbn; try done.
    + intros srv rs' [Hs|[Hs Hrs]]%lookup_app_Some; [by apply Hn|].
      apply list_lookup_singleton_Some in Hrs as [Hz <-]. rewrite (Hnew rs) by done.
      rewrite filter_none; [done|]. intros [j srv'] Hj. cbn. pose proof (Hh _ _ Hj). lia.
    + intros j srv Hj. rewrite length_app. cbn. pose proof (Hh _ _ Hj). lia.
  - injection He as <-. destruct IH as [Hf Hc Hd Ho Hn Hh]. constructor; cbn; try done.
    + intros j g [Hg|[_ Hg]]%lookup_app_Some; [eauto|].
      apply list_lookup_singleton_Some in Hg as [_ <-]. done.
    + intros j srv Hj. destruct (Hc _ _ Hj) as (g & ? & ?). exists g.
      split; [|done]. by apply lookup_app_l_Some.
    + intros j g [Hg|[_ Hg]]%lookup_app_Some; [eauto|].
      apply list_lookup_singleton_Some in Hg as [_ <-]. done.
Qed.

(** ** Theorems *)

(** C25. At most once: in every execution of the network, however requests,
    handlers, timers, losses and reconfigurations interleave, the handler of a
    request runs at most once; a client that gets a positive reply had its
    handler run; and the count of a server is the number of handler calls it
    served. *)
Theorem at_most_once s :
  Reachable s →
  NoDup (fst <$> calls s) ∧
  (∀ k f rep, flights s !! k = Some f → phase f = Replied rep → ok rep = true →
     ∃ srv, (k, srv) ∈ calls s) ∧
  (∀ srv rs, heap s !! srv = Some rs →
     count rs = len (filter (λ c, c.2 = srv) (calls s))).
Proof.
  intros HI%net_reachable_inv. split_and!; [apply HI| |apply HI].
  intros k f rep Hk Hp Hr. apply (inv_done _ HI k f Hk).
  pose proof (inv_flight _ HI k f Hk) as Hf. unfold flight_ok in Hf.
  rewrite Hp in Hf. unfold executed. by rewrite (Hf Hr).
Qed.

(** No reply from a deleted or replaced server: when ProcessReq comes to
    answer and the end point is disabled or the server it sent the request to is
    not the one registered under that name any more, the client gets a failure,
    although the handler may have run. *)
Theorem no_reply_after_delete s k f i r rnd1 rnd2 s' :
  flights s !! k = Some f → phase f = Finished i r →
  (default false (enabled (net s) !! endname (request f)) = false ∨
   mjoin (servers (net s) !! i_sn i) ≠ Some (i_srv i)) →
  exec s (NFinish k rnd1 rnd2) = Some (Ok s') →
  ∃ f', flights s' !! k = Some f' ∧ phase f' = Replied failure ∧ request f' = request f.
Proof.
  intros Hk Hp Hdead He. cbn in He. rewrite Hk in He. cbn in He. rewrite Hp in He.
  injection He as <-. eexists. cbn.
  rewrite list_lookup_insert_eq by (by eapply lookup_lt_Some).
  split; [done|]. split; [|done]. cbn. unfold finish_req. destruct r as [rep|]; [|done].
  replace (IsServerDead _ _ _ _) with true; [done|]. unfold IsServerDead. symmetry.
  destruct Hdead as [->|Hne]; [done|]. rewrite bool_decide_eq_false_2 by done.
  apply orb_true_r.
Qed.

Lemma LastDot_nodot s : (∀ c, c ∈ chars s → c ≠ "."%char) → LastDot s = -1.
Proof.
  induction s as [|c s IH]; intros Hs; [done|]. cbn. rewrite IH; cbn.
  - destruct (Ascii.eqb_spec c "."%char); [|done]. exfalso. eapply Hs; [|done]. by left.
  - intros c' Hc'. apply Hs. by right.
Qed.

Lemma LastDot_app s m :
  LastDot m = -1 → LastDot (s +:+ String "."%char m) = Z.of_nat (String.length s).
Proof.
  intros Hm. induction s as [|c s IH].
  - change (LastDot (String "."%char m) = 0). unfold LastDot. fold LastDot. by rewrite Hm.
  - change (LastDot (String c (s +:+ String "."%char m)) = Z.of_nat (S (String.length s))).
    cbn [LastDot]. rewrite IH. destruct (Z.leb_spec 0 (Z.of_nat (String.length s))); lia.
Qed.

(** A request for a registered method runs it on the decoded argument. *)
Lemma dispatch_to rs w e svc m a :
  (∀ v, Decode (Encode v) = Some v) →
  (∀ c, c ∈ chars (mname m) → c ≠ "."%char) →
  services rs !! name svc = Some svc → methods svc !! mname m = Some m →
  snd (srv_dispatch rs w (call_request e (name svc +:+ "." +:+ mname m) a)) =
    Ok (fst (Func m w a), mkReply true (Some (Encode (snd (Func m w a))))).
Proof.
  intros Hcodec Hnodot Hsvc Hm. apply LastDot_nodot in Hnodot.
  unfold srv_dispatch, split_meth. cbn [svcMeth call_request snd].
  change (name svc +:+ "." +:+ mname m) with (name svc +:+ String "."%char (mname m)).
  rewrite LastDot_app by done.
  destruct (Z.ltb_spec (Z.of_nat (String.length (name svc))) 0); [lia|]. cbn [mbind res_bind].
  rewrite Nat2Z.id, substring_prefix.
  replace (String.length (name svc) + 1)%nat with (String.length (name svc +:+ ".")).
  2:{ rewrite string_length_app. done. }
  assert (Ha : name svc +:+ String "."%char (mname m) = (name svc +:+ ".") +:+ mname m)
    by (by rewrite <- string_app_assoc).
  rewrite Ha, substring_suffix.
  2:{ rewrite !string_length_app. lia. }
  cbn. rewrite Hsvc. unfold svc_dispatch. rewrite Hm. cbn. rewrite Hcodec. cbn.
  by destruct (Func m w a) as [w' r].
Qed.

Lemma call_reply_encode v :
  Decode (Encode v) = Some v → call_reply (mkReply true (Some (Encode v))) = Ok (Some v).
Proof. intros Hv. unfold call_reply. cbn. by rewrite Hv. Qed.

(** C27. Routing: a method name "Service.Method" is split at its last dot, so
    the request of [Call] reaches the method [MakeService] registered under that
    name, with the decoded argument, and the answer carries its result, whatever
    dots the service name has. *)
Theorem dispatch_routes rs w e svc m a :
  (∀ v, Decode (Encode v) = Some v) →
  (∀ c, c ∈ chars (mname m) → c ≠ "."%char) →
  services rs !! name svc = Some svc → methods svc !! mname m = Some m →
  ∃ rep,
    snd (srv_dispatch rs w (call_request e (name svc +:+ "." +:+ mname m) a)) =
      Ok (fst (Func m w a), rep) ∧
    call_reply rep = Ok (Some (snd (Func m w a))).
Proof.
  intros Hcodec Hnodot Hsvc Hm. eexists. split; [by apply dispatch_to|].
  by apply call_reply_encode.
Qed.

(** A working connection answers: on a reliable network, a request from an
    enabled end connected to a live server goes through all its phases and the
    client gets what the handler computed from its argument; the server has
    counted one more request. *)
Theorem reliable_call s req sn srv rs w' rep rnd rnd1 rnd2 :
  let k := length (flights s) in
  enabled (net s) !! endname req = Some true →
  connections (net s) !! endname req = Some (Some sn) →
  servers (net s) !! sn = Some (Some srv) →
  heap s !! srv = Some rs →
  reliable (net s) = true → longReordering (net s) = false →
  snd (srv_dispatch rs (world s) req) = Ok (w', rep) →
  ∃ s' f, run s [NSend req; NRead k; NAccept k rnd; NHandle k; NReceive k;
                 NFinish k rnd1 rnd2] = Some s' ∧
    flights s' !! k = Some f ∧ phase f = Replied rep ∧ world s' = w' ∧
    calls s' = calls s ++ [(k, srv)] ∧ GetCount s' sn = Ok (count rs + 1).
Proof.
  intros k Hen Hco Hse Hrs Hrel Hreo Hd.
  assert (Hk : (flights s ++ [mkFlight req Queued NotStarted]) !! k =
               Some (mkFlight req Queued NotStarted)).
  { unfold k. by rewrite lookup_app_r, Nat.sub_diag by lia. }
  assert (Hget : ∀ f, <[k:=f]> (flights s ++ [mkFlight req Queued NotStarted]) !! k = Some f).
  { intros f. apply list_lookup_insert_eq. by eapply lookup_lt_Some. }
  clearbody k.
  assert (Hd' : srv_dispatch rs (world s) req =
                (mkServer (services rs) (count rs + 1), Ok (w', rep))).
  { by rewrite (surjective_pairing (srv_dispatch _ _ _)), Hd. }
  eexists _, _. split.
  { cbn. rewrite Hk. cbn. unfold admit_req, ReadEndnameInfo. cbn.
    rewrite Hen, Hco. cbn. rewrite Hse, Hrel, Hreo. cbn. rewrite Hget. cbn.
    rewrite !list_insert_insert_eq, Hget. cbn. unfold exec_handle.
    cbn -[srv_dispatch]. rewrite Hrs. cbn -[srv_dispatch]. rewrite Hd'. cbn. rewrite !list_insert_insert_eq, Hget. cbn.
    rewrite !list_insert_insert_eq, Hget. done. }
  cbn. rewrite !list_insert_insert_eq, Hget. split; [done|]. cbn.
  unfold finish_req, IsServerDead, GetCount. cbn. rewrite Hen, Hse. cbn.
  rewrite bool_decide_eq_true_2 by done. cbn. split_and!; try done.
  by rewrite list_lookup_insert_eq by (by eapply lookup_lt_Some).
Qed.

(** Asking for the count of a deleted server dereferences a nil pointer. *)
Lemma GetCount_deleted s sn : GetCount (s <| net := DeleteServer (net s) sn |>) sn = Panic.
Proof. unfold GetCount. cbn. by rewrite lookup_insert_eq. Qed.
End labrpc.
End Labrpc.
