(* ===== verification/LogInterface.v ===== *)
(** * LogInterface: what a service may rely on from its replicated log

    The key/value server of src/src/kvraft uses three methods of its Raft peer:
    Start, GetState2 and Kill.  The class states the methods and the laws; the
    peer of Raft.v is an instance, in every state a cluster reaches. *)
From S2P Require Import Prelude Persister Raft RaftCluster RaftInv RaftInvLog.
From S2P Require Import RaftInvStep RaftSafety.
Export Raft.

Module LogInterface.

(** The methods: Start returns the index, the term and whether the peer leads;
    GetState2 whether it leads, its log and its commit index. *)
Class ReplicatedLog (Cmd L : Type) := {
  log_Start : L → Cmd → L * (Z * Z * bool);
  log_GetState2 : L → bool * list (LogEntry Cmd) * Z;
  log_Kill : L → L;
}.

Section interface.
Context {Cmd L : Type} `{ReplicatedLog Cmd L}.

Definition leads (l : L) : bool := (log_GetState2 l).1.1.
Definition entries (l : L) : list (LogEntry Cmd) := (log_GetState2 l).1.2.
Definition committed (l : L) : Z := (log_GetState2 l).2.
End interface.

(** The laws, for the states [ok] describes: the commit index is within the
    log, and Start appends at a leader, does nothing elsewhere, and returns the
    position its command takes. *)
Class ReplicatedLogLaws {Cmd L : Type} `{ReplicatedLog Cmd L} (ok : L → Prop) := {
  law_committed l : ok l → 0 ≤ committed l ≤ len (entries l);
  law_start_ok l c : ok l → ok (log_Start l c).1;
  law_start_index l c : ok l → (log_Start l c).2.1.1 = len (entries l) + 1;
  law_start_leads l c : ok l → (log_Start l c).2.2 = leads l;
  law_start_entries l c : ok l →
    entries (log_Start l c).1 =
    entries l ++ (if leads l then [mkEntry c (log_Start l c).2.1.2] else []);
  law_start_committed l c : ok l → committed (log_Start l c).1 = committed l;
}.

#[export] Instance raft_log {Cmd} : ReplicatedLog Cmd (Raft Cmd) := {
  log_Start := Start;
  log_GetState2 := GetState2;
  log_Kill := Kill;
}.

Definition raft_ok {Cmd} (rf : Raft Cmd) : Prop := 0 ≤ commitIndex rf ≤ len (logs rf).

#[export] Instance raft_log_laws {Cmd} : ReplicatedLogLaws (@raft_ok Cmd).
Proof.
  split; unfold entries, committed, leads, raft_ok; cbn; intros rf.
  - done.
  - intros c Hok. unfold Start. case_decide; cbn; [|done]. rewrite len_app, len_singleton. lia.
  - done.
  - intros c _. unfold Start. by case_decide.
  - intros c _. unfold Start. case_decide; cbn.
    + by rewrite bool_decide_eq_true_2.
    + by rewrite bool_decide_eq_false_2, app_nil_r.
  - intros c _. unfold Start. by case_decide.
Qed.

(** Every peer of a reachable cluster satisfies the laws. *)
Lemma reachable_raft_ok {Cmd} (s : Cluster Cmd) i :
  ReachableSync s → 0 ≤ i < size s → raft_ok (nodes s i).
Proof. intros [G HI]%Safety.reachable_inv Hi. apply (inv_nodes _ _ HI i Hi). Qed.

End LogInterface.
