(* ===== verification/KVRaft.v ===== *)
(** * KVRaft: the key/value service over the replicated log

    Models src/src/kvraft: the operations of the log (common.go), the server
    (server.go) and the clerk (client.go).  The server is written against the
    interface of LogInterface.v.  A handler polls state other goroutines change;
    what it sees at poll number [n] is an argument: [cur n] is
    [kv.currentIndex] and [st2 n] what [GetState2] returns.  The clerk's remote
    calls are an argument too: [rpc r i args] is the answer of server [i] in
    round [r] of the loop, [None] for a call that returned false. *)
From S2P Require Import Prelude Persister Raft LogInterface.
Export LogInterface.

Module KVRaft.

(*@ src/src/kvraft/server.go 23-29 Op *)
Record Op := mkOp { Opt : string; Key : string; Value : string; UUID : string }.

#[export] Instance op_eq_dec : EqDecision Op.
Proof. solve_decision. Defined.

(*@ src/src/kvraft/common.go 11-17 PutAppendArgs *)
Record PutAppendArgs := mkPAArgs
  { pa_Key : string; pa_Value : string; pa_Opt : string; pa_UUID : string }.

(** [Err] is never set by the server. *)
(*@ src/src/kvraft/common.go 19-23 PutAppendReply *)
Record PutAppendReply := mkPAReply { pa_WrongLeader : bool; pa_ID : Z }.

(*@ src/src/kvraft/common.go 25-29 GetArgs *)
Record GetArgs := mkGArgs { g_Key : string; g_UUID : string }.

(*@ src/src/kvraft/common.go 31-36 GetReply *)
Record GetReply := mkGReply { g_WrongLeader : bool; g_Value : string; g_ID : Z }.

(** ** The state machine: replaying the log *)

(** The two maps of Get: the store, and how often each UUID was seen. *)
Notation DB := (gmap string string).
Notation Seen := (gmap string Z).

(*@ src/src/kvraft/server.go 83-92 RaftKV.Get (switch) *)
Definition apply_op (db : DB) (op : Op) : DB :=
  if String.eqb (Opt op) "Put" then <[Key op := Value op]> db
  else if String.eqb (Opt op) "Append" then
    <[Key op := default "" (db !! Key op) +:+ Value op]> db
  else db.

(*@ src/src/kvraft/server.go 74-93 RaftKV.Get (loop body) *)
Definition replay_op (st : DB * Seen) (op : Op) : DB * Seen :=
  let '(db, UUIDs) := st in
  if negb (String.eqb (Opt op) "Get") && (0 <? default 0 (UUIDs !! UUID op))
  then (db, UUIDs)
  else (apply_op db op, <[UUID op := default 0 (UUIDs !! UUID op) + 1]> UUIDs).

Definition replay (ops : list Op) : DB * Seen := foldl replay_op (∅, ∅) ops.

(** Over the log, up to the commit index. *)
(*@ src/src/kvraft/server.go 65-93 RaftKV.Get (replay) *)
Definition replay_logs (logs : list (LogEntry Op)) (commitIndex : Z) : res (DB * Seen) :=
  ops ← mapM (λ i, e ← slice_get logs i; mret (command e)) (range 0 commitIndex);
  mret (replay ops).

(** ** The server *)

Section server.
Context {L : Type} `{ReplicatedLog Op L}.

(*@ src/src/kvraft/server.go 32-42 RaftKV *)
Record RaftKV := mkKV { kv_me : Z; kv_rf : L; maxraftstate : Z; currentIndex : Z }.
#[export] Instance eta_kv : Eta RaftKV := λ k,
  mkKV (kv_me k) (kv_rf k) (maxraftstate k) (currentIndex k).

#[local] Notation State2 := (bool * list (LogEntry Op) * Z)%type.

(** The poll loop of Get; [tries] polls are left, [n] is the next one. *)
(*@ src/src/kvraft/server.go 54-102 RaftKV.Get (poll) *)
Fixpoint get_poll (index : Z) (key : string) (cur : nat → Z) (st2 : nat → State2)
    (tries n : nat) : res GetReply :=
  match tries with
  | O => mret (mkGReply true "" 0)
  | S tries =>
      if cur n =? index then
        let '(_, logs, commitIndex) := st2 n in
        '(db, _) ← replay_logs logs commitIndex;
        mret (mkGReply false (default "" (db !! key)) index)
      else get_poll index key cur st2 tries (S n)
  end.

(** [cnt > 30] ends the loop. *)
(*@ src/src/kvraft/server.go 45-104 RaftKV.Get *)
Definition Get (kv : RaftKV) (args : GetArgs) (cur : nat → Z) (st2 : nat → State2) :
    RaftKV * res GetReply :=
  let op := mkOp "Get" (g_Key args) "" (g_UUID args) in
  let '(rf, (index, _, isLeader)) := log_Start (kv_rf kv) op in
  (kv <| kv_rf := rf |>,
   if isLeader : bool then get_poll index (g_Key args) cur st2 30 0
   else mret (mkGReply true "" 0)).

(** Is the entry the one this call started?  Everything but the UUID is
    compared. *)
(*@ src/src/kvraft/server.go 128-128 RaftKV.PutAppend (condition) *)
Definition same_op (tmp op : Op) : bool :=
  String.eqb (Opt tmp) (Opt op) && String.eqb (Key tmp) (Key op) &&
  String.eqb (Value tmp) (Value op).

(*@ src/src/kvraft/server.go 116-136 RaftKV.PutAppend (poll) *)
Fixpoint put_poll (index : Z) (op : Op) (cur : nat → Z) (st2 : nat → State2)
    (tries n : nat) : res PutAppendReply :=
  match tries with
  | O => mret (mkPAReply true 0)
  | S tries =>
      if index <=? cur n then
        let '(_, logs, _) := st2 n in
        tmp ← slice_get logs (index - 1);
        mret (if same_op (command tmp) op then mkPAReply false index else mkPAReply true 0)
      else put_poll index op cur st2 tries (S n)
  end.

(*@ src/src/kvraft/server.go 106-138 RaftKV.PutAppend *)
Definition PutAppend (kv : RaftKV) (args : PutAppendArgs) (cur : nat → Z)
    (st2 : nat → State2) : RaftKV * res PutAppendReply :=
  let op := mkOp (pa_Opt args) (pa_Key args) (pa_Value args) (pa_UUID args) in
  let '(rf, (index, _, isLeader)) := log_Start (kv_rf kv) op in
  (kv <| kv_rf := rf |>,
   if isLeader : bool then put_poll index op cur st2 500 0
   else mret (mkPAReply true 0)).

(*@ src/src/kvraft/server.go 146-150 RaftKV.Kill *)
Definition KVKill (kv : RaftKV) : RaftKV := kv <| kv_rf := log_Kill (kv_rf kv) |>.

(*@ src/src/kvraft/server.go 165-178 StartKVServer *)
Definition StartKVServer (rf : L) (i maxstate : Z) : RaftKV := mkKV i rf maxstate 0.

(** One turn of the goroutine that drains applyCh. *)
(*@ src/src/kvraft/server.go 180-190 StartKVServer (apply loop) *)
Definition apply_msg (kv : RaftKV) (msg : ApplyMsg Op) : RaftKV :=
  if currentIndex kv <? Index msg then kv <| currentIndex := Index msg |> else kv.
End server.
Arguments RaftKV : clear implicits.

(** ** The clerk *)

(*@ src/src/kvraft/client.go 13-18 Clerk *)
Record Clerk := mkClerk { servers : list Z; id : Z; cnt : Z }.
#[export] Instance eta_clerk : Eta Clerk := λ c, mkClerk (servers c) (id c) (cnt c).

(*@ src/src/kvraft/client.go 27-35 MakeClerk *)
Definition MakeClerk (ss : list Z) : Clerk := mkClerk ss 0 0.

(*@ src/src/kvraft/client.go 55-55 Clerk.Get (UUID) *)
Definition uuid (i c : Z) : string := Itoa i +:+ "_" +:+ Itoa c.

(** One pass over the servers: the first that is the leader answers. *)
(*@ src/src/kvraft/client.go 53-66 Clerk.Get (round) *)
Fixpoint get_round (rpc : Z → GetArgs → option GetReply) (key : string) (ck : Clerk)
    (ss : list Z) : option (Clerk * string) :=
  match ss with
  | [] => None
  | i :: ss =>
      let args := mkGArgs key (uuid (id ck) (cnt ck)) in
      match rpc i args with
      | Some reply =>
          if negb (g_WrongLeader reply) then
            Some (if id ck =? 0 then ck <| id := g_ID reply |> else ck, g_Value reply)
          else get_round rpc key ck ss
      | None => get_round rpc key ck ss
      end
  end.

(** [fuel] bounds the number of rounds; [r] is the next one. *)
(*@ src/src/kvraft/client.go 49-71 Clerk.Get *)
Fixpoint ClerkGet (rpc : nat → Z → GetArgs → option GetReply) (fuel r : nat)
    (ck : Clerk) (key : string) : option (Clerk * string) :=
  match fuel with
  | O => None
  | S fuel =>
      match get_round (rpc r) key ck (servers ck) with
      | Some (ck, value) => Some (ck <| cnt := cnt ck + 1 |>, value)
      | None => ClerkGet rpc fuel (S r) ck key
      end
  end.

(** One pass over the servers; there is no break, every server is called.
    Returns whether one of them reported success. *)
(*@ src/src/kvraft/client.go 91-99 Clerk.PutAppend (round) *)
Definition put_args (ck : Clerk) (key value opt : string) : PutAppendArgs :=
  mkPAArgs key value opt (uuid (id ck) (cnt ck)).

Definition put_accepted (rep : option PutAppendReply) : bool :=
  match rep with Some reply => negb (pa_WrongLeader reply) | None => false end.

(*@ src/src/kvraft/client.go 90-101 Clerk.PutAppend (loop) *)
Fixpoint put_loop (rpc : nat → Z → PutAppendArgs → option PutAppendReply)
    (fuel r : nat) (ck : Clerk) (args : PutAppendArgs) : option nat :=
  match fuel with
  | O => None
  | S fuel =>
      if existsb (λ i, put_accepted (rpc r i args)) (servers ck) then Some r
      else put_loop rpc fuel (S r) ck args
  end.

(** Returns the new clerk and the number of rounds; a clerk without an identity
    first gets one from a Get. *)
(*@ src/src/kvraft/client.go 83-103 Clerk.PutAppend *)
Definition ClerkPutAppend (grpc : nat → Z → GetArgs → option GetReply)
    (rpc : nat → Z → PutAppendArgs → option PutAppendReply) (fuel : nat)
    (ck : Clerk) (key value opt : string) : option (Clerk * nat) :=
  ck ← (if id ck =? 0 then fst <$> ClerkGet grpc fuel 0 ck "nobody" else Some ck);
  r ← put_loop rpc fuel 0 ck (put_args ck key value opt);
  Some (ck <| cnt := cnt ck + 1 |>, S r).

(*@ src/src/kvraft/client.go 105-107 Clerk.Put *)
Definition ClerkPut grpc rpc fuel ck key value :=
  ClerkPutAppend grpc rpc fuel ck key value "Put".

(*@ src/src/kvraft/client.go 108-110 Clerk.Append *)
Definition ClerkAppend grpc rpc fuel ck key value :=
  ClerkPutAppend grpc rpc fuel ck key value "Append".
End KVRaft.
