(* ===== verification/KVAgreement.v ===== *)
(** * KVAgreement: the servers of the key/value service share one history

    Puts the replicated log of RaftAgreement.v under the service of KVRaft.v: in
    the executions in which no check goes stale and no message is overtaken, the
    stores of all servers are states of one sequence of operations, in which
    every UUID takes effect once.  The handlers read the log of their peer through
    a slice that shares its array with it. *)
From S2P Require Import Prelude Persister Raft RaftCluster RaftInv RaftInvLog.
From S2P Require Import RaftInvStep RaftSafety RaftProps RaftCommit RaftCommitStep.
From S2P Require Import RaftAgreement RaftApplied LogInterface KVRaft KVRaftProps.
Export KVRaft.

Module KVAgreement.
Import KVRaftProps.

#[local] Notation Cluster := (Cluster.Cluster Op).
Implicit Types (s : Cluster) (ops : list Op).

(** The store after the first [k] operations of a history. *)
Definition store_at ops (k : nat) : DB := store (take k ops).

Lemma abstracts_reachable s : ReachableInOrder s → ∃ ops, Agreement.abstracts s ops.
Proof.
  intros (G & H & HI & HC)%reachable_commit.
  destruct (Agreement.agreed_exists _ _ _ HI HC) as [l Hl]. eexists. exists G, H, l. eauto.
Qed.

(** A peer's log up to its commit index is the history up to that index. *)
Lemma committed_history s ops i :
  Agreement.abstracts s ops → 0 ≤ i < size s →
  let c := commitIndex (nodes s i) in
  0 ≤ c ≤ len ops ∧ c ≤ len (logs (nodes s i)) ∧
  command <$> take (Z.to_nat c) (logs (nodes s i)) = take (Z.to_nat c) ops.
Proof.
  intros HA Hi c. pose proof (Agreement.abstracts_committed _ _ _ HA Hi) as Hp.
  destruct HA as (G & H & l & HI & _). pose proof (nk_commit _ _ _ _ (inv_nodes _ _ HI i Hi)) as Hc.
  fold c in Hp, Hc. apply prefix_length in Hp as Hlen.
  rewrite length_fmap, length_take in Hlen. unfold len in *.
  split; [lia|]. split; [lia|]. destruct Hp as [x ->].
  rewrite take_app_le by (rewrite length_fmap, length_take; lia).
  symmetry. apply take_ge. rewrite length_fmap, length_take. lia.
Qed.

(** What GetState2 shows a handler. *)
Lemma view_history s ops i :
  Agreement.abstracts s ops → 0 ≤ i < size s →
  let c := commitIndex (nodes s i) in
  view_ok (GetState2 (nodes s i)) ∧
  view_store (GetState2 (nodes s i)) = store_at ops (Z.to_nat c).
Proof.
  intros HA Hi c. destruct (committed_history _ _ _ HA Hi) as (Hc & Hl & Heq).
  split; [cbn; fold c; lia|]. unfold view_store, GetState2, store_at. by rewrite Heq.
Qed.

Lemma served_history s ops i :
  Agreement.abstracts s ops → 0 ≤ i < size s →
  let c := commitIndex (nodes s i) in
  ∃ seen, replay_logs (logs (nodes s i)) c = Ok (store_at ops (Z.to_nat c), seen).
Proof.
  intros HA Hi c. destruct (committed_history _ _ _ HA Hi) as (Hc & Hl & Heq). fold c in Heq.
  rewrite replay_logs_Ok, Heq by (fold c in Hc, Hl; lia).
  destruct (replay_store (take (Z.to_nat c) ops)) as [Hst _].
  destruct (replay (take (Z.to_nat c) ops)) as [db seen]. cbn in Hst. subst db. by exists seen.
Qed.

(** C16. The service refines one sequential store: there is a relation between
    the states of the cluster and a history of operations that starts empty,
    only grows at its end with every in-order step, and such that the store any
    server computes by replaying its log up to its commit index is the store
    after a prefix of that history, each UUID taking effect once. *)
Theorem service_refines_store :
  ∃ R : Cluster → list Op → Prop,
    (∀ n boot, 1 ≤ n → R (init n boot) []) ∧
    (∀ s ops e s', R s ops → in_order s e = true → exec s e = Some (Ok s') →
       ∃ ops', ops `prefix_of` ops' ∧ R s' ops') ∧
    (∀ s ops i, R s ops → 0 ≤ i < size s →
       ∃ k seen, (k ≤ length ops)%nat ∧
         replay_logs (logs (nodes s i)) (commitIndex (nodes s i)) =
           Ok (foldl apply_op ∅ (first_uses (take k ops)), seen)).
Proof.
  exists Agreement.abstracts. split; [exact Agreement.abstracts_init|].
  split; [exact Agreement.abstracts_step|]. intros s ops i HA Hi.
  destruct (served_history _ _ _ HA Hi) as [seen Hs]. eexists _, seen. split; [|exact Hs].
  destruct (committed_history _ _ _ HA Hi) as (Hc & _). unfold len in Hc. lia.
Qed.

(** C17. Two servers never disagree: in such a state, the store of a server is
    that of any other with at least the same commit index, with a suffix of
    the other's operations left out; equal commit indices give equal stores and
    equal duplicate tables. *)
Theorem servers_agree s i j :
  ReachableInOrder s → 0 ≤ i < size s → 0 ≤ j < size s →
  commitIndex (nodes s i) ≤ commitIndex (nodes s j) →
  let cmds x := command <$> take (Z.to_nat (commitIndex (nodes s x))) (logs (nodes s x)) in
  cmds i `prefix_of` cmds j ∧
  (commitIndex (nodes s i) = commitIndex (nodes s j) →
   replay_logs (logs (nodes s i)) (commitIndex (nodes s i)) =
   replay_logs (logs (nodes s j)) (commitIndex (nodes s j))).
Proof.
  intros Hs Hi Hj Hle cmds.
  destruct (abstracts_reachable _ Hs) as [ops HA].
  destruct (committed_history _ _ _ HA Hi) as (Hci & Hli & Heqi).
  destruct (committed_history _ _ _ HA Hj) as (Hcj & Hlj & Heqj).
  split.
  - unfold cmds. rewrite Heqi, Heqj.
    replace (Z.to_nat (commitIndex (nodes s i))) with
      (Z.to_nat (commitIndex (nodes s i)) `min` Z.to_nat (commitIndex (nodes s j)))%nat by lia.
    rewrite <- take_take. apply prefix_take_self.
  - intros Heq. rewrite !replay_logs_Ok by lia. by rewrite Heqi, Heqj, Heq.
Qed.

(** The slice GetState2 returns shares its array with the log of the peer, whose
    handlers go on writing to it: a slot, when it is read, holds the entry that
    some continuation of the execution has put there.  The length is that of the
    log when the slice is taken, between two critical sections of the peer; the
    commit index is read after that, with no lock held, so in a continuation that
    may be another. *)
Definition shared_slots s (i : Z) (L : list (LogEntry Op)) : Prop :=
  ∀ k e, L !! k = Some e →
    ∃ es s', run in_order s es = Some s' ∧ logs (nodes s' i) !! k = Some e.
Definition shared_view s (i : Z) (L : list (LogEntry Op)) : Prop :=
  length L = length (logs (nodes s i)) ∧ shared_slots s i L.

(** GetState2 may also take the slice between the two statements in which
    AppendEntries cuts the log and extends it again (src/src/raft/raft.go:280 and
    282): then it is shorter than the log of the state. *)
Definition cut_view s (i : Z) (L : list (LogEntry Op)) : Prop :=
  (length L ≤ length (logs (nodes s i)))%nat ∧ shared_slots s i L.

(** Sharing does no harm up to the commit index. *)
Lemma shared_prefix s i L c :
  ReachableInOrder s → 0 ≤ i < size s → shared_slots s i L →
  c ≤ commitIndex (nodes s i) → c ≤ len L → c ≤ len (logs (nodes s i)) →
  take (Z.to_nat c) L = take (Z.to_nat c) (logs (nodes s i)).
Proof.
  intros Hs Hi HL Hc HcL Hcl. apply list_eq. intros k.
  destruct (Nat.lt_ge_cases k (Z.to_nat c)) as [Hk|Hk]; [|by rewrite !lookup_take_ge].
  rewrite !lookup_take_lt by done. destruct (lookup_lt_is_Some_2 L k) as [e He]; [unfold len in *; lia|].
  rewrite He. destruct (HL k e He) as (es & s' & Hr & <-).
  pose proof (Applied.own_log_kept s i c es s' Hs Hi (or_introl Hc) Hr) as Heq.
  by rewrite <- (lookup_take_lt _ (Z.to_nat c)), Heq, lookup_take_lt.
Qed.

Lemma run_in_order_reachable s es s' :
  ReachableInOrder s → run in_order s es = Some s' → ReachableInOrder s'.
Proof. intros Hs Hr. by eapply run_reachable. Qed.

(** The value of a poll: the slice taken in [s], the commit index read in the
    later [s']. *)
Lemma torn_read s es s' i L :
  ReachableInOrder s → 0 ≤ i < size s → cut_view s i L → run in_order s es = Some s' →
  let c := commitIndex (nodes s' i) in
  (len L < c → replay_logs L c = Panic ∧
    (commitIndex (nodes s i) < c ∨ len L < len (logs (nodes s i)))) ∧
  (c ≤ len L → ∃ db seen, replay_logs L c = Ok (db, seen) ∧
     (c ≤ commitIndex (nodes s i) ∨ shared_slots s' i L →
      ∃ ops, Agreement.abstracts s' ops ∧ 0 ≤ c ≤ len ops ∧ db = store_at ops (Z.to_nat c))).
Proof.
  intros Hs Hi [Hlen HL] Hr c.
  pose proof (run_in_order_reachable _ _ _ Hs Hr) as Hs'.
  assert (Hi' : 0 ≤ i < size s') by (by rewrite (run_size _ _ _ _ Hr)).
  destruct (abstracts_reachable _ Hs) as [ops0 HA0].
  destruct (committed_history _ _ _ HA0 Hi) as (_ & Hl0 & _).
  destruct (abstracts_reachable _ Hs') as [ops HA].
  destruct (committed_history _ _ _ HA Hi') as (Hc & Hl & Heq). fold c in Hc, Hl, Heq.
  split.
  - intros Hlt. split; [by apply replay_logs_short|]. unfold len in *. lia.
  - intros Hle. rewrite replay_logs_Ok by lia.
    destruct (replay_store (command <$> take (Z.to_nat c) L)) as [Hdb _].
    destruct (replay (command <$> take (Z.to_nat c) L)) as [db seen]. cbn in Hdb.
    exists db, seen. split; [done|]. intros Hor. exists ops. split; [done|]. split; [lia|].
    assert (Htake : take (Z.to_nat c) L = take (Z.to_nat c) (logs (nodes s' i))).
    { destruct Hor as [Hor|Hor]; [|by apply shared_prefix; [..|lia]].
      rewrite (shared_prefix s i L c) by (try done; unfold len in *; lia). symmetry.
      eapply Applied.own_log_kept; [done|done|by left|done]. }
    rewrite Hdb, Htake, Heq. done.
Qed.

(** C18. A read is a read of the history, unless it is torn.  At each poll Get takes
    the log of its peer, a slice whose array the peer goes on writing to, in a state
    of an in-order execution, perhaps while a handler has cut the log, and reads the
    commit index later, in a continuation of that execution.  If Get panics, then at
    one of its 30 polls the commit index was past the end of the slice, because it
    had moved on between the two reads or the slice was taken from the cut log; Get
    does not exit; and when it reports success, then at one of the polls the value
    is that of the key after a prefix of the history the cluster stands for when the
    commit index is read, provided that the commit index had not moved on between
    the two reads, or the slots read were still written by the peer. *)
Theorem Get_reads_history (kv : RaftKV (Raft Op)) args cur lead (S C : nat → Cluster) L i :
  (∀ n, ReachableInOrder (S n)) → (∀ n, 0 ≤ i < size (S n)) →
  (∀ n, cut_view (S n) i (L n)) → (∀ n, ∃ es, run in_order (S n) es = Some (C n)) →
  let c n := commitIndex (nodes (C n) i) in
  match (Get kv args cur (λ n, (lead n, L n, c n))).2 with
  | Panic => ∃ n, (n < 30)%nat ∧ len (L n) < c n ∧
      (commitIndex (nodes (S n) i) < c n ∨ len (L n) < len (logs (nodes (S n) i)))
  | Fatal => False
  | Ok r => g_WrongLeader r = false →
      ∃ n, (n < 30)%nat ∧ cur n = g_ID r ∧
        (c n ≤ commitIndex (nodes (S n) i) ∨ shared_slots (C n) i (L n) →
         ∃ ops k, Agreement.abstracts (C n) ops ∧ (k ≤ length ops)%nat ∧
           g_Value r = default "" (store_at ops k !! g_Key args))
  end.
Proof.
  intros HS Hi HL Hrun c. unfold Get.
  destruct (log_Start (kv_rf kv) _) as [rf [[idx t] isLeader]]. cbn [snd].
  destruct isLeader; [|done].
  destruct (get_poll_cases idx (g_Key args) cur (λ n, (lead n, L n, c n)) 30 0)
    as [(n & Hn & Hcur & ->)| ->]; [|done].
  destruct (Hrun n) as [es Hr].
  destruct (torn_read _ _ _ _ _ (HS n) (Hi n) (HL n) Hr) as [Hshort Hlong]. fold (c n) in Hshort, Hlong.
  destruct (Z.lt_ge_cases (len (L n)) (c n)) as [Hlt|Hge].
  - destruct (Hshort Hlt) as [Hp ?]. cbn [fst snd]. rewrite Hp. cbn. exists n. split; [lia|done].
  - destruct (Hlong Hge) as (db & seen & Hok & Hdb). cbn [fst snd]. rewrite Hok. cbn. intros _.
    exists n. split; [lia|]. split; [done|]. intros (ops & HA & Hc & ->)%Hdb.
    exists ops, (Z.to_nat (c n)). split; [done|]. split; [|done]. unfold len in Hc. lia.
Qed.

(** ** Writes *)

(** The index up to which server [i] of a cluster has drained its channel. *)
Definition server_index s (i : Z) : Z :=
  currentIndex (foldl apply_msg (StartKVServer (nodes s i) i (-1)) (applied s i)).

(** An index that a server has drained is that of a message delivered to it, or
    lies below one. *)
Lemma server_index_delivered s i idx :
  1 ≤ idx ≤ server_index s i → ∃ m, m ∈ applied s i ∧ idx ≤ Index m.
Proof.
  unfold server_index. rewrite (proj1 (apply_loop_max _ (applied s i))). cbn [currentIndex StartKVServer].
  intros [Hi Hle]. induction (applied s i) as [|m ms IH]; cbn in Hle; [lia|].
  destruct (Z.le_gt_cases idx (Index m)) as [?|?]; [exists m; split; [by left|done]|].
  destruct IH as (m' & ? & ?); [lia|]. exists m'. split; [by right|done].
Qed.

Lemma drained_length s i idx :
  ReachableInOrder s → 0 ≤ i < size s → 1 ≤ idx ≤ server_index s i → idx ≤ len (logs (nodes s i)).
Proof.
  intros (G & H & HI & HC & HA)%Applied.reachable_kept Hi (m & Hm & Hle)%server_index_delivered.
  pose proof (Applied.kept_length _ _ _ _ _ _ (ic_global _ _ _ HC) (HA i m Hi Hm)). lia.
Qed.

(** An entry at a drained index is in every log, from then on, whose peer
    considers the index committed. *)
Lemma drained_settled s i idx e es s' j :
  ReachableInOrder s → 0 ≤ i < size s → 1 ≤ idx ≤ server_index s i →
  slice_get (logs (nodes s i)) (idx - 1) = Ok e →
  run in_order s es = Some s' → 0 ≤ j < size s' → idx ≤ commitIndex (nodes s' j) →
  slice_get (logs (nodes s' j)) (idx - 1) = Ok e.
Proof.
  intros (G & H & HI & HC & HA)%Applied.reachable_kept Hi Hidx [_ He]%slice_get_Ok Hr Hj Hc.
  destruct (server_index_delivered s i idx Hidx) as (m & Hm & Hle).
  destruct (Applied.run_kept _ _ _ _ _ HI HC HA Hr) as (G' & H' & HI' & HC' & _ & HW).
  assert (Heq : take (Z.to_nat idx) (logs (nodes s' j)) = take (Z.to_nat idx) (logs (nodes s i))).
  { apply (Applied.settled_later s G H s' G' H'); try done.
    - eapply Applied.settled_kept; [by apply HA|done].
    - apply Applied.settled_commit; [done..|lia]. }
  apply slice_get_Ok. split; [lia|].
  rewrite <- (lookup_take_lt _ (Z.to_nat idx)), Heq, lookup_take_lt by lia. done.
Qed.

(** Nor does it up to the index that has been drained. *)
Lemma shared_slot s i L idx e :
  ReachableInOrder s → 0 ≤ i < size s → shared_view s i L → 1 ≤ idx ≤ server_index s i →
  slice_get L (idx - 1) = Ok e → slice_get (logs (nodes s i)) (idx - 1) = Ok e.
Proof.
  intros Hs Hi [_ HL] Hidx [H0 He]%slice_get_Ok. apply slice_get_Ok. split; [done|].
  destruct (HL _ _ He) as (es & s' & Hr & He').
  pose proof (Applied.own_log_kept s i idx es s' Hs Hi
    (or_intror (server_index_delivered s i idx Hidx)) Hr) as Heq.
  by rewrite <- (lookup_take_lt _ (Z.to_nat idx)), <- Heq, lookup_take_lt by lia.
Qed.

Section acknowledged.
(** The polls see the peer of server [i] in states of in-order executions, the
    index up to which it has drained its channel, or an older one, and the log
    through a shared slice. *)
Context (S : nat → Cluster) (L : nat → list (LogEntry Op)) (cur : nat → Z) (i : Z).
Hypotheses (HS : ∀ n, ReachableInOrder (S n)) (Hi : ∀ n, 0 ≤ i < size (S n))
  (Hcur : ∀ n, cur n ≤ server_index (S n) i) (HL : ∀ n, shared_view (S n) i (L n)).

Definition polled (n : nat) : bool * list (LogEntry Op) * Z :=
  ((GetState2 (nodes (S n) i)).1.1, L n, commitIndex (nodes (S n) i)).

(** PutAppend does not panic, and when it reports success, a poll has found its
    operation at an index the server has drained. *)
Lemma acknowledged (kv : RaftKV (Raft Op)) args :
  ∃ r, (PutAppend kv args cur polled).2 = Ok r ∧
    (pa_WrongLeader r = false → ∃ n e, (n < 500)%nat ∧ 1 ≤ pa_ID r ≤ server_index (S n) i ∧
       slice_get (logs (nodes (S n) i)) (pa_ID r - 1) = Ok e ∧
       same_op (command e) (mkOp (pa_Opt args) (pa_Key args) (pa_Value args) (pa_UUID args)) = true).
Proof.
  unfold PutAppend. set (op := mkOp _ _ _ _). cbn [log_Start raft_log]. unfold Start. cbn [snd].
  set (idx := len (logs (kv_rf kv)) + 1). case_bool_decide; [|by eexists].
  assert (Hpos : 1 ≤ idx) by (pose proof (len_nonneg (logs (kv_rf kv))); lia).
  destruct (put_poll_spec idx op cur polled 500 0)
    as [(n & e & Hn & Hc & He & ->)|[_ ->]]; [| |by eexists].
  { intros n Hn. specialize (Hcur n). unfold polled. cbn. split; [lia|]. unfold len.
    rewrite (proj1 (HL n)). apply drained_length; [done|done|lia]. }
  eexists. split; [done|]. destruct (same_op (command e) op) eqn:Hs; [|done]. intros _.
  assert (Hd : 1 ≤ idx ≤ server_index (S n) i) by (specialize (Hcur n); lia).
  exists n, e. split; [lia|]. split; [done|]. split; [|done]. cbn [pa_ID]. by eapply shared_slot.
Qed.


(** C20. Writes take effect in real-time order.  When PutAppend reports success at
    a server whose polls see its peer in states of in-order executions, there is a
    poll from which on, whatever happens in order, an entry that any peer
    considers committed and whose UUID was in no entry of this server's log at
    that poll, such as that of a request made later, has a larger index than the
    acknowledged write, and so comes after it in the history all servers execute. *)
Theorem writes_in_real_time_order (kv : RaftKV (Raft Op)) args r :
  (PutAppend kv args cur polled).2 = Ok r → pa_WrongLeader r = false →
  ∃ n, (n < 500)%nat ∧ ∀ es s' j k e,
    run in_order (S n) es = Some s' → 0 ≤ j < size s' →
    slice_get (logs (nodes s' j)) (k - 1) = Ok e → k ≤ commitIndex (nodes s' j) →
    (∀ e0, e0 ∈ logs (nodes (S n) i) → UUID (command e0) ≠ UUID (command e)) →
    pa_ID r < k.
Proof.
  intros Hr Hw. destruct (acknowledged kv args) as (r' & Hr' & Hack).
  rewrite Hr in Hr'. injection Hr' as <-. destruct (Hack Hw) as (n & _ & Hn & Hd & _ & _).
  exists n. split; [done|]. intros es s' j k e Hrun Hj He Hk Hfresh.
  destruct (Z.lt_ge_cases (pa_ID r) k) as [?|Hle]; [done|exfalso].
  pose proof (slice_get_bounds _ _ _ He) as Hb.
  assert (Hkd : 1 ≤ k ≤ server_index (S n) i) by lia.
  pose proof (drained_length _ _ _ (HS n) (Hi n) Hkd) as Hlen.
  destruct (slice_get_is_Ok (logs (nodes (S n) i)) (k - 1)) as [e0 He0]; [lia|].
  pose proof (drained_settled _ _ _ _ _ _ _ (HS n) (Hi n) Hkd He0 Hrun Hj Hk) as He'.
  rewrite He in He'. injection He' as ->. apply slice_get_Ok in He0 as [_ He0].
  apply (Hfresh e0); [|done]. by eapply list_elem_of_lookup_2.
Qed.
End acknowledged.
End KVAgreement.
