(* ===== verification/KVRaftRaces.v ===== *)
(** * KVRaftRaces: executions in which the key/value service goes wrong

    Executions of a cluster of three peers: peer 0, leader of term 1, accepts a
    command that is replaced at the same index by one peer 1 accepts as leader of
    term 2.  The handler of server 0 watches the states the execution goes through.
    Two of them lose a write, in the third a read misses a write that was
    acknowledged before it began, in the fourth a read of the peer's state is torn
    and panics, in the fifth a Get that is applied fails. *)
From S2P Require Import Prelude Persister Raft RaftCluster RaftInv RaftInvLog.
From S2P Require Import RaftInvStep RaftSafety RaftProps RaftSchedules LogInterface.
From S2P Require Import KVRaft KVRaftProps.
Export KVRaft.

Module KVRaces.
Import Schedules.

#[local] Notation sync_after := (after lock_check_holds).

(** Peer 0 is leader of term 1. *)
Definition elect0 : list (Event Op) := campaign 0 200000000 ++ win 0 0 0 ++ [ESubmit 2].

(** Peer 1 becomes leader of term 2 with the vote of peer 2. *)
Definition elect1 : list (Event Op) := campaign 1 400000000 ++ win 1 4 0 ++ [ESubmit 5].

(** How peer 1 replicates its first command to peer 0, commits it and tells peer 0. *)
Definition replace_rest : list (Event Op) :=
  [ETick 5] ++ prepare 1 6 ++ acked 6 0 ++ [ETick 5] ++ prepare 1 8 ++ [EDeliver 8 0].

(** Peer 1 accepts [b] first. *)
Definition replace (b : Op) : list (Event Op) :=
  EStart 1 b :: replace_rest.

Definition before0 : Cluster Op := sync_after elect0.
Definition before1 (a : Op) : Cluster Op := sync_after (elect0 ++ EStart 0 a :: elect1).
Definition finally (a b : Op) : Cluster Op :=
  sync_after ((elect0 ++ EStart 0 a :: elect1) ++ replace b).

Lemma reach_before0 : ReachableSync before0.
Proof. apply after_reachable. by_run. Qed.

Lemma runs_first a :
  runs lock_check_holds (elect0 ++ EStart 0 a :: elect1) = true →
  run lock_check_holds before0 (EStart 0 a :: elect1) = Some (before1 a).
Proof. exact (after_app lock_check_holds elect0 (EStart 0 a :: elect1)). Qed.

Lemma runs_second a b :
  runs lock_check_holds ((elect0 ++ EStart 0 a :: elect1) ++ replace b) = true →
  run lock_check_holds (before1 a) (EStart 1 b :: replace_rest) = Some (finally a b).
Proof. exact (after_app lock_check_holds (elect0 ++ EStart 0 a :: elect1) (replace b)). Qed.

(** The server of peer [i] in a state, and what it has applied in another. *)
Definition server (s : Cluster Op) (i : Z) : RaftKV (Raft Op) :=
  StartKVServer (nodes s i) i (-1).
Definition applied_index (s : Cluster Op) (i : Z) : Z :=
  currentIndex (foldl apply_msg (server s i) (applied s i)).

(** The handlers' answers when every poll sees the final state. *)
Definition put_answer (s s' : Cluster Op) (i : Z) (args : PutAppendArgs) :=
  (PutAppend (server s i) args (λ _, applied_index s' i) (λ _, GetState2 (nodes s' i))).2.
Definition get_answer (s s' : Cluster Op) (i : Z) (args : GetArgs) :=
  (Get (server s i) args (λ _, applied_index s' i) (λ _, GetState2 (nodes s' i))).2.

Definition append_args (u : string) : PutAppendArgs := mkPAArgs "k" "x" "Append" u.
Definition append_op (u : string) : Op := mkOp "Append" "k" "x" u.

(** A UUID is in none of three concrete logs. *)
#[local] Ltac in_no_log :=
  let i := fresh "i" in let Hi := fresh "Hi" in intros i Hi; apply elem_of_range in Hi;
  let H := fresh "H" in
  assert (i = 0 ∨ i = 1 ∨ i = 2) as [->|[->| ->]] by lia; vm_compute; intros H;
  repeat (apply elem_of_cons in H as [H|H]; [done|]); by apply elem_of_nil in H.

(** C23. PutAppend compares kind, key and value, not the UUID: two clerks append
    the same value to the same key through two leaders, both handlers report
    success, and the committed log holds one of the two commands, so that the
    store has the value once and no peer's log the UUID of the other clerk. *)
Theorem PutAppend_false_success :
  let A := append_args "1_1" in let B := append_args "2_1" in
  ∃ s0 s1 s2 es es',
    ReachableSync s0 ∧
    run lock_check_holds s0 (EStart 0 (append_op "1_1") :: es) = Some s1 ∧
    run lock_check_holds s1 (EStart 1 (append_op "2_1") :: es') = Some s2 ∧
    put_answer s0 s2 0 A = Ok (mkPAReply false 1) ∧
    put_answer s1 s2 1 B = Ok (mkPAReply false 1) ∧
    (KVRaftProps.view_store (GetState2 (nodes s2 0))) !! "k" = Some "x" ∧
    (∀ i, i ∈ range 0 3 → "1_1" ∉ (UUID ∘ command <$> logs (nodes s2 i))).
Proof.
  exists before0, (before1 (append_op "1_1")), (finally (append_op "1_1") (append_op "2_1")).
  exists elect1, replace_rest.
  assert (H1 := runs_first (append_op "1_1")). assert (H2 := runs_second (append_op "1_1") (append_op "2_1")).
  split; [exact reach_before0|]. split; [apply H1; by_run|]. split; [apply H2; by_run|].
  split; [by_run|]. split; [by_run|]. split; [by_run|].
  in_no_log.
Qed.

Definition fresh_get : GetArgs := mkGArgs "nobody" (uuid 0 0).
Definition fresh_op : Op := mkOp "Get" "nobody" "" (uuid 0 0).

(** Two new clerks, each of which reached one of the servers. *)
Definition clerk_of (s s' : Cluster Op) (i : Z) : option (Clerk * string) :=
  ClerkGet (λ _ _ args, match get_answer s s' i args with Ok r => Some r | _ => None end)
    1 0 (MakeClerk [i]) "nobody".

(** Identities are not unique: the identity of a clerk is the log index its
    first Get was given, without a check that the entry committed there is that
    Get; two clerks that asked two leaders get the same identity, so their next
    writes carry the same UUID and the second one is skipped as a duplicate. *)
Theorem clerk_ids_collide :
  ∃ s0 s1 s2 es es' ck1 ck2 v1 v2,
    ReachableSync s0 ∧
    run lock_check_holds s0 (EStart 0 fresh_op :: es) = Some s1 ∧
    run lock_check_holds s1 (EStart 1 fresh_op :: es') = Some s2 ∧
    clerk_of s0 s2 0 = Some (ck1, v1) ∧ clerk_of s1 s2 1 = Some (ck2, v2) ∧
    pa_UUID (put_args ck1 "k" "x" "Append") = pa_UUID (put_args ck2 "k" "y" "Append") ∧
    (replay [mkOp "Append" "k" "x" (pa_UUID (put_args ck1 "k" "x" "Append"));
             mkOp "Append" "k" "y" (pa_UUID (put_args ck2 "k" "y" "Append"))]).1 !! "k" =
      Some "x".
Proof.
  exists before0, (before1 fresh_op), (finally fresh_op fresh_op).
  exists elect1, replace_rest, (mkClerk [0] 1 1), (mkClerk [1] 1 1), "", "".
  assert (H1 := runs_first fresh_op). assert (H2 := runs_second fresh_op fresh_op).
  split; [exact reach_before0|]. split; [apply H1; by_run|]. split; [apply H2; by_run|].
  split; [by_run|]. split; [by_run|]. split; by_run.
Qed.

(** Peer 1 accepts and commits a first Put, builds the message that tells peer 0,
    and then accepts a second one; peer 0 still leads term 1. *)
Definition put_args_x (v u : string) : PutAppendArgs := mkPAArgs "x" v "Put" u.
Definition put_x (v u : string) : Op := mkOp "Put" "x" v u.

Definition first_put : list (Event Op) :=
  elect0 ++ elect1 ++ [EStart 1 (put_x "old" "1_1"); ETick 5] ++ prepare 1 7 ++ acked 7 0 ++
  [ETick 5] ++ prepare 1 8.
Definition second_put : list (Event Op) := [ETick 5] ++ prepare 1 11 ++ acked 11 0.

Definition get_x : GetArgs := mkGArgs "x" "2_1".
Definition get_op : Op := mkOp "Get" "x" "" "2_1".

(** The same with a Get in the place of the Put. *)
Definition get_rest : list (Event Op) :=
  [EStart 1 get_op; ETick 5] ++ prepare 1 7 ++ acked 7 0 ++ [ETick 5] ++ prepare 1 8.
Definition first_get : list (Event Op) := (elect0 ++ elect1) ++ get_rest.

Definition stale0 : Cluster Op := after in_order first_put.
Definition stale1 : Cluster Op :=
  after in_order (first_put ++ EStart 1 (put_x "new" "1_2") :: second_put).
Definition stale2 : Cluster Op :=
  after in_order ((first_put ++ EStart 1 (put_x "new" "1_2") :: second_put) ++
    [EStart 0 get_op; EDeliver 8 0]).

(** C24. Reads can be stale, although every message is handled in order: Get does
    not test that the entry at its index is its own.  A Put is acknowledged; after
    that, a Get is sent to a server that does not know yet that it is no longer
    the leader; a delayed message of the new leader replaces the entry of the Get
    by an earlier one, and the handler reports success with the value from before
    the Put.  The Get itself is in no log. *)
Theorem Get_stale_read :
  ∃ s0 s1 s2 es es',
    ReachableInOrder s0 ∧
    run in_order s0 (EStart 1 (put_x "new" "1_2") :: es) = Some s1 ∧
    put_answer s0 s1 1 (put_args_x "new" "1_2") = Ok (mkPAReply false 2) ∧
    run in_order s1 (EStart 0 get_op :: es') = Some s2 ∧
    get_answer s1 s2 0 get_x = Ok (mkGReply false "old" 1) ∧
    (KVRaftProps.view_store (GetState2 (nodes s2 1))) !! "x" = Some "new" ∧
    (∀ i, i ∈ range 0 3 → "2_1" ∉ (UUID ∘ command <$> logs (nodes s2 i))).
Proof.
  exists stale0, stale1, stale2, second_put, [EDeliver 8 0].
  split; [apply after_reachable; by_run|].
  split; [apply (after_app in_order first_put); by_run|]. split; [by_run|].
  split; [apply (after_app in_order _ [EStart 0 get_op; EDeliver 8 0]); by_run|].
  split; [by_run|]. split; [by_run|].
  in_no_log.
Qed.
(** ** A torn read *)

Definition torn0 : Cluster Op := after in_order first_get.
Definition put_later : list (Event Op) := EStart 1 (put_x "new" "1_2") :: second_put.
Definition torn1 : Cluster Op := after in_order (first_get ++ put_later).

(** GetState2 takes no lock: it reads the log and then the commit index.  If a
    command is appended and committed between the two, the commit index lies
    beyond the slice, and Get panics, although every message is handled in
    order. *)
Theorem GetState2_torn :
  ∃ es, ReachableInOrder torn0 ∧ run in_order torn0 es = Some torn1 ∧
    (KVRaft.Get (server (after in_order (elect0 ++ elect1)) 1) get_x (λ _, applied_index torn0 1)
       (λ _, (true, logs (nodes torn0 1), commitIndex (nodes torn1 1)))).2 = Panic.
Proof.
  exists put_later.
  split; [apply after_reachable; by_run|]. split; [apply (after_app in_order first_get); by_run|]. by_run.
Qed.
(** ** A missed index *)

(** Get waits until the server's index is exactly that of its entry.  If the next
    command is applied before the poll looks again, Get reports that the server
    is not the leader, although the server leads and the Get is committed at its
    index and applied. *)
Theorem Get_misses_index :
  ∃ s0 es cur,
    ReachableInOrder s0 ∧ run in_order s0 es = Some torn1 ∧
    (∀ n, cur n = applied_index s0 1 ∨ cur n = applied_index torn1 1) ∧
    (KVRaft.Get (server s0 1) get_x cur (λ _, GetState2 (nodes torn1 1))).2 = Ok (mkGReply true "" 0) ∧
    command <$> logs (nodes torn1 1) !! 0%nat = Some get_op ∧ commitIndex (nodes torn1 1) = 2 ∧ role (nodes torn1 1) = Leader.
Proof.
  exists (after in_order (elect0 ++ elect1)), (get_rest ++ put_later),
    (λ n, match n with O => 0 | _ => 2 end).
  split; [apply after_reachable; by_run|].
  split; [apply (after_app in_order (elect0 ++ elect1)); by_run|].
  split; [intros [|n]; [left|right]; by_run|]. split; [by_run|]. split; [by_run|]. split; by_run.
Qed.
End KVRaces.
