(* ===== verification/MapReduce.v ===== *)
(** * MapReduce: the master, the merge of the results and the worker

    Models src/src/mapreduce.  Files are a map from names to contents; the JSON
    decoder is a function from a file's contents to the records it yields before
    the first error; the order in which Go visits the keys of a map is a
    parameter, constrained to be a permutation of the keys.  The worker's RPC
    loop is a step function over the connections it accepts and the handlers the
    RPC library runs in the background. *)
From stdpp Require Import sorting.
From S2P Require Import Prelude.

Module MapReduce.

(** [jobPhase]: "Map" or "Reduce". *)
(*@ src/src/mapreduce/common.go 19-25 jobPhase *)
Inductive jobPhase := mapPhase | reducePhase.

(*@ src/src/mapreduce/common.go 29-32 KeyValue *)
Record KeyValue := mkKV { Key : string; Value : string }.

(*@ src/src/mapreduce/common.go 36-38 reduceName *)
Definition reduceName (jobName : string) (mapTask reduceTask : Z) : string :=
  "mrtmp." +:+ jobName +:+ "-" +:+ Itoa mapTask +:+ "-" +:+ Itoa reduceTask.

(*@ src/src/mapreduce/common.go 41-43 mergeName *)
Definition mergeName (jobName : string) (reduceTask : Z) : string :=
  "mrtmp." +:+ jobName +:+ "-res-" +:+ Itoa reduceTask.

(** FNV-1a on 32 bits: xor the byte, then multiply by the prime. *)
(*@ src/src/mapreduce/common_map.go 45-49 ihash *)
Definition ihash (s : string) : Z :=
  foldl (λ h c, (Z.lxor h (Z.of_nat (Ascii.nat_of_ascii c)) * 16777619) `mod` 2 ^ 32)
    2166136261 (chars s).

(*@ src/src/mapreduce/common_rpc.go 13-23 DoTaskArgs *)
Record DoTaskArgs := mkTask {
  t_JobName : string; t_File : string; t_Phase : jobPhase;
  t_TaskNumber : Z; t_NumOtherPhase : Z;
}.

(** ** The master *)

Notation FS := (gmap string string).

(*@ src/src/mapreduce/master.go 12-28 Master *)
Record Master := mkMaster {
  address : string;
  workers : list string;
  registered : list string;   (* sent on registerChannel, not received yet *)
  jobName : string;
  files : list string;
  nReduce : Z;
  stats : list Z;
  shut : bool;                (* the shutdown channel is closed *)
}.
#[export] Instance eta_master : Eta Master := λ m,
  mkMaster (address m) (workers m) (registered m) (jobName m) (files m) (nReduce m)
    (stats m) (shut m).

(*@ src/src/mapreduce/master.go 44-51 newMaster *)
Definition newMaster (master : string) : Master := mkMaster master [] [] "" [] 0 [] false.

(*@ src/src/mapreduce/master.go 32-41 Master.Register *)
Definition Register (mr : Master) (worker : string) : Master :=
  mr <| workers := workers mr ++ [worker] |> <| registered := registered mr ++ [worker] |>.

(** Closing a closed channel panics. *)
(*@ src/src/mapreduce/master_rpc.go 12-17 Master.Shutdown *)
Definition MasterShutdown (mr : Master) : res Master :=
  if shut mr then Panic else Ok (mr <| shut := true |>).

(** The Shutdown RPC of a worker is answered with its number of tasks, or the
    call fails. *)
(*@ src/src/mapreduce/master.go 129-144 Master.killWorkers *)
Definition killWorkers (call : string → option Z) (mr : Master) : list Z :=
  omap call (workers mr).

(** What [Sequential] hands to doMap and doReduce, in order. *)
Inductive Task :=
| DoMap (job : string) (task : Z) (file : string) (nReduce : Z)
| DoReduce (job : string) (task : Z) (nMap : Z).

(*@ src/src/mapreduce/master.go 60-71 Sequential (schedule) *)
Definition sequential_schedule (mr : Master) (phase : jobPhase) : list Task :=
  match phase with
  | mapPhase => imap (λ i f, DoMap (jobName mr) (Z.of_nat i) f (nReduce mr)) (files mr)
  | reducePhase => (λ i, DoReduce (jobName mr) i (len (files mr))) <$> range 0 (nReduce mr)
  end.

(*@ src/src/mapreduce/worker.go 30-35 Worker.DoTask *)
Definition worker_task (arg : DoTaskArgs) : Task :=
  match t_Phase arg with
  | mapPhase => DoMap (t_JobName arg) (t_TaskNumber arg) (t_File arg) (t_NumOtherPhase arg)
  | reducePhase => DoReduce (t_JobName arg) (t_TaskNumber arg) (t_NumOtherPhase arg)
  end.

(*@ src/src/mapreduce/schedule.go 4-14 Master.schedule (counts) *)
Definition schedule_counts (mr : Master) (phase : jobPhase) : Z * Z :=
  match phase with
  | mapPhase => (len (files mr), nReduce mr)
  | reducePhase => (nReduce mr, len (files mr))
  end.

(** ** Merging *)

(** What becomes of the output file: os.Create fails, or a write to the file it
    has made fails after [k] bytes, or all of it is written. *)
Inductive Output := CreateFails | WriteStops (k : nat) | Written.

Section merge.
Context (decode : string → list KeyValue) (iter : FS → list string) (output : Output).

(** Read every result file into one map; later records win.  A file that is not
    there, or cannot be opened, ends the process. *)
(*@ src/src/mapreduce/master_splitmerge.go 16-34 Master.merge (read) *)
Definition merge_read (mr : Master) (fs : FS) : res FS :=
  contents ← mapM (λ i, match fs !! mergeName (jobName mr) i with
                        | Some c => Ok c
                        | None => Fatal
                        end) (range 0 (nReduce mr));
  mret (foldl (λ kvs kv, <[Key kv := Value kv]> kvs) ∅ (mjoin (decode <$> contents))).

(** [sort.Strings]. *)
Definition sort_strings (keys : list string) : list string := merge_sort String.le keys.

(*@ src/src/mapreduce/master_splitmerge.go 46-48 Master.merge (print) *)
Definition line (kvs : FS) (k : string) : string :=
  k +:+ ": " +:+ default "" (kvs !! k) +:+ String (Ascii.ascii_of_nat 10) "".

Definition print_lines (kvs : FS) (keys : list string) : string :=
  foldr (λ k out, line kvs k +:+ out) "" keys.

(** Only the error of os.Create is looked at, not those of the writes. *)
(*@ src/src/mapreduce/master_splitmerge.go 14-51 Master.merge *)
Definition merge (mr : Master) (fs : FS) : res FS :=
  kvs ← merge_read mr fs;
  let keys := sort_strings (iter kvs) in
  let p := "mrtmp." +:+ jobName mr in
  match output with
  | CreateFails => Fatal
  | WriteStops k => mret (<[p := String.substring 0 k (print_lines kvs keys)]> fs)
  | Written => mret (<[p := print_lines kvs keys]> fs)
  end.

(** The whole job: [schedule] and [finish] are the callbacks. *)
(*@ src/src/mapreduce/master.go 100-118 Master.run *)
Definition run (mr : Master) (job : string) (fls : list string) (nreduce : Z)
    (schedule : Master → jobPhase → FS → res FS) (finish : Master → Master)
    (fs : FS) : res (Master * FS) :=
  let mr := mr <| jobName := job |> <| files := fls |> <| nReduce := nreduce |> in
  fs ← schedule mr mapPhase fs;
  fs ← schedule mr reducePhase fs;
  let mr := finish mr in
  fs ← merge mr fs;
  mret (mr, fs).
End merge.

(*@ src/src/mapreduce/master_splitmerge.go 54-59 removeFile *)
Definition removeFile (fs : FS) (n : string) : res FS :=
  match fs !! n with Some _ => Ok (delete n fs) | None => Fatal end.

Fixpoint removeFiles (fs : FS) (ns : list string) : res FS :=
  match ns with
  | [] => mret fs
  | n :: ns => fs ← removeFile fs n; removeFiles fs ns
  end.

(** The files CleanupFiles removes, in order. *)
Definition cleanup_names (mr : Master) : list string :=
  (i ← range 0 (len (files mr)); reduceName (jobName mr) i <$> range 0 (nReduce mr)) ++
  (mergeName (jobName mr) <$> range 0 (nReduce mr)) ++ ["mrtmp." +:+ jobName mr].

(*@ src/src/mapreduce/master_splitmerge.go 62-72 Master.CleanupFiles *)
Definition CleanupFiles (mr : Master) (fs : FS) : res FS := removeFiles fs (cleanup_names mr).

(** ** The worker *)

(** Where the loop of RunWorker stands. *)
(*@ src/src/mapreduce/worker.go 87-106 RunWorker (loop) *)
Inductive WLoop := AtTop | Accepting | Counting | Exited.

(*@ src/src/mapreduce/worker.go 13-22 Worker *)
Record Worker := mkWorker {
  nRPC : Z; nTasks : Z; loop : WLoop;
  shutdowns : list Z;        (* the replies sent to Shutdown *)
}.
#[export] Instance eta_worker : Eta Worker := λ w,
  mkWorker (nRPC w) (nTasks w) (loop w) (shutdowns w).

(*@ src/src/mapreduce/worker.go 65-84 RunWorker (start) *)
Definition RunWorker (n : Z) : Worker := mkWorker n 0 AtTop [].

(** The reply is read before the counter is decremented. *)
(*@ src/src/mapreduce/worker.go 43-51 Worker.Shutdown *)
Definition Shutdown (wk : Worker) : Worker :=
  wk <| shutdowns := shutdowns wk ++ [nTasks wk] |>
     <| nRPC := 1 |> <| nTasks := int64 (nTasks wk - 1) |>.

Inductive WEvent :=
| WTop                    (* the test of nRPC *)
| WAccept (okay : bool)   (* Accept returns; the request runs in the background *)
| WCount                  (* nTasks++ *)
| WShutdown.              (* the Shutdown handler runs *)

(*@ src/src/mapreduce/worker.go 87-106 RunWorker (loop) *)
Definition wstep (wk : Worker) (e : WEvent) : option Worker :=
  match e, loop wk with
  | WTop, AtTop => Some (wk <| loop := if nRPC wk =? 0 then Exited else Accepting |>)
  | WAccept true, Accepting =>
      Some (wk <| nRPC := int64 (nRPC wk - 1) |> <| loop := Counting |>)
  | WAccept false, Accepting => Some (wk <| loop := Exited |>)
  | WCount, Counting => Some (wk <| nTasks := int64 (nTasks wk + 1) |> <| loop := AtTop |>)
  | WShutdown, _ => Some (Shutdown wk)
  | _, _ => None
  end.

Fixpoint wrun (wk : Worker) (es : list WEvent) : option Worker :=
  match es with
  | [] => Some wk
  | e :: es => match wstep wk e with Some wk' => wrun wk' es | None => None end
  end.
End MapReduce.
