(* ===== verification/MapReduceProps.v ===== *)
(** * MapReduceProps: the output of a job, its cleanup, and the worker's loop *)
From stdpp Require Import sorting.
From S2P Require Import Prelude MapReduce.
Export MapReduce.

Module MapReduceProps.

(** ** Reading the results *)

Definition last_value (recs : list KeyValue) (k : string) : option string :=
  Value <$> last (filter (λ kv, Key kv = k) recs).

Lemma foldl_insert_last recs k :
  foldl (λ (kvs : FS) kv, <[Key kv := Value kv]> kvs) ∅ recs !! k = last_value recs k.
Proof.
  induction recs as [|kv recs IH] using rev_ind; [cbn; by rewrite lookup_empty|].
  rewrite foldl_app. cbn. unfold last_value. rewrite filter_app.
  destruct (decide (Key kv = k)) as [<-|Hne].
  - rewrite lookup_insert_eq, filter_cons_True, filter_nil by done. by rewrite last_snoc.
  - rewrite lookup_insert_ne, filter_cons_False, filter_nil, app_nil_r by done. exact IH.
Qed.

(** The records of the result files in order; [None] if one is missing. *)
Definition results (decode : string → list KeyValue) (mr : Master) (fs : FS) :
    option (list KeyValue) :=
  cs ← mapM (λ i, fs !! mergeName (jobName mr) i) (range 0 (nReduce mr));
  Some (mjoin (decode <$> cs)).

Lemma merge_read_results decode mr fs :
  match results decode mr fs with
  | Some recs => ∃ kvs, merge_read decode mr fs = Ok kvs ∧ ∀ k, kvs !! k = last_value recs k
  | None => merge_read decode mr fs = Fatal
  end.
Proof.
  unfold results, merge_read.
  assert (Hm : ∀ l, mapM (λ i, match fs !! mergeName (jobName mr) i with
      | Some c => Ok c | None => Fatal end) l =
      match mapM (λ i, fs !! mergeName (jobName mr) i) l with Some cs => Ok cs | None => Fatal end).
  { induction l as [|i l IH]; [done|]. cbn. destruct (fs !! _); cbn; [|done].
    rewrite IH. by destruct (mapM (λ i, fs !! mergeName (jobName mr) i) l). }
  rewrite Hm. destruct (mapM (λ i, fs !! mergeName (jobName mr) i) _) as [cs|]; cbn; [|done].
  eexists. split; [done|]. intros k. apply foldl_insert_last.
Qed.

Lemma sort_strings_sorted keys : StronglySorted String.le (sort_strings keys).
Proof. apply StronglySorted_merge_sort; apply _. Qed.

Lemma sort_strings_perm keys keys' : keys ≡ₚ keys' → sort_strings keys = sort_strings keys'.
Proof.
  intros Hp. apply (StronglySorted_unique String.le); try apply sort_strings_sorted.
  unfold sort_strings. by rewrite !merge_sort_Permutation.
Qed.

(** ** File names *)

#[local] Notation dash := (Ascii.ascii_of_nat 45).

Lemma reduceName_eq j i r :
  reduceName j i r = ("mrtmp." +:+ j) +:+ String dash (Itoa i +:+ String dash (Itoa r)).
Proof. unfold reduceName. by rewrite <- string_app_assoc. Qed.

Lemma mergeName_eq j r :
  mergeName j r = ("mrtmp." +:+ j) +:+ String dash ("res" +:+ String dash (Itoa r)).
Proof. unfold mergeName. by rewrite <- string_app_assoc. Qed.

Lemma reduceName_inj j i1 r1 i2 r2 :
  0 ≤ i1 → 0 ≤ i2 → reduceName j i1 r1 = reduceName j i2 r2 → i1 = i2 ∧ r1 = r2.
Proof.
  intros H1 H2. rewrite !reduceName_eq. intros H%string_app_inj_l. injection H as H.
  apply string_split_inj in H as [?%(inj Itoa) ?%(inj Itoa)]; [done|by apply Itoa_no_dash..].
Qed.

Lemma mergeName_inj j r1 r2 : mergeName j r1 = mergeName j r2 → r1 = r2.
Proof.
  rewrite !mergeName_eq. intros H%string_app_inj_l. injection H as H. by apply (inj Itoa).
Qed.

Lemma reduce_merge_names j i r r' : 0 ≤ i → reduceName j i r ≠ mergeName j r'.
Proof.
  intros Hi. rewrite reduceName_eq, mergeName_eq. intros H%string_app_inj_l. injection H as H.
  apply (string_split_inj dash _ "res") in H as [H _].
  - pose proof (Itoa_digits i (Ascii.ascii_of_nat 114) Hi) as Hd. rewrite H in Hd.
    destruct Hd as [_ Hd%Nat.leb_le]; [by left|done].
  - by apply Itoa_no_dash.
  - intros Hin. by repeat (apply elem_of_cons in Hin as [Hin|Hin]; [done|]); apply elem_of_nil in Hin.
Qed.

Lemma string_app_cons_ne s c t : s +:+ String c t ≠ s.
Proof.
  induction s as [|c' s IH]; [done|]. intros H. injection H as H. by apply IH.
Qed.

(** ** Removing files *)

Lemma removeFiles_spec ns fs :
  NoDup ns →
  ((∀ n, n ∈ ns → is_Some (fs !! n)) →
     ∃ fs', removeFiles fs ns = Ok fs' ∧
            ∀ n, fs' !! n = if decide (n ∈ ns) then None else fs !! n) ∧
  (∀ n, n ∈ ns → fs !! n = None → removeFiles fs ns = Fatal).
Proof.
  revert fs. induction ns as [|n ns IH]; intros fs Hnd.
  { split; [|by intros ? ?%elem_of_nil]. intros _. exists fs. split; [done|].
    intros n. by rewrite decide_False by apply not_elem_of_nil. }
  apply NoDup_cons in Hnd as [Hn Hnd]. cbn. unfold removeFile.
  destruct (IH (delete n fs) Hnd) as [IH1 IH2]. split.
  - intros Hall. destruct (Hall n) as [c Hc]; [by left|]. rewrite Hc. cbn.
    destruct IH1 as (fs' & Hr & Hfs').
    { intros m Hm. rewrite lookup_delete_ne by (by intros ->). apply Hall. by right. }
    exists fs'. split; [done|]. intros m. rewrite Hfs'.
    destruct (decide (m ∈ ns)); [by rewrite decide_True by (by right)|].
    destruct (decide (n = m)) as [->|].
    + rewrite lookup_delete_eq, decide_True by (by left). done.
    + rewrite lookup_delete_ne, decide_False; [done| |done].
      by intros [?|?]%elem_of_cons.
  - intros m Hm Hnone. destruct (fs !! n) as [c|] eqn:Hc; cbn; [|done].
    apply elem_of_cons in Hm as [->|Hm]; [congruence|].
    apply (IH2 m Hm). rewrite lookup_delete_ne; [done|congruence].
Qed.

Lemma cleanup_names_NoDup mr : NoDup (cleanup_names mr).
Proof.
  unfold cleanup_names. apply NoDup_app. split_and!.
  - generalize (NoDup_range 0 (len (files mr))).
    assert (Hpos : ∀ i, i ∈ range 0 (len (files mr)) → 0 ≤ i) by (intros i ?%elem_of_range; lia).
    induction (range 0 (len (files mr))) as [|i l IH]; cbn; [constructor|].
    intros [Hi Hl]%NoDup_cons. apply NoDup_app. split_and!.
    + apply NoDup_fmap_2_strong; [|apply NoDup_range].
      intros r1 r2 _ _ H. apply reduceName_inj in H; [tauto|apply Hpos; by left..].
    + intros x (r & -> & _)%list_elem_of_fmap (i' & Hx & Hi')%list_elem_of_bind.
      apply list_elem_of_fmap in Hx as (r' & Hx & _).
      apply reduceName_inj in Hx as [-> _]; [done|apply Hpos; by left|apply Hpos; by right].
    + apply IH; [|done]. intros j ?. apply Hpos. by right.
  - intros x (i & Hx & Hi%elem_of_range)%list_elem_of_bind.
    apply list_elem_of_fmap in Hx as (r & -> & _).
    intros [(r' & Hr & _)%list_elem_of_fmap|Hr%list_elem_of_singleton]%elem_of_app.
    + eapply reduce_merge_names; [|done]. lia.
    + rewrite reduceName_eq in Hr. by apply string_app_cons_ne in Hr.
  - apply NoDup_app. split_and!; [|intros x (r & -> & _)%list_elem_of_fmap|apply NoDup_singleton].
    + apply NoDup_fmap_2; [|apply NoDup_range]. intros r1 r2. apply mergeName_inj.
    + intros Hr%list_elem_of_singleton. rewrite mergeName_eq in Hr.
      by apply string_app_cons_ne in Hr.
Qed.

(** ** The worker *)

(** How many connections a run accepts. *)
Definition accepts (es : list WEvent) : Z :=
  foldr (λ e n, match e with WAccept true => n + 1 | _ => n end) 0 es.

Definition accept_failed (e : WEvent) : bool :=
  match e with WAccept false => true | _ => false end.
Definition is_shutdown (e : WEvent) : bool := match e with WShutdown => true | _ => false end.

Lemma accepts_snoc es e :
  accepts (es ++ [e]) = accepts es + (match e with WAccept true => 1 | _ => 0 end).
Proof.
  unfold accepts. induction es as [|e' es IH]; cbn; [by destruct e as [|[]| |]|].
  rewrite IH. destruct e' as [|[]| |]; lia.
Qed.

Lemma wrun_snoc wk es e wk2 :
  wrun wk (es ++ [e]) = Some wk2 ↔ ∃ wk1, wrun wk es = Some wk1 ∧ wstep wk1 e = Some wk2.
Proof.
  revert wk. induction es as [|e' es IH]; intros wk; cbn.
  - split; [|by intros (? & [= ->] & ->)]. destruct (wstep wk e) as [wk'|] eqn:?; [|done].
    intros [= ->]. eauto.
  - destruct (wstep wk e') as [wk'|]; [apply IH|]. split; [done|by intros (? & ? & _)].
Qed.

(** Counters of a worker that is not shut down, after [es]. *)
Lemma worker_counters n es wk :
  0 ≤ n ≤ MaxInt64 → Forall (λ e, is_shutdown e = false) es →
  wrun (RunWorker n) es = Some wk →
  let a := accepts es in
  0 ≤ a ≤ n ∧ nRPC wk = n - a ∧
  nTasks wk = a - (if loop wk is Counting then 1 else 0) ∧ shutdowns wk = [] ∧
  (loop wk = Accepting → a < n) ∧ (loop wk = Counting → 1 ≤ a) ∧
  (loop wk = Exited → Forall (λ e, accept_failed e = false) es → a = n) ∧
  len es ≤ 3 * a + (match loop wk with AtTop => 0 | Accepting => 1 | Counting => -1 | Exited => 2 end).
Proof.
  intros Hn. revert wk. induction es as [|e es IH] using rev_ind; intros wk Hsd.
  { intros [= <-]. cbn. unfold len. cbn. split_and!; try done; lia. }
  rewrite wrun_snoc. intros (wk1 & H1 & H2). apply Forall_app in Hsd as [Hsd [He _]%Forall_cons].
  specialize (IH wk1 Hsd H1). cbn in IH.
  cbn zeta. rewrite accepts_snoc, len_app, len_singleton, Forall_app.
  destruct IH as (Ha & Hr & Ht & Hs & Hacc & Hcnt & Hex & Hl).
  unfold wstep in H2. destruct e as [|[]| |]; try done;
    destruct (loop wk1) eqn:Hw; try done; injection H2 as <-; cbn.
  - rewrite Hr, Ht, Z.add_0_r. destruct (Z.eqb_spec (n - accepts es) 0); cbn;
      split_and!; try done; lia.
  - specialize (Hacc eq_refl). unfold MaxInt64 in Hn.
    rewrite int64_id by (unfold MinInt64, MaxInt64; lia). split_and!; try done; lia.
  - rewrite Hr, Ht, Z.add_0_r. split_and!; try done; try lia.
    by intros _ [_ [Hf _]%Forall_cons].
  - specialize (Hcnt eq_refl). unfold MaxInt64 in Hn.
    rewrite int64_id by (unfold MinInt64, MaxInt64; lia). split_and!; try done; lia.
Qed.

(** ** Theorems *)

(** C34. The output of a job: if a result file cannot be opened, or the output
    file not be created, the master dies; otherwise it changes the file
    "mrtmp.<job>" and no other.  The output has one line per key, the keys in strictly
    increasing order, each with the last value recorded for it, and does not
    depend on the order in which the keys of the map are visited.  It is all in the file
    if the writes succeed; if one fails, merge returns as if it had not, with a
    first part of the output in the file. *)
Theorem merge_output decode iter output mr fs :
  (∀ m : FS, iter m ≡ₚ (map_to_list m).*1) →
  match results decode mr fs with
  | None => merge decode iter output mr fs = Fatal
  | Some recs => ∃ kvs keys,
      (let text := print_lines kvs keys in
       merge decode iter output mr fs =
         match output with
         | CreateFails => Fatal
         | WriteStops k => Ok (<["mrtmp." +:+ jobName mr := String.substring 0 k text]> fs)
         | Written => Ok (<["mrtmp." +:+ jobName mr := text]> fs)
         end) ∧
      StronglySorted String.le keys ∧ NoDup keys ∧
      (∀ k, k ∈ keys ↔ ∃ kv, kv ∈ recs ∧ Key kv = k) ∧
      (∀ k, kvs !! k = last_value recs k) ∧
      (∀ iter', (∀ m : FS, iter' m ≡ₚ (map_to_list m).*1) →
         merge decode iter' output mr fs = merge decode iter output mr fs)
  end.
Proof.
  intros Hit. pose proof (merge_read_results decode mr fs) as Hr. unfold merge.
  destruct (results decode mr fs) as [recs|]; [|by rewrite Hr].
  destruct Hr as (kvs & -> & Hkvs). cbn. exists kvs, (sort_strings (iter kvs)).
  split; [done|]. split; [apply sort_strings_sorted|].
  assert (Hp : sort_strings (iter kvs) ≡ₚ (map_to_list kvs).*1).
  { unfold sort_strings. by rewrite merge_sort_Permutation. }
  split_and!.
  - rewrite Hp. apply NoDup_fst_map_to_list.
  - intros k. rewrite Hp, list_elem_of_fmap. split.
    + intros ([k' v] & -> & Hk%elem_of_map_to_list). cbn. rewrite Hkvs in Hk.
      unfold last_value in Hk. apply fmap_Some in Hk as (kv & Hl & _).
      apply last_Some_elem_of, list_elem_of_filter in Hl as [? ?]. eauto.
    + intros (kv & Hkv & <-).
      assert (Hin : kv ∈ filter (λ kv', Key kv' = Key kv) recs) by (by apply list_elem_of_filter).
      destruct (last_value recs (Key kv)) as [v|] eqn:Hl.
      * exists (Key kv, v). split; [done|]. apply elem_of_map_to_list. by rewrite Hkvs.
      * unfold last_value in Hl. apply fmap_None, last_None in Hl. rewrite Hl in Hin.
        by apply elem_of_nil in Hin.
  - exact Hkvs.
  - intros iter' Hit'. rewrite (sort_strings_perm (iter' kvs) (iter kvs)); [done|].
    by rewrite Hit, Hit'.
Qed.

(** Cleaning up: the names of the intermediate files are pairwise different,
    so CleanupFiles removes each of them once; it succeeds exactly when all of
    them exist, and then every other file is left as it was. *)
Theorem CleanupFiles_removes mr fs :
  NoDup (cleanup_names mr) ∧
  ((∀ n, n ∈ cleanup_names mr → is_Some (fs !! n)) →
   ∃ fs', CleanupFiles mr fs = Ok fs' ∧
          ∀ n, fs' !! n = if decide (n ∈ cleanup_names mr) then None else fs !! n) ∧
  (∀ n, n ∈ cleanup_names mr → fs !! n = None → CleanupFiles mr fs = Fatal).
Proof.
  split; [apply cleanup_names_NoDup|]. unfold CleanupFiles.
  apply removeFiles_spec, cleanup_names_NoDup.
Qed.

(** The worker's limit: started with a limit of [n] RPCs and never shut
    down, the loop takes at most 3n + 2 steps; it accepts at most [n]
    connections, and when it leaves the loop without a failed Accept it has
    accepted and counted exactly [n]. *)
Theorem worker_serves_n n es wk :
  0 ≤ n ≤ MaxInt64 → Forall (λ e, is_shutdown e = false) es →
  wrun (RunWorker n) es = Some wk →
  len es ≤ 3 * n + 2 ∧ accepts es ≤ n ∧
  (loop wk = Exited → Forall (λ e, accept_failed e = false) es →
     accepts es = n ∧ nTasks wk = n ∧ nRPC wk = 0).
Proof.
  intros Hn Hsd H. destruct (worker_counters n es wk Hn Hsd H)
    as (Ha & Hr & Ht & _ & _ & _ & Hex & Hl).
  split_and!; [destruct (loop wk); lia|lia|].
  intros He Hf. rewrite He in Ht. specialize (Hex He Hf). lia.
Qed.

(** The reply to Shutdown depends on a race: the connection that carries it
    is itself counted by the loop, and the handler may run before or after that;
    after one task the reply is 1 or 2.  Either way the worker, whose limit the
    handler sets to 1, goes back to Accept and waits for one more connection. *)
Theorem shutdown_reply_race :
  let task := [WTop; WAccept true; WCount; WTop; WAccept true] in
  ∃ w1 w2,
    wrun (RunWorker (-1)) (task ++ [WShutdown; WCount; WTop]) = Some w1 ∧
    wrun (RunWorker (-1)) (task ++ [WCount; WShutdown; WTop]) = Some w2 ∧
    shutdowns w1 = [1] ∧ shutdowns w2 = [2] ∧
    loop w1 = Accepting ∧ loop w2 = Accepting ∧ nTasks w1 = nTasks w2.
Proof. eexists _, _. split; [by vm_compute|]. split; [by vm_compute|]. done. Qed.
End MapReduceProps.
