(* ===== verification/MapReduceJob.v ===== *)
(** * MapReduceJob: a distributed job, from the listener to the merged output

    The master of [Distributed] with its registration server, the goroutine that
    runs the job, and the workers that register and are shut down in the end.  A
    state is made of the master's record (MapReduce.v), the listener and its
    accept loop, the registration calls on their way, the workers with their own
    loops, and the place the job's goroutine has reached; an event is one step of
    one of them.  The body of [schedule] is unwritten in src/src/mapreduce, so no
    task is handed out: what remains is registration, shutdown and merge.  Every
    worker has an address of its own. *)
From S2P Require Import Prelude MapReduce.
Export MapReduce.

Module MapReduceJob.

(** ** The state *)

(** The accept loop: at the test of the channel, in Accept, or left. *)
(*@ src/src/mapreduce/master_rpc.go 34-51 Master.startRPCServer (loop) *)
Inductive ALoop := ATop | AAccept | ADone.

(** A Register call: in the listener's queue, taken, answered, or refused. *)
Inductive Phase := Queued | Serving | Replied | Refused.

(** The job's goroutine.  In [MKill] and [MCall] it holds the mutex: these are the
    workers still to be asked and the answers so far; in [MCall] the worker's
    loop has taken the connection or not.  [MStopping]: its own Shutdown call is
    queued, behind the first [n] Register calls, taken, or has closed the channel
    but not the listener. *)
Inductive Stop := SQueued (n : nat) | STaken | SClosing.
Inductive Main :=
| MMap | MReduce
| MKill (todo : list string) (ntasks : list Z)
| MCall (w : string) (taken : bool) (todo : list string) (ntasks : list Z)
| MStop | MStopping (ph : Stop) | MMerge | MEnd.

Record Job := mkJob {
  mr : Master;
  listening : bool;
  accept : ALoop;
  calls : list (string * Phase);
  wks : gmap string (Worker * nat);   (* with the index of its Register call *)
  main : Main;
  fs : FS;
}.
#[export] Instance eta_job : Eta Job := λ j,
  mkJob (mr j) (listening j) (accept j) (calls j) (wks j) (main j) (fs j).

(** Listening may fail; then the process ends. *)
(*@ src/src/mapreduce/master_rpc.go 21-54 Master.startRPCServer *)
Definition startRPCServer (can_listen : bool) (m : Master) (disk : FS) : res Job :=
  if can_listen then Ok (mkJob m true ATop [] ∅ MMap disk) else Fatal.

(** The job's goroutine starts with its three assignments. *)
(*@ src/src/mapreduce/master.go 79-87 Distributed *)
Definition Distributed (can_listen : bool) (job : string) (fls : list string) (nreduce : Z)
    (master : string) (disk : FS) : res Job :=
  j ← startRPCServer can_listen (newMaster master) disk;
  mret (j <| mr := mr j <| jobName := job |> <| files := fls |> <| nReduce := nreduce |> |>).

Inductive Event :=
| EWorker (w : string) (n : Z)     (* a worker starts, and calls Register *)
| ETop | ETake (k : nat) | ETakeStop | EFail        (* the accept loop *)
| EServe (k : nat)                 (* the Register handler *)
| EShut | EClose                   (* the two halves of the Shutdown handler *)
| ERun                             (* the job's goroutine *)
| EWTop (w : string) | EWTake (w : string) | EWCount (w : string)   (* a worker's loop *)
| EWShut (w : string).             (* a worker's Shutdown handler *)

Definition locked (j : Job) : bool :=
  match main j with MKill _ _ | MCall _ _ _ _ => true | _ => false end.

(** ** The steps *)

(** [RunWorker] and [Worker.register]: the loop starts when Register returns. *)
(*@ src/src/mapreduce/worker.go 54-61 Worker.register *)
Definition start_worker (j : Job) (w : string) (n : Z) : Job :=
  j <| calls := calls j ++ [(w, if listening j then Queued else Refused)] |>
    <| wks := <[w := (RunWorker n, length (calls j))]> (wks j) |>.

Definition registering (j : Job) (k : nat) : bool :=
  match calls j !! k with Some (_, (Queued | Serving)) => true | _ => false end.

(** Accept takes the connections in the order in which they were made. *)
Definition is_queued (c : string * Phase) : bool := if c.2 is Queued then true else false.
Definition first_in_line (j : Job) (k : nat) : bool := negb (existsb is_queued (take k (calls j))).

Definition before_stop (j : Job) (k : nat) : bool :=
  match main j with MStopping (SQueued n) => k <? n | _ => true end%nat.

(** A step of the worker's loop, once it has registered. *)
Definition worker_step (j : Job) (w : string) (e : WEvent) : option Job :=
  match wks j !! w with
  | Some (wk, k) =>
      if registering j k then None
      else (λ wk', j <| wks := <[w := (wk', k)]> (wks j) |>) <$> wstep wk e
  | None => None
  end.

(** A worker that has left its loop has closed its listener. *)
Definition reachable_worker (j : Job) (w : string) : bool :=
  match wks j !! w with Some (wk, _) => negb (if loop wk is Exited then true else false) | None => false end.

(** The listener goes away, and with it the connections nobody took. *)
Definition close_listener (j : Job) : Job :=
  j <| listening := false |>
    <| calls := (λ '(w, ph), (w, if ph is Queued then Refused else ph)) <$> calls j |>.

(** killWorkers takes the next worker: the call fails if nobody listens there. *)
(*@ src/src/mapreduce/master.go 133-142 Master.killWorkers (loop) *)
Definition ask_worker (j : Job) (w : string) (todo : list string) (ntasks : list Z) : Job :=
  j <| main := if reachable_worker j w then MCall w false todo ntasks else MKill todo ntasks |>.

(** The call to the master's own server. *)
(*@ src/src/mapreduce/master_rpc.go 59-66 Master.stopRPCServer *)
Definition stopRPCServer (j : Job) : Job :=
  j <| main := if listening j then MStopping (SQueued (length (calls j))) else MMerge |>.

Section exec.
Context (decode : string → list KeyValue) (iter : FS → list string) (output : Output).

(** The goroutine started by Distributed: two phases without tasks, the workers
    one after the other under the mutex, the master's own server, the merge. *)
(*@ src/src/mapreduce/master.go 100-144 Master.run, Master.killWorkers *)
Definition run_step (j : Job) : option (res Job) :=
  match main j with
  | MMap => Some (Ok (j <| main := MReduce |>))
  | MReduce => Some (Ok (j <| main := MKill (workers (mr j)) [] |>))
  | MKill [] ntasks => Some (Ok (j <| mr := mr j <| stats := ntasks |> |> <| main := MStop |>))
  | MKill (w :: todo) ntasks =>
      Some (Ok (ask_worker j w todo ntasks))
  | MCall w taken todo ntasks =>
      if negb taken && negb (reachable_worker j w)
      then Some (Ok (j <| main := MKill todo ntasks |>)) else None
  | MStop => Some (Ok (stopRPCServer j))
  | MStopping _ => None
  | MMerge => Some (fs' ← merge decode iter output (mr j) (fs j);
                    mret (j <| fs := fs' |> <| main := MEnd |>))
  | MEnd => None
  end.

(** The accept loop, the handlers, the goroutine of the job and the workers. *)
(*@ src/src/mapreduce/master_rpc.go 33-53 Master.startRPCServer (loop) *)
Definition exec (j : Job) (e : Event) : option (res Job) :=
  match e with
  | EWorker w n =>
      match wks j !! w with None => Some (Ok (start_worker j w n)) | Some _ => None end
  | ETop =>
      match accept j with
      | ATop => Some (Ok (j <| accept := if shut (mr j) then ADone else AAccept |>))
      | _ => None
      end
  | ETake k =>
      match accept j, calls j !! k with
      | AAccept, Some (w, Queued) =>
          if first_in_line j k && before_stop j k then
            Some (Ok (j <| calls := <[k := (w, Serving)]> (calls j) |> <| accept := ATop |>))
          else None
      | _, _ => None
      end
  | ETakeStop =>
      match accept j, main j with
      | AAccept, MStopping (SQueued n) =>
          if first_in_line j n
          then Some (Ok (j <| main := MStopping STaken |> <| accept := ATop |>)) else None
      | _, _ => None
      end
  | EFail =>
      match accept j with
      | AAccept => if listening j then None else Some (Ok (j <| accept := ADone |>))
      | _ => None
      end
  | EServe k =>
      match calls j !! k with
      | Some (w, Serving) =>
          if locked j then None
          else Some (Ok (j <| mr := Register (mr j) w |> <| calls := <[k := (w, Replied)]> (calls j) |>))
      | _ => None
      end
  | EShut =>
      match main j with
      | MStopping STaken =>
          Some (m ← MasterShutdown (mr j); mret (j <| mr := m |> <| main := MStopping SClosing |>))
      | _ => None
      end
  | EClose =>
      match main j with
      | MStopping SClosing => Some (Ok (close_listener j <| main := MMerge |>))
      | _ => None
      end
  | ERun => run_step j
  | EWTop w => Ok <$> worker_step j w WTop
  | EWTake w =>
      match main j with
      | MCall w' false todo ntasks =>
          if String.eqb w w' then
            (λ j', Ok (j' <| main := MCall w true todo ntasks |>)) <$> worker_step j w (WAccept true)
          else None
      | _ => None
      end
  | EWCount w => Ok <$> worker_step j w WCount
  | EWShut w =>
      match main j, wks j !! w with
      | MCall w' true todo ntasks, Some (wk, k) =>
          if String.eqb w w' then
            Some (Ok (j <| wks := <[w := (Shutdown wk, k)]> (wks j) |>
                        <| main := MKill todo (ntasks ++ [nTasks wk]) |>))
          else None
      | _, _ => None
      end
  end.

Fixpoint run_job (j : Job) (es : list Event) : option (res Job) :=
  match es with
  | [] => Some (Ok j)
  | e :: es => match exec j e with
               | Some (Ok j') => run_job j' es
               | Some r => if es is [] then Some r else None
               | None => None
               end
  end.

Inductive reachable : Job → Prop :=
| reach_start job fls nreduce master disk j :
    Distributed true job fls nreduce master disk = Ok j → reachable j
| reach_step j e j' : reachable j → exec j e = Some (Ok j') → reachable j'.
End exec.
End MapReduceJob.
