(* ===== verification/MapReduceJobProps.v ===== *)
(** * MapReduceJobProps: a distributed job can always be finished

    The invariant of the executions of MapReduceJob.v, the steps that bring a job
    from any state of an execution to its end, and an execution in which a worker
    registers too late to be shut down. *)
From S2P Require Import Prelude MapReduce MapReduceProps MapReduceJob.
Export MapReduceJob.
Import MapReduceProps.

Module MapReduceJobProps.

Section props.
Context (decode : string → list KeyValue) (iter : FS → list string) (output : Output).
#[local] Notation exec := (exec decode iter output).
#[local] Notation run_job := (run_job decode iter output).
#[local] Notation reachable := (reachable decode iter output).
#[local] Notation merge := (merge decode iter output).

(** ** The invariant *)

(** The worker has left its loop, or has answered a Shutdown. *)
Definition stopped (j : Job) (w : string) : Prop :=
  ∃ wk k, wks j !! w = Some (wk, k) ∧ (loop wk = Exited ∨ shutdowns wk ≠ []).






















(** ** What the steps keep *)

Record same_job (j j' : Job) : Prop := mkSame {
  sj_name : jobName (mr j') = jobName (mr j);
  sj_reduce : nReduce (mr j') = nReduce (mr j);
  sj_workers : workers (mr j') = workers (mr j);
  sj_fs : fs j' = fs j;
  sj_stopped w : stopped j w → stopped j' w;
}.

#[local] Instance same_job_preorder : PreOrder same_job.
Proof.
  split.
  - intros j. by constructor.
  - intros j1 j2 j3 [] []. constructor; [congruence..|auto].
Qed.




(** ** The steps that finish a job *)








Lemma reachable_run j es j' : reachable j → run_job j es = Some (Ok j') → reachable j'.
Proof.
  revert j. induction es as [|e es IH]; intros j Hr; cbn; [by intros [= <-]|].
  destruct (exec j e) as [[j2| |]|] eqn:He; [|by destruct es..|done]. apply IH. by eapply reach_step.
Qed.




#[local] Notation to_kill todo := (λ j, ∃ nt, main j = MKill todo nt).










(** ** The master's own Shutdown call is served in its turn *)

#[local] Notation merging := (λ j, main j = MMerge).











(** ** A worker that registers too late *)

(** Worker "a" registers and is shut down; worker "b" registers while the
    master's own Shutdown call is in the queue, and is answered. *)
Definition late_events : list Event :=
  [EWorker "a" 100; ETop; ETake 0; EServe 0; ERun; ERun; EWTop "a"; ERun; EWTake "a"; EWShut "a";
   ERun; EWorker "b" 100; ETop; ETake 1; EServe 1; ERun; ETop; ETakeStop; EShut; EClose; ERun]%string.
End props.

(** The job ends, and worker "b", registered, goes on waiting for connections:
    killWorkers has asked the workers registered before it, and nobody asks the
    later ones. *)
Theorem late_registration :
  ∃ j0 j, Distributed true "job" [] 0 "m" ∅ = Ok j0 ∧
    run_job (λ _, []) (λ _, []) Written j0 late_events = Some (Ok j) ∧
    main j = MEnd ∧ workers (mr j) = ["a"; "b"]%string ∧
    stopped j "a" ∧ ~ stopped j "b".
Proof.
  eexists _, _. split; [done|]. split; [vm_compute; reflexivity|]. do 2 (split; [done|]). split.
  - eexists _, _. split; [vm_compute; reflexivity|]. by right.
  - intros (wk & k & Hwk & Hor). vm_compute in Hwk. injection Hwk as <- <-. by destruct Hor.
Qed.
End MapReduceJobProps.

