(* ===== verification/Clerks.v ===== *)
(** * Clerks: the retry loops of the shard master's and the sharded stores' clients

    Models the clients of src/src/shardmaster, src/src/paxos-shardmaster,
    src/src/shardkv, src/src/paxos-shardkv and src/src/diskv, and those of the
    view service and the lock service, which make one call.  The servers' answers
    are an argument: [rpc r srv meth args] is what server [srv] answers to the
    method [meth] in round [r] of the loop, [None] when the call returns false.
    A loop that runs for ever in Go takes the number of rounds as fuel. *)
From S2P Require Import Prelude.

Module Clerks.

(** ** The loops all clerks share *)

(** One pass over the servers in order: [accept] ends the call with a result,
    [stop] ends the pass ([break]). *)
Fixpoint try_servers {S R A : Type} (call : S → option R) (accept : R → option A)
    (stop : R → bool) (ss : list S) : option A :=
  match ss with
  | [] => None
  | s :: ss =>
      match call s with
      | Some r =>
          match accept r with
          | Some a => Some a
          | None => if stop r then None else try_servers call accept stop ss
          end
      | None => try_servers call accept stop ss
      end
  end.

(** Rounds until one gives a result. *)
Fixpoint retry {A : Type} (round : nat → option A) (fuel r : nat) : option A :=
  match fuel with
  | O => None
  | S fuel => match round r with Some a => Some a | None => retry round fuel (S r) end
  end.

(** Rounds in which a failure is followed by fetching a new configuration. *)
Fixpoint retry_config {C A : Type} (round : nat → C → option A) (query : nat → option C)
    (fuel r : nat) (c : C) : option (C * A) :=
  match fuel with
  | O => None
  | S fuel =>
      match round r c with
      | Some a => Some (c, a)
      | None => c' ← query r; retry_config round query fuel (S r) c'
      end
  end.

Lemma try_servers_Some {S R A} (call : S → option R) (accept : R → option A) stop ss a :
  try_servers call accept stop ss = Some a ↔
  ∃ pre s post r, ss = pre ++ s :: post ∧ call s = Some r ∧ accept r = Some a ∧
    ∀ s' r', s' ∈ pre → call s' = Some r' → accept r' = None ∧ stop r' = false.
Proof.
  induction ss as [|s ss IH]; cbn.
  { split; [done|]. intros (pre & s & post & r & Hss & _). by destruct pre. }
  assert (Hskip : ∀ (P : Prop),
    (∀ r', call s = Some r' → accept r' = None ∧ stop r' = false) →
    ((∃ pre s0 post r, ss = pre ++ s0 :: post ∧ call s0 = Some r ∧ accept r = Some a ∧
       ∀ s' r', s' ∈ pre → call s' = Some r' → accept r' = None ∧ stop r' = false) ↔
     (∃ pre s0 post r, s :: ss = pre ++ s0 :: post ∧ call s0 = Some r ∧ accept r = Some a ∧
       ∀ s' r', s' ∈ pre → call s' = Some r' → accept r' = None ∧ stop r' = false))).
  { intros _ Hs. split.
    - intros (pre & s0 & post & r & -> & Hc & Ha & Hp).
      exists (s :: pre), s0, post, r. split_and!; try done.
      intros s' r' [->|Hin]%elem_of_cons; [apply Hs|by apply Hp].
    - intros ([|s1 pre] & s0 & post & r & Hss & Hc & Ha & Hp); injection Hss as <- ->.
      + destruct (Hs r Hc). congruence.
      + exists pre, s0, post, r. split_and!; try done. intros s' r' Hin. apply Hp. by right. }
  destruct (call s) as [r|] eqn:Hc; [destruct (accept r) as [b|] eqn:Ha; [|destruct (stop r) eqn:Hst]|].
  - split.
    + intros [= ->]. exists [], s, ss, r. split_and!; try done. by intros ? ? ?%elem_of_nil.
    + intros ([|s1 pre] & s0 & post & r0 & Hss & Hc0 & Ha0 & Hp); injection Hss as <- ->.
      * congruence.
      * destruct (Hp s r) as [? _]; [by left|done|congruence].
  - split; [done|].
    intros ([|s1 pre] & s0 & post & r0 & Hss & Hc0 & Ha0 & Hp); injection Hss as <- ->.
    + congruence.
    + destruct (Hp s r) as [_ ?]; [by left|done|congruence].
  - rewrite IH. apply (Hskip True). intros r' [= <-]. done.
  - rewrite IH. apply (Hskip True). done.
Qed.

Lemma retry_first {A} (round : nat → option A) fuel r n a :
  (r ≤ n)%nat → (n < r + fuel)%nat → round n = Some a →
  (∀ m, (r ≤ m < n)%nat → round m = None) → retry round fuel r = Some a.
Proof.
  revert r. induction fuel as [|fuel IH]; intros r Hr Hf Hn Hno; [lia|]. cbn.
  destruct (decide (r = n)) as [->|Hne]; [by rewrite Hn|].
  rewrite Hno by lia. apply IH; [lia|lia|done|]. intros m ?. apply Hno. lia.
Qed.

Lemma retry_Some {A} (round : nat → option A) fuel r a :
  retry round fuel r = Some a →
  ∃ n, (r ≤ n < r + fuel)%nat ∧ round n = Some a ∧ ∀ m, (r ≤ m < n)%nat → round m = None.
Proof.
  revert r. induction fuel as [|fuel IH]; intros r; cbn; [done|].
  destruct (round r) as [b|] eqn:Hb.
  - intros [= ->]. exists r. split; [lia|]. split; [done|lia].
  - intros (n & Hn & ? & Hno)%IH. exists n. split; [lia|]. split; [done|].
    intros m ?. destruct (decide (m = r)) as [->|]; [done|apply Hno; lia].
Qed.

(** ** The shard master's clerk (over labrpc) *)

(*@ src/src/shardmaster/common.go 24-24 NShards *)
Definition NShards : Z := 10.

(*@ src/src/shardmaster/common.go 28-32 Config *)
Record Config := mkConfig { Num : Z; Shards : list Z; Groups : gmap Z (list string) }.

(*@ src/src/shardmaster/common.go 68-70 QueryArgs *)
Record QueryArgs := mkQueryArgs { q_Num : Z }.
(*@ src/src/shardmaster/common.go 72-76 QueryReply *)
Record QueryReply := mkQueryReply { q_WrongLeader : bool; q_Err : string; q_Config : Config }.
(*@ src/src/shardmaster/common.go 40-42 JoinArgs *)
Record JoinArgs := mkJoinArgs { j_Servers : gmap Z (list string) }.
(*@ src/src/shardmaster/common.go 49-51 LeaveArgs *)
Record LeaveArgs := mkLeaveArgs { l_GIDs : list Z }.
(*@ src/src/shardmaster/common.go 58-61 MoveArgs *)
Record MoveArgs := mkMoveArgs { m_Shard : Z; m_GID : Z }.
(** [JoinReply], [LeaveReply] and [MoveReply] have the same fields. *)
(*@ src/src/shardmaster/common.go 44-66 JoinReply, LeaveReply, MoveReply *)
Record AckReply := mkAck { a_WrongLeader : bool; a_Err : string }.

Section shardmaster.
Context {End : Type}.
Implicit Types (servers : list End).

Definition ack (r : AckReply) : option unit := if a_WrongLeader r then None else Some tt.

(*@ src/src/shardmaster/client.go 31-46 Clerk.Query *)
Definition Query (rpc : nat → End → QueryArgs → option QueryReply) (fuel : nat)
    servers (num : Z) : option Config :=
  let args := mkQueryArgs num in
  retry (λ r, try_servers (λ srv, rpc r srv args)
                (λ rep, if q_WrongLeader rep then None else Some (q_Config rep))
                (λ _, false) servers) fuel 0.

(*@ src/src/shardmaster/client.go 48-64 Clerk.Join *)
Definition Join (rpc : nat → End → JoinArgs → option AckReply) (fuel : nat)
    servers (newgroups : gmap Z (list string)) : option unit :=
  let args := mkJoinArgs newgroups in
  retry (λ r, try_servers (λ srv, rpc r srv args) ack (λ _, false) servers) fuel 0.

(*@ src/src/shardmaster/client.go 66-82 Clerk.Leave *)
Definition Leave (rpc : nat → End → LeaveArgs → option AckReply) (fuel : nat)
    servers (gids : list Z) : option unit :=
  let args := mkLeaveArgs gids in
  retry (λ r, try_servers (λ srv, rpc r srv args) ack (λ _, false) servers) fuel 0.

(*@ src/src/shardmaster/client.go 84-101 Clerk.Move *)
Definition Move (rpc : nat → End → MoveArgs → option AckReply) (fuel : nat)
    servers (shard gid : Z) : option unit :=
  let args := mkMoveArgs shard gid in
  retry (λ r, try_servers (λ srv, rpc r srv args) ack (λ _, false) servers) fuel 0.
End shardmaster.

(** ** The shard master's clerk (over net/rpc) *)

(*@ src/src/paxos-shardmaster/common.go 25-29 Config *)
Record PConfig := mkPConfig { p_Num : Z; p_Shards : list Z; p_Groups : gmap Z (list string) }.

Section paxos_shardmaster.
Implicit Types (servers : list string).

(** Any answer ends the loop. *)
(*@ src/src/paxos-shardmaster/client.go 56-70 Clerk.Query *)
Definition PQuery (rpc : nat → string → Z → option PConfig) (fuel : nat)
    servers (num : Z) : option PConfig :=
  retry (λ r, try_servers (λ srv, rpc r srv num) Some (λ _, false) servers) fuel 0.

(*@ src/src/paxos-shardmaster/client.go 72-87 Clerk.Join *)
Definition PJoin (rpc : nat → string → Z * list string → option unit) (fuel : nat)
    servers (gid : Z) (group : list string) : option unit :=
  retry (λ r, try_servers (λ srv, rpc r srv (gid, group)) Some (λ _, false) servers) fuel 0.

(*@ src/src/paxos-shardmaster/client.go 89-103 Clerk.Leave *)
Definition PLeave (rpc : nat → string → Z → option unit) (fuel : nat)
    servers (gid : Z) : option unit :=
  retry (λ r, try_servers (λ srv, rpc r srv gid) Some (λ _, false) servers) fuel 0.

(*@ src/src/paxos-shardmaster/client.go 105-120 Clerk.Move *)
Definition PMove (rpc : nat → string → Z * Z → option unit) (fuel : nat)
    servers (shard gid : Z) : option unit :=
  retry (λ r, try_servers (λ srv, rpc r srv (shard, gid)) Some (λ _, false) servers) fuel 0.
End paxos_shardmaster.

(** ** The sharded stores *)

Definition first_byte (key : string) : Z :=
  match key with EmptyString => 0 | String c _ => Z.of_nat (Ascii.nat_of_ascii c) end.

(** Go's [%] truncates, like [Z.rem]. *)
(*@ src/src/shardkv/client.go 22-29 key2shard *)
Definition key2shard (key : string) : Z :=
  let shard := if 0 <? Z.of_nat (String.length key) then first_byte key else 0 in
  Z.rem shard NShards.

(*@ src/src/shardkv/common.go 12-18 Err *)
Definition OK : string := "OK".
Definition ErrNoKey : string := "ErrNoKey".
Definition ErrWrongGroup : string := "ErrWrongGroup".

(*@ src/src/shardkv/common.go 21-29 PutAppendArgs *)
Record PutAppendArgs := mkPAArgs { pa_Key : string; pa_Value : string; pa_Op : string }.
(*@ src/src/shardkv/common.go 31-34 PutAppendReply *)
Record PutAppendReply := mkPAReply { pa_WrongLeader : bool; pa_Err : string }.
(*@ src/src/shardkv/common.go 36-39 GetArgs *)
Record GetArgs := mkGetArgs { g_Key : string }.
(*@ src/src/shardkv/common.go 41-45 GetReply *)
Record GetReply := mkGetReply { g_WrongLeader : bool; g_Err : string; g_Value : string }.

(** The servers of the group responsible for a key: an index into an array of
    [NShards] elements, then a map lookup. *)
(*@ src/src/shardkv/client.go 73-75 Clerk.Get (group) *)
Definition group_of (config : Config) (key : string) : option (list string) :=
  match slice_get (Shards config) (key2shard key) with
  | Ok gid => Groups config !! gid
  | _ => None
  end.

Section shardkv.
(** [srpc] is the call on the end point [make_end] gives for a server name;
    [query r] is what [ck.sm.Query(-1)] returns after round [r]. *)
Context (query : nat → option Config).

Definition get_accept (rep : GetReply) : option string :=
  if negb (g_WrongLeader rep) && (String.eqb (g_Err rep) OK || String.eqb (g_Err rep) ErrNoKey)
  then Some (g_Value rep) else None.

(*@ src/src/shardkv/client.go 68-95 Clerk.Get *)
Definition Get (srpc : nat → string → string → GetArgs → option GetReply) (fuel : nat)
    (config : Config) (key : string) : option (Config * string) :=
  let args := mkGetArgs key in
  retry_config
    (λ r config, servers ← group_of config key;
                 try_servers (λ srv, srpc r srv "ShardKV.Get" args) get_accept
                   (λ rep, String.eqb (g_Err rep) ErrWrongGroup) servers)
    query fuel 0 config.

Definition put_accept (rep : PutAppendReply) : option unit :=
  if negb (pa_WrongLeader rep) && String.eqb (pa_Err rep) OK then Some tt else None.

(*@ src/src/shardkv/client.go 101-128 Clerk.PutAppend *)
Definition PutAppend (srpc : nat → string → string → PutAppendArgs → option PutAppendReply)
    (fuel : nat) (config : Config) (key value op : string) : option (Config * unit) :=
  let args := mkPAArgs key value op in
  retry_config
    (λ r config, servers ← group_of config key;
                 try_servers (λ srv, srpc r srv "ShardKV.PutAppend" args) put_accept
                   (λ rep, String.eqb (pa_Err rep) ErrWrongGroup) servers)
    query fuel 0 config.

(*@ src/src/shardkv/client.go 130-132 Clerk.Put *)
Definition Put srpc fuel config key value := PutAppend srpc fuel config key value "Put".
(*@ src/src/shardkv/client.go 133-135 Clerk.Append *)
Definition Append srpc fuel config key value := PutAppend srpc fuel config key value "Append".
End shardkv.

(** ** The Paxos-based and the disk-based store: no [WrongLeader] in the replies *)

(*@ src/src/paxos-shardkv/client.go 71-78 key2shard *)
Definition p_key2shard (key : string) : Z :=
  let shard := if 0 <? Z.of_nat (String.length key) then first_byte key else 0 in
  Z.rem shard NShards.

(*@ src/src/diskv/client.go 71-78 key2shard *)
Definition d_key2shard : string → Z := p_key2shard.

(*@ src/src/paxos-shardkv/client.go 92-96 Clerk.Get (group) *)
Definition p_group_of (config : PConfig) (key : string) : option (list string) :=
  match slice_get (p_Shards config) (p_key2shard key) with
  | Ok gid => p_Groups config !! gid
  | _ => None
  end.

(*@ src/src/paxos-shardkv/common.go 39-42 GetReply *)
Record PGetReply := mkPGetReply { pg_Err : string; pg_Value : string }.

Section paxos_shardkv.
Context (query : nat → option PConfig).

Definition p_get_accept (rep : PGetReply) : option string :=
  if String.eqb (pg_Err rep) OK || String.eqb (pg_Err rep) ErrNoKey
  then Some (pg_Value rep) else None.

(** The two stores differ in the name of the service. *)
Definition p_get (meth : string) (rpc : nat → string → string → GetArgs → option PGetReply)
    (fuel : nat) (config : PConfig) (key : string) : option (PConfig * string) :=
  retry_config
    (λ r config, servers ← p_group_of config key;
                 try_servers (λ srv, rpc r srv meth (mkGetArgs key)) p_get_accept
                   (λ rep, String.eqb (pg_Err rep) ErrWrongGroup) servers)
    query fuel 0 config.

Definition p_put (meth : string) (rpc : nat → string → string → PutAppendArgs → option string)
    (fuel : nat) (config : PConfig) (key value op : string) : option (PConfig * unit) :=
  retry_config
    (λ r config, servers ← p_group_of config key;
                 try_servers (λ srv, rpc r srv meth (mkPAArgs key value op))
                   (λ err, if String.eqb err OK then Some tt else None)
                   (λ err, String.eqb err ErrWrongGroup) servers)
    query fuel 0 config.

(*@ src/src/paxos-shardkv/client.go 85-119 Clerk.Get *)
Definition PGet := p_get "ShardKV.Get".
(*@ src/src/paxos-shardkv/client.go 122-158 Clerk.PutAppend *)
Definition PPutAppend := p_put "ShardKV.PutAppend".
(*@ src/src/paxos-shardkv/client.go 160-162 Clerk.Put *)
Definition PPut rpc fuel config key value := PPutAppend rpc fuel config key value "Put".
(*@ src/src/paxos-shardkv/client.go 163-165 Clerk.Append *)
Definition PAppend rpc fuel config key value := PPutAppend rpc fuel config key value "Append".

(*@ src/src/diskv/client.go 85-119 Clerk.Get *)
Definition DGet := p_get "DisKV.Get".
(*@ src/src/diskv/client.go 122-158 Clerk.PutAppend *)
Definition DPutAppend := p_put "DisKV.PutAppend".
(*@ src/src/diskv/client.go 160-162 Clerk.Put *)
Definition DPut rpc fuel config key value := DPutAppend rpc fuel config key value "Put".
(*@ src/src/diskv/client.go 163-165 Clerk.Append *)
Definition DAppend rpc fuel config key value := DPutAppend rpc fuel config key value "Append".
End paxos_shardkv.

(** ** The view service's clerk: one call, no retry *)

(*@ src/src/viewservice/common.go 36-40 View *)
Record View := mkView { Viewnum : Z; Primary : string; Backup : string }.
(*@ src/src/viewservice/client.go 10-13 Clerk *)
Record VClerk := mkVClerk { v_me : string; v_server : string }.
(*@ src/src/viewservice/common.go 60-63 PingArgs *)
Record PingArgs := mkPing { Me : string; ping_Viewnum : Z }.

Definition no_view : View := mkView 0 "" "".

(** The view and whether there is no error. *)
(*@ src/src/viewservice/client.go 56-70 Clerk.Ping *)
Definition VPing (rpc : string → PingArgs → option View) (ck : VClerk) (viewnum : Z) :
    View * bool :=
  match rpc (v_server ck) (mkPing (v_me ck) viewnum) with
  | Some v => (v, true)
  | None => (no_view, false)
  end.

(*@ src/src/viewservice/client.go 72-80 Clerk.Get *)
Definition VGet (rpc : string → option View) (ck : VClerk) : View * bool :=
  match rpc (v_server ck) with Some v => (v, true) | None => (no_view, false) end.

(*@ src/src/viewservice/client.go 82-88 Clerk.Primary *)
Definition VPrimary (rpc : string → option View) (ck : VClerk) : string :=
  let '(v, ok) := VGet rpc ck in if ok : bool then Primary v else "".
End Clerks.
