(* ===== verification/ClerksProps.v ===== *)
(** * ClerksProps: what the clerks return, and when they return *)
From S2P Require Import Prelude Clerks.
Export Clerks.

Module ClerksProps.

(** The configuration the clerk holds in round [r]. *)
Definition config_at {C} (query : nat → option C) (c : C) (r : nat) : option C :=
  match r with O => Some c | S r => query r end.

Lemma retry_config_Some {C A} (round : nat → C → option A) query fuel c c' a :
  retry_config round query fuel 0 c = Some (c', a) ↔
  ∃ n, (n < fuel)%nat ∧ config_at query c n = Some c' ∧ round n c' = Some a ∧
    ∀ m, (m < n)%nat → ∃ cm, config_at query c m = Some cm ∧ round m cm = None.
Proof.
  assert (Hg : ∀ fuel r c0, config_at query c r = Some c0 →
    (retry_config round query fuel r c0 = Some (c', a) ↔
     ∃ n, (r ≤ n < r + fuel)%nat ∧ config_at query c n = Some c' ∧ round n c' = Some a ∧
       ∀ m, (r ≤ m < n)%nat → ∃ cm, config_at query c m = Some cm ∧ round m cm = None)).
  { intros f. induction f as [|f IH]; intros r c0 Hc0; cbn.
    { split; [done|]. intros (n & Hn & _). lia. }
    destruct (round r c0) as [b|] eqn:Hb.
    - split.
      + intros [= -> ->]. exists r. split; [lia|]. split_and!; [done|done|lia].
      + intros (n & Hn & Hcn & Hrn & Hm). destruct (decide (n = r)) as [->|Hne]; [congruence|].
        destruct (Hm r) as (cm & Hcm & Hrm); [lia|]. congruence.
    - destruct (query r) as [c1|] eqn:Hq; cbn.
      + rewrite (IH (S r) c1) by done. split.
        * intros (n & Hn & Hcn & Hrn & Hm). exists n. split; [lia|]. split_and!; try done.
          intros m Hmn. destruct (decide (m = r)) as [->|]; [eauto|apply Hm; lia].
        * intros (n & Hn & Hcn & Hrn & Hm). exists n.
          assert (n ≠ r) by (intros ->; congruence).
          split; [lia|]. split_and!; try done. intros m Hmn. apply Hm. lia.
      + split; [done|]. intros (n & Hn & Hcn & Hrn & Hm).
        assert (n ≠ r) by (intros ->; congruence).
        destruct (decide (n = S r)) as [->|Hne]; [cbn in Hcn; congruence|].
        destruct (Hm (S r)) as (cm & Hcm & _); [lia|]. cbn in Hcm. congruence. }
  rewrite (Hg fuel 0%nat c) by done. split; intros (n & Hn & Hcn & Hrn & Hm); exists n;
    (split; [lia|]); split_and!; try done; intros m Hmn; apply Hm; lia.
Qed.

Lemma key2shard_bounds key : 0 ≤ key2shard key < NShards.
Proof.
  unfold key2shard, NShards. rewrite Z.rem_mod_nonneg; [|zcase; [unfold first_byte; case_match; lia|lia]|lia].
  apply Z.mod_pos_bound. lia.
Qed.

(** The shard a key belongs to is a valid index, and with a configuration of
    [NShards] shards the clerk finds the group of the key whenever the shard is
    assigned to a known group; the Paxos-based and the disk-based clerks put a
    key into the same shard. *)
Lemma key2shard_in_range key config :
  len (Shards config) = NShards →
  0 ≤ key2shard key < NShards ∧ p_key2shard key = key2shard key ∧
  ∃ gid, slice_get (Shards config) (key2shard key) = Ok gid ∧
         group_of config key = Groups config !! gid.
Proof.
  intros Hl. pose proof (key2shard_bounds key) as Hb. split; [done|]. split; [done|].
  destruct (slice_get_is_Ok (Shards config) (key2shard key)) as [gid Hg]; [lia|].
  exists gid. split; [done|]. unfold group_of. by rewrite Hg.
Qed.

(** ** Theorems *)

(** C36. The sharded store's Get: it returns [v] within [fuel] rounds exactly
    when, in some round with the configuration fetched for it, a server of the
    group that configuration assigns to the key's shard answers [v] without
    error, after servers of that group that did not answer, were not the leader
    or failed otherwise, but did not say the group is wrong, and after rounds
    that gave nothing.  So it ends as soon as there is such a round, and what it
    returns always comes from the responsible group. *)
Theorem Get_responsible_group query srpc fuel config key config' v :
  let args := mkGetArgs key in
  let answer r srv := srpc r srv "ShardKV.Get" args in
  let gives r config v := ∃ servers pre srv post rep,
    group_of config key = Some servers ∧ servers = pre ++ srv :: post ∧
    answer r srv = Some rep ∧ g_WrongLeader rep = false ∧
    (g_Err rep = OK ∨ g_Err rep = ErrNoKey) ∧ g_Value rep = v ∧
    ∀ srv' rep', srv' ∈ pre → answer r srv' = Some rep' →
      get_accept rep' = None ∧ g_Err rep' ≠ ErrWrongGroup in
  Get query srpc fuel config key = Some (config', v) ↔
  ∃ n, (n < fuel)%nat ∧ config_at query config n = Some config' ∧ gives n config' v ∧
    ∀ m, (m < n)%nat → ∃ cm, config_at query config m = Some cm ∧ ∀ v', ¬ gives m cm v'.
Proof.
  intros args answer gives. unfold Get. rewrite retry_config_Some.
  assert (Hround : ∀ r c v', (servers ← group_of c key;
      try_servers (λ srv, answer r srv) get_accept
        (λ rep, String.eqb (g_Err rep) ErrWrongGroup) servers) = Some v' ↔ gives r c v').
  { intros r c v'. rewrite bind_Some. unfold gives. split.
    - intros (servers & Hg & (pre & srv & post & rep & -> & Ha & Hacc & Hp)%try_servers_Some).
      exists (pre ++ srv :: post), pre, srv, post, rep. unfold get_accept in Hacc.
      destruct (g_WrongLeader rep) eqn:Hw; [done|].
      destruct (String.eqb_spec (g_Err rep) OK), (String.eqb_spec (g_Err rep) ErrNoKey);
        simplify_eq/=; split_and!; eauto; intros srv' rep' Hin Hr';
        destruct (Hp srv' rep' Hin Hr') as [? ?%String.eqb_neq]; done.
    - intros (servers & pre & srv & post & rep & Hg & -> & Ha & Hw & He & <- & Hp).
      eexists. split; [done|]. apply try_servers_Some. exists pre, srv, post, rep.
      split_and!; try done.
      + unfold get_accept. rewrite Hw. by destruct He as [-> | ->].
      + intros srv' rep' Hin Hr'. destruct (Hp srv' rep' Hin Hr').
        split; [done|]. by apply String.eqb_neq. }
  split; intros (n & Hn & Hc & Hg & Hm); exists n; (split; [done|]); split_and!; try done;
    try (by apply Hround); intros m Hmn; destruct (Hm m Hmn) as (cm & Hcm & Hnone);
    exists cm; (split; [done|]).
  - intros v' Hv'%Hround. assert (None = Some v') by (rewrite <- Hnone; exact Hv'). done.
  - apply eq_None_not_Some. intros [v' Hv']. apply (Hnone v'), Hround. exact Hv'.
Qed.

(** Query returns the configuration of the leader: within [fuel] rounds it
    returns [c] exactly when in some round some server answers as the leader
    with [c] and no server before it in that round, and none in the rounds
    before, answered as the leader. *)
Theorem Query_first_leader {End} (rpc : nat → End → QueryArgs → option QueryReply)
    fuel servers num c :
  let leads r srv c := ∃ rep, rpc r srv (mkQueryArgs num) = Some rep ∧
                              q_WrongLeader rep = false ∧ q_Config rep = c in
  Query rpc fuel servers num = Some c ↔
  ∃ n pre srv post, (n < fuel)%nat ∧ servers = pre ++ srv :: post ∧ leads n srv c ∧
    (∀ srv' c', srv' ∈ pre → ¬ leads n srv' c') ∧
    (∀ m srv' c', (m < n)%nat → srv' ∈ servers → ¬ leads m srv' c').
Proof.
  intros leads. unfold Query.
  set (accept := λ rep, if q_WrongLeader rep then None else Some (q_Config rep)).
  set (round := λ r, try_servers (λ srv, rpc r srv (mkQueryArgs num)) accept (λ _, false) servers).
  assert (Hacc : ∀ rep c', accept rep = Some c' ↔ q_WrongLeader rep = false ∧ q_Config rep = c').
  { intros rep c'. unfold accept. destruct (q_WrongLeader rep); naive_solver. }
  assert (Hnone : ∀ r, round r = None ↔ ∀ srv c', srv ∈ servers → ¬ leads r srv c').
  { intros r. unfold round. split.
    - intros Hn srv c' Hin (rep & Hr & Ha).
      assert (Hex : ∃ a, try_servers (λ srv, rpc r srv (mkQueryArgs num)) accept
                           (λ _, false) servers = Some a); [|destruct Hex; congruence].
      clear Hn. induction servers as [|s ss IH]; [by apply elem_of_nil in Hin|]. cbn.
      destruct (rpc r s (mkQueryArgs num)) as [rep'|] eqn:Hr'.
      + destruct (accept rep') eqn:Ha'; [eauto|].
        apply elem_of_cons in Hin as [->|Hin]; [|by apply IH].
        simplify_eq. apply Hacc in Ha. congruence.
      + apply elem_of_cons in Hin as [->|Hin]; [congruence|by apply IH].
    - intros Hno. destruct (try_servers _ _ _ _) as [a|] eqn:He; [|done].
      apply try_servers_Some in He as (pre & s & post & rep & Hss & Hr & Ha & _).
      exfalso. apply (Hno s a); [rewrite Hss; apply elem_of_app; right; by left|].
      apply Hacc in Ha. by exists rep. }
  split.
  - intros (n & Hn & Hround & Hm)%retry_Some.
    apply try_servers_Some in Hround as (pre & s & post & rep & Hss & Hr & Ha & Hp).
    exists n, pre, s, post. split; [lia|]. split; [done|]. split; [exists rep; by apply Hacc in Ha|].
    split.
    + intros s' c' Hin (rep' & Hr' & Ha'). destruct (Hp s' rep' Hin Hr') as [Hno _].
      apply Hacc in Ha'. congruence.
    + intros m s' c' Hmn. apply Hnone, Hm. lia.
  - intros (n & pre & s & post & Hn & Hss & (rep & Hr & Ha) & Hp & Hm).
    apply (retry_first _ _ _ n); [lia|lia| |].
    + apply try_servers_Some. exists pre, s, post, rep. split_and!; try done; [by apply Hacc|].
      intros s' r' Hin Hr'. split; [|done]. destruct (accept r') as [c'|] eqn:Ha'; [|done].
      exfalso. apply (Hp s' c' Hin). exists r'. by apply Hacc in Ha'.
    + intros m Hmn. apply Hnone. intros. apply Hm; [lia|done].
Qed.
End ClerksProps.
