(* ===== verification/DiskV.v ===== *)
(** * DiskV: the files of the disk-based store

    Models the file helpers of src/src/diskv/server.go as programs over the
    calls they make to the file system.  A disk maps a directory to its files;
    [d + "/key-" + e] is file "key-e" of directory [d], whose name ends in a
    slash (the system ignores the doubled one).  Any call may fail; one that
    writes a file may have written a part of it then, one that removes a
    directory may have removed some files.  A crash of the process leaves the
    disk between two calls of the program, or in the middle of one: only the
    calls on names (Mkdir, Rename) are atomic.  What a loss of power leaves of
    calls that returned is not modelled.  base32 is a pair of functions, with
    the round trip as a hypothesis. *)
From Stdlib Require Import Ascii.
From S2P Require Import Prelude.

Module DiskV.

Notation Files := (gmap string string).
Notation Disk := (gmap string (gmap string string)).

(** ** The file system *)

(** The calls, with what they answer: whether there was no error, or the data. *)
Inductive op : Set → Set :=
| Stat (d : string) : op bool
| Mkdir (d : string) : op bool
| WriteFile (d n content : string) : op bool
| Rename (d n d' n' : string) : op bool
| ReadFile (d n : string) : op (option string)
| ReadDir (d : string) : op (option (list string))
| RemoveAll (d : string) : op bool.

(** What becomes of a call: [FailsAfter k gone] fails half way, WriteFile with
    [k] bytes written, RemoveAll with the files [gone] removed. *)
Inductive fault := NoFault | Fails | FailsAfter (k : nat) (gone : gset string).

Definition read_file (disk : Disk) (d n : string) : option string := disk !! d ≫= (.!! n).
Definition write_file (disk : Disk) (d n content : string) : option Disk :=
  fs ← disk !! d; Some (<[d := <[n:=content]> fs]> disk).
Definition rename (disk : Disk) (d n d' n' : string) : option Disk :=
  c ← read_file disk d n; write_file (alter (delete n) d disk) d' n' c.
Definition remove_files (disk : Disk) (d : string) (gone : gset string) : Disk :=
  alter (filter (λ nc, nc.1 ∉ gone)) d disk.

(** The new disk, or the old one and an error. *)
Definition or_error (disk : Disk) (r : option Disk) : Disk * bool :=
  match r with Some disk => (disk, true) | None => (disk, false) end.

Section diskv.
Context (encode : string → string) (decode : string → option string).
(** The order in which a directory is listed. *)
Context (listing : Files → list string).

(** The field of [DisKV] the helpers use. *)
Context (dir : string).

Definition exec {B} (o : op B) (f : fault) (disk : Disk) : Disk * B :=
  match o in op B return Disk * B with
  | Stat d => (disk, match f, disk !! d with NoFault, Some _ => true | _, _ => false end)
  | Mkdir d =>
      match f, disk !! d with
      | NoFault, None => (<[d:=∅]> disk, true)
      | _, _ => (disk, false)
      end
  | WriteFile d n c =>
      match f with
      | NoFault => or_error disk (write_file disk d n c)
      | Fails => (disk, false)
      | FailsAfter k _ => (default disk (write_file disk d n (String.substring 0 k c)), false)
      end
  | Rename d n d' n' =>
      match f with
      | NoFault => or_error disk (rename disk d n d' n')
      | _ => (disk, false)
      end
  | ReadFile d n => (disk, match f with NoFault => read_file disk d n | _ => None end)
  | ReadDir d => (disk, match f with NoFault => listing <$> disk !! d | _ => None end)
  | RemoveAll d =>
      match f with
      | NoFault => (delete d disk, true)
      | Fails => (disk, false)
      | FailsAfter _ gone => (remove_files disk d gone, false)
      end
  end.

(** The disks a crash in the middle of a call may leave. *)
Definition mid {B} (o : op B) (disk disk' : Disk) : Prop :=
  match o with
  | WriteFile d n c => ∃ k, write_file disk d n (String.substring 0 k c) = Some disk'
  | RemoveAll d => ∃ gone, disk' = remove_files disk d gone
  | _ => False
  end.

(** ** Programs: calls, and what is done with the answers *)

Inductive prog (A : Type) : Type :=
| Ret (r : res A)
| Do (B : Set) (o : op B) (k : B → prog A).
#[local] Arguments Ret {A} _.
#[local] Arguments Do {A B} _ _.

#[local] Instance prog_ret : MRet prog := λ A a, Ret (Ok a).
#[local] Instance prog_bind : MBind prog := λ A B f,
  fix go p := match p with
              | Ret (Ok a) => f a
              | Ret Panic => Ret Panic
              | Ret Fatal => Ret Fatal
              | Do o k => Do o (λ b, go (k b))
              end.
Definition call {B} (o : op B) : prog B := Do o mret.

(** [fs]: what becomes of each of the calls; those after the last succeed. *)
Fixpoint run {A} (p : prog A) (fs : list fault) (disk : Disk) : Disk * res A :=
  match p with
  | Ret r => (disk, r)
  | Do o k => let '(disk, b) := exec o (hd NoFault fs) disk in run (k b) (tail fs) disk
  end.

(** The disks a crash during the run may leave. *)
Fixpoint crashed {A} (p : prog A) (fs : list fault) (disk disk' : Disk) : Prop :=
  disk' = disk ∨
  match p with
  | Ret _ => False
  | Do o k =>
      mid o disk disk' ∨
      let '(disk, b) := exec o (hd NoFault fs) disk in crashed (k b) (tail fs) disk disk'
  end.

(** ** The helpers *)

(*@ src/src/diskv/server.go 60-60 DisKV.shardDir (name) *)
Definition shard_path (shard : Z) : string := dir +:+ "/shard-" +:+ Itoa shard +:+ "/".

(** Creates the directory if needed. *)
(*@ src/src/diskv/server.go 59-69 DisKV.shardDir *)
Definition shardDir (shard : Z) : prog string :=
  let d := shard_path shard in
  found ← call (Stat d);
  if (found : bool) then mret d
  else
    made ← call (Mkdir d);
    if (made : bool) then mret d else Ret Fatal.

(*@ src/src/diskv/server.go 76-78 DisKV.encodeKey *)
Definition encodeKey (key : string) : string := encode key.

(*@ src/src/diskv/server.go 80-83 DisKV.decodeKey *)
Definition decodeKey (filename : string) : option string := decode filename.

Definition key_name (key : string) : string := "key-" +:+ encodeKey key.
Definition temp_name (key : string) : string := "temp-" +:+ encodeKey key.

(** The content, [None] for an error. *)
(*@ src/src/diskv/server.go 86-90 DisKV.fileGet *)
Definition fileGet (shard : Z) (key : string) : prog (option string) :=
  d ← shardDir shard;
  call (ReadFile d (key_name key)).

(** Whether there was no error. *)
(*@ src/src/diskv/server.go 95-105 DisKV.filePut *)
Definition filePut (shard : Z) (key content : string) : prog bool :=
  d ← shardDir shard;
  d' ← shardDir shard;
  ok ← call (WriteFile d' (temp_name key) content);
  if negb ok then mret false
  else
    ok ← call (Rename d' (temp_name key) d (key_name key));
    if negb ok then mret false
    else mret true.

(** One file of the directory. *)
(*@ src/src/diskv/server.go 115-128 DisKV.fileReadShard (loop) *)
Definition read_entry (shard : Z) (m : Files) (n1 : string) : prog Files :=
  if (String.length n1 <? 4)%nat then Ret Panic
  else if String.eqb (String.substring 0 4 n1) "key-" then
    match decodeKey (String.substring 4 (String.length n1 - 4) n1) with
    | None => Ret Fatal
    | Some key =>
        content ← fileGet shard key;
        match content with
        | None => Ret Fatal
        | Some c => mret (<[key:=c]> m)
        end
    end
  else mret m.

Fixpoint read_entries (shard : Z) (m : Files) (ns : list string) : prog Files :=
  match ns with
  | [] => mret m
  | n :: ns => m ← read_entry shard m n; read_entries shard m ns
  end.

(*@ src/src/diskv/server.go 108-130 DisKV.fileReadShard *)
Definition fileReadShard (shard : Z) : prog Files :=
  d ← shardDir shard;
  files ← call (ReadDir d);
  match files with
  | None => Ret Fatal
  | Some ns => read_entries shard ∅ ns
  end.

(** The errors of filePut are dropped. *)
Fixpoint put_all (shard : Z) (kvs : list (string * string)) : prog unit :=
  match kvs with
  | [] => mret ()
  | (k, v) :: kvs => filePut shard k v ≫= λ _, put_all shard kvs
  end.

(** [iter] is the order in which the map is visited.  The error of RemoveAll is
    dropped. *)
(*@ src/src/diskv/server.go 133-139 DisKV.fileReplaceShard *)
Definition fileReplaceShard (iter : Files → list (string * string)) (shard : Z) (m : Files) :
    prog unit :=
  d ← shardDir shard;
  call (RemoveAll d) ≫= λ _, put_all shard (iter m).

(** ** Reasoning about runs and crashes *)

(** [wpc ok p Qc Q disk]: if what becomes of the calls of [p] satisfies [ok],
    every disk a crash leaves satisfies [Qc], and the result [Q]. *)
Fixpoint wpc {A} (ok : fault → Prop) (p : prog A) (Qc : Disk → Prop)
    (Q : Disk → res A → Prop) (disk : Disk) : Prop :=
  Qc disk ∧
  match p with
  | Ret r => Q disk r
  | Do o k =>
      (∀ disk', mid o disk disk' → Qc disk') ∧
      ∀ f, ok f → wpc ok (k (exec o f disk).2) Qc Q (exec o f disk).1
  end.

Lemma wpc_sound {A} ok (p : prog A) Qc Q fs disk :
  ok NoFault → Forall ok fs → wpc ok p Qc Q disk →
  (∀ disk', crashed p fs disk disk' → Qc disk') ∧ Q (run p fs disk).1 (run p fs disk).2.
Proof.
  intros H0. revert fs disk. induction p as [r|B o k IH]; intros fs disk Hfs; cbn.
  { intros [Hc HQ]. split; [|done]. by intros disk' [->|[]]. }
  intros (Hc & Hmid & Hk).
  assert (Hf : ok (hd NoFault fs)) by (destruct fs; [done|by apply Forall_cons in Hfs as [? _]]).
  assert (Ht : Forall ok (tail fs)) by (destruct fs; [done|by apply Forall_cons in Hfs as [_ ?]]).
  specialize (Hk _ Hf). destruct (exec o (hd NoFault fs) disk) as [disk1 b]. cbn in Hk.
  destruct (IH b _ _ Ht Hk) as [H1 H2]. split; [|done].
  intros disk' [->|[Hm|Hr]]; auto.
Qed.

Lemma wpc_crash {A} ok (p : prog A) Qc Q disk : wpc ok p Qc Q disk → Qc disk.
Proof. destruct p; by intros [? _]. Qed.

Lemma wpc_mono {A} ok (p : prog A) (Qc Qc' : Disk → Prop) (Q Q' : Disk → res A → Prop) disk :
  (∀ d, Qc d → Qc' d) → (∀ d r, Qc d → Q d r → Q' d r) →
  wpc ok p Qc Q disk → wpc ok p Qc' Q' disk.
Proof.
  intros Hc HQ. revert disk. induction p as [r|B o k IH]; intros disk; cbn; [naive_solver|].
  intros (? & ? & ?). split_and!; auto.
Qed.

Lemma wpc_bind {A B} ok (p : prog A) (f : A → prog B) Qc Q disk :
  wpc ok p Qc (λ d r, match r with
                      | Ok a => wpc ok (f a) Qc Q d
                      | Panic => Q d Panic
                      | Fatal => Q d Fatal
                      end) disk →
  wpc ok (p ≫= f) Qc Q disk.
Proof.
  revert disk. induction p as [[a| |]|C o k IH]; intros disk; cbn; [by intros [_ ?]|done|done|].
  intros (? & ? & Hk). split_and!; [done|done|]. intros g Hg. by apply IH, Hk.
Qed.

(** ** What the helpers leave alone *)

Definition files (disk : Disk) (shard : Z) : Files := default ∅ (disk !! shard_path shard).
Definition stored (disk : Disk) (shard : Z) (key : string) : option string :=
  files disk shard !! key_name key.

(** The files with names of keys are as they were, and so are other directories;
    every new file has the name of a temporary file. *)
Definition quiet (shard : Z) (disk disk' : Disk) : Prop :=
  (∀ d, d ≠ shard_path shard → disk' !! d = disk !! d) ∧
  (∀ n, files disk' shard !! n = files disk shard !! n ∨ ∃ k, n = temp_name k).

(** The same, but for the file of the key. *)
Definition wrote (shard : Z) (key content : string) (disk disk' : Disk) : Prop :=
  (∀ d, d ≠ shard_path shard → disk' !! d = disk !! d) ∧
  stored disk' shard key = Some content ∧
  (∀ n, files disk' shard !! n = files disk shard !! n ∨ n = key_name key ∨
        ∃ k, n = temp_name k).

Definition faulty (ok : fault → Prop) : Prop := ∃ f, ok f ∧ f ≠ NoFault.

Lemma faulty_any : faulty (λ _, True).
Proof. by exists Fails. Qed.
Lemma not_faulty : ¬ faulty (eq NoFault).
Proof. intros (f & <- & ?). done. Qed.

(** The disk with the directory of the shard. *)
Definition ensured (disk : Disk) (shard : Z) : Disk :=
  match disk !! shard_path shard with
  | Some _ => disk
  | None => <[shard_path shard := ∅]> disk
  end.

Lemma ensured_has disk shard :
  ensured disk shard !! shard_path shard = Some (files disk shard).
Proof.
  unfold ensured, files. destruct (disk !! shard_path shard) eqn:E; [by rewrite E|].
  by rewrite lookup_insert_eq.
Qed.

Lemma ensured_other disk shard d :
  d ≠ shard_path shard → ensured disk shard !! d = disk !! d.
Proof.
  intros Hd. unfold ensured. destruct (disk !! shard_path shard); [done|].
  by rewrite lookup_insert_ne.
Qed.

Lemma ensured_files disk shard : files (ensured disk shard) shard = files disk shard.
Proof. unfold files at 1. by rewrite ensured_has. Qed.

Lemma ensured_ensured disk shard : ensured (ensured disk shard) shard = ensured disk shard.
Proof. unfold ensured at 1. by rewrite ensured_has. Qed.

Lemma quiet_refl shard disk : quiet shard disk disk.
Proof. split; [done|by left]. Qed.

Lemma quiet_ensured shard disk : quiet shard disk (ensured disk shard).
Proof. split; [intros; by apply ensured_other|left; by rewrite ensured_files]. Qed.

Lemma quiet_trans shard d1 d2 d3 : quiet shard d1 d2 → quiet shard d2 d3 → quiet shard d1 d3.
Proof.
  intros [H1 H2] [H3 H4]. split; [intros; rewrite H3 by done; auto|]. intros n.
  destruct (H4 n) as [->|?]; [apply H2|by right].
Qed.

Lemma files_write disk shard n c disk' :
  write_file disk (shard_path shard) n c = Some disk' →
  files disk' shard = <[n:=c]> (files disk shard) ∧
  ∀ d, d ≠ shard_path shard → disk' !! d = disk !! d.
Proof.
  unfold write_file, files. destruct (disk !! shard_path shard) as [fs|]; [|done].
  cbn. intros [= <-]. rewrite lookup_insert_eq. split; [done|].
  intros d Hd. by rewrite lookup_insert_ne.
Qed.

Lemma quiet_temp shard disk k part disk' :
  write_file disk (shard_path shard) (temp_name k) part = Some disk' → quiet shard disk disk'.
Proof.
  intros [Hf Ho]%files_write. split; [done|]. intros n. rewrite Hf.
  destruct (decide (temp_name k = n)) as [<-|Hne]; [right; eauto|left].
  by rewrite lookup_insert_ne.
Qed.

Lemma wpc_shardDir ok disk shard :
  wpc ok (shardDir shard) (λ d, d = disk ∨ d = ensured disk shard)
    (λ d r, (r = Ok (shard_path shard) ∧ d = ensured disk shard) ∨
            (faulty ok ∧ d = disk ∧ r = Fatal)) disk.
Proof.
  assert (Hbad : ∀ f, ok f → f ≠ NoFault → faulty ok) by (intros f ??; by exists f).
  cbn. unfold ensured. split_and!; [by left|done|]. intros f Hf.
  destruct (disk !! shard_path shard) eqn:E; destruct f; cbn; rewrite ?E;
    (split; [by auto|]); auto.
  all: split; [done|]; intros h Hh; destruct h; cbn; rewrite ?E; cbn; rewrite ?E;
    (split; [by auto|]); eauto 10.
Qed.

Lemma temp_key_ne k k' : temp_name k ≠ key_name k'.
Proof. done. Qed.

Lemma rename_spec disk shard k content fs :
  disk !! shard_path shard = Some fs → fs !! temp_name k = Some content →
  ∃ disk', rename disk (shard_path shard) (temp_name k) (shard_path shard) (key_name k) =
             Some disk' ∧ wrote shard k content disk disk'.
Proof.
  intros Hd Hc. unfold rename, read_file. rewrite Hd. cbn. rewrite Hc. cbn.
  unfold write_file. rewrite lookup_alter_eq, Hd. cbn. eexists. split; [done|].
  unfold wrote, stored, files. rewrite lookup_insert_eq. cbn. split_and!.
  - intros d Hne. by rewrite lookup_insert_ne, lookup_alter_ne by done.
  - by rewrite lookup_insert_eq.
  - intros n. destruct (decide (n = key_name k)) as [?|Hk]; [by right; left|].
    destruct (decide (n = temp_name k)) as [?|Ht]; [right; right; eauto|]. left.
    by rewrite lookup_insert_ne, lookup_delete_ne, Hd by done.
Qed.

Lemma wrote_quiet shard key content d1 d2 d3 :
  quiet shard d1 d2 → wrote shard key content d2 d3 → wrote shard key content d1 d3.
Proof.
  intros [H1 H2] (H3 & H4 & H5). split_and!; [|done|].
  - intros d Hd. rewrite H3 by done. auto.
  - intros n. destruct (H5 n) as [->|?]; [|tauto]. destruct (H2 n); tauto.
Qed.

(** A put leaves every other file with the name of a key as it was, and writes
    the key's file as a whole or not at all; only if it does, it succeeds. *)
Lemma wpc_filePut ok shard key content disk :
  wpc ok (filePut shard key content)
    (λ d, quiet shard disk d ∨ wrote shard key content disk d)
    (λ d r, (r = Ok true ∧ wrote shard key content disk d) ∨
            (faulty ok ∧ quiet shard disk d ∧ (r = Ok false ∨ r = Fatal))) disk.
Proof.
  pose proof (quiet_ensured shard disk) as Hq0. pose proof (ensured_has disk shard) as Hd.
  unfold filePut. apply wpc_bind. eapply wpc_mono; [| |apply wpc_shardDir].
  { intros d [->| ->]; left; [apply quiet_refl|done]. }
  intros d r _ [[-> ->]|(? & -> & ->)]; [|right; eauto using quiet_refl].
  apply wpc_bind. eapply wpc_mono; [| |apply wpc_shardDir].
  { rewrite ensured_ensured. intros d [->| ->]; by left. }
  rewrite ensured_ensured. intros d r _ [[-> ->]|(? & -> & ->)]; [|right; eauto].
  set (disk1 := ensured disk shard) in *. clearbody disk1. cbn. split; [by left|]. split.
  { intros disk' (k & Hw). left. eapply quiet_trans; [done|by eapply quiet_temp]. }
  assert (Hbad : ∀ f, ok f → f ≠ NoFault → faulty ok) by (intros f ??; by exists f).
  intros f Hf.
  destruct (write_file disk1 (shard_path shard) (temp_name key) content) as [disk2|] eqn:Hw;
    [|by unfold write_file in Hw; rewrite Hd in Hw].
  destruct f as [| |k gone]; cbn.
  - assert (Hq : quiet shard disk disk2) by (eapply quiet_trans; [done|by eapply quiet_temp]).
    split; [by left|]. split; [done|]. intros g Hg.
    destruct (rename_spec disk2 shard key content (<[temp_name key:=content]> (files disk shard)))
      as (disk3 & Hr & Hwr).
    { unfold write_file in Hw. rewrite Hd in Hw. injection Hw as <-. by rewrite lookup_insert_eq. }
    { by rewrite lookup_insert_eq. }
    apply (wrote_quiet shard key content disk disk2 disk3 Hq) in Hwr.
    destruct g; cbn; rewrite ?Hr; (split; [by auto|]);
      first [by left|right; split_and!; [by eapply Hbad|done|by left]].
  - split; [by left|]. right. eauto 10.
  - assert (Hq : quiet shard disk (default disk1
      (write_file disk1 (shard_path shard) (temp_name key) (String.substring 0 k content)))).
    { destruct (write_file disk1 (shard_path shard) (temp_name key) (String.substring 0 k content))
        as [disk3|] eqn:Hw'; [|done].
      eapply quiet_trans; [done|by apply quiet_temp in Hw']. }
    split; [by left|]. right. eauto 10.
Qed.

(** ** Reading *)

Lemma wpc_fileGet ok shard key disk :
  wpc ok (fileGet shard key) (quiet shard disk)
    (λ d r, quiet shard disk d ∧
       (r = Ok (stored disk shard key) ∨ faulty ok ∧ (r = Ok None ∨ r = Fatal))) disk.
Proof.
  pose proof (quiet_ensured shard disk) as Hq. unfold fileGet.
  apply wpc_bind. eapply wpc_mono; [| |apply wpc_shardDir].
  { intros d [->| ->]; [apply quiet_refl|done]. }
  intros d r _ [[-> ->]|(? & -> & ->)]; [|split; [apply quiet_refl|auto]].
  cbn. split; [done|]. split; [done|].
  intros f Hf. assert (Hbad : f ≠ NoFault → faulty ok) by (intros ?; by exists f).
  unfold stored. rewrite <- (ensured_files disk shard). unfold read_file, files.
  destruct f; cbn; split_and!; auto. left. by rewrite ensured_has.
Qed.

(** What the key's file holds, as fileGet reads it when nothing fails. *)
Definition reads (disk : Disk) (shard : Z) (key : string) : res (option string) :=
  (run (fileGet shard key) [] disk).2.

Lemma reads_stored disk shard key : reads disk shard key = Ok (stored disk shard key).
Proof.
  destruct (wpc_sound (eq NoFault) _ _ _ [] disk eq_refl (List.Forall_nil _)
    (wpc_fileGet _ shard key disk)) as [_ [_ [H|[H _]]]]; [done|].
  by destruct not_faulty.
Qed.

Lemma shard_path_inj i j : shard_path i = shard_path j → i = j.
Proof.
  unfold shard_path. intros H%string_app_inj_l%string_app_inj_l.
  change "/" with (String "/"%char "") in H.
  apply string_split_inj in H as [H%(inj Itoa) _]; [done|..];
    (intros [[Hd%Nat.leb_le _]|Hd]%Itoa_numeral; done).
Qed.

Lemma stored_other disk disk' shard shard' key :
  (∀ d, d ≠ shard_path shard → disk' !! d = disk !! d) → shard' ≠ shard →
  stored disk' shard' key = stored disk shard' key.
Proof.
  intros Ho Hs. unfold stored, files. rewrite Ho; [done|]. by intros ?%shard_path_inj.
Qed.

Lemma quiet_stored disk disk' shard shard' key :
  quiet shard disk disk' → stored disk' shard' key = stored disk shard' key.
Proof.
  intros [Ho Hf]. destruct (decide (shard' = shard)) as [->|Hs]; [|by eapply stored_other].
  unfold stored. by destruct (Hf (key_name key)) as [?|[k ?]].
Qed.

Hypothesis decode_encode : ∀ k, decode (encode k) = Some k.

Lemma key_name_inj k k' : key_name k = key_name k' → k = k'.
Proof.
  unfold key_name, encodeKey. intros H%string_app_inj_l.
  pose proof (decode_encode k) as Hk. rewrite H, decode_encode in Hk. by injection Hk.
Qed.

Lemma wrote_stored disk disk' shard shard' key key' content :
  wrote shard key content disk disk' →
  stored disk' shard' key' =
    if decide (shard' = shard ∧ key' = key) then Some content else stored disk shard' key'.
Proof.
  intros (Ho & Hs & Hf). case_decide as Hd; [by destruct Hd as [-> ->]|].
  destruct (decide (shard' = shard)) as [->|Hne]; [|by eapply stored_other].
  unfold stored. destruct (Hf (key_name key')) as [?|[?%key_name_inj|[k ?]]]; [done| |done].
  by destruct Hd.
Qed.

(** ** Theorems *)

(** C38. filePut is atomic and honest about errors: whichever of its calls to
    the file system fail, if it succeeds every key of every shard reads as before
    except the one written, and if it returns an error or exits because it cannot
    make the directory, every key reads as before; it succeeds if no call fails.
    Whatever point a crash hits, in the middle of a write or between two calls,
    either every key of every shard reads as before, or the put is complete:
    never a part of the contents. *)
Theorem filePut_atomic fs disk shard key content :
  let after shard' key' :=
    if decide (shard' = shard ∧ key' = key) then Ok (Some content)
    else reads disk shard' key' in
  let '(disk1, r) := run (filePut shard key content) fs disk in
  (r = Ok true ∧ (∀ shard' key', reads disk1 shard' key' = after shard' key') ∨
   (r = Ok false ∨ r = Fatal) ∧
   (∀ shard' key', reads disk1 shard' key' = reads disk shard' key')) ∧
  (Forall (eq NoFault) fs → r = Ok true) ∧
  ∀ disk', crashed (filePut shard key content) fs disk disk' →
    (∀ shard' key', reads disk' shard' key' = reads disk shard' key') ∨
    (∀ shard' key', reads disk' shard' key' = after shard' key').
Proof.
  intros after. pose proof (λ ok, wpc_filePut ok shard key content disk) as Hw.
  destruct (wpc_sound (λ _, True) _ _ _ fs disk I (Forall_true _ _ (λ _, I)) (Hw _)) as [Hc Hr].
  pose proof (λ H, proj2 (wpc_sound (eq NoFault) _ _ _ fs disk eq_refl H (Hw _))) as Hok.
  destruct (run (filePut shard key content) fs disk) as [disk1 r]. cbn in Hr, Hok.
  assert (Hq : ∀ d, quiet shard disk d → ∀ s k, reads d s k = reads disk s k).
  { intros d Hd s k. rewrite !reads_stored. by erewrite quiet_stored. }
  assert (Ha : ∀ d, wrote shard key content disk d → ∀ s k, reads d s k = after s k).
  { intros d Hd s k. unfold after. rewrite !reads_stored, (wrote_stored _ _ _ s key k _ Hd).
    by case_decide. }
  split_and!.
  - destruct Hr as [[? ?]|(_ & ? & ?)]; [left|right]; auto.
  - intros H. destruct (Hok H) as [[? _]|[Hf _]]; [done|by destruct not_faulty].
  - intros disk' [H|H]%Hc; auto.
Qed.

(** ** Whole shards *)

(** Every file of the directory has the name of a key's file or of a temporary one. *)
Definition names_ok (shard : Z) (disk : Disk) : Prop :=
  ∀ n, is_Some (files disk shard !! n) → (∃ k, n = key_name k) ∨ (∃ k, n = temp_name k).

(** The directory holds exactly the pairs [m], and perhaps temporary files. *)
Definition shard_holds (shard : Z) (m : Files) (disk : Disk) : Prop :=
  names_ok shard disk ∧ ∀ k, stored disk shard k = m !! k.

(** Every key has the content [m] gives it, or its content in [disk0], or none. *)
Definition mixed (shard : Z) (m : Files) (disk0 disk : Disk) : Prop :=
  (∀ d, d ≠ shard_path shard → disk !! d = disk0 !! d) ∧
  (names_ok shard disk0 → names_ok shard disk) ∧
  ∀ k, stored disk shard k = m !! k ∨ stored disk shard k = stored disk0 shard k ∨
       stored disk shard k = None.

Lemma names_quiet shard d d' : quiet shard d d' → names_ok shard d → names_ok shard d'.
Proof. intros [_ Hq] Hn n Hs. destruct (Hq n) as [E|?]; [apply Hn; by rewrite <- E|by right]. Qed.

Lemma names_wrote shard k v d d' : wrote shard k v d d' → names_ok shard d → names_ok shard d'.
Proof.
  intros (_ & _ & Hq) Hn n Hs. destruct (Hq n) as [E|[?|?]]; [|left; eauto|by right].
  apply Hn. by rewrite <- E.
Qed.

Lemma holds_wrote shard k v m d d' :
  wrote shard k v d d' → shard_holds shard m d → shard_holds shard (<[k:=v]> m) d'.
Proof.
  intros Hw [Hn Hm]. split; [by eapply names_wrote|]. intros k'.
  rewrite (wrote_stored _ _ _ shard k k' _ Hw), Hm.
  destruct (decide (k = k')) as [->|Hne]; [by rewrite lookup_insert_eq, decide_True|].
  by rewrite lookup_insert_ne, decide_False by naive_solver.
Qed.

Lemma mixed_quiet shard m disk0 d d' :
  quiet shard d d' → mixed shard m disk0 d → mixed shard m disk0 d'.
Proof.
  intros Hq (Ho & Hn & Hs). split_and!.
  - intros p Hp. rewrite (proj1 Hq) by done. auto.
  - intros H0. eapply names_quiet; eauto.
  - intros k. rewrite (quiet_stored _ _ _ shard k Hq). apply Hs.
Qed.

Lemma mixed_wrote shard m disk0 d d' k v :
  m !! k = Some v → wrote shard k v d d' → mixed shard m disk0 d → mixed shard m disk0 d'.
Proof.
  intros Hk Hw (Ho & Hn & Hs). split_and!.
  - intros p Hp. rewrite (proj1 Hw) by done. auto.
  - intros H0. eapply names_wrote; eauto.
  - intros k'. rewrite (wrote_stored _ _ _ shard k k' _ Hw). case_decide as E; [|apply Hs].
    destruct E as [_ ->]. auto.
Qed.

Lemma mixed_remove shard m disk0 d gone :
  mixed shard m disk0 d → mixed shard m disk0 (remove_files d (shard_path shard) gone).
Proof.
  assert (Hf : ∀ n, files (remove_files d (shard_path shard) gone) shard !! n =
                    files d shard !! n ∨
                    files (remove_files d (shard_path shard) gone) shard !! n = None).
  { intros n. unfold files, remove_files. rewrite lookup_alter_eq.
    destruct (d !! shard_path shard) as [fs|]; cbn; [|by right].
    destruct (decide (n ∈ gone)) as [Hin|Hin].
    - right. rewrite map_lookup_filter_None. right. intros c _ Hc. by apply Hc.
    - left. destruct (fs !! n) as [c|] eqn:E.
      + by rewrite map_lookup_filter_Some.
      + rewrite map_lookup_filter_None. by left. }
  intros (Ho & Hn & Hs). split_and!.
  - intros p Hp. unfold remove_files. rewrite lookup_alter_ne by done. auto.
  - intros H0 n Hin. apply Hn; [done|]. destruct (Hf n) as [E|E]; rewrite E in Hin; [done|].
    by destruct Hin.
  - intros k. unfold stored at 1 2 4. destruct (Hf (key_name k)) as [->| ->]; [apply Hs|auto].
Qed.

Lemma wpc_put_all_mixed ok shard (m : Files) disk0 kvs disk :
  (∀ k v, (k, v) ∈ kvs → m !! k = Some v) → mixed shard m disk0 disk →
  wpc ok (put_all shard kvs) (mixed shard m disk0)
    (λ d r, mixed shard m disk0 d ∧ (r = Ok () ∨ r = Fatal)) disk.
Proof.
  revert disk. induction kvs as [|[k v] kvs IH]; intros disk Hm Hd; cbn [put_all].
  { split; auto. }
  assert (Hk : m !! k = Some v) by (apply Hm; by left).
  apply wpc_bind. eapply wpc_mono; [| |apply wpc_filePut].
  { intros d [Hq|Hw]; [by eapply mixed_quiet|by eapply mixed_wrote]. }
  assert (IH' : ∀ d, mixed shard m disk0 d → wpc ok (put_all shard kvs) (mixed shard m disk0)
    (λ d r, mixed shard m disk0 d ∧ (r = Ok () ∨ r = Fatal)) d).
  { intros d ?. apply IH; [|done]. intros k' v' ?. apply Hm. by right. }
  intros d r _ [[-> Hw]|(_ & Hq & Hr)]; [by eapply IH', mixed_wrote|].
  destruct Hr as [->| ->]; [by eapply IH', mixed_quiet|].
  split; [by eapply mixed_quiet|by right].
Qed.

Definition insert_all (m : Files) (kvs : list (string * string)) : Files :=
  foldl (λ m '(k, v), <[k:=v]> m) m kvs.

Lemma wpc_put_all_exact shard m kvs disk :
  shard_holds shard m disk →
  wpc (eq NoFault) (put_all shard kvs) (λ _, True)
    (λ d r, shard_holds shard (insert_all m kvs) d ∧ r = Ok ()) disk.
Proof.
  revert m disk. induction kvs as [|[k v] kvs IH]; intros m disk Hd; cbn [put_all]; [done|].
  apply wpc_bind. eapply wpc_mono; [done| |apply wpc_filePut].
  intros d r _ [[-> Hw]|[Hf _]]; [|by destruct not_faulty].
  apply (IH (<[k:=v]> m)). by eapply holds_wrote.
Qed.

Lemma foldl_insert_perm (m : Files) kvs :
  kvs ≡ₚ map_to_list m → insert_all ∅ kvs = m.
Proof.
  unfold insert_all. intros Hp. assert (Hnd : NoDup kvs.*1) by (rewrite Hp; apply NoDup_fst_map_to_list).
  transitivity (list_to_map (M:=Files) kvs).
  - assert (Hg : ∀ m0 : Files, foldl (λ (m : Files) '(k, v), <[k:=v]> m) m0 kvs =
                   list_to_map kvs ∪ m0).
    { clear Hp. induction kvs as [|[k v] kvs IH]; intros m0; cbn; [by rewrite (left_id_L ∅ (∪))|].
      apply NoDup_cons in Hnd as [Hk Hnd]. rewrite (IH Hnd).
      assert (Hnone : (list_to_map kvs : Files) !! k = None).
      { apply not_elem_of_list_to_map_1. exact Hk. }
      rewrite <- (insert_union_r _ _ _ _ Hnone).
      by rewrite insert_union_l. }
    rewrite Hg. apply (right_id_L ∅ (∪)).
  - rewrite <- (list_to_map_to_list m). by apply list_to_map_proper.
Qed.

Lemma wpc_fileReplaceShard_mixed ok iter shard m disk :
  iter m ≡ₚ map_to_list m →
  wpc ok (fileReplaceShard iter shard m) (mixed shard m disk)
    (λ d r, mixed shard m disk d ∧ (r = Ok () ∨ r = Fatal)) disk.
Proof.
  intros Hit. assert (H0 : mixed shard m disk disk) by (split_and!; auto).
  pose proof (mixed_quiet _ _ _ _ _ (quiet_ensured shard disk) H0) as H1.
  unfold fileReplaceShard. apply wpc_bind. eapply wpc_mono; [| |apply wpc_shardDir].
  { by intros d [->| ->]. }
  intros d r _ [[-> ->]|(? & -> & ->)]; [|auto].
  assert (Hput : ∀ d, mixed shard m disk d →
    wpc ok (put_all shard (iter m)) (mixed shard m disk)
      (λ d r, mixed shard m disk d ∧ (r = Ok () ∨ r = Fatal)) d).
  { intros d Hd. apply wpc_put_all_mixed; [|done]. intros k v. rewrite Hit.
    apply elem_of_map_to_list. }
  change (call (RemoveAll (shard_path shard)) ≫= λ _, put_all shard (iter m)) with
    (Do (RemoveAll (shard_path shard)) (λ _, put_all shard (iter m))).
  split; [done|]. split.
  { intros disk' [gone ->]. by apply mixed_remove. }
  intros f _. apply Hput. destruct f; cbn; [|done|by apply mixed_remove].
  destruct H1 as (Ho & Hn & Hs). split_and!.
  - intros p Hp. rewrite lookup_delete_ne by done. auto.
  - intros _ n [c Hc]. unfold files in Hc. by rewrite lookup_delete_eq in Hc.
  - intros k. right. right. unfold stored, files. by rewrite lookup_delete_eq.
Qed.

Lemma wpc_fileReplaceShard_exact iter shard m disk :
  iter m ≡ₚ map_to_list m →
  wpc (eq NoFault) (fileReplaceShard iter shard m) (λ _, True)
    (λ d r, shard_holds shard m d ∧ r = Ok ()) disk.
Proof.
  intros Hit. unfold fileReplaceShard. apply wpc_bind. eapply wpc_mono; [done| |apply wpc_shardDir].
  intros d r _ [[-> ->]|[Hf _]]; [|by destruct not_faulty].
  change (call (RemoveAll (shard_path shard)) ≫= λ _, put_all shard (iter m)) with
    (Do (RemoveAll (shard_path shard)) (λ _, put_all shard (iter m))).
  split; [done|]. split; [done|]. intros f <-. eapply wpc_mono; [done| |apply (wpc_put_all_exact shard ∅)].
  { intros d r _. by rewrite (foldl_insert_perm m (iter m)). }
  cbn. split.
  - intros n [c Hc]. unfold files in Hc. by rewrite lookup_delete_eq in Hc.
  - intros k. unfold stored, files. by rewrite lookup_delete_eq.
Qed.

(** ** Reading a shard *)

Lemma wpc_read_key ok shard m k disk :
  wpc ok (read_entry shard m (key_name k)) (quiet shard disk)
    (λ d r, quiet shard disk d ∧
       (match stored disk shard k with Some c => r = Ok (<[k:=c]> m) | None => r = Fatal end ∨
        faulty ok ∧ r = Fatal)) disk.
Proof.
  unfold read_entry. unfold key_name at 1 2 3 4.
  change ("key-" +:+ encodeKey k) with
    (String "k" (String "e" (String "y" (String "-" (encodeKey k))))).
  cbn [String.length Nat.ltb Nat.leb]. cbn [String.substring String.eqb Ascii.eqb Bool.eqb].
  replace (String.eqb _ _) with true.
  2:{ symmetry. apply String.eqb_eq. destruct (encodeKey k); done. }
  replace (S (S (S (S (String.length (encodeKey k))))) - 4)%nat
    with (String.length (encodeKey k)) by lia.
  rewrite substring_all by done. unfold decodeKey, encodeKey. rewrite decode_encode.
  apply wpc_bind. eapply wpc_mono; [done| |apply wpc_fileGet].
  intros d r _ [Hq [->|[Hf [->| ->]]]]; [|by split; [|split; [|right]]|by split; [|right]].
  destruct (stored disk shard k); (split; [done|]); split; auto.
Qed.

Lemma wpc_read_temp ok shard m k disk :
  wpc ok (read_entry shard m (temp_name k)) (quiet shard disk)
    (λ d r, quiet shard disk d ∧ r = Ok m) disk.
Proof.
  unfold read_entry. unfold temp_name at 1 2.
  change ("temp-" +:+ encodeKey k) with
    (String "t" (String "e" (String "m" (String "p" (String "-" (encodeKey k)))))).
  cbn [String.length Nat.ltb Nat.leb String.substring String.eqb Ascii.eqb Bool.eqb].
  split; [apply quiet_refl|]. split; [apply quiet_refl|done].
Qed.

Lemma wpc_read_entries ok shard disk0 ns acc disk :
  quiet shard disk0 disk →
  (∀ n, n ∈ ns → (∃ k c, n = key_name k ∧ stored disk0 shard k = Some c) ∨
                 (∃ k, n = temp_name k)) →
  wpc ok (read_entries shard acc ns) (quiet shard disk0)
    (λ d r, quiet shard disk0 d ∧
       ((∃ acc', r = Ok acc' ∧ ∀ k, acc' !! k =
           if decide (key_name k ∈ ns) then stored disk0 shard k else acc !! k) ∨
        faulty ok ∧ r = Fatal)) disk.
Proof.
  revert acc disk. induction ns as [|n ns IH]; intros acc disk Hq Hns; cbn [read_entries].
  { split; [done|]. split; [done|]. left. exists acc. split; [done|]. intros k.
    by rewrite decide_False by apply not_elem_of_nil. }
  assert (Hns' : ∀ n, n ∈ ns → (∃ k c, n = key_name k ∧ stored disk0 shard k = Some c) ∨
                               (∃ k, n = temp_name k)) by (intros n' ?; apply Hns; by right).
  apply wpc_bind. destruct (Hns n) as [(k & c & -> & Hc)|[k ->]]; [by left| |].
  - eapply wpc_mono; [| |apply wpc_read_key]; [intros; by eapply quiet_trans|].
    rewrite (quiet_stored _ _ _ shard k Hq), Hc.
    intros d r _ [Hq' [->|[Hf ->]]]; [|split; [by eapply quiet_trans|by right]].
    eapply wpc_mono; [done| |apply IH; [by eapply quiet_trans|done]].
    intros d' r' _ [Hq2 [(acc' & -> & Hacc)|?]]; (split; [done|]); [left|by right].
    exists acc'. split; [done|]. intros k'. rewrite Hacc.
    destruct (decide (key_name k' ∈ ns)); [by rewrite decide_True by (by right)|].
    destruct (decide (k = k')) as [->|Hne].
    + by rewrite lookup_insert_eq, decide_True by (by left).
    + rewrite lookup_insert_ne, decide_False; [done| |done].
      intros [?%key_name_inj|?]%elem_of_cons; congruence.
  - eapply wpc_mono; [| |apply wpc_read_temp]; [intros; by eapply quiet_trans|].
    intros d r _ [Hq' ->].
    eapply wpc_mono; [done| |apply IH; [by eapply quiet_trans|done]].
    intros d' r' _ [Hq2 [(acc' & -> & Hacc)|?]]; (split; [done|]); [left|by right].
    exists acc'. split; [done|]. intros k'. rewrite Hacc.
    destruct (decide (key_name k' ∈ ns)); [by rewrite decide_True by (by right)|].
    by rewrite decide_False by (by intros [?|?]%elem_of_cons).
Qed.

Hypothesis listing_all : ∀ fs : Files, listing fs ≡ₚ (map_to_list fs).*1.

(** Reading never returns a wrong map: it returns the contents, or exits. *)
Lemma wpc_fileReadShard ok shard disk :
  names_ok shard disk →
  wpc ok (fileReadShard shard) (quiet shard disk)
    (λ d r, quiet shard disk d ∧
       ((∃ m, r = Ok m ∧ ∀ k, m !! k = stored disk shard k) ∨ faulty ok ∧ r = Fatal)) disk.
Proof.
  intros Hn. pose proof (quiet_ensured shard disk) as Hq.
  unfold fileReadShard. apply wpc_bind. eapply wpc_mono; [| |apply wpc_shardDir].
  { intros d [->| ->]; [apply quiet_refl|done]. }
  intros d r _ [[-> ->]|(? & -> & ->)]; [|split; [apply quiet_refl|auto]].
  apply wpc_bind. cbn. split; [done|]. split; [done|]. intros f Hf.
  assert (Hbad : f ≠ NoFault → faulty ok) by (intros ?; by exists f).
  destruct f; cbn; (split; [done|]); [|by split; [|split; [|right; auto]]..].
  rewrite (ensured_has disk shard). cbn.
  eapply wpc_mono; [done| |apply (wpc_read_entries ok shard disk); [done|]].
  - intros d r _ [Hq' [(acc & -> & Hacc)|?]]; (split; [done|]); [left|by right].
    exists acc. split; [done|]. intros k. rewrite Hacc, lookup_empty.
    case_decide as Hin; [done|]. destruct (stored disk shard k) as [c|] eqn:E; [|done].
    exfalso. apply Hin. rewrite listing_all. apply list_elem_of_fmap. exists (key_name k, c).
    split; [done|]. by apply elem_of_map_to_list.
  - intros n. rewrite listing_all. intros ([n' c] & -> & Hin)%list_elem_of_fmap.
    apply elem_of_map_to_list in Hin. cbn. destruct (Hn n') as [[k ->]|?]; [eauto| |by right].
    left. by exists k, c.
Qed.

Lemma read_back fs shard m disk :
  shard_holds shard m disk →
  let r := (run (fileReadShard shard) fs disk).2 in
  (r = Ok m ∨ r = Fatal) ∧ (Forall (eq NoFault) fs → r = Ok m).
Proof.
  intros [Hn Hm]. pose proof (λ ok, wpc_fileReadShard ok shard disk Hn) as Hr.
  assert (Heq : ∀ m' : Files, (∀ k, m' !! k = stored disk shard k) → m' = m).
  { intros m' Hm'. apply map_eq. intros k. by rewrite Hm', Hm. }
  split.
  - destruct (wpc_sound (λ _, True) _ _ _ fs disk I (Forall_true _ _ (λ _, I)) (Hr _))
      as [_ [_ [(m' & -> & Hm')|[_ ->]]]]; [left; f_equal; auto|by right].
  - intros Hf. destruct (wpc_sound (eq NoFault) _ _ _ fs disk eq_refl Hf (Hr _))
      as [_ [_ [(m' & -> & Hm')|[? _]]]]; [f_equal; auto|by destruct not_faulty].
Qed.

(** C39. Replacing a shard and reading it back.  If no call to the file system
    fails, then whatever files the directory held before, and in whatever order the
    map is visited and the directory listed, fileReadShard returns the map
    that fileReplaceShard was given; and if calls of fileReadShard fail, it exits
    rather than return another map.  fileReplaceShard drops the errors of the
    calls it makes: whichever fail, and at whatever point it crashes, the directories of
    other shards are unchanged, but each key of this one may have its new content,
    its old one or none, which is what a later read returns. *)
Theorem replace_read_shard iter fs disk shard (m : Files) :
  (∀ m, iter m ≡ₚ map_to_list m) →
  let '(disk1, r) := run (fileReplaceShard iter shard m) fs disk in
  (r = Ok () ∨ r = Fatal) ∧
  (Forall (eq NoFault) fs → r = Ok () ∧
     ∀ fs', let r' := (run (fileReadShard shard) fs' disk1).2 in
       (r' = Ok m ∨ r' = Fatal) ∧ (Forall (eq NoFault) fs' → r' = Ok m)) ∧
  ∀ disk', disk' = disk1 ∨ crashed (fileReplaceShard iter shard m) fs disk disk' →
    (∀ d, d ≠ shard_path shard → disk' !! d = disk !! d) ∧
    (names_ok shard disk → ∃ m',
       (run (fileReadShard shard) [] disk').2 = Ok m' ∧
       ∀ k, m' !! k = m !! k ∨ m' !! k = stored disk shard k ∨ m' !! k = None).
Proof.
  intros Hit.
  destruct (wpc_sound (λ _, True) _ _ _ fs disk I (Forall_true _ _ (λ _, I))
    (wpc_fileReplaceShard_mixed _ iter shard m disk (Hit m))) as [Hc [Hx Hr]].
  pose proof (λ H, proj2 (wpc_sound (eq NoFault) _ _ _ fs disk eq_refl H
    (wpc_fileReplaceShard_exact iter shard m disk (Hit m)))) as Hexact.
  destruct (run (fileReplaceShard iter shard m) fs disk) as [disk1 r]. cbn in Hx, Hr, Hexact.
  split; [done|]. split.
  - intros [Hh ->]%Hexact. split; [done|]. intros fs'. by apply read_back.
  - intros disk' Hd. assert (Hmix : mixed shard m disk disk') by (destruct Hd as [->|?]; auto).
    destruct Hmix as (Ho & Hn & Hs). split; [done|]. intros Hn0.
    destruct (wpc_sound (eq NoFault) _ _ _ [] disk' eq_refl (List.Forall_nil _)
      (wpc_fileReadShard _ shard disk' (Hn Hn0))) as [_ [_ [(m' & Hr' & Hm')|[? _]]]];
      [|by destruct not_faulty].
    exists m'. split; [done|]. intros k. rewrite Hm'. apply Hs.
Qed.
End diskv.
End DiskV.
