(* ===== verification/Listener.v ===== *)
(** * Listener: the accept loops of the net/rpc servers

    Every server of src/src that listens on its own socket (diskv, kvpaxos,
    paxos, paxos-shardkv, paxos-shardmaster, pbservice, viewservice) runs the
    same loop over two atomic flags, [dead] and [unreliable], that other
    goroutines set.  The loop is a step function; a policy says which of its
    parts a server has.  [fates] records what happened to every connection.  A
    call of kill() is the list of its statements, and the loop and the other
    goroutines may run between any two of them: a server whose flag is set may
    still have an open listener, and accept connections. *)
From S2P Require Import Prelude.

Module Listener.

(** The flags and counters of a server; an [int32] is zero or not. *)
Record Flags := mkFlags {
  dead : Z;
  unreliable : Z;
  rpcCount : Z;
  listening : bool;     (* the listener is open *)
  px_dead : Z;          (* the flag of its Paxos peer, if it has one *)
}.
#[export] Instance eta_flags : Eta Flags := λ f,
  mkFlags (dead f) (unreliable f) (rpcCount f) (listening f) (px_dead f).

(** The statements of the kill operations: the atomic store of the flag, the
    close of the listener (closing it again does nothing), and the store of the
    flag of the Paxos peer, which has no listener of its own. *)
Inductive Op := StoreDead | CloseListener | StorePxDead.
#[export] Instance op_eq_dec : EqDecision Op.
Proof. solve_decision. Defined.
Definition do_op (o : Op) (f : Flags) : Flags :=
  match o with
  | StoreDead => f <| dead := 1 |>
  | CloseListener => f <| listening := false |>
  | StorePxDead => f <| px_dead := 1 |>
  end.
Definition do_ops (os : list Op) (f : Flags) : Flags := foldl (λ f o, do_op o f) f os.

Definition flag (b : bool) : Z := if b then 1 else 0.
Definition is_set (z : Z) : bool := negb (z =? 0).

(*@ src/src/diskv/server.go 163-167 DisKV.kill *)
Definition diskv_kill : list Op := [StoreDead; CloseListener; StorePxDead].
(*@ src/src/diskv/server.go 170-172 DisKV.isdead *)
Definition diskv_isdead (f : Flags) : bool := is_set (dead f).
(*@ src/src/diskv/server.go 175-181 DisKV.Setunreliable *)
Definition diskv_Setunreliable (f : Flags) (what : bool) : Flags :=
  f <| unreliable := flag what |>.
(*@ src/src/diskv/server.go 183-185 DisKV.isunreliable *)
Definition diskv_isunreliable (f : Flags) : bool := is_set (unreliable f).

(*@ src/src/kvpaxos/server.go 57-62 KVPaxos.kill *)
Definition kvpaxos_kill : list Op := [StoreDead; CloseListener; StorePxDead].
(*@ src/src/kvpaxos/server.go 65-67 KVPaxos.isdead *)
Definition kvpaxos_isdead (f : Flags) : bool := is_set (dead f).
(*@ src/src/kvpaxos/server.go 70-76 KVPaxos.setunreliable *)
Definition kvpaxos_setunreliable (f : Flags) (what : bool) : Flags :=
  f <| unreliable := flag what |>.
(*@ src/src/kvpaxos/server.go 78-80 KVPaxos.isunreliable *)
Definition kvpaxos_isunreliable (f : Flags) : bool := is_set (unreliable f).

(*@ src/src/paxos-shardmaster/server.go 58-62 ShardMaster.Kill *)
Definition pshardmaster_Kill : list Op := [StoreDead; CloseListener; StorePxDead].
(*@ src/src/paxos-shardmaster/server.go 65-67 ShardMaster.isdead *)
Definition pshardmaster_isdead (f : Flags) : bool := is_set (dead f).
(*@ src/src/paxos-shardmaster/server.go 70-76 ShardMaster.setunreliable *)
Definition pshardmaster_setunreliable (f : Flags) (what : bool) : Flags :=
  f <| unreliable := flag what |>.
(*@ src/src/paxos-shardmaster/server.go 78-80 ShardMaster.isunreliable *)
Definition pshardmaster_isunreliable (f : Flags) : bool := is_set (unreliable f).

(*@ src/src/paxos-shardkv/server.go 68-72 ShardKV.kill *)
Definition pshardkv_kill : list Op := [StoreDead; CloseListener; StorePxDead].
(*@ src/src/paxos-shardkv/server.go 75-77 ShardKV.isdead *)
Definition pshardkv_isdead (f : Flags) : bool := is_set (dead f).
(*@ src/src/paxos-shardkv/server.go 80-86 ShardKV.Setunreliable *)
Definition pshardkv_Setunreliable (f : Flags) (what : bool) : Flags :=
  f <| unreliable := flag what |>.
(*@ src/src/paxos-shardkv/server.go 88-90 ShardKV.isunreliable *)
Definition pshardkv_isunreliable (f : Flags) : bool := is_set (unreliable f).

(*@ src/src/pbservice/server.go 58-61 PBServer.kill *)
Definition pb_kill : list Op := [StoreDead; CloseListener].
(*@ src/src/pbservice/server.go 64-66 PBServer.isdead *)
Definition pb_isdead (f : Flags) : bool := is_set (dead f).
(*@ src/src/pbservice/server.go 69-75 PBServer.setunreliable *)
Definition pb_setunreliable (f : Flags) (what : bool) : Flags :=
  f <| unreliable := flag what |>.
(*@ src/src/pbservice/server.go 77-79 PBServer.isunreliable *)
Definition pb_isunreliable (f : Flags) : bool := is_set (unreliable f).

(*@ src/src/viewservice/server.go 59-62 ViewServer.Kill *)
Definition view_Kill : list Op := [StoreDead; CloseListener].
(*@ src/src/viewservice/server.go 67-69 ViewServer.isdead *)
Definition view_isdead (f : Flags) : bool := is_set (dead f).
(*@ src/src/viewservice/server.go 72-74 ViewServer.GetRPCCount *)
Definition view_GetRPCCount (f : Flags) : Z := rpcCount f.

(** A Paxos peer inside another server's RPC server has no listener of its own. *)
(*@ src/src/paxos/paxos.go 180-185 Paxos.Kill *)
Definition paxos_Kill (own_listener : bool) : list Op :=
  StoreDead :: (if own_listener then [CloseListener] else []).
(*@ src/src/paxos/paxos.go 190-192 Paxos.isdead *)
Definition paxos_isdead (f : Flags) : bool := is_set (dead f).
(*@ src/src/paxos/paxos.go 195-201 Paxos.setunreliable *)
Definition paxos_setunreliable (f : Flags) (what : bool) : Flags :=
  f <| unreliable := flag what |>.
(*@ src/src/paxos/paxos.go 203-205 Paxos.isunreliable *)
Definition paxos_isunreliable (f : Flags) : bool := is_set (unreliable f).

(** ** The loop *)

(** What a connection gets: closed unserved because of unreliability or because
    the server is dead, served with its reply cut off, or served. *)
Inductive Fate := Discarded | Closed | Muted | Served.

(** [flaky]: the loop discards and mutes requests when unreliable; [counts]: it
    counts the connections it serves; [on_error]: what the loop of a live server
    does when Accept fails. *)
Record Policy := mkPolicy {
  flaky : bool;
  counts : bool;
  on_error : list Op;
  kill : list Op;            (* what [LKill] of the server starts *)
}.

(*@ src/src/diskv/server.go 237-264 StartServer (accept loop) *)
Definition diskv_loop : Policy := mkPolicy true false diskv_kill diskv_kill.
(*@ src/src/kvpaxos/server.go 114-141 StartServer (accept loop) *)
Definition kvpaxos_loop : Policy := mkPolicy true false kvpaxos_kill kvpaxos_kill.
(*@ src/src/paxos-shardmaster/server.go 111-138 StartServer (accept loop) *)
Definition pshardmaster_loop : Policy :=
  mkPolicy true false pshardmaster_Kill pshardmaster_Kill.
(*@ src/src/paxos-shardkv/server.go 129-156 StartServer (accept loop) *)
Definition pshardkv_loop : Policy := mkPolicy true false pshardkv_kill pshardkv_kill.
(*@ src/src/pbservice/server.go 101-128 StartServer (accept loop) *)
Definition pb_loop : Policy := mkPolicy true false pb_kill pb_kill.
(*@ src/src/viewservice/server.go 98-112 StartServer (accept loop) *)
Definition view_loop : Policy := mkPolicy false true view_Kill view_Kill.
(** The Paxos loop only prints the error, and goes on. *)
(*@ src/src/paxos/paxos.go 240-268 Make (accept loop) *)
Definition paxos_loop : Policy := mkPolicy true true [] (paxos_Kill true).

(** Where the loop stands: at the test of [dead], in Accept, with the result of
    Accept, past the second test of [dead], between the two looks at
    [unreliable], at the end of the body, in its own call of kill. *)
Inductive PC :=
| Top | Accepting | Got (err : bool) | Past | Second | End (err : bool)
| Killing (os : list Op) | Exit.

(** [kills]: what is left of the calls of kill by other goroutines. *)
Record State := mkState {
  flags : Flags; pc : PC; fates : list Fate; kills : list (list Op)
}.
#[export] Instance eta_state : Eta State := λ s,
  mkState (flags s) (pc s) (fates s) (kills s).

(** [LKill]: another goroutine calls kill; [LKilling i]: call [i] does its next
    statement. *)
Inductive Event :=
| LTop | LAccept (err : bool) | LTest | LFirst (rnd : Z) | LSecond (rnd : Z) | LEnd
| LKill | LKilling (i : nat) | LSetunreliable (b : bool).

(** The counter is an [int32]. *)
(*@ src/src/viewservice/server.go 102-103 StartServer (count) *)
Definition serve (p : Policy) (s : State) (how : Fate) : State :=
  let s := s <| fates := fates s ++ [how] |> <| pc := End false |> in
  if counts p then s <| flags := flags s <| rpcCount := int32 (rpcCount (flags s) + 1) |> |>
  else s.

(** Accept of a closed listener fails. *)
(*@ src/src/paxos/paxos.go 240-268 Make (accept loop) *)
Definition step (p : Policy) (s : State) (e : Event) : option State :=
  let isdead := is_set (dead (flags s)) in
  let isunreliable := is_set (unreliable (flags s)) in
  match e, pc s with
  | LTop, Top => Some (s <| pc := if isdead then Exit else Accepting |>)
  | LAccept err, Accepting =>
      if err || listening (flags s) then Some (s <| pc := Got err |>) else None
  | LTest, Got err =>
      Some (if err then s <| pc := End err |>
            else if isdead then s <| fates := fates s ++ [Closed] |> <| pc := End err |>
            else s <| pc := Past |>)
  | LFirst rnd, Past =>
      Some (if negb (flaky p) then serve p s Served
            else if isunreliable && (rnd `mod` 1000 <? 100)
                 then s <| fates := fates s ++ [Discarded] |> <| pc := End false |>
            else s <| pc := Second |>)
  | LSecond rnd, Second =>
      Some (serve p s (if isunreliable && (rnd `mod` 1000 <? 200) then Muted else Served))
  | LEnd, End err =>
      Some (s <| pc := if err && negb isdead then Killing (on_error p) else Top |>)
  | LEnd, Killing [] => Some (s <| pc := Top |>)
  | LEnd, Killing (o :: os) => Some (s <| flags := do_op o (flags s) |> <| pc := Killing os |>)
  | LKill, _ => Some (s <| kills := kills s ++ [kill p] |>)
  | LKilling i, _ =>
      match kills s !! i with
      | Some (o :: os) =>
          Some (s <| flags := do_op o (flags s) |> <| kills := <[i := os]> (kills s) |>)
      | _ => None
      end
  | LSetunreliable b, _ => Some (s <| flags := flags s <| unreliable := flag b |> |>)
  | _, _ => None
  end.

Fixpoint run (p : Policy) (s : State) (es : list Event) : option State :=
  match es with
  | [] => Some s
  | e :: es => match step p s e with Some s' => run p s' es | None => None end
  end.

Definition start : State := mkState (mkFlags 0 0 0 true 0) Top [] [].

(** ** The invariant *)

Definition is_served (f : Fate) : bool :=
  match f with Muted | Served => true | _ => false end.
Definition accepted (es : list Event) : Z :=
  foldr (λ e n, match e with LAccept false => n + 1 | _ => n end) 0 es.

(** The connection in hand, if the loop has not decided its fate. *)
Definition in_hand (s : State) : Z :=
  match pc s with Got false | Past | Second => 1 | _ => 0 end.

(** The calls of kill that are under way, the loop's own among them. *)
Definition under_way (s : State) : list (list Op) :=
  kills s ++ match pc s with Killing os => [os] | _ => [] end.

(** Every kill of the policy sets the flag first and closes the listener after. *)
Definition sane_ops (os : list Op) : Prop :=
  ∃ r, os = StoreDead :: r ∧ CloseListener ∈ r ∧ StoreDead ∉ r ∧ (length os ≤ 3)%nat.
Definition sane (p : Policy) : Prop :=
  sane_ops (kill p) ∧ (on_error p = [] ∨ sane_ops (on_error p)).

Lemma loops_sane :
  Forall sane [diskv_loop; kvpaxos_loop; pshardmaster_loop; pshardkv_loop; pb_loop;
               view_loop; paxos_loop].
Proof.
  assert (H2 : sane_ops [StoreDead; CloseListener]).
  { eexists. split_and!; [done|by left| |cbn; lia]. by intros [?|?%elem_of_nil]%elem_of_cons. }
  assert (H3 : sane_ops [StoreDead; CloseListener; StorePxDead]).
  { eexists. split_and!; [done|by left| |cbn; lia].
    by intros [?|[?|?%elem_of_nil]%elem_of_cons]%elem_of_cons. }
  repeat apply Forall_cons_2; try apply Forall_nil_2; split; try done; first [by left|by right].
Qed.

Lemma accept_run_snoc p s es e s2 :
  run p s (es ++ [e]) = Some s2 ↔ ∃ s1, run p s es = Some s1 ∧ step p s1 e = Some s2.
Proof.
  revert s. induction es as [|e' es IH]; intros s; cbn.
  - split; [|by intros (? & [= ->] & ->)]. destruct (step p s e) as [s'|] eqn:?; [|done].
    intros [= ->]. eauto.
  - destruct (step p s e') as [s'|]; [apply IH|]. split; [done|by intros (? & ? & _)].
Qed.

Lemma accept_run_app p s es es' :
  run p s (es ++ es') = run p s es ≫= λ s', run p s' es'.
Proof.
  revert s. induction es as [|e es IH]; intros s; cbn; [done|].
  destruct (step p s e); [apply IH|done].
Qed.

Lemma accepted_snoc es e :
  accepted (es ++ [e]) = accepted es + match e with LAccept false => 1 | _ => 0 end.
Proof.
  unfold accepted. induction es as [|e' es IH]; cbn; [by destruct e as [|[]| | | | | | |]|].
  rewrite IH. destruct e' as [|[]| | | | | | |]; lia.
Qed.

Definition served (fs : list Fate) : Z := len (filter is_served fs).

Lemma served_snoc fs f : served (fs ++ [f]) = served fs + (if is_served f then 1 else 0).
Proof. unfold served. rewrite filter_app, len_app. by destruct f. Qed.

Lemma serve_eq p f c fs ks how :
  serve p (mkState f c fs ks) how =
  mkState (if counts p then f <| rpcCount := int32 (rpcCount f + 1) |> else f) (End false)
    (fs ++ [how]) ks.
Proof. unfold serve. by destruct (counts p). Qed.

(** Every connection gets exactly one fate; the count is that of the served. *)
Record inv (p : Policy) (a : Z) (s : State) : Prop := mkInv {
  inv_fates : a = len (fates s) + in_hand s;
  inv_count : counts p = true → rpcCount (flags s) = int32 (served (fates s));
}.

Lemma do_op_other o f :
  rpcCount (do_op o f) = rpcCount f ∧ unreliable (do_op o f) = unreliable f ∧
  (is_set (dead f) = true → is_set (dead (do_op o f)) = true) ∧
  (listening f = false → listening (do_op o f) = false).
Proof. by destruct o. Qed.

Lemma inv_serve p a f c fs ks how :
  inv p a (mkState f c fs ks) → in_hand (mkState f c fs ks) = 1 → is_served how = true →
  inv p a (serve p (mkState f c fs ks) how).
Proof.
  intros [Ha Hc] Hh Hs. rewrite serve_eq. cbn in *. constructor; cbn.
  - rewrite len_app, len_singleton. rewrite Hh in Ha. cbn. lia.
  - intros Hcc. rewrite Hcc, served_snoc, Hs. cbn. by rewrite Hc, int32_succ.
Qed.

Lemma inv_fate p a f c fs ks how err :
  inv p a (mkState f c fs ks) → in_hand (mkState f c fs ks) = 1 → is_served how = false →
  inv p a (mkState f (End err) (fs ++ [how]) ks).
Proof.
  intros [Ha Hc] Hh Hs. cbn in *. constructor; cbn; [|intros Hcc].
  - rewrite len_app, len_singleton. rewrite Hh in Ha. cbn. lia.
  - rewrite served_snoc, Hs, Hc by done. by rewrite Z.add_0_r.
Qed.

Lemma inv_pc p a f f' c c' fs ks ks' :
  inv p a (mkState f c fs ks) → rpcCount f' = rpcCount f →
  in_hand (mkState f' c' fs ks') = in_hand (mkState f c fs ks) →
  inv p a (mkState f' c' fs ks').
Proof.
  intros [Ha Hc] Hr Hh. constructor; cbn in *; [by rewrite Hh|]. intros. rewrite Hr. auto.
Qed.

Lemma inv_step p a s e s' :
  inv p a s → step p s e = Some s' →
  inv p (a + match e with LAccept false => 1 | _ => 0 end) s'.
Proof.
  intros HI H2. unfold step in H2. destruct s as [f pc1 fs ks].
  destruct e as [|err| |rnd|rnd| | |i|b]; cbn in H2; rewrite ?Z.add_0_r.
  - destruct pc1; try done. injection H2 as <-. eapply inv_pc; [done|done|].
    by destruct (is_set (dead f)).
  - destruct pc1; try done. destruct (err || listening f); [|done]. injection H2 as <-.
    destruct HI as [Ha Hc]. destruct err; constructor; cbn in *; try done; lia.
  - destruct pc1 as [| |err| | | | |]; try done. injection H2 as <-.
    destruct err; [by eapply inv_pc|].
    destruct (is_set (dead f)); [by eapply inv_fate|by eapply inv_pc].
  - destruct pc1; try done. injection H2 as <-.
    destruct (flaky p); cbn [negb]; [|by apply inv_serve].
    destruct (is_set (unreliable f) && _); [by eapply inv_fate|by eapply inv_pc].
  - destruct pc1; try done. injection H2 as <-. apply inv_serve; [done|done|].
    by destruct (is_set (unreliable f) && _).
  - destruct pc1 as [| | | | |err|[|o os]|]; try done; injection H2 as <-;
      eapply inv_pc; try done; [by destruct (err && _)|by destruct o].
  - injection H2 as <-. by eapply inv_pc.
  - destruct (ks !! i) as [[|o os]|]; try done. injection H2 as <-.
    eapply inv_pc; [done|by destruct o|done].
  - injection H2 as <-. destruct HI as [Ha Hc]. by constructor.
Qed.

(** A call of kill that has set the flag has the close of the listener before it,
    unless that is done. *)
Record closing (s : State) : Prop := mkClosing {
  cl_ops os : os ∈ under_way s → sane_ops os ∨ StoreDead ∉ os;
  cl_len os : pc s = Killing os → (length os ≤ 3)%nat;
  cl_dead : is_set (dead (flags s)) = true →
            listening (flags s) = false ∨ ∃ os, os ∈ under_way s ∧ CloseListener ∈ os;
}.

Lemma closing_pc f c fs ks c' fs' f' :
  closing (mkState f c fs ks) → dead f' = dead f → listening f' = listening f →
  (∀ os, c ≠ Killing os ∨ os = []) → (∀ os, c' ≠ Killing os) →
  closing (mkState f' c' fs' ks).
Proof.
  intros [Ho Hn Hd] Hf Hl Hc Hc'. unfold under_way in *. cbn in *. constructor.
  - intros os. unfold under_way. cbn. rewrite elem_of_app. intros [Hin|Hin].
    + apply Ho. rewrite elem_of_app. by left.
    + destruct c'; try by apply elem_of_nil in Hin. by destruct (Hc' os0).
  - intros os E. cbn in E. by destruct (Hc' os).
  - cbn. rewrite Hf, Hl. intros H. destruct (Hd H) as [?|(os & Hin & Hcl)]; [by left|]. right.
    unfold under_way. cbn. rewrite elem_of_app in Hin. destruct Hin as [Hin|Hin].
    + exists os. split; [|done]. rewrite elem_of_app. by left.
    + destruct c as [| | | | | |os'|]; try by apply elem_of_nil in Hin.
      destruct (Hc os') as [?| ->]; [done|]. apply list_elem_of_singleton in Hin as ->.
      by apply elem_of_nil in Hcl.
Qed.

Local Ltac by_closing_pc :=
  eapply closing_pc; [eassumption|done|done|by left|done].

(** One statement of a call of kill. *)
Lemma do_op_closing o os f (rest rest' : list (list Op)) :
  (∀ os', os' ∈ (o :: os) :: rest → sane_ops os' ∨ StoreDead ∉ os') →
  (is_set (dead f) = true →
     listening f = false ∨ ∃ os', os' ∈ (o :: os) :: rest ∧ CloseListener ∈ os') →
  rest' ≡ₚ os :: rest →
  (∀ os', os' ∈ rest' → sane_ops os' ∨ StoreDead ∉ os') ∧
  (is_set (dead (do_op o f)) = true →
     listening (do_op o f) = false ∨ ∃ os', os' ∈ rest' ∧ CloseListener ∈ os').
Proof.
  intros Hops Hdead Hp. split.
  - intros os'. rewrite Hp. intros [->|Hin]%elem_of_cons; [|apply Hops; by right].
    right. destruct (Hops (o :: os)) as [(r & [= -> ->] & _ & Hr & _)|Hr]; [by left|done|].
    intros ?. apply Hr. by right.
  - intros Hd. destruct (decide (CloseListener ∈ os)) as [Hcl|Hcl].
    { right. exists os. rewrite Hp. split; [by left|done]. }
    destruct o; cbn in *.
    + destruct (Hops (StoreDead :: os)) as [(r & [= ->] & Hr & _)|Hr]; [by left|done|].
      by destruct Hr; left.
    + by left.
    + destruct (Hdead Hd) as [?|(os' & Hin & Hc)]; [by left|]. right. exists os'.
      rewrite Hp. split; [|done]. apply elem_of_cons in Hin as [->|Hin]; [|by right].
      by apply elem_of_cons in Hc as [?|Hc].
Qed.

Lemma closing_killing p s i s' : closing s → step p s (LKilling i) = Some s' → closing s'.
Proof.
  intros [Ho Hn Hd] Hst. destruct s as [f c fs ks]. cbn in Hst.
  destruct (ks !! i) as [[|o os]|] eqn:Hi; try done. injection Hst as <-.
  set (own := match c with Killing os => [os] | _ => [] end).
  assert (Hks : ks ++ own ≡ₚ (o :: os) :: (delete i ks ++ own)).
  { rewrite app_comm_cons. apply Permutation_app; [by apply delete_Permutation|done]. }
  assert (Hks' : <[i:=os]> ks ++ own ≡ₚ os :: (delete i ks ++ own)).
  { rewrite app_comm_cons. apply Permutation_app; [|done].
    rewrite insert_take_drop, delete_take_drop by (by eapply lookup_lt_Some).
    by rewrite Permutation_middle. }
  destruct (do_op_closing o os f (delete i ks ++ own) (<[i:=os]> ks ++ own))
    as [H1 H2]; [| |done|].
  - intros os' Hin. apply Ho. change (os' ∈ ks ++ own). by rewrite Hks.
  - intros Hdd. destruct (Hd Hdd) as [?|(os' & Hin & Hc)]; [by left|]. right. exists os'.
    change (os' ∈ ks ++ own) in Hin. by rewrite Hks in Hin.
  - constructor; [exact H1|exact Hn|exact H2].
Qed.

Lemma closing_own p s s' : sane p → closing s → step p s LEnd = Some s' → closing s'.
Proof.
  intros [_ Herr] HC Hst. destruct s as [f c fs ks]. cbn in Hst.
  destruct c as [| | | | |err|[|o os]|]; try done; injection Hst as <-.
  - destruct (err && negb (is_set (dead f))) eqn:E; [|by_closing_pc].
    destruct HC as [Ho Hn Hd]. apply andb_true_iff in E as [_ E%negb_true_iff].
    constructor; cbn.
    + intros os. unfold under_way. cbn. rewrite elem_of_app, list_elem_of_singleton.
      intros [Hin| ->]; [apply Ho; unfold under_way; cbn; by rewrite app_nil_r|].
      destruct Herr as [->|?]; [|by left]. right. apply not_elem_of_nil.
    + intros os [= <-]. destruct Herr as [->|(r & _ & _ & _ & ?)]; [cbn; lia|done].
    + cbn in E. by rewrite E.
  - eapply closing_pc; [done|done|done| |done]. intros os. destruct os; [by right|by left].
  - destruct HC as [Ho Hn Hd]. pose proof (Hn _ eq_refl) as Hlen. cbn in Hlen.
    destruct (do_op_closing o os f ks (ks ++ [os])) as [H1 H2].
    + intros os' Hin. apply Ho. unfold under_way. cbn. rewrite elem_of_app, list_elem_of_singleton.
      apply elem_of_cons in Hin as [->|?]; tauto.
    + intros Hdd. destruct (Hd Hdd) as [?|(os' & Hin & Hc)]; [by left|]. right. exists os'.
      unfold under_way in Hin. cbn in Hin. rewrite elem_of_app, list_elem_of_singleton in Hin.
      rewrite elem_of_cons. tauto.
    + by rewrite Permutation_app_comm.
    + constructor; [exact H1| |exact H2]. intros os' [= <-]. lia.
Qed.

Lemma closing_step p s e s' : sane p → closing s → step p s e = Some s' → closing s'.
Proof.
  intros Hp HC H2. destruct e as [|err| |rnd|rnd| | |i|b];
    [| | | | |by eapply closing_own| |by eapply closing_killing|];
    destruct s as [f c fs ks]; cbn in H2.
  - destruct c; try done. injection H2 as <-. destruct (is_set (dead f)); by_closing_pc.
  - destruct c; try done. destruct (err || listening f); [|done]. injection H2 as <-.
    by_closing_pc.
  - destruct c as [| |err| | | | |]; try done. injection H2 as <-.
    destruct err, (is_set (dead f)); by_closing_pc.
  - destruct c; try done. injection H2 as <-. rewrite serve_eq.
    destruct (flaky p), (counts p), (is_set (unreliable f) && _); cbn;
      by_closing_pc.
  - destruct c; try done. injection H2 as <-. rewrite serve_eq.
    destruct (counts p); by_closing_pc.
  - injection H2 as <-. destruct HC as [Ho Hn Hd], Hp as [Hk _]. unfold under_way in *. cbn in *.
    constructor; [|exact Hn|].
    + intros os. unfold under_way. cbn. rewrite !elem_of_app, list_elem_of_singleton.
      intros [[?| ->]|?]; [apply Ho; rewrite elem_of_app; tauto|by left|].
      apply Ho; rewrite elem_of_app; tauto.
    + intros Hdd. destruct (Hd Hdd) as [?|(os & Hin & Hc)]; [by left|]. right. exists os.
      unfold under_way. cbn. rewrite !elem_of_app in *. tauto.
  - injection H2 as <-. destruct HC as [Ho Hn Hd]. by constructor.
Qed.

Lemma run_inv p es s : sane p → run p start es = Some s → inv p (accepted es) s ∧ closing s.
Proof.
  intros Hp. revert s. induction es as [|e es IH] using rev_ind; intros s.
  { intros [= <-]. split; constructor; cbn; try done. by intros ? ?%elem_of_nil. }
  rewrite accept_run_snoc, accepted_snoc. intros (s1 & H1 & H2).
  destruct (IH s1 H1) as [HI HC]. split; [by eapply inv_step|by eapply closing_step].
Qed.

(** The loop of a dead server closes what it has in hand, unless it is past the
    test, and what it still accepts. *)
Definition rank (c : PC) : Z :=
  match c with
  | Exit => 0 | Top => 1 | End _ => 2 | Killing os => 2 + len os | Second => 3 | Past => 4
  | Got _ => 5 | Accepting => 6
  end.

Definition own_step (e : Event) : bool :=
  match e with LKill | LKilling _ | LSetunreliable _ => false | _ => true end.

Definition past_test (c : PC) : bool := match c with Past | Second => true | _ => false end.

Lemma dead_step p s e s' :
  is_set (dead (flags s)) = true → step p s e = Some s' →
  is_set (dead (flags s')) = true ∧
  (if own_step e then rank (pc s') < rank (pc s) else pc s' = pc s) ∧
  ∃ fs, fates s' = fates s ++ fs ∧
    if past_test (pc s)
    then (fs = [] ∧ past_test (pc s') = true) ∨ ((∃ f, fs = [f]) ∧ past_test (pc s') = false)
    else Forall (eq Closed) fs ∧ past_test (pc s') = false.
Proof.
  intros Hdead H2. unfold step in H2. destruct s as [f c fs ks]. cbn in Hdead, H2.
  rewrite ?Hdead in H2.
  assert (Hnil : fs = fs ++ []) by by rewrite app_nil_r.
  destruct e as [|err| |rnd|rnd| | |i|b].
  - destruct c; try done. injection H2 as <-. split_and!; [done|done|]. by exists [].
  - destruct c; try done. destruct (err || _); [|done]. injection H2 as <-.
    split_and!; [done|done|]. by exists [].
  - destruct c as [| |err| | | | |]; try done. injection H2 as <-.
    destruct err; (split_and!; [done|done|]); [by exists []|exists [Closed]; split; [done|]; split; [by apply Forall_singleton|done]].
  - destruct c; try done. injection H2 as <-. rewrite serve_eq.
    destruct (flaky p); cbn [negb]; [destruct (_ && _)|];
      (split_and!; [by destruct (counts p)|done|]);
      first [by exists []; split; [done|left]
            |eexists; split; [done|]; right; split; [by eexists|done]].
  - destruct c; try done. injection H2 as <-. rewrite serve_eq.
    split_and!; [by destruct (counts p)|done|].
    eexists. split; [done|]. right. split; [by eexists|done].
  - destruct c as [| | | | |err|[|o os]|]; try done; injection H2 as <-.
    + rewrite andb_false_r. split_and!; [done|done|]. by exists [].
    + split_and!; [done|done|]. by exists [].
    + split_and!; [by destruct o|cbn; unfold len; cbn [length]; lia|]. by exists [].
  - injection H2 as <-. split_and!; [done|done|]. exists []. split; [done|].
    destruct (past_test c) eqn:E; cbn; rewrite E; auto.
  - destruct (ks !! i) as [[|o os]|]; try done. injection H2 as <-.
    split_and!; [by destruct o|done|]. exists []. split; [done|].
    destruct (past_test c) eqn:E; cbn; rewrite E; auto.
  - injection H2 as <-. split_and!; [done|done|]. exists []. split; [done|].
    destruct (past_test c) eqn:E; cbn; rewrite E; auto.
Qed.

Lemma dead_run p es s s' :
  is_set (dead (flags s)) = true → run p s es = Some s' →
  len (filter own_step es) ≤ rank (pc s) ∧
  ∃ fs, fates s' = fates s ++ fs ∧
    Forall (eq Closed) (if past_test (pc s) then tail fs else fs).
Proof.
  revert s. induction es as [|e es IH]; intros s Hd Hrun; cbn in Hrun.
  { injection Hrun as <-. split; [unfold len; cbn; destruct (pc s); cbn; unfold len; lia|].
    exists []. rewrite app_nil_r. split; [done|]. by destruct (past_test _). }
  destruct (step p s e) as [s1|] eqn:He; [|done].
  destruct (dead_step p s e s1 Hd He) as (Hd1 & Hr & fs1 & Hf1 & Hc1).
  destruct (IH s1 Hd1 Hrun) as (Hn & fs & Hf & Hc). split.
  - destruct (own_step e) eqn:Ho.
    + rewrite filter_cons_True by (by rewrite Ho). unfold len in *. cbn [length]. lia.
    + rewrite filter_cons_False by (rewrite Ho; by intros []). by rewrite <- Hr.
  - exists (fs1 ++ fs). rewrite Hf, Hf1, app_assoc. split; [done|].
    destruct (past_test (pc s)).
    + destruct Hc1 as [[-> H1]|[[f ->] H1]]; rewrite H1 in Hc; done.
    + destruct Hc1 as [Hc1 H1]. rewrite H1 in Hc. by apply Forall_app.
Qed.

(** ** Theorems *)

(** C40. Accounting and shutdown of the accept loops: for each of the seven
    loops, however other goroutines kill the server, statement by statement, and
    toggle its reliability, every accepted connection gets exactly one fate (but
    for the one in hand), and a loop that counts has counted those it served, in
    32 bits.  Once the flag of a server is set, even if its listener is still
    open, the loop takes at most six more steps of its own, and every connection it
    holds or still accepts is closed unserved, except one that was already past
    the test of the flag after Accept; and once every kill has got past the close, the
    listener of a server whose flag is set is closed. *)
Theorem accept_loop p es s es' s' :
  p ∈ [diskv_loop; kvpaxos_loop; pshardmaster_loop; pshardkv_loop; pb_loop; view_loop;
       paxos_loop] →
  run p start es = Some s →
  accepted es = len (fates s) + in_hand s ∧
  (counts p = true → rpcCount (flags s) = int32 (served (fates s))) ∧
  (is_set (dead (flags s)) = true → run p s es' = Some s' →
     len (filter own_step es') ≤ 6 ∧
     ∃ fs, fates s' = fates s ++ fs ∧
       Forall (eq Closed) (if past_test (pc s) then tail fs else fs)) ∧
  (is_set (dead (flags s)) = true → Forall (λ os, CloseListener ∉ os) (under_way s) →
     listening (flags s) = false).
Proof.
  intros Hin Hrun. assert (Hp : sane p) by (by eapply Forall_forall in Hin; [|apply loops_sane]).
  destruct (run_inv p es s Hp Hrun) as [[Ha Hc] [_ Hl Hd]]. split_and!; [done|done| |].
  - intros Hdead Hrun'. destruct (dead_run p es' s s' Hdead Hrun') as [H1 H2]. split; [|done].
    destruct (pc s) eqn:E; cbn in H1; try lia. pose proof (Hl _ eq_refl). unfold len in *. lia.
  - intros Hdead Hno. destruct (Hd Hdead) as [?|(os & Hos & Hcl)]; [done|].
    rewrite Forall_forall in Hno. by destruct (Hno os Hos).
Qed.

(** A failed Accept ends every loop but the one of Paxos: the others kill
    their server, so that the next test of the flag leaves the loop; the Paxos
    loop prints the error and goes back to Accept, with the flags unchanged, for
    as long as Accept fails. *)
Theorem accept_error p s n :
  pc s = Top → is_set (dead (flags s)) = false →
  let round := [LTop; LAccept true; LTest; LEnd; LEnd] in
  (p ∈ [diskv_loop; kvpaxos_loop; pshardmaster_loop; pshardkv_loop; pb_loop; view_loop] →
   ∃ s', run p s (round ++ replicate (length (on_error p)) LEnd ++ [LTop]) = Some s' ∧
         pc s' = Exit ∧ fates s' = fates s ∧ listening (flags s') = false) ∧
  run paxos_loop s (mjoin (replicate n round)) = Some s.
Proof.
  intros Hpc Hd round. destruct s as [f c fs ks]. cbn in Hpc, Hd. subst c. split.
  - intros Hin. unfold round.
    repeat (apply elem_of_cons in Hin as [->|Hin];
      [cbn; rewrite Hd; cbn; rewrite Hd; eexists; by split_and!|]).
    by apply elem_of_nil in Hin.
  - induction n as [|n IH]; [done|]. cbn [replicate mjoin].
    change (run paxos_loop (mkState f Top fs ks) (round ++ mjoin (replicate n round)) =
            Some (mkState f Top fs ks)).
    rewrite accept_run_app.
    assert (Hr : run paxos_loop (mkState f Top fs ks) round = Some (mkState f Top fs ks)).
    { unfold round. cbn. rewrite Hd. cbn. by rewrite Hd. }
    by rewrite Hr.
Qed.
End Listener.
