(* ===== verification/LockService.v ===== *)
(** * LockService: the lock server and its clerk

    Models src/src/lockservice: the Lock handler, the unfinished Unlock handler,
    the clerk, and the accept loop with its [dying] mode, in which the server
    executes one more request without answering it and then is dead. *)
From S2P Require Import Prelude.

Module LockService.

(*@ src/src/lockservice/server.go 12-23 LockServer *)
Record LockServer := mkLockServer {
  dead : bool;
  dying : bool;
  am_primary : bool;
  backup : string;
  locks : gmap string bool;
}.
#[export] Instance eta_lockserver : Eta LockServer := λ s,
  mkLockServer (dead s) (dying s) (am_primary s) (backup s) (locks s).

(** The new state and [reply.OK]. *)
(*@ src/src/lockservice/server.go 31-46 LockServer.Lock *)
Definition Lock (ls : LockServer) (name : string) : LockServer * bool :=
  if default false (locks ls !! name) then (ls, false)
  else (ls <| locks := <[name := true]> (locks ls) |>, true).

(** Not written yet: the reply keeps its zero value. *)
(*@ src/src/lockservice/server.go 51-56 LockServer.Unlock *)
Definition Unlock (ls : LockServer) (name : string) : LockServer * bool := (ls, false).

(*@ src/src/lockservice/server.go 63-66 LockServer.kill *)
Definition kill (ls : LockServer) : LockServer := ls <| dead := true |>.

(*@ src/src/lockservice/server.go 89-104 StartServer *)
Definition StartServer (primary bk : string) (am : bool) : LockServer * string :=
  (mkLockServer false false am bk ∅, if am then primary else bk).

Inductive Fate := Answered | Deaf | Closed | NoConn.

(** One turn of the loop of a server that was alive at the top: [err] is the
    result of Accept, [now_dead] what [ls.dead] is after it. *)
(*@ src/src/lockservice/server.go 123-155 StartServer (accept loop) *)
Definition accept_turn (ls : LockServer) (err : bool) : LockServer * Fate :=
  let '(ls, fate) :=
    if negb err && negb (dead ls) then
      if dying ls then (ls <| dead := true |>, Deaf) else (ls, Answered)
    else if negb err then (ls, Closed)
    else (ls, NoConn) in
  (if err && negb (dead ls) then kill ls else ls, fate).

(*@ src/src/lockservice/client.go 11-14 Clerk *)
Record Clerk := mkClerk { server0 : string; server1 : string }.

(*@ src/src/lockservice/client.go 17-23 MakeClerk *)
Definition MakeClerk (primary bk : string) : Clerk := mkClerk primary bk.

(** Only the primary is asked; a lost call looks like a refusal. *)
(*@ src/src/lockservice/client.go 66-79 Clerk.Lock *)
Definition ClerkLock (rpc : string → string → option bool) (ck : Clerk) (name : string) : bool :=
  match rpc (server0 ck) name with Some ok => ok | None => false end.

(*@ src/src/lockservice/client.go 88-93 Clerk.Unlock *)
Definition ClerkUnlock (ck : Clerk) (name : string) : bool := false.

(** ** Lemmas *)

Inductive Request := RLock (name : string) | RUnlock (name : string).

Fixpoint serve (ls : LockServer) (rs : list Request) : list (Request * bool) :=
  match rs with
  | [] => []
  | RLock x :: rs => let '(ls', ok) := Lock ls x in (RLock x, ok) :: serve ls' rs
  | RUnlock x :: rs => let '(ls', ok) := Unlock ls x in (RUnlock x, ok) :: serve ls' rs
  end.

Lemma serve_held ls rs x :
  locks ls !! x = Some true → (RLock x, true) ∉ serve ls rs.
Proof.
  revert ls. induction rs as [|[y|y] rs IH]; intros ls Hx; cbn.
  - apply not_elem_of_nil.
  - unfold Lock. destruct (default false (locks ls !! y)) eqn:Hy; cbn.
    + intros [[=]|H]%elem_of_cons. by apply (IH ls Hx).
    + intros [[= <-]|H]%elem_of_cons; [by rewrite Hx in Hy|]. eapply IH, H. cbn.
      destruct (decide (y = x)) as [->|]; [by rewrite lookup_insert_eq|].
      by rewrite lookup_insert_ne.
  - intros [[=]|H]%elem_of_cons. by apply (IH ls Hx).
Qed.

(** Whatever requests a server gets, a lock is granted at most once (it is never
    released), and a free lock is granted when it is first asked for. *)
Lemma lock_granted_once ls rs1 rs2 x :
  locks ls !! x = Some true ∨ (Lock ls x).2 = true ∧ (RLock x, true) ∉ serve (Lock ls x).1 (rs1 ++ rs2).
Proof.
  destruct (default false (locks ls !! x)) eqn:Hx.
  - left. by destruct (locks ls !! x) as [[]|].
  - right. unfold Lock. rewrite Hx. split; [done|]. apply serve_held. cbn.
    by rewrite lookup_insert_eq.
Qed.

(** ** The connection of a dying server

    [ReadWriteCloser]: what rpc.ServeConn does with a connection. *)
Class ReadWriteCloser (C : Type) := {
  conn_read : C → Z → C * (string * bool);
  conn_write : C → string → C * (Z * bool);
  conn_close : C → C * bool;
}.

(** What a server does with a connection: reads, writes and closes, each continued
    with its results; the booleans say that there was no error. *)
Inductive Use (A : Type) :=
| Ret (a : A)
| Reads (n : Z) (k : string → bool → Use A)
| Writes (p : string) (k : Z → bool → Use A)
| Closes (k : bool → Use A).
Arguments Ret {A} a.
Arguments Reads {A} n k.
Arguments Writes {A} p k.
Arguments Closes {A} k.

Fixpoint use {C A} `{ReadWriteCloser C} (u : Use A) (c : C) : C * A :=
  match u with
  | Ret a => (c, a)
  | Reads n k => let '(c, (p, ok)) := conn_read c n in use (k p ok) c
  | Writes p k => let '(c, (n, ok)) := conn_write c p in use (k n ok) c
  | Closes k => let '(c, ok) := conn_close c in use (k ok) c
  end.

(*@ src/src/lockservice/server.go 75-77 DeafConn *)
Record DeafConn (C : Type) := mkDeaf { c : C }.
Arguments mkDeaf {C} c.
Arguments c {C} d.

Section deaf.
Context {C : Type} `{ReadWriteCloser C}.

(*@ src/src/lockservice/server.go 79-81 DeafConn.Write *)
Definition deaf_Write (dc : DeafConn C) (p : string) : DeafConn C * (Z * bool) :=
  (dc, (Z.of_nat (String.length p), true)).
(*@ src/src/lockservice/server.go 82-84 DeafConn.Close *)
Definition deaf_Close (dc : DeafConn C) : DeafConn C * bool :=
  let '(x, ok) := conn_close (c dc) in (mkDeaf x, ok).
(*@ src/src/lockservice/server.go 85-87 DeafConn.Read *)
Definition deaf_Read (dc : DeafConn C) (n : Z) : DeafConn C * (string * bool) :=
  let '(x, r) := conn_read (c dc) n in (mkDeaf x, r).

#[export] Instance deaf_conn : ReadWriteCloser (DeafConn C) :=
  {| conn_read := deaf_Read; conn_write := deaf_Write; conn_close := deaf_Close |}.

(** The program without its writes, as if they had succeeded. *)
Fixpoint silent {A} (u : Use A) : Use A :=
  match u with
  | Ret a => Ret a
  | Reads n k => Reads n (λ p ok, silent (k p ok))
  | Writes p k => silent (k (Z.of_nat (String.length p)) true)
  | Closes k => Closes (λ ok, silent (k ok))
  end.

(** Served through a [DeafConn], a request is read and executed as it would be,
    and the connection below sees the reads and the close only. *)
Lemma deaf_serves {A} (u : Use A) (x : C) :
  use u (mkDeaf x) = (mkDeaf (fst (use (silent u) x)), snd (use (silent u) x)).
Proof.
  revert x. induction u as [a|n k IH|p k IH|k IH]; intros x; cbn; [done| | |].
  - unfold deaf_Read. cbn. destruct (conn_read x n) as [y [p ok]]. apply IH.
  - apply IH.
  - unfold deaf_Close. cbn. destruct (conn_close x) as [y ok]. apply IH.
Qed.

(** [quiet u]: the program does not write. *)
Fixpoint quiet {A} (u : Use A) : Prop :=
  match u with
  | Ret _ => True
  | Reads _ k => ∀ p ok, quiet (k p ok)
  | Writes _ _ => False
  | Closes k => ∀ ok, quiet (k ok)
  end.

Lemma silent_quiet {A} (u : Use A) : quiet (silent u).
Proof. induction u; cbn; auto. Qed.
End deaf.
End LockService.
