(* ===== verification/NetCall.v ===== *)
(** * NetCall: the call() helper over net/rpc, and the lock service through it

    Models the helper [call] that every service on Unix sockets has a copy of:
    dial, call, close.  Of net/rpc it uses three operations, the class [RpcLib];
    the laws say which connections are open.  The lock server of LockService.v
    with its socket is an instance, so that a clerk's request runs from the clerk
    through [call] to the handler and back. *)
From S2P Require Import Prelude LockService.

Module NetCall.
Import LockService.

(** ** Dial, call, close *)

(** What a failed Dial returns: an error of package net, or some other. *)
Inductive DialError := OpError (err : string) | OtherError (err : string).

(** The operations: the world, and a connection or an error; the reply or an
    error. *)
Class RpcLib (W Conn Args Reply : Type) := {
  Dial : W → string → W * (Conn + DialError);
  CallConn : W → Conn → string → Args → W * (Reply + string);
  Close : W → Conn → W;
}.

(** The connections that are open.  Dial opens the one it returns, Call none, and
    Close closes the one it is given. *)
Class RpcLaws {W Conn Args Reply} (L : RpcLib W Conn Args Reply) `{Countable Conn} := {
  opened : W → gset Conn;
  dial_opens w srv w' c : Dial w srv = (w', inl c) → c ∉ opened w ∧ opened w' = {[c]} ∪ opened w;
  dial_fails w srv w' e : Dial w srv = (w', inr e) → opened w' = opened w;
  call_keeps w c m a w' r : CallConn w c m a = (w', r) → opened w' = opened w;
  close_closes w c : opened (Close w c) = opened w ∖ {[c]};
}.

Section call.
Context {W Conn Args Reply : Type} {L : RpcLib W Conn Args Reply}.

(** The deferred Close runs whether the call returns or not. *)
(*@ src/src/kvpaxos/client.go 45-60 call *)
Definition call (w : W) (srv rpcname : string) (args : Args) : W * option Reply :=
  match Dial w srv with
  | (w, inr _) => (w, None)
  | (w, inl c) =>
      match CallConn w c rpcname args with
      | (w, inl reply) => (Close w c, Some reply)
      | (w, inr _) => (Close w c, None)
      end
  end.

(*@ src/src/pbservice/client.go 50-65 call *)
Definition pb_call := call.
(*@ src/src/lockservice/client.go 42-57 call *)
Definition lock_call := call.
(*@ src/src/viewservice/client.go 39-54 call *)
Definition view_call := call.
(*@ src/src/paxos-shardmaster/client.go 39-54 call *)
Definition pshardmaster_call := call.
(*@ src/src/paxos-shardkv/client.go 49-64 call *)
Definition pshardkv_call := call.
(*@ src/src/diskv/client.go 49-64 call *)
Definition diskv_call := call.
(*@ src/src/mapreduce/common_rpc.go 51-66 call *)
Definition mr_call := call.

(** The copy of Paxos asserts that a failed Dial returns a *net.OpError. *)
(*@ src/src/paxos/paxos.go 76-94 call *)
Definition paxos_call (w : W) (srv name : string) (args : Args) : res (W * option Reply) :=
  match Dial w srv with
  | (w, inr (OpError _)) => mret (w, None)
  | (_, inr (OtherError _)) => Panic
  | (w, inl c) =>
      match CallConn w c name args with
      | (w, inl reply) => mret (Close w c, Some reply)
      | (w, inr _) => mret (Close w c, None)
      end
  end.

Context `{Countable Conn} {Laws : RpcLaws L}.

Lemma call_opened w srv m args : opened (fst (call w srv m args)) = opened w.
Proof.
  unfold call. destruct (Dial w srv) as [w1 [c|e]] eqn:HD; [|by eapply dial_fails].
  destruct (CallConn w1 c m args) as [w2 r] eqn:HC.
  assert (Hopen : opened (Close w2 c) = opened w).
  { rewrite close_closes, (call_keeps _ _ _ _ _ _ HC).
    apply dial_opens in HD as [Hc ->]. set_solver. }
  by destruct r.
Qed.

Lemma paxos_call_call w srv m args :
  (∀ w' s, Dial w srv ≠ (w', inr (OtherError s))) →
  paxos_call w srv m args = Ok (call w srv m args).
Proof.
  intros Hop. unfold paxos_call, call. destruct (Dial w srv) as [w1 [c|[s|s]]]; [|done|by destruct (Hop w1 s)].
  by destruct (CallConn w1 c m args) as [w2 []].
Qed.
End call.

(** ** A lock server behind its socket *)

(** [opens]: the connections of the clients; [listening]: the listener is not
    closed; [ran]: the requests the handlers have executed, method and lock, for
    the statements. *)
Record LockWorld := mkLockWorld {
  server : LockServer;
  listening : bool;
  opens : gset nat;
  ran : list (string * string);
}.
#[export] Instance eta_lockworld : Eta LockWorld := λ w,
  mkLockWorld (server w) (listening w) (opens w) (ran w).

(** The handler a method name selects. *)
Definition lock_dispatch (ls : LockServer) (m name : string) : option (LockServer * bool) :=
  if String.eqb m "LockServer.Lock" then Some (Lock ls name)
  else if String.eqb m "LockServer.Unlock" then Some (Unlock ls name)
  else None.

Section lock_net.
Context (me : string).

Definition lock_dial (w : LockWorld) (srv : string) : LockWorld * (nat + DialError) :=
  if String.eqb srv me && listening w then
    let c := fresh (opens w) in
    (w <| opens := {[c]} ∪ opens w |>, inl c)
  else (w, inr (OpError "connect")).

(** A handler runs, or there is none for the method. *)
Definition lock_execute (w : LockWorld) (m name : string) : LockWorld * option bool :=
  match lock_dispatch (server w) m name with
  | Some (ls, ok) => (w <| server := ls |> <| ran := ran w ++ [(m, name)] |>, Some ok)
  | None => (w, None)
  end.

(** The accept loop takes the connection: it serves the request, serves it
    without answering (and stops listening), or drops the connection. *)
Definition lock_serve (w : LockWorld) (c : nat) (m name : string) : LockWorld * (bool + string) :=
  let '(ls, fate) := accept_turn (server w) false in
  let w := w <| server := ls |> in
  match fate with
  | Answered =>
      match lock_execute w m name with
      | (w, Some ok) => (w, inl ok)
      | (w, None) => (w, inr "rpc: can't find method"%string)
      end
  | Deaf => ((lock_execute w m name).1 <| listening := false |>, inr "EOF"%string)
  | Closed | NoConn => (w, inr "EOF"%string)
  end.

#[export] Instance lock_net : RpcLib LockWorld nat string bool := {
  Dial := lock_dial;
  CallConn := lock_serve;
  Close w c := w <| opens := opens w ∖ {[c]} |>;
}.

#[export] Program Instance lock_laws : RpcLaws lock_net := { opened := opens }.
Next Obligation.
  intros w srv w' c. cbn. unfold lock_dial. destruct (_ && _); [|done].
  intros [= <- <-]. split; [apply is_fresh|done].
Qed.
Next Obligation. intros w srv w' e. cbn. unfold lock_dial. destruct (_ && _); [done|]. by intros [= <-]. Qed.
Next Obligation.
  intros w c m a w' r. cbn. unfold lock_serve, lock_execute.
  destruct (accept_turn _ _) as [ls []]; cbn;
    try (destruct (lock_dispatch ls m a) as [[ls' ok]|]); by intros [= <- _].
Qed.
Next Obligation. done. Qed.

(** A clerk's Lock, through the helper. *)
Definition client_lock (w : LockWorld) (ck : Clerk) (name : string) : LockWorld * bool :=
  let r := lock_call (L:=lock_net) w (server0 ck) "LockServer.Lock" name in
  (fst r, ClerkLock (λ _ _, snd r) ck name).

#[local] Arguments client_lock : simpl never.

Notation lock_m := "LockServer.Lock"%string.
Notation unlock_m := "LockServer.Unlock"%string.

(** What happens, one request after another: a program on the socket calls a
    method, Lock and Unlock among them; a clerk asks for a lock, or to unlock one;
    kill() sets the flag, and closes the listener; the tester has the server die
    after one more request. *)
Inductive event :=
| ECall (srv m name : string)
| ELock (ck : Clerk) (name : string) | EUnlock (ck : Clerk) (name : string)
| EKill | EClose | EDying.

(** What the caller is told: method, lock and result. *)
Definition answer : Type := string * string * bool.

Definition handle (w : LockWorld) (e : event) : LockWorld * list answer :=
  match e with
  | ECall srv m name =>
      let '(w, r) := lock_call (L:=lock_net) w srv m name in (w, [(m, name, default false r)])
  | ELock ck name => let '(w, ok) := client_lock w ck name in (w, [(lock_m, name, ok)])
  | EUnlock ck name => (w, [(unlock_m, name, ClerkUnlock ck name)])
  | EKill => (w <| server := kill (server w) |>, [])
  | EClose => (w <| listening := false |>, [])
  | EDying => (w <| server := server w <| dying := true |> |>, [])
  end.

(** The world after the events, and every answer. *)
Fixpoint history (w : LockWorld) (es : list event) : LockWorld * list answer :=
  match es with
  | [] => (w, [])
  | e :: es =>
      let '(w, a) := handle w e in
      let '(w, l) := history w es in (w, a ++ l)
  end.

(** A new server on the socket. *)
Definition booted (w : LockWorld) : Prop :=
  (∃ p b am, server w = (StartServer p b am).1) ∧ ran w = [].

Definition locked (w : LockWorld) (x : string) : Prop := locks (server w) !! x = Some true.

(** A request to [srv] gets to the handlers, and is answered. *)
Definition answers (w : LockWorld) (srv : string) : bool :=
  String.eqb srv me && listening w && negb (dead (server w)) && negb (dying (server w)).

(** A lock is held if a request for it has run: no other request touches it. *)
Definition table_ok (w : LockWorld) : Prop := ∀ x, locked w x ↔ (lock_m, x) ∈ ran w.

Lemma Lock_locked ls name x :
  locks (Lock ls name).1 !! x = Some true ↔ x = name ∨ locks ls !! x = Some true.
Proof.
  unfold Lock. destruct (default false (locks ls !! name)) eqn:Hn; cbn.
  - split; [by right|]. intros [->|?]; [|done]. by destruct (locks ls !! name) as [[]|].
  - destruct (decide (name = x)) as [->|]; [rewrite lookup_insert_eq; tauto|].
    rewrite lookup_insert_ne by done. naive_solver.
Qed.

Lemma execute_spec w m name :
  let '(w', r) := lock_execute w m name in
  (table_ok w → table_ok w') ∧ opens w' = opens w ∧
  (r = Some true ↔ m = lock_m ∧ default false (locks (server w) !! name) = false) ∧
  (∀ x, x ∈ ran w → x ∈ ran w') ∧ (r = Some true → (m, name) ∈ ran w').
Proof.
  unfold lock_execute, lock_dispatch.
  destruct (String.eqb_spec m lock_m) as [->|Hl]; [|destruct (String.eqb_spec m unlock_m) as [->|Hu]].
  - pose proof (Lock_locked (server w) name) as HL. unfold Lock in *.
    destruct (default false (locks (server w) !! name)) eqn:Hn; cbn in *;
      (split_and!; [|done|naive_solver|intros; set_solver|intros; set_solver]);
      intros Ht x; unfold locked in *; cbn; rewrite HL, elem_of_app, list_elem_of_singleton, <- (Ht x);
      naive_solver.
  - cbn. split_and!; [|done|by naive_solver|intros; set_solver|done].
    intros Ht x. unfold locked. cbn. rewrite elem_of_app, list_elem_of_singleton, <- (Ht x).
    naive_solver.
  - split_and!; [done|done|naive_solver|done|done].
Qed.

(** What one request does to the world, and when it is granted. *)
Lemma lock_call_spec w srv m name :
  let '(w', r) := lock_call (L:=lock_net) w srv m name in
  (table_ok w → table_ok w') ∧ opens w' = opens w ∧ (∀ x, x ∈ ran w → x ∈ ran w') ∧
  (r = Some true ↔
     m = lock_m ∧ answers w srv = true ∧ default false (locks (server w) !! name) = false) ∧
  (r = Some true → (m, name) ∈ ran w').
Proof.
  pose proof (call_opened (L:=lock_net) w srv m name) as Ho. cbn [opened lock_laws] in Ho.
  unfold lock_call in *. destruct (call w srv m name) as [w' r] eqn:H. cbn [fst] in Ho.
  unfold answers. revert H. unfold call. cbn [Dial lock_net]. unfold lock_dial.
  destruct (String.eqb srv me && listening w) eqn:Hd; [|intros [= <- <-]; split_and!; naive_solver].
  cbn [CallConn lock_net]. unfold lock_serve, accept_turn. cbn.
  destruct (dead (server w)) eqn:Hdead; cbn; [intros [= <- <-]; split_and!; naive_solver|].
  destruct (dying (server w)) eqn:Hdy; cbn.
  - match goal with |- context [lock_execute ?v m name] => set (v0 := v) end.
    pose proof (execute_spec v0 m name) as HE. destruct (lock_execute v0 m name) as [w1 r1].
    destruct HE as (Ht & _ & _ & Hin & _). intros [= <- <-].
    split_and!; [exact Ht|exact Ho|exact Hin|naive_solver|done].
  - match goal with |- context [lock_execute ?v m name] => set (v0 := v) end.
    pose proof (execute_spec v0 m name) as HE. destruct (lock_execute v0 m name) as [w1 r1].
    destruct HE as (Ht & _ & Hr & Hin & Hran).
    destruct r1 as [ok|]; intros [= <- <-];
      (split_and!; [exact Ht|exact Ho|exact Hin| |exact Hran]); rewrite Hr; naive_solver.
Qed.

(** An event keeps the table; the one answer that can grant a lock is for a
    request that was answered, for a lock no request for which had run. *)
Lemma handle_spec w e :
  let '(w', l) := handle w e in
  (table_ok w → table_ok w') ∧ opens w' = opens w ∧ (∀ x, x ∈ ran w → x ∈ ran w') ∧
  (length l ≤ 1)%nat ∧
  ∀ x, (lock_m, x, true) ∈ l →
    default false (locks (server w) !! x) = false ∧ (lock_m, x) ∈ ran w'.
Proof.
  assert (Hcall : ∀ srv m name, let '(w', r) := lock_call (L:=lock_net) w srv m name in
    (table_ok w → table_ok w') ∧ opens w' = opens w ∧ (∀ x, x ∈ ran w → x ∈ ran w') ∧
    (length [(m, name, default false r)] ≤ 1)%nat ∧
    ∀ x, (lock_m, x, true) ∈ [(m, name, default false r)] →
      default false (locks (server w) !! x) = false ∧ (lock_m, x) ∈ ran w').
  { intros srv m name. pose proof (lock_call_spec w srv m name) as HS.
    destruct (lock_call w srv m name) as [w' r]. destruct HS as (Ht & Ho & Hi & Hr & Hran).
    split_and!; [done|done|done|cbn; lia|]. intros x Hin%list_elem_of_singleton.
    destruct r as [[]|]; cbn in Hin; try done. injection Hin as <- <-.
    split; [by apply Hr|by apply Hran]. }
  destruct e as [srv m name|ck name|ck name| | |]; cbn.
  - specialize (Hcall srv m name). by destruct (lock_call w srv m name).
  - specialize (Hcall (server0 ck) lock_m name). unfold client_lock, ClerkLock.
    destruct (lock_call w (server0 ck) lock_m name) as [w' [ok|]]; exact Hcall.
  - split_and!; [done|done|done|lia|]. by intros x Hin%list_elem_of_singleton.
  - split_and!; [done|done|done|lia|]. by intros x Hin%elem_of_nil.
  - split_and!; [done|done|done|lia|]. by intros x Hin%elem_of_nil.
  - split_and!; [done|done|done|lia|]. by intros x Hin%elem_of_nil.
Qed.

Lemma not_held w x : default false (locks (server w) !! x) = false ↔ ¬ locked w x.
Proof. unfold locked. by destruct (locks (server w) !! x) as [[]|]. Qed.

Lemma history_spec w es :
  table_ok w →
  let '(w', l) := history w es in
  table_ok w' ∧ opens w' = opens w ∧ (∀ x, x ∈ ran w → x ∈ ran w') ∧
  (∀ x, (lock_m, x, true) ∈ l → ¬ locked w x ∧ (lock_m, x) ∈ ran w') ∧
  (∀ x i j, l !! i = Some (lock_m, x, true) → l !! j = Some (lock_m, x, true) → i = j).
Proof.
  revert w. induction es as [|e es IH]; intros w Ht; cbn.
  { split_and!; try done. by intros x ?%elem_of_nil. }
  pose proof (handle_spec w e) as HS. destruct (handle w e) as [w1 a].
  destruct HS as (Ht1 & Ho1 & Hi1 & Hlen & Ha). specialize (Ht1 Ht). specialize (IH w1 Ht1).
  destruct (history w1 es) as [w2 l]. destruct IH as (Ht2 & Ho2 & Hi2 & Hl & Hu).
  split_and!; [done|congruence|auto| |].
  - intros x [Hin|Hin]%elem_of_app.
    + destruct (Ha x Hin) as [H1 H2]. split; [by apply not_held|auto].
    + destruct (Hl x Hin) as [H1 H2]. split; [|done]. rewrite (Ht x). intros Hr. apply H1.
      rewrite (Ht1 x). auto.
  - intros x i j.
    assert (Hno : (lock_m, x, true) ∈ a → (lock_m, x, true) ∉ l).
    { intros Hin Hin'. destruct (Ha x Hin) as [_ H2]. destruct (Hl x Hin') as [H1 _].
      apply H1. by apply Ht1. }
    destruct a as [|y [|]]; cbn in Hlen |- *; [by apply Hu| |lia].
    destruct i as [|i], j as [|j]; cbn; try done; intros H1 H2.
    + injection H1 as ->. destruct Hno; [by left|by eapply list_elem_of_lookup_2].
    + injection H2 as ->. destruct Hno; [by left|by eapply list_elem_of_lookup_2].
    + f_equal. by eapply Hu.
Qed.

(** C37. The lock server from end to end: whatever methods are called on its
    socket, Lock and Unlock among them, one call after another, whatever the
    clerks ask, and whenever kill sets the flag and closes the listener, or the
    server dies after one more request that it executes without an answer: a Lock
    is granted if and only if it is answered and no request for that lock has run
    before, answered or not; so, as Unlock is not written, no lock is
    granted twice, even if it was unlocked in between, which TestBasic expects; the
    table holds exactly the locks some request for which has run; and every
    connection the helper opened is closed, whether the call succeeded or not. *)
Theorem mutual_exclusion w es :
  booted w →
  let '(w', l) := history w es in
  (∀ srv name, (lock_call (L:=lock_net) w' srv lock_m name).2 = Some true ↔
     answers w' srv = true ∧ (lock_m, name) ∉ ran w') ∧
  (∀ x i j, l !! i = Some (lock_m, x, true) → l !! j = Some (lock_m, x, true) → i = j) ∧
  (∀ x, (lock_m, x, true) ∈ l → locked w' x) ∧
  (∀ x, locked w' x ↔ (lock_m, x) ∈ ran w') ∧ opens w' = opens w.
Proof.
  intros [(p & b & am & Hs) Hr].
  assert (Ht : table_ok w) by (intros x; unfold locked; rewrite Hs, Hr, elem_of_nil; done).
  pose proof (history_spec w es Ht) as HH. destruct (history w es) as [w' l].
  destruct HH as (Ht' & Ho & _ & Hl & Hu). split_and!; [|done| |done|done].
  - intros srv name. pose proof (lock_call_spec w' srv lock_m name) as HS.
    destruct (lock_call w' srv lock_m name) as [w1 r]. destruct HS as (_ & _ & _ & Hg & _).
    cbn. rewrite Hg, not_held, (Ht' name). naive_solver.
  - intros x [_ Hin]%Hl. by apply Ht'.
Qed.
End lock_net.

(** ** Two clerks, and a server that dies *)

Definition new_server : LockWorld := mkLockWorld (StartServer "lock" "" true).1 true ∅ [].
Definition ck0 : Clerk := MakeClerk "lock" "".
Definition contend : list event :=
  [ELock ck0 "a"; EUnlock ck0 "a"; ECall "lock" "LockServer.Unlock" "a"; ELock ck0 "a"; EDying;
   ELock ck0 "b"; ELock ck0 "b"; EClose].
Definition told : list answer :=
  [("LockServer.Lock", "a", true); ("LockServer.Unlock", "a", false);
   ("LockServer.Unlock", "a", false); ("LockServer.Lock", "a", false);
   ("LockServer.Lock", "b", false); ("LockServer.Lock", "b", false)]%string.

Lemma mutual_exclusion_witness :
  booted new_server ∧ (history "lock" new_server contend).2 = told ∧
  locked (history "lock" new_server contend).1 "a" ∧
  locked (history "lock" new_server contend).1 "b" ∧
  opens (history "lock" new_server contend).1 = ∅.
Proof.
  assert (Hb : booted new_server) by (split; [by exists "lock", "", true|reflexivity]).
  split; [exact Hb|]. pose proof (mutual_exclusion "lock" new_server contend Hb) as H.
  assert (Ha : (history "lock" new_server contend).2 = told) by (vm_compute; reflexivity).
  assert (Hr : ("LockServer.Lock", "b") ∈ ran (history "lock" new_server contend).1).
  { vm_compute. do 3 right. left. }
  split; [exact Ha|]. destruct (history "lock" new_server contend) as [w l]. cbn in Ha, Hr. subst l.
  destruct H as (_ & _ & Hl & Ht & Ho). split; [apply Hl; left|]. split; [apply Ht; exact Hr|exact Ho].
Defined.
End NetCall.
