(* ===== verification/Drivers.v ===== *)
(** * Drivers: the command-line programs

    Models the programs of src/src/main and the two programs of src/src/rpc: how
    they read their arguments, what they start with them, and how they end.  The
    functions of strconv are written out as the standard library documents
    them. *)
From Stdlib Require Import Ascii.
From S2P Require Import Prelude LockService MapReduce.

Module Strconv.

(** The error of a conversion: not a numeral, or a numeral that does not fit. *)
Inductive NumError := ErrSyntax | ErrRange.

Definition MaxUint64 : Z := 2 ^ 64 - 1.
Definition byte_at (c : Ascii.ascii) : Z := Z.of_nat (Ascii.nat_of_ascii c).
Definition digit_of (c : Ascii.ascii) : option Z :=
  let d := byte_at c - 48 in if (0 <=? d) && (d <=? 9) then Some d else None.

(** The loop of [ParseUint] in base 10: it stops at the first byte that is not a
    digit, or at the first digit with which the value does not fit. *)
Fixpoint parse_digits (n : Z) (s : string) : Z * option NumError :=
  match s with
  | EmptyString => (n, None)
  | String c s =>
      match digit_of c with
      | None => (0, Some ErrSyntax)
      | Some d => if MaxUint64 <? n * 10 + d then (MaxUint64, Some ErrRange)
                  else parse_digits (n * 10 + d) s
      end
  end.

Definition ParseUint (s : string) : Z * option NumError :=
  match s with EmptyString => (0, Some ErrSyntax) | _ => parse_digits 0 s end.

(** The sign, then the digits; a value that does not fit is the nearest one. *)
Definition ParseInt (s : string) : Z * option NumError :=
  let '(neg, ds) := match s with
                    | String c t => if Ascii.eqb c "+"%char then (false, t)
                                    else if Ascii.eqb c "-"%char then (true, t) else (false, s)
                    | EmptyString => (false, s)
                    end in
  match ParseUint ds with
  | (_, Some ErrSyntax) => (0, Some ErrSyntax)
  | (un, e) =>
      if neg then if 2 ^ 63 <? un then (MinInt64, Some ErrRange) else (- un, e)
      else if 2 ^ 63 <=? un then (MaxInt64, Some ErrRange) else (un, e)
  end.

(** On a 64-bit machine an int has the range of an int64. *)
Definition Atoi (s : string) : Z * option NumError := ParseInt s.

Definition ParseBool (s : string) : bool * option NumError :=
  if bool_decide (s ∈ ["1"; "t"; "T"; "TRUE"; "true"; "True"]%string) then (true, None)
  else if bool_decide (s ∈ ["0"; "f"; "F"; "FALSE"; "false"; "False"]%string) then (false, None)
  else (false, Some ErrSyntax).

(** ** Parsing what [Itoa] prints *)

Lemma digit_of_char x : (x < 10)%N → digit_of (pretty_N_char x) = Some (Z.of_N x).
Proof.
  intros Hx. assert (x = 0 ∨ x = 1 ∨ x = 2 ∨ x = 3 ∨ x = 4 ∨ x = 5 ∨ x = 6 ∨ x = 7 ∨ x = 8 ∨ x = 9)%N as H by lia.
  destruct_or! H; by subst.
Qed.

Lemma parse_pretty_go x s :
  Z.of_N x ≤ MaxUint64 → parse_digits 0 (pretty_N_go x s) = parse_digits (Z.of_N x) s.
Proof.
  revert s. induction (N.lt_wf_0 x) as [x _ IH]. intros s Hx.
  destruct (decide (x = 0%N)) as [->|Hne]; [by rewrite pretty_N_go_0|].
  rewrite pretty_N_go_step by lia.
  assert (x `mod` 10 < 10)%N as Hm by (by apply N.mod_lt).
  pose proof (N.div_mod' x 10) as Hd.
  assert (x `div` 10 < x)%N as Hlt by (apply N.div_lt; lia).
  generalize dependent (x `mod` 10)%N. generalize dependent (x `div` 10)%N. intros q Hlt r Hm Hd.
  rewrite IH by lia. cbn [parse_digits].
  rewrite digit_of_char by lia.
  replace (Z.of_N q * 10 + Z.of_N r) with (Z.of_N x) by lia.
  destruct (Z.ltb_spec MaxUint64 (Z.of_N x)); [lia|done].
Qed.

Lemma ParseUint_pretty (x : N) : Z.of_N x ≤ MaxUint64 → ParseUint (pretty x) = (Z.of_N x, None).
Proof.
  intros Hx. unfold pretty, pretty_N. case_decide as H; [by subst|].
  pose proof (parse_pretty_go x "" Hx) as Hp. unfold ParseUint.
  destruct (pretty_N_go x ""); [|exact Hp]. injection Hp as ?. lia.
Qed.

Lemma digit_no_sign c : digit c → Ascii.eqb c "+"%char = false ∧ Ascii.eqb c "-"%char = false.
Proof.
  intros [H _]. by split; apply Ascii.eqb_neq; intros ->; apply Nat.leb_le in H.
Qed.

(** [strconv.ParseInt] reads back what [strconv.Itoa] writes. *)
Lemma ParseInt_Itoa n : MinInt64 ≤ n ≤ MaxInt64 → ParseInt (Itoa n) = (n, None).
Proof.
  unfold MinInt64, MaxInt64, Itoa. intros Hn. destruct n as [|p|p]; [done|..].
  - change (pretty (Z.pos p)) with (pretty (N.pos p)). unfold ParseInt.
    pose proof (ParseUint_pretty (N.pos p)) as Hp. unfold MaxUint64 in Hp.
    pose proof (pretty_N_digits (N.pos p)) as Hdig.
    destruct (pretty (N.pos p)) as [|c t]; [specialize (Hp ltac:(lia)); done|].
    destruct (digit_no_sign c) as [-> ->]; [apply Hdig; by left|].
    rewrite Hp by lia. destruct (Z.leb_spec (2 ^ 63) (Z.of_N (N.pos p))); [lia|done].
  - change (pretty (Z.neg p)) with (String "-"%char (pretty (N.pos p))). unfold ParseInt. cbn [Ascii.eqb Bool.eqb].
    rewrite ParseUint_pretty by (unfold MaxUint64; lia).
    destruct (Z.ltb_spec (2 ^ 63) (Z.of_N (N.pos p))); [lia|done].
Qed.
End Strconv.

(** ** diskvd *)

Module Diskvd.
Import Strconv.

(** The variables of main. *)
(*@ src/src/main/diskvd.go 31-37 main (variables) *)
Record Opts := mkOpts {
  gid : Z;
  masters : list string;
  replicas : list string;
  me : Z;
  unreliable : bool;
  dir : string;
  restart : bool;
}.
#[export] Instance eta_opts : Eta Opts := λ o,
  mkOpts (gid o) (masters o) (replicas o) (me o) (unreliable o) (dir o) (restart o).
Definition opts0 : Opts := mkOpts (-1) [] [] (-1) false "" false.

(** One flag and its value; [None] when the flag is unknown.  The errors of the
    conversions are dropped. *)
(*@ src/src/main/diskvd.go 40-58 main (one flag) *)
Definition set_opt (o : Opts) (a0 a1 : string) : option Opts :=
  if String.eqb a0 "-g" then Some (o <| gid := fst (ParseInt a1) |>)
  else if String.eqb a0 "-m" then Some (o <| masters := masters o ++ [a1] |>)
  else if String.eqb a0 "-s" then Some (o <| replicas := replicas o ++ [a1] |>)
  else if String.eqb a0 "-i" then Some (o <| me := fst (Atoi a1) |>)
  else if String.eqb a0 "-u" then Some (o <| unreliable := fst (ParseBool a1) |>)
  else if String.eqb a0 "-d" then Some (o <| dir := a1 |>)
  else if String.eqb a0 "-r" then Some (o <| restart := fst (ParseBool a1) |>)
  else None.

(** Two arguments at a time; an argument left alone is not looked at. *)
(*@ src/src/main/diskvd.go 39-59 main (loop) *)
Fixpoint parse_args (o : Opts) (args : list string) : option Opts :=
  match args with
  | a0 :: a1 :: rest => match set_opt o a0 a1 with Some o' => parse_args o' rest | None => None end
  | _ => Some o
  end.

(*@ src/src/main/diskvd.go 61-63 main (test) *)
Definition incomplete (o : Opts) : bool :=
  (gid o <? 0) || (me o <? 0) || (len (masters o) <? 1) || (len (replicas o) <=? me o) ||
  String.eqb (dir o) "".

(** What diskv.StartServer and Setunreliable are called with, for the arguments
    after the name of the program; [None]: the usage message and exit status 1. *)
(*@ src/src/main/diskvd.go 30-74 main *)
Definition main (args : list string) : option Opts :=
  match parse_args opts0 args with
  | Some o => if incomplete o then None else Some o
  | None => None
  end.

(** *** The options by name *)

Definition known (f : string) : bool :=
  bool_decide (f ∈ ["-g"; "-m"; "-s"; "-i"; "-u"; "-d"; "-r"]%string).
Definition values (f : string) (ps : list (string * string)) : list string :=
  (filter (λ p, fst p = f) ps).*2.
Definition last_as {A} (parse : string → A) (d : A) (vs : list string) : A :=
  default d (parse <$> last vs).

(** The options a list of flags with values stands for: the last value of a flag
    counts, but for "-m" and "-s", whose values add up. *)
Definition options (o : Opts) (ps : list (string * string)) : Opts :=
  mkOpts (last_as (λ s, fst (ParseInt s)) (gid o) (values "-g" ps))
    (masters o ++ values "-m" ps) (replicas o ++ values "-s" ps)
    (last_as (λ s, fst (Atoi s)) (me o) (values "-i" ps))
    (last_as (λ s, fst (ParseBool s)) (unreliable o) (values "-u" ps))
    (last_as id (dir o) (values "-d" ps))
    (last_as (λ s, fst (ParseBool s)) (restart o) (values "-r" ps)).

Definition flatten (ps : list (string * string)) : list string := ps ≫= λ p, [fst p; snd p].

Lemma values_cons f a v ps :
  values f ((a, v) :: ps) = if String.eqb a f then v :: values f ps else values f ps.
Proof.
  unfold values. destruct (String.eqb_spec a f).
  - by rewrite filter_cons_True.
  - by rewrite filter_cons_False.
Qed.

Lemma last_as_cons {A} (parse : string → A) d v vs :
  last_as parse d (v :: vs) = last_as parse (parse v) vs.
Proof. unfold last_as. rewrite last_cons. by destruct (last vs). Qed.

Lemma set_opt_options o a v ps :
  match set_opt o a v with
  | Some o' => known a = true ∧ options o ((a, v) :: ps) = options o' ps
  | None => known a = false
  end.
Proof.
  unfold set_opt, options, known. rewrite !values_cons.
  repeat match goal with |- context [String.eqb a ?f] =>
    destruct (String.eqb_spec a f) as [->|] end;
    cbn [String.eqb Ascii.eqb Bool.eqb]; rewrite ?last_as_cons;
    try (split; [done|cbn; by rewrite <- ?app_assoc]).
  apply bool_decide_eq_false_2. intros Hin.
  repeat (apply elem_of_cons in Hin as [->|Hin]; [done|]). by apply elem_of_nil in Hin.
Qed.

(** The loop computes the options by name, and stops at an unknown flag. *)
Lemma parse_args_options o ps extra :
  (length extra ≤ 1)%nat →
  parse_args o (flatten ps ++ extra) =
    if forallb (known ∘ fst) ps then Some (options o ps) else None.
Proof.
  intros Hx. revert o. induction ps as [|[a v] ps IH]; intros o.
  - destruct extra as [|? [|]]; [..|cbn in Hx; lia]; cbn; unfold options; cbn;
      rewrite !app_nil_r; by destruct o.
  - change (parse_args o (a :: v :: (flatten ps ++ extra)) =
      if known a && forallb (known ∘ fst) ps then Some (options o ((a, v) :: ps)) else None).
    cbn [parse_args]. pose proof (set_opt_options o a v ps) as Hs.
    destruct (set_opt o a v) as [o'|]; [|by rewrite Hs].
    destruct Hs as [-> ->]. by rewrite IH.
Qed.

(** *** Printing options and reading them back *)

Definition show_bool (b : bool) : string := if b then "true" else "false".
Definition render (o : Opts) : list (string * string) :=
  [("-g"%string, Itoa (gid o))] ++ (pair "-m"%string <$> masters o) ++
  (pair "-s"%string <$> replicas o) ++
  [("-i"%string, Itoa (me o)); ("-u"%string, show_bool (unreliable o)); ("-d"%string, dir o);
   ("-r"%string, show_bool (restart o))].

Lemma values_app f ps qs : values f (ps ++ qs) = values f ps ++ values f qs.
Proof. unfold values. by rewrite filter_app, fmap_app. Qed.

Lemma values_pairs f g vs : values f (pair g <$> vs) = if String.eqb g f then vs else [].
Proof.
  induction vs as [|v vs IH]; [by destruct (String.eqb g f)|]. cbn [fmap list_fmap].
  rewrite values_cons. change (list_fmap _ _ (pair g) vs) with (pair g <$> vs). rewrite IH.
  by destruct (String.eqb g f).
Qed.

Lemma ParseBool_show b : fst (ParseBool (show_bool b)) = b.
Proof. by destruct b. Qed.

Lemma options_render o :
  MinInt64 ≤ gid o ≤ MaxInt64 → MinInt64 ≤ me o ≤ MaxInt64 → options opts0 (render o) = o.
Proof.
  intros Hg Hm. unfold options, render. rewrite !values_app, !values_pairs, !values_cons.
  cbn [String.eqb Ascii.eqb Bool.eqb values filter list_filter fmap list_fmap app].
  rewrite ?app_nil_r. unfold last_as. cbn [last fmap option_fmap option_map default].
  unfold Atoi. rewrite !ParseInt_Itoa, !ParseBool_show by done. by destruct o.
Qed.

(** diskvd starts the server it is asked for: when the arguments name a group, a
    replica of the list, some masters and a directory, the options printed as
    arguments, with or without a stray last argument, are those the server is
    started with. *)
Theorem main_render o extra :
  0 ≤ gid o ≤ MaxInt64 → 0 ≤ me o < len (replicas o) → me o ≤ MaxInt64 →
  masters o ≠ [] → dir o ≠ "" → (length extra ≤ 1)%nat →
  main (flatten (render o) ++ extra) = Some o.
Proof.
  intros Hg Hm Hmax Hms Hd Hx. unfold main. rewrite parse_args_options by done.
  assert (forallb (known ∘ fst) (render o) = true) as ->.
  { apply forallb_forall. intros [f v] Hin%list_elem_of_In. unfold render in Hin. cbn.
    rewrite !elem_of_app, !list_elem_of_fmap, !elem_of_cons in Hin.
    destruct_or! Hin; try (by apply elem_of_nil in Hin);
      try (by injection Hin as -> ->); destruct Hin as (? & [= -> ->] & _); done. }
  rewrite options_render by (unfold MinInt64, MaxInt64 in *; lia).
  assert (incomplete o = false) as ->; [|done].
  unfold incomplete. rewrite !orb_false_iff. split_and!; try lia.
  - destruct (masters o) as [|m ms]; [done|]. apply Z.ltb_ge. unfold len. cbn [length]. lia.
  - by apply String.eqb_neq.
Qed.

(** The error of Atoi is dropped: an index that is not a number starts the server
    as replica 0 of the group. *)
Lemma bad_index_is_zero :
  main ["-g"; "1"; "-m"; "m0"; "-s"; "s0"; "-s"; "s1"; "-i"; "s1"; "-d"; "/tmp/d"] =
    Some (mkOpts 1 ["m0"] ["s0"; "s1"] 0 false "/tmp/d" false).
Proof. reflexivity. Qed.
End Diskvd.

(** ** The other programs *)

Module Programs.

(** What a program does with its arguments (after its name): it goes on with
    [a], or it prints its usage message and exits with status 1. *)
Inductive Outcome (A : Type) := Runs (a : A) | Usage.
Arguments Runs {A} a.
Arguments Usage {A}.

(** The server and the port it listens on. *)
(*@ src/src/main/lockd.go 19-31 main *)
Definition lockd (args : list string) : Outcome (LockService.LockServer * string) :=
  match args with
  | [flag; a; b] =>
      if String.eqb flag "-p" then Runs (LockService.StartServer a b true)
      else if String.eqb flag "-b" then Runs (LockService.StartServer a b false)
      else Usage
  | _ => Usage
  end.

(** The printed reply; [rpc] is the call of "LockServer.Lock". *)
(*@ src/src/main/lockc.go 16-31 main *)
Definition lockc (rpc : string → string → option bool) (args : list string) : Outcome bool :=
  match args with
  | [flag; p; b; name] =>
      let ck := LockService.MakeClerk p b in
      if String.eqb flag "-l" then Runs (LockService.ClerkLock rpc ck name)
      else if String.eqb flag "-u" then Runs (LockService.ClerkUnlock ck name)
      else Usage
  | _ => Usage
  end.

(** The port of the view service. *)
(*@ src/src/main/viewd.go 12-23 main *)
Definition viewd (args : list string) : Outcome string :=
  match args with [port] => Runs port | _ => Usage end.

(** The port of the view service and the server's own. *)
(*@ src/src/main/pbd.go 12-23 main *)
Definition pbd (args : list string) : Outcome (string * string) :=
  match args with [vshost; me] => Runs (vshost, me) | _ => Usage end.

(** A Get or a Put of the primary/backup service's clerk. *)
Inductive PBCall := PBGet (key : string) | PBPut (key value : string).
(*@ src/src/main/pbc.go 31-44 main *)
Definition pbc (args : list string) : Outcome (string * PBCall) :=
  match args with
  | [vshost; key] => Runs (vshost, PBGet key)
  | [vshost; key; value] => Runs (vshost, PBPut key value)
  | _ => Usage
  end.

(** The lock server started by lockd answers lockc when it listens where lockc
    asks: the first port is that of a server started with "-p"; one started with
    "-b" listens on the second, which lockc never asks. *)
Lemma lockd_lockc a b name ls port :
  lockd ["-p"; a; b]%string = Runs (ls, port) →
  lockc (λ srv n, if String.eqb srv port then Some (snd (LockService.Lock ls n)) else None)
    ["-l"; a; b; name]%string = Runs true.
Proof. intros [= <- <-]. cbn. unfold LockService.ClerkLock. cbn. by rewrite String.eqb_refl. Qed.

Lemma lockc_asks_primary a b name ls port rpc :
  a ≠ b → lockd ["-b"; a; b]%string = Runs (ls, port) → (∀ srv n, srv ≠ port → rpc srv n = None) →
  lockc rpc ["-l"; a; b; name]%string = Runs false.
Proof. intros Hne [= <- <-] Hr. cbn. unfold LockService.ClerkLock. cbn. by rewrite Hr. Qed.

(** *** wc and ii *)

Import MapReduce.

(** What is started: the name of the job, its input files, and for a worker its
    number of requests.  Both programs give three reduce tasks and 100 requests per
    worker.  With fewer than three arguments they print a line and end normally. *)
Inductive MRStart :=
| MRSequential (job : string) (files : list string) (nreduce : Z)
| MRDistributed (job : string) (files : list string) (nreduce : Z) (master : string)
| MRWorker (master me : string) (nRPC : Z)
| MRHint.

Definition mr_main (job : string) (args : list string) : MRStart :=
  match args with
  | role :: place :: f :: fs =>
      if String.eqb role "master" then
        if String.eqb place "sequential" then MRSequential job (f :: fs) 3
        else MRDistributed job (f :: fs) 3 place
      else MRWorker place f 100
  | _ => MRHint
  end.

(*@ src/src/main/wc.go 28-42 main *)
Definition wc_main := mr_main "wcseq".
(*@ src/src/main/ii.go 26-40 main *)
Definition ii_main := mr_main "iiseq".

Definition mr_job (st : MRStart) : option string :=
  match st with MRSequential job _ _ | MRDistributed job _ _ _ => Some job | _ => None end.

(** The two programs can run in one directory: their files have different names. *)
Lemma jobs_apart wargs iargs job1 job2 :
  mr_job (wc_main wargs) = Some job1 → mr_job (ii_main iargs) = Some job2 →
  ∀ t1 t2 r1 r2, mergeName job1 t1 ≠ mergeName job2 t2 ∧ reduceName job1 t1 r1 ≠ reduceName job2 t2 r2.
Proof.
  assert (Hj : ∀ job args, mr_job (mr_main job args) = Some job ∨ mr_job (mr_main job args) = None).
  { intros job [|role [|place [|f fs]]]; cbn; auto. repeat case_match; auto. }
  intros H1 H2. destruct (Hj "wcseq"%string wargs) as [E|E]; unfold wc_main in H1; [|congruence].
  destruct (Hj "iiseq"%string iargs) as [E'|E']; unfold ii_main in H2; [|congruence].
  assert (job1 = "wcseq"%string) as -> by congruence.
  assert (job2 = "iiseq"%string) as -> by congruence. done.
Qed.

(** Not written yet: they do nothing. *)
(*@ src/src/mapreduce/common_map.go 10-16 doMap *)
Definition doMap (job : string) (task : Z) (file : string) (nReduce : Z) (disk : FS) : res FS :=
  Ok disk.
(*@ src/src/mapreduce/common_reduce.go 7-12 doReduce *)
Definition doReduce (job : string) (task nMap : Z) (disk : FS) : res FS := Ok disk.

Definition do_task (t : Task) (disk : FS) : res FS :=
  match t with
  | DoMap job task file nReduce => doMap job task file nReduce disk
  | DoReduce job task nMap => doReduce job task nMap disk
  end.

Fixpoint do_tasks (ts : list Task) (disk : FS) : res FS :=
  match ts with [] => Ok disk | t :: ts => disk' ← do_task t disk; do_tasks ts disk' end.

Section sequential.
Context (decode : string → list KeyValue) (iter : FS → list string) (output : Output).

(*@ src/src/mapreduce/master.go 55-75 Sequential *)
Definition Sequential (job : string) (fls : list string) (nreduce : Z) (disk : FS) :
    res (Master * FS) :=
  run decode iter output (newMaster "master") job fls nreduce
    (λ mr phase disk, do_tasks (sequential_schedule mr phase) disk)
    (λ mr, mr <| stats := [int64 (len fls + nreduce)] |>) disk.

Lemma do_tasks_unwritten ts disk : do_tasks ts disk = Ok disk.
Proof. by induction ts as [|[] ts IH]. Qed.

(** As nothing writes the files it merges, a sequential job ends the process,
    unless an earlier job of that name has left all of them on the disk. *)
Lemma Sequential_unwritten job fls nreduce disk i :
  0 ≤ i < nreduce → disk !! mergeName job i = None → Sequential job fls nreduce disk = Fatal.
Proof.
  intros Hi Hmiss. unfold Sequential, run. rewrite do_tasks_unwritten. cbn.
  rewrite do_tasks_unwritten. cbn. unfold merge, merge_read. cbn [jobName nReduce update].
  assert (Hf : ∀ l, i ∈ l → (mapM (M := res) (λ k, match disk !! mergeName job k with
      | Some c => Ok c | None => Fatal end) l) = Fatal).
  { induction l as [|k l IH]; [by intros ?%elem_of_nil|]. intros [<-|Hin]%elem_of_cons; cbn.
    - by rewrite Hmiss.
    - destruct (disk !! mergeName job k); [|done]. cbn. by rewrite IH. }
  cbn. rewrite Hf; [done|]. by apply elem_of_range.
Qed.
End sequential.

(** *** The arithmetic service over HTTP *)

(** The networks on which [net.Listen] of the standard library can listen. *)
Definition can_listen (network : string) : bool :=
  bool_decide (network ∈ ["tcp"; "tcp4"; "tcp6"; "unix"; "unixpacket"]%string).

(** [free]: the address is free. *)
Definition Listen (free : bool) (network : string) : bool := can_listen network && free.

(*@ src/src/rpc/server/server.go 35-44 main *)
Definition arith_main (free : bool) : res unit :=
  if Listen free "udp" then Ok tt else Fatal.

(** A stream listener does not exist on UDP: the server never serves. *)
Lemma arith_main_fatal free : arith_main free = Fatal.
Proof. done. Qed.
End Programs.
