(* ===== verification/Services.v ===== *)
(** * Services: the servers over net/rpc as they start, and their handlers

    Models the constructors of the servers of src/src that listen on a socket of
    their own (kvpaxos, paxos-shardmaster, paxos-shardkv, diskv, pbservice,
    viewservice) and of the Paxos library, and the handlers and clerks of these
    services and of shardmaster and shardkv, whose bodies are unwritten: they
    leave the server as it is and the reply with its zero value.  The accept loops
    are in Listener.v, the loops of the sharded stores' clerks in Clerks.v; here
    the clerks meet the servers.  [can_listen] says where net.Listen succeeds. *)
From S2P Require Import Prelude Listener Clerks Drivers.

Module Services.
Import Listener Clerks.

(** ** The Paxos library *)

(*@ src/src/paxos/paxos.go 39-45 Fate *)
Inductive PaxosFate := Decided | Pending | Forgotten.

(** A peer that is part of another server has no listener of its own. *)
(*@ src/src/paxos/paxos.go 47-58 Paxos *)
Record Paxos := mkPaxos { px_peers : list string; px_me : Z; px_port : option string }.

(** Where a server listens: its own entry in the list of the servers. *)
Definition serve_at (can_listen : string → bool) (servers : list string) (me : Z) : res string :=
  port ← slice_get servers me;
  if can_listen port then mret port else Fatal.

(** [shared]: the caller passes the RPC server the peer is registered with. *)
(*@ src/src/paxos/paxos.go 212-238 Make *)
Definition Make (can_listen : string → bool) (peers : list string) (me : Z) (shared : bool) :
    res Paxos :=
  if shared then mret (mkPaxos peers me None)
  else port ← serve_at can_listen peers me; mret (mkPaxos peers me (Some port)).

Section agreement.
Context {V : Type}.

(** Start and Done do nothing; no instance is ever decided. *)
(*@ src/src/paxos/paxos.go 104-106 Paxos.Start *)
Definition Start (px : Paxos) (seq : Z) (v : V) : Paxos := px.
(*@ src/src/paxos/paxos.go 114-116 Paxos.Done *)
Definition Done (px : Paxos) (seq : Z) : Paxos := px.
(*@ src/src/paxos/paxos.go 123-126 Paxos.Max *)
Definition Max (px : Paxos) : Z := 0.
(*@ src/src/paxos/paxos.go 156-159 Paxos.Min *)
Definition Min (px : Paxos) : Z := 0.
(*@ src/src/paxos/paxos.go 168-171 Paxos.Status *)
Definition Status (px : Paxos) (seq : Z) : PaxosFate * option V := (Pending, None).
End agreement.

(** ** The servers *)

Definition fresh_flags : Flags := mkFlags 0 0 0 true 0.

(** kvpaxos *)
(*@ src/src/kvpaxos/server.go 32-41 KVPaxos *)
Record KVPaxos := mkKVPaxos { kx_me : Z; kx_px : Paxos; kx_port : string; kx_flags : Flags }.
(*@ src/src/kvpaxos/server.go 88-112 StartServer *)
Definition kvpaxos_StartServer can_listen (servers : list string) (me : Z) : res KVPaxos :=
  px ← Make can_listen servers me true;
  port ← serve_at can_listen servers me;
  mret (mkKVPaxos me px port fresh_flags).
(*@ src/src/kvpaxos/common.go 11-28 PutAppendArgs, GetArgs *)
Record KVArgs := mkKVArgs { kx_Key : string; kx_Value : string; kx_Op : string }.
(*@ src/src/kvpaxos/common.go 30-33 GetReply *)
Definition no_value : PGetReply := mkPGetReply "" "".
(*@ src/src/kvpaxos/server.go 44-47 KVPaxos.Get *)
Definition kvpaxos_Get (kv : KVPaxos) (key : string) : KVPaxos * PGetReply := (kv, no_value).
(*@ src/src/kvpaxos/server.go 49-53 KVPaxos.PutAppend *)
Definition kvpaxos_PutAppend (kv : KVPaxos) (args : KVArgs) : KVPaxos * string := (kv, ""%string).
(** A clerk of this package, and of the shard master's two versions, is the list of
    its servers. *)
(*@ src/src/kvpaxos/client.go 21-26 MakeClerk *)
Definition kvpaxos_MakeClerk (servers : list string) : list string := servers.
(** The clerk calls nobody. *)
(*@ src/src/kvpaxos/client.go 67-70 Clerk.Get *)
Definition kvpaxos_ClerkGet (key : string) : string := "".
(*@ src/src/kvpaxos/client.go 75-84 Clerk.PutAppend, Clerk.Put, Clerk.Append *)
Definition kvpaxos_ClerkPutAppend (key value op : string) : unit := tt.

(** paxos-shardmaster: the configuration 0, without groups. *)
Definition no_config : PConfig := mkPConfig 0 (replicate 10 0) ∅.
(*@ src/src/paxos-shardmaster/server.go 16-25 ShardMaster *)
Record PShardMaster := mkPSM {
  psm_me : Z; psm_px : Paxos; psm_port : string; psm_flags : Flags; psm_configs : list PConfig
}.
(*@ src/src/paxos-shardmaster/client.go 16-20 MakeClerk *)
Definition psm_MakeClerk (servers : list string) : list string := servers.
(*@ src/src/paxos-shardmaster/server.go 88-108 StartServer *)
Definition pshardmaster_StartServer can_listen (servers : list string) (me : Z) :
    res PShardMaster :=
  px ← Make can_listen servers me true;
  port ← serve_at can_listen servers me;
  mret (mkPSM me px port fresh_flags [no_config]).
(*@ src/src/paxos-shardmaster/server.go 33-37 ShardMaster.Join *)
Definition pshardmaster_Join (sm : PShardMaster) (args : Z * list string) : PShardMaster * unit :=
  (sm, tt).
(*@ src/src/paxos-shardmaster/server.go 39-43 ShardMaster.Leave *)
Definition pshardmaster_Leave (sm : PShardMaster) (gid : Z) : PShardMaster * unit := (sm, tt).
(*@ src/src/paxos-shardmaster/server.go 45-49 ShardMaster.Move *)
Definition pshardmaster_Move (sm : PShardMaster) (args : Z * Z) : PShardMaster * unit := (sm, tt).
(*@ src/src/paxos-shardmaster/server.go 51-55 ShardMaster.Query *)
Definition pshardmaster_Query (sm : PShardMaster) (num : Z) : PShardMaster * PConfig :=
  (sm, no_config).

(** paxos-shardkv and diskv: a clerk of the shard master, and for diskv the
    directory. *)
(*@ src/src/paxos-shardkv/server.go 33-45 ShardKV *)
Record PShardKV := mkPSKV {
  pkv_me : Z; pkv_gid : Z; pkv_sm : list string; pkv_px : Paxos; pkv_port : string;
  pkv_flags : Flags
}.
(*@ src/src/paxos-shardkv/server.go 101-126 StartServer *)
Definition pshardkv_StartServer can_listen (gid : Z) (shardmasters servers : list string) (me : Z) :
    res PShardKV :=
  px ← Make can_listen servers me true;
  port ← serve_at can_listen servers me;
  mret (mkPSKV me gid shardmasters px port fresh_flags).
(*@ src/src/paxos-shardkv/server.go 48-51 ShardKV.Get *)
Definition pshardkv_Get (kv : PShardKV) (key : string) : PShardKV * PGetReply := (kv, no_value).
(*@ src/src/paxos-shardkv/server.go 54-57 ShardKV.PutAppend *)
Definition pshardkv_PutAppend (kv : PShardKV) (args : PutAppendArgs) : PShardKV * string :=
  (kv, ""%string).
(*@ src/src/paxos-shardkv/server.go 63-64 ShardKV.tick *)
Definition pshardkv_tick (kv : PShardKV) : PShardKV := kv.

(*@ src/src/diskv/server.go 36-49 DisKV *)
Record DisKV := mkDisKV {
  dkv_me : Z; dkv_gid : Z; dkv_sm : list string; dkv_dir : string; dkv_px : Paxos;
  dkv_port : string; dkv_flags : Flags
}.
(** Whether the server is restarted is not looked at. *)
(*@ src/src/diskv/server.go 202-232 StartServer *)
Definition diskv_StartServer can_listen (gid : Z) (shardmasters servers : list string) (me : Z)
    (dir : string) (restart : bool) : res DisKV :=
  px ← Make can_listen servers me true;
  port ← serve_at can_listen servers me;
  mret (mkDisKV me gid shardmasters dir px port fresh_flags).
(*@ src/src/diskv/server.go 142-145 DisKV.Get *)
Definition diskv_Get (kv : DisKV) (key : string) : DisKV * PGetReply := (kv, no_value).
(*@ src/src/diskv/server.go 148-151 DisKV.PutAppend *)
Definition diskv_PutAppend (kv : DisKV) (args : PutAppendArgs) : DisKV * string := (kv, ""%string).
(*@ src/src/diskv/server.go 157-159 DisKV.tick *)
Definition diskv_tick (kv : DisKV) : DisKV := kv.

(** viewservice and pbservice: the server's name is its port. *)
(*@ src/src/viewservice/server.go 12-21 ViewServer *)
Record ViewServer := mkViewServer { vs_me : string; vs_flags : Flags }.
Definition listen_as {S} (can_listen : string → bool) (me : string) (s : S) : res S :=
  if can_listen me then mret s else Fatal.
(*@ src/src/viewservice/server.go 76-92 StartServer *)
Definition view_StartServer can_listen (me : string) : res ViewServer :=
  listen_as can_listen me (mkViewServer me fresh_flags).
(*@ src/src/viewservice/server.go 26-31 ViewServer.Ping *)
Definition view_Ping (vs : ViewServer) (args : PingArgs) : ViewServer * View := (vs, no_view).
(*@ src/src/viewservice/server.go 36-41 ViewServer.Get *)
Definition view_Get (vs : ViewServer) : ViewServer * View := (vs, no_view).
(*@ src/src/viewservice/server.go 49-52 ViewServer.tick *)
Definition view_tick (vs : ViewServer) : ViewServer := vs.
(*@ src/src/viewservice/client.go 15-20 MakeClerk *)
Definition view_MakeClerk (me server : string) : VClerk := mkVClerk me server.

(*@ src/src/pbservice/server.go 17-25 PBServer *)
Record PBServer := mkPBServer { pb_me : string; pb_vs : VClerk; pb_flags : Flags }.
(*@ src/src/pbservice/server.go 82-96 StartServer *)
Definition pb_StartServer can_listen (vshost me : string) : res PBServer :=
  listen_as can_listen me (mkPBServer me (view_MakeClerk me vshost) fresh_flags).
(*@ src/src/pbservice/server.go 28-33 PBServer.Get *)
Definition pb_Get (pb : PBServer) (key : string) : PBServer * PGetReply := (pb, no_value).
(*@ src/src/pbservice/server.go 36-42 PBServer.PutAppend *)
Definition pb_PutAppend (pb : PBServer) (key value : string) : PBServer * string := (pb, ""%string).
(*@ src/src/pbservice/server.go 51-54 PBServer.tick *)
Definition pb_tick (pb : PBServer) : PBServer := pb.
(*@ src/src/pbservice/client.go 24-30 MakeClerk *)
Definition pb_MakeClerk (vshost me : string) : VClerk := view_MakeClerk me vshost.
(*@ src/src/pbservice/client.go 74-79 Clerk.Get *)
Definition pb_ClerkGet (key : string) : string := "???".
(*@ src/src/pbservice/client.go 84-87 Clerk.PutAppend *)
Definition pb_ClerkPutAppend (key value op : string) : unit := tt.
(*@ src/src/pbservice/client.go 93-95 Clerk.Put *)
Definition pb_ClerkPut (key value : string) : unit := pb_ClerkPutAppend key value "Put".
(*@ src/src/pbservice/client.go 101-103 Clerk.Append *)
Definition pb_ClerkAppend (key value : string) : unit := pb_ClerkPutAppend key value "Append".

(** ** The handlers over labrpc *)

Definition empty_config : Config := mkConfig 0 (replicate 10 0) ∅.
(*@ src/src/shardmaster/server.go 27-29 ShardMaster.Join *)
Definition sm_Join (args : JoinArgs) : AckReply := mkAck false "".
(*@ src/src/shardmaster/server.go 31-33 ShardMaster.Leave *)
Definition sm_Leave (args : LeaveArgs) : AckReply := mkAck false "".
(*@ src/src/shardmaster/server.go 35-37 ShardMaster.Move *)
Definition sm_Move (args : MoveArgs) : AckReply := mkAck false "".
(*@ src/src/shardmaster/server.go 39-41 ShardMaster.Query *)
Definition sm_Query (args : QueryArgs) : QueryReply := mkQueryReply false "" empty_config.
(*@ src/src/shardkv/server.go 32-34 ShardKV.Get *)
Definition skv_Get (args : GetArgs) : GetReply := mkGetReply false "" "".
(*@ src/src/shardkv/server.go 36-38 ShardKV.PutAppend *)
Definition skv_PutAppend (args : PutAppendArgs) : PutAppendReply := mkPAReply false "".
(*@ src/src/shardmaster/client.go 24-29 MakeClerk *)
Definition sm_MakeClerk {End : Type} (servers : list End) : list End := servers.
(** The configuration of a new clerk. *)
(*@ src/src/shardkv/client.go 54-60 MakeClerk *)
Definition skv_MakeClerk : Config := empty_config.
(*@ src/src/paxos-shardkv/client.go 25-30 MakeClerk *)
Definition pskv_MakeClerk : PConfig := no_config.
(*@ src/src/diskv/client.go 25-30 MakeClerk *)
Definition dkv_MakeClerk : PConfig := no_config.

(** ** Starting a server *)

(** A server starts exactly when its index is one of the list and its port can be
    listened on; an index outside the list panics, a port in use ends the
    process. *)
Lemma serve_at_spec can_listen servers me :
  match serve_at can_listen servers me with
  | Ok port => 0 ≤ me < len servers ∧ slice_get servers me = Ok port ∧ can_listen port = true
  | Panic => me < 0 ∨ len servers ≤ me
  | Fatal => ∃ port, slice_get servers me = Ok port ∧ can_listen port = false
  end.
Proof.
  unfold serve_at. destruct (decide (0 ≤ me < len servers)) as [Hin|Hout].
  - destruct (slice_get_is_Ok servers me Hin) as [port Hp]. rewrite Hp. cbn.
    destruct (can_listen port) eqn:Hc; [done|]. by exists port.
  - rewrite slice_get_Panic by done. cbn. lia.
Qed.

(** What diskvd starts never panics: its test of the arguments is enough. *)
Theorem diskvd_starts args o can_listen :
  Diskvd.main args = Some o →
  let r := diskv_StartServer can_listen (Diskvd.gid o) (Diskvd.masters o) (Diskvd.replicas o)
             (Diskvd.me o) (Diskvd.dir o) (Diskvd.restart o) in
  r ≠ Panic ∧
  (∀ kv, r = Ok kv → slice_get (Diskvd.replicas o) (dkv_me kv) = Ok (dkv_port kv) ∧
     listening (dkv_flags kv) = true ∧ px_port (dkv_px kv) = None ∧ dkv_dir kv ≠ "").
Proof.
  unfold Diskvd.main. destruct (Diskvd.parse_args _ _) as [o'|]; [|done].
  destruct (Diskvd.incomplete o') eqn:Hc; [done|]. intros [= ->].
  unfold Diskvd.incomplete in Hc. rewrite !orb_false_iff in Hc.
  destruct Hc as ((((_ & Hme) & _) & Hlen) & Hdir).
  unfold diskv_StartServer. cbn.
  pose proof (serve_at_spec can_listen (Diskvd.replicas o) (Diskvd.me o)) as Hs.
  destruct (serve_at can_listen _ _) as [port| |] eqn:E; cbn.
  - split; [done|]. intros kv [= <-]. cbn. destruct Hs as (_ & -> & _).
    split_and!; try done. by apply String.eqb_neq.
  - lia.
  - done.
Qed.

(** ** The clerks against these servers *)

(** Which servers answer in which round: [up r srv]. *)
Definition answers {A R} (up : nat → string → bool) (handler : A → R) :
    nat → string → A → option R :=
  λ r srv args, if up r srv then Some (handler args) else None.

(** Whatever the shard masters' clerk is asked for, what it returns is the empty
    configuration. *)
Lemma Query_empty up fuel servers num c :
  Query (answers up sm_Query) fuel servers num = Some c → c = empty_config.
Proof.
  intros (n & _ & Hr & _)%retry_Some.
  apply try_servers_Some in Hr as (pre & s & post & rep & _ & Hc & Ha & _).
  unfold answers in Hc. destruct (up n s); [|done]. injection Hc as <-. by injection Ha.
Qed.

Lemma PQuery_empty up sm fuel servers num c :
  PQuery (answers up (λ n, snd (pshardmaster_Query sm n))) fuel servers num = Some c → c = no_config.
Proof.
  intros (n & _ & Hr & _)%retry_Some.
  apply try_servers_Some in Hr as (pre & s & post & rep & _ & Hc & Ha & _).
  unfold answers in Hc. destruct (up n s); [|done]. injection Hc as <-. by injection Ha.
Qed.

Lemma retry_config_never {C A} (round : nat → C → option A) query c0 fuel r :
  (∀ r c, query r = Some c → c = c0) → (∀ r, round r c0 = None) →
  retry_config round query fuel r c0 = None.
Proof.
  intros Hq Hr. revert r. induction fuel as [|fuel IH]; intros r; [done|]. cbn. rewrite Hr.
  destruct (query r) as [c|] eqn:E; [|done]. cbn. by rewrite (Hq _ _ E).
Qed.

Lemma group_of_empty key : group_of empty_config key = None ∧ p_group_of no_config key = None.
Proof. unfold group_of, p_group_of. by split; destruct (slice_get _ _). Qed.

(** The clerks of the three sharded stores never return against the shard masters
    as they are written: the masters answer with a configuration without groups,
    so there is nobody to ask, whichever servers answer when and however long the
    clerk goes on. *)
Theorem sharded_clerks_wait up smfuel masters srpc psrpc pmasters sm fuel key value op :
  let query r := Query (answers (up r) sm_Query) (smfuel r) masters (-1) in
  let pquery r := PQuery (answers (up r) (λ n, snd (pshardmaster_Query sm n))) (smfuel r) pmasters (-1) in
  Get query srpc fuel skv_MakeClerk key = None ∧
  (∀ put, PutAppend query put fuel skv_MakeClerk key value op = None) ∧
  PGet pquery psrpc fuel pskv_MakeClerk key = None ∧
  DGet pquery psrpc fuel dkv_MakeClerk key = None ∧
  (∀ put, PPutAppend pquery put fuel pskv_MakeClerk key value op = None) ∧
  (∀ put, DPutAppend pquery put fuel dkv_MakeClerk key value op = None).
Proof.
  intros query pquery. destruct (group_of_empty key) as [Hg Hpg].
  assert (Hq : ∀ r c, query r = Some c → c = empty_config) by (intros ? ? ?; by eapply Query_empty).
  assert (Hpq : ∀ r c, pquery r = Some c → c = no_config) by (intros ? ? ?; by eapply PQuery_empty).
  split_and!; try intros put; first [apply (retry_config_never _ _ _ _ _ Hq)|apply (retry_config_never _ _ _ _ _ Hpq)];
    intros r; by first [rewrite Hg|rewrite Hpg].
Qed.

(** No server learns of a primary: the view service answers with the empty view. *)
Lemma no_primary up vs ck :
  VPrimary (λ srv, if up srv : bool then Some (snd (view_Get vs)) else None) ck = ""%string.
Proof. unfold VPrimary, VGet. by destruct (up (v_server ck)). Qed.
End Services.
