(* ===== verification/Ticker.v ===== *)
(** * Ticker: the goroutines that call tick()

    The servers of viewservice, pbservice, paxos-shardkv and diskv start a goroutine
    that tests the flag of kill(), calls tick() and sleeps, again and again, beside
    the accept loop of Listener.v.  The other goroutines, the one that calls
    kill() among them, may change the server between any two of its steps. *)
From S2P Require Import Prelude.
From S2P Require Import Listener.
From S2P Require Import Services.

Module Ticker.
Import Listener.

Section ticker.
Context {S : Type} (isdead : S → bool) (tick : S → S).

(** Where the goroutine stands. *)
Inductive TPC := Test | Body | Sleep | Gone.

Record Thread := mkThread { srv : S; tpc : TPC; ticks : Z }.

(** [TOther f]: another goroutine does [f] to the server. *)
Inductive TEvent := TStep | TOther (f : S → S).

Definition ticker_step (t : Thread) (e : TEvent) : option Thread :=
  match e, tpc t with
  | TStep, Test => Some (mkThread (srv t) (if isdead (srv t) then Gone else Body) (ticks t))
  | TStep, Body => Some (mkThread (tick (srv t)) Sleep (ticks t + 1))
  | TStep, Sleep => Some (mkThread (srv t) Test (ticks t))
  | TStep, Gone => None
  | TOther f, c => Some (mkThread (f (srv t)) c (ticks t))
  end.

Fixpoint ticker_run (t : Thread) (es : list TEvent) : option Thread :=
  match es with
  | [] => Some t
  | e :: es => t' ← ticker_step t e; ticker_run t' es
  end.

Definition own_steps (es : list TEvent) : Z :=
  foldr (λ e n, match e with TStep => n + 1 | TOther _ => n end) 0 es.

(** How many steps, and ticks, a dead server has left. *)
Definition steps_left (c : TPC) : Z :=
  match c with Body => 3 | Sleep => 2 | Test => 1 | Gone => 0 end.
Definition ticks_left (c : TPC) : Z := match c with Body => 1 | _ => 0 end.

(** Neither tick nor the other goroutines bring a dead server back. *)
Definition stays_dead (f : S → S) : Prop := ∀ s, isdead s = true → isdead (f s) = true.

(** Once the server is dead, tick is called at most once more, if the goroutine
    was past the test, and after at most three steps the goroutine has ended,
    whatever the other goroutines do. *)
Lemma ticker_stops t es t' :
  stays_dead tick → (∀ f, TOther f ∈ es → stays_dead f) →
  isdead (srv t) = true → ticker_run t es = Some t' →
  isdead (srv t') = true ∧
  ticks t' + ticks_left (tpc t') = ticks t + ticks_left (tpc t) ∧
  own_steps es + steps_left (tpc t') = steps_left (tpc t).
Proof.
  intros Htick. revert t. induction es as [|e es IH]; intros t Hother Hdead Hrun.
  { injection Hrun as <-. split_and!; [done|done|cbn; lia]. }
  cbn in Hrun. apply bind_Some in Hrun as (t1 & Hst & Hrun).
  assert (H1 : isdead (srv t1) = true ∧
    ticks t1 + ticks_left (tpc t1) = ticks t + ticks_left (tpc t) ∧
    match e with TStep => 1 | TOther _ => 0 end + steps_left (tpc t1) = steps_left (tpc t)).
  { unfold ticker_step in Hst. destruct e as [|f].
    - destruct (tpc t) eqn:Hp; try done; injection Hst as <-; cbn.
      + by rewrite Hdead.
      + split_and!; [by apply Htick|lia|done].
      + done.
    - injection Hst as <-. cbn. split_and!; [|done|done]. apply (Hother f); [by left|done]. }
  destruct H1 as (Hd1 & Ht1 & Hs1).
  destruct (IH t1) as (Hd & Ht & Hs); [intros f ?; apply Hother; by right|done|done|].
  split_and!; [done|lia|]. unfold own_steps in *. cbn. destruct e; lia.
Qed.

(** A server that is alive when the flag is tested is ticked. *)
Lemma ticker_ticks s n :
  isdead s = false →
  ticker_run (mkThread s Test n) [TStep; TStep; TStep] = Some (mkThread (tick s) Test (n + 1)).
Proof. intros Hs. cbn. by rewrite Hs. Qed.
End ticker.

(** ** The servers *)

(*@ src/src/viewservice/server.go 114-120 StartServer (tick loop) *)
Definition view_ticker :=
  ticker_step (λ vs, view_isdead (Services.vs_flags vs)) Services.view_tick.
(*@ src/src/pbservice/server.go 130-135 StartServer (tick loop) *)
Definition pb_ticker :=
  ticker_step (λ pb, pb_isdead (Services.pb_flags pb)) Services.pb_tick.
(*@ src/src/paxos-shardkv/server.go 158-163 StartServer (tick loop) *)
Definition pshardkv_ticker :=
  ticker_step (λ kv, pshardkv_isdead (Services.pkv_flags kv)) Services.pshardkv_tick.
(*@ src/src/diskv/server.go 266-271 StartServer (tick loop) *)
Definition diskv_ticker :=
  ticker_step (λ kv, diskv_isdead (Services.dkv_flags kv)) Services.diskv_tick.

(** kill() of these servers sets the flag their goroutine tests with its first
    statement, no later one and no tick clears it. *)
Lemma kill_stops_tickers f n :
  let killing os := do_ops (take (S n) os) f in
  view_isdead (killing view_Kill) = true ∧ pb_isdead (killing pb_kill) = true ∧
  pshardkv_isdead (killing pshardkv_kill) = true ∧ diskv_isdead (killing diskv_kill) = true ∧
  stays_dead (λ vs, view_isdead (Services.vs_flags vs)) Services.view_tick ∧
  stays_dead (λ pb, pb_isdead (Services.pb_flags pb)) Services.pb_tick ∧
  stays_dead (λ kv, pshardkv_isdead (Services.pkv_flags kv)) Services.pshardkv_tick ∧
  stays_dead (λ kv, diskv_isdead (Services.dkv_flags kv)) Services.diskv_tick.
Proof.
  cbn. split_and!; try (by destruct n as [|[|[|n]]]); intros s; exact id.
Qed.
End Ticker.
