(* ===== verification/ClerkNet.v ===== *)
(** * ClerkNet: the clerks' retry loops over the simulated network

    Composes the loop of a clerk (Clerks.v: [retry] over [try_servers]) with the
    network of Labrpc.v.  The clerk is one more goroutine: it sends a request to
    the next end point of its list and blocks until ProcessReq has answered it,
    or sleeps when the list is through; any other event of the network, the
    requests of other clients and the administration of the test included,
    happens at any moment.

    The loop is that of Clerk.Query, Join, Leave and Move of the shard master and
    of Clerk.Get of kvraft: [accept] is what the clerk does with a reply, [None]
    when it tries the next server.  [as_reply] is the decoding of the value into the
    clerk's reply struct: gob fails on any other type. *)
From S2P Require Import Prelude.
From S2P Require Import Labrpc.
From S2P Require Import Clerks.

Module ClerkNet.
Import Labrpc.

Section clerknet.
Context {Name : Type} `{Countable Name}.
Context {W V B : Type} (Encode : V → B) (Decode : B → option V) (zero : V).
Context {R A : Type} (as_reply : V → option R) (accept : R → option A).
Context (servers : list Name) (meth : string) (arg : V).

#[local] Notation exec := (Labrpc.exec (Name:=Name) (W:=W) Encode Decode zero).
#[local] Notation srv_dispatch := (Labrpc.srv_dispatch (Name:=Name) (W:=W) Encode Decode zero).
#[local] Notation call_request := (Labrpc.call_request (Name:=Name) Encode).
#[local] Notation call_reply := (Labrpc.call_reply Decode).
#[local] Notation Event := (@Labrpc.Event Name W V B).
#[local] Notation State := (@Labrpc.State Name _ _ W V B).
#[local] Notation Server := (@Labrpc.Server W V).
#[local] Notation Flight := (@Labrpc.Flight Name B).
#[local] Notation replyMsg := (@Labrpc.replyMsg B).

(** ** The clerk as a goroutine

    [Calling r rest]: in round [r], with the servers [rest] to try; [Blocked]: in
    [Call] on the end point [e], until request [k] is answered. *)
Inductive Loop :=
| Calling (r : nat) (rest : list Name)
| Blocked (r : nat) (e : Name) (rest : list Name) (k : nat)
| Done (a : A).

(** [heard] is a ghost: the answers the clerk has got, by round and end point. *)
Record Sys := mkSys { netw : State; loop : Loop; heard : gmap (nat * Name) R }.
#[export] Instance eta_sys : Eta Sys := λ s, mkSys (netw s) (loop s) (heard s).

Inductive CEvent := ENet (e : Event) | ECall | EReturn | ESleep.

(** What the clerk does when its call returns. *)
(*@ src/src/shardmaster/client.go 38-42 Clerk.Query (reply) *)
Definition receive (s : Sys) (r : nat) (e : Name) (rest : list Name) (rep : replyMsg) : res Sys :=
  v ← call_reply rep;
  match v with
  | None => mret (s <| loop := Calling r rest |>)
  | Some v =>
      match as_reply v with
      | None => Fatal
      | Some rp =>
          mret (s <| heard := <[(r, e) := rp]> (heard s) |>
                  <| loop := match accept rp with Some a => Done a | None => Calling r rest end |>)
      end
  end.

(*@ src/src/shardmaster/client.go 35-45 Clerk.Query (loop) *)
Definition step (s : Sys) (ev : CEvent) : option (res Sys) :=
  match ev, loop s with
  | ENet e, _ => out ← exec (netw s) e; Some (n ← (out : res State); mret (s <| netw := n |>))
  | ECall, Calling r (e :: rest) =>
      let k := length (flights (netw s)) in
      out ← exec (netw s) (NSend (call_request e meth arg));
      Some (n ← (out : res State); mret (s <| netw := n |> <| loop := Blocked r e rest k |>))
  | EReturn, Blocked r e rest k =>
      f ← flights (netw s) !! k;
      match phase f with
      | Replied rep => Some (receive s r e rest rep)
      | _ => None
      end
  | ESleep, Calling r [] => Some (Ok (s <| loop := Calling (S r) servers |>))
  | _, _ => None
  end.

Fixpoint run (s : Sys) (es : list CEvent) : option Sys :=
  match es with
  | [] => Some s
  | ev :: es => match step s ev with Some (Ok s') => run s' es | _ => None end
  end.

(** The clerk's code, with the network replaced by an oracle. *)
Definition oracle_loop (rpc : nat → Name → option R) (fuel : nat) : option A :=
  Clerks.retry (λ r, Clerks.try_servers (rpc r) accept (λ _, false) servers) fuel 0.

Lemma sys_run_app s es1 es2 : run s (es1 ++ es2) = s1 ← run s es1; run s1 es2.
Proof.
  revert s. induction es1 as [|ev es IH]; intros s; [done|]. cbn.
  destruct (step s ev) as [[s1| |]|]; [apply IH|done..].
Qed.

Lemma sys_run_snoc s es ev s' :
  run s (es ++ [ev]) = Some s' ↔ ∃ s1, run s es = Some s1 ∧ step s1 ev = Some (Ok s').
Proof.
  rewrite sys_run_app, bind_Some. apply exist_proper. intros s1. cbn.
  destruct (step s1 ev) as [[s2| |]|]; naive_solver.
Qed.

(** Induction on a run from its end. *)
Lemma sys_run_ind (P : list CEvent → Sys → Prop) s0 :
  P [] s0 →
  (∀ es s ev s', run s0 es = Some s → P es s → step s ev = Some (Ok s') → P (es ++ [ev]) s') →
  ∀ es s, run s0 es = Some s → P es s.
Proof.
  intros H0 HS es. induction es as [|ev es IH] using rev_ind; intros s.
  - by intros [= <-].
  - intros (s1 & Hr & Hs)%sys_run_snoc. eauto.
Qed.

(** What a step of the clerk or of the network does to the two parts. *)
Lemma step_cases s ev s' :
  step s ev = Some (Ok s') →
  (∃ e, ev = ENet e ∧ exec (netw s) e = Some (Ok (netw s')) ∧
        loop s' = loop s ∧ heard s' = heard s) ∨
  (∃ r e rest, ev = ECall ∧ loop s = Calling r (e :: rest) ∧
        exec (netw s) (NSend (call_request e meth arg)) = Some (Ok (netw s')) ∧
        loop s' = Blocked r e rest (length (flights (netw s))) ∧ heard s' = heard s) ∨
  (∃ r e rest k f rep, ev = EReturn ∧ loop s = Blocked r e rest k ∧
        flights (netw s) !! k = Some f ∧ phase f = Replied rep ∧
        receive s r e rest rep = Ok s') ∨
  (∃ r, ev = ESleep ∧ loop s = Calling r [] ∧ s' = s <| loop := Calling (S r) servers |>).
Proof.
  intros Hs. destruct ev as [e| | |]; cbn [step] in Hs.
  - left. exists e. apply bind_Some in Hs as (out & He & [= Ho]). mbind_inv Ho.
    injection Ho as <-. done.
  - destruct (loop s) as [r [|e rest]| |] eqn:Hl; try done. right; left. exists r, e, rest.
    apply bind_Some in Hs as (out & He & [= Ho]). mbind_inv Ho. injection Ho as <-. done.
  - destruct (loop s) as [|r e rest k|] eqn:Hl; try done. right; right; left.
    apply bind_Some in Hs as (f & Hf & Hs). destruct (phase f) as [| | | | | |rep] eqn:Hp; try done.
    injection Hs as Hs. exists r, e, rest, k, f, rep. done.
  - destruct (loop s) as [r [|]| |] eqn:Hl; try done. right; right; right.
    exists r. injection Hs as <-. done.
Qed.

Lemma receive_cases s r e rest rep s' :
  receive s r e rest rep = Ok s' →
  (call_reply rep = Ok None ∧ s' = s <| loop := Calling r rest |>) ∨
  (∃ v rp, call_reply rep = Ok (Some v) ∧ as_reply v = Some rp ∧
     s' = s <| heard := <[(r, e) := rp]> (heard s) |>
            <| loop := match accept rp with Some a => Done a | None => Calling r rest end |>).
Proof.
  unfold receive. intros Hs. mbind_inv Hs. destruct a as [v|]; cbn in Hs.
  - right. destruct (as_reply v) as [rp|] eqn:Hv; [|done]. injection Hs as <-. by exists v, rp.
  - left. injection Hs as <-. done.
Qed.

(** ** Where an answer comes from *)

(** Request [f] holds the positive answer [rr] somewhere on its way back. *)
Definition holds (f : Flight) (rr : replyMsg) : Prop :=
  handler f = Returned rr ∨ (∃ i, phase f = Finished i (Some rr)) ∨
  phase f = Delayed rr ∨ (phase f = Replied rr ∧ ok rr = true).

(** The handler of [f] runs in the state [n] and returns [rr]. *)
Definition handles (n : State) (f : Flight) (rr : replyMsg) : Prop :=
  ∃ srv rs w', handler f = Started srv ∧ heap n !! srv = Some rs ∧
    snd (srv_dispatch rs (world n) (request f)) = Ok (w', rr).

(** The moves of one request: what [exec_flight] makes of it, event by event. *)
Inductive moves (n : State) (f : Flight) : Event → Flight → Prop :=
| mv_read k : phase f = Queued →
    moves n f (NRead k) (f <| phase := admit_req (net n) (request f) |>)
| mv_lose k rnd i : phase f = Routed i → dropped (i_rel i) rnd = true →
    moves n f (NAccept k rnd) (f <| phase := Replied failure |>)
| mv_accept k rnd i : phase f = Routed i → dropped (i_rel i) rnd = false →
    moves n f (NAccept k rnd) (f <| phase := Waiting i |> <| handler := Started (i_srv i) |>)
| mv_handle k rr : handles n f rr → moves n f (NHandle k) (f <| handler := Returned rr |>)
| mv_receive k i rr : phase f = Waiting i → handler f = Returned rr →
    moves n f (NReceive k) (f <| phase := Finished i (Some rr) |> <| handler := Consumed |>)
| mv_dead k i : phase f = Waiting i →
    IsServerDead (net n) (endname (request f)) (i_sn i) (i_srv i) = true →
    moves n f (NTimer k) (f <| phase := Finished i None |>)
| mv_alive k : moves n f (NTimer k) f
| mv_finish k rnd1 rnd2 i r : phase f = Finished i r →
    moves n f (NFinish k rnd1 rnd2)
      (f <| phase := finish_req (net n) (request f) i r rnd1 rnd2 |>)
| mv_release k rr : phase f = Delayed rr → moves n f (NRelease k) (f <| phase := Replied rr |>)
| mv_refuse k : phase f = Refused → moves n f (NRelease k) (f <| phase := Replied failure |>).

(** The ten moves, with the same names in every proof. *)
Ltac moves_cases Hm :=
  destruct Hm as [k Hp|k rnd i Hp Hdr|k rnd i Hp Hdr|k r Hh|k i r Hp Hh|k i Hp Hde|k
                 |k r1 r2 i r Hp|k r Hp|k Hp].

(** Servers are never removed and keep their services. *)
Definition same_services (hp hp' : list Server) : Prop :=
  ∀ srv rs, hp !! srv = Some rs → ∃ rs', hp' !! srv = Some rs' ∧ services rs' = services rs.

Lemma same_services_refl hp : same_services hp hp.
Proof. intros srv rs ?. by exists rs. Qed.

Lemma exec_flight_moves n k f e n' :
  flights n !! k = Some f → exec_flight Encode Decode zero n k f e = Some (Ok n') →
  ∃ f', moves n f e f' ∧ flights n' = <[k := f']> (flights n) ∧ net n' = net n ∧
    same_services (heap n) (heap n') ∧ length (heap n') = length (heap n).
Proof.
  intros Hk He. unfold exec_flight in He.
  assert (Hput : ∀ f', moves n f e f' → n' = put_flight n k f' →
    ∃ f', moves n f e f' ∧ flights n' = <[k := f']> (flights n) ∧ net n' = net n ∧
      same_services (heap n) (heap n') ∧ length (heap n') = length (heap n)).
  { intros f' Hm ->. exists f'. split_and!; try done. apply same_services_refl. }
  destruct e; try done; cbn beta iota in He.
  - destruct (phase f) eqn:Hp; try done. injection He as <-. eapply Hput; [|done]. by constructor.
  - destruct (phase f) as [|i| | | | |] eqn:Hp; try done. injection He as <-.
    eapply Hput; [|done]. case_match; by econstructor.
  - assert (Hx : ∃ srv, handler f = Started srv ∧ exec_handle Encode Decode zero n k f srv = Some (Ok n')).
    { destruct (phase f), (handler f); try done; eauto. }
    clear He. destruct Hx as (srv & Hh & Hx). unfold exec_handle in Hx.
    apply bind_Some in Hx as (rs & Hrs & [= H1]). mbind_inv H1.
    destruct a as [w' rr]. injection H1 as <-. exists (f <| handler := Returned rr |>).
    split_and!; try done; cbn.
    + constructor. by exists srv, rs, w'.
    + intros j rs' Hj. destruct (decide (j = srv)) as [->|Hne].
      * rewrite list_lookup_insert_eq by (by eapply lookup_lt_Some). eexists. split; [done|].
        cbn. congruence.
      * rewrite list_lookup_insert_ne by done. by exists rs'.
    + by rewrite length_insert.
  - destruct (phase f) as [| |i| | | |] eqn:Hp; try done. destruct (handler f) as [| |rr|] eqn:Hh; try done.
    injection He as <-. eapply Hput; [|done]. by constructor.
  - destruct (phase f) as [| |i| | | |] eqn:Hp; try done. injection He as <-. case_match.
    + eapply Hput; [|done]. by econstructor.
    + exists f. split_and!; try done; [constructor|by rewrite list_insert_id|apply same_services_refl].
  - destruct (phase f) as [| | |i r| | |] eqn:Hp; try done. injection He as <-.
    eapply Hput; [|done]. by econstructor.
  - destruct (phase f) eqn:Hp; try done; injection He as <-; (eapply Hput; [|done]); by constructor.
Qed.

Lemma moves_request n f e f' : moves n f e f' → request f' = request f.
Proof. by destruct 1. Qed.

(** A positive answer is passed on, or comes from the handler. *)
Lemma moves_holds n f e f' rr :
  moves n f e f' → holds f' rr → holds f rr ∨ (∃ j, e = NHandle j) ∧ handles n f rr.
Proof.
  intros Hm Hr. unfold holds in Hr.
  moves_cases Hm;
    cbn in Hr; unfold holds; rewrite ?Hp.
  - left. left. destruct Hr as [?|Hr]; [done|]. unfold admit_req in Hr.
    exfalso. repeat case_match; destruct Hr as [[? ?]|[?|[? ?]]]; done.
  - left. left. by destruct Hr as [?|[[? ?]|[?|[[= <-] ?]]]].
  - by destruct Hr as [?|[[? ?]|[?|[? ?]]]].
  - destruct Hr as [[= <-]|Hr]; [right; split; [eauto|done]|left; by right].
  - left. left. destruct Hr as [?|[[j Hr]|[?|[? ?]]]]; try done. by injection Hr as _ <-.
  - left. left. by destruct Hr as [?|[[? ?]|[?|[? ?]]]].
  - by left.
  - left. destruct (finish_req_cases (net n) (request f) i r r1 r2) as [E|(rep & -> & [E|E])];
      rewrite E in Hr; destruct Hr as [?|[[? ?]|[Hr|[Hr ?]]]]; try done; try (by left);
      injection Hr as <-; try done; right; left; eauto.
  - left. destruct Hr as [?|[[? ?]|[?|[Hr ?]]]]; try done; [by left|].
    injection Hr as <-. right; right; by left.
  - left. left. by destruct Hr as [?|[[? ?]|[?|[[= <-] ?]]]].
Qed.

(** The request an event is a step of. *)
Definition event_req (e : Event) : option nat :=
  match e with
  | NRead k | NAccept k _ | NHandle k | NReceive k | NTimer k | NFinish k _ _ | NRelease k => Some k
  | NAdmin _ | NNewServer _ | NSend _ => None
  end.

(** One step of the network, seen from its requests: either the request [k]
    moves, or the requests are as before, possibly with a new one. *)
Lemma exec_cases n e n' :
  exec n e = Some (Ok n') →
  (∃ k f f', flights n !! k = Some f ∧ moves n f e f' ∧ flights n' = <[k := f']> (flights n) ∧
     net n' = net n ∧ same_services (heap n) (heap n') ∧ length (heap n') = length (heap n) ∧
     event_req e = Some k) ∨
  (∃ op, e = NAdmin op ∧ exec_admin (net n) op = Ok (net n') ∧ flights n' = flights n ∧
     heap n' = heap n) ∨
  (∃ rs, e = NNewServer rs ∧ n' = n <| heap := heap n ++ [rs] |>) ∨
  (∃ req, e = NSend req ∧ n' = n <| flights := flights n ++ [mkFlight req Queued NotStarted] |>).
Proof.
  intros He. destruct e; cbn [Labrpc.exec] in He;
    try (left; apply bind_Some in He as (f & Hf & Hx);
         destruct (exec_flight_moves _ _ _ _ _ Hf Hx) as (f' & ? & ? & ? & ? & ?);
         by eexists _, f, f').
  - right; left. injection He as He. mbind_inv He. injection He as <-. by exists op.
  - right; right; left. injection He as <-. by exists rs.
  - right; right; right. injection He as <-. by exists req.
Qed.

(** The requests after any step of the network: the old ones, each with its
    request unchanged, and the one just sent. *)
Lemma flights_step n e n' j f' :
  exec n e = Some (Ok n') → flights n' !! j = Some f' →
  (∃ f, flights n !! j = Some f ∧ request f' = request f ∧
     ∀ rr, holds f' rr → holds f rr ∨ e = NHandle j ∧ handles n f rr) ∨
  (j = length (flights n) ∧ e = NSend (request f') ∧ phase f' = Queued ∧ handler f' = NotStarted).
Proof.
  intros [(k & f & f2 & Hk & Hm & -> & _ & _ & _ & Hi)|[(op & -> & _ & -> & _)|[(rs & -> & ->)|
    (req & -> & ->)]]]%exec_cases Hj.
  - left. apply list_lookup_insert_Some in Hj as [(-> & -> & _)|[Hne Hj]].
    + exists f. split_and!; [done|by eapply moves_request|]. intros rr Hr.
      destruct (moves_holds _ _ _ _ _ Hm Hr) as [?|[[i ->] ?]]; [by left|right].
      by injection Hi as ->.
    + exists f'. split_and!; [done..|]. by left.
  - left. exists f'. split_and!; [done..|]. by left.
  - left. exists f'. split_and!; [done..|]. by left.
  - cbn in Hj. apply lookup_app_Some in Hj as [Hj|[Hl Hj]].
    + left. exists f'. split_and!; [done..|]. by left.
    + apply list_lookup_singleton_Some in Hj as [Hz <-]. right. split_and!; [lia|done..].
Qed.

(** ** The clerk gets answers of its handlers

    [Answered s0 es e rp]: in the run [es] from [s0] the clerk sent a request to
    the end point [e]; a handler, in the state the run had reached at that moment,
    computed from it an answer that the clerk reads as [rp]. *)
Definition Answered (s0 : Sys) (es : list CEvent) (e : Name) (rp : R) : Prop :=
  ∃ es1 k es2 s1 f rr v,
    es = es1 ++ ENet (NHandle k) :: es2 ∧ run s0 es1 = Some s1 ∧
    (length (flights (netw s0)) ≤ k)%nat ∧ flights (netw s1) !! k = Some f ∧
    request f = call_request e meth arg ∧ handles (netw s1) f rr ∧
    call_reply rr = Ok (Some v) ∧ as_reply v = Some rp.

(** The same for a request still under way. *)
Definition Handled (s0 : Sys) (es : list CEvent) (k : nat) (req : @Labrpc.reqMsg Name B)
    (rr : replyMsg) : Prop :=
  ∃ es1 es2 s1 f, es = es1 ++ ENet (NHandle k) :: es2 ∧ run s0 es1 = Some s1 ∧
    flights (netw s1) !! k = Some f ∧ request f = req ∧ handles (netw s1) f rr.

Lemma Handled_snoc s0 es ev k req rr :
  Handled s0 es k req rr → Handled s0 (es ++ [ev]) k req rr.
Proof.
  intros (es1 & es2 & s1 & f & -> & ?). exists es1, (es2 ++ [ev]), s1, f.
  by rewrite <- app_assoc.
Qed.

Lemma Answered_snoc s0 es ev e rp : Answered s0 es e rp → Answered s0 (es ++ [ev]) e rp.
Proof.
  intros (es1 & k & es2 & s1 & f & rr & v & -> & ?).
  exists es1, k, (es2 ++ [ev]), s1, f, rr, v. by rewrite <- app_assoc.
Qed.

(** Only [ENet] and [ECall] move the network. *)
Lemma step_netw s ev s' :
  step s ev = Some (Ok s') →
  netw s' = netw s ∨
  ∃ e, exec (netw s) e = Some (Ok (netw s')) ∧ (ev = ENet e ∨ ev = ECall ∧
       ∃ r e' rest, e = NSend (call_request e' meth arg) ∧ loop s = Calling r (e' :: rest) ∧
         loop s' = Blocked r e' rest (length (flights (netw s)))).
Proof.
  intros [(e & -> & He & _)|[(r & e & rest & -> & Hl & He & Hl' & _)|
    [(r & e & rest & k & f & rep & -> & _ & _ & _ & Hr)|(r & -> & _ & ->)]]]%step_cases.
  - right. eauto.
  - right. eexists. split; [done|]. right. split; [done|]. by exists r, e, rest.
  - left. by apply receive_cases in Hr as [(_ & ->)|(v & rp & _ & _ & ->)].
  - by left.
Qed.

(** Positive answers held by the requests sent in the run come from handlers. *)
Lemma held_is_handled s0 es s :
  run s0 es = Some s →
  ∀ k f rr, flights (netw s) !! k = Some f → (length (flights (netw s0)) ≤ k)%nat →
    holds f rr → Handled s0 es k (request f) rr.
Proof.
  intros Hrun. pattern es, s. eapply sys_run_ind; [| |exact Hrun]; clear es s Hrun.
  { intros k f rr Hk%lookup_lt_Some Hle. lia. }
  intros es s ev s' Hrun IH Hs k f' rr Hk Hle Hh.
  destruct (step_netw _ _ _ Hs) as [E|(e & He & Hev)].
  { rewrite E in Hk. by eapply Handled_snoc, IH. }
  destruct (flights_step _ _ _ _ _ He Hk) as [(f & Hf & Hreq & Hhold)|(_ & _ & Hp & Hn)].
  - destruct (Hhold rr Hh) as [Hold|[-> Hnow]].
    + rewrite Hreq. by eapply Handled_snoc, IH.
    + destruct Hev as [->|(_ & ? & ? & ? & ? & _)]; [|done].
      exists es, [], s, f. by rewrite Hreq.
  - unfold holds in Hh. rewrite Hp, Hn in Hh. by destruct Hh as [?|[[]|[?|[]]]].
Qed.

Lemma try_servers_None (call : Name → option R) ss :
  (∀ e rp, e ∈ ss → call e = Some rp → accept rp = None) →
  Clerks.try_servers call accept (λ _, false) ss = None.
Proof.
  induction ss as [|e ss IH]; intros Hno; [done|]. cbn.
  rewrite IH by (intros e' rp ?; apply Hno; by right).
  destruct (call e) as [rp|] eqn:Hc; [|done]. by rewrite (Hno e rp) by (by left || done).
Qed.

(** ** The loop and its oracle

    [tried r before]: with the oracle read off [heard], the rounds before [r] and
    the servers [before] of round [r] give nothing, and nothing has been heard
    from the others yet. *)
Definition oracle (s : Sys) : nat → Name → option R := λ r e, heard s !! (r, e).

Definition tried (s : Sys) (r : nat) (before : list Name) : Prop :=
  (∀ r', (r' < r)%nat → Clerks.try_servers (oracle s r') accept (λ _, false) servers = None) ∧
  (∀ e rp, e ∈ before → oracle s r e = Some rp → accept rp = None) ∧
  (∀ e, e ∉ before → oracle s r e = None) ∧
  (∀ r' e, (r < r')%nat → oracle s r' e = None).

Definition loop_inv (s : Sys) : Prop :=
  match loop s with
  | Calling r rest => ∃ before, servers = before ++ rest ∧ tried s r before
  | Blocked r e rest k => ∃ before, servers = before ++ e :: rest ∧ tried s r before
  | Done a => ∃ fuel, oracle_loop (oracle s) fuel = Some a
  end.

Lemma tried_same s s' r before : heard s' = heard s → tried s r before → tried s' r before.
Proof. unfold tried, oracle. by intros ->. Qed.

Lemma tried_next s r : tried s r servers → tried s (S r) [].
Proof.
  intros (Hr & Hb & Hn & Hl). split_and!.
  - intros r' Hlt. destruct (decide (r' = r)) as [->|]; [by apply try_servers_None|apply Hr; lia].
  - by intros e rp ?%elem_of_nil.
  - intros e _. apply Hl. lia.
  - intros r' e ?. apply Hl. lia.
Qed.

(** A server that does not answer, or whose answer is not accepted. *)
Lemma tried_skip s r before e :
  tried s r before → tried s r (before ++ [e]).
Proof.
  intros (Hr & Hb & Hn & Hl). split_and!; try done.
  - intros e' rp [?|E]%elem_of_app Ho; [by eapply Hb|]. apply list_elem_of_singleton in E as ->.
    destruct (decide (e ∈ before)) as [?|Hno]; [by eapply Hb|]. by rewrite Hn in Ho.
  - intros e' Hno. apply Hn. intros ?. apply Hno, elem_of_app. by left.
Qed.

Lemma oracle_insert s r e rp r' e' l :
  oracle (s <| heard := <[(r, e) := rp]> (heard s) |> <| loop := l |>) r' e' =
  if decide (r' = r ∧ e' = e) then Some rp else oracle s r' e'.
Proof.
  unfold oracle. cbn. case_decide as Hd.
  - destruct Hd as [-> ->]. by rewrite lookup_insert_eq.
  - rewrite lookup_insert_ne; [done|]. intros [= -> ->]. by apply Hd.
Qed.

Lemma try_servers_ext (c1 c2 : Name → option R) ss :
  (∀ e, c1 e = c2 e) →
  Clerks.try_servers c1 accept (λ _, false) ss = Clerks.try_servers c2 accept (λ _, false) ss.
Proof.
  intros Hc. induction ss as [|e ss IH]; [done|]. cbn. by rewrite Hc, IH.
Qed.

Lemma tried_hear s r before e rp l :
  accept rp = None → tried s r before →
  tried (s <| heard := <[(r, e) := rp]> (heard s) |> <| loop := l |>) r (before ++ [e]).
Proof.
  intros Ha Ht. destruct (tried_skip s r before e Ht) as (Hr & Hb & Hn & Hl). split_and!.
  - intros r' Hlt. rewrite <- (Hr r' Hlt). apply try_servers_ext. intros e'.
    rewrite oracle_insert, decide_False; [done|lia].
  - intros e' rp' Hin. rewrite oracle_insert. case_decide as Hd; [|by apply Hb].
    by intros [= <-].
  - intros e' Hno. rewrite oracle_insert, decide_False; [by apply Hn|].
    intros [_ ->]. apply Hno, elem_of_app. right. by left.
  - intros r' e' Hlt. rewrite oracle_insert, decide_False; [by apply Hl|lia].
Qed.

Lemma loop_done s r before e rest rp a l :
  NoDup (before ++ e :: rest) → servers = before ++ e :: rest → accept rp = Some a → tried s r before →
  oracle_loop (oracle (s <| heard := <[(r, e) := rp]> (heard s) |> <| loop := l |>)) (S r) = Some a.
Proof.
  intros Hnd Hss Ha (Hr & Hb & _ & _).
  assert (Hne : e ∉ before).
  { intros Hin. apply NoDup_app in Hnd as (_ & Hd & _). apply (Hd e Hin). by left. }
  unfold oracle_loop. eapply (Clerks.retry_first _ _ _ r); [lia|lia| |].
  - rewrite Hss. apply Clerks.try_servers_Some. exists before, e, rest, rp.
    rewrite oracle_insert, decide_True by done. split_and!; try done.
    intros e' rp' Hin. rewrite oracle_insert, decide_False by (intros [_ ->]; done).
    intros Ho. split; [by eapply Hb|done].
  - intros m Hm. rewrite <- (Hr m) by lia. apply try_servers_ext. intros e'.
    rewrite oracle_insert, decide_False; [done|lia].
Qed.

Lemma loop_inv_step s ev s' :
  NoDup servers → loop_inv s → step s ev = Some (Ok s') → loop_inv s'.
Proof.
  intros Hnd HI [(e & -> & He & Hl & Hh)|[(r & e & rest & -> & Hl & He & Hl' & Hh)|
    [(r & e & rest & k & f & rep & -> & Hl & Hf & Hp & Hr)|(r & -> & Hl & ->)]]]%step_cases;
    unfold loop_inv in *.
  - rewrite Hl. destruct (loop s) as [r rest|r e' rest k|a].
    + destruct HI as (b & ? & ?). exists b. split; [done|]. by eapply tried_same.
    + destruct HI as (b & ? & ?). exists b. split; [done|]. by eapply tried_same.
    + destruct HI as [fuel ?]. exists fuel. unfold oracle. by rewrite Hh.
  - rewrite Hl' . rewrite Hl in HI. destruct HI as (b & ? & ?). exists b.
    split; [done|]. by eapply tried_same.
  - rewrite Hl in HI. destruct HI as (b & Hss & Ht).
    apply receive_cases in Hr as [(_ & ->)|(v & rp & _ & _ & ->)]; cbn [loop update].
    + exists (b ++ [e]). rewrite <- app_assoc. split; [done|]. by apply tried_skip.
    + cbn. destruct (accept rp) as [a|] eqn:Ha.
      * exists (S r). eapply loop_done; [|done..]. by rewrite <- Hss.
      * exists (b ++ [e]). rewrite <- app_assoc. split; [done|].
        by eapply tried_hear.
  - cbn. rewrite Hl in HI. destruct HI as (b & Hss & Ht).
    rewrite app_nil_r in Hss. subst b. exists []. split; [done|]. apply tried_next. done.
Qed.

(** The request the clerk waits for is one it has sent itself. *)
Definition waits_own (s0 s : Sys) : Prop :=
  match loop s with
  | Blocked _ e _ k =>
      (length (flights (netw s0)) ≤ k)%nat ∧
      ∃ f, flights (netw s) !! k = Some f ∧ request f = call_request e meth arg
  | _ => True
  end.

Lemma flights_length n e n' :
  exec n e = Some (Ok n') → (length (flights n) ≤ length (flights n'))%nat.
Proof.
  intros [(k & f & f2 & _ & _ & -> & _)|[(op & _ & _ & -> & _)|[(rs & _ & ->)|
    (req & _ & ->)]]]%exec_cases; cbn; rewrite ?length_insert, ?length_app; lia.
Qed.

Lemma flight_persists n e n' k f :
  exec n e = Some (Ok n') → flights n !! k = Some f →
  ∃ f', flights n' !! k = Some f' ∧ request f' = request f.
Proof.
  intros He Hk. pose proof (flights_length _ _ _ He) as Hl. apply lookup_lt_Some in Hk as Hlt.
  destruct (lookup_lt_is_Some_2 (flights n') k) as [f' Hk']; [lia|]. exists f'. split; [done|].
  destruct (flights_step _ _ _ _ _ He Hk') as [(g & Hg & -> & _)|[Hz _]]; [congruence|lia].
Qed.

Lemma waits_own_step s0 s ev s' :
  (length (flights (netw s0)) ≤ length (flights (netw s)))%nat →
  waits_own s0 s → step s ev = Some (Ok s') → waits_own s0 s'.
Proof.
  intros Hlen HI [(e & -> & He & Hl & _)|[(r & e & rest & -> & Hl & He & Hl' & _)|
    [(r & e & rest & k & f & rep & -> & Hl & _ & _ & Hr)|(r & -> & Hl & ->)]]]%step_cases;
    unfold waits_own in *.
  - rewrite Hl. destruct (loop s) as [|r e' rest k|]; try done.
    destruct HI as (Hk & f & Hf & Hreq). split; [done|].
    destruct (flight_persists _ _ _ _ _ He Hf) as (f' & Hf' & Hreq'). exists f'. by rewrite Hreq'.
  - rewrite Hl'. split; [done|]. cbn in He. injection He as <-. eexists.
    cbn. rewrite lookup_app_r, Nat.sub_diag by lia. done.
  - apply receive_cases in Hr as [(_ & ->)|(v & rp & _ & _ & ->)]; cbn; [done|by destruct (accept rp)].
  - done.
Qed.

Lemma run_length s0 es s :
  run s0 es = Some s → (length (flights (netw s0)) ≤ length (flights (netw s)))%nat.
Proof.
  intros Hrun. pattern es, s. eapply sys_run_ind; [| |exact Hrun]; clear es s Hrun; [done|].
  intros es s ev s' _ IH Hs. destruct (step_netw _ _ _ Hs) as [->|(e & He%flights_length & _)]; lia.
Qed.

Lemma run_waits_own s0 es s : waits_own s0 s0 → run s0 es = Some s → waits_own s0 s.
Proof.
  intros H0 Hrun. pattern es, s. eapply sys_run_ind; [done| |exact Hrun]; clear es s Hrun.
  intros es s ev s' Hrun IH Hs. eapply waits_own_step; [|done..]. by eapply run_length.
Qed.

Lemma call_reply_positive rep v : call_reply rep = Ok (Some v) → ok rep = true.
Proof. unfold Labrpc.call_reply. by case_match. Qed.

(** Every answer the clerk has heard is one of its handlers. *)
Lemma heard_answered s0 es s :
  waits_own s0 s0 → heard s0 = ∅ → run s0 es = Some s →
  ∀ r e rp, heard s !! (r, e) = Some rp → Answered s0 es e rp.
Proof.
  intros H0 Hh0 Hrun. pattern es, s. eapply sys_run_ind; [| |exact Hrun]; clear es s Hrun.
  { intros r e rp. by rewrite Hh0, lookup_empty. }
  intros es s ev s' Hrun IH Hs r' e' rp' Hh. pose proof (run_waits_own _ _ _ H0 Hrun) as Hown.
  destruct (step_cases _ _ _ Hs) as [(e & -> & He & Hl & E)|[(r & e & rest & -> & Hl & He & Hl' & E)|
    [(r & e & rest & k & f & rep & -> & Hl & Hf & Hp & Hr)|(r & -> & Hl & ->)]]].
  - rewrite E in Hh. by eapply Answered_snoc, IH.
  - rewrite E in Hh. by eapply Answered_snoc, IH.
  - apply Answered_snoc.
    apply receive_cases in Hr as [(_ & ->)|(v & rp & Hrep & Hv & ->)]; [by eapply IH|].
    cbn in Hh. apply lookup_insert_Some in Hh as [[[= <- <-] <-]|[_ Hh]]; [|by eapply IH].
    unfold waits_own in Hown. rewrite Hl in Hown. destruct Hown as (Hk & g & Hg & Hreq).
    rewrite Hf in Hg. injection Hg as <-.
    destruct (held_is_handled _ _ _ Hrun k f rep Hf Hk) as (es1 & es2 & s1 & f1 & Hes & ? & ? & Hr1 & ?).
    { right; right; right. split; [done|]. by eapply call_reply_positive. }
    exists es1, k, es2, s1, f1, rep, v. rewrite Hreq in Hr1. done.
  - cbn in Hh. by eapply Answered_snoc, IH.
Qed.

Lemma run_loop_inv s0 es s :
  NoDup servers → loop_inv s0 → run s0 es = Some s → loop_inv s.
Proof.
  intros Hnd H0 Hrun. pattern es, s. eapply sys_run_ind; [done| |exact Hrun]; clear es s Hrun.
  intros es s ev s' _ IH Hs. by eapply loop_inv_step.
Qed.

(** A clerk that has just been called. *)
Definition fresh (s : Sys) : Prop := loop s = Calling 0 servers ∧ heard s = ∅.

Lemma fresh_invs s : fresh s → waits_own s s ∧ loop_inv s.
Proof.
  intros [Hl Hh]. unfold waits_own, loop_inv. rewrite Hl. split; [done|]. exists [].
  split; [done|]. unfold tried, oracle. rewrite Hh. split_and!; try done; intros *; lia.
Qed.


(** ** When the clerk returns

    [usable]: what the clerk makes of an answer is not a crash; [accepted]: it ends
    the call. *)
Definition usable (rr : replyMsg) : Prop :=
  call_reply rr = Ok None ∨ ∃ v rp, call_reply rr = Ok (Some v) ∧ as_reply v = Some rp.

Definition accepted (rr : replyMsg) : Prop :=
  ∃ v rp a, call_reply rr = Ok (Some v) ∧ as_reply v = Some rp ∧ accept rp = Some a.

(** A server that has the clerk's method, and one that gives the answer the clerk
    wants while the receivers' state is one of [leader]. *)
Definition serves (rs : Server) : Prop :=
  ∀ e w, ∃ w' rr, snd (srv_dispatch rs w (call_request e meth arg)) = Ok (w', rr) ∧ usable rr.

Definition serves_well (leader : W → Prop) (rs : Server) : Prop :=
  ∀ e w, leader w →
    ∃ w' rr, snd (srv_dispatch rs w (call_request e meth arg)) = Ok (w', rr) ∧ accepted rr.

(** The dispatch looks at the services only. *)
Lemma dispatch_services rs rs' w req :
  services rs' = services rs → snd (srv_dispatch rs' w req) = snd (srv_dispatch rs w req).
Proof. unfold Labrpc.srv_dispatch. cbn. by intros ->. Qed.

Lemma serves_services rs rs' : services rs' = services rs → serves rs → serves rs'.
Proof.
  intros E Hs e w. destruct (Hs e w) as (w' & rr & Hd & ?). exists w', rr.
  by rewrite (dispatch_services rs rs').
Qed.

Lemma serves_well_services leader rs rs' :
  services rs' = services rs → serves_well leader rs → serves_well leader rs'.
Proof.
  intros E Hs e w Hw. destruct (Hs e w Hw) as (w' & rr & Hd & ?). exists w', rr.
  by rewrite (dispatch_services rs rs').
Qed.

(** *** Nothing gets stuck *)

(** What an event must not do: register a pointer to no server, or create a
    server without the clerk's method. *)
Definition proper (s : Sys) (ev : CEvent) : Prop :=
  match ev with
  | ENet (NAdmin (OpAddServer _ srv)) => (srv < length (heap (netw s)))%nat
  | ENet (NNewServer rs) => serves rs
  | _ => True
  end.

(** The stages of a request for the clerk's method, each with what it needs to go
    on: a server to run the handler on, an answer the clerk can use. *)
Definition can_finish (n : State) (f : Flight) : Prop :=
  match phase f with
  | Routed i => (i_srv i < length (heap n))%nat
  | Waiting _ =>
      (∃ srv, handler f = Started srv ∧ (srv < length (heap n))%nat) ∨
      ∃ rr, handler f = Returned rr ∧ usable rr
  | Finished _ (Some rr) | Delayed rr | Replied rr => usable rr
  | _ => True
  end.

Record net_ok (n : State) : Prop := mkNetOk {
  ok_serves srv rs : heap n !! srv = Some rs → serves rs;
  ok_table sn srv : Labrpc.servers (net n) !! sn = Some (Some srv) → (srv < length (heap n))%nat;
  ok_flights k f e : flights n !! k = Some f → request f = call_request e meth arg →
    can_finish n f;
}.

Lemma usable_failure : usable failure.
Proof. by left. Qed.

Lemma can_finish_heap n n' f :
  (length (heap n) ≤ length (heap n'))%nat → can_finish n f → can_finish n' f.
Proof.
  intros Hl. unfold can_finish. destruct (phase f) as [|i|i|i []| | |]; try done; [lia|].
  intros [(srv & ? & ?)|?]; [left|by right]. exists srv. split; [done|lia].
Qed.

Lemma handles_usable n f e rr :
  net_ok n → request f = call_request e meth arg → handles n f rr → usable rr.
Proof.
  intros Hok Hreq (srv & rs & w' & _ & Hrs & Hd). rewrite Hreq in Hd.
  destruct (ok_serves _ Hok _ _ Hrs e (world n)) as (w2 & r2 & Hd2 & Hu).
  rewrite Hd in Hd2. by injection Hd2 as _ <-.
Qed.

Lemma finish_usable (rn : @Labrpc.Network Name _ _) (req : @Labrpc.reqMsg Name B) i r r1 r2 :
  (∀ rr, r = Some rr → usable rr) →
  match finish_req rn req i r r1 r2 with
  | Delayed rr | Replied rr => usable rr | _ => False
  end.
Proof.
  intros Hu. destruct (finish_req_cases rn req i r r1 r2) as [->|(rep & -> & [->| ->])];
    [apply usable_failure|by apply Hu..].
Qed.

Lemma moves_can_finish n f ev f' e :
  net_ok n → request f = call_request e meth arg → moves n f ev f' →
  can_finish n f → can_finish n f'.
Proof.
  intros Hok Hreq Hm.
  moves_cases Hm;
    unfold can_finish; cbn; rewrite ?Hp.
  - intros _. unfold admit_req, ReadEndnameInfo. destruct (default false _); [|done].
    destruct (mjoin (connections _ !! _)) as [sn|]; [|done]. cbn.
    destruct (mjoin (Labrpc.servers _ !! _)) as [srv|] eqn:Hs; [|done]. cbn.
    apply (ok_table _ Hok sn). unfold mjoin, option_join in Hs. by case_match; subst.
  - intros _. apply usable_failure.
  - intros ?. left. by exists (i_srv i).
  - pose proof (handles_usable _ _ _ _ Hok Hreq Hh) as Hu. destruct (phase f) as [|i|i|i []| | |]; try done.
    intros _. right. by exists r.
  - intros [(srv & ? & _)|(rr & E & ?)]; [congruence|]. by replace r with rr by congruence.
  - done.
  - done.
  - intros Hf. assert (Hu : ∀ rr, r = Some rr → usable rr) by (by intros rr ->).
    pose proof (finish_usable (net n) (request f) i r r1 r2 Hu) as Hx.
    by destruct (finish_req _ _ _ _ _ _).
  - done.
  - intros _. apply usable_failure.
Qed.

Lemma table_admin (rn : @Labrpc.Network Name _ _) op rn' sn srv :
  exec_admin rn op = Ok rn' → Labrpc.servers rn' !! sn = Some (Some srv) →
  Labrpc.servers rn !! sn = Some (Some srv) ∨ op = OpAddServer sn srv.
Proof.
  destruct op as [| | |e|sn' rs|sn'| |]; cbn; intros He Hs; try (injection He as <-; by left).
  - unfold MakeEnd in He. case_decide; [done|]. injection He as <-. by left.
  - injection He as <-. cbn in Hs. apply lookup_insert_Some in Hs as [[-> [= ->]]|[_ Hs]]; auto.
  - injection He as <-. cbn in Hs. apply lookup_insert_Some in Hs as [[_ ?]|[_ Hs]]; [done|auto].
Qed.

Lemma net_ok_exec n ev n' :
  (∀ sn srv, ev = NAdmin (OpAddServer sn srv) → (srv < length (heap n))%nat) →
  (∀ rs, ev = NNewServer rs → serves rs) →
  net_ok n → exec n ev = Some (Ok n') → net_ok n'.
Proof.
  intros Hadd Hnew Hok He. pose proof Hok as [Hs Ht Hf].
  destruct (exec_cases _ _ _ He) as [(k & f & f2 & Hk & Hm & Ef & En & Eh & El & _)|
    [(op & -> & Ho & Ef & Eh)|[(rs & -> & ->)|(req & -> & ->)]]].
  - assert (Hcan : ∀ g, can_finish n g → can_finish n' g) by (intros g; apply can_finish_heap; lia).
    constructor.
    + intros srv rs' Hrs'. destruct (lookup_lt_is_Some_2 (heap n) srv) as [rs Hrs].
      { rewrite <- El. by eapply lookup_lt_Some. }
      destruct (Eh _ _ Hrs) as (rs2 & ? & ?). simplify_eq. by eapply serves_services, Hs.
    + intros sn srv. rewrite En, El. apply Ht.
    + intros j g e. rewrite Ef. intros [(-> & -> & _)|[_ Hj]]%list_lookup_insert_Some Hreq.
      * rewrite (moves_request _ _ _ _ Hm) in Hreq. eapply Hcan, moves_can_finish; eauto.
      * eapply Hcan, Hf; eauto.
  - constructor; rewrite ?Eh, ?Ef; [done| |].
    + intros sn srv Hsn. destruct (table_admin _ _ _ _ _ Ho Hsn) as [?| ->]; [eauto|by eapply Hadd].
    + intros j g e Hj Hreq. eapply can_finish_heap; [|eauto]. by rewrite Eh.
  - constructor; cbn.
    + intros srv rs' [?|[_ Hrs]]%lookup_app_Some; [eauto|].
      apply list_lookup_singleton_Some in Hrs as [_ <-]. by apply Hnew.
    + intros sn srv Hsn%Ht. rewrite length_app. lia.
    + intros j g e Hj Hreq. eapply can_finish_heap; [|eauto]. cbn. rewrite length_app. lia.
  - constructor; cbn; [done..|].
    intros j g e [Hj|[_ Hj]]%lookup_app_Some Hreq.
    + eapply can_finish_heap; [|eauto]. done.
    + apply list_lookup_singleton_Some in Hj as [_ <-]. done.
Qed.

Lemma net_ok_step s ev s' :
  proper s ev → net_ok (netw s) → step s ev = Some (Ok s') → net_ok (netw s').
Proof.
  intros Hp Hok Hs. destruct (step_netw _ _ _ Hs) as [->|(e & He & Hev)]; [done|].
  eapply net_ok_exec; [| |done|done]; destruct Hev as [->|(_ & ? & ? & ? & -> & _)]; try done;
    by intros ? ? ->|| by intros ? ->.
Qed.

(** *** Once a server can be reached

    [e0] is an end point of the clerk, [srv0] the server registered under [sn0]. *)
Section reached.
Context (leader : W → Prop) (e0 sn0 : Name) (srv0 : nat).

(** The end point is enabled and connected to a server that answers well, on a
    network that does not lose messages. *)
Record link (n : State) : Prop := mkLink {
  link_enabled : enabled (net n) !! e0 = Some true;
  link_connected : connections (net n) !! e0 = Some (Some sn0);
  link_server : Labrpc.servers (net n) !! sn0 = Some (Some srv0);
  link_reliable : reliable (net n) = true;
  link_serves : ∃ rs, heap n !! srv0 = Some rs ∧ serves_well leader rs;
}.

(** What the administration leaves alone: the link.  All other end points and
    servers may come, go and be rewired. *)
Definition spares (op : @Labrpc.Admin Name) : Prop :=
  match op with
  | OpReliable b => b = true
  | OpMakeEnd e | OpConnect e _ | OpEnable e _ => e ≠ e0
  | OpAddServer sn _ | OpDeleteServer sn => sn ≠ sn0
  | OpReordering _ | OpDelays _ => True
  end.

Definition calm (s : Sys) (ev : CEvent) : Prop :=
  proper s ev ∧ leader (world (netw s)) ∧
  match ev with ENet (NAdmin op) => spares op | _ => True end.

Lemma link_admin rn op rn' :
  spares op → exec_admin rn op = Ok rn' →
  enabled rn' !! e0 = enabled rn !! e0 ∧ connections rn' !! e0 = connections rn !! e0 ∧
  Labrpc.servers rn' !! sn0 = Labrpc.servers rn !! sn0 ∧
  (reliable rn = true → reliable rn' = true).
Proof.
  destruct op as [| | |e| | | |]; cbn; intros Hsp He;
    try (injection He as <-; cbn; by rewrite ?lookup_insert_ne by done).
  unfold MakeEnd in He. case_decide; [done|]. injection He as <-. cbn.
  by rewrite !lookup_insert_ne by done.
Qed.

Lemma link_exec n ev n' :
  (∀ op, ev = NAdmin op → spares op) → link n → exec n ev = Some (Ok n') → link n'.
Proof.
  intros Hsp [H1 H2 H3 H4 (rs & Hrs & Hw)].
  intros [(k & f & f2 & _ & _ & _ & En & Eh & _ & _)|
    [(op & -> & Ho & _ & Eh)|[(rs' & -> & ->)|(req & -> & ->)]]]%exec_cases.
  - constructor; rewrite ?En; try done. destruct (Eh _ _ Hrs) as (rs' & ? & ?).
    exists rs'. split; [done|]. by eapply serves_well_services.
  - destruct (link_admin _ _ _ (Hsp op eq_refl) Ho) as (E1 & E2 & E3 & E4).
    constructor; rewrite ?E1, ?E2, ?E3, ?Eh; eauto.
  - constructor; cbn; try done. exists rs. split; [|done]. by apply lookup_app_l_Some.
  - constructor; cbn; try done. by exists rs.
Qed.

(** A request on the link, sent while it is up: it will be answered as wanted. *)
Definition to_srv0 (i : @Info Name) : Prop := i_sn i = sn0 ∧ i_srv i = srv0 ∧ i_rel i = true.

Definition on_track (f : Flight) : Prop :=
  request f = call_request e0 meth arg ∧
  match phase f with
  | Queued => True
  | Routed i => to_srv0 i
  | Waiting i => to_srv0 i ∧
      (handler f = Started srv0 ∨ ∃ rr, handler f = Returned rr ∧ accepted rr)
  | Finished i (Some rr) => to_srv0 i ∧ accepted rr
  | Delayed rr | Replied rr => accepted rr
  | _ => False
  end.

Lemma link_alive n i : link n → to_srv0 i → IsServerDead (net n) e0 (i_sn i) (i_srv i) = false.
Proof.
  intros [H1 _ H3 _ _] (-> & -> & _). unfold IsServerDead. rewrite H1, H3. cbn.
  by rewrite bool_decide_eq_true_2.
Qed.

Lemma handles_accepted n f rr :
  link n → leader (world n) → request f = call_request e0 meth arg → handler f = Started srv0 →
  handles n f rr → accepted rr.
Proof.
  intros [_ _ _ _ (rs0 & Hrs0 & Hw)] Hl Hreq Hst (srv & rs & w' & Hst' & Hrs & Hd).
  assert (srv = srv0) as -> by congruence. assert (rs = rs0) as -> by congruence.
  destruct (Hw e0 _ Hl) as (w2 & r2 & Hd2 & Ha). rewrite Hreq, Hd2 in Hd.
  by injection Hd as _ ->.
Qed.

Lemma moves_on_track n f ev f' :
  link n → leader (world n) → moves n f ev f' → on_track f → on_track f'.
Proof.
  intros HL Hw Hm [Hreq Ht]. split; [by rewrite (moves_request _ _ _ _ Hm)|].
  moves_cases Hm;
    cbn; rewrite ?Hp in Ht; try done.
  - unfold admit_req, ReadEndnameInfo. rewrite Hreq. cbn. destruct HL as [-> -> E3 E4 _]. cbn.
    by rewrite E3, E4.
  - destruct Ht as (_ & _ & Hrel). by rewrite Hrel in Hdr.
  - split; [done|]. left. by destruct Ht as (_ & -> & _).
  - destruct (phase f) as [|i|i|i []| | |]; try done. destruct Ht as [Hi [Hst|(rr & E & _)]].
    + split; [done|]. right. exists r. split; [done|]. by eapply handles_accepted.
    + destruct Hh as (srv & rs & w' & ? & _). congruence.
  - destruct Ht as [Hi [Hst|(rr & E & ?)]]; [congruence|]. split; [done|].
    by replace r with rr by congruence.
  - destruct Ht as [Hi _]. rewrite Hreq in Hde. cbn in Hde. by rewrite link_alive in Hde.
  - destruct r as [rr|]; [|done]. destruct Ht as [Hi Ha]. unfold finish_req.
    rewrite Hreq. cbn. rewrite link_alive by done. destruct Hi as (_ & _ & ->). cbn.
    by destruct (i_reorder i && (r2 <? 600)).
Qed.

(** *** Counting down *)

Definition phase_rank (p : @Phase Name B) : nat :=
  match p with
  | Queued => 5 | Routed _ => 4 | Waiting _ => 3 | Finished _ _ => 2
  | Delayed _ | Refused => 1 | Replied _ => 0
  end.

Definition rank (f : Flight) : nat :=
  2 * phase_rank (phase f) + match handler f with Started _ => 1 | _ => 0 end.

Definition timer (ev : Event) : bool := match ev with NTimer _ => true | _ => false end.

Lemma rank_finish (rn : @Labrpc.Network Name _ _) (req : @Labrpc.reqMsg Name B) i r r1 r2 :
  (phase_rank (finish_req rn req i r r1 r2) ≤ 1)%nat.
Proof. destruct (finish_req_cases rn req i r r1 r2) as [->|(rep & _ & [->| ->])]; cbn; lia. Qed.

Lemma rank_admit (rn : @Labrpc.Network Name _ _) (req : @Labrpc.reqMsg Name B) :
  (phase_rank (admit_req rn req) ≤ 4)%nat.
Proof. unfold admit_req. repeat case_match; cbn; lia. Qed.

Lemma moves_rank n f ev f' :
  moves n f ev f' → (rank f' ≤ rank f ∧ (timer ev = false → rank f' < rank f))%nat.
Proof.
  intros Hm. unfold rank.
  moves_cases Hm;
    cbn -[Nat.mul admit_req]; rewrite ?Hp; cbn -[Nat.mul admit_req]; (split; [|intros ?]); try done.
  all: try (pose proof (rank_admit (net n) (request f))).
  all: try (pose proof (rank_finish (net n) (request f) i r r1 r2)).
  all: try (destruct Hh as (srv & _ & _ & -> & _)); try rewrite Hh; try destruct (handler f); lia.
Qed.
(** The clerk's own steps: those of its loop, and those of the request it waits
    for (the timer is left out: it may tick without effect). *)
Definition own (s : Sys) (ev : CEvent) : bool :=
  match ev, loop s with
  | ENet e, Blocked _ _ _ k => negb (timer e) && bool_decide (event_req e = Some k)
  | ENet _, _ => false
  | _, _ => true
  end.

(** Executions in which every event satisfies [P], with the number of the
    clerk's own steps. *)
Inductive Steps (P : Sys → CEvent → Prop) (s : Sys) : nat → Sys → Prop :=
| steps_refl : Steps P s 0 s
| steps_step n s1 ev s2 : Steps P s n s1 → P s1 ev → step s1 ev = Some (Ok s2) →
    Steps P s (n + if own s1 ev then 1 else 0) s2.

(** A pass over the servers that has missed the link costs a second one. *)
Definition second_pass (ahead : Prop) (d : nat) : Prop :=
  d = 0%nat ∧ ahead ∨ d = (12 * length servers + 1)%nat.

(** [m] bounds the clerk's own steps from [s] on. *)
Definition bound (s : Sys) (m : nat) : Prop :=
  match loop s with
  | Done _ => True
  | Calling r rest => ∃ d, second_pass (e0 ∈ rest) d ∧ (12 * length rest + d ≤ m)%nat
  | Blocked r e rest k =>
      ∃ f d, flights (netw s) !! k = Some f ∧ second_pass (e0 ∈ rest ∨ on_track f) d ∧
        (S (rank f) + 12 * length rest + d ≤ m)%nat
  end.

Lemma second_pass_mono (P Q : Prop) d : (P → Q) → second_pass P d → second_pass Q d.
Proof. intros HPQ [[-> ?]| ->]; [left; auto|by right]. Qed.

Lemma bound_net s e s' m :
  link (netw s) → leader (world (netw s)) → exec (netw s) e = Some (Ok (netw s')) →
  loop s' = loop s → bound s m →
  ∃ m', bound s' m' ∧ (m' + (if own s (ENet e) then 1 else 0) ≤ m)%nat.
Proof.
  intros HL Hw He Hl Hb. unfold bound, own in *. rewrite Hl.
  destruct (loop s) as [r rest|r e' rest k|a]; [exists m; split; [done|lia]| |exists m; split; [done|lia]].
  destruct Hb as (f & d & Hf & Hd & Hm).
  assert (Hstay : flights (netw s') !! k = Some f → negb (timer e) && bool_decide (event_req e = Some k) = false →
    ∃ m', (∃ f d, flights (netw s') !! k = Some f ∧ second_pass (e0 ∈ rest ∨ on_track f) d ∧
            (S (rank f) + 12 * length rest + d ≤ m')%nat) ∧
      (m' + (if negb (timer e) && bool_decide (event_req e = Some k) then 1 else 0) ≤ m)%nat).
  { intros Hf' ->. exists m. split; [by exists f, d|lia]. }
  destruct (exec_cases _ _ _ He) as [(j & g & g' & Hg & Hmv & Ef & _ & _ & _ & Hi)|
    [(op & -> & _ & Ef & _)|[(rs & -> & E)|(req & -> & E)]]].
  - destruct (decide (j = k)) as [->|Hne].
    + assert (g = f) as -> by congruence. destruct (moves_rank _ _ _ _ Hmv) as [Hle Hlt].
      exists (S (rank g') + 12 * length rest + d)%nat. split.
      * exists g', d. rewrite Ef, list_lookup_insert_eq by (by eapply lookup_lt_Some).
        split_and!; [done| |lia]. eapply second_pass_mono; [|exact Hd].
        intros [?|?]; [by left|right]. by eapply moves_on_track.
      * rewrite Hi. destruct (timer e) eqn:Ht; cbn [negb andb]; [lia|].
        rewrite bool_decide_eq_true_2 by done. specialize (Hlt eq_refl). lia.
    + apply Hstay; [by rewrite Ef, list_lookup_insert_ne|].
      rewrite Hi, bool_decide_eq_false_2 by congruence. apply andb_false_r.
  - apply Hstay; [by rewrite Ef|done].
  - apply Hstay; [by rewrite E|done].
  - apply Hstay; [|done]. rewrite E. cbn. by apply lookup_app_l_Some.
Qed.

Lemma on_track_accepted s r e rest f rep s' :
  on_track f → phase f = Replied rep → receive s r e rest rep = Ok s' → ∃ a, loop s' = Done a.
Proof.
  intros [_ Ht] Hp Hr. rewrite Hp in Ht. destruct Ht as (v & rp & a & Hc & Hv & Ha).
  apply receive_cases in Hr as [[Hc' _]|(v' & rp' & Hc' & Hv' & ->)]; [congruence|].
  exists a. cbn. rewrite Hc in Hc'. injection Hc' as <-. rewrite Hv in Hv'.
  injection Hv' as <-. by rewrite Ha.
Qed.

Lemma bound_step s ev s' m :
  e0 ∈ servers → link (netw s) → calm s ev → step s ev = Some (Ok s') → bound s m →
  ∃ m', bound s' m' ∧ (m' + (if own s ev then 1 else 0) ≤ m)%nat.
Proof.
  intros He0 HL (_ & Hw & _) Hs Hb.
  destruct (step_cases _ _ _ Hs) as [(e & -> & He & Hl & _)|[(r & e & rest & -> & Hl & He & Hl' & _)|
    [(r & e & rest & k & f & rep & -> & Hl & Hf & Hp & Hr)|(r & -> & Hl & ->)]]].
  - by eapply bound_net.
  - unfold bound in *. rewrite Hl in Hb. rewrite Hl'. destruct Hb as (d & Hd & Hm). cbn in Hm.
    cbn in He. injection He as <-. cbn.
    exists (11 + 12 * length rest + d)%nat. split; [|cbn; lia].
    eexists _, d. split; [by rewrite lookup_app_r, Nat.sub_diag by done|].
    split; [|cbn; lia]. eapply second_pass_mono; [|exact Hd].
    intros [<-|?]%elem_of_cons; [by right|by left].
  - unfold bound in Hb. rewrite Hl in Hb. destruct Hb as (g & d & Hg & Hd & Hm).
    assert (g = f) as -> by congruence. destruct Hd as [[-> [Hin|Ht]]| ->].
    + exists (12 * length rest)%nat. split; [|cbn; lia].
      apply receive_cases in Hr as [(_ & ->)|(v & rp & _ & _ & ->)]; unfold bound; cbn;
        [|destruct (accept rp); [done|]]; exists 0%nat; (split; [by left|lia]).
    + destruct (on_track_accepted _ _ _ _ _ _ _ Ht Hp Hr) as [a Ha].
      exists 0%nat. unfold bound. rewrite Ha. split; [done|cbn; lia].
    + exists (12 * length rest + (12 * length servers + 1))%nat. split; [|cbn; lia].
      apply receive_cases in Hr as [(_ & ->)|(v & rp & _ & _ & ->)]; unfold bound; cbn;
        [|destruct (accept rp); [done|]]; eexists; (split; [by right|lia]).
  - unfold bound in *. rewrite Hl in Hb. destruct Hb as (d & [[-> []%elem_of_nil]| ->] & Hm).
    exists (12 * length servers)%nat. split; [|cbn in *; lia]. cbn. exists 0%nat.
    split; [by left|lia].
Qed.

(** *** The clerk always has a step of its own *)

(** The servers still to try are the end of the list. *)
Definition in_list (s : Sys) : Prop :=
  match loop s with
  | Calling _ rest => ∃ before, servers = before ++ rest
  | Blocked _ e rest _ => ∃ before, servers = before ++ e :: rest
  | Done _ => True
  end.

Lemma in_list_step s ev s' : in_list s → step s ev = Some (Ok s') → in_list s'.
Proof.
  intros HI [(e & -> & He & Hl & _)|[(r & e & rest & -> & Hl & He & Hl' & _)|
    [(r & e & rest & k & f & rep & -> & Hl & _ & _ & Hr)|(r & -> & Hl & ->)]]]%step_cases;
    unfold in_list in *.
  - by rewrite Hl.
  - rewrite Hl'. by rewrite Hl in HI.
  - rewrite Hl in HI. destruct HI as [b Hb].
    apply receive_cases in Hr as [(_ & ->)|(v & rp & _ & _ & ->)]; cbn;
      [|destruct (accept rp); [done|]]; exists (b ++ [e]); by rewrite <- app_assoc.
  - cbn. by exists [].
Qed.

Lemma exec_flight_enabled n k f ev n' :
  event_req ev = Some k → flights n !! k = Some f →
  exec_flight Encode Decode zero n k f ev = Some (Ok n') → exec n ev = Some (Ok n').
Proof. intros Hev Hf Hx. destruct ev; try done; cbn in *; injection Hev as ->; by rewrite Hf. Qed.

(** A request of the clerk that is not answered yet can move. *)
Lemma flight_can_move n k f e :
  net_ok n → flights n !! k = Some f → request f = call_request e meth arg →
  (∃ rr, phase f = Replied rr ∧ usable rr) ∨
  ∃ ev n', event_req ev = Some k ∧ timer ev = false ∧ exec n ev = Some (Ok n').
Proof.
  intros Hok Hf Hreq. pose proof (ok_flights _ Hok _ _ _ Hf Hreq) as Hc.
  assert (Hgo : ∀ ev n', event_req ev = Some k → timer ev = false →
    exec_flight Encode Decode zero n k f ev = Some (Ok n') →
    ∃ ev n', event_req ev = Some k ∧ timer ev = false ∧ exec n ev = Some (Ok n')).
  { intros ev n' ? ? ?. exists ev, n'. split_and!; try done. by eapply exec_flight_enabled. }
  unfold can_finish in Hc. unfold exec_flight in Hgo.
  destruct (phase f) as [|i|i|i r|rr| |rr] eqn:Hp.
  - right. by eapply (Hgo (NRead k)).
  - right. by eapply (Hgo (NAccept k 0)).
  - right. destruct Hc as [(srv & Hst & Hsrv)|(rr & Hst & _)].
    + destruct (lookup_lt_is_Some_2 _ _ Hsrv) as [rs Hrs].
      destruct (ok_serves _ Hok _ _ Hrs e (world n)) as (w' & rr & Hd & _).
      destruct (srv_dispatch rs (world n) (call_request e meth arg)) as [rs' out] eqn:E.
      cbn in Hd. subst out. eapply (Hgo (NHandle k)); [done..|]. rewrite Hst.
      unfold exec_handle. rewrite Hrs. cbn -[Labrpc.srv_dispatch]. by rewrite Hreq, E.
    + eapply (Hgo (NReceive k)); [done..|]. by rewrite Hst.
  - right. by eapply (Hgo (NFinish k 0 0)).
  - right. by eapply (Hgo (NRelease k)).
  - right. by eapply (Hgo (NRelease k)).
  - left. by exists rr.
Qed.

Lemma own_step_enabled s0 s :
  net_ok (netw s) → waits_own s0 s →
  (∃ a, loop s = Done a) ∨ ∃ ev s', own s ev = true ∧ step s ev = Some (Ok s').
Proof.
  intros Hok Hw. unfold waits_own in Hw. destruct (loop s) as [r [|e rest]|r e rest k|a] eqn:Hl.
  - right. exists ESleep. eexists. cbn. by rewrite Hl.
  - right. exists ECall. eexists. cbn. rewrite Hl. cbn. done.
  - right. destruct Hw as (_ & f & Hf & Hreq).
    destruct (flight_can_move _ _ _ _ Hok Hf Hreq) as [(rr & Hp & Hu)|(ev & n' & Hev & Ht & Hx)].
    + exists EReturn. destruct Hu as [Hu|(v & rp & Hu & Hv)]; eexists; cbn;
        rewrite Hl, Hf; cbn; rewrite Hp; unfold receive; rewrite Hu; cbn; rewrite ?Hv; done.
    + exists (ENet ev), (s <| netw := n' |>). split.
      * unfold own. rewrite Hl, Ht, Hev. cbn. by apply bool_decide_eq_true.
      * cbn. rewrite Hx. done.
  - left. by exists a.
Qed.

(** The clerk and the empty network, before anything has happened. *)
Definition start (w : W) : Sys := mkSys (Labrpc.init w) (Calling 0 servers) ∅.

Lemma start_inv w : net_ok (netw (start w)) ∧ waits_own (start w) (start w) ∧ in_list (start w).
Proof. split_and!; [constructor; cbn; by intros|done|by exists []]. Qed.

(** What holds in every execution whose events are proper. *)
Definition clerk_ok (s0 s : Sys) : Prop := net_ok (netw s) ∧ waits_own s0 s ∧ in_list s.

Lemma start_ok w : clerk_ok (start w) (start w).
Proof. split_and!; [constructor; cbn; by intros|done|by exists []]. Qed.

Lemma steps_ok (P : Sys → CEvent → Prop) w s n s' :
  (∀ s ev, P s ev → proper s ev) → clerk_ok (start w) s → Steps P s n s' →
  clerk_ok (start w) s'.
Proof.
  intros HP H0 Hs. induction Hs as [|n s1 ev s2 _ (Hok & Hw & Hi) Hpr Hst]; [done|].
  split_and!; [by eapply net_ok_step, Hst; [apply HP|]| |by eapply in_list_step].
  eapply waits_own_step; [|done..]. cbn. lia.
Qed.

Lemma link_step s ev s' :
  calm s ev → link (netw s) → step s ev = Some (Ok s') → link (netw s').
Proof.
  intros (_ & _ & Hsp) HL Hs. destruct (step_netw _ _ _ Hs) as [->|(e & He & Hev)]; [done|].
  eapply link_exec; [|done..]. intros op ->.
  destruct Hev as [->|(_ & ? & ? & ? & ? & _)]; [exact Hsp|done].
Qed.

Lemma rank_bound (f : Flight) : (rank f ≤ 11)%nat.
Proof. unfold rank. destruct (phase f), (handler f); cbn; lia. Qed.

(** At any moment, two passes over the servers are enough. *)
Lemma bound_now s0 s : waits_own s0 s → in_list s → bound s (24 * length servers + 1).
Proof.
  intros Hw Hi. unfold bound, waits_own, in_list in *. destruct (loop s) as [r rest|r e rest k|a]; [| |done].
  - destruct Hi as [b Hb]. apply (f_equal length) in Hb. rewrite length_app in Hb.
    eexists. split; [by right|]. lia.
  - destruct Hw as (_ & f & Hf & _). destruct Hi as [b Hb]. apply (f_equal length) in Hb.
    rewrite length_app in Hb. cbn [length] in Hb. exists f. eexists.
    split_and!; [done|by right|]. pose proof (rank_bound f). lia.
Qed.

Lemma calm_steps s n s' m :
  e0 ∈ servers → link (netw s) → Steps calm s n s' → bound s m →
  link (netw s') ∧ ∃ m', bound s' m' ∧ (m' + n ≤ m)%nat.
Proof.
  intros He0 HL Hs Hb. induction Hs as [|n s1 ev s2 _ [HL1 (m1 & Hb1 & Hm1)] Hca Hst].
  - split; [done|]. exists m. split; [done|lia].
  - split; [by eapply link_step|].
    destruct (bound_step _ _ _ _ He0 HL1 Hca Hst Hb1) as (m2 & Hb2 & Hm2).
    exists m2. split; [done|lia].
Qed.

Lemma steps_trans P s n s1 n' s2 : Steps P s n s1 → Steps P s1 n' s2 → ∃ m, Steps P s m s2.
Proof.
  intros H1 H2. induction H2 as [|k t ev u _ [m IH] HP Hst]; [by exists n|].
  eexists. by eapply steps_step.
Qed.

Lemma own_calm s ev : leader (world (netw s)) → own s ev = true → calm s ev.
Proof.
  intros Hw Ho. unfold calm, own, proper in *.
  destruct ev as [[]| | |]; try done; by destruct (loop s).
Qed.

(** The clerk alone can go on to the end, if the servers' state does not matter. *)
Lemma clerk_can_return w s :
  (∀ w, leader w) → e0 ∈ servers → clerk_ok (start w) s → link (netw s) →
  ∃ n s' a, Steps calm s n s' ∧ loop s' = Done a.
Proof.
  intros Hlead He0 Hok. pose proof Hok as (_ & Hw & Hi). pose proof (bound_now _ _ Hw Hi) as Hb.
  clear Hw Hi. revert Hb. generalize (24 * length servers + 1)%nat as m. intros m.
  revert s Hok. induction m as [m IH] using lt_wf_ind. intros s Hok Hb HL.
  destruct Hok as (Hn & Hw & Hi).
  destruct (own_step_enabled _ _ Hn Hw) as [[a Ha]|(ev & s1 & Ho & Hst)].
  { exists 0%nat, s, a. split; [constructor|done]. }
  pose proof (own_calm s ev (Hlead _) Ho) as Hca.
  destruct (bound_step _ _ _ _ He0 HL Hca Hst Hb) as (m1 & Hb1 & Hm1). rewrite Ho in Hm1.
  assert (Hs1 : Steps calm s (0 + if own s ev then 1 else 0) s1) by (eapply steps_step; [constructor|done..]).
  assert (Hok1 : clerk_ok (start w) s1) by (eapply (steps_ok calm); [by intros ? ? []|by split_and!|exact Hs1]).
  assert (Hlt : (m1 < m)%nat) by lia.
  destruct (IH m1 Hlt s1 Hok1 Hb1 (link_step _ _ _ Hca HL Hst)) as (n & s' & a & Hs' & Ha).
  destruct (steps_trans _ _ _ _ _ _ Hs1 Hs') as [k Hk]. by exists k, s', a.
Qed.

(** C28. The clerk returns: whatever has happened before, once one of the clerk's
    end points is connected to a server that answers as the clerk wants, on a
    network that does not lose messages, and while that remains so, the clerk
    makes at most 24 steps of its own for each server of its list, and one more,
    before it has returned, however these are interleaved with the requests of
    others, the failures of the other servers and the reconfiguration of all other
    end points; and until it has returned it can always make such a step. *)
Theorem clerk_returns w n0 s n s' :
  e0 ∈ servers → Steps proper (start w) n0 s → link (netw s) → Steps calm s n s' →
  (n ≤ 24 * length servers + 1)%nat ∧
  ((∃ a, loop s' = Done a) ∨
   ∃ ev s'', own s' ev = true ∧ step s' ev = Some (Ok s'')).
Proof.
  intros He0 Hpast HL Hca. pose proof (steps_ok _ _ _ _ _ (λ _ _ H, H) (start_ok w) Hpast) as Hok.
  assert (Hok' : clerk_ok (start w) s').
  { eapply steps_ok; [|exact Hok|exact Hca]. by intros ? ? []. }
  destruct Hok as (_ & Hw & Hi), Hok' as (Hnet & Hw' & _).
  destruct (calm_steps _ _ _ _ He0 HL Hca (bound_now _ _ Hw Hi)) as (_ & m' & _ & Hm).
  split; [lia|]. by eapply own_step_enabled.
Qed.
End reached.

(** C35. The clerk over the network is its code: what a clerk has returned, after
    any interleaving of its steps with the network, is what its loop over rounds
    and servers returns against an oracle; and each answer of the oracle was
    computed by a handler, from a request the clerk sent to that end point, in the
    state that the handler's receiver had at a moment of the call.  The servers'
    end points are distinct. *)
Theorem clerk_refines_loop s0 es s a :
  NoDup servers → fresh s0 → run s0 es = Some s → loop s = Done a →
  ∃ rpc fuel, oracle_loop rpc fuel = Some a ∧
    ∀ r e rp, rpc r e = Some rp → Answered s0 es e rp.
Proof.
  intros Hnd H0 Hrun Hdone. destruct (fresh_invs s0 H0) as [Hw Hi].
  pose proof (run_loop_inv _ _ _ Hnd Hi Hrun) as HI. unfold loop_inv in HI. rewrite Hdone in HI.
  destruct HI as [fuel Hf]. exists (oracle s), fuel. split; [done|].
  intros r e rp. apply (heard_answered s0 es s); [done|apply H0|done].
Qed.
End clerknet.
End ClerkNet.
