(* ===== verification/ClerkNetProps.v ===== *)
(** * ClerkNetProps: the shard master's and kvraft's clerks over the network

    Instances of ClerkNet.v: the four calls of the shard master's clerk against its
    service as MakeService registers it, and the Get of kvraft's clerk; then an
    execution with one clerk, an end point that is not connected and one that is. *)
From Stdlib Require Import Ascii.
From S2P Require Import Prelude.
From S2P Require Import Labrpc.
From S2P Require Import KVRaft.
From S2P Require Import Clerks.
From S2P Require Import ClerkNet.
From S2P Require Import Services.

Module ClerkNetProps.
Import ClerkNet.

(** ** A registered method serves *)

Section registered.
Context {Name : Type} `{Countable Name}.
Context {W V B R A : Type} (Encode : V → B) (Decode : B → option V) (zero : V).
Context (as_reply : V → option R) (accept : R → option A) (arg : V).
Context (codec : ∀ v, Decode (Encode v) = Some v).
Context (rs : @Labrpc.Server W V) (svc : @Labrpc.Service W V) (m : @Labrpc.Method W V).
Context (nodot : ∀ c, c ∈ chars (Labrpc.mname m) → c ≠ "."%char).
Context (registered : Labrpc.services rs !! Labrpc.name svc = Some svc).
Context (method : Labrpc.methods svc !! Labrpc.mname m = Some m).

#[local] Notation meth := (Labrpc.name svc +:+ "." +:+ Labrpc.mname m).

Lemma method_serves :
  (∀ w, ∃ rp, as_reply (snd (Labrpc.Func m w arg)) = Some rp) →
  serves (Name:=Name) Encode Decode zero as_reply meth arg rs.
Proof.
  intros Hr e w. destruct (Hr w) as [rp Hrp]. eexists _, _.
  split; [by apply Labrpc.dispatch_to|]. right. exists (snd (Labrpc.Func m w arg)), rp.
  split; [|done]. by apply Labrpc.call_reply_encode.
Qed.

Lemma method_serves_well leader :
  (∀ w, leader w → ∃ rp a, as_reply (snd (Labrpc.Func m w arg)) = Some rp ∧ accept rp = Some a) →
  serves_well (Name:=Name) Encode Decode zero as_reply accept meth arg leader rs.
Proof.
  intros Hr e w Hw. destruct (Hr w Hw) as (rp & a & Hrp & Ha). eexists _, _.
  split; [by apply Labrpc.dispatch_to|]. exists (snd (Labrpc.Func m w arg)), rp, a.
  split; [|done]. by apply Labrpc.call_reply_encode.
Qed.
End registered.

(** ** The shard master *)

(** What travels between the shard master's clerk and its servers. *)
Inductive Msg :=
| MJoin (a : Clerks.JoinArgs) | MLeave (a : Clerks.LeaveArgs) | MMove (a : Clerks.MoveArgs)
| MQuery (a : Clerks.QueryArgs) | MAck (r : Clerks.AckReply) | MQueryReply (r : Clerks.QueryReply)
| MNone.

(** A decoded argument; of another type it does not decode and stays zero. *)
Definition join_of (v : Msg) : Clerks.JoinArgs :=
  match v with MJoin a => a | _ => Clerks.mkJoinArgs ∅ end.
Definition leave_of (v : Msg) : Clerks.LeaveArgs :=
  match v with MLeave a => a | _ => Clerks.mkLeaveArgs [] end.
Definition move_of (v : Msg) : Clerks.MoveArgs :=
  match v with MMove a => a | _ => Clerks.mkMoveArgs 0 0 end.
Definition query_of (v : Msg) : Clerks.QueryArgs :=
  match v with MQuery a => a | _ => Clerks.mkQueryArgs 0 end.

Definition as_query_reply (v : Msg) : option Clerks.QueryReply :=
  match v with MQueryReply r => Some r | _ => None end.
Definition as_ack (v : Msg) : option Clerks.AckReply :=
  match v with MAck r => Some r | _ => None end.

(** What reflect finds on a [*ShardMaster]; [Kill] and [Raft] are no handlers. *)
Section service.
Context {W : Type}.

Definition handler (n : string) (f : Msg → Msg) : @Labrpc.Method W Msg :=
  Labrpc.mkMethod n "" 3 true 0 (λ w v, (w, f v)).
Definition accessor (n : string) (out : Z) : @Labrpc.Method W Msg :=
  Labrpc.mkMethod n "" 1 false out (λ w v, (w, v)).

(*@ src/src/shardmaster/server.go 27-60 ShardMaster (method set) *)
Definition sm_methods : list (@Labrpc.Method W Msg) :=
  [handler "Join" (λ v, MAck (Services.sm_Join (join_of v)));
   accessor "Kill" 0;
   handler "Leave" (λ v, MAck (Services.sm_Leave (leave_of v)));
   handler "Move" (λ v, MAck (Services.sm_Move (move_of v)));
   handler "Query" (λ v, MQueryReply (Services.sm_Query (query_of v)));
   accessor "Raft" 1].

(*@ src/src/shardmaster/config.go 280-284 config.StartServer (services) *)
Definition sm_service : @Labrpc.Service W Msg := Labrpc.MakeService "ShardMaster" sm_methods.

Lemma sm_service_methods n :
  n ∈ ["Join"; "Leave"; "Move"; "Query"] →
  ∃ m, m ∈ sm_methods ∧ Labrpc.methods sm_service !! n = Some m ∧ Labrpc.mname m = n.
Proof.
  intros Hn. repeat (apply elem_of_cons in Hn as [->|Hn];
    [eexists; split; [|split; [vm_compute; reflexivity|done]]; set_solver|]).
  by apply elem_of_nil in Hn.
Qed.

Lemma sm_service_only n m : Labrpc.methods sm_service !! n = Some m → Labrpc.is_handler m = true.
Proof.
  unfold sm_service, Labrpc.MakeService. cbn. intros Hm.
  repeat (apply lookup_insert_Some in Hm as [[_ <-]|[_ Hm]]; [done|]). by rewrite lookup_empty in Hm.
Qed.
End service.

(** ** The clerks' loops are the oracle loop of ClerkNet.v *)

Definition query_accept (rep : Clerks.QueryReply) : option Clerks.Config :=
  if Clerks.q_WrongLeader rep then None else Some (Clerks.q_Config rep).

(** The calls of the shard master's clerk. *)
Lemma sm_clerk_loops {End : Type} (servers : list End) fuel :
  (∀ rpc num, Clerks.Query (λ r e _, rpc r e) fuel servers num =
     oracle_loop query_accept servers rpc fuel) ∧
  (∀ rpc groups, Clerks.Join (λ r e _, rpc r e) fuel servers groups =
     oracle_loop Clerks.ack servers rpc fuel) ∧
  (∀ rpc gids, Clerks.Leave (λ r e _, rpc r e) fuel servers gids =
     oracle_loop Clerks.ack servers rpc fuel) ∧
  (∀ rpc shard gid, Clerks.Move (λ r e _, rpc r e) fuel servers shard gid =
     oracle_loop Clerks.ack servers rpc fuel).
Proof. done. Qed.

#[local] Existing Instance KVRaft.eta_clerk.

(** kvraft's Get: a reply of the leader ends the call, and the clerk takes its
    identity from it if it has none. *)
Definition get_accept (ck : KVRaft.Clerk) (rep : KVRaft.GetReply) : option (KVRaft.Clerk * string) :=
  if negb (KVRaft.g_WrongLeader rep)
  then Some (if KVRaft.id ck =? 0 then ck <| KVRaft.id := KVRaft.g_ID rep |> else ck,
             KVRaft.g_Value rep)
  else None.

Lemma get_round_loop rpc key ck ss :
  KVRaft.get_round rpc key ck ss =
  Clerks.try_servers (λ i, rpc i (KVRaft.mkGArgs key (KVRaft.uuid (KVRaft.id ck) (KVRaft.cnt ck))))
    (get_accept ck) (λ _, false) ss.
Proof.
  induction ss as [|i ss IH]; [done|]. cbn. destruct (rpc i _) as [rep|]; [|done].
  unfold get_accept. by destruct (negb _).
Qed.

Lemma ClerkGet_loop rpc fuel ck key :
  KVRaft.ClerkGet rpc fuel 0 ck key =
  (λ '(ck', v), (ck' <| KVRaft.cnt := KVRaft.cnt ck' + 1 |>, v)) <$>
    oracle_loop (get_accept ck) (KVRaft.servers ck)
      (λ r i, rpc r i (KVRaft.mkGArgs key (KVRaft.uuid (KVRaft.id ck) (KVRaft.cnt ck)))) fuel.
Proof.
  unfold oracle_loop. generalize 0%nat as r. induction fuel as [|fuel IH]; intros r; [done|].
  cbn. rewrite get_round_loop. destruct (Clerks.try_servers _ _ _ _) as [[ck' v]|]; [done|apply IH].
Qed.

(** ** The shard master's clerk against its service *)

Section shardmaster.
Context {Name : Type} `{Countable Name} {W B : Type}.
Context (Encode : Msg → B) (Decode : B → option Msg).
Context (codec : ∀ v, Decode (Encode v) = Some v).
Context (rs : @Labrpc.Server W Msg).
Context (registered : Labrpc.services rs !! "ShardMaster" = Some sm_service).

(** Whatever the number asked for, the exercise's Query answers, with a reply the
    clerk takes. *)
Lemma sm_query_serves num :
  serves (Name:=Name) Encode Decode MNone as_query_reply "ShardMaster.Query"
    (MQuery (Clerks.mkQueryArgs num)) rs ∧
  serves_well (Name:=Name) Encode Decode MNone as_query_reply query_accept "ShardMaster.Query"
    (MQuery (Clerks.mkQueryArgs num)) (λ _, True) rs.
Proof.
  set (m := handler (W:=W) "Query" (λ v, MQueryReply (Services.sm_Query (query_of v)))).
  assert (Hm : Labrpc.methods sm_service !! Labrpc.mname m = Some m) by done.
  assert (Hdot : ∀ c, c ∈ chars (Labrpc.mname m) → c ≠ "."%char).
  { intros c Hc. repeat (apply elem_of_cons in Hc as [->|Hc]; [done|]). by apply elem_of_nil in Hc. }
  split.
  - refine (method_serves _ _ _ _ _ codec rs sm_service m Hdot registered Hm _). by eexists.
  - refine (method_serves_well _ _ _ _ _ _ codec rs sm_service m Hdot registered Hm _ _).
    by eexists _, _.
Qed.
End shardmaster.

(** The clerk's Query ends: as soon as one of its end points is linked to a
    server with the shard master's service, in any state of the clerk, the network
    and its own requests, the clerk can go on to return. *)
Lemma Query_can_return {Name} `{Countable Name} {W B} (Encode : Msg → B) Decode
    (servers : list Name) num e0 sn0 srv0 (w : W) n s :
  let Q := MQuery (Clerks.mkQueryArgs num) in
  e0 ∈ servers →
  Steps Encode Decode MNone as_query_reply query_accept servers "ShardMaster.Query" Q
    (proper Encode Decode MNone as_query_reply "ShardMaster.Query" Q)
    (start servers w) n s →
  link Encode Decode MNone as_query_reply query_accept "ShardMaster.Query" Q (λ _, True) e0 sn0 srv0
    (netw s) →
  ∃ n' s' c, Steps Encode Decode MNone as_query_reply query_accept servers "ShardMaster.Query" Q
    (calm Encode Decode MNone as_query_reply "ShardMaster.Query" Q (λ _, True) e0 sn0) s n' s' ∧
    loop s' = Done c.
Proof.
  intros Q He0 Hs HL. eapply clerk_can_return; [done|done| |done].
  eapply steps_ok; [|apply start_ok|exact Hs]. done.
Qed.

(** ** An execution

    One server with the service, under the name 1; the clerk's end points are 8,
    which is not connected, and 7, which is. *)
Module Example.

Definition Q : Msg := MQuery (Clerks.mkQueryArgs (-1)).
Definition ends : list Z := [8; 7].
Definition server : @Labrpc.Server unit Msg := Labrpc.AddService Labrpc.MakeServer sm_service.

#[local] Notation Ev := (@Labrpc.Event Z unit Msg Msg).
#[local] Notation Net := (@Labrpc.State Z _ _ unit Msg Msg).
#[local] Notation S := (@Sys Z _ _ unit Msg Msg Clerks.QueryReply Clerks.Config).
#[local] Notation CEv := (@CEvent Z unit Msg Msg).
#[local] Notation run := (ClerkNet.run (Name:=Z) (W:=unit) (B:=Msg) id Some MNone as_query_reply
  query_accept ends "ShardMaster.Query" Q).
#[local] Notation step := (ClerkNet.step (Name:=Z) (W:=unit) (B:=Msg) id Some MNone as_query_reply
  query_accept ends "ShardMaster.Query" Q).
#[local] Notation Steps := (ClerkNet.Steps (Name:=Z) (W:=unit) (B:=Msg) id Some MNone as_query_reply
  query_accept ends "ShardMaster.Query" Q).
#[local] Notation proper := (ClerkNet.proper (Name:=Z) (W:=unit) (B:=Msg) id Some MNone
  as_query_reply "ShardMaster.Query" Q).
#[local] Notation calm := (ClerkNet.calm (Name:=Z) (W:=unit) (B:=Msg) id Some MNone
  as_query_reply "ShardMaster.Query" Q (λ _, True) 7 1).

Definition begin : S := start ends tt.

(** The server is started and registered; then the end points are made, and the
    clerk calls the one that leads nowhere. *)
Definition creation : list CEv :=
  [ENet (Labrpc.NNewServer server); ENet (Labrpc.NAdmin (Labrpc.OpAddServer 1 0))].
Definition first_call : list CEv :=
  ENet <$> [Labrpc.NAdmin (Labrpc.OpMakeEnd 8); Labrpc.NAdmin (Labrpc.OpMakeEnd 7);
            Labrpc.NAdmin (Labrpc.OpConnect 7 1); Labrpc.NAdmin (Labrpc.OpEnable 7 true)].
Definition until_refused : list CEv := first_call ++ [ECall; ENet (Labrpc.NRead 0)].

(** The failure comes back, the other end point is called, the handler runs. *)
Definition second_call : list CEv :=
  [ENet (Labrpc.NRelease 0); EReturn; ECall; ENet (Labrpc.NRead 1);
   ENet (Labrpc.NAccept 1 0); ENet (Labrpc.NTimer 1); ENet (Labrpc.NHandle 1);
   ENet (Labrpc.NReceive 1); ENet (Labrpc.NFinish 1 0 0)].

Definition created : S := default begin (run begin creation).
Definition refused : S := default begin (run created until_refused).
Definition handled : S := default begin (run refused second_call).
Definition answered : S := default begin (run refused (second_call ++ [EReturn])).

Lemma run_steps P es : ∀ s s' k s0,
  run s es = Some s' → (∀ ev s1, ev ∈ es → P s1 ev) → Steps P s0 k s → ∃ n, Steps P s0 n s'.
Proof.
  induction es as [|ev es IH]; intros s s' k s0 Hrun HP Hs; cbn in Hrun.
  { injection Hrun as <-. by exists k. }
  destruct (step s ev) as [[s1| |]|] eqn:Hst; try done.
  eapply (IH s1); [done|intros ev' s2 ?; apply HP; by right|].
  eapply steps_step; [done| |done]. apply HP. by left.
Qed.

Lemma server_serves :
  ClerkNet.serves (Name:=Z) (W:=unit) (B:=Msg) id Some MNone as_query_reply "ShardMaster.Query" Q server.
Proof. by apply (sm_query_serves id Some (λ _, eq_refl) server). Qed.

Lemma proper_refused : ∃ n, Steps proper begin n refused.
Proof.
  eapply (run_steps proper until_refused created);
    [vm_compute; reflexivity| |].
  - intros ev s1 Hin. repeat (apply elem_of_cons in Hin as [->|Hin]; [done|]). by apply elem_of_nil in Hin.
  - eapply steps_step with (s1 := default begin (run begin (take 1 creation)))
      (ev := ENet (Labrpc.NAdmin (Labrpc.OpAddServer 1 0))).
    + eapply steps_step with (s1 := begin) (ev := ENet (Labrpc.NNewServer server));
        [constructor|exact server_serves|vm_compute; reflexivity].
    + apply Nat.ltb_lt. vm_compute. reflexivity.
    + vm_compute. reflexivity.
Qed.

Lemma linked (s : S) :
  Labrpc.net (netw s) = Labrpc.net (netw refused) →
  Labrpc.heap (netw s) = Labrpc.heap (netw refused) →
  ClerkNet.link (Name:=Z) (W:=unit) (B:=Msg) id Some MNone as_query_reply query_accept
    "ShardMaster.Query" Q (λ _, True) 7 1 0 (netw s).
Proof.
  intros En Eh. constructor; rewrite ?En, ?Eh; try (vm_compute; reflexivity).
  exists server. split; [vm_compute; reflexivity|].
  by apply (sm_query_serves id Some (λ _, eq_refl) server).
Qed.

(** The clerk, refused at the first end point, is about to get the answer of the
    second. *)
Lemma clerk_returns_witness :
  ∃ n, (n ≤ 49)%nat ∧ ((∃ a, loop handled = Done a) ∨
    ∃ ev s, ClerkNet.own handled ev = true ∧ step handled ev = Some (Ok s)).
Proof.
  destruct proper_refused as [n0 H0].
  assert (Hc : ∃ n, Steps calm refused n handled).
  { eapply (run_steps calm second_call refused); [vm_compute; reflexivity| |constructor].
    intros ev s1 Hin. repeat (apply elem_of_cons in Hin as [->|Hin]; [done|]). by apply elem_of_nil in Hin. }
  destruct Hc as [n Hc]. exists n.
  apply (clerk_returns id Some MNone as_query_reply query_accept ends "ShardMaster.Query" Q
           (λ _, True) 7 1 0 tt n0 refused n handled);
    [right; left|exact H0|by apply linked|exact Hc].
Defined.

(** The empty configuration that the clerk returns was computed by the server. *)
Lemma clerk_refines_loop_witness :
  ∃ rpc fuel, Clerks.Query (λ r e _, rpc r e) fuel ends (-1) = Some Services.empty_config ∧
    ∀ r e rp, rpc r e = Some rp →
      ClerkNet.Answered (Name:=Z) (W:=unit) (B:=Msg) id Some MNone as_query_reply query_accept ends
        "ShardMaster.Query" Q begin (creation ++ until_refused ++ second_call ++ [EReturn]) e rp.
Proof.
  apply (clerk_refines_loop id Some MNone as_query_reply query_accept ends "ShardMaster.Query" Q
           begin _ answered Services.empty_config).
  - apply (bool_decide_unpack (NoDup ends)). vm_compute. exact I.
  - by split.
  - vm_compute. reflexivity.
  - vm_compute. reflexivity.
Defined.
End Example.
End ClerkNetProps.
