(* ===== verification/Random.v ===== *)
(** * Random: the random names and the shuffled handles of the test configurations

    Models [randstring] and [random_handles], of which the configurations of raft,
    kvraft, shardmaster and shardkv have copies.  The URL alphabet of
    encoding/base64 and its padding are written out as the standard library
    documents them; the bytes of crypto/rand and the numbers of math/rand are
    arguments. *)
From Stdlib Require Import Ascii.
From S2P Require Import Prelude.

Module Random.

(** ** Base64, groups of three bytes as four characters *)

Definition alphabet : list ascii :=
  chars "ABCDEFGHIJKLMNOPQRSTUVWXYZabcdefghijklmnopqrstuvwxyz0123456789-_".
Definition pad : ascii := "="%char.
Definition sextet (d : Z) : ascii := default pad (alphabet !! Z.to_nat d).

Fixpoint EncodeToString (b : list Z) : list ascii :=
  match b with
  | [] => []
  | [x] => [sextet (Z.shiftr x 2); sextet (Z.land (Z.shiftl x 4) 63); pad; pad]
  | [x; y] => [sextet (Z.shiftr x 2); sextet (Z.land (Z.lor (Z.shiftl x 4) (Z.shiftr y 4)) 63);
               sextet (Z.land (Z.shiftl y 2) 63); pad]
  | x :: y :: z :: b =>
      sextet (Z.shiftr x 2) :: sextet (Z.land (Z.lor (Z.shiftl x 4) (Z.shiftr y 4)) 63) ::
      sextet (Z.land (Z.lor (Z.shiftl y 2) (Z.shiftr z 6)) 63) :: sextet (Z.land z 63) ::
      EncodeToString b
  end.

(** [b]: the [2 * n] random bytes. *)
(*@ src/src/kvraft/config.go 15-20 randstring *)
Definition randstring (b : list Z) (n : Z) : res (list ascii) := slice_to (EncodeToString b) n.
(*@ src/src/raft/config.go 22-27 randstring *)
Definition raft_randstring := randstring.
(*@ src/src/shardmaster/config.go 15-20 randstring *)
Definition sm_randstring := randstring.
(*@ src/src/shardkv/config.go 17-22 randstring *)
Definition skv_randstring := randstring.

(** ** The shuffle *)

(** [rnd i] is the number [rand.Intn(i + 1)] returns. *)
(*@ src/src/kvraft/config.go 23-31 random_handles *)
Definition random_handles {A} (rnd : Z → Z) (kvh : list A) : res (list A) :=
  foldM (λ sa i, x ← slice_get sa (rnd i); y ← slice_get sa i;
                 sa ← slice_set sa i x; slice_set sa (rnd i) y)
    kvh (range 0 (len kvh)).

(*@ src/src/shardmaster/config.go 23-31 random_handles *)
Definition sm_random_handles {A} := @random_handles A.
(*@ src/src/shardkv/config.go 25-33 random_handles *)
Definition skv_random_handles {A} := @random_handles A.

(** Swapping two elements keeps the multiset. *)
Lemma swap_perm {A} (l : list A) i j x y :
  l !! i = Some x → l !! j = Some y → <[j := x]> (<[i := y]> l) ≡ₚ l.
Proof.
  intros Hi Hj. assert (Hli : (i < length l)%nat) by (by eapply lookup_lt_Some).
  assert (Hlj : (j < length l)%nat) by (by eapply lookup_lt_Some).
  apply Permutation_inj. split; [by rewrite !length_insert|].
  exists (λ k, if decide (k = i) then j else if decide (k = j) then i else k). split.
  - intros k k'. repeat case_decide; naive_solver.
  - intros k. destruct (decide (k = j)) as [->|Hkj].
    + rewrite list_lookup_insert_eq by (by rewrite length_insert). repeat case_decide; naive_solver.
    + rewrite list_lookup_insert_ne by done. destruct (decide (k = i)) as [->|Hki].
      * by rewrite list_lookup_insert_eq.
      * rewrite list_lookup_insert_ne by done. done.
Qed.

(** random_handles neither loses nor repeats a handle, and does not panic. *)
Lemma random_handles_perm {A} (rnd : Z → Z) (kvh : list A) :
  (∀ i, 0 ≤ i → 0 ≤ rnd i ≤ i) → ∃ sa, random_handles rnd kvh = Ok sa ∧ sa ≡ₚ kvh.
Proof.
  intros Hr. unfold random_handles.
  assert (Hg : ∀ ks sa, (∀ i, i ∈ ks → 0 ≤ i < len sa) →
    ∃ sa', foldM (λ (sa : list A) i, x ← slice_get sa (rnd i); y ← slice_get sa i;
                 sa ← slice_set sa i x; slice_set sa (rnd i) y) sa ks = Ok sa' ∧ sa' ≡ₚ sa).
  { induction ks as [|i ks IH]; intros sa Hks; [by exists sa|].
    destruct (Hks i) as [Hi0 Hi]; [by left|]. pose proof (Hr i Hi0) as Hri.
    destruct (slice_get_is_Ok sa (rnd i)) as [x Hx]; [lia|].
    destruct (slice_get_is_Ok sa i) as [y Hy]; [lia|].
    assert (Hs : slice_set sa i x = Ok (<[Z.to_nat i := x]> sa)).
    { unfold slice_set. by rewrite decide_True by lia. }
    assert (Hs2 : slice_set (<[Z.to_nat i := x]> sa) (rnd i) y =
                  Ok (<[Z.to_nat (rnd i) := y]> (<[Z.to_nat i := x]> sa))).
    { unfold slice_set, len. rewrite length_insert. rewrite decide_True; [done|]. unfold len in *. lia. }
    apply slice_get_Ok in Hx as [_ Hx]. apply slice_get_Ok in Hy as [_ Hy].
    pose proof (swap_perm sa _ _ _ _ Hy Hx) as Hp.
    destruct (IH (<[Z.to_nat (rnd i) := y]> (<[Z.to_nat i := x]> sa))) as (sa' & Hf & Hp').
    { intros k Hk. unfold len. rewrite !length_insert. apply Hks. by right. }
    exists sa'. split; [|by rewrite Hp', Hp]. cbn.
    assert (slice_get sa (rnd i) = Ok x) as -> by (apply slice_get_Ok; split; [lia|done]).
    assert (slice_get sa i = Ok y) as -> by (apply slice_get_Ok; split; [lia|done]).
    cbn. rewrite Hs. cbn. by rewrite Hs2. }
  apply Hg. intros i Hi%elem_of_range. done.
Qed.
(** ** The names *)

Definition bytes (b : list Z) : Prop := Forall (λ x, 0 ≤ x < 256) b.

Lemma lor_shiftl x a n : 0 ≤ n → 0 ≤ a < 2 ^ n → Z.lor (Z.shiftl x n) a = x * 2 ^ n + a.
Proof.
  intros Hn Ha. rewrite <- (Z.shiftl_mul_pow2 x n) by done. rewrite <- Z.add_lor_land.
  assert (Z.land (Z.shiftl x n) a = 0) as ->; [|lia].
  apply Z.bits_inj'. intros i Hi. rewrite Z.land_spec, Z.bits_0, Z.shiftl_spec by done.
  destruct (Z.lt_ge_cases i n); [by rewrite Z.testbit_neg_r by lia|].
  rewrite <- (Z.mod_small a (2 ^ n)) by done. by rewrite Z.mod_pow2_bits_high, andb_false_r by lia.
Qed.

Lemma land_63 x : Z.land x 63 = x `mod` 64.
Proof. exact (Z.land_ones x 6 ltac:(lia)). Qed.

Lemma NoDup_alphabet : NoDup alphabet.
Proof. apply (bool_decide_unpack _). vm_compute. exact I. Qed.

Lemma sextet_inj d e : 0 ≤ d < 64 → 0 ≤ e < 64 → sextet d = sextet e → d = e.
Proof.
  unfold sextet. intros Hd He Heq.
  assert (Hl : length alphabet = 64%nat) by reflexivity.
  destruct (lookup_lt_is_Some_2 alphabet (Z.to_nat d)) as [c Hc]; [lia|].
  destruct (lookup_lt_is_Some_2 alphabet (Z.to_nat e)) as [c' Hc']; [lia|].
  rewrite Hc, Hc' in Heq. cbn in Heq. subst c'.
  pose proof (NoDup_lookup _ _ _ _ NoDup_alphabet Hc Hc'). lia.
Qed.

(** Four characters determine three bytes. *)
Lemma group_inj x y z x' y' z' :
  0 ≤ x < 256 → 0 ≤ y < 256 → 0 ≤ z < 256 → 0 ≤ x' < 256 → 0 ≤ y' < 256 → 0 ≤ z' < 256 →
  sextet (Z.shiftr x 2) = sextet (Z.shiftr x' 2) →
  sextet (Z.land (Z.lor (Z.shiftl x 4) (Z.shiftr y 4)) 63) =
    sextet (Z.land (Z.lor (Z.shiftl x' 4) (Z.shiftr y' 4)) 63) →
  sextet (Z.land (Z.lor (Z.shiftl y 2) (Z.shiftr z 6)) 63) =
    sextet (Z.land (Z.lor (Z.shiftl y' 2) (Z.shiftr z' 6)) 63) →
  sextet (Z.land z 63) = sextet (Z.land z' 63) →
  x = x' ∧ y = y' ∧ z = z'.
Proof.
  intros ? ? ? ? ? ?. rewrite !land_63, !Z.shiftr_div_pow2 by lia.
  rewrite !lor_shiftl by first [lia|split; [apply Z.div_pos|apply Z.div_lt_upper_bound]; lia].
  change (2 ^ 2) with 4. change (2 ^ 4) with 16. change (2 ^ 6) with 64. intros.
  repeat match goal with H : sextet ?a = sextet ?b |- _ =>
    apply sextet_inj in H; [|Z.to_euclidean_division_equations; lia..] end.
  Z.to_euclidean_division_equations. lia.
Qed.

(** The first [4 k] characters are those of the first [3 k] bytes, and determine
    them. *)
Lemma Encode_take k b :
  (3 * k ≤ length b)%nat → take (4 * k) (EncodeToString b) = EncodeToString (take (3 * k) b) ∧
  length (EncodeToString (take (3 * k) b)) = (4 * k)%nat.
Proof.
  revert b. induction k as [|k IH]; intros b Hk; [done|].
  destruct b as [|x [|y [|z b]]]; try (cbn in Hk; lia). cbn [length] in Hk.
  destruct (IH b) as [H1 H2]; [lia|].
  replace (4 * S k)%nat with (S (S (S (S (4 * k))))) by lia.
  replace (3 * S k)%nat with (S (S (S (3 * k)))) by lia.
  cbn [take EncodeToString length]. by rewrite H1, H2.
Qed.

Lemma Encode_inj k b b' :
  length b = (3 * k)%nat → length b' = (3 * k)%nat → bytes b → bytes b' →
  EncodeToString b = EncodeToString b' → b = b'.
Proof.
  revert b b'. induction k as [|k IH]; intros b b' Hb Hb' HB HB' Heq.
  { by apply nil_length_inv in Hb as ->, Hb' as ->. }
  destruct b as [|x [|y [|z b]]], b' as [|x' [|y' [|z' b']]]; cbn [length] in Hb, Hb'; try lia.
  unfold bytes in *. rewrite !Forall_cons in HB, HB'. destruct HB as (?&?&?&?), HB' as (?&?&?&?).
  cbn [EncodeToString] in Heq. injection Heq as E1 E2 E3 E4 E5.
  destruct (group_inj x y z x' y' z') as (-> & -> & ->); try done.
  do 3 f_equal. apply IH; [lia|lia|done..].
Qed.

(** randstring does not panic, a name of [4 k] characters is made from [8 k] random
    bytes, and two names are equal exactly when the first [3 k] bytes were. *)
Theorem randstring_unique k b b' :
  length b = (8 * k)%nat → length b' = (8 * k)%nat → bytes b → bytes b' →
  ∃ s s', randstring b (4 * Z.of_nat k) = Ok s ∧ randstring b' (4 * Z.of_nat k) = Ok s' ∧
    length s = (4 * k)%nat ∧ (s = s' ↔ take (3 * k) b = take (3 * k) b').
Proof.
  intros Hl Hl' HB HB'.
  assert (Hr : ∀ c, length c = (8 * k)%nat → randstring c (4 * Z.of_nat k) =
    Ok (EncodeToString (take (3 * k) c)) ∧ length (EncodeToString (take (3 * k) c)) = (4 * k)%nat).
  { intros c Hc. destruct (Encode_take k c) as [Ht Hn]; [lia|]. split; [|done].
    unfold randstring, slice_to. rewrite decide_True.
    - by replace (Z.to_nat (4 * Z.of_nat k)) with (4 * k)%nat by lia; rewrite Ht.
    - rewrite <- Ht, length_take in Hn. unfold len. lia. }
  destruct (Hr b Hl) as [H1 Hn], (Hr b' Hl') as [H2 _].
  eexists _, _. split; [done|]. split; [done|]. split; [done|]. split; [|by intros ->].
  apply (Encode_inj k); [rewrite length_take; lia..| |]; by apply Forall_take.
Qed.

(** The names the configurations draw have 20 characters: they are equal exactly
    when the first 15 of the 40 bytes are. *)
Corollary randstring_20 b b' :
  length b = 40%nat → length b' = 40%nat → bytes b → bytes b' →
  ∃ s s', randstring b 20 = Ok s ∧ randstring b' 20 = Ok s' ∧ length s = 20%nat ∧
    (s = s' ↔ take 15 b = take 15 b').
Proof. exact (randstring_unique 5 b b'). Qed.

(** ** Large random numbers

    [rand.Int(rand.Reader, max)] is a number of [0..max-1], drawn by [draw]. *)
Definition Int64 (x : Z) : Z := int64 x.

(*@ src/src/kvraft/client.go 20-25 nrand *)
Definition nrand (draw : Z → Z) : Z :=
  let max := Z.shiftl (int64 1) 62 in
  let bigx := draw max in
  Int64 bigx.
(*@ src/src/kvpaxos/client.go 14-19 nrand *)
Definition kvpaxos_nrand := nrand.
(*@ src/src/pbservice/client.go 17-22 nrand *)
Definition pb_nrand := nrand.
(*@ src/src/shardmaster/client.go 17-22 nrand *)
Definition sm_nrand := nrand.
(*@ src/src/shardkv/client.go 31-36 nrand *)
Definition skv_nrand := nrand.
(*@ src/src/paxos-shardkv/client.go 18-23 nrand *)
Definition pskv_nrand := nrand.
(*@ src/src/diskv/client.go 18-23 nrand *)
Definition dkv_nrand := nrand.

(** The bound fits into 64 bits, so the number drawn is the number returned. *)
Lemma nrand_range draw :
  (∀ max, 0 < max → 0 ≤ draw max < max) →
  0 ≤ nrand draw < 2 ^ 62 ∧ nrand draw = draw (2 ^ 62).
Proof.
  intros Hd. unfold nrand, Int64. change (Z.shiftl (int64 1) 62) with (2 ^ 62).
  specialize (Hd (2 ^ 62)). rewrite int64_id; [|unfold MinInt64, MaxInt64]; lia.
Qed.
End Random.
