(* ===== verification/Misc.v ===== *)
(** * Misc: the arithmetic service and the clock client

    Models src/src/rpc/server/server.go and the computation of
    src/src/newnius.com/client/client.go, with Go's 64-bit integers. *)
From S2P Require Import Prelude.

Module Arith.

(*@ src/src/rpc/server/server.go 11-13 Args *)
Record Args := mkArgs { A : Z; B : Z }.
(*@ src/src/rpc/server/server.go 15-17 Quotient *)
Record Quotient := mkQuotient { Quo : Z; Rem : Z }.

(*@ src/src/rpc/server/server.go 21-24 Arith.Multiply *)
Definition Multiply (args : Args) : Z := int64 (A args * B args).

(** [None] is the error; Go truncates towards zero, and the one quotient that
    does not fit wraps around. *)
(*@ src/src/rpc/server/server.go 26-33 Arith.Divide *)
Definition Divide (args : Args) : option Quotient :=
  if B args =? 0 then None
  else Some (mkQuotient (int64 (Z.quot (A args) (B args))) (int64 (Z.rem (A args) (B args)))).

(** Up to wrap-around the quotient and the remainder give back the dividend, and
    the remainder is smaller than the divisor. *)
Lemma Divide_spec a b q :
  MinInt64 ≤ a ≤ MaxInt64 → MinInt64 ≤ b ≤ MaxInt64 →
  Divide (mkArgs a b) = Some q →
  b ≠ 0 ∧ int64 (Quo q * b + Rem q) = a ∧ Z.abs (Rem q) < Z.abs b.
Proof.
  intros Ha Hb. unfold Divide. cbn. destruct (Z.eqb_spec b 0) as [|Hne]; [done|].
  intros [= <-]. cbn. split; [done|].
  pose proof (Z.rem_bound_abs a b Hne) as Hr.
  assert (Hrem : int64 (Z.rem a b) = Z.rem a b).
  { apply int64_id. unfold MinInt64, MaxInt64 in *. pose proof (Z.rem_sign_mul a b Hne). nia. }
  rewrite Hrem. split; [|done]. pose proof (Z.quot_rem a b Hne) as Hqr.
  unfold int64 at 1. rewrite Z.add_shuffle0.
  replace (int64 (Z.quot a b) * b + 2 ^ 63 + Z.rem a b)
    with (a + 2 ^ 63 + (- (((Z.quot a b) + 2 ^ 63) / 2 ^ 64)) * b * 2 ^ 64).
  - rewrite Z.mod_add by lia. apply int64_id. done.
  - unfold int64. pose proof (Z.div_mod (Z.quot a b + 2 ^ 63) (2 ^ 64)) as Hdm. nia.
Qed.

(** The client: [dial] is rpc.DialHTTP, [call] the Call of its client, which
    encodes the arguments and decodes the reply; the result is what is printed. *)
(*@ src/src/rpc/client/client.go 34-48 main *)
Definition client_main {C} (dial : string → string → option C)
    (call : C → string → Args → option Z) : res string :=
  let serverAddress := "127.0.0.1" in
  match dial "udp" (serverAddress +:+ ":1234") with
  | None => Fatal
  | Some client =>
      let args := mkArgs 7 8 in
      match call client "Arith.Multiply" args with
      | None => Fatal
      | Some reply =>
          mret ("Arith: " +:+ Itoa (A args) +:+ " * " +:+ Itoa (B args) +:+ " = " +:+ Itoa reply)
      end
  end.

(** If the service answers at all, the client prints the product. *)
Lemma client_prints {C} (dial : string → string → option C) call out :
  (∀ c args z, call c "Arith.Multiply"%string args = Some z → z = Multiply args) →
  client_main dial call = Ok out → out = "Arith: 7 * 8 = 56"%string.
Proof.
  intros Hc. unfold client_main. destruct (dial _ _) as [c|]; [|done].
  destruct (call c _ _) as [z|] eqn:E; [|done]. intros [= <-]. apply Hc in E as ->. done.
Qed.
End Arith.

Module Ntp.

(** One round of [sync]: the local clock before and after the call and the
    server's answer give the new correction. *)
(*@ src/src/newnius.com/client/client.go 49-62 sync (delay) *)
Definition delay (start now message : Z) : Z :=
  let m := Z.quot (int64 (now - start)) 2 in
  int64 (int64 (message - start) - m).

(*@ src/src/newnius.com/client/client.go 19-21 getTime *)
Definition getTime (now d : Z) : Z := int64 (now + d).

(*@ src/src/newnius.com/server/server.go 24-33 server.Query *)
Definition Query (now : Z) : Z := int64 (now + 100000000000).

(** If the server stamped its answer between the two readings, at local time
    [at'], and its clock is ahead by [off], the correction is wrong by at most
    half the duration of the call. *)
Lemma delay_error start now at' off :
  0 ≤ start ≤ at' → at' ≤ now → now < 2 ^ 62 → 0 ≤ off < 2 ^ 61 →
  Z.abs (delay start now (at' + off) - off) ≤ (now - start + 1) / 2.
Proof.
  intros H1 H2 H3 H4. unfold delay.
  assert (Hq : Z.quot (now - start) 2 = (now - start) / 2) by (apply Z.quot_div_nonneg; lia).
  pose proof (Z.div_mod (now - start) 2). pose proof (Z.mod_pos_bound (now - start) 2).
  pose proof (Z.div_mod (now - start + 1) 2). pose proof (Z.mod_pos_bound (now - start + 1) 2).
  rewrite (int64_id (now - start)) by (unfold MinInt64, MaxInt64; lia).
  rewrite Hq, (int64_id (at' + off - start)) by (unfold MinInt64, MaxInt64; lia).
  rewrite int64_id by (unfold MinInt64, MaxInt64; lia). lia.
Qed.

(** ** The two goroutines of the client

    [delay] is a global variable that sync writes and tick reads. *)
Inductive ClockEvent :=
| Sync (start now : Z) (answer : option Z)
| Tick (now : Z).

(** One round of the loop of sync; a failed query leaves the correction. *)
(*@ src/src/newnius.com/client/client.go 46-68 sync (loop) *)
Definition sync_round (d start now : Z) (answer : option Z) : Z :=
  match answer with
  | None => d
  | Some message => delay start now message
  end.

(** The certificate, then the connection; both failures end the process. *)
(*@ src/src/newnius.com/client/client.go 32-42 sync (connect) *)
Definition sync_connect (creds dial : bool) : res unit :=
  if creds then if dial then mret tt else Fatal else Fatal.

(** Month and day of a day counted from 1970-01-01, in the Gregorian calendar. *)
Definition civil (days : Z) : Z * Z :=
  let z := days + 719468 in
  let doe := z `mod` 146097 in
  let yoe := (doe - doe / 1460 + doe / 36524 - doe / 146096) / 365 in
  let doy := doe - (365 * yoe + yoe / 4 - yoe / 100) in
  let mp := (5 * doy + 2) / 153 in
  (if mp <? 10 then mp + 3 else mp - 9, doy - (153 * mp + 2) / 5 + 1).

(** [%02d] of a number that is not negative. *)
Definition two_digits (z : Z) : string := if z <? 10 then "0" +:+ Itoa z else Itoa z.

(** The line tick prints for an instant in nanoseconds, [zone] seconds east of
    Greenwich. *)
(*@ src/src/newnius.com/client/client.go 25-26 tick (line) *)
Definition tick_line (zone t : Z) : string :=
  let s := t / 1000000000 + zone in
  let '(month, day) := civil (s / 86400) in
  let tod := s `mod` 86400 in
  "Current: " +:+ Itoa month +:+ "/" +:+ Itoa day +:+ " " +:+ two_digits (tod / 3600) +:+ ":" +:+
  two_digits ((tod / 60) `mod` 60) +:+ ":" +:+ two_digits (tod `mod` 60).

Example tick_line_epoch : tick_line 0 0 = "Current: 1/1 00:00:00"%string.
Proof. vm_compute. reflexivity. Qed.
Example tick_line_leap_day : tick_line 0 1709210096000000000 = "Current: 2/29 12:34:56"%string.
Proof. vm_compute. reflexivity. Qed.

(** The new correction and what is shown. *)
(*@ src/src/newnius.com/client/client.go 23-29 tick *)
Definition clock_step (zone : Z) (st : Z * list string) (e : ClockEvent) : Z * list string :=
  let '(d, out) := st in
  match e with
  | Sync start now answer => (sync_round d start now answer, out)
  | Tick now => (d, out ++ [tick_line zone (getTime now d)])
  end.

(** The goroutines interleave freely once sync has connected; until then, and when
    it cannot, only tick runs, or the process ends. *)
(*@ src/src/newnius.com/client/client.go 71-74 main *)
Definition clock_client_main (creds dial : bool) (zone : Z) (es : list ClockEvent) :
    res (Z * list string) :=
  _ ← sync_connect creds dial; mret (foldl (clock_step zone) (0, []) es).

(*@ src/src/newnius.com/server/server.go 35-54 main *)
Definition clock_server_main (creds listen : bool) : res unit :=
  if creds then if listen then mret tt else Fatal else Fatal.

Definition is_sync (e : ClockEvent) : bool :=
  match e with Sync _ _ (Some _) => true | _ => false end.

(** The correction is that of the last query that was answered: failed queries
    and ticks in between do not change it. *)
Lemma clock_keeps_delay zone es st :
  forallb (negb ∘ is_sync) es = true → fst (foldl (clock_step zone) st es) = fst st.
Proof.
  revert st. induction es as [|e es IH]; intros [d out] He; [done|]. cbn in He.
  apply andb_true_iff in He as [He Hes]. cbn [foldl]. rewrite IH by done.
  by destruct e as [? ? []|].
Qed.

(** So a clock [off] ahead, asked once between two readings of the local clock, is
    shown to within half the duration of that query, however many queries fail
    afterwards. *)
Lemma clock_shows zone es1 es2 start now at' off t :
  0 ≤ start ≤ at' → at' ≤ now → now < 2 ^ 62 → 0 ≤ off < 2 ^ 61 → 0 ≤ t < 2 ^ 62 →
  forallb (negb ∘ is_sync) es2 = true →
  let d := fst (foldl (clock_step zone) (0, []) (es1 ++ Sync start now (Some (at' + off)) :: es2)) in
  Z.abs (getTime t d - (t + off)) ≤ (now - start + 1) / 2.
Proof.
  intros H1 H2 H3 H4 H5 He. cbn zeta. rewrite foldl_app. cbn [foldl]. rewrite clock_keeps_delay by done.
  unfold clock_step at 1. destruct (foldl _ _ es1) as [d0 out]. cbn [fst sync_round].
  pose proof (delay_error start now at' off H1 H2 H3 H4) as Hd. unfold getTime.
  assert ((now - start + 1) / 2 ≤ 2 ^ 61) by (apply Z.div_le_upper_bound; lia).
  rewrite int64_id; [lia|]. unfold MinInt64, MaxInt64. lia.
Qed.
End Ntp.

Module Debugging.

(** The debug functions: what is printed and the results; [line] is the formatted
    line. *)
Section debugging.
Context (Debug : Z).

Definition printf (line : string) (out : list string) : list string * (Z * bool) :=
  (if 0 <? Debug then out ++ [line] else out, (0, true)).
End debugging.

(*@ src/src/raft/util.go 5-13 DPrintf *)
Definition raft_DPrintf := printf 0.
(*@ src/src/kvraft/server.go 13-20 DPrintf *)
Definition kvraft_DPrintf := printf 1.
(*@ src/src/kvpaxos/server.go 16-23 DPrintf *)
Definition kvpaxos_DPrintf := printf 0.
(*@ src/src/paxos-shardkv/server.go 18-25 DPrintf *)
Definition pskv_DPrintf := printf 0.
(*@ src/src/diskv/server.go 21-28 DPrintf *)
Definition dkv_DPrintf := printf 0.
(** [debugEnabled] is false; fmt.Printf would return the number of bytes. *)
(*@ src/src/mapreduce/common.go 9-17 debug *)
Definition mapreduce_debug (line : string) (out : list string) : list string * (Z * bool) :=
  let debugEnabled := false in
  if debugEnabled then (out ++ [line], (Z.of_nat (String.length line), true)) else (out, (0, true)).

(** Only the kvraft server prints. *)
Lemma debugging_is_off line out :
  raft_DPrintf line out = (out, (0, true)) ∧ kvpaxos_DPrintf line out = (out, (0, true)) ∧
  pskv_DPrintf line out = (out, (0, true)) ∧ dkv_DPrintf line out = (out, (0, true)) ∧
  mapreduce_debug line out = (out, (0, true)) ∧
  kvraft_DPrintf line out = (out ++ [line], (0, true)).
Proof. done. Qed.
End Debugging.
