(* ===== verification/Harness.v ===== *)
(** * Harness: the test configurations that drive the clusters

    Models the configuration objects of src/src/raft/config.go and
    src/src/kvraft/config.go (src/src/shardmaster/config.go is a copy of the
    latter for another server type): which end points of the simulated network
    are enabled, how servers are crashed and restarted around their persisters,
    and how the tests partition a cluster.  The network is that of Labrpc.v;
    servers are named by numbers, end points by random strings, which are
    supplied as arguments. *)
From S2P Require Import Prelude Persister Labrpc Raft.
Export Labrpc.

Module Harness.

Notation Name := (Z + string)%type.
Notation Net := (@Network Name _ _).

(** [endnames[i][j]]: a row is nil until its server has been started. *)
Definition Rows : Type := list (option (list string)).

Definition endname_at (rows : Rows) (i j : Z) : res string :=
  row ← slice_get rows i;
  match row with Some r => slice_get r j | None => Panic end.

Definition enable_at (rows : Rows) (b : bool) (net : Net) (ij : Z * Z) : res Net :=
  e ← endname_at rows ij.1 ij.2;
  mret (Enable net (inr e) b).

(** A fresh end point from server [i] to each server. *)
Fixpoint make_ends (net : Net) (j : Z) (names : list string) : res Net :=
  match names with
  | [] => mret net
  | e :: names =>
      net ← MakeEnd net (inr e);
      make_ends (Connect net (inr e) (inl j)) (j + 1) names
  end.

Section kv_config.
(** The type of the stored bytes, and of the servers. *)
Context {B Srv : Type}.

(*@ src/src/kvraft/config.go 33-45 config *)
Record config := mkConfig {
  net : Net;
  n : Z;
  kvservers : list (option Srv);
  saved : list (option (Persister B));
  endnames : Rows;
  clerks : gmap Z (list string);     (* by clerk pointer *)
  nextClientId : Z;
}.
#[export] Instance eta_config : Eta config := λ c,
  mkConfig (net c) (n c) (kvservers c) (saved c) (endnames c) (clerks c) (nextClientId c).

(*@ src/src/kvraft/config.go 121-127 config.All *)
Definition All (cfg : config) : list Z := range 0 (n cfg).

(*@ src/src/kvraft/config.go 71-85 config.connectUnlocked *)
Definition connectUnlocked (cfg : config) (i : Z) (to : list Z) : res config :=
  nt ← foldM (enable_at (endnames cfg) true) (net cfg) ((λ t, (i, t)) <$> to);
  nt ← foldM (enable_at (endnames cfg) true) nt ((λ t, (t, i)) <$> to);
  mret (cfg <| net := nt |>).

(** Outgoing: the row of [i] is tested, once per element. *)
(*@ src/src/kvraft/config.go 98-104 config.disconnectUnlocked (outgoing) *)
Definition disconnect_out (rows : Rows) (i : Z) (net : Net) (x : Z) : res Net :=
  row ← slice_get rows i;
  match row with
  | Some r => e ← slice_get r x; mret (Enable net (inr e) false)
  | None => mret net
  end.

(** Incoming: the row tested is that of the loop counter [j], the row used that
    of [from[j]]. *)
(*@ src/src/kvraft/config.go 106-112 config.disconnectUnlocked (incoming) *)
Definition disconnect_in (rows : Rows) (i : Z) (net : Net) (jx : Z * Z) : res Net :=
  row ← slice_get rows jx.1;
  match row with
  | Some _ => enable_at rows false net (jx.2, i)
  | None => mret net
  end.

(*@ src/src/kvraft/config.go 95-113 config.disconnectUnlocked *)
Definition disconnectUnlocked (cfg : config) (i : Z) (from : list Z) : res config :=
  nt ← foldM (disconnect_out (endnames cfg) i) (net cfg) from;
  nt ← foldM (disconnect_in (endnames cfg) i) nt (imap (λ j x, (Z.of_nat j, x)) from);
  mret (cfg <| net := nt |>).

(** With the mutex. *)
(*@ src/src/kvraft/config.go 87-91 config.connect *)
Definition kv_connect := connectUnlocked.
(*@ src/src/kvraft/config.go 115-119 config.disconnect *)
Definition kv_disconnect := disconnectUnlocked.

(*@ src/src/kvraft/config.go 129-135 config.ConnectAll *)
Definition ConnectAll (cfg : config) : res config :=
  foldM (λ cfg i, connectUnlocked cfg i (All cfg)) cfg (range 0 (n cfg)).

(*@ src/src/kvraft/config.go 142-145 config.partition (loop) *)
Definition isolate (mine other : list Z) (cfg : config) (x : Z) : res config :=
  cfg ← disconnectUnlocked cfg x other;
  connectUnlocked cfg x mine.

(*@ src/src/kvraft/config.go 138-150 config.partition *)
Definition partition (cfg : config) (p1 p2 : list Z) : res config :=
  cfg ← foldM (isolate p1 p2) cfg p1;
  foldM (isolate p2 p1) cfg p2.

(** The clerks' end points. *)
(*@ src/src/kvraft/config.go 187-194 config.ConnectClientUnlocked *)
Definition ConnectClientUnlocked (cfg : config) (ck : Z) (to : list Z) : res config :=
  nt ← foldM (λ nt j, s ← slice_get (default [] (clerks cfg !! ck)) j;
                      mret (Enable nt (inr s) true)) (net cfg) to;
  mret (cfg <| net := nt |>).

(*@ src/src/kvraft/config.go 203-210 config.DisconnectClientUnlocked *)
Definition DisconnectClientUnlocked (cfg : config) (ck : Z) (from : list Z) : res config :=
  nt ← foldM (λ nt j, s ← slice_get (default [] (clerks cfg !! ck)) j;
                      mret (Enable nt (inr s) false)) (net cfg) from;
  mret (cfg <| net := nt |>).

(*@ src/src/kvraft/config.go 196-200 config.ConnectClient *)
Definition ConnectClient := ConnectClientUnlocked.
(*@ src/src/kvraft/config.go 212-216 config.DisconnectClient *)
Definition DisconnectClient := DisconnectClientUnlocked.

(** [ck] is the pointer of the new clerk, [names] the [n] random strings. *)
(*@ src/src/kvraft/config.go 155-173 config.makeClient *)
Definition makeClient (cfg : config) (ck : Z) (names : list string) (to : list Z) :
    res config :=
  nt ← make_ends (net cfg) 0 names;
  let cfg := cfg <| net := nt |> <| clerks := <[ck:=names]> (clerks cfg) |>
                 <| nextClientId := nextClientId cfg + 1 |> in
  ConnectClientUnlocked cfg ck to.

(*@ src/src/kvraft/config.go 175-184 config.deleteClient *)
Definition deleteClient (cfg : config) (ck : Z) : config :=
  cfg <| clerks := delete ck (clerks cfg) |>.

(** The old instance keeps its persister; the next one gets a copy. *)
(*@ src/src/kvraft/config.go 219-248 config.ShutdownServer *)
Definition ShutdownServer (cfg : config) (i : Z) : res config :=
  cfg ← disconnectUnlocked cfg i (All cfg);
  let cfg := cfg <| net := DeleteServer (net cfg) (inl i) |> in
  old ← slice_get (saved cfg) i;
  sv ← (match old with Some ps => slice_set (saved cfg) i (Some (Copy ps))
                     | None => mret (saved cfg) end);
  _ ← slice_get (kvservers cfg) i;
  ks ← slice_set (kvservers cfg) i None;
  mret (cfg <| saved := sv |> <| kvservers := ks |>).

(** [names]: the [n] random strings; [start ps] builds the server from the
    persister; [srv] is the pointer of the new labrpc server. *)
(*@ src/src/kvraft/config.go 251-287 config.StartServer *)
Definition StartServer (start : Persister B → Srv) (cfg : config) (i : Z)
    (names : list string) (srv : nat) : res config :=
  rows ← slice_set (endnames cfg) i (Some names);
  nt ← make_ends (net cfg) 0 names;
  old ← slice_get (saved cfg) i;
  let ps := match old with Some ps => Copy ps | None => MakePersister end in
  sv ← slice_set (saved cfg) i (Some ps);
  ks ← slice_set (kvservers cfg) i (Some (start ps));
  mret (cfg <| endnames := rows |> <| saved := sv |> <| kvservers := ks |>
            <| net := AddServer nt (inl i) srv |>).

(** The first server that says it leads; a nil server panics. *)
(*@ src/src/kvraft/config.go 289-300 config.Leader *)
Definition Leader (is_leader : Srv → bool) (cfg : config) : res (bool * Z) :=
  (fix go (js : list Z) : res (bool * Z) :=
     match js with
     | [] => mret (false, 0)
     | i :: js =>
         s ← slice_get (kvservers cfg) i;
         match s with
         | None => Panic
         | Some s => if is_leader s then mret (true, i) else go js
         end
     end) (range 0 (n cfg)).

(** Kill every server there is. *)
(*@ src/src/kvraft/config.go 47-55 config.cleanup *)
Definition kv_cleanup (kill : Srv → Srv) (cfg : config) : config :=
  cfg <| kvservers := option_map kill <$> kvservers cfg |>.

(*@ src/src/kvraft/config.go 58-67 config.LogSize *)
Definition LogSize (cfg : config) : res Z :=
  foldM (λ logsize i, ps ← slice_get (saved cfg) i;
                      match ps with
                      | None => Panic
                      | Some ps => mret (if logsize <? RaftStateSize ps
                                         then RaftStateSize ps else logsize)
                      end) 0 (range 0 (n cfg)).
End kv_config.
Arguments config : clear implicits.

(** A configuration of [nservers] servers, all connected; [names i] are the random
    strings of server [i], [start i] builds it. *)
(*@ src/src/kvraft/config.go 322-346 make_config *)
Definition make_config {B Srv} (nservers : Z) (unreliable : bool) (names : Z → list string)
    (start : Z → Persister B → Srv) : res (config B Srv) :=
  let none {A} : list (option A) := replicate (Z.to_nat nservers) None in
  let cfg := mkConfig MakeNetwork nservers none none none ∅ (nservers + 1000) in
  cfg ← foldM (λ cfg i, StartServer (start i) cfg i (names i) (Z.to_nat i)) cfg
          (range 0 nservers);
  cfg ← ConnectAll cfg;
  mret (cfg <| net := Reliable (net cfg) (negb unreliable) |>).

(** The configuration of the shard master's tests is the same program. *)
(*@ src/src/shardmaster/config.go 33-43 config *)
Definition sm_config : Type → Type → Type := config.
(*@ src/src/shardmaster/config.go 69-83 config.connectUnlocked *)
Definition sm_connectUnlocked {B Srv} := @connectUnlocked B Srv.
(*@ src/src/shardmaster/config.go 93-111 config.disconnectUnlocked *)
Definition sm_disconnectUnlocked {B Srv} := @disconnectUnlocked B Srv.
(*@ src/src/shardmaster/config.go 85-89 config.connect *)
Definition sm_connect {B Srv} := @kv_connect B Srv.
(*@ src/src/shardmaster/config.go 113-117 config.disconnect *)
Definition sm_disconnect {B Srv} := @kv_disconnect B Srv.
(*@ src/src/shardmaster/config.go 194-198 config.ConnectClient *)
Definition sm_ConnectClient {B Srv} := @ConnectClient B Srv.
(*@ src/src/shardmaster/config.go 210-214 config.DisconnectClient *)
Definition sm_DisconnectClient {B Srv} := @DisconnectClient B Srv.
(*@ src/src/shardmaster/config.go 127-133 config.ConnectAll *)
Definition sm_ConnectAll {B Srv} := @ConnectAll B Srv.
(*@ src/src/shardmaster/config.go 136-148 config.partition *)
Definition sm_partition {B Srv} := @partition B Srv.
(*@ src/src/shardmaster/config.go 153-171 config.makeClient *)
Definition sm_makeClient {B Srv} := @makeClient B Srv.
(*@ src/src/shardmaster/config.go 185-192 config.ConnectClientUnlocked *)
Definition sm_ConnectClientUnlocked {B Srv} := @ConnectClientUnlocked B Srv.
(*@ src/src/shardmaster/config.go 201-208 config.DisconnectClientUnlocked *)
Definition sm_DisconnectClientUnlocked {B Srv} := @DisconnectClientUnlocked B Srv.
(*@ src/src/shardmaster/config.go 217-246 config.ShutdownServer *)
Definition sm_ShutdownServer {B Srv} := @ShutdownServer B Srv.
(*@ src/src/shardmaster/config.go 249-286 config.StartServer *)
Definition sm_StartServer {B Srv} := @StartServer B Srv.

(*@ src/src/shardmaster/config.go 45-53 config.cleanup *)
Definition sm_cleanup {B Srv} := @kv_cleanup B Srv.
(*@ src/src/shardmaster/config.go 56-65 config.LogSize *)
Definition sm_LogSize {B Srv} := @LogSize B Srv.
(*@ src/src/shardmaster/config.go 119-125 config.All *)
Definition sm_All {B Srv} := @All B Srv.
(*@ src/src/shardmaster/config.go 173-182 config.deleteClient *)
Definition sm_deleteClient {B Srv} := @deleteClient B Srv.
(*@ src/src/shardmaster/config.go 288-299 config.Leader *)
Definition sm_Leader {B Srv} := @Leader B Srv.
(*@ src/src/shardmaster/config.go 321-343 make_config *)
Definition sm_make_config {B Srv} := @make_config B Srv.

(** ** Choosing the two sides of a partition *)

(** One turn of the loop: [l] is the leader, [j] counts the others. *)
(*@ src/src/kvraft/config.go 308-317 config.make_partition (loop) *)
Definition place (l : Z) (st : list Z * list Z * Z) (i : Z) : res (list Z * list Z * Z) :=
  let '(p1, p2, j) := st in
  if i =? l then mret (p1, p2, j)
  else if j <? len p1 then p1 ← slice_set p1 j i; mret (p1, p2, j + 1)
  else p2 ← slice_set p2 (j - len p1) i; mret (p1, p2, j + 1).

(*@ src/src/kvraft/config.go 303-320 config.make_partition *)
Definition make_partition (n l : Z) : res (list Z * list Z) :=
  let p1 := replicate (Z.to_nat (Z.quot n 2 + 1)) 0 in
  let p2 := replicate (Z.to_nat (Z.quot n 2)) 0 in
  '(p1, p2, _) ← foldM (place l) (p1, p2, 0) (range 0 n);
  p2 ← slice_set p2 (len p2 - 1) l;
  mret (p1, p2).

(*@ src/src/shardmaster/config.go 302-319 config.make_partition *)
Definition sm_make_partition := make_partition.

(** ** The Raft configuration *)

Section raft_config.
Context {B : Type}.

(** [rafts] says which pointers are not nil; the peers themselves are those of
    RaftCluster.v. *)
(*@ src/src/raft/config.go 29-41 config *)
Record rconfig := mkRConfig {
  rnet : Net;
  rn : Z;
  rdone : Z;
  rafts : list bool;
  applyErr : list string;
  connected : list bool;
  rsaved : list (option (Persister B));
  rendnames : Rows;
  rlogs : list (gmap Z Z);
}.
#[export] Instance eta_rconfig : Eta rconfig := λ c,
  mkRConfig (rnet c) (rn c) (rdone c) (rafts c) (applyErr c) (connected c) (rsaved c)
    (rendnames c) (rlogs c).

(** The end points to and from the connected servers. *)
(*@ src/src/raft/config.go 201-221 config.connect *)
Definition connect (cfg : rconfig) (i : Z) : res rconfig :=
  conn ← slice_set (connected cfg) i true;
  let on nt ij c := if (c : bool) then enable_at (rendnames cfg) true nt ij else mret nt in
  nt ← foldM (λ nt j, c ← slice_get conn j; on nt (i, j) c) (rnet cfg) (range 0 (rn cfg));
  nt ← foldM (λ nt j, c ← slice_get conn j; on nt (j, i) c) nt (range 0 (rn cfg));
  mret (cfg <| connected := conn |> <| rnet := nt |>).

(** Here the row tested is the row used. *)
(*@ src/src/raft/config.go 224-244 config.disconnect *)
Definition disconnect (cfg : rconfig) (i : Z) : res rconfig :=
  conn ← slice_set (connected cfg) i false;
  let off nt row ij :=
    r ← slice_get (rendnames cfg) row;
    match r with Some _ => enable_at (rendnames cfg) false nt ij | None => mret nt end in
  nt ← foldM (λ nt j, off nt i (i, j)) (rnet cfg) (range 0 (rn cfg));
  nt ← foldM (λ nt j, off nt j (j, i)) nt (range 0 (rn cfg));
  mret (cfg <| connected := conn |> <| rnet := nt |>).

(** Only the Raft state survives a crash: the snapshot is not copied back. *)
(*@ src/src/raft/config.go 75-103 config.crash1 *)
Definition crash1 (cfg : rconfig) (i : Z) : res rconfig :=
  cfg ← disconnect cfg i;
  let cfg := cfg <| rnet := DeleteServer (rnet cfg) (inl i) |> in
  old ← slice_get (rsaved cfg) i;
  let kept := (λ ps, SaveRaftState MakePersister (ReadRaftState (Copy ps))) <$> old in
  sv ← slice_set (rsaved cfg) i kept;
  rs ← slice_set (rafts cfg) i false;
  mret (cfg <| rsaved := sv |> <| rafts := rs |>).

(** Cut off the old instance, then a fresh row of end points, a fresh persister
    with the old contents and a fresh server; [names] are the [n] random strings,
    [srv] the pointer of the new labrpc server. *)
(*@ src/src/raft/config.go 112-189 config.start1 *)
Definition start1 (cfg : rconfig) (i : Z) (names : list string) (srv : nat) : res rconfig :=
  cfg ← crash1 cfg i;
  rows ← slice_set (rendnames cfg) i (Some names);
  nt ← make_ends (rnet cfg) 0 names;
  old ← slice_get (rsaved cfg) i;
  let ps := match old with Some ps => Copy ps | None => MakePersister end in
  sv ← slice_set (rsaved cfg) i (Some ps);
  rs ← slice_set (rafts cfg) i true;
  mret (cfg <| rendnames := rows |> <| rsaved := sv |> <| rafts := rs |>
            <| rnet := AddServer nt (inl i) srv |>).

(** The reader of applyCh, for a message that carries the number [v].  log.Fatalf
    ends the process, so [applyErr] is never written. *)
(*@ src/src/raft/config.go 147-175 config.start1 (apply reader) *)
Definition check_apply (cfg : rconfig) (i : Z) (idx v : Z) : res rconfig :=
  let clash := existsb (λ lg, match lg !! idx with Some old => negb (old =? v) | None => false end)
                 (rlogs cfg) in
  lg ← slice_get (rlogs cfg) i;
  let prevok := bool_decide (is_Some (lg !! (idx - 1))) in
  ls ← slice_set (rlogs cfg) i (<[idx:=v]> lg);
  if clash || ((1 <? idx) && negb prevok) then Fatal else mret (cfg <| rlogs := ls |>).

(** The peers that are killed, and the flag. *)
(*@ src/src/raft/config.go 191-198 config.cleanup *)
Definition cleanup (cfg : rconfig) : rconfig * list Z :=
  (cfg <| rdone := 1 |>,
   (fst <$> filter (λ ib, ib.2 = true) (imap (λ i b, (Z.of_nat i, b)) (rafts cfg)))).

(*@ src/src/raft/config.go 246-248 config.rpcCount *)
Definition rpcCount {W V C : Type} (s : @State Name _ _ W V C) (server : Z) : res Z :=
  GetCount s (inl server).

(*@ src/src/raft/config.go 250-252 config.setunreliable *)
Definition setunreliable (cfg : rconfig) (unrel : bool) : rconfig :=
  cfg <| rnet := Reliable (rnet cfg) (negb unrel) |>.

(*@ src/src/raft/config.go 254-256 config.setlongreordering *)
Definition setlongreordering (cfg : rconfig) (longrel : bool) : rconfig :=
  cfg <| rnet := LongReordering (rnet cfg) longrel |>.

(** [state i] is what GetState of peer [i] returns; a nil peer panics. *)
Definition get_state (state : Z → Z * bool) (cfg : rconfig) (i : Z) : res (Z * bool) :=
  up ← slice_get (rafts cfg) i;
  if (up : bool) then mret (state i) else Panic.

(** One of the ten rounds: the leaders the connected servers report, the terms
    they lead; a term with two leaders fails the test. *)
(*@ src/src/raft/config.go 263-284 config.checkOneLeader (round) *)
Definition check_leader_round (state : Z → Z * bool) (cfg : rconfig) : res (option Z) :=
  leaders ← mapM (λ i, c ← slice_get (connected cfg) i;
                       if (c : bool) then
                         '(t, leader) ← get_state state cfg i;
                         mret (if (leader : bool) then Some (t, i) else None)
                       else mret None) (range 0 (rn cfg));
  let leaders := omap id leaders in
  if decide (NoDup leaders.*1) then
    let lastTermWithLeader := foldr Z.max (-1) leaders.*1 in
    mret (snd <$> head (filter (λ ti, ti.1 = lastTermWithLeader) leaders))
  else Fatal.

(** [state r] is what the peers say in round [r]; the loop tries ten times. *)
Fixpoint leader_rounds (state : nat → Z → Z * bool) (cfg : rconfig) (tries r : nat) : res Z :=
  match tries with
  | O => Fatal
  | S tries =>
      l ← check_leader_round (state r) cfg;
      match l with Some i => mret i | None => leader_rounds state cfg tries (S r) end
  end.

(*@ src/src/raft/config.go 260-288 config.checkOneLeader *)
Definition checkOneLeader (state : nat → Z → Z * bool) (cfg : rconfig) : res Z :=
  leader_rounds state cfg 10 0.

(*@ src/src/raft/config.go 291-304 config.checkTerms *)
Definition checkTerms (state : Z → Z * bool) (cfg : rconfig) : res Z :=
  foldM (λ term i, c ← slice_get (connected cfg) i;
                   if (c : bool) then
                     '(xterm, _) ← get_state state cfg i;
                     if term =? -1 then mret xterm
                     else if negb (term =? xterm) then Fatal else mret term
                   else mret term) (-1) (range 0 (rn cfg)).

(*@ src/src/raft/config.go 307-316 config.checkNoLeader *)
Definition checkNoLeader (state : Z → Z * bool) (cfg : rconfig) : res unit :=
  foldM (λ _ i, c ← slice_get (connected cfg) i;
                if (c : bool) then
                  '(_, is_leader) ← get_state state cfg i;
                  if (is_leader : bool) then Fatal else mret tt
                else mret tt) tt (range 0 (rn cfg)).

(** One server of the count. *)
(*@ src/src/raft/config.go 322-339 config.nCommitted (loop) *)
Definition count_committed (cfg : rconfig) (index : Z) (st : Z * Z) (i : Z) : res (Z * Z) :=
  let '(count, cmd) := st in
  err ← slice_get (applyErr cfg) i;
  if negb (String.eqb err "") then Fatal
  else
    lg ← slice_get (rlogs cfg) i;
    match lg !! index with
    | Some cmd1 => if (0 <? count) && negb (cmd =? cmd1) then Fatal
                   else mret (count + 1, cmd1)
    | None => mret (count, cmd)
    end.

(** How many servers have committed [index], and which command. *)
(*@ src/src/raft/config.go 319-341 config.nCommitted *)
Definition nCommitted (cfg : rconfig) (index : Z) : res (Z * Z) :=
  foldM (count_committed cfg index) (0, -1) (range 0 (len (rafts cfg))).

(** Is some peer past [startTerm]?  The peers answer in order, [None] is a nil one. *)
(*@ src/src/raft/config.go 357-363 config.wait (terms) *)
Fixpoint moved_on (startTerm : Z) (terms : list (option Z)) : res bool :=
  match terms with
  | [] => mret false
  | None :: _ => Panic
  | Some t :: terms => if startTerm <? t then mret true else moved_on startTerm terms
  end.

(** The wait for [n] servers to commit: [obs r] is the configuration and [terms r]
    are the terms of the peers at the [r]-th look. *)
Fixpoint wait_loop (obs : nat → rconfig) (terms : nat → list (option Z))
    (index n startTerm : Z) (tries r : nat) : res (option nat) :=
  match tries with
  | O => mret (Some r)
  | S tries =>
      '(nd, _) ← nCommitted (obs r) index;
      if n <=? nd then mret (Some (S r))
      else
        past ← (if -1 <? startTerm then moved_on startTerm (terms r) else mret false);
        if past : bool then mret None
        else wait_loop obs terms index n startTerm tries (S r)
  end.

(*@ src/src/raft/config.go 345-372 config.wait *)
Definition wait (obs : nat → rconfig) (terms : nat → list (option Z))
    (index n startTerm : Z) : res Z :=
  r ← wait_loop obs terms index n startTerm 30 0;
  match r with
  | None => mret (-1)
  | Some r => '(nd, cmd) ← nCommitted (obs r) index;
              if nd <? n then Fatal else mret cmd
  end.

(** One pass over the servers for a leader: [seen k] is the configuration at the
    [k]-th of the [n] attempts, [start k i] what Start of peer [i] answers to the
    command then.  The index (-1: nobody leads) and where the pass stopped. *)
(*@ src/src/raft/config.go 387-403 config.one (submit) *)
Fixpoint submit (seen : nat → rconfig) (start : nat → Z → Z * Z * bool) (n starts : Z)
    (tries k : nat) : res (Z * Z) :=
  match tries with
  | O => mret (-1, starts)
  | S tries =>
      let starts := Z.rem (starts + 1) n in
      c ← slice_get (connected (seen k)) starts;
      rf ← (if (c : bool) then slice_get (rafts (seen k)) starts else mret false);
      if (rf : bool) then
        let '(index1, _, ok) := start k starts in
        if (ok : bool) then mret (index1, starts) else submit seen start n starts tries (S k)
      else submit seen start n starts tries (S k)
  end.

(** Look for the agreement every 20 ms for two seconds: [obs r] and [clock r] are
    the configuration and the time, in milliseconds, after the [r]-th sleep.
    The outcome and the number of sleeps so far; [None]: out of fuel. *)
(*@ src/src/raft/config.go 408-419 config.one (agreement) *)
Fixpoint await (obs : nat → rconfig) (clock : nat → Z) (cmd expectedServers index t1 : Z)
    (fuel r : nat) : res (option (bool * nat)) :=
  match fuel with
  | O => mret None
  | S fuel =>
      if clock r - t1 <? 2000 then
        '(nd, cmd1) ← nCommitted (obs r) index;
        if (0 <? nd) && (expectedServers <=? nd) && (cmd1 =? cmd) then mret (Some (true, r))
        else await obs clock cmd expectedServers index t1 fuel (S r)
      else mret (Some (false, r))
  end.

(** [None]: out of fuel. *)
(*@ src/src/raft/config.go 385-423 config.one (loop) *)
Fixpoint one_loop (seen : nat → nat → rconfig) (start : nat → nat → Z → Z * Z * bool)
    (obs : nat → rconfig) (clock : nat → Z) (n cmd expectedServers t0 starts : Z)
    (fuel r : nat) : res (option Z) :=
  match fuel with
  | O => mret None
  | S fuel =>
      if clock r - t0 <? 10000 then
        '(index, starts) ← submit (seen r) (start r) n starts (Z.to_nat n) 0;
        if negb (index =? -1) then
          a ← await obs clock cmd expectedServers index (clock r) 101 r;
          match a with
          | None => mret None
          | Some (true, _) => mret (Some index)
          | Some (false, r) =>
              one_loop seen start obs clock n cmd expectedServers t0 starts fuel r
          end
        else one_loop seen start obs clock n cmd expectedServers t0 starts fuel (S r)
      else Fatal
  end.

(** At most 500 sleeps of at least 20 ms fit in ten seconds, 100 in two.  The pass
    over the servers is taken to happen at the time of the round it is in. *)
(*@ src/src/raft/config.go 382-426 config.one *)
Definition one (seen : nat → nat → rconfig) (start : nat → nat → Z → Z * Z * bool)
    (obs : nat → rconfig) (clock : nat → Z) (n cmd expectedServers : Z) : res (option Z) :=
  one_loop seen start obs clock n cmd expectedServers (clock 0%nat) 0 501 0.
End raft_config.
Arguments rconfig : clear implicits.

(** Every server started and connected. *)
(*@ src/src/raft/config.go 43-72 make_config *)
Definition rmake_config {B} (nservers : Z) (unreliable : bool) (names : Z → list string) :
    res (rconfig B) :=
  let k := Z.to_nat nservers in
  let cfg := mkRConfig MakeNetwork nservers 0 (replicate k false) (replicate k "")
               (replicate k false) (replicate k None) (replicate k None) (replicate k ∅) in
  let cfg := setunreliable cfg unreliable in
  let cfg := cfg <| rnet := LongDelays (rnet cfg) true |> in
  cfg ← foldM (λ cfg i, start1 cfg i (names i) (Z.to_nat i)) cfg (range 0 nservers);
  foldM connect cfg (range 0 nservers).
End Harness.
