(* ===== verification/HarnessProps.v ===== *)
(** * HarnessProps: the partitions the tests make are partitions *)
From S2P Require Import Prelude Persister Labrpc Raft Harness.
Export Harness.

Module HarnessProps.

Lemma foldM_app {A B} (f : A → B → res A) a l1 l2 :
  foldM f a (l1 ++ l2) = foldM f a l1 ≫= λ a, foldM f a l2.
Proof.
  revert a. induction l1 as [|x l1 IH]; intros a; cbn; [done|].
  destruct (f a x); cbn; [apply IH|done..].
Qed.

Lemma foldM_snoc {S T} (f : S → T → res S) a l x b :
  foldM f a (l ++ [x]) = Ok b ↔ ∃ a', foldM f a l = Ok a' ∧ f a' x = Ok b.
Proof.
  rewrite foldM_app. destruct (foldM f a l) as [a'| |]; cbn; [|by split; [|intros (? & ? & _)]..].
  split; [intros H; exists a'|intros (? & [= <-] & H)]; by destruct (f a' x).
Qed.

(** A property every step keeps is kept by the loop. *)
Lemma foldM_keeps {S T} (P : S → Prop) (f : S → T → res S) l s s' :
  (∀ s t s', t ∈ l → P s → f s t = Ok s' → P s') → P s → foldM f s l = Ok s' → P s'.
Proof.
  revert s. induction l as [|t l IH]; intros s Hf HP H; cbn in H; [by injection H as <-|].
  mbind_inv H. eapply IH; [|eapply Hf; [by left|exact HP|exact E]|exact H].
  intros s1 t1 s2 Ht. apply Hf. by right.
Qed.

(** The same for counting loops, with the counter. *)
Lemma foldM_range {S} (P : Z → S → Prop) (f : S → Z → res S) k s s' :
  0 ≤ k → P 0 s → (∀ i s s', 0 ≤ i < k → P i s → f s i = Ok s' → P (i + 1) s') →
  foldM f s (range 0 k) = Ok s' → P k s'.
Proof.
  intros Hk HP Hf. revert s'. pattern k, Hk. generalize Hf. clear Hf.
  revert k Hk. refine (natlike_ind _ _ _).
  - intros _ s'. rewrite range_empty by done. by intros [= <-].
  - intros k Hk IH Hf s'. rewrite (range_app 0 k) by lia. rewrite (range_one k) by lia.
    intros (s1 & H1 & H2)%foldM_snoc. apply (Hf k s1); [lia| |done]. apply IH; [|done].
    intros i s2 s3 Hi. apply Hf. lia.
Qed.

Lemma foldM_range_Ok {S} (P : Z → S → Prop) (f : S → Z → res S) k s :
  0 ≤ k → P 0 s → (∀ i s, 0 ≤ i < k → P i s → ∃ s', f s i = Ok s' ∧ P (i + 1) s') →
  ∃ s', foldM f s (range 0 k) = Ok s' ∧ P k s'.
Proof.
  intros Hk HP. revert k Hk. refine (natlike_ind _ _ _).
  - intros _. exists s. by rewrite range_empty.
  - intros k Hk IH Hf. rewrite (range_app 0 k) by lia. rewrite (range_one k) by lia.
    destruct IH as (s1 & H1 & HP1); [intros; apply Hf; [lia|done]|].
    destruct (Hf k s1) as (s2 & H2 & HP2); [lia|done|].
    exists s2. split; [apply foldM_snoc; eauto|done].
Qed.

(** ** The links between servers *)

Section links.
Context {B Srv : Type}.
Implicit Types (cfg : config B Srv) (nt : Net).

Lemma imap_fmap_snd {X Y} (f : X → Y) (l : list X) : imap (λ _, f) l = f <$> l.
Proof. induction l as [|x l IH]; [done|]. rewrite imap_cons. cbn. f_equal. exact IH. Qed.

(** Outgoing links, then incoming ones: together all links of [i] with [to]. *)
Lemma links_decide {X} (i a b : Z) (to : list Z) (x y : X) :
  (if decide ((a, b) ∈ ((λ t, (t, i)) <$> to)) then x
   else if decide ((a, b) ∈ ((λ t, (i, t)) <$> to)) then x else y) =
  (if decide ((a = i ∧ b ∈ to) ∨ (b = i ∧ a ∈ to)) then x else y).
Proof.
  assert (H1 : (a, b) ∈ ((λ t, (t, i)) <$> to) ↔ b = i ∧ a ∈ to).
  { rewrite list_elem_of_fmap. split; [by intros (t & [= -> ->] & ?)|intros [-> ?]; eauto]. }
  assert (H2 : (a, b) ∈ ((λ t, (i, t)) <$> to) ↔ a = i ∧ b ∈ to).
  { rewrite list_elem_of_fmap. split; [by intros (t & [= -> ->] & ?)|intros [-> ?]; eauto]. }
  repeat case_decide; tauto.
Qed.

(** Every server has been started and no two end points have the same name. *)
Record wf cfg (name : Z → Z → string) : Prop := mkWf {
  wf_rows i j : 0 ≤ i < n cfg → 0 ≤ j < n cfg → endname_at (endnames cfg) i j = Ok (name i j);
  wf_started i : 0 ≤ i < n cfg → ∃ r, slice_get (endnames cfg) i = Ok (Some r);
  wf_inj i j i' j' : name i j = name i' j' → i = i' ∧ j = j';
}.

(** Is the end point of server [i] to server [j] enabled? *)
Definition link (name : Z → Z → string) nt (i j : Z) : option bool :=
  enabled nt !! inr (name i j).

Definition in_range cfg (l : list Z) : Prop := ∀ x, x ∈ l → 0 ≤ x < n cfg.

Lemma enable_at_Ok cfg name b nt i j :
  wf cfg name → 0 ≤ i < n cfg → 0 ≤ j < n cfg →
  enable_at (endnames cfg) b nt (i, j) = Ok (Enable nt (inr (name i j)) b).
Proof.
  intros Hwf Hi Hj. unfold enable_at. cbn [fst snd]. by rewrite (wf_rows _ _ Hwf).
Qed.

(** Enabling or disabling a list of links changes those and nothing else. *)
Lemma enable_links cfg name b nt ls :
  wf cfg name → (∀ ij, ij ∈ ls → 0 ≤ ij.1 < n cfg ∧ 0 ≤ ij.2 < n cfg) →
  ∃ nt', foldM (enable_at (endnames cfg) b) nt ls = Ok nt' ∧
    (∀ i j, link name nt' i j = if decide ((i, j) ∈ ls) then Some b else link name nt i j) ∧
    servers nt' = servers nt ∧ connections nt' = connections nt.
Proof.
  intros Hwf. revert nt. induction ls as [|[i0 j0] ls IH]; intros nt Hls; cbn [foldM].
  { exists nt. split; [done|]. split; [|done]. intros i j.
    by rewrite decide_False by apply not_elem_of_nil. }
  destruct (Hls (i0, j0)) as [Hi Hj]; [by left|]. cbn in Hi, Hj.
  rewrite (enable_at_Ok cfg name b nt i0 j0) by done. cbn [mbind res_bind].
  destruct (IH (Enable nt (inr (name i0 j0)) b)) as (nt' & Hf & Hlk & Hs & Hc).
  { intros ij ?. apply Hls. by right. }
  exists nt'. split; [done|]. split; [|done]. intros i j. rewrite Hlk.
  destruct (decide ((i, j) ∈ ls)) as [Hin|Hout].
  { by rewrite decide_True by (by right). }
  unfold link. cbn. destruct (decide ((i, j) = (i0, j0))) as [[= -> ->]|Hne].
  - rewrite lookup_insert_eq, decide_True by (by left). done.
  - rewrite lookup_insert_ne, decide_False; [done| |].
    + by intros [?|?]%elem_of_cons.
    + intros [= Heq%(wf_inj _ _ Hwf)]. destruct Heq. congruence.
Qed.

Lemma connect_links cfg name i to :
  wf cfg name → 0 ≤ i < n cfg → in_range cfg to →
  ∃ nt', connectUnlocked cfg i to = Ok (cfg <| net := nt' |>) ∧
    (∀ a b, link name nt' a b =
       if decide ((a = i ∧ b ∈ to) ∨ (b = i ∧ a ∈ to)) then Some true
       else link name (net cfg) a b) ∧
    servers nt' = servers (net cfg) ∧ connections nt' = connections (net cfg).
Proof.
  intros Hwf Hi Hto. unfold connectUnlocked.
  destruct (enable_links cfg name true (net cfg) ((λ t, (i, t)) <$> to) Hwf)
    as (nt1 & -> & Hl1 & Hs1 & Hc1).
  { intros ij (t & -> & Ht)%list_elem_of_fmap. cbn. auto. }
  cbn [mbind res_bind].
  destruct (enable_links cfg name true nt1 ((λ t, (t, i)) <$> to) Hwf)
    as (nt2 & -> & Hl2 & Hs2 & Hc2).
  { intros ij (t & -> & Ht)%list_elem_of_fmap. cbn. auto. }
  exists nt2. split; [done|]. split; [|by rewrite Hs2, Hc2]. intros a b. rewrite Hl2, Hl1.
  by apply links_decide.
Qed.

(** When every server has been started, the row tested does not matter. *)
Lemma disconnect_links cfg name i from :
  wf cfg name → 0 ≤ i < n cfg → in_range cfg from → len from ≤ n cfg →
  ∃ nt', disconnectUnlocked cfg i from = Ok (cfg <| net := nt' |>) ∧
    (∀ a b, link name nt' a b =
       if decide ((a = i ∧ b ∈ from) ∨ (b = i ∧ a ∈ from)) then Some false
       else link name (net cfg) a b) ∧
    servers nt' = servers (net cfg) ∧ connections nt' = connections (net cfg).
Proof.
  intros Hwf Hi Hfrom Hlen. unfold disconnectUnlocked.
  assert (Hout : ∀ nt l, in_range cfg l → foldM (disconnect_out (endnames cfg) i) nt l =
    foldM (enable_at (endnames cfg) false) nt ((λ t, (i, t)) <$> l)).
  { intros nt l. revert nt. induction l as [|x l IH]; intros nt Hl; [done|]. cbn [foldM fmap list_fmap].
    assert (Hx : 0 ≤ x < n cfg) by (apply Hl; by left).
    destruct (wf_started _ _ Hwf i Hi) as [r Hr]. pose proof (wf_rows _ _ Hwf i x Hi Hx) as He.
    rewrite (enable_at_Ok cfg name false nt i x) by done.
    replace (disconnect_out (endnames cfg) i nt x) with (Ok (Enable nt (inr (name i x)) false)).
    2:{ unfold disconnect_out, endname_at in *. rewrite Hr in *. cbn in *. by rewrite He. }
    cbn. apply IH. intros y ?. apply Hl. by right. }
  assert (Hin : ∀ nt l, (∀ jx, jx ∈ l → 0 ≤ jx.1 < n cfg) →
    foldM (disconnect_in (endnames cfg) i) nt l =
    foldM (enable_at (endnames cfg) false) nt ((λ jx, (jx.2, i)) <$> l)).
  { intros nt l. revert nt. induction l as [|jx l IH]; intros nt Hl; [done|]. cbn [foldM fmap list_fmap].
    destruct (wf_started _ _ Hwf jx.1) as [r Hr]; [apply Hl; by left|].
    replace (disconnect_in (endnames cfg) i nt jx)
      with (enable_at (endnames cfg) false nt (jx.2, i)).
    2:{ unfold disconnect_in. by rewrite Hr. }
    destruct (enable_at (endnames cfg) false nt (jx.2, i)); cbn; [|done..].
    apply IH. intros y ?. apply Hl. by right. }
  rewrite Hout by done.
  destruct (enable_links cfg name false (net cfg) ((λ t, (i, t)) <$> from) Hwf)
    as (nt1 & -> & Hl1 & Hs1 & Hc1).
  { intros ij (t & -> & Ht)%list_elem_of_fmap. cbn. auto. }
  assert (Hsnd : ((λ jx : Z * Z, (jx.2, i)) <$> imap (λ j x, (Z.of_nat j, x)) from) =
                 ((λ t, (t, i)) <$> from)).
  { etrans; [apply fmap_imap|]. apply (imap_fmap_snd (λ t, (t, i))). }
  cbn [mbind res_bind]. rewrite Hin, Hsnd.
  2:{ intros jx (k & x & -> & Hk)%elem_of_lookup_imap. cbn. apply lookup_lt_Some in Hk.
      unfold len in Hlen. lia. }
  destruct (enable_links cfg name false nt1 ((λ t, (t, i)) <$> from) Hwf)
    as (nt2 & -> & Hl2 & Hs2 & Hc2).
  { intros ij (t & -> & Ht)%list_elem_of_fmap. cbn. auto. }
  exists nt2. split; [done|]. split; [|by rewrite Hs2, Hc2]. intros a b. rewrite Hl2, Hl1.
  by apply links_decide.
Qed.

Lemma wf_net cfg name nt : wf cfg name → wf (cfg <| net := nt |>) name.
Proof. intros [? ? ?]. by constructor. Qed.

(** The two sides of a partition. *)
Definition sides cfg (p1 p2 : list Z) : Prop :=
  in_range cfg p1 ∧ in_range cfg p2 ∧ len p1 ≤ n cfg ∧ len p2 ≤ n cfg ∧ ∀ x, x ∈ p1 → x ∉ p2.

Definition same_side (p1 : list Z) (a b : Z) : bool := bool_decide (a ∈ p1 ↔ b ∈ p1).

Lemma isolate_links cfg name mine other x :
  wf cfg name → sides cfg mine other → x ∈ mine →
  ∃ nt', isolate mine other cfg x = Ok (cfg <| net := nt' |>) ∧
    (∀ a b, link name nt' a b =
       if decide ((a = x ∧ b ∈ mine ++ other) ∨ (b = x ∧ a ∈ mine ++ other))
       then Some (same_side mine a b) else link name (net cfg) a b) ∧
    servers nt' = servers (net cfg) ∧ connections nt' = connections (net cfg).
Proof.
  intros Hwf (Hm & Ho & Hlm & Hlo & Hdis) Hx. unfold isolate.
  destruct (disconnect_links cfg name x other Hwf (Hm x Hx) Ho Hlo) as (nt1 & -> & Hl1 & Hs1 & Hc1).
  cbn [mbind res_bind].
  destruct (connect_links (cfg <| net := nt1 |>) name x mine (wf_net _ _ _ Hwf) (Hm x Hx) Hm)
    as (nt2 & -> & Hl2 & Hs2 & Hc2).
  exists nt2. split; [done|]. cbn in Hl2, Hs2, Hc2. split; [|by rewrite Hs2, Hc2].
  intros a b. rewrite Hl2, Hl1. unfold same_side.
  destruct (decide ((a = x ∧ b ∈ mine) ∨ (b = x ∧ a ∈ mine))) as [Hin|Hin].
  { rewrite decide_True by (rewrite !elem_of_app; tauto). rewrite bool_decide_eq_true_2; [done|].
    destruct Hin as [[-> ?]|[-> ?]]; tauto. }
  destruct (decide ((a = x ∧ b ∈ other) ∨ (b = x ∧ a ∈ other))) as [Hout|Hout].
  - rewrite decide_True by (rewrite !elem_of_app; tauto). rewrite bool_decide_eq_false_2; [done|].
    destruct Hout as [[-> Hb]|[-> Ha]]; intros Heq.
    + apply (Hdis b); [tauto|done].
    + apply (Hdis a); [tauto|done].
  - by rewrite decide_False by (rewrite !elem_of_app; tauto).
Qed.

Lemma isolate_all cfg name mine other xs :
  wf cfg name → sides cfg mine other → (∀ x, x ∈ xs → x ∈ mine) →
  ∃ nt', foldM (isolate mine other) cfg xs = Ok (cfg <| net := nt' |>) ∧
    (∀ a b, link name nt' a b =
       if decide ((a ∈ xs ∧ b ∈ mine ++ other) ∨ (b ∈ xs ∧ a ∈ mine ++ other))
       then Some (same_side mine a b) else link name (net cfg) a b) ∧
    servers nt' = servers (net cfg) ∧ connections nt' = connections (net cfg).
Proof.
  intros Hwf Hsd. revert cfg Hwf Hsd. induction xs as [|x xs IH]; intros cfg Hwf Hsd Hxs.
  { exists (net cfg). split; [by destruct cfg|]. split; [|done]. intros a b.
    rewrite decide_False; [done|]. by intros [[?%elem_of_nil _]|[?%elem_of_nil _]]. }
  cbn [foldM].
  destruct (isolate_links cfg name mine other x Hwf Hsd) as (nt1 & -> & Hl1 & Hs1 & Hc1);
    [apply Hxs; by left|]. cbn [mbind res_bind].
  destruct (IH (cfg <| net := nt1 |>)) as (nt2 & -> & Hl2 & Hs2 & Hc2);
    [by apply wf_net|done|intros y ?; apply Hxs; by right|].
  exists nt2. split; [done|]. cbn in Hl2, Hs2, Hc2. split; [|by rewrite Hs2, Hc2].
  intros a b. rewrite Hl2, Hl1.
  repeat case_decide; try done; exfalso; rewrite ?elem_of_cons, ?elem_of_app in *; naive_solver.
Qed.

(** Partitioning a cluster: with every server started, any two disjoint
    groups and any previous connections, [partition] does not panic, and then
    between members of the two groups exactly the links within one group are
    enabled, in both directions; links of servers outside the groups, the
    registered servers and the wiring of the end points do not change. *)
Theorem partition_splits cfg name p1 p2 :
  wf cfg name → sides cfg p1 p2 →
  ∃ nt', partition cfg p1 p2 = Ok (cfg <| net := nt' |>) ∧
    (∀ a b, a ∈ p1 ++ p2 → b ∈ p1 ++ p2 → link name nt' a b = Some (same_side p1 a b)) ∧
    (∀ a b, ¬ (a ∈ p1 ++ p2 ∧ b ∈ p1 ++ p2) → link name nt' a b = link name (net cfg) a b) ∧
    servers nt' = servers (net cfg) ∧ connections nt' = connections (net cfg).
Proof.
  intros Hwf Hsd. pose proof Hsd as (H1 & H2 & Hl1 & Hl2 & Hdis). unfold partition.
  destruct (isolate_all cfg name p1 p2 p1 Hwf Hsd) as (nt1 & -> & Hk1 & Hs1 & Hc1); [done|].
  cbn [mbind res_bind].
  destruct (isolate_all (cfg <| net := nt1 |>) name p2 p1 p2) as (nt2 & -> & Hk2 & Hs2 & Hc2);
    [by apply wf_net| |done|].
  { split_and!; try done. intros x Hx2 Hx1. by apply (Hdis x). }
  exists nt2. split; [done|]. cbn in Hk2, Hs2, Hc2. split_and!; [| |by rewrite Hs2|by rewrite Hc2].
  - intros a b Ha Hb. rewrite Hk2, Hk1.
    assert (Hsame : same_side p2 a b = same_side p1 a b).
    { unfold same_side. apply bool_decide_ext. apply elem_of_app in Ha, Hb.
      pose proof (Hdis a). pose proof (Hdis b). tauto. }
    rewrite Hsame. repeat case_decide; try done; exfalso; set_solver.
  - intros a b Hab. rewrite Hk2, Hk1.
    repeat case_decide; try done; exfalso; set_solver.
Qed.
End links.

(** ** Choosing the sides *)

(** The loop of make_partition writes the other servers one after the other into
    the two arrays. *)
Lemma place_spec l p1 p2 j i :
  i ≠ l → 0 ≤ j < len p1 + len p2 →
  ∃ p1' p2', place l (p1, p2, j) i = Ok (p1', p2', j + 1) ∧
    len p1' = len p1 ∧ len p2' = len p2 ∧ p1' ++ p2' = <[Z.to_nat j:=i]> (p1 ++ p2).
Proof.
  intros Hi Hj. unfold place. destruct (Z.eqb_spec i l); [done|].
  destruct (Z.ltb_spec j (len p1)).
  - rewrite slice_set_Ok by lia. eexists _, p2. cbn. split; [done|].
    rewrite len_insert. split_and!; try done.
    rewrite insert_app_l; [done|]. unfold len in *. lia.
  - rewrite slice_set_Ok by lia. eexists p1, _. cbn. split; [done|].
    rewrite len_insert. split_and!; try done.
    rewrite insert_app_r_alt by (unfold len in *; lia). do 2 f_equal. unfold len. lia.
Qed.

Lemma place_all l p1 p2 (j : nat) xs :
  (j + length (filter (λ i, i ≠ l) xs) ≤ length (p1 ++ p2))%nat →
  ∃ p1' p2', foldM (place l) (p1, p2, Z.of_nat j) xs =
      Ok (p1', p2', Z.of_nat (j + length (filter (λ i, i ≠ l) xs))) ∧
    len p1' = len p1 ∧ len p2' = len p2 ∧
    p1' ++ p2' = take j (p1 ++ p2) ++ filter (λ i, i ≠ l) xs ++
                 drop (j + length (filter (λ i, i ≠ l) xs)) (p1 ++ p2).
Proof.
  revert p1 p2 j. induction xs as [|i xs IH]; intros p1 p2 j Hlen.
  { exists p1, p2. cbn. rewrite Nat.add_0_r, take_drop. done. }
  cbn [foldM]. rewrite filter_cons in *. destruct (decide (i ≠ l)) as [Hi|Hi].
  - cbn [length] in *.
    destruct (place_spec l p1 p2 (Z.of_nat j) i Hi) as (q1 & q2 & -> & H1 & H2 & Happ).
    { rewrite <- len_app. unfold len. lia. }
    cbn [mbind res_bind]. replace (Z.of_nat j + 1) with (Z.of_nat (S j)) by lia.
    rewrite Nat2Z.id in Happ.
    destruct (IH q1 q2 (S j)) as (r1 & r2 & -> & Hr1 & Hr2 & Hr).
    { rewrite Happ, length_insert. lia. }
    exists r1, r2. split; [do 2 f_equal; lia|]. split_and!; [congruence|congruence|].
    rewrite Hr, Happ. replace (S j + length (filter (λ i, i ≠ l) xs))%nat
      with (j + S (length (filter (λ i, i ≠ l) xs)))%nat by lia.
    rewrite drop_insert_lt by lia.
    rewrite (take_S_r _ j i) by (apply list_lookup_insert_eq; lia).
    rewrite take_insert_ge by lia. by rewrite <- (assoc_L (++)).
  - assert (i = l) as -> by lia. unfold place at 2. cbn. rewrite Z.eqb_refl. cbn.
    apply IH. exact Hlen.
Qed.

Lemma others_length n l :
  0 ≤ l < n → Z.of_nat (length (filter (λ i, i ≠ l) (range 0 n))) = n - 1.
Proof.
  intros Hl. rewrite (range_app 0 l) by lia. rewrite (range_app l (l + 1)) by lia.
  rewrite (range_one l) by lia. rewrite !filter_app, filter_cons_False, filter_nil by (intros H; by apply H).
  rewrite !filter_all; [|intros x Hx%elem_of_range; lia..].
  rewrite !length_app, !length_range. cbn [length]. lia.
Qed.

Lemma make_partition_odd k l :
  1 ≤ k → 0 ≤ l < 2 * k + 1 →
  let o := filter (λ i, i ≠ l) (range 0 (2 * k + 1)) in
  make_partition (2 * k + 1) l =
    Ok (take (Z.to_nat (k + 1)) o, drop (Z.to_nat (k + 1)) o ++ [l]).
Proof.
  intros Hk Hl o. unfold make_partition.
  replace (Z.quot (2 * k + 1) 2) with k 
    by (rewrite Z.quot_div_nonneg by lia; apply (Z.div_unique _ _ _ 1); lia).
  pose proof (others_length (2 * k + 1) l Hl) as Ho. fold o in Ho.
  destruct (place_all l (replicate (Z.to_nat (k + 1)) 0) (replicate (Z.to_nat k) 0) 0
              (range 0 (2 * k + 1))) as (q1 & q2 & Hf & H1 & H2 & Happ).
  { fold o. rewrite length_app, !length_replicate. lia. }
  fold o in Hf, Happ. change (Z.of_nat 0) with 0 in Hf. rewrite Hf. cbn [mbind res_bind].
  rewrite len_replicate in H1, H2 by lia.
  assert (Harr : drop (0 + length o) (replicate (Z.to_nat (k + 1)) 0 ++ replicate (Z.to_nat k) 0)
                 = [0]).
  { rewrite <- replicate_add, drop_replicate.
    by replace (Z.to_nat (k + 1) + Z.to_nat k - (0 + length o))%nat with 1%nat by lia. }
  rewrite Harr, take_0, app_nil_l in Happ.
  assert (Hq1 : q1 = take (Z.to_nat (k + 1)) o).
  { transitivity (take (length q1) (q1 ++ q2)); [by rewrite take_app_length|].
    rewrite Happ. unfold len in H1. rewrite take_app_le by lia. f_equal. lia. }
  assert (Hq2 : q2 = drop (Z.to_nat (k + 1)) o ++ [0]).
  { transitivity (drop (length q1) (q1 ++ q2)); [by rewrite drop_app_length|].
    rewrite Happ. unfold len in H1. rewrite drop_app_le by lia. do 2 f_equal. lia. }
  rewrite slice_set_Ok by lia. rewrite H2. cbn. do 2 f_equal; [done|].
  rewrite Hq2, insert_app_r_alt; rewrite length_drop; [|lia].
  f_equal. replace (Z.to_nat _ - _)%nat with 0%nat by lia. done.
Qed.

(** Choosing the sides: for an odd number of servers, at least three,
    make_partition splits all of them into two disjoint sides, the first with a
    majority and the second with the leader, as the tests rely on.  For an even
    number it does not: with four servers and leader 1, server 0 is in both. *)
Theorem make_partition_majority k l :
  1 ≤ k → 0 ≤ l < 2 * k + 1 →
  (∃ p1 p2, make_partition (2 * k + 1) l = Ok (p1, p2) ∧
     p1 ++ p2 ≡ₚ range 0 (2 * k + 1) ∧ NoDup (p1 ++ p2) ∧ l ∈ p2 ∧
     2 * k + 1 < 2 * len p1) ∧
  make_partition 4 1 = Ok ([0; 2; 3], [0; 1]).
Proof.
  intros Hk Hl. split; [|done]. rewrite make_partition_odd by done. eexists _, _. split; [done|].
  pose proof (others_length (2 * k + 1) l Hl) as Ho.
  assert (Hp : take (Z.to_nat (k + 1)) (filter (λ i, i ≠ l) (range 0 (2 * k + 1))) ++
    drop (Z.to_nat (k + 1)) (filter (λ i, i ≠ l) (range 0 (2 * k + 1))) ++ [l] ≡ₚ
    range 0 (2 * k + 1)).
  { rewrite (assoc_L (++)), take_drop.
    rewrite <- (filter_app_complement (λ i, i ≠ l) (range 0 (2 * k + 1))) at 2.
    apply Permutation_app_head. apply NoDup_Permutation.
    - apply NoDup_singleton.
    - apply NoDup_filter, NoDup_range.
    - intros x. rewrite list_elem_of_singleton, list_elem_of_filter, elem_of_range.
      split; [intros ->; split; [tauto|lia]|]. intros [Hx _]. by apply dec_stable. }
  split_and!; [done|rewrite Hp; apply NoDup_range|apply elem_of_app; right; by left|].
  unfold len. rewrite length_take. lia.
Qed.
End HarnessProps.
