(* ===== verification/HarnessChecks.v ===== *)
(** * HarnessChecks: what the checks of the Raft tester establish

    The goroutines that read the peers' apply channels compare every message
    with what all peers have applied before; nCommitted counts. *)
From S2P Require Import Prelude Persister Labrpc Raft Harness HarnessProps.
Export Harness.

Module HarnessChecks.
Import HarnessProps.

Section checks.
Context {B : Type}.
Implicit Types (cfg : rconfig B).

(** A message: the peer that sent it, its index and its number. *)
Notation Msg := (Z * Z * Z)%type.

Definition read_msg cfg (m : Msg) : res (rconfig B) :=
  let '(i, idx, v) := m in check_apply cfg i idx v.
Definition read_all cfg (msgs : list Msg) : res (rconfig B) := foldM read_msg cfg msgs.

Definition applied_at cfg (i idx : Z) : option Z :=
  match slice_get (rlogs cfg) i with Ok lg => lg !! idx | _ => None end.

(** Before the first message. *)
Definition fresh cfg : Prop :=
  (∀ i idx, applied_at cfg i idx = None) ∧ len (rlogs cfg) = len (rafts cfg) ∧
  applyErr cfg = replicate (length (rafts cfg)) "".

(** The logs are those of the messages read, agree, and have no gap. *)
Record consistent cfg (msgs : list Msg) : Prop := mkConsistent {
  con_logs i idx v : applied_at cfg i idx = Some v ↔ (i, idx, v) ∈ msgs;
  con_agree i j idx v v' :
    applied_at cfg i idx = Some v → applied_at cfg j idx = Some v' → v = v';
  con_gap i idx k : is_Some (applied_at cfg i idx) → 1 ≤ k ≤ idx →
    is_Some (applied_at cfg i k);
}.

Lemma no_clash (logs : list (gmap Z Z)) idx v :
  existsb (λ lg, match lg !! idx with Some old => negb (old =? v) | None => false end) logs = false →
  ∀ i lg old, slice_get logs i = Ok lg → lg !! idx = Some old → old = v.
Proof.
  intros He i lg old [_ Hlg]%slice_get_Ok Hold.
  assert (Hn : ¬ existsb (λ lg, match lg !! idx with
    | Some old => negb (old =? v) | None => false end) logs = true) by congruence.
  rewrite existsb_exists in Hn. destruct (Z.eqb_spec old v) as [|Hne]; [done|].
  destruct Hn. exists lg. split.
  - by apply list_elem_of_In, list_elem_of_lookup_2 with (Z.to_nat i).
  - rewrite Hold. destruct (Z.eqb_spec old v); [done|]. done.
Qed.

Lemma check_apply_inv cfg i idx v cfg' :
  check_apply cfg i idx v = Ok cfg' →
  rafts cfg' = rafts cfg ∧ applyErr cfg' = applyErr cfg ∧
  len (rlogs cfg') = len (rlogs cfg) ∧
  (∀ j k, applied_at cfg' j k =
          if decide (j = i ∧ k = idx) then Some v else applied_at cfg j k) ∧
  (∀ j old, applied_at cfg j idx = Some old → old = v) ∧
  (1 < idx → is_Some (applied_at cfg i (idx - 1))).
Proof.
  unfold check_apply. intros H.
  destruct (slice_get (rlogs cfg) i) as [lg| |] eqn:Hlg; try done. cbn in H.
  destruct (slice_set (rlogs cfg) i (<[idx:=v]> lg)) as [ls| |] eqn:Hls; try done. cbn in H.
  destruct (existsb _ (rlogs cfg)) eqn:He; [done|].
  destruct ((1 <? idx) && negb (bool_decide (is_Some (lg !! (idx - 1))))) eqn:Hp; [done|].
  injection H as <-. cbn [rafts applyErr rlogs].
  apply slice_set_inv in Hls as [Hb ->]. pose proof (no_clash _ _ _ He) as Hc.
  split_and!; [done|done|by rewrite len_insert| | |].
  - intros j k. unfold applied_at. cbn.
    destruct (decide (j = i)) as [->|Hj].
    + replace (slice_get (<[Z.to_nat i:=<[idx:=v]> lg]> (rlogs cfg)) i)
        with (Ok (<[idx:=v]> lg)).
      2:{ symmetry. apply slice_get_Ok. split; [lia|]. apply list_lookup_insert_eq.
          unfold len in Hb. lia. }
      rewrite Hlg. destruct (decide (k = idx)) as [->|Hk].
      * by rewrite lookup_insert_eq, decide_True.
      * by rewrite lookup_insert_ne, decide_False by naive_solver.
    + rewrite (decide_False (P := j = i ∧ k = idx)) by naive_solver.
      unfold slice_get. case_decide; [|done].
      by rewrite list_lookup_insert_ne by lia.
  - intros j old. unfold applied_at. destruct (slice_get (rlogs cfg) j) eqn:Hj; [|done..].
    intros Hold. by eapply Hc.
  - intros Hi. unfold applied_at. rewrite Hlg.
    destruct (Z.ltb_spec 1 idx); [|lia]. cbn in Hp.
    destruct (bool_decide_reflect (is_Some (lg !! (idx - 1)))); [done|done].
Qed.

Lemma read_consistent cfg msgs cfg' :
  fresh cfg → read_all cfg msgs = Ok cfg' →
  consistent cfg' msgs ∧ rafts cfg' = rafts cfg ∧ applyErr cfg' = applyErr cfg ∧
  len (rlogs cfg') = len (rlogs cfg).
Proof.
  intros [Hnone _]. unfold read_all. revert cfg'.
  induction msgs as [|[[i idx] v] msgs IH] using rev_ind; intros cfg'.
  { intros [= <-]. split; [|done]. constructor.
    - intros i idx v. rewrite Hnone. split; [done|by intros ?%elem_of_nil].
    - intros i j idx v v'. by rewrite Hnone.
    - intros i idx k []. rewrite Hnone in *. done. }
  intros (cfg1 & H1 & H2)%foldM_snoc. cbn in H2.
  destruct (IH cfg1 H1) as ([Hl Ha Hg] & Hr & Her & Hlen).
  apply check_apply_inv in H2 as (Hr2 & He2 & Hlen2 & Hat & Hold & Hprev).
  split; [|by split_and!; congruence]. constructor.
  - intros j k w. rewrite Hat, elem_of_app, list_elem_of_singleton.
    destruct (decide (j = i ∧ k = idx)) as [[-> ->]|Hne].
    + split; [intros [= ->]; by right|]. intros [Hin|[= ->]]; [|done].
      apply Hl in Hin. by apply Hold in Hin as ->.
    + rewrite Hl. naive_solver.
  - intros j j' k w w'. rewrite !Hat.
    repeat case_decide; intros Hw Hw'; simplify_eq; try done; destruct_and?; subst.
    + symmetry. by eapply Hold.
    + by eapply Hold.
    + by eapply Ha.
  - intros j k m. rewrite !Hat. intros Hs Hm.
    destruct (decide (j = i ∧ m = idx)) as [|Hne]; [by eexists|].
    destruct (decide (j = i ∧ k = idx)) as [[-> ->]|Hne2]; [|by eapply Hg].
    apply (Hg i (idx - 1)); [apply Hprev; lia|].
    assert (m ≠ idx) by naive_solver. lia.
Qed.

(** The count of nCommitted, when all copies of an entry agree. *)
Lemma count_loop cfg index v0 l c m :
  (∀ i, i ∈ l → slice_get (applyErr cfg) i = Ok "") →
  (∀ i, i ∈ l → is_ok (slice_get (rlogs cfg) i)) →
  (∀ i v, applied_at cfg i index = Some v → v = v0) → (0 < c → m = v0) → 0 ≤ c →
  let k := len (filter (λ i, is_Some (applied_at cfg i index)) l) in
  foldM (count_committed cfg index) (c, m) l = Ok (c + k, if 0 <? k then v0 else m).
Proof.
  cbn. intros He Hl Hv. revert c m.
  induction l as [|i l IH]; intros c m Hm Hc; [cbn; by rewrite Z.add_0_r|].
  specialize (IH (λ j Hj, He j (list_elem_of_further _ _ _ Hj))
                 (λ j Hj, Hl j (list_elem_of_further _ _ _ Hj))).
  destruct (Hl i) as [lg Hlg]; [by left|].
  assert (Hone : count_committed cfg index (c, m) i = match lg !! index with
    | Some cmd1 => if (0 <? c) && negb (m =? cmd1) then Fatal else Ok (c + 1, cmd1)
    | None => Ok (c, m) end).
  { unfold count_committed. rewrite He by (by left). cbn. by rewrite Hlg. }
  cbn [foldM]. rewrite Hone. clear Hone.
  pose proof (Hv i) as Hvi. unfold applied_at in Hvi. rewrite Hlg in Hvi.
  destruct (lg !! index) as [v|] eqn:Hi; cbn [mbind res_bind].
  - rewrite (Hvi v) by done.
    replace ((0 <? c) && negb (m =? v0)) with false.
    2:{ destruct (Z.ltb_spec 0 c); [|done]. rewrite Hm by lia. by rewrite Z.eqb_refl. }
    cbn [mbind res_bind]. rewrite IH by (done || lia).
    rewrite filter_cons_True by (unfold applied_at; rewrite Hlg; by eexists).
    pose proof (len_nonneg (filter (λ i, is_Some (applied_at cfg i index)) l)).
    assert (Hlen : ∀ (x : Z) xs, len (x :: xs) = len xs + 1) by (intros; unfold len; cbn; lia).
    rewrite Hlen. do 2 f_equal; [lia|].
    destruct (Z.ltb_spec 0 (len (filter (λ i, is_Some (applied_at cfg i index)) l)));
      destruct (Z.ltb_spec 0 (len (filter (λ i, is_Some (applied_at cfg i index)) l) + 1));
      done || lia.
  - rewrite filter_cons_False by (unfold applied_at; rewrite Hlg, Hi; by intros []).
    by apply IH.
Qed.

(** C29. The tester's oracle is sound: if the readers of the apply channels, from
    fresh logs, take the messages [msgs] of all peers in whatever interleaving
    without ending the test, then no two peers applied different commands at an
    index and no peer skipped one; and nCommitted then never fails, and returns
    the number of peers that applied the index and the command they applied. *)
Theorem apply_check_sound cfg msgs cfg' :
  fresh cfg → read_all cfg msgs = Ok cfg' →
  (∀ i j idx v v', (i, idx, v) ∈ msgs → (j, idx, v') ∈ msgs → v = v') ∧
  (∀ i idx v k, (i, idx, v) ∈ msgs → 1 ≤ k ≤ idx → ∃ v', (i, k, v') ∈ msgs) ∧
  ∀ index, ∃ count cmd, nCommitted cfg' index = Ok (count, cmd) ∧
    count = len (filter (λ i, is_Some (applied_at cfg' i index)) (range 0 (len (rafts cfg)))) ∧
    (0 < count → ∃ i, (i, index, cmd) ∈ msgs) ∧
    ∀ i v, (i, index, v) ∈ msgs → v = cmd.
Proof.
  intros Hf Hrun. destruct (read_consistent _ _ _ Hf Hrun) as ([Hl Ha Hg] & Hr & He & Hlen).
  split; [intros i j idx v v' H1%Hl H2%Hl; by eapply Ha|].
  split.
  { intros i idx v k H1%Hl Hk. destruct (Hg i idx k) as [v' Hv']; [by eexists|done|].
    exists v'. by apply Hl. }
  intros index. destruct Hf as (_ & Hfl & Hfe).
  set (P := λ i, is_Some (applied_at cfg' i index)).
  assert (Hv0 : ∃ v0, ∀ i v, applied_at cfg' i index = Some v → v = v0).
  { destruct (decide (Exists P (range 0 (len (rafts cfg))))) as [He0|Hno].
    - apply Exists_exists in He0 as (i & _ & v0 & Hi). exists v0. intros j v Hj. by eapply Ha.
    - exists (-1). intros i v Hi. destruct Hno. apply Exists_exists. exists i. split; [|by eexists].
      apply elem_of_range. unfold applied_at in Hi.
      destruct (slice_get (rlogs cfg') i) eqn:Hg'; try done.
      apply slice_get_bounds in Hg'. lia. }
  destruct Hv0 as [v0 Hv0]. unfold nCommitted. rewrite Hr.
  rewrite (count_loop cfg' index v0); [|..|done|lia|lia].
  - eexists _, _. split; [done|]. split; [done|]. fold P. rewrite Z.add_0_l.
    assert (Hin : ∀ i v, applied_at cfg' i index = Some v →
      0 < len (filter P (range 0 (len (rafts cfg))))).
    { intros i v Hi. assert (Hf : i ∈ filter P (range 0 (len (rafts cfg)))).
      { apply list_elem_of_filter. split; [by eexists|]. apply elem_of_range.
        unfold applied_at in Hi. destruct (slice_get (rlogs cfg') i) eqn:Hg'; try done.
        apply slice_get_bounds in Hg'. lia. }
      destruct (filter P _); [by apply elem_of_nil in Hf|]. unfold len. cbn. lia. }
    split.
    + intros Hc. destruct (Z.ltb_spec 0 (len (filter P (range 0 (len (rafts cfg)))))); [|lia].
      destruct (filter P (range 0 (len (rafts cfg)))) as [|i l] eqn:Hfl'; [done|].
      assert (Hi : i ∈ filter P (range 0 (len (rafts cfg)))) by (rewrite Hfl'; by left).
      apply list_elem_of_filter in Hi as [[v Hi] _]. exists i. apply Hl.
      by rewrite Hi, (Hv0 i v Hi).
    + intros i v Hi%Hl. pose proof (Hin i v Hi). zcase; [|lia]. by eapply Hv0.
  - intros i [H0 Hi]%elem_of_range. rewrite He, Hfe. apply slice_get_Ok. split; [lia|].
    apply lookup_replicate. split; [done|]. unfold len in Hi. lia.
  - intros i [H0 Hi]%elem_of_range. apply slice_get_is_Ok. lia.
Qed.

(** ** one() *)

Section one.
Variables (seen : nat → nat → rconfig B) (start : nat → nat → Z → Z * Z * bool).
Variables (obs : nat → rconfig B) (clock : nat → Z) (n cmd expected : Z).

(** A started, connected peer took the command at [index] in pass [r]. *)
Definition taken (r : nat) (index : Z) : Prop :=
  ∃ k i t, start r k i = (index, t, true) ∧
    slice_get (connected (seen r k)) i = Ok true ∧ slice_get (rafts (seen r k)) i = Ok true.

Lemma submit_taken r starts tries k index starts' :
  submit (seen r) (start r) n starts tries k = Ok (index, starts') → index ≠ -1 → taken r index.
Proof.
  revert starts k. induction tries as [|tries IH]; intros starts k H Hi; cbn in H.
  { by injection H as <- <-. }
  mbind_inv H. mbind_inv H. destruct a0; [|by eapply IH].
  destruct a; [|by injection E0 as ?].
  destruct (start r k _) as [[index1 t] ok] eqn:Hs. destruct ok; [|by eapply IH].
  injection H as <- <-. by exists k, (Z.rem (starts + 1) n), t.
Qed.

Lemma await_found index t1 fuel r r' :
  await obs clock cmd expected index t1 fuel r = Ok (Some (true, r')) →
  ∃ nd, nCommitted (obs r') index = Ok (nd, cmd) ∧ 0 < nd ∧ expected ≤ nd ∧ (r ≤ r')%nat.
Proof.
  revert r. induction fuel as [|fuel IH]; intros r H; cbn in H; [done|].
  zcase; [|done]. mbind_inv H. destruct a as [nd cmd1]. destruct (_ && _) eqn:Hg.
  - injection H as <-. apply andb_prop in Hg as [[?%Z.ltb_lt ?%Z.leb_le]%andb_prop ->%Z.eqb_eq].
    exists nd. split_and!; done || lia.
  - apply IH in H as (nd' & ? & ? & ? & ?). exists nd'. split_and!; done || lia.
Qed.

Lemma one_loop_found t0 fuel starts r index :
  one_loop seen start obs clock n cmd expected t0 starts fuel r = Ok (Some index) →
  ∃ r1 r2 nd, (r1 ≤ r2)%nat ∧ taken r1 index ∧ nCommitted (obs r2) index = Ok (nd, cmd) ∧
    0 < nd ∧ expected ≤ nd.
Proof.
  revert starts r. induction fuel as [|fuel IH]; intros starts r H; cbn [one_loop] in H; [done|].
  destruct (clock r - t0 <? 10000); [|done].
  mbind_inv H. destruct a as [index1 starts']. destruct (index1 =? -1) eqn:Hi; cbn [negb] in H.
  { by eapply IH. }
  apply Z.eqb_neq in Hi. mbind_inv H. destruct a as [[[] r']|]; [|by eapply IH|done].
  injection H as <-. apply await_found in E0 as (nd & ? & ? & ? & ?).
  exists r, r', nd. split_and!; try done. by eapply submit_taken.
Qed.

Hypothesis sleeps : ∀ r, clock r + 20 ≤ clock (S r).

(** The inner loop sleeps at least once and never runs out of fuel. *)
Lemma await_enough index t1 fuel r :
  2000 - (clock r - t1) ≤ 20 * (Z.of_nat fuel - 1) → (0 < fuel)%nat →
  ∀ a, await obs clock cmd expected index t1 fuel r = Ok a →
  ∃ b r', a = Some (b, r') ∧ (r ≤ r')%nat ∧ (b = false → 2000 ≤ clock r' - t1).
Proof.
  revert r. induction fuel as [|fuel IH]; intros r Hf Hpos a H; cbn [await] in H; [lia|].
  destruct (Z.ltb_spec (clock r - t1) 2000).
  - assert (Hpos' : (0 < fuel)%nat) by lia. mbind_inv H. destruct a0 as [nd cmd1]. destruct (_ && _).
    { injection H as <-. exists true, r. by split. }
    apply IH in H as (b & r' & -> & ? & ?); [|specialize (sleeps r); lia|done].
    exists b, r'. split_and!; done || lia.
  - injection H as <-. exists false, r. by split.
Qed.

Lemma one_loop_enough t0 fuel starts r :
  10000 - (clock r - t0) ≤ 20 * (Z.of_nat fuel - 1) → (0 < fuel)%nat →
  one_loop seen start obs clock n cmd expected t0 starts fuel r ≠ Ok None.
Proof.
  revert starts r. induction fuel as [|fuel IH]; intros starts r Hf Hpos H; [lia|].
  cbn [one_loop] in H. destruct (Z.ltb_spec (clock r - t0) 10000); [|done].
  assert (Hpos' : (0 < fuel)%nat) by lia.
  mbind_inv H. destruct a as [index starts']. destruct (negb _).
  - mbind_inv H. apply await_enough in E0 as (b & r' & -> & Hr & Hb); [|lia..].
    destruct b; [done|]. specialize (Hb eq_refl). revert H. apply IH; [|done]. lia.
  - revert H. apply IH; [|done]. specialize (sleeps r). lia.
Qed.
End one.

(** C30. The tester's agreement: if every sleep takes its 20 ms, one() ends (it
    never exhausts the 500 looks that fit into ten seconds: it returns, fails the
    test or panics); and an index it returns was assigned to the command by a
    connected, running peer that claimed to lead, and later at least the expected
    number of peers, and at least one, had applied the command there. *)
Theorem one_agrees (seen : nat → nat → rconfig B) start obs (clock : nat → Z) n cmd expected :
  (∀ r, clock r + 20 ≤ clock (S r)) →
  one seen start obs clock n cmd expected ≠ Ok None ∧
  ∀ index, one seen start obs clock n cmd expected = Ok (Some index) →
    ∃ r1 r2 nd, (r1 ≤ r2)%nat ∧ taken seen start r1 index ∧
      nCommitted (obs r2) index = Ok (nd, cmd) ∧ 0 < nd ∧ expected ≤ nd.
Proof.
  intros Hs. split.
  - apply one_loop_enough; [done| |]; lia.
  - intros index. apply one_loop_found.
Qed.
End checks.
End HarnessChecks.
