(* ===== verification/ShardHarness.v ===== *)
(** * ShardHarness: the test configuration of the sharded store

    Models src/src/shardkv/config.go: three replicas of the shard master, groups
    of key/value servers with end points to each other and to the masters, and
    their shutdown and restart around the persisters; with the constructors of
    the two servers (src/src/shardkv/server.go, src/src/shardmaster/server.go),
    whose handlers are unwritten exercises.

    The network is that of Labrpc.v, named by strings.  Random strings are
    supplied by functions of their position; the clock and the random numbers
    [Make] reads are arguments of the constructors. *)
From S2P Require Import Prelude Persister Labrpc Raft Harness Clerks.

Module ShardHarness.

Notation Net := (@Labrpc.Network string _ _).
Notation Rows := (Harness.Rows).

(** ** The servers *)

Section servers.
Context {Cmd : Type}.

(** [masters] are the end points to the shard master; [make_end] is kept by the
    caller. *)
(*@ src/src/shardkv/server.go 18-29 ShardKV *)
Record ShardKV := mkShardKV {
  skv_me : Z;
  skv_rf : Raft.Raft Cmd;
  skv_gid : Z;
  skv_masters : list string;
  skv_maxraftstate : Z;
}.
#[export] Instance eta_shardkv : Eta ShardKV := λ k,
  mkShardKV (skv_me k) (skv_rf k) (skv_gid k) (skv_masters k) (skv_maxraftstate k).

(*@ src/src/shardkv/server.go 46-49 ShardKV.Kill *)
Definition skv_Kill (kv : ShardKV) : ShardKV := kv <| skv_rf := Raft.Kill (skv_rf kv) |>.

(** [boot]: the two random numbers and the clock [Make] reads. *)
(*@ src/src/shardkv/server.go 80-102 StartServer *)
Definition skv_StartServer (servers : list string) (i : Z)
    (persister : Persister.Persister (Raft.GobVal Cmd)) (maxraftstate gid : Z)
    (masters : list string) (boot : Z * Z * Z) : ShardKV :=
  let '(r1, r2, now) := boot in
  mkShardKV i (Raft.Make (len servers) i persister r1 r2 now) gid masters maxraftstate.

(*@ src/src/shardmaster/server.go 10-19 ShardMaster *)
Record ShardMaster := mkShardMaster {
  sm_me : Z;
  sm_rf : Raft.Raft Cmd;
  sm_configs : list Clerks.Config;
}.
#[export] Instance eta_shardmaster : Eta ShardMaster := λ m,
  mkShardMaster (sm_me m) (sm_rf m) (sm_configs m).

(*@ src/src/shardmaster/server.go 50-53 ShardMaster.Kill *)
Definition sm_Kill (sm : ShardMaster) : ShardMaster := sm <| sm_rf := Raft.Kill (sm_rf sm) |>.

(*@ src/src/shardmaster/server.go 56-58 ShardMaster.Raft *)
Definition sm_Raft (sm : ShardMaster) : Raft.Raft Cmd := sm_rf sm.

(** One configuration, number 0: every shard belongs to the invalid group 0. *)
(*@ src/src/shardmaster/server.go 66-80 StartServer *)
Definition sm_StartServer (servers : list string) (i : Z)
    (persister : Persister.Persister (Raft.GobVal Cmd)) (boot : Z * Z * Z) : ShardMaster :=
  let '(r1, r2, now) := boot in
  mkShardMaster i (Raft.Make (len servers) i persister r1 r2 now)
    [Clerks.mkConfig 0 (replicate (Z.to_nat Clerks.NShards) 0) ∅].
End servers.
Arguments ShardKV : clear implicits.
Arguments ShardMaster : clear implicits.

(** ** The configuration *)

Section config.
Context {Cmd : Type}.
#[local] Notation Persister := (Persister.Persister (Raft.GobVal Cmd)).

(** [group] and [config] are structures behind pointers; a nil pointer is [None]. *)
(*@ src/src/shardkv/config.go 35-41 group *)
Record group := mkGroup {
  gid : Z;
  servers : list (option (ShardKV Cmd));
  saved : list (option Persister);
  endnames : Rows;
  mendnames : Rows;
}.
#[export] Instance eta_group : Eta group := λ g,
  mkGroup (gid g) (servers g) (saved g) (endnames g) (mendnames g).

(** A clerk of the shard master is its list of end points. *)
(*@ src/src/shardkv/config.go 43-59 config *)
Record config := mkConfig {
  net : Net;
  nmasters : Z;
  masterservers : list (option (ShardMaster Cmd));
  mck : list string;
  ngroups : Z;
  n : Z;
  groups : list (option group);
  clerks : gmap Z (list string);     (* by clerk pointer *)
  nextClientId : Z;
  maxraftstate : Z;
}.
#[export] Instance eta_config : Eta config := λ c,
  mkConfig (net c) (nmasters c) (masterservers c) (mck c) (ngroups c) (n c) (groups c)
    (clerks c) (nextClientId c) (maxraftstate c).

(** Read and replace what the pointer [cfg.groups[gi]] refers to. *)
Definition get_group (cfg : config) (gi : Z) : res group :=
  g ← slice_get (groups cfg) gi;
  match g with Some g => mret g | None => Panic end.

Definition put_group (cfg : config) (gi : Z) (g : group) : res config :=
  gs ← slice_set (groups cfg) gi (Some g);
  mret (cfg <| groups := gs |>).

(*@ src/src/shardkv/config.go 85-87 config.mastername *)
Definition mastername (i : Z) : string := "master" +:+ Itoa i.

(*@ src/src/shardkv/config.go 91-93 config.servername *)
Definition servername (gid i : Z) : string := "server-" +:+ Itoa gid +:+ "-" +:+ Itoa i.

(** MakeEnd, Connect and Enable: an end point called [name] for server [srv]. *)
(*@ src/src/shardkv/config.go 109-115 config.makeClient (make_end) *)
Definition make_end (nt : Net) (name srv : string) : res Net :=
  nt ← Labrpc.MakeEnd nt name;
  mret (Labrpc.Enable (Labrpc.Connect nt name srv) name true).

(** The loops that make one end point per server: [rnd j] is the [j]-th random
    string, [target j] the [j]-th server. *)
Definition make_ends (nt : Net) (rnd target : Z → string) (k : Z) : res Net :=
  foldM (λ nt j, make_end nt (rnd j) (target j)) nt (range 0 k).

(** [make([]string, k)] filled with random strings. *)
Definition fresh_names (rnd : Z → string) (k : Z) : list string := rnd <$> range 0 k.

(** [checklogs]: the first fatal complaint ends the process. *)
(*@ src/src/shardkv/config.go 71-79 config.checklogs (loop body) *)
Definition checklog (cfg : config) (gi i : Z) : res unit :=
  gg ← get_group cfg gi;
  ps ← slice_get (saved gg) i;
  match ps with
  | None => Panic
  | Some ps =>
      let raft := Persister.RaftStateSize ps in
      let snap := len (Persister.ReadSnapshot ps) in
      if (0 <=? maxraftstate cfg) && (2 * maxraftstate cfg <? raft) then Fatal
      else if (maxraftstate cfg <? 0) && (0 <? snap) then Fatal
      else mret tt
  end.

(*@ src/src/shardkv/config.go 68-82 config.checklogs *)
Definition checklogs (cfg : config) : res unit :=
  foldM (λ _ gi, foldM (λ _ i, checklog cfg gi i) tt (range 0 (n cfg)))
    tt (range 0 (ngroups cfg)).

(** [ck] is the pointer of the new clerk.  The slice of names has [cfg.n]
    elements, the loop runs over the masters. *)
(*@ src/src/shardkv/config.go 95-119 config.makeClient *)
Definition makeClient (cfg : config) (ck : Z) (rnd : Z → string) : res config :=
  '(nt, names) ← foldM (λ '(nt, names) j,
      names ← slice_set names j (rnd j);
      nt ← make_end nt (rnd j) (mastername j);
      mret (nt, names))
    (net cfg, replicate (Z.to_nat (n cfg)) ""%string) (range 0 (nmasters cfg));
  mret (cfg <| net := nt |> <| clerks := <[ck:=names]> (clerks cfg) |>
            <| nextClientId := nextClientId cfg + 1 |>).

(** It also removes files called like the end points. *)
(*@ src/src/shardkv/config.go 121-130 config.deleteClient *)
Definition deleteClient (cfg : config) (ck : Z) : config :=
  cfg <| clerks := delete ck (clerks cfg) |>.

(*@ src/src/shardkv/config.go 140-147 config.ShutdownServer (disable) *)
Definition silence (gg : group) (i : Z) (nt : Net) : res Net :=
  nt ← foldM (λ nt j, name ← Harness.endname_at (endnames gg) i j;
                      mret (Labrpc.Enable nt name false)) nt (range 0 (len (servers gg)));
  mrow ← slice_get (mendnames gg) i;
  mret (foldl (λ nt name, Labrpc.Enable nt name false) nt (default [] mrow)).

(** The old server is killed; nothing in the configuration refers to it after. *)
(*@ src/src/shardkv/config.go 133-172 config.ShutdownServer *)
Definition ShutdownServer (cfg : config) (gi i : Z) : res config :=
  gg ← get_group cfg gi;
  nt ← silence gg i (net cfg);
  let nt := Labrpc.DeleteServer nt (servername (gid gg) i) in
  old ← slice_get (saved gg) i;
  sv ← (match old with Some ps => slice_set (saved gg) i (Some (Persister.Copy ps))
                     | None => mret (saved gg) end);
  kv ← slice_get (servers gg) i;
  ks ← (match kv with Some _ => slice_set (servers gg) i None | None => mret (servers gg) end);
  put_group (cfg <| net := nt |>) gi (gg <| saved := sv |> <| servers := ks |>).

(*@ src/src/shardkv/config.go 174-178 config.ShutdownGroup *)
Definition ShutdownGroup (cfg : config) (gi : Z) : res config :=
  foldM (λ cfg i, ShutdownServer cfg gi i) cfg (range 0 (n cfg)).

(*@ src/src/shardkv/config.go 61-65 config.cleanup *)
Definition cleanup (cfg : config) : res config :=
  foldM ShutdownGroup cfg (range 0 (ngroups cfg)).

(** [rnd] and [mrnd] are the random strings for the group and for the masters,
    [boot] what [Make] reads, [srv] the pointer of the new labrpc server. *)
(*@ src/src/shardkv/config.go 181-239 config.StartServer *)
Definition StartServer (cfg : config) (gi i : Z) (rnd mrnd : Z → string)
    (boot : Z * Z * Z) (srv : nat) : res config :=
  gg ← get_group cfg gi;
  let ends := fresh_names rnd (n cfg) in
  rows ← slice_set (endnames gg) i (Some ends);
  nt ← make_ends (net cfg) rnd (servername (gid gg)) (n cfg);
  let mends := fresh_names mrnd (nmasters cfg) in
  mrows ← slice_set (mendnames gg) i (Some mends);
  nt ← make_ends nt mrnd mastername (nmasters cfg);
  old ← slice_get (saved gg) i;
  let ps := match old with Some ps => Persister.Copy ps | None => Persister.MakePersister end in
  sv ← slice_set (saved gg) i (Some ps);
  let kv := skv_StartServer ends i ps (maxraftstate cfg) (gid gg) mends boot in
  ks ← slice_set (servers gg) i (Some kv);
  let nt := Labrpc.AddServer nt (servername (gid gg) i) srv in
  put_group (cfg <| net := nt |>) gi
    (gg <| endnames := rows |> <| mendnames := mrows |> <| saved := sv |> <| servers := ks |>).

(** The end points a run creates: [j]-th of server [i] in group [gi] to its group
    and to the masters, [j]-th of master [i], [j]-th of the masters' clerk. *)
Inductive Tag :=
| TEnd (gi i j : Z) | TMend (gi i j : Z) | TMaster (i j : Z) | TClerk (j : Z).

(** The randomness of a run: the name of every end point, what the constructors
    read, and the addresses of the labrpc servers. *)
Record Random := mkRandom {
  rnd_name : Tag → string;
  rnd_boot : Z → Z → Z * Z * Z;
  rnd_srv : Z → Z → nat;
}.

(** A started server and [cfg.saved] hold the same persister: when the server's
    raft has become [rf], that persister holds what [rf]'s does. *)
Definition run_server (cfg : config) (gi i : Z) (rf : Raft.Raft Cmd) : res config :=
  gg ← get_group cfg gi;
  kv ← slice_get (servers gg) i;
  match kv with
  | None => Panic
  | Some kv =>
      ks ← slice_set (servers gg) i (Some (kv <| skv_rf := rf |>));
      sv ← slice_set (saved gg) i (Some (Raft.persister rf));
      put_group cfg gi (gg <| servers := ks |> <| saved := sv |>)
  end.

(** [StartServer(gi, i)] with the randomness [rs]. *)
Definition start_random (rs : Random) (cfg : config) (gi i : Z) : res config :=
  StartServer cfg gi i (λ j, rnd_name rs (TEnd gi i j)) (λ j, rnd_name rs (TMend gi i j))
    (rnd_boot rs gi i) (rnd_srv rs gi i).

(*@ src/src/shardkv/config.go 241-245 config.StartGroup *)
Definition StartGroup (rs : Random) (cfg : config) (gi : Z) : res config :=
  foldM (λ cfg i, start_random rs cfg gi i) cfg (range 0 (n cfg)).

(*@ src/src/shardkv/config.go 247-267 config.StartMasterServer *)
Definition StartMasterServer (cfg : config) (i : Z) (rnd : Z → string) (boot : Z * Z * Z)
    (srv : nat) : res config :=
  nt ← make_ends (net cfg) rnd mastername (nmasters cfg);
  let ends := fresh_names rnd (nmasters cfg) in
  ms ← slice_set (masterservers cfg) i (Some (sm_StartServer ends i Persister.MakePersister boot));
  mret (cfg <| masterservers := ms |> <| net := Labrpc.AddServer nt (mastername i) srv |>).

(*@ src/src/shardkv/config.go 269-280 config.shardclerk *)
Definition shardclerk (cfg : config) (rnd : Z → string) : res (config * list string) :=
  nt ← make_ends (net cfg) rnd mastername (nmasters cfg);
  mret (cfg <| net := nt |>, fresh_names rnd (nmasters cfg)).

(** The argument of Join: the server names of every group; a later group of the
    same gid replaces an earlier one. *)
(*@ src/src/shardkv/config.go 288-296 config.joinm (groups) *)
Definition join_groups (cfg : config) (gis : list Z) : res (gmap Z (list string)) :=
  foldM (λ m g, gg ← get_group cfg g;
                mret (<[gid gg := servername (gid gg) <$> range 0 (n cfg)]> m)) ∅ gis.

(** [rpc] is what the masters answer; [None] when the clerk is still trying. *)
(*@ src/src/shardkv/config.go 287-298 config.joinm *)
Definition joinm (rpc : nat → string → Clerks.JoinArgs → option Clerks.AckReply) (fuel : nat)
    (cfg : config) (gis : list Z) : res (option unit) :=
  m ← join_groups cfg gis;
  mret (Clerks.Join rpc fuel (mck cfg) m).

(*@ src/src/shardkv/config.go 283-285 config.join *)
Definition join rpc fuel (cfg : config) (gi : Z) : res (option unit) := joinm rpc fuel cfg [gi].

(*@ src/src/shardkv/config.go 305-311 config.leavem *)
Definition leavem (rpc : nat → string → Clerks.LeaveArgs → option Clerks.AckReply) (fuel : nat)
    (cfg : config) (gis : list Z) : res (option unit) :=
  gids ← mapM (λ g, gg ← get_group cfg g; mret (gid gg)) gis;
  mret (Clerks.Leave rpc fuel (mck cfg) gids).

(*@ src/src/shardkv/config.go 301-303 config.leave *)
Definition leave rpc fuel (cfg : config) (gi : Z) : res (option unit) := leavem rpc fuel cfg [gi].

(** A group without servers.  [endnames] gets a row per server of the group,
    [mendnames] a row per shard master. *)
(*@ src/src/shardkv/config.go 332-338 make_config (group) *)
Definition new_group (cfg : config) (gi : Z) : group :=
  let k := Z.to_nat (n cfg) in
  mkGroup (100 + gi) (replicate k None) (replicate k None) (replicate k None)
    (replicate (Z.to_nat (nmasters cfg)) None).

(*@ src/src/shardkv/config.go 331-342 make_config (groups) *)
Definition make_group (rs : Random) (cfg : config) (gi : Z) : res config :=
  if n cfg <? 0 then Panic
  else cfg ← put_group cfg gi (new_group cfg gi); StartGroup rs cfg gi.

(** Three masters and their clerk. *)
(*@ src/src/shardkv/config.go 315-326 make_config (masters) *)
Definition make_masters (rs : Random) (maxstate : Z) : res config :=
  let cfg := mkConfig Labrpc.MakeNetwork 3 (replicate 3 None) [] 0 0 [] ∅ 0 maxstate in
  cfg ← foldM (λ cfg i, StartMasterServer cfg i (λ j, rnd_name rs (TMaster i j))
                          (rnd_boot rs (-1) i) (rnd_srv rs (-1) i)) cfg (range 0 (nmasters cfg));
  '(cfg, ck) ← shardclerk cfg (λ j, rnd_name rs (TClerk j));
  mret (cfg <| mck := ck |>).

(*@ src/src/shardkv/config.go 313-350 make_config *)
Definition make_config (rs : Random) (nservers : Z) (unreliable : bool) (maxstate : Z) :
    res config :=
  cfg ← make_masters rs maxstate;
  let cfg := cfg <| ngroups := 3 |> <| groups := replicate 3 None |> <| n := nservers |> in
  cfg ← foldM (make_group rs) cfg (range 0 (ngroups cfg));
  mret (cfg <| clerks := ∅ |> <| nextClientId := n cfg + 1000 |>
            <| net := Labrpc.Reliable (net cfg) (negb unreliable) |>).
End config.
Arguments group : clear implicits.
Arguments config : clear implicits.
End ShardHarness.
