(* ===== verification/ShardHarnessProps.v ===== *)
(** * ShardHarnessProps: the wiring of the sharded store's test clusters

    The invariant of a configuration: every end point a server was given exists,
    leads to the server it was made for, and is enabled exactly while its owner
    runs; the network knows exactly the running servers.  Every operation that
    returns preserves it.  Then: what shutdown and restart do, and the group
    sizes for which the configuration can be built at all. *)
From S2P Require Import Prelude Persister Labrpc Raft RaftInv Harness HarnessProps Clerks ShardHarness.
Export ShardHarness.

Module ShardHarnessProps.
Import HarnessProps.

(** ** End points *)

(** What was there stays as it was. *)
Record keeps (nt nt' : Net) : Prop := mkKeeps {
  kp_ends x : x ∈ Labrpc.ends nt → x ∈ Labrpc.ends nt';
  kp_conn x : x ∈ Labrpc.ends nt → Labrpc.connections nt' !! x = Labrpc.connections nt !! x;
  kp_enab x : x ∈ Labrpc.ends nt → Labrpc.enabled nt' !! x = Labrpc.enabled nt !! x;
}.

#[export] Instance keeps_preorder : PreOrder keeps.
Proof.
  split; [by constructor|]. intros a b c [E1 C1 B1] [E2 C2 B2].
  constructor; intros x Hx; [auto|by rewrite C2, C1 by auto|by rewrite B2, B1 by auto].
Qed.

(** An end point made, connected to [srv] and enabled. *)
Record ready (nt : Net) (x srv : string) : Prop := mkReady {
  rd_end : x ∈ Labrpc.ends nt;
  rd_conn : Labrpc.connections nt !! x = Some (Some srv);
  rd_enab : Labrpc.enabled nt !! x = Some true;
}.

Lemma ready_keeps nt nt' x srv : keeps nt nt' → ready nt x srv → ready nt' x srv.
Proof. intros HK [He ? ?]. constructor; [by apply HK|by rewrite (kp_conn _ _ HK)|by rewrite (kp_enab _ _ HK)]. Qed.

Lemma make_end_Ok nt x srv : x ∉ Labrpc.ends nt → ∃ nt', make_end nt x srv = Ok nt'.
Proof. intros Hx. unfold make_end, Labrpc.MakeEnd. rewrite decide_False by done. by eexists. Qed.

Lemma make_end_inv nt x srv nt' :
  make_end nt x srv = Ok nt' →
  x ∉ Labrpc.ends nt ∧ keeps nt nt' ∧ ready nt' x srv ∧
  Labrpc.servers nt' = Labrpc.servers nt ∧ Labrpc.ends nt' = {[x]} ∪ Labrpc.ends nt.
Proof.
  unfold make_end, Labrpc.MakeEnd. case_decide as Hx; [done|]. intros [= <-].
  split; [done|]. split; [|split; [|done]].
  - constructor; cbn; intros y Hy; [set_solver|..];
      (assert (x ≠ y) by congruence); by rewrite !lookup_insert_ne.
  - constructor; cbn; [set_solver|..]; by rewrite !lookup_insert_eq.
Qed.

Lemma make_ends_snoc nt rnd target (k : nat) :
  make_ends nt rnd target (Z.of_nat (S k)) =
  make_ends nt rnd target (Z.of_nat k) ≫= λ nt, make_end nt (rnd (Z.of_nat k)) (target (Z.of_nat k)).
Proof.
  unfold make_ends. rewrite (range_app 0 (Z.of_nat k)) by lia.
  rewrite (range_one (Z.of_nat k)) by lia. rewrite foldM_app.
  destruct (foldM _ _ _); [|done..]. cbn.
  by destruct (make_end _ _ _).
Qed.

(** Exactly the fresh names of the loop are added. *)
Record made (nt nt' : Net) (rnd target : Z → string) (k : Z) : Prop := mkMade {
  md_fresh j : 0 ≤ j < k → rnd j ∉ Labrpc.ends nt;
  md_ready j : 0 ≤ j < k → ready nt' (rnd j) (target j);
  md_inj i j : 0 ≤ i < k → 0 ≤ j < k → rnd i = rnd j → i = j;
  md_keeps : keeps nt nt';
  md_servers : Labrpc.servers nt' = Labrpc.servers nt;
  md_ends x : x ∈ Labrpc.ends nt' → x ∈ Labrpc.ends nt ∨ ∃ j, 0 ≤ j < k ∧ x = rnd j;
}.

Lemma make_ends_made_nat nt rnd target (k : nat) nt' :
  make_ends nt rnd target (Z.of_nat k) = Ok nt' → made nt nt' rnd target (Z.of_nat k).
Proof.
  revert nt'. induction k as [|k IH]; intros nt' H.
  { injection H as <-. constructor; try lia; try done. by left. }
  rewrite make_ends_snoc in H. mbind_inv H. specialize (IH _ eq_refl).
  destruct IH as [Hf Hr Hi Hk Hs He].
  apply make_end_inv in H as (Hx & HK & HR & HS & HE).
  assert (Hlt : ∀ j, 0 ≤ j < Z.of_nat (S k) → 0 ≤ j < Z.of_nat k ∨ j = Z.of_nat k) by lia.
  assert (Hne : ∀ j, 0 ≤ j < Z.of_nat k → rnd j ≠ rnd (Z.of_nat k)).
  { intros j Hj Heq. apply Hx. rewrite <- Heq. by apply Hr. }
  constructor.
  - intros j [Hj| ->]%Hlt; [auto|]. intros Hin. by apply Hx, Hk.
  - intros j [Hj| ->]%Hlt; [|done]. eapply ready_keeps; [exact HK|auto].
  - intros i j [Hi'| ->]%Hlt [Hj'| ->]%Hlt Heq; [auto|by destruct (Hne i)|by destruct (Hne j)|done].
  - by etrans.
  - by rewrite HS.
  - intros x. rewrite HE. intros [->%elem_of_singleton|Hin]%elem_of_union.
    + right. exists (Z.of_nat k). split; [lia|done].
    + destruct (He x Hin) as [?|(j & ? & ?)]; [by left|right]. exists j. split; [lia|done].
Qed.

Lemma make_ends_made nt rnd target k nt' :
  make_ends nt rnd target k = Ok nt' → made nt nt' rnd target k.
Proof.
  destruct (Z.le_gt_cases 0 k).
  - rewrite <- (Z2Nat.id k) by done. apply make_ends_made_nat.
  - intros H0. unfold make_ends in H0. rewrite range_empty in H0 by lia. injection H0 as <-.
    constructor; try lia; try done. by left.
Qed.

Lemma make_ends_Ok nt rnd target (k : nat) :
  (∀ j, 0 ≤ j < Z.of_nat k → rnd j ∉ Labrpc.ends nt) →
  (∀ i j, 0 ≤ i < Z.of_nat k → 0 ≤ j < Z.of_nat k → rnd i = rnd j → i = j) →
  ∃ nt', make_ends nt rnd target (Z.of_nat k) = Ok nt'.
Proof.
  induction k as [|k IH]; intros Hf Hi; [by eexists|].
  destruct IH as [nt1 H1]; [intros; apply Hf; lia|intros; apply Hi; done || lia|].
  rewrite make_ends_snoc, H1. cbn. apply make_end_Ok.
  destruct (make_ends_made_nat _ _ _ _ _ H1) as [_ _ _ _ _ He].
  intros [Hin|(j & Hj & Heq)]%He; [apply (Hf (Z.of_nat k)); [lia|done]|].
  apply Hi in Heq; lia.
Qed.

(** ** Disabling end points *)

Definition disable (nt : Net) (x : string) : Net := Labrpc.Enable nt x false.

Lemma foldl_disable nt l :
  (∀ x, Labrpc.enabled (foldl disable nt l) !! x =
        if decide (x ∈ l) then Some false else Labrpc.enabled nt !! x) ∧
  Labrpc.ends (foldl disable nt l) = Labrpc.ends nt ∧
  Labrpc.connections (foldl disable nt l) = Labrpc.connections nt ∧
  Labrpc.servers (foldl disable nt l) = Labrpc.servers nt.
Proof.
  revert nt. induction l as [|y l IH]; intros nt; cbn.
  { split; [|done]. intros x. by rewrite decide_False by (by intros ?%elem_of_nil). }
  destruct (IH (disable nt y)) as (He & -> & -> & ->). split; [|done].
  intros x. rewrite He. cbn. destruct (decide (x ∈ l)) as [Hx|Hx].
  { by rewrite decide_True by (by right). }
  destruct (decide (y = x)) as [->|Hne].
  - rewrite lookup_insert_eq, decide_True by (by left). done.
  - rewrite lookup_insert_ne by done. rewrite decide_False; [done|].
    intros [->|?]%elem_of_cons; done.
Qed.

Lemma disable_loop rows i js nt nt' :
  foldM (λ nt j, name ← Harness.endname_at rows i j;
                         mret (Labrpc.Enable nt name false)) nt js = Ok nt' →
  ∃ l, mapM (Harness.endname_at rows i) js = Ok l ∧ nt' = foldl disable nt l.
Proof.
  revert nt. induction js as [|j js IH]; intros nt H; cbn in H.
  { injection H as <-. by exists []. }
  mbind_inv H. mbind_inv E. injection E as <-. destruct (IH _ H) as (l & Hl & ->).
  exists (a0 :: l). cbn. by rewrite E0; cbn; rewrite Hl.
Qed.

Lemma disable_loop_Ok rows i js nt l :
  mapM (Harness.endname_at rows i) js = Ok l →
  foldM (λ nt j, name ← Harness.endname_at rows i j;
                         mret (Labrpc.Enable nt name false)) nt js = Ok (foldl disable nt l).
Proof.
  revert nt l. induction js as [|j js IH]; intros nt l H; cbn in H; [by injection H as <-|].
  mbind_inv H. mbind_inv H. injection H as <-. cbn. rewrite E. cbn. by apply IH.
Qed.

Lemma mapM_elem {A B} (f : A → res B) js l x :
  mapM f js = Ok l → x ∈ l ↔ ∃ j, j ∈ js ∧ f j = Ok x.
Proof.
  intros Hl%mapM_res_Forall2. split.
  - intros [k Hk]%list_elem_of_lookup.
    destruct (Forall2_lookup_r _ _ _ _ _ Hl Hk) as (j & Hj & ?).
    exists j. split; [by eapply list_elem_of_lookup_2|done].
  - intros (j & [k Hk]%list_elem_of_lookup & Hf).
    destruct (Forall2_lookup_l _ _ _ _ _ Hl Hk) as (y & Hy & Hfy).
    assert (x = y) as -> by congruence. by eapply list_elem_of_lookup_2.
Qed.

(** ** The names of servers *)

Lemma servername_inj g i g' i' :
  0 ≤ g → 0 ≤ g' → servername g i = servername g' i' → g = g' ∧ i = i'.
Proof.
  intros Hg Hg' H. unfold servername in H.
  apply string_app_inj_l in H.
  apply (string_split_inj (Ascii.ascii_of_nat 45)) in H as [?%(inj Itoa) ?%(inj Itoa)];
    [done|by apply Itoa_no_dash..].
Qed.

Lemma mastername_servername k g i : mastername k ≠ servername g i.
Proof. done. Qed.

(** ** The invariant *)

Section wired.
Context {Cmd : Type}.
#[local] Notation group := (ShardHarness.group Cmd).
#[local] Notation config := (ShardHarness.config Cmd).
Implicit Types (gg : group) (cfg : config) (nt : Net).

(** Does server [i] of the group run? *)
Definition up gg (i : Z) : bool :=
  match slice_get (servers gg) i with Ok (Some _) => true | _ => false end.

(** End points to the group ([false]) and to the masters ([true]), by owner and
    position; where they should lead. *)
Definition point gg (b : bool) (i j : Z) (x : string) : Prop :=
  Harness.endname_at (if b then mendnames gg else endnames gg) i j = Ok x.
Definition target gg (b : bool) (j : Z) : string :=
  if b then mastername j else servername (gid gg) j.

(** Is there a server of that name? *)
Definition known nt (x : string) : bool :=
  match Labrpc.servers nt !! x with Some (Some _) => true | _ => false end.

Record group_ok nt (k : Z) gg : Prop := mkGroupOk {
  go_servers : len (servers gg) = k;
  go_saved : len (saved gg) = k;
  go_endnames : len (endnames gg) = k;
  go_point b i j x : point gg b i j x →
    (b = false → 0 ≤ j < k) ∧ x ∈ Labrpc.ends nt ∧
    Labrpc.connections nt !! x = Some (Some (target gg b j)) ∧
    Labrpc.enabled nt !! x = Some (up gg i);
  go_full i : up gg i = true →
    (∀ j, 0 ≤ j < k → ∃ x, point gg false i j x) ∧
    (∃ r, slice_get (mendnames gg) i = Ok (Some r));
  go_shared i kv : slice_get (servers gg) i = Ok (Some kv) →
    slice_get (saved gg) i = Ok (Some (Raft.persister (skv_rf kv)));
}.

Record wired cfg : Prop := mkWired {
  wd_groups gi gg : get_group cfg gi = Ok gg →
    gid gg = 100 + gi ∧ group_ok (net cfg) (n cfg) gg;
  wd_distinct gi gg b i j gi' gg' b' i' j' x :
    get_group cfg gi = Ok gg → point gg b i j x →
    get_group cfg gi' = Ok gg' → point gg' b' i' j' x →
    gi = gi' ∧ b = b' ∧ i = i' ∧ j = j';
  wd_known g i : 0 ≤ g →
    known (net cfg) (servername g i) = true ↔
    ∃ gg, get_group cfg (g - 100) = Ok gg ∧ up gg i = true;
}.

Lemma get_group_put cfg gi g cfg' k :
  put_group cfg gi g = Ok cfg' →
  get_group cfg' k = (if decide (k = gi) then Ok g else get_group cfg k) ∧
  net cfg' = net cfg ∧ n cfg' = n cfg.
Proof.
  unfold put_group. intros H. mbind_inv H. injection H as <-. split; [|done].
  unfold get_group. cbn. rewrite (slice_get_set _ _ _ _ k E). by case_decide.
Qed.

Lemma get_group_nonneg cfg gi gg : get_group cfg gi = Ok gg → 0 ≤ gi.
Proof. unfold get_group. intros H. mbind_inv H. apply slice_get_bounds in E. lia. Qed.

(** Nothing but new end points appears. *)
Lemma group_ok_keeps nt nt' k gg : keeps nt nt' → group_ok nt k gg → group_ok nt' k gg.
Proof.
  intros HK [? ? ? Hp ? ?]. constructor; try done. intros b i j x Hx.
  destruct (Hp _ _ _ _ Hx) as (? & He & ? & ?). split; [done|]. split; [by apply HK|].
  by rewrite (kp_conn _ _ HK), (kp_enab _ _ HK).
Qed.

(** Group [gi] is replaced by [gg']: its end points are old ones at the same
    place, or new. *)
Lemma wired_put cfg nt' gi gg' cfg' :
  wired cfg → put_group (cfg <| net := nt' |>) gi gg' = Ok cfg' →
  gid gg' = 100 + gi → group_ok nt' (n cfg) gg' →
  (∀ k gg, k ≠ gi → get_group cfg k = Ok gg → group_ok nt' (n cfg) gg) →
  (∀ b i j x, point gg' b i j x →
     (∃ gg, get_group cfg gi = Ok gg ∧ point gg b i j x) ∨ x ∉ Labrpc.ends (net cfg)) →
  (∀ b i j b' i' j' x, point gg' b i j x → point gg' b' i' j' x →
     x ∉ Labrpc.ends (net cfg) → b = b' ∧ i = i' ∧ j = j') →
  (∀ i, known nt' (servername (100 + gi) i) = up gg' i) →
  (∀ g i, 0 ≤ g → g ≠ 100 + gi →
     known nt' (servername g i) = known (net cfg) (servername g i)) →
  wired cfg'.
Proof.
  intros [Wg Wd Wk] Hput Hgid Hok Hoth Hold Hnew Hup Hkn.
  assert (Hget : ∀ k, get_group cfg' k = if decide (k = gi) then Ok gg' else get_group cfg k).
  { intros k. by destruct (get_group_put _ _ _ _ k Hput) as (-> & _). }
  destruct (get_group_put _ _ _ _ gi Hput) as (_ & Hnet & Hn). cbn in Hnet, Hn.
  assert (Hused : ∀ k gg b i j x, get_group cfg k = Ok gg → point gg b i j x →
    x ∈ Labrpc.ends (net cfg)).
  { intros k gg b i j x Hk Hx. destruct (Wg _ _ Hk) as [_ Hg]. apply (go_point _ _ _ Hg) in Hx. apply Hx. }
  constructor.
  - intros k gg. rewrite Hget, Hnet, Hn. case_decide as Hk; [intros [= <-]; by subst k|].
    intros Hg. split; [by apply Wg|]. by eapply Hoth.
  - intros k1 g1 b i j k2 g2 b' i' j' x. rewrite !Hget.
    case_decide as H1; case_decide as H2.
    + intros [= <-] Hx [= <-] Hx'. subst k1 k2.
      destruct (Hold _ _ _ _ Hx) as [(gg & Hg & Ho)|Hx0]; [|split; [done|exact (Hnew _ _ _ _ _ _ _ Hx Hx' Hx0)]].
      destruct (Hold _ _ _ _ Hx') as [(gg2 & Hg2 & Ho2)|Hx0];
        [by apply (Wd _ _ _ _ _ _ _ _ _ _ _ Hg Ho Hg2 Ho2)|].
      split; [done|exact (Hnew _ _ _ _ _ _ _ Hx Hx' Hx0)].
    + intros [= <-] Hx Hg2 Hx'. subst k1.
      destruct (Hold _ _ _ _ Hx) as [(gg & Hg & Ho)|Hx0];
        [by apply (Wd _ _ _ _ _ _ _ _ _ _ _ Hg Ho Hg2 Hx')|].
      destruct Hx0. exact (Hused _ _ _ _ _ _ Hg2 Hx').
    + intros Hg1 Hx [= <-] Hx'. subst k2.
      destruct (Hold _ _ _ _ Hx') as [(gg & Hg & Ho)|Hx0];
        [by apply (Wd _ _ _ _ _ _ _ _ _ _ _ Hg1 Hx Hg Ho)|].
      destruct Hx0. exact (Hused _ _ _ _ _ _ Hg1 Hx).
    + apply Wd.
  - intros g i Hg. rewrite Hnet, Hget. case_decide as Hk.
    + replace g with (100 + gi) by lia. rewrite Hup. split; [by eauto|]. by intros (? & [= <-] & ?).
    + rewrite Hkn by lia. by apply Wk.
Qed.

(** Operations on the network alone. *)
Lemma wired_net cfg cfg' :
  wired cfg → groups cfg' = groups cfg → n cfg' = n cfg → keeps (net cfg) (net cfg') →
  (∀ g i, known (net cfg') (servername g i) = known (net cfg) (servername g i)) →
  wired cfg'.
Proof.
  intros [Wg Wd Wk] Hgr Hn HK Hkn.
  assert (Hget : ∀ k, get_group cfg' k = get_group cfg k) by (intros; unfold get_group; by rewrite Hgr).
  constructor.
  - intros gi gg. rewrite Hget, Hn. intros [? ?]%Wg. split; [done|]. by eapply group_ok_keeps.
  - intros *. rewrite !Hget. by apply Wd.
  - intros g i Hg. rewrite Hkn, Hget. by apply Wk.
Qed.

(** ** Starting a server *)

Lemma endname_at_set rows i row rows' k j :
  slice_set rows i (Some row) = Ok rows' →
  Harness.endname_at rows' k j = if decide (k = i) then slice_get row j else Harness.endname_at rows k j.
Proof.
  intros H. unfold Harness.endname_at. rewrite (slice_get_set _ _ _ _ k H). by case_decide.
Qed.

Lemma fresh_names_get rnd k j x :
  slice_get (fresh_names rnd k) j = Ok x ↔ 0 ≤ j < k ∧ x = rnd j.
Proof.
  unfold fresh_names, range. rewrite slice_get_Ok, list_lookup_fmap. split.
  - intros (Hj & Hx). apply fmap_Some in Hx as (y & Hy & ->).
    apply lookup_seqZ in Hy as [-> ?]. split; [lia|f_equal; lia].
  - intros (Hj & ->). split; [lia|]. rewrite lookup_seqZ_lt by lia. cbn. do 2 f_equal. lia.
Qed.

Lemma up_set gg gg' i v :
  slice_set (servers gg) i v = Ok (servers gg') →
  ∀ k, up gg' k = if decide (k = i) then (match v with Some _ => true | None => false end) else up gg k.
Proof. intros H k. unfold up. rewrite (slice_get_set _ _ _ _ k H). by case_decide. Qed.

(** Everything StartServer does, when it returns. *)
Record starts cfg (gi i : Z) (rnd mrnd : Z → string) boot srv cfg' gg gg' nt1 nt2 : Prop :=
  mkStarts {
  st_group : get_group cfg gi = Ok gg;
  st_ends : made (net cfg) nt1 rnd (servername (gid gg)) (n cfg);
  st_mends : made nt1 nt2 mrnd mastername (nmasters cfg);
  st_put : put_group (cfg <| net := Labrpc.AddServer nt2 (servername (gid gg) i) srv |>) gi gg' =
    Ok cfg';
  st_gid : gid gg' = gid gg;
  st_endnames : slice_set (endnames gg) i (Some (fresh_names rnd (n cfg))) = Ok (endnames gg');
  st_mendnames : slice_set (mendnames gg) i (Some (fresh_names mrnd (nmasters cfg))) =
    Ok (mendnames gg');
  st_kv : ∃ old, slice_get (saved gg) i = Ok old ∧
    let ps := match old with Some ps => Persister.Copy ps | None => Persister.MakePersister end in
    slice_set (saved gg) i (Some ps) = Ok (saved gg') ∧
    slice_set (servers gg) i (Some (skv_StartServer (fresh_names rnd (n cfg)) i ps
      (maxraftstate cfg) (gid gg) (fresh_names mrnd (nmasters cfg)) boot)) = Ok (servers gg');
}.

Lemma StartServer_inv cfg gi i rnd mrnd boot srv cfg' :
  StartServer cfg gi i rnd mrnd boot srv = Ok cfg' →
  ∃ gg gg' nt1 nt2, starts cfg gi i rnd mrnd boot srv cfg' gg gg' nt1 nt2.
Proof.
  unfold StartServer. intros H. mbind_inv H. mbind_inv H. mbind_inv H. mbind_inv H. mbind_inv H.
  mbind_inv H. mbind_inv H. mbind_inv H.
  eexists a, _, a1, a3. constructor; [done|by apply make_ends_made..|exact H|done|done|done|].
  by exists a4.
Qed.

Lemma starts_point cfg gi i rnd mrnd boot srv cfg' gg gg' nt1 nt2 b k j x :
  starts cfg gi i rnd mrnd boot srv cfg' gg gg' nt1 nt2 → point gg' b k j x →
  k ≠ i ∧ point gg b k j x ∨
  k = i ∧ b = false ∧ 0 ≤ j < n cfg ∧ x = rnd j ∨
  k = i ∧ b = true ∧ 0 ≤ j < nmasters cfg ∧ x = mrnd j.
Proof.
  intros [] Hx. unfold point in *. destruct b.
  - rewrite (endname_at_set _ _ _ _ k j st_mendnames0) in Hx.
    case_decide; [right; right|by left]. by apply fresh_names_get in Hx.
  - rewrite (endname_at_set _ _ _ _ k j st_endnames0) in Hx.
    case_decide; [right; left|by left]. by apply fresh_names_get in Hx.
Qed.

Lemma slice_set_len {A} (l l' : list A) i x : slice_set l i x = Ok l' → len l' = len l.
Proof. intros [_ ->]%slice_set_inv. apply len_insert. Qed.

Lemma known_add nt x srv y :
  known (Labrpc.AddServer nt x srv) y = if decide (y = x) then true else known nt y.
Proof.
  unfold known. cbn. case_decide as Hy; [subst; by rewrite lookup_insert_eq|].
  by rewrite lookup_insert_ne by done.
Qed.

Lemma skv_start_persister l i (ps : Persister.Persister (Raft.GobVal Cmd)) z g m boot :
  Raft.persister (skv_rf (skv_StartServer l i ps z g m boot)) = ps.
Proof. unfold skv_StartServer. destruct boot as [[? ?] ?]. cbn [skv_rf]. by rewrite Inv.Make_eq. Qed.

(** The server's own group after the start. *)
Lemma start_group_ok cfg gi i rnd mrnd boot srv cfg' gg gg' nt1 nt2 :
  wired cfg → starts cfg gi i rnd mrnd boot srv cfg' gg gg' nt1 nt2 →
  group_ok (Labrpc.AddServer nt2 (servername (gid gg) i) srv) (n cfg) gg'.
Proof.
  intros [Wg _ _] HS. pose proof HS as [Hg He Hm Hp Hgid Hrow Hmrow (old & _ & Hsv & Hks)].
  destruct (Wg _ _ Hg) as [Hid [Ls Lv Le Gp Gf Gs]]. set (kv := skv_StartServer _ _ _ _ _ _ _) in Hks.
  assert (Hup : ∀ k, up gg' k = if decide (k = i) then true else up gg k)
    by (intros; by apply (up_set gg gg' i (Some kv) Hks)).
  assert (HK : keeps (net cfg) nt2) by (etrans; [apply He|apply Hm]).
  assert (Htarget : ∀ b j, target gg' b j = target gg b j) by (intros; unfold target; by rewrite Hgid).
  constructor.
  - by rewrite (slice_set_len _ _ _ _ Hks).
  - by rewrite (slice_set_len _ _ _ _ Hsv).
  - by rewrite (slice_set_len _ _ _ _ Hrow).
  - intros b k j x Hx. rewrite Hup, Htarget. cbn.
    destruct (starts_point _ _ _ _ _ _ _ _ _ _ _ _ _ _ _ _ HS Hx)
      as [[Hk Ho]|[(-> & -> & Hj & ->)|(-> & -> & Hj & ->)]].
    + destruct (Gp _ _ _ _ Ho) as (? & Hin & ? & ?). rewrite decide_False by done.
      split; [done|]. split; [by apply HK|].
      by rewrite (kp_conn _ _ HK), (kp_enab _ _ HK).
    + rewrite decide_True by done. split; [done|].
      by destruct (ready_keeps _ _ _ _ (md_keeps _ _ _ _ _ Hm) (md_ready _ _ _ _ _ He j Hj)).
    + rewrite decide_True by done. split; [done|].
      by destruct (md_ready _ _ _ _ _ Hm j Hj).
  - intros k. rewrite Hup. unfold point. case_decide as Hk.
    + subst k. intros _. rewrite (slice_get_set _ _ _ _ i Hmrow), decide_True by done.
      split; [|by eexists].
      intros j Hj. exists (rnd j). rewrite (endname_at_set _ _ _ _ i j Hrow), decide_True by done.
      by apply fresh_names_get.
    + intros Hu. destruct (Gf _ Hu) as (H1 & H2). unfold point in H1.
      rewrite (slice_get_set _ _ _ _ k Hmrow), decide_False by done. split; [|done].
      intros j Hj. rewrite (endname_at_set _ _ _ _ k j Hrow), decide_False by done. auto.
  - intros k kv'. rewrite (slice_get_set _ _ _ _ k Hks), (slice_get_set _ _ _ _ k Hsv).
    case_decide; [|by apply Gs]. intros [= <-]. subst kv. by rewrite skv_start_persister.
Qed.

Lemma wired_start cfg gi i rnd mrnd boot srv cfg' :
  wired cfg → StartServer cfg gi i rnd mrnd boot srv = Ok cfg' → wired cfg'.
Proof.
  intros HW (gg & gg' & nt1 & nt2 & HS)%StartServer_inv.
  pose proof (start_group_ok _ _ _ _ _ _ _ _ _ _ _ _ HW HS) as Hok.
  pose proof HS as [Hg He Hm Hp Hgid _ _ (old & _ & _ & Hks)].
  destruct (wd_groups _ HW _ _ Hg) as [Hid Hgok].
  pose proof (get_group_nonneg _ _ _ Hg) as Hgi.
  assert (HK : keeps (net cfg) nt2) by (etrans; [apply He|apply Hm]).
  assert (Hkn : ∀ y, known nt2 y = known (net cfg) y).
  { intros y. unfold known. by rewrite (md_servers _ _ _ _ _ Hm), (md_servers _ _ _ _ _ He). }
  eapply (wired_put cfg _ gi gg' cfg'); [done|exact Hp|congruence|exact Hok|..].
  - intros k gg2 _ Hg2. eapply group_ok_keeps; [|by apply (wd_groups _ HW _ _ Hg2)].
    by destruct HK.
  - intros b k j x Hx. destruct (starts_point _ _ _ _ _ _ _ _ _ _ _ _ _ _ _ _ HS Hx)
      as [[Hk Ho]|[(-> & -> & Hj & ->)|(-> & -> & Hj & ->)]]; [left; eauto|right..].
    + by apply (md_fresh _ _ _ _ _ He).
    + intros Hin. apply (md_fresh _ _ _ _ _ Hm j Hj). by apply He.
  - intros b k j b' k' j' x Hx Hx' Hfresh.
    assert (Hnold : ∀ b k j, point gg b k j x → False).
    { intros b0 k0 j0 Ho. apply Hfresh. apply (go_point _ _ _ Hgok) in Ho. apply Ho. }
    assert (Hcross : ∀ j1 j2, 0 ≤ j1 < n cfg → 0 ≤ j2 < nmasters cfg → rnd j1 = mrnd j2 → False).
    { intros j1 j2 H1 H2 Heq. apply (md_fresh _ _ _ _ _ Hm j2 H2). rewrite <- Heq.
      by apply (md_ready _ _ _ _ _ He). }
    destruct (starts_point _ _ _ _ _ _ _ _ _ _ _ _ _ _ _ _ HS Hx)
      as [[_ Ho]|[(-> & -> & Hj & Hxr)|(-> & -> & Hj & Hxr)]]; [by destruct (Hnold _ _ _ Ho)|..];
    destruct (starts_point _ _ _ _ _ _ _ _ _ _ _ _ _ _ _ _ HS Hx')
      as [[_ Ho]|[(-> & -> & Hj' & Hxr')|(-> & -> & Hj' & Hxr')]]; try by destruct (Hnold _ _ _ Ho).
    + split_and!; try done. apply (md_inj _ _ _ _ _ He); congruence.
    + destruct (Hcross j j'); congruence.
    + destruct (Hcross j' j); congruence.
    + split_and!; try done. apply (md_inj _ _ _ _ _ Hm); congruence.
  - intros k. rewrite known_add, (up_set _ _ _ _ Hks), <- Hid.
    destruct (decide (k = i)) as [->|Hne]; [by rewrite decide_True|].
    rewrite decide_False by (intros [_ ?]%servername_inj; [done|lia..]). rewrite Hkn.
    pose proof (wd_known _ HW (gid gg) k ltac:(lia)) as Hiff.
    replace (gid gg - 100) with gi in Hiff by lia.
    destruct (known _ _), (up gg k) eqn:Hu; try done.
    + destruct Hiff as [(gg2 & Hg2 & Hu2) _]; [done|]. congruence.
    + destruct Hiff as [_ Hiff]. apply Hiff. eauto.
  - intros g k Hg0 Hne. rewrite known_add, decide_False; [apply Hkn|].
    intros [? _]%servername_inj; lia.
Qed.

(** ** Shutting a server down *)

Lemma known_delete nt x y :
  known (Labrpc.DeleteServer nt x) y = if decide (y = x) then false else known nt y.
Proof.
  unfold known. cbn. case_decide as Hy; [subst; by rewrite lookup_insert_eq|].
  by rewrite lookup_insert_ne by done.
Qed.

(** The end points silenced are exactly those of the server. *)
Lemma silence_inv nt k gg i nt' :
  group_ok nt k gg → silence gg i nt = Ok nt' →
  ∃ l, nt' = foldl disable nt l ∧ ∀ x, x ∈ l ↔ ∃ b j, point gg b i j x.
Proof.
  intros Hgok. unfold silence. intros H. mbind_inv H. mbind_inv H. injection H as <-.
  apply disable_loop in E as (l & Hl & ->). exists (l ++ default [] a0).
  split; [by rewrite foldl_app|]. intros x. rewrite elem_of_app. split.
  - intros [Hx|Hx].
    + apply (mapM_elem _ _ _ x Hl) in Hx as (j & _ & Hx). by exists false, j.
    + destruct a0 as [r|]; [|by apply elem_of_nil in Hx]. cbn in Hx.
      apply list_elem_of_lookup in Hx as [j Hj]. exists true, (Z.of_nat j). unfold point, Harness.endname_at.
      rewrite E0. cbn. apply slice_get_Ok. rewrite Nat2Z.id. split; [lia|done].
  - intros (b & j & Hx). pose proof (go_point _ _ _ Hgok _ _ _ _ Hx) as (Hb & _). destruct b.
    + right. unfold point, Harness.endname_at in Hx. rewrite E0 in Hx. cbn in Hx.
      destruct a0 as [r|]; [|done]. cbn. apply slice_get_Ok in Hx as [_ Hx]. by eapply list_elem_of_lookup_2.
    + left. apply (mapM_elem _ _ _ x Hl). exists j. split; [|done].
      apply elem_of_seqZ. rewrite (go_servers _ _ _ Hgok). specialize (Hb eq_refl). lia.
Qed.

(** Everything ShutdownServer does, when it returns. *)
Record stops cfg (gi i : Z) cfg' gg gg' nt1 : Prop := mkStops {
  sp_group : get_group cfg gi = Ok gg;
  sp_silence : silence gg i (net cfg) = Ok nt1;
  sp_put : put_group (cfg <| net := Labrpc.DeleteServer nt1 (servername (gid gg) i) |>) gi gg' = Ok cfg';
  sp_gid : gid gg' = gid gg;
  sp_endnames : endnames gg' = endnames gg;
  sp_mendnames : mendnames gg' = mendnames gg;
  sp_len : len (servers gg') = len (servers gg) ∧ len (saved gg') = len (saved gg);
  sp_servers k : slice_get (servers gg') k =
    if decide (k = i) then Ok None else slice_get (servers gg) k;
  sp_saved k : slice_get (saved gg') k = slice_get (saved gg) k;
}.

(** Copying a persister that holds what it holds changes nothing. *)
Lemma saved_copy (sv sv' : list (option (Persister.Persister (Raft.GobVal Cmd)))) i old :
  slice_get sv i = Ok old →
  (match old with Some ps => slice_set sv i (Some (Persister.Copy ps)) | None => mret sv end) = Ok sv' →
  len sv' = len sv ∧ ∀ k, slice_get sv' k = slice_get sv k.
Proof.
  intros Hi H. destruct old as [ps|]; [|by injection H as <-].
  split; [by apply slice_set_len in H|]. intros k. rewrite (slice_get_set _ _ _ _ k H).
  case_decide as Hk; [|done]. subst k. rewrite Hi. by destruct ps.
Qed.

Lemma ShutdownServer_inv cfg gi i cfg' :
  ShutdownServer cfg gi i = Ok cfg' → ∃ gg gg' nt1, stops cfg gi i cfg' gg gg' nt1.
Proof.
  unfold ShutdownServer. intros H. mbind_inv H. mbind_inv H. mbind_inv H.
  destruct (match a1 with Some ps => _ | None => _ end) as [sv'| |] eqn:Esv; [|done..]. cbn in H.
  mbind_inv H. destruct (saved_copy _ _ _ _ E1 Esv) as [Hlen Hget].
  destruct (match a2 with Some _ => _ | None => _ end) as [ks'| |] eqn:Eks; [|done..]. cbn in H.
  eexists a, _, a0. eapply mkStops with (gg' := mkGroup (gid a) ks' sv' (endnames a) (mendnames a)); try done.
  - split; [|done]. destruct a2; [by apply slice_set_len in Eks|by injection Eks as <-].
  - intros k. cbn. destruct a2 as [kv|]; [by rewrite (slice_get_set _ _ _ _ k Eks)|].
    injection Eks as <-. by case_decide as Hk; [subst k|].
Qed.

Lemma stops_up cfg gi i cfg' gg gg' nt1 k :
  stops cfg gi i cfg' gg gg' nt1 → up gg' k = if decide (k = i) then false else up gg k.
Proof. intros HS. unfold up. rewrite (sp_servers _ _ _ _ _ _ _ HS). by case_decide. Qed.

Lemma stops_point cfg gi i cfg' gg gg' nt1 b k j x :
  stops cfg gi i cfg' gg gg' nt1 → point gg' b k j x ↔ point gg b k j x.
Proof. intros []. unfold point. by rewrite sp_endnames0, sp_mendnames0. Qed.

Lemma wired_shutdown cfg gi i cfg' :
  wired cfg → ShutdownServer cfg gi i = Ok cfg' → wired cfg'.
Proof.
  intros HW (gg & gg' & nt1 & HS)%ShutdownServer_inv.
  pose proof HS as [Hg Hsil Hput Hgid He Hm [Hl1 Hl2] Hks Hsv].
  pose proof (λ k, stops_up _ _ _ _ _ _ _ k HS) as Hup.
  destruct (wd_groups _ HW _ _ Hg) as [Hid Hgok].
  pose proof (get_group_nonneg _ _ _ Hg) as Hgi.
  destruct (silence_inv _ _ _ _ _ Hgok Hsil) as (l & -> & Hin).
  destruct (foldl_disable (net cfg) l) as (Hen & Hends & Hconn & Hsrv).
  assert (Htarget : ∀ b j, target gg' b j = target gg b j) by (intros; unfold target; by rewrite Hgid).
  assert (Hkn : ∀ y, known (foldl disable (net cfg) l) y = known (net cfg) y)
    by (intros; unfold known; by rewrite Hsrv).
  eapply (wired_put cfg _ gi gg' cfg'); [done|exact Hput|congruence|..].
  - destruct Hgok as [L1 L2 L3 Gp Gf Gs]. constructor; [congruence..|rewrite He; done| | |].
    + intros b k j x Hx%(stops_point _ _ _ _ _ _ _ _ _ _ _ HS).
      destruct (Gp _ _ _ _ Hx) as (? & ? & ? & He'). rewrite Htarget. cbn.
      rewrite Hends, Hconn, Hen, Hup. split_and!; try done.
      destruct (decide (k = i)) as [->|Hk]; [rewrite decide_True; [done|apply Hin; eauto]|].
      rewrite decide_False; [done|]. intros (b' & j' & Hx')%Hin. destruct Hk.
      by destruct (wd_distinct _ HW _ _ _ _ _ _ _ _ _ _ _ Hg Hx Hg Hx') as (_ & _ & ? & _).
    + intros k. rewrite Hup, Hm. case_decide; [done|]. intros (H1 & H2)%Gf.
      split; [|done]. intros j Hj. destruct (H1 j Hj) as [x Hx]. exists x.
      by apply (stops_point _ _ _ _ _ _ _ _ _ _ _ HS).
    + intros k kv. rewrite Hks, Hsv. case_decide; [done|apply Gs].
  - intros k gg2 Hne Hg2. destruct (wd_groups _ HW _ _ Hg2) as [_ [L1 L2 L3 Gp Gf Gs]].
    constructor; try done. intros b k' j x Hx. cbn. rewrite Hends, Hconn, Hen.
    rewrite decide_False; [by apply Gp|]. intros (b' & j' & Hx')%Hin.
    by destruct (wd_distinct _ HW _ _ _ _ _ _ _ _ _ _ _ Hg2 Hx Hg Hx') as (? & _).
  - intros b k j x Hx%(stops_point _ _ _ _ _ _ _ _ _ _ _ HS). left. eauto.
  - intros b k j b' k' j' x Hx%(stops_point _ _ _ _ _ _ _ _ _ _ _ HS) _ Hfresh.
    destruct Hfresh. apply (go_point _ _ _ Hgok) in Hx. apply Hx.
  - intros k. rewrite known_delete, Hup, Hkn, <- Hid.
    destruct (decide (k = i)) as [->|Hne]; [by rewrite decide_True|].
    rewrite decide_False by (intros [_ ?]%servername_inj; [done|lia..]).
    pose proof (wd_known _ HW (gid gg) k ltac:(lia)) as Hiff.
    replace (gid gg - 100) with gi in Hiff by lia.
    destruct (known _ _), (up gg k) eqn:Hu; try done.
    + destruct Hiff as [(gg2 & Hg2 & Hu2) _]; [done|]. congruence.
    + destruct Hiff as [_ Hiff]. apply Hiff. eauto.
  - intros g k Hg0 Hne. rewrite known_delete, decide_False; [apply Hkn|].
    intros [? _]%servername_inj; lia.
Qed.

(** ** The other operations *)

Lemma wired_run cfg gi i rf cfg' :
  wired cfg → run_server cfg gi i rf = Ok cfg' → wired cfg'.
Proof.
  intros HW. unfold run_server. intros H. mbind_inv H. mbind_inv H. destruct a0 as [kv|]; [|done].
  mbind_inv H. mbind_inv H. destruct (wd_groups _ HW _ _ E) as [Hid Hgok].
  set (gg' := a <| servers := a0 |> <| saved := a1 |>) in H.
  assert (Hup : ∀ k, up gg' k = up a k).
  { intros k. rewrite (up_set a gg' _ _ E1). case_decide as Hk; [|done]. subst k. unfold up. by rewrite E0. }
  assert (Hput : put_group (cfg <| net := net cfg |>) gi gg' = Ok cfg') by by destruct cfg.
  eapply (wired_put cfg (net cfg) gi gg' cfg'); [done|exact Hput|done|..].
  - destruct Hgok as [L1 L2 L3 Gp Gf Gs]. constructor.
    + by rewrite <- (slice_set_len _ _ _ _ E1) in L1.
    + by rewrite <- (slice_set_len _ _ _ _ E2) in L2.
    + done.
    + intros b k j x Hx. rewrite Hup. by apply Gp.
    + intros k. rewrite Hup. apply Gf.
    + intros k kv'. cbn. rewrite (slice_get_set _ _ _ _ k E1), (slice_get_set _ _ _ _ k E2).
      case_decide; [by intros [= <-]|by apply Gs].
  - intros k gg2 _ Hg2. by destruct (wd_groups _ HW _ _ Hg2).
  - intros b k j x Hx. left. by exists a.
  - intros b k j b' k' j' x Hx _ []. by apply (go_point _ _ _ Hgok) in Hx as (_ & ? & _).
  - intros k. rewrite Hup. pose proof (get_group_nonneg _ _ _ E) as Hgi.
    pose proof (wd_known _ HW (100 + gi) k ltac:(lia)) as Hiff.
    replace (100 + gi - 100) with gi in Hiff by lia.
    destruct (known _ _), (up a k) eqn:Hu; try done.
    + destruct Hiff as [(gg2 & Hg2 & Hu2) _]; [done|]. congruence.
    + destruct Hiff as [_ Hiff]. apply Hiff. eauto.
  - done.
Qed.

(** The masters' servers have names of their own. *)
Lemma wired_master cfg i rnd boot srv cfg' :
  wired cfg → StartMasterServer cfg i rnd boot srv = Ok cfg' → wired cfg'.
Proof.
  intros HW. unfold StartMasterServer. intros H. mbind_inv H. mbind_inv H. injection H as <-.
  apply make_ends_made in E. eapply wired_net; [done|done|done|..].
  - by destruct (md_keeps _ _ _ _ _ E).
  - intros g k. cbn [net]. rewrite known_add, decide_False by (intros Hn; symmetry in Hn; by apply mastername_servername in Hn).
    unfold known. by rewrite (md_servers _ _ _ _ _ E).
Qed.

Lemma wired_clerk cfg rnd cfg' ck :
  wired cfg → shardclerk cfg rnd = Ok (cfg', ck) → wired cfg'.
Proof.
  intros HW. unfold shardclerk. intros H. mbind_inv H. injection H as <- <-.
  apply make_ends_made in E. eapply wired_net; [done..|by apply E|].
  intros g k. unfold known. cbn. by rewrite (md_servers _ _ _ _ _ E).
Qed.

(** The network part of makeClient. *)
Lemma makeClient_inv cfg ck rnd cfg' :
  makeClient cfg ck rnd = Ok cfg' →
  groups cfg' = groups cfg ∧ n cfg' = n cfg ∧ keeps (net cfg) (net cfg') ∧
  Labrpc.servers (net cfg') = Labrpc.servers (net cfg).
Proof.
  unfold makeClient. intros H. mbind_inv H. destruct a as [nt names]. injection H as <-.
  cbn. split_and!; [done..| |]; revert E.
  - apply (foldM_keeps (λ s : Net * list string, keeps (net cfg) s.1)); [|done].
    intros [nt1 ns1] j [nt2 ns2] _ HP H. mbind_inv H. mbind_inv H. injection H as <- <-.
    apply make_end_inv in E0. etrans; [exact HP|apply E0].
  - apply (foldM_keeps (λ s : Net * list string, Labrpc.servers s.1 = Labrpc.servers (net cfg))); [|done].
    intros [nt1 ns1] j [nt2 ns2] _ HP H. mbind_inv H. mbind_inv H. injection H as <- <-.
    apply make_end_inv in E0 as (_ & _ & _ & Hs & _). cbn in *. congruence.
Qed.

Lemma wired_client cfg ck rnd cfg' :
  wired cfg → makeClient cfg ck rnd = Ok cfg' → wired cfg'.
Proof.
  intros HW (Hg & Hn & HK & Hs)%makeClient_inv. eapply wired_net; [done..|].
  intros g k. unfold known. by rewrite Hs.
Qed.

(** A group in a slot that was empty. *)
Lemma wired_group cfg gi cfg' :
  wired cfg → 0 ≤ gi → 0 ≤ n cfg → (∀ gg, get_group cfg gi ≠ Ok gg) →
  put_group cfg gi (new_group cfg gi) = Ok cfg' → wired cfg'.
Proof.
  intros HW Hgi Hn Hnone Hput.
  assert (Hnil : ∀ b i j x, ¬ point (new_group cfg gi) b i j x).
  { intros b i j x. unfold point, Harness.endname_at, new_group.
    assert (Hr : ∀ k, slice_get (replicate k (@None (list string))) i = Panic ∨
                      slice_get (replicate k (@None (list string))) i = Ok None).
    { intros k. unfold slice_get. case_decide; [|by left].
      destruct (replicate k None !! Z.to_nat i) eqn:E; [|by left].
      apply lookup_replicate in E as [-> _]. by right. }
    destruct b; cbn; [destruct (Hr (Z.to_nat (nmasters cfg))) as [->| ->]|
      destruct (Hr (Z.to_nat (n cfg))) as [->| ->]]; done. }
  assert (Hdown : ∀ i kv, slice_get (servers (new_group cfg gi)) i ≠ Ok (Some kv)).
  { intros i kv. cbn. intros [_ Hl]%slice_get_Ok. apply lookup_replicate in Hl as [? _]. done. }
  assert (Hup : ∀ i, up (new_group cfg gi) i = false).
  { intros i. unfold up. destruct (slice_get _ i) as [[kv|]| |] eqn:E; try done. by apply Hdown in E. }
  assert (Hput' : put_group (cfg <| net := net cfg |>) gi (new_group cfg gi) = Ok cfg') by by destruct cfg.
  eapply (wired_put cfg (net cfg) gi (new_group cfg gi) cfg'); [done|exact Hput'|done|..].
  - constructor; try (cbn; rewrite len_replicate; lia).
    + intros b i j x Hx. by apply Hnil in Hx.
    + intros i. by rewrite Hup.
    + intros i kv Hx. by apply Hdown in Hx.
  - intros k gg2 _ Hg2. by destruct (wd_groups _ HW _ _ Hg2).
  - intros b i j x Hx. by apply Hnil in Hx.
  - intros b i j b' i' j' x Hx. by apply Hnil in Hx.
  - intros i. rewrite Hup. destruct (known _ _) eqn:Hk; [|done].
    apply (wd_known _ HW) in Hk as (gg & Hg & _); [|lia].
    replace (100 + gi - 100) with gi in Hg by lia. by apply Hnone in Hg.
  - done.
Qed.
End wired.
End ShardHarnessProps.
