(* ===== verification/ShardHarnessBuild.v ===== *)
(** * ShardHarnessBuild: sharded test clusters are well wired, and when they exist

    [make_config] yields a wired configuration, and every operation of a test
    keeps it wired; a server that is shut down is cut off, and restarted finds
    its persistent state; the group sizes for which a configuration, and a
    client of it, can be built. *)
From S2P Require Import Prelude Persister Labrpc Raft RaftInv RaftProps.
From S2P Require Import Harness HarnessProps Clerks ShardHarness ShardHarnessProps.

Module ShardHarnessBuild.
Import HarnessProps ShardHarnessProps.

Section build.
Context {Cmd : Type}.
#[local] Notation group := (ShardHarness.group Cmd).
#[local] Notation config := (ShardHarness.config Cmd).
Implicit Types (gg : group) (cfg : config) (nt : Net) (rs : Random).

(** ** The operations of a test *)

(** What a test does to its configuration; [ORun]: server [i] of group [gi] goes
    on running, its raft becomes [rf]. *)
Inductive op :=
| OStart (rs : Random) (gi i : Z)
| OStartGroup (rs : Random) (gi : Z)
| OShutdown (gi i : Z)
| OShutdownGroup (gi : Z)
| OCleanup
| OClient (ck : Z) (rnd : Z → string)
| ODelete (ck : Z)
| OClerk (rnd : Z → string)
| ORun (gi i : Z) (rf : Raft.Raft Cmd).

Definition run_op cfg (o : op) : res config :=
  match o with
  | OStart rs gi i => start_random rs cfg gi i
  | OStartGroup rs gi => StartGroup rs cfg gi
  | OShutdown gi i => ShutdownServer cfg gi i
  | OShutdownGroup gi => ShutdownGroup cfg gi
  | OCleanup => cleanup cfg
  | OClient ck rnd => makeClient cfg ck rnd
  | ODelete ck => mret (deleteClient cfg ck)
  | OClerk rnd => '(cfg, _) ← shardclerk cfg rnd; mret cfg
  | ORun gi i rf => run_server cfg gi i rf
  end.

Lemma wired_start_group rs cfg gi cfg' :
  wired cfg → StartGroup rs cfg gi = Ok cfg' → wired cfg'.
Proof. intros HW. apply foldM_keeps; [|done]. intros s i s' _. apply wired_start. Qed.

Lemma wired_shutdown_group cfg gi cfg' :
  wired cfg → ShutdownGroup cfg gi = Ok cfg' → wired cfg'.
Proof. intros HW. apply foldM_keeps; [|done]. intros s i s' _. apply wired_shutdown. Qed.

Lemma wired_op cfg o cfg' : wired cfg → run_op cfg o = Ok cfg' → wired cfg'.
Proof.
  intros HW. destruct o; cbn [run_op].
  - by apply wired_start.
  - by apply wired_start_group.
  - by apply wired_shutdown.
  - by apply wired_shutdown_group.
  - apply foldM_keeps; [|done]. intros s i s' _. apply wired_shutdown_group.
  - by apply wired_client.
  - intros [= <-]. by eapply wired_net.
  - destruct (shardclerk cfg rnd) as [[c ck]| |] eqn:E; [|done..]. intros [= <-].
    by eapply wired_clerk.
  - by apply wired_run.
Qed.

(** ** Building a configuration *)

Lemma starts_other cfg gi i rnd mrnd boot srv cfg' k :
  StartServer cfg gi i rnd mrnd boot srv = Ok cfg' → k ≠ gi → get_group cfg' k = get_group cfg k.
Proof.
  intros (gg & gg' & nt1 & nt2 & HS)%StartServer_inv Hk.
  destruct (get_group_put _ _ _ _ k (st_put _ _ _ _ _ _ _ _ _ _ _ _ HS)) as (-> & _).
  by rewrite decide_False.
Qed.

(** The slots from [gi] on are still empty. *)
Definition empty_from cfg (gi : Z) : Prop := ∀ k gg, gi ≤ k → get_group cfg k ≠ Ok gg.

Lemma wired_make_group rs cfg gi cfg' :
  0 ≤ gi → wired cfg ∧ empty_from cfg gi → make_group rs cfg gi = Ok cfg' →
  wired cfg' ∧ empty_from cfg' (gi + 1).
Proof.
  intros Hgi [HW He]. unfold make_group. case_match eqn:Hn; [done|]. apply Z.ltb_ge in Hn.
  intros H. mbind_inv H. revert H. apply (foldM_keeps (λ c, wired c ∧ empty_from c (gi + 1))).
  - intros s i s' _ [HW' He'] H. split; [by eapply wired_start|].
    intros k gg Hk. rewrite (starts_other _ _ _ _ _ _ _ _ _ H) by lia. by apply He'.
  - split; [apply (wired_group cfg gi); [done..|exact (λ gg, He gi gg (Z.le_refl _))|done]|].
    intros k gg Hk. destruct (get_group_put _ _ _ _ k E) as (-> & _).
    rewrite decide_False by lia. apply He. lia.
Qed.

(** No group yet, and no server but the masters. *)
Definition blank cfg : Prop :=
  (∀ k gg, get_group cfg k ≠ Ok gg) ∧ ∀ g i, known (net cfg) (servername g i) = false.

Lemma blank_wired cfg : blank cfg → wired cfg.
Proof.
  intros [Hg Hk]. constructor.
  - by intros gi gg ?%Hg.
  - by intros * ?%Hg.
  - intros g i _. rewrite Hk. split; [done|]. by intros (gg & ?%Hg & _).
Qed.

Lemma get_group_nil cfg gl k gg :
  (∀ g, g ∈ gl → g = None) → get_group (cfg <| groups := gl |>) k ≠ Ok gg.
Proof.
  intros Hnone H. unfold get_group in H. mbind_inv H.
  apply slice_get_Ok in E as [_ ->%list_elem_of_lookup_2%Hnone]. done.
Qed.

Lemma blank_masters rs z cfg : make_masters rs z = Ok cfg → blank cfg ∧ groups cfg = [] ∧ nmasters cfg = 3.
Proof.
  unfold make_masters. intros H. mbind_inv H.
  assert (HP : (∀ g i, known (net a) (servername g i) = false) ∧ groups a = [] ∧ nmasters a = 3).
  { revert E. apply (foldM_keeps (λ c, (∀ g i, known (net c) (servername g i) = false) ∧
      groups c = [] ∧ nmasters c = 3)); [|done].
    intros s i s' _ (Hk & Hg & Hm) H'. unfold StartMasterServer in H'. mbind_inv H'. mbind_inv H'.
    injection H' as <-. split; [|done]. intros g k. cbn [net]. rewrite known_add, decide_False.
    - apply make_ends_made in E. unfold known. rewrite (md_servers _ _ _ _ _ E). apply Hk.
    - intros Hn. symmetry in Hn. by apply mastername_servername in Hn. }
  destruct HP as (Hk & Hg & Hm). mbind_inv H. destruct a0 as [c ck]. injection H as <-.
  unfold shardclerk in E0. mbind_inv E0. injection E0 as <- <-. cbn. split_and!; [|done..].
  split.
  - intros k gg. unfold get_group. cbn. rewrite Hg. unfold slice_get. by case_decide.
  - intros g i. cbn. apply make_ends_made in E1. unfold known. rewrite (md_servers _ _ _ _ _ E1). apply Hk.
Qed.

(** The configuration make_config fills with groups. *)
Lemma make_config_inv rs k u z cfg :
  make_config rs k u z = Ok cfg →
  ∃ c0 c1, make_masters rs z = Ok c0 ∧
    foldM (make_group rs)
      (c0 <| ngroups := 3 |> <| groups := replicate 3 None |> <| n := k |>) (range 0 3) = Ok c1 ∧
    cfg = c1 <| clerks := ∅ |> <| nextClientId := n c1 + 1000 |>
             <| net := Labrpc.Reliable (net c1) (negb u) |>.
Proof. unfold make_config. intros H. mbind_inv H. mbind_inv H. injection H as <-. eauto. Qed.

Lemma empty_slots cfg : ∀ k gg, get_group (cfg <| groups := replicate 3 None |>) k ≠ Ok gg.
Proof. intros k gg. apply get_group_nil. intros g Hg. by apply elem_of_replicate in Hg as [-> _]. Qed.

Lemma wired_make_config rs k u z cfg : make_config rs k u z = Ok cfg → wired cfg.
Proof.
  intros (c0 & c1 & H0 & H1 & ->)%make_config_inv.
  destruct (blank_masters _ _ _ H0) as ([_ Hk] & _).
  assert (HP : wired c1 ∧ empty_from c1 3).
  { revert H1. apply (foldM_range (λ gi c, wired c ∧ empty_from c gi)); [done| |].
    - split; [apply blank_wired; split; [apply empty_slots|done]|]. intros gi gg _. apply empty_slots.
    - intros gi s s' Hgi. apply wired_make_group. lia. }
  eapply wired_net; [apply HP|done..].
Qed.

(** ** When servers can be started and shut down *)

(** The random strings of one StartServer are new and all different. *)
Record fresh cfg (rnd mrnd : Z → string) : Prop := mkFresh {
  fr_ends j : 0 ≤ j < n cfg → rnd j ∉ Labrpc.ends (net cfg);
  fr_mends j : 0 ≤ j < nmasters cfg → mrnd j ∉ Labrpc.ends (net cfg);
  fr_inj i j : rnd i = rnd j → i = j;
  fr_minj i j : mrnd i = mrnd j → i = j;
  fr_cross i j : rnd i ≠ mrnd j;
}.

Lemma make_ends_Z nt rnd target k :
  (∀ j, 0 ≤ j < k → rnd j ∉ Labrpc.ends nt) → (∀ i j, rnd i = rnd j → i = j) →
  ∃ nt', make_ends nt rnd target k = Ok nt'.
Proof.
  intros Hf Hi. destruct (Z.le_gt_cases 0 k) as [Hk|Hk].
  - destruct (Z_of_nat_complete k Hk) as [m ->]. apply make_ends_Ok; auto.
  - exists nt. unfold make_ends. by rewrite range_empty by lia.
Qed.

Lemma put_group_Ok cfg gi gg gg' nt :
  get_group cfg gi = Ok gg → ∃ cfg', put_group (cfg <| net := nt |>) gi gg' = Ok cfg'.
Proof.
  unfold get_group, put_group. intros H. mbind_inv H. apply slice_get_bounds in E.
  cbn. rewrite slice_set_Ok by lia. by eexists.
Qed.

Lemma StartServer_Ok cfg gi i rnd mrnd boot srv gg :
  get_group cfg gi = Ok gg → fresh cfg rnd mrnd →
  0 ≤ i < len (endnames gg) → i < len (mendnames gg) → i < len (saved gg) → i < len (servers gg) →
  ∃ cfg', StartServer cfg gi i rnd mrnd boot srv = Ok cfg'.
Proof.
  intros Hg [F1 F2 F3 F4 F5] Hi H1 H2 H3. unfold StartServer. rewrite Hg. cbn.
  rewrite slice_set_Ok by lia. cbn.
  destruct (make_ends_Z (net cfg) rnd (servername (gid gg)) (n cfg) F1 F3) as [nt1 E1].
  rewrite E1. cbn. rewrite slice_set_Ok by lia. cbn.
  pose proof (make_ends_made _ _ _ _ _ E1) as HM.
  destruct (make_ends_Z nt1 mrnd mastername (nmasters cfg)) as [nt2 E2]; [|done|].
  { intros j Hj [Hin|(j' & _ & Heq)]%(md_ends _ _ _ _ _ HM); [by eapply F2|by eapply F5]. }
  rewrite E2. cbn. destruct (slice_get_is_Ok (saved gg) i) as [old Ho]; [lia|]. rewrite Ho. cbn.
  rewrite slice_set_Ok by lia. cbn. rewrite slice_set_Ok by lia. cbn. by eapply put_group_Ok.
Qed.

Lemma mapM_Ok {A B} (f : A → res B) l : (∀ x, x ∈ l → ∃ y, f x = Ok y) → ∃ k, mapM f l = Ok k.
Proof.
  induction l as [|x l IH]; intros H; [by exists []|].
  destruct (H x) as [y Hy]; [by left|]. destruct IH as [k Hk]; [intros; apply H; by right|].
  exists (y :: k). cbn. by rewrite Hy; cbn; rewrite Hk.
Qed.

Lemma ShutdownServer_Ok cfg gi i gg :
  wired cfg → get_group cfg gi = Ok gg → up gg i = true → ∃ cfg', ShutdownServer cfg gi i = Ok cfg'.
Proof.
  intros HW Hg Hu. destruct (wd_groups _ HW _ _ Hg) as [_ [L1 L2 L3 _ Gf _]].
  destruct (Gf _ Hu) as (Hrow & r & Hr).
  assert (Hi : 0 ≤ i < len (servers gg)).
  { unfold up in Hu. destruct (slice_get _ _) eqn:E; [|done..]. by apply slice_get_bounds in E. }
  unfold ShutdownServer. rewrite Hg. cbn. unfold silence.
  destruct (mapM_Ok (Harness.endname_at (endnames gg) i) (range 0 (len (servers gg)))) as [l Hl].
  { intros j Hj%elem_of_range. apply Hrow. lia. }
  rewrite (disable_loop_Ok _ _ _ _ _ Hl). cbn. rewrite Hr. cbn.
  destruct (slice_get_is_Ok (saved gg) i) as [old Ho]; [lia|]. rewrite Ho. cbn.
  destruct (slice_get_is_Ok (servers gg) i) as [kv Hkv]; [lia|].
  destruct old; cbn; [rewrite (slice_set_Ok (saved gg)) by lia; cbn|]; rewrite Hkv; cbn;
    (destruct kv; cbn; [rewrite slice_set_Ok by lia; cbn|]; by eapply put_group_Ok).
Qed.

(** What a shutdown leaves in the network. *)
Lemma ShutdownServer_net cfg gi i cfg' gg :
  wired cfg → get_group cfg gi = Ok gg → ShutdownServer cfg gi i = Ok cfg' →
  (∀ gi' gg' b i' j x, get_group cfg gi' = Ok gg' → point gg' b i' j x →
     Labrpc.enabled (net cfg') !! x =
       if decide (gi' = gi ∧ i' = i) then Some false else Labrpc.enabled (net cfg) !! x) ∧
  Labrpc.ends (net cfg') = Labrpc.ends (net cfg) ∧ n cfg' = n cfg ∧ nmasters cfg' = nmasters cfg.
Proof.
  intros HW Hg (gg1 & gg2 & nt1 & [Hg1 Hsil Hput _ _ _ _ _ _])%ShutdownServer_inv.
  assert (gg1 = gg) as -> by congruence.
  destruct (wd_groups _ HW _ _ Hg) as [_ Hgok].
  destruct (silence_inv _ _ _ _ _ Hgok Hsil) as (l & -> & Hin).
  destruct (foldl_disable (net cfg) l) as (Hen & Hends & _ & _).
  destruct (get_group_put _ _ _ _ gi Hput) as (_ & Hnet & Hn). rewrite Hnet, Hn. cbn.
  split_and!; [|done|done|].
  - intros gi' gg' b i' j x Hg' Hx. rewrite Hen. case_decide as Hl; case_decide as He; try done.
    + apply Hin in Hl as (b' & j' & Hx'). destruct He.
      destruct (wd_distinct _ HW _ _ _ _ _ _ _ _ _ _ _ Hg' Hx Hg Hx') as (? & _ & ? & _). done.
    + destruct He as [-> ->]. destruct Hl. apply Hin. assert (gg' = gg) as -> by congruence. eauto.
  - unfold put_group in Hput. mbind_inv Hput. by injection Hput as <-.
Qed.

(** ** When a configuration can be built *)

(** Every end point carries the name of a tag in [used]. *)
Definition only nt rs (used : Tag → Prop) : Prop :=
  ∀ x, x ∈ Labrpc.ends nt → ∃ t, used t ∧ x = rnd_name rs t.

Lemma only_fresh nt rs used t :
  Inj (=) (=) (rnd_name rs) → only nt rs used → ¬ used t → rnd_name rs t ∉ Labrpc.ends nt.
Proof. intros Hinj Ho Ht (t' & Hu & ->%(inj _))%Ho. done. Qed.

Lemma only_made nt nt' rs used used' f target k :
  made nt nt' (λ j, rnd_name rs (f j)) target k → only nt rs used →
  (∀ t, used t → used' t) → (∀ j, used' (f j)) → only nt' rs used'.
Proof.
  intros HM Ho Hsub Hf x [(t & ? & ->)%Ho|(j & _ & ->)]%(md_ends _ _ _ _ _ HM); eauto.
Qed.

Lemma make_ends_only nt rs used used' f target k :
  Inj (=) (=) (rnd_name rs) → Inj (=) (=) f → only nt rs used → (∀ j, ¬ used (f j)) →
  (∀ t, used t → used' t) → (∀ j, used' (f j)) →
  ∃ nt', make_ends nt (λ j, rnd_name rs (f j)) target k = Ok nt' ∧ only nt' rs used'.
Proof.
  intros Hinj Hfi Ho Hn Hsub Hf.
  destruct (make_ends_Z nt (λ j, rnd_name rs (f j)) target k) as [nt' H'].
  - intros j _. by eapply only_fresh.
  - by intros i j ?%(inj _)%(inj _).
  - exists nt'. split; [done|]. eapply only_made; eauto. by apply make_ends_made.
Qed.

(** The tags used when [m] masters, and then their clerk, have been started. *)
Definition used_masters (m : Z) (t : Tag) : Prop := match t with TMaster i _ => i < m | _ => False end.
Definition used_clerk (t : Tag) : Prop := match t with TMaster _ _ | TClerk _ => True | _ => False end.

(** ... and then the groups before [gi] and the servers before [i] of [gi]. *)
Definition used_groups (gi i : Z) (t : Tag) : Prop :=
  match t with
  | TMaster _ _ | TClerk _ => True
  | TEnd g k _ | TMend g k _ => g < gi ∨ g = gi ∧ k < i
  end.

Lemma make_masters_Ok rs z :
  Inj (=) (=) (rnd_name rs) →
  ∃ cfg, make_masters rs z = Ok cfg ∧ only (net cfg) rs used_clerk.
Proof.
  intros Hinj. unfold make_masters.
  set (cfg0 := mkConfig _ _ _ _ _ _ _ _ _ _).
  edestruct (foldM_range_Ok (λ m c, only (net c) rs (used_masters m) ∧ nmasters c = 3 ∧
      len (masterservers c) = 3)
    (λ cfg i, StartMasterServer cfg i (λ j, rnd_name rs (TMaster i j)) (rnd_boot rs (-1) i)
      (rnd_srv rs (-1) i)) 3 cfg0) as (c1 & H1 & Ho & Hm & _); [done|..].
  { split; [|done]. by intros x ?%elem_of_empty. }
  { intros i s Hi (Ho & Hm & Hl). unfold StartMasterServer.
    destruct (make_ends_only (net s) rs (used_masters i) (used_masters (i + 1)) (TMaster i)
      mastername (nmasters s)) as (nt' & -> & Ho'); try done.
    - by intros ? ? [= ?].
    - intros j. cbn. lia.
    - intros [| |g k|]; cbn; done || lia.
    - intros j. cbn. lia.
    - cbn. rewrite slice_set_Ok by lia. cbn. eexists. split; [done|]. cbn.
      by rewrite len_insert. }
  change (nmasters cfg0) with 3. rewrite H1. cbn. unfold shardclerk.
  destruct (make_ends_only (net c1) rs (used_masters 3) used_clerk TClerk
      mastername (nmasters c1)) as (nt' & -> & Ho'); try done.
  - by intros ? ? [= ?].
  - by intros j ?.
  - by intros [].
  - cbn. eexists. split; [done|]. done.
Qed.

(** A group during its construction: nothing starts but in order. *)
Record building rs cfg (gi i : Z) (gg : group) : Prop := mkBuilding {
  bd_group : get_group cfg gi = Ok gg;
  bd_only : only (net cfg) rs (used_groups gi i);
  bd_servers : len (servers gg) = n cfg;
  bd_saved : len (saved gg) = n cfg;
  bd_endnames : len (endnames gg) = n cfg;
  bd_mendnames : len (mendnames gg) = 3;
}.

Lemma used_groups_fresh gi i rs cfg :
  Inj (=) (=) (rnd_name rs) → only (net cfg) rs (used_groups gi i) →
  fresh cfg (λ j, rnd_name rs (TEnd gi i j)) (λ j, rnd_name rs (TMend gi i j)).
Proof.
  intros Hinj Ho. constructor.
  - intros j _. eapply only_fresh; [done..|]. cbn. lia.
  - intros j _. eapply only_fresh; [done..|]. cbn. lia.
  - by intros a b [=]%(inj _).
  - by intros a b [=]%(inj _).
  - by intros a b [=]%(inj _).
Qed.

Lemma start_building rs cfg gi i gg cfg' :
  building rs cfg gi i gg → start_random rs cfg gi i = Ok cfg' →
  n cfg' = n cfg ∧ nmasters cfg' = nmasters cfg ∧ len (groups cfg') = len (groups cfg) ∧
  i < 3 ∧ ∃ gg', building rs cfg' gi (i + 1) gg'.
Proof.
  intros [Hg Ho L1 L2 L3 L4] (gg1 & gg' & nt1 & nt2 & HS)%StartServer_inv.
  destruct HS as [Hg1 He Hm Hput Hgid Hrow Hmrow (old & _ & Hsv & Hks)].
  assert (gg1 = gg) as -> by congruence.
  destruct (get_group_put _ _ _ _ gi Hput) as (Hget & Hnet & Hn).
  assert (Hnm : nmasters cfg' = nmasters cfg ∧ len (groups cfg') = len (groups cfg)).
  { unfold put_group in Hput. mbind_inv Hput. injection Hput as <-. split; [done|].
    by apply slice_set_len in E. }
  destruct Hnm as [Hnm Hlg]. pose proof (slice_set_inv _ _ _ _ Hmrow) as [Hi _].
  split_and!; [done..|lia|]. exists gg'. rewrite decide_True in Hget by done.
  constructor; [done|..]; rewrite ?Hn.
  - rewrite Hnet. cbn. set (used1 := λ t, used_groups gi i t ∨ ∃ j, t = TEnd gi i j).
    assert (Ho1 : only nt1 rs used1).
    { eapply (only_made _ _ rs _ _ (TEnd gi i)); [exact He|exact Ho|..]; unfold used1; eauto. }
    change (only nt2 rs (used_groups gi (i + 1))).
    eapply (only_made _ _ rs _ _ (TMend gi i)); [exact Hm|exact Ho1|..].
    + intros t [Hu|[j ->]]; [destruct t; cbn in *; done || lia|cbn; lia].
    + intros j. cbn. lia.
  - by rewrite (slice_set_len _ _ _ _ Hks).
  - by rewrite (slice_set_len _ _ _ _ Hsv).
  - by rewrite (slice_set_len _ _ _ _ Hrow).
  - by rewrite (slice_set_len _ _ _ _ Hmrow).
Qed.

Lemma new_building rs cfg gi :
  0 ≤ gi < len (groups cfg) → 0 ≤ n cfg → nmasters cfg = 3 →
  only (net cfg) rs (used_groups gi 0) →
  ∃ cfg', put_group cfg gi (new_group cfg gi) = Ok cfg' ∧ building rs cfg' gi 0 (new_group cfg gi) ∧
    n cfg' = n cfg ∧ nmasters cfg' = 3 ∧ len (groups cfg') = len (groups cfg).
Proof.
  intros Hgi Hn Hm Ho. unfold put_group. rewrite slice_set_Ok by lia. cbn. eexists. split; [done|].
  split_and!; [|done|done|apply len_insert].
  constructor; [|exact Ho|cbn; rewrite len_replicate; lia..].
  unfold get_group. cbn. unfold slice_get. rewrite decide_True by lia.
  by rewrite list_lookup_insert_eq by (unfold len in Hgi; lia).
Qed.

(** A group can be filled when it has no more servers than there are masters. *)
Lemma make_group_Ok rs cfg gi :
  Inj (=) (=) (rnd_name rs) → 0 ≤ gi < len (groups cfg) → 0 ≤ n cfg ≤ 3 → nmasters cfg = 3 →
  only (net cfg) rs (used_groups gi 0) →
  ∃ cfg', make_group rs cfg gi = Ok cfg' ∧ only (net cfg') rs (used_groups (gi + 1) 0) ∧
    n cfg' = n cfg ∧ nmasters cfg' = 3 ∧ len (groups cfg') = len (groups cfg).
Proof.
  intros Hinj Hgi Hn Hm Ho. unfold make_group. rewrite (proj2 (Z.ltb_ge _ _)) by lia.
  destruct (new_building rs cfg gi) as (cfg0 & -> & HB0 & Hn0 & Hm0 & Hl0); [done|lia|done..|].
  cbn. unfold StartGroup. rewrite Hn0.
  destruct (foldM_range_Ok (λ i c, n c = n cfg ∧ nmasters c = 3 ∧ len (groups c) = len (groups cfg) ∧
      ∃ gg, building rs c gi i gg) (λ cfg i, start_random rs cfg gi i) (n cfg) cfg0)
    as (c' & -> & H1 & H2 & H3 & gg & HB); [lia|by eauto| |].
  - intros i s Hi (H1 & H2 & H3 & gg & HB).
    destruct (StartServer_Ok s gi i _ _ (rnd_boot rs gi i) (rnd_srv rs gi i) gg (bd_group _ _ _ _ _ HB)
      (used_groups_fresh gi i rs s Hinj (bd_only _ _ _ _ _ HB))) as [s' Hs].
    1-4: destruct HB; lia.
    exists s'. split; [exact Hs|]. destruct (start_building _ _ _ _ _ _ HB Hs) as (H4 & H5 & H6 & _ & ?).
    split_and!; congruence || done.
  - exists c'. split_and!; [done| |done..]. intros x (t & Ht & ->)%(bd_only _ _ _ _ _ HB).
    exists t. split; [|done]. destruct t; cbn in *; done || lia.
Qed.

(** ... and not when it has more. *)
Lemma make_group_bound rs cfg gi cfg' :
  0 ≤ gi < len (groups cfg) → nmasters cfg = 3 → only (net cfg) rs (used_groups gi 0) →
  make_group rs cfg gi = Ok cfg' → 0 ≤ n cfg ≤ 3.
Proof.
  intros Hgi Hm Ho. unfold make_group. case_match eqn:Hn; [done|]. apply Z.ltb_ge in Hn.
  destruct (new_building rs cfg gi) as (cfg0 & -> & HB0 & Hn0 & Hm0 & Hl0); [done..|].
  cbn. unfold StartGroup. rewrite Hn0. intros H.
  assert (HP : n cfg ≤ 3 ∧ ∃ gg, building rs cfg' gi (n cfg) gg); [|lia]. revert H.
  apply (foldM_range (λ i c, i ≤ 3 ∧ ∃ gg, building rs c gi i gg)); [done|split; [lia|eauto]|].
  intros i s s' Hi (_ & gg & HB) Hs.
  destruct (start_building _ _ _ _ _ _ HB Hs) as (_ & _ & _ & ? & ?). split; [lia|done].
Qed.

Lemma make_config_Ok rs k u z :
  Inj (=) (=) (rnd_name rs) → 0 ≤ k ≤ 3 →
  ∃ cfg, make_config rs k u z = Ok cfg ∧ n cfg = k ∧ nmasters cfg = 3 ∧
    only (net cfg) rs (used_groups 3 0).
Proof.
  intros Hinj Hk. unfold make_config.
  destruct (make_masters_Ok rs z Hinj) as (c0 & E0 & Ho). rewrite E0. cbn.
  destruct (blank_masters _ _ _ E0) as (_ & _ & Hm0).
  set (c1 := mkConfig _ _ _ _ _ _ _ _ _ _).
  destruct (foldM_range_Ok (λ gi c, n c = k ∧ nmasters c = 3 ∧ len (groups c) = 3 ∧
      only (net c) rs (used_groups gi 0)) (make_group rs) 3 c1) as (c2 & H2 & ? & ? & ? & ?); [done|..].
  - split_and!; [done..|]. intros x (t & Ht & ->)%Ho. exists t. by destruct t.
  - intros gi s Hgi (H1 & H3 & H4 & H5).
    destruct (make_group_Ok rs s gi) as (s' & ? & ? & ? & ? & ?); [done|lia|lia|done..|].
    exists s'. split_and!; congruence || done.
  - change (ngroups c1) with 3. rewrite H2. cbn. by eexists.
Qed.

Lemma make_config_bound rs k u z cfg :
  Inj (=) (=) (rnd_name rs) → make_config rs k u z = Ok cfg → 0 ≤ k ≤ 3.
Proof.
  intros Hinj (c0 & c1 & H0 & H1 & _)%make_config_inv.
  destruct (make_masters_Ok rs z Hinj) as (c0' & E0 & Ho). assert (c0' = c0) as -> by congruence.
  destruct (blank_masters _ _ _ E0) as (_ & _ & Hm0).
  change (range 0 3) with (0 :: range 1 3) in H1. cbn [foldM] in H1. mbind_inv H1.
  apply make_group_bound in E; [done|done|done|].
  intros x (t & Ht & ->)%Ho. exists t. by destruct t.
Qed.

(** The loop of makeClient that fills the slice of names. *)
Lemma client_loop nt (names : list string) rnd k s' :
  0 ≤ k →
  foldM (λ '(nt, names) j, names ← slice_set names j (rnd j);
      nt ← make_end nt (rnd j) (mastername j); mret (nt, names)) (nt, names) (range 0 k) = Ok s' →
  k ≤ len names.
Proof.
  intros Hk H. assert (HP : k ≤ len names ∧ len s'.2 = len names); [|lia]. revert H.
  apply (foldM_range (λ i s, i ≤ len names ∧ len s.2 = len names)); [done|cbn; unfold len; lia|].
  intros i [nt1 n1] s2 Hi [_ Hl] H. mbind_inv H. mbind_inv H. injection H as <-.
  apply slice_set_inv in E as [? ->]. cbn in *. rewrite len_insert. lia.
Qed.

Lemma client_loop_Ok nt (names : list string) rnd k :
  0 ≤ k ≤ len names → (∀ i j, rnd i = rnd j → i = j) → (∀ j, rnd j ∉ Labrpc.ends nt) →
  ∃ s', foldM (λ '(nt, names) j, names ← slice_set names j (rnd j);
      nt ← make_end nt (rnd j) (mastername j); mret (nt, names)) (nt, names) (range 0 k) = Ok s'.
Proof.
  intros Hk Hinj Hf.
  edestruct (foldM_range_Ok (λ i (s : Net * list string), len s.2 = len names ∧
     ∀ j, i ≤ j → rnd j ∉ Labrpc.ends s.1)
     (λ '(nt, names) j, names ← slice_set names j (rnd j);
      nt ← make_end nt (rnd j) (mastername j); mret (nt, names)) k (nt, names)) as (s' & -> & _);
    [lia|by split| |by eexists].
  intros i [nt1 n1] Hi [Hl He]. cbn in *. rewrite slice_set_Ok by lia. cbn.
  destruct (make_end_Ok nt1 (rnd i) (mastername i)) as [nt2 E2]; [by apply He|]. rewrite E2. cbn.
  eexists. split; [done|]. cbn. rewrite len_insert. split; [done|].
  apply make_end_inv in E2 as (_ & _ & _ & _ & ->). intros j Hj.
  intros [->%elem_of_singleton%Hinj|Hin]%elem_of_union; [lia|]. apply (He j); [lia|done].
Qed.

Lemma skv_start_recovers l i (rf : Raft.Raft Cmd) z g m boot :
  RaftProps.durable rf →
  let rf' := skv_rf (skv_StartServer l i (Persister.Copy (Raft.persister rf)) z g m boot) in
  Raft.currentTerm rf' = Raft.currentTerm rf ∧ Raft.votedFor rf' = Raft.votedFor rf ∧
  Raft.logs rf' = Raft.logs rf ∧ Raft.role rf' = Raft.Follower ∧ Raft.commitIndex rf' = 0.
Proof.
  unfold RaftProps.durable, Inv.saved, skv_StartServer. intros HD. destruct boot as [[r1 r2] now].
  cbn [skv_rf]. by rewrite Persister.Copy_id, Inv.Make_eq, HD.
Qed.

(** ** Theorems *)

(** C31. The sharded test cluster stays well wired: whatever a test does with its
    configuration (starting, crashing and restarting servers and groups, letting
    servers run, making and deleting clients), every end point of every started
    server exists, leads to the server it was made for and is enabled exactly
    while its owner runs, no two servers share one, the network knows exactly the
    running servers, and a server and the configuration share one persister. *)
Theorem configuration_wired rs k u z cfg ops cfg' :
  make_config rs k u z = Ok cfg → foldM run_op cfg ops = Ok cfg' → wired cfg'.
Proof.
  intros HW%wired_make_config. apply foldM_keeps; [|done]. intros s o s' _. apply wired_op.
Qed.

(** C32. A crash cuts a server off and a restart recovers it: ShutdownServer of a
    running server succeeds, disables the end points of that server and no
    other, and makes the network forget it; StartServer then succeeds with fresh
    names, and the new raft instance is a follower that has committed nothing
    and has the term, the vote and the log that were persisted. *)
Theorem crash_and_restart cfg gi gg i kv rnd mrnd boot srv :
  wired cfg → get_group cfg gi = Ok gg → slice_get (servers gg) i = Ok (Some kv) →
  RaftProps.durable (skv_rf kv) → fresh cfg rnd mrnd →
  ∃ cfg1 cfg2 gg2 kv2,
    ShutdownServer cfg gi i = Ok cfg1 ∧
    known (net cfg1) (servername (gid gg) i) = false ∧
    (∀ gi' gg' b i' j x, get_group cfg gi' = Ok gg' → point gg' b i' j x →
       Labrpc.enabled (net cfg1) !! x =
         if decide (gi' = gi ∧ i' = i) then Some false else Labrpc.enabled (net cfg) !! x) ∧
    StartServer cfg1 gi i rnd mrnd boot srv = Ok cfg2 ∧
    get_group cfg2 gi = Ok gg2 ∧ slice_get (servers gg2) i = Ok (Some kv2) ∧
    Raft.currentTerm (skv_rf kv2) = Raft.currentTerm (skv_rf kv) ∧
    Raft.votedFor (skv_rf kv2) = Raft.votedFor (skv_rf kv) ∧
    Raft.logs (skv_rf kv2) = Raft.logs (skv_rf kv) ∧
    Raft.role (skv_rf kv2) = Raft.Follower ∧ Raft.commitIndex (skv_rf kv2) = 0.
Proof.
  intros HW Hg Hkv HD HF. assert (Hu : up gg i = true) by (unfold up; by rewrite Hkv).
  destruct (ShutdownServer_Ok cfg gi i gg HW Hg Hu) as [cfg1 H1].
  pose proof (ShutdownServer_net _ _ _ _ _ HW Hg H1) as (Hen & Hends & Hn & Hnm).
  pose proof (wired_shutdown _ _ _ _ HW H1) as HW1.
  destruct (ShutdownServer_inv _ _ _ _ H1) as (gg0 & gg1 & nt1 & HS).
  pose proof HS as [Hg0 _ Hput Hgid He Hm [Hl1 Hl2] Hks Hsv]. assert (gg0 = gg) as -> by congruence.
  destruct (get_group_put _ _ _ _ gi Hput) as (Hget1 & Hnet & _). rewrite decide_True in Hget1 by done.
  destruct (wd_groups _ HW _ _ Hg) as [_ [L1 L2 L3 _ Gf Gs]].
  destruct (Gf _ Hu) as (_ & r & Hr%slice_get_bounds). pose proof (slice_get_bounds _ _ _ Hkv) as Hi.
  assert (HF1 : fresh cfg1 rnd mrnd) by (destruct HF; constructor; rewrite ?Hends, ?Hn, ?Hnm; done).
  destruct (StartServer_Ok cfg1 gi i rnd mrnd boot srv gg1 Hget1 HF1) as [cfg2 H2];
    [rewrite He; lia|rewrite Hm; lia|lia..| ].
  destruct (StartServer_inv _ _ _ _ _ _ _ _ H2) as (gg1' & gg2 & nt2 & nt3 & HS2).
  destruct HS2 as [Hg1' _ _ Hput2 _ _ _ (old & Hold & _ & Hks2)]. assert (gg1' = gg1) as -> by congruence.
  destruct (get_group_put _ _ _ _ gi Hput2) as (Hget2 & _). rewrite decide_True in Hget2 by done.
  rewrite Hsv, (Gs _ _ Hkv) in Hold. injection Hold as <-.
  eexists cfg1, cfg2, gg2, _. split_and!; [done| | |exact H2|exact Hget2|..].
  - rewrite Hnet. cbn. by rewrite known_delete, decide_True.
  - exact Hen.
  - by rewrite (slice_get_set _ _ _ _ i Hks2), decide_True.
  - by apply skv_start_recovers.
  - by apply skv_start_recovers.
  - by apply skv_start_recovers.
  - by apply skv_start_recovers.
  - by apply skv_start_recovers.
Qed.

(** C33. The sizes of a sharded test cluster: with random strings that never
    repeat, make_config returns exactly for group sizes 0 to 3 (the rows of end
    points to the masters are as many as the masters, but are indexed by the
    servers), and a client can be made exactly for size 3 (its names are as many
    as the servers, but are indexed by the masters). *)
Theorem make_config_sizes rs k u z ck rnd :
  Inj (=) (=) (rnd_name rs) → (∀ i j, rnd i = rnd j → i = j) → (∀ j t, rnd j ≠ rnd_name rs t) →
  ((∃ cfg, make_config rs k u z = Ok cfg) ↔ 0 ≤ k ≤ 3) ∧
  ((∃ cfg cfg', make_config rs k u z = Ok cfg ∧ makeClient cfg ck rnd = Ok cfg') ↔ k = 3).
Proof.
  intros Hinj Hri Hrt. split; split.
  - intros [cfg H]. by eapply make_config_bound.
  - intros Hk. destruct (make_config_Ok rs k u z Hinj Hk) as (cfg & ? & _). by exists cfg.
  - intros (cfg & cfg' & H & Hc). pose proof (make_config_bound _ _ _ _ _ Hinj H) as Hk.
    destruct (make_config_Ok rs k u z Hinj Hk) as (cfg0 & H0 & Hn & Hm & _).
    assert (cfg0 = cfg) as -> by congruence. unfold makeClient in Hc. mbind_inv Hc.
    apply client_loop in E; [|lia]. rewrite len_replicate in E by lia. lia.
  - intros ->. destruct (make_config_Ok rs 3 u z Hinj) as (cfg & H0 & Hn & Hm & Ho); [lia|].
    destruct (client_loop_Ok (net cfg) (replicate (Z.to_nat (n cfg)) ""%string) rnd (nmasters cfg))
      as [[nt names] E]; [rewrite len_replicate; lia|done|by intros j (t & _ & ?%Hrt)%Ho|].
    eexists cfg, _. split; [done|]. unfold makeClient. by rewrite E.
Qed.
End build.
End ShardHarnessBuild.
