(* ===== verification/NetExamples.v ===== *)
(** * NetExamples: the theorems on the network and the harness at concrete inputs

    A counter behind a simulated network: numbers are names, arguments and byte
    strings; the receiver's state is a number. *)
From Stdlib Require Import Ascii.
From S2P Require Import Prelude Persister Labrpc Raft Harness HarnessProps HarnessChecks.

Module NetExamples.
Import Labrpc.

Ltac by_run := vm_compute; first [reflexivity|discriminate].

#[local] Notation Ev := (@Labrpc.Event Z Z Z Z).
#[local] Notation St := (@Labrpc.State Z _ _ Z Z Z).
#[local] Notation Req := (@Labrpc.reqMsg Z Z).

(** Add the argument to the counter and return the new value. *)
Definition bump : @Method Z Z := mkMethod "Add" "" 3 true 0 (λ w v, (w + v, w + v)).
Definition service : @Service Z Z := MakeService "Counter" [bump].
Definition server : @Server Z Z := AddService MakeServer service.

Definition encode (z : Z) : Z := z + 1.
Definition decode (z : Z) : option Z := Some (z - 1).

#[local] Notation run := (Labrpc.run (Name:=Z) encode decode 0).
#[local] Notation exec := (Labrpc.exec (Name:=Z) encode decode 0).
#[local] Notation Reachable := (Labrpc.Reachable (Name:=Z) encode decode 0).

Definition setup : list Ev :=
  [NNewServer server; NAdmin (OpMakeEnd 7); NAdmin (OpConnect 7 1); NAdmin (OpEnable 7 true);
   NAdmin (OpAddServer 1 0%nat)].
Definition ready : St := default (Labrpc.init 10) (run (Labrpc.init 10) setup).
Definition request : Req := Labrpc.call_request encode 7 "Counter.Add" 5.
Definition answered : St :=
  default ready (run ready [NSend request; NRead 0; NAccept 0 500; NHandle 0; NReceive 0;
                            NFinish 0 500 0]).
Definition handled : St :=
  default ready (run ready [NSend request; NRead 0; NAccept 0 500; NHandle 0; NReceive 0;
                            NAdmin (OpDeleteServer 1)]).

Lemma net_run_reachable (s : St) (es : list Ev) (s' : St) :
  (∀ e rs, e ∈ es → e = NNewServer rs → Labrpc.count rs = 0) →
  Reachable s → run s es = Some s' → Reachable s'.
Proof.
  revert s. induction es as [|e es IH]; intros s Hnew Hs Hrun; cbn in Hrun; [by simplify_eq|].
  destruct (exec s e) as [[s1| |]|] eqn:He; try done.
  apply (IH s1); [intros e' rs ?; apply Hnew; by right| |done].
  eapply reach_step; [done|done|]. intros rs. apply Hnew. by left.
Qed.

Lemma reach_answered : Reachable answered.
Proof.
  apply (net_run_reachable (Labrpc.init 10) (setup ++ [NSend request; NRead 0; NAccept 0 500;
    NHandle 0; NReceive 0; NFinish 0 500 0])).
  - intros e rs Hin ->. repeat (apply elem_of_cons in Hin as [[= ->]|Hin]; [done|]).
    by repeat (apply elem_of_cons in Hin as [Hin|Hin]; [done|]); apply elem_of_nil in Hin.
  - apply reach_init.
  - vm_compute. reflexivity.
Qed.

Lemma at_most_once_witness :
  NoDup (fst <$> Labrpc.calls answered) ∧ Labrpc.calls answered = [(0%nat, 0%nat)] ∧
  Labrpc.world answered = 15.
Proof.
  split; [|split; by_run]. apply (Labrpc.at_most_once encode decode 0 answered). exact reach_answered.
Defined.

Lemma no_reply_after_delete_witness :
  ∃ s' f, exec handled (NFinish 0 500 0) = Some (Ok s') ∧
    Labrpc.flights s' !! 0%nat = Some f ∧ Labrpc.phase f = Replied Labrpc.failure ∧
    Labrpc.world s' = 15.
Proof.
  destruct (Labrpc.no_reply_after_delete encode decode 0 handled 0
    (mkFlight request (Finished (mkInfo 1 0 true false) (Some (mkReply true (Some 16)))) Consumed)
    (mkInfo 1 0 true false) (Some (mkReply true (Some 16))) 500 0
    (put_flight handled 0 (mkFlight request (Replied Labrpc.failure) Consumed)))
    as (f & Hf & Hp & _);
    [by_run|by_run|right; by_run|by_run|].
  eexists _, f. split; [by_run|]. split; [exact Hf|]. split; [exact Hp|by_run].
Defined.

Lemma dispatch_routes_witness :
  ∃ rep, snd (Labrpc.srv_dispatch encode decode 0 server 10
                (Labrpc.call_request encode 7 "Counter.Add" 5)) = Ok (15, rep) ∧
         Labrpc.call_reply decode rep = Ok (Some 15).
Proof.
  apply (Labrpc.dispatch_routes encode decode 0 server 10 7 service bump 5).
  - intros v. unfold decode, encode. f_equal. lia.
  - intros c Hc. repeat (apply elem_of_cons in Hc as [->|Hc]; [done|]).
    by apply elem_of_nil in Hc.
  - reflexivity.
  - reflexivity.
Defined.

Lemma reliable_call_witness :
  ∃ s' f, run ready [NSend request; NRead 0; NAccept 0 3; NHandle 0; NReceive 0; NFinish 0 3 0] =
      Some s' ∧ Labrpc.flights s' !! 0%nat = Some f ∧
    Labrpc.phase f = Replied (mkReply true (Some 16)) ∧ Labrpc.world s' = 15 ∧
    Labrpc.calls s' = Labrpc.calls ready ++ [(0%nat, 0%nat)] ∧ Labrpc.GetCount s' 1 = Ok 1.
Proof.
  apply (Labrpc.reliable_call encode decode 0 ready request 1 0 server 15
           (mkReply true (Some 16)) 3 3 0); by_run.
Defined.

(** ** Three servers in a test configuration *)

Definition end_name (i j : Z) : string := Itoa i +:+ String "/"%char (Itoa j).
Definition three : res (Harness.config Z Z) :=
  make_config 3 false (λ i, (λ j, end_name i j) <$> range 0 3) (λ i _, i).
Definition cfg3 : Harness.config Z Z :=
  match three with
  | Ok cfg => cfg
  | _ => Harness.mkConfig MakeNetwork 0 [] [] [] ∅ 0
  end.

Lemma three_cases i : 0 ≤ i < 3 → i = 0 ∨ i = 1 ∨ i = 2.
Proof. lia. Qed.

Lemma cfg3_wf : HarnessProps.wf cfg3 end_name.
Proof.
  assert (Hn : Harness.n cfg3 = 3) by by_run.
  constructor; rewrite ?Hn.
  - intros i j Hi%three_cases Hj%three_cases.
    destruct Hi as [->|[->| ->]], Hj as [->|[->| ->]]; by_run.
  - intros i Hi%three_cases. destruct Hi as [->|[->| ->]]; eexists; by_run.
  - intros i j i' j' H. apply (Itoa_pair_inj "/"%char); [|exact H].
    intros [[Hd%Nat.leb_le _]|Hd]; discriminate Hd.
Qed.

Lemma partition_splits_witness :
  ∃ nt', partition cfg3 [0; 2] [1] = Ok (cfg3 <| Harness.net := nt' |>) ∧
    HarnessProps.link end_name nt' 0 2 = Some true ∧
    HarnessProps.link end_name nt' 0 1 = Some false ∧
    HarnessProps.link end_name nt' 1 2 = Some false.
Proof.
  destruct (HarnessProps.partition_splits cfg3 end_name [0; 2] [1] cfg3_wf)
    as (nt' & Hp & Hin & _).
  - split_and!.
    + intros x Hx. repeat (apply elem_of_cons in Hx as [->|Hx]; [by vm_compute|]).
      by apply elem_of_nil in Hx.
    + intros x Hx. repeat (apply elem_of_cons in Hx as [->|Hx]; [by vm_compute|]).
      by apply elem_of_nil in Hx.
    + by vm_compute.
    + by vm_compute.
    + intros x Hx Hx'. apply list_elem_of_singleton in Hx' as ->.
      repeat (apply elem_of_cons in Hx as [Hx|Hx]; [done|]). by apply elem_of_nil in Hx.
  - exists nt'. split; [exact Hp|]. split; [|split].
    + rewrite (Hin 0 2); [by_run|by left|by right; left].
    + rewrite (Hin 0 1); [by_run|by left|by right; right; left].
    + rewrite (Hin 1 2); [by_run|by right; right; left|by right; left].
Defined.

Lemma make_partition_majority_witness :
  (∃ p1 p2, make_partition 5 2 = Ok (p1, p2) ∧ 2 ∈ p2 ∧ 5 < 2 * len p1) ∧
  make_partition 5 2 = Ok ([0; 1; 3], [4; 2]).
Proof.
  split; [|by_run].
  destruct (HarnessProps.make_partition_majority 2 2) as [(p1 & p2 & H & _ & _ & Hl & Hm) _];
    [by vm_compute|by vm_compute|].
  exists p1, p2. split; [exact H|]. split; [exact Hl|exact Hm].
Defined.
(** ** The readers of two peers *)

Definition two_peers : rconfig Z :=
  mkRConfig MakeNetwork 2 0 [true; true] [""; ""] [true; true] [None; None] [None; None] [∅; ∅].
Definition two_read : list (Z * Z * Z) := [(0, 1, 7); (1, 1, 7); (0, 2, 8)].
Definition two_after : rconfig Z :=
  match HarnessChecks.read_all two_peers two_read with Ok cfg => cfg | _ => two_peers end.

Lemma two_fresh : HarnessChecks.fresh two_peers.
Proof.
  split; [|split; reflexivity]. intros i idx. unfold HarnessChecks.applied_at.
  destruct (slice_get (rlogs two_peers) i) as [lg| |] eqn:Hi; try done.
  apply slice_get_Ok in Hi as [_ Hi]. cbn in Hi.
  destruct (Z.to_nat i) as [|[|k]]; cbn in Hi; [by simplify_eq..|done].
Qed.

Lemma apply_check_sound_witness :
  (∀ v v', (0, 1, v) ∈ two_read → (1, 1, v') ∈ two_read → v = v') ∧
  nCommitted two_after 1 = Ok (2, 7) ∧ nCommitted two_after 2 = Ok (1, 8).
Proof.
  destruct (HarnessChecks.apply_check_sound two_peers two_read two_after) as (H & _);
    [exact two_fresh|vm_compute; reflexivity|].
  split; [intros v v'; apply H|]. split; vm_compute; reflexivity.
Defined.

(** ** Agreement *)

(** Peer 1 leads; after the first sleep both peers have applied 7 at index 1. *)
Definition leads1 (_ _ : nat) (i : Z) : Z * Z * bool := if i =? 1 then (1, 1, true) else (-1, 1, false).
Definition watch (r : nat) : rconfig Z := match r with O => two_peers | S _ => two_after end.
Definition ticks (r : nat) : Z := 20 * Z.of_nat r.

Lemma one_agrees_witness :
  one (λ _ _, two_peers) leads1 watch ticks 2 7 2 = Ok (Some 1) ∧
  ∃ r1 r2 nd, (r1 ≤ r2)%nat ∧ HarnessChecks.taken (λ _ _, two_peers) leads1 r1 1 ∧
    nCommitted (watch r2) 1 = Ok (nd, 7) ∧ 0 < nd ∧ 2 ≤ nd.
Proof.
  assert (H : one (λ _ _, two_peers) leads1 watch ticks 2 7 2 = Ok (Some 1)) by (vm_compute; reflexivity).
  split; [exact H|].
  apply (HarnessChecks.one_agrees (λ _ _, two_peers) leads1 watch ticks 2 7 2); [|exact H].
  intros r. unfold ticks. lia.
Defined.
End NetExamples.
