(* ===== verification/KVExamples.v ===== *)
(** * KVExamples: the theorems of the key/value service at concrete executions

    A leader of three peers commits an append and then a read; its server
    answers both. *)
From S2P Require Import Prelude Persister Raft RaftCluster RaftInv RaftInvLog.
From S2P Require Import RaftInvStep RaftSafety RaftProps RaftAgreement RaftSchedules LogInterface.
From S2P Require Import RaftApplied KVRaft KVRaftProps KVAgreement KVRaftRaces.

Module KVExamples.
Import Schedules KVRaces.

#[local] Notation sync_after := (after lock_check_holds).

Definition the_append : Op := append_op "1_1".
Definition the_get : Op := mkOp "Get" "k" "" "1_2".

(** Peer 0 leads and has accepted the append only. *)
Definition wrote : list (Event Op) := elect0 ++ [EStart 0 the_append].
(** It has accepted both commands, replicated them to peer 1 and committed. *)
Definition both_served : list (Event Op) :=
  elect0 ++ [EStart 0 the_append; EStart 0 the_get; ETick 2] ++ prepare 0 3 ++ acked 3 0.
(** Peer 1 has learnt the commit index. *)
Definition told : list (Event Op) := both_served ++ [ETick 2] ++ prepare 0 5 ++ [EDeliver 5 0].

Definition final : Cluster Op := sync_after told.

Lemma final_reachable : ReachableSync final.
Proof. apply after_reachable. by_run. Qed.

Lemma before0_ok : raft_ok (nodes before0 0).
Proof. by_run. Qed.
Lemma wrote_ok : raft_ok (nodes (sync_after wrote) 0).
Proof. by_run. Qed.

Lemma replay_exactly_once_witness :
  the_append ∈ [the_append] ∧
  (replay ([the_append] ++ the_append :: [the_get])).1 =
  (replay ([the_append] ++ [the_get])).1 ∧
  (replay ([the_append] ++ [the_get])).1 !! "k" = Some "x".
Proof.
  assert (H : the_append ∈ [the_append]) by left.
  split; [exact H|]. split; [|by_run].
  exact (proj2 (proj2 (KVRaftProps.replay_exactly_once [the_append] the_append [the_get])) H).
Defined.

(** The read is at index 2, and every poll sees the final state. *)
Definition the_server : RaftKV (Raft Op) := server (sync_after wrote) 0.
Definition poll_cur (_ : nat) : Z := applied_index final 0.
Definition poll_st2 (_ : nat) : bool * list (LogEntry Op) * Z := GetState2 (nodes final 0).

Lemma Get_reads_committed_witness :
  ∃ r, (Get the_server (mkGArgs "k" "1_2") poll_cur poll_st2).2 = Ok r ∧
    g_WrongLeader r = false ∧ g_Value r = "x" ∧ leads (kv_rf the_server) = true.
Proof.
  destruct (KVRaftProps.Get_reads_committed (ok := raft_ok) the_server (mkGArgs "k" "1_2")
    poll_cur poll_st2) as (r & Hr & Hok & _); [exact wrote_ok|intros n; by_run|].
  exists r. split; [exact Hr|].
  assert (Hg : (Get the_server (mkGArgs "k" "1_2") poll_cur poll_st2).2 =
               Ok (mkGReply false "x" 2)) by by_run.
  assert (r = mkGReply false "x" 2) as -> by congruence.
  split; [reflexivity|]. split; [reflexivity|]. apply Hok. reflexivity.
Defined.

Lemma PutAppend_acknowledges_witness :
  ∃ r, (PutAppend (server before0 0) (append_args "1_1") poll_cur poll_st2).2 = Ok r ∧
    pa_WrongLeader r = false ∧ pa_ID r = 1.
Proof.
  destruct (KVRaftProps.PutAppend_acknowledges (ok := raft_ok) (server before0 0)
    (append_args "1_1") poll_cur poll_st2) as (r & Hr & Hok & _);
    [exact before0_ok|intros n; by_run|].
  exists r. split; [exact Hr|].
  assert (Hg : (PutAppend (server before0 0) (append_args "1_1") poll_cur poll_st2).2 =
               Ok (mkPAReply false 1)) by by_run.
  assert (r = mkPAReply false 1) as -> by congruence.
  split; [reflexivity|]. apply Hok. reflexivity.
Defined.

Lemma replicas_agree_witness :
  ∃ st, replay_logs (logs (nodes final 0)) 2 = Ok st ∧
        replay_logs (logs (nodes final 1)) 2 = Ok st ∧ st.1 !! "k" = Some "x".
Proof.
  destruct (KVRaftProps.replicas_agree final 0 1 2 (mkEntry the_get 1) (mkEntry the_get 1))
    as (st & H0 & H1); [exact final_reachable|by_run..|].
  exists st. split; [exact H0|]. split; [exact H1|].
  assert (Hg : (λ st, st.1 !! "k") <$> replay_logs (logs (nodes final 0)) 2 =
               Ok (Some "x")) by by_run.
  rewrite H0 in Hg. by injection Hg.
Defined.

Definition final_ordered : Cluster Op := after in_order told.

Lemma final_in_order : ReachableInOrder final_ordered.
Proof. apply after_reachable. by_run. Qed.

Lemma servers_agree_witness :
  replay_logs (logs (nodes final_ordered 1)) 2 = replay_logs (logs (nodes final_ordered 0)) 2 ∧
  (λ st, st.1 !! "k") <$> replay_logs (logs (nodes final_ordered 0)) 2 = Ok (Some "x").
Proof.
  split; [|by_run].
  apply (KVAgreement.servers_agree final_ordered 1 0); [exact final_in_order|by_run..].
Defined.

Lemma own_log_shared (s : Cluster Op) i : KVAgreement.shared_view s i (logs (nodes s i)).
Proof. split; [reflexivity|]. intros k e He. exists [], s. split; [reflexivity|exact He]. Qed.

Lemma own_log_cut (s : Cluster Op) i : KVAgreement.cut_view s i (logs (nodes s i)).
Proof. split; [reflexivity|]. apply own_log_shared. Qed.

Lemma Get_reads_history_witness :
  ∃ ops k, Agreement.abstracts final_ordered ops ∧ (k ≤ length ops)%nat ∧
    "x" = default "" (KVAgreement.store_at ops k !! "k").
Proof.
  assert (Hg : (Get the_server (mkGArgs "k" "1_2") poll_cur
    (λ _, (true, logs (nodes final_ordered 0), commitIndex (nodes final_ordered 0)))).2 =
    Ok (mkGReply false "x" 2)) by by_run.
  assert (H := KVAgreement.Get_reads_history the_server (mkGArgs "k" "1_2") poll_cur (λ _, true)
    (λ _, final_ordered) (λ _, final_ordered) (λ _, logs (nodes final_ordered 0)) 0).
  cbv zeta beta in H. rewrite Hg in H.
  destruct H as (n & _ & _ & H).
  - intros _. exact final_in_order.
  - intros n. by_run.
  - intros _. apply own_log_cut.
  - intros _. exists []. reflexivity.
  - reflexivity.
  - destruct H as (ops & k & HA & Hk & Hv); [left; reflexivity|].
    exists ops, k. split; [exact HA|]. split; [exact Hk|exact Hv].
Defined.

Lemma delivered_is_settled_witness :
  mkApplyMsg 1 the_append false ∈ applied final_ordered 0 ∧
  take 1 (logs (nodes final_ordered 1)) = take 1 (logs (nodes final_ordered 0)) ∧
  command <$> logs (nodes final_ordered 0) !! 0%nat = Some the_append.
Proof.
  assert (Hm : mkApplyMsg 1 the_append false ∈ applied final_ordered 0).
  { assert (Ha : applied final_ordered 0 = [mkApplyMsg 1 the_append false; mkApplyMsg 2 the_get false]) by by_run.
    rewrite Ha. left. }
  split; [exact Hm|].
  destruct (Applied.delivered_is_settled final_ordered 0 (mkApplyMsg 1 the_append false) [] final_ordered 1)
    as [[_ Hs] Ht]; [exact final_in_order|by_run|exact Hm|reflexivity|by_run|right; left; by_run|].
  split; [exact Ht|]. rewrite <- list_lookup_fmap. exact Hs.
Defined.


(** Peer 1, the leader of term 2, acknowledges "old"; "new" is committed later. *)
Lemma writes_in_real_time_order_witness :
  (PutAppend (server (after in_order (elect0 ++ elect1)) 1) (put_args_x "old" "1_1")
     (λ _, applied_index stale0 1)
     (KVAgreement.polled (λ _, stale0) (λ _, logs (nodes stale0 1)) 1)).2 = Ok (mkPAReply false 1) ∧
  slice_get (logs (nodes stale1 1)) 1 = Ok (mkEntry (put_x "new" "1_2") 2) ∧ 1 < 2.
Proof.
  assert (Hr : (PutAppend (server (after in_order (elect0 ++ elect1)) 1) (put_args_x "old" "1_1")
     (λ _, applied_index stale0 1)
     (KVAgreement.polled (λ _, stale0) (λ _, logs (nodes stale0 1)) 1)).2 = Ok (mkPAReply false 1)) by by_run.
  assert (He : slice_get (logs (nodes stale1 1)) 1 = Ok (mkEntry (put_x "new" "1_2") 2)) by by_run.
  split; [exact Hr|]. split; [exact He|].
  destruct (KVAgreement.writes_in_real_time_order (λ _, stale0) (λ _, logs (nodes stale0 1))
    (λ _, applied_index stale0 1) 1) with (kv := server (after in_order (elect0 ++ elect1)) 1)
    (args := put_args_x "old" "1_1") (r := mkPAReply false 1) as (n & Hn & H).
  { intros _. apply after_reachable. by_run. }
  { intros n. by_run. }
  { intros n. by_run. }
  { intros _. apply own_log_shared. }
  { exact Hr. }
  { reflexivity. }
  apply (H (EStart 1 (put_x "new" "1_2") :: second_put) stale1 1 2 (mkEntry (put_x "new" "1_2") 2)).
  - apply (after_app in_order first_put); by_run.
  - by_run.
  - exact He.
  - by_run.
  - intros e0 He0 Heq. assert (Hl : logs (nodes stale0 1) = [mkEntry (put_x "old" "1_1") 2]) by by_run.
    rewrite Hl in He0. apply list_elem_of_singleton in He0 as ->. discriminate Heq.
Defined.

(** Server 1 becomes the leader in round 2. *)
Definition late_rpc (r : nat) (i : Z) (args : GetArgs) : option GetReply :=
  if i =? 0 then None else Some (mkGReply (negb (Nat.eqb r 2 && (i =? 1))) "v" 9).

Lemma ClerkGet_terminates_witness :
  ∃ ck', ClerkGet late_rpc 5 0 (MakeClerk [0; 1; 2]) "k" = Some (ck', "v") ∧
         cnt ck' = 1 ∧ id ck' = 9.
Proof.
  destruct (KVRaftProps.ClerkGet_terminates late_rpc 5 2 (MakeClerk [0; 1; 2]) "k")
    as (ck' & v & pre & i & post & rep & H & Hs & Hr & Hw & _ & Hv & Hc & Hi).
  - lia.
  - exists 1. split; [right; left|]. exists (mkGReply false "v" 9). by_run.
  - intros r' i Hr Hi (rep & Hrep & Hw). unfold late_rpc in Hrep.
    destruct (i =? 0); [done|]. injection Hrep as <-. cbn in Hw.
    destruct r' as [|[|[|r']]]; cbn in Hw; try done; lia.
  - exists ck'. assert (Hg : ClerkGet late_rpc 5 0 (MakeClerk [0; 1; 2]) "k" =
      Some (mkClerk [0; 1; 2] 9 1, "v")) by by_run.
    split; [congruence|]. assert (ck' = mkClerk [0; 1; 2] 9 1) as -> by congruence.
    split; [exact Hc|reflexivity].
Defined.
End KVExamples.
