(* ===== verification/ServiceExamples.v ===== *)
(** * ServiceExamples: the theorems on MapReduce, diskv and the accept loops at
    concrete inputs *)
From Stdlib Require Import Ascii.
From S2P Require Import Prelude MapReduce MapReduceProps MapReduceJob MapReduceJobProps DiskV Listener.

Module ServiceExamples.

(** ** A job with one input file and two result files *)

Section mapreduce.
Import MapReduce MapReduceProps.

(** A file holds one record: its first character is the key, the rest the value. *)
Definition decode1 (content : string) : list KeyValue :=
  match content with
  | EmptyString => []
  | String k v => [mkKV (String k EmptyString) v]
  end.
Definition keys_of (m : FS) : list string := (map_to_list m).*1.
Definition job : Master :=
  mkMaster "m" [] [] "j" ["in"] 2 [] false.
Definition disk2 : FS := <["mrtmp.j-res-1" := "b2"]> {["mrtmp.j-res-0" := "b1"]}.

Lemma merge_output_witness :
  results decode1 job disk2 = Some [mkKV "b" "1"; mkKV "b" "2"] ∧
  (∃ kvs keys, merge decode1 keys_of Written job disk2 =
      Ok (<["mrtmp.j" := print_lines kvs keys]> disk2) ∧ NoDup keys ∧ kvs !! "b" = Some "2") ∧
  merge decode1 keys_of CreateFails job disk2 = Fatal.
Proof.
  assert (Hr : results decode1 job disk2 = Some [mkKV "b" "1"; mkKV "b" "2"]) by
    (vm_compute; reflexivity).
  split; [exact Hr|].
  pose proof (λ o, MapReduceProps.merge_output decode1 keys_of o job disk2
    (λ m, reflexivity _)) as H.
  rewrite Hr in H. split.
  - destruct (H Written) as (kvs & keys & Hm & _ & Hn & _ & Hk & _).
    exists kvs, keys. split; [exact Hm|]. split; [exact Hn|]. rewrite Hk. vm_compute. reflexivity.
  - destruct (H CreateFails) as (kvs & keys & Hm & _). exact Hm.
Defined.



Lemma CleanupFiles_removes_witness :
  NoDup (cleanup_names job) ∧ CleanupFiles job disk2 = Fatal ∧
  cleanup_names job = ["mrtmp.j-0-0"; "mrtmp.j-0-1"; "mrtmp.j-res-0"; "mrtmp.j-res-1"; "mrtmp.j"].
Proof.
  pose proof (MapReduceProps.CleanupFiles_removes job disk2) as (Hn & _ & Hf).
  split; [exact Hn|]. split; [|vm_compute; reflexivity].
  apply (Hf "mrtmp.j"); [|vm_compute; reflexivity].
  vm_compute. do 4 right. left.
Defined.

Definition two_rpcs : list WEvent :=
  [WTop; WAccept true; WCount; WTop; WAccept true; WCount; WTop].

Lemma worker_serves_n_witness :
  wrun (RunWorker 2) two_rpcs = Some (mkWorker 0 2 Exited []) ∧
  accepts two_rpcs = 2 ∧ len two_rpcs ≤ 3 * 2 + 2.
Proof.
  assert (Hr : wrun (RunWorker 2) two_rpcs = Some (mkWorker 0 2 Exited [])) by
    (vm_compute; reflexivity).
  destruct (MapReduceProps.worker_serves_n 2 two_rpcs (mkWorker 0 2 Exited []))
    as (Hl & _ & He).
  - unfold MaxInt64. lia.
  - repeat constructor.
  - exact Hr.
  - split; [exact Hr|]. split; [|exact Hl]. apply He; [reflexivity|]. repeat constructor.
Defined.
End mapreduce.

(** ** A directory with one key *)

Section diskv.
Import DiskV.

Definition enc (k : string) : string := "x" +:+ k.
Definition dec (n : string) : option string :=
  match n with
  | String "x"%char k => Some k
  | _ => None
  end.

Definition one_key : Disk := {["d/shard-3/" := {["key-xa" := "old"]}]}.

Lemma dec_enc k : dec (enc k) = Some k.
Proof. reflexivity. Qed.

Definition names (fs : Files) : list string := (map_to_list fs).*1.

(** The write of the temporary file fails after two bytes. *)
Definition short_write : list fault := [NoFault; NoFault; FailsAfter 2 ∅].
Definition torn : Disk := {["d/shard-3/" := {["key-xa" := "old"; "temp-xa" := "ne"]}]}.

Lemma filePut_atomic_witness :
  run names (filePut enc "d" 3 "a" "new") short_write one_key = (torn, Ok false) ∧
  crashed names (filePut enc "d" 3 "a" "new") [] one_key torn ∧
  reads enc names "d" torn 3 "a" = Ok (Some "old") ∧
  (run names (filePut enc "d" 3 "a" "new") [] one_key).2 = Ok true ∧
  reads enc names "d" (run names (filePut enc "d" 3 "a" "new") [] one_key).1 3 "a" =
    Ok (Some "new").
Proof.
  assert (Hc : crashed names (filePut enc "d" 3 "a" "new") [] one_key torn).
  { right. right. right. right. right. left. exists 2%nat. vm_compute. reflexivity. }
  split; [vm_compute; reflexivity|]. split; [exact Hc|].
  pose proof (DiskV.filePut_atomic enc dec names "d" dec_enc [] one_key 3 "a" "new") as H.
  cbv zeta in H. destruct (run names (filePut enc "d" 3 "a" "new") [] one_key) as [disk1 r] eqn:E.
  destruct H as (Hr & Hok & Hat). split.
  - destruct (Hat torn Hc) as [Ho|Hn]; [rewrite Ho|]; vm_compute; reflexivity.
  - assert (Hr1 : r = Ok true) by (apply Hok; constructor). split; [exact Hr1|].
    destruct Hr as [[_ Ha]|[[Hx|Hx] _]]; [|congruence|congruence].
    cbn [fst]. rewrite Ha. reflexivity.
Defined.

Definition two_keys : Files := <["a" := "1"]> {["b" := "2"]}.

Lemma names_all fs : names fs ≡ₚ (map_to_list fs).*1.
Proof. reflexivity. Qed.

Lemma replace_read_shard_witness :
  (run names (fileReplaceShard enc "d" map_to_list 3 two_keys) [] one_key).2 = Ok () ∧
  (run names (fileReadShard enc dec "d" 3) []
     (run names (fileReplaceShard enc "d" map_to_list 3 two_keys) [] one_key).1).2 = Ok two_keys.
Proof.
  pose proof (DiskV.replace_read_shard enc dec names "d" dec_enc names_all map_to_list []
    one_key 3 two_keys (λ m, Permutation_refl _)) as H.
  destruct (run names (fileReplaceShard enc "d" map_to_list 3 two_keys) [] one_key) as [disk1 r].
  destruct H as (_ & Hok & _). destruct (Hok (List.Forall_nil _)) as [Hr Hread].
  split; [exact Hr|]. apply (proj2 (Hread [])). constructor.
Defined.

(** fileReplaceShard returns normally although a put has failed, and the old
    contents are gone: the key is lost. *)
Definition second_put_fails : list fault :=
  replicate 9 NoFault ++ [Fails].

Lemma replace_loses_key :
  let '(disk1, r) :=
    run names (fileReplaceShard enc "d" map_to_list 3 two_keys) second_put_fails one_key in
  r = Ok () ∧ length (names (files "d" disk1 3)) = 1%nat ∧ length (names two_keys) = 2%nat.
Proof. vm_compute. split_and!; reflexivity. Qed.
End diskv.

(** ** A server that serves a connection and is killed: between the store of the
    flag and the close of the listener it accepts another, and closes it *)

Section listener.
Import Listener.

Definition one_then_kill : list Event :=
  [LTop; LAccept false; LTest; LFirst 0; LSecond 0; LEnd; LTop; LKill; LKilling 0].
Definition killed : State :=
  mkState (mkFlags 1 0 0 true 0) Accepting [Served] [[CloseListener; StorePxDead]].
Definition one_more : list Event :=
  [LAccept false; LKilling 0; LTest; LEnd; LTop; LKilling 0].
Definition gone : State := mkState (mkFlags 1 0 0 false 1) Exit [Served; Closed] [[]].

Lemma accept_loop_witness :
  run kvpaxos_loop start one_then_kill = Some killed ∧
  run kvpaxos_loop killed one_more = Some gone ∧
  accepted one_then_kill = len (fates killed) + in_hand killed ∧
  len (filter own_step one_more) ≤ 6 ∧ listening (flags gone) = false.
Proof.
  assert (Hr : run kvpaxos_loop start one_then_kill = Some killed) by
    (vm_compute; reflexivity).
  assert (Hr' : run kvpaxos_loop killed one_more = Some gone) by (vm_compute; reflexivity).
  split; [exact Hr|]. split; [exact Hr'|].
  destruct (Listener.accept_loop kvpaxos_loop one_then_kill killed one_more gone)
    as (Ha & _ & Hd & _).
  - right. left.
  - exact Hr.
  - split; [exact Ha|]. split; [|reflexivity]. apply Hd; [reflexivity|exact Hr'].
Defined.

Lemma accept_error_witness :
  run paxos_loop start (mjoin (replicate 3 [LTop; LAccept true; LTest; LEnd; LEnd])) =
  Some start.
Proof.
  apply (Listener.accept_error kvpaxos_loop start 3); reflexivity.
Defined.
End listener.
End ServiceExamples.
