(* ===== verification/ShardExamples.v ===== *)
(** * ShardExamples: the theorems on the sharded test clusters at concrete inputs

    Three groups of three servers; the random strings are the tags of the end
    points, printed. *)
From S2P Require Import Prelude Persister Labrpc Raft RaftInv RaftProps.
From S2P Require Import Harness ShardHarness ShardHarnessProps ShardHarnessBuild.

Module ShardExamples.
Import ShardHarnessProps ShardHarnessBuild.

#[local] Notation config := (ShardHarness.config Z).

(** Three numbers, with dots in between. *)
Definition triple (a b c : Z) : string := Itoa a +:+ "." +:+ (Itoa b +:+ "." +:+ Itoa c).

Lemma dot_no_numeral : ¬ numeral (Ascii.ascii_of_nat 46).
Proof. intros [[H%Nat.leb_le _]|H]; [vm_compute in H|]; done. Qed.

Lemma triple_inj a b c a' b' c' : triple a b c = triple a' b' c' → a = a' ∧ b = b' ∧ c = c'.
Proof.
  intros H. apply (string_split_inj (Ascii.ascii_of_nat 46)) in H as [->%(inj Itoa) H];
    [|by intros ?%Itoa_numeral%dot_no_numeral..].
  by apply (Itoa_pair_inj _ _ _ _ _ dot_no_numeral) in H as [-> ->].
Qed.

(** The names of the [v]-th start of every server. *)
Definition tag_name (v : string) (t : Tag) : string :=
  v +:+ match t with
        | TEnd gi i j => "e" +:+ triple gi i j
        | TMend gi i j => "m" +:+ triple gi i j
        | TMaster i j => "s" +:+ triple 0 i j
        | TClerk j => "c" +:+ triple 0 0 j
        end.

#[export] Instance tag_name_inj v : Inj (=) (=) (tag_name v).
Proof.
  intros t t' H%string_app_inj_l.
  destruct t, t'; try discriminate H; apply string_app_inj_l, triple_inj in H as (? & ? & ?); by subst.
Qed.

Definition random (v : string) : Random :=
  mkRandom (tag_name v) (λ _ _, (5, 7, 0)) (λ gi i, Z.to_nat (10 * gi + i)).

Definition client_name (j : Z) : string := "x" +:+ Itoa j.

(** What a computation returns, when it does. *)
Definition result (cfg : config) (r : res config) : config :=
  match r with Ok cfg => cfg | _ => cfg end.

Definition returns {A} (r : res A) : bool := match r with Ok _ => true | _ => false end.

Lemma result_Ok cfg (r : res config) : returns r = true → r = Ok (result cfg r).
Proof. by destruct r. Qed.

Definition nothing : config := mkConfig Labrpc.MakeNetwork 0 [] [] 0 0 [] ∅ 0 0.
Definition demo : config := result nothing (make_config (random "") 3 false 1000).

Lemma demo_Ok : make_config (random "") 3 false 1000 = Ok demo.
Proof. apply result_Ok. vm_compute. reflexivity. Qed.

Definition session : list (@op Z) :=
  [OShutdown 0 1; OStart (random "r") 0 1; OClient 7 client_name; OShutdownGroup 2;
   OStartGroup (random "r") 2; ODelete 7; OCleanup].

Lemma configuration_wired_witness :
  make_config (random "") 3 false 1000 = Ok demo ∧
  foldM run_op demo session = Ok (result nothing (foldM run_op demo session)) ∧
  wired (result nothing (foldM run_op demo session)).
Proof.
  assert (H2 : foldM run_op demo session =
    Ok (result nothing (foldM run_op demo session)))
    by (apply result_Ok; vm_compute; reflexivity).
  split; [exact demo_Ok|]. split; [exact H2|]. exact (configuration_wired _ _ _ _ _ _ _ demo_Ok H2).
Defined.

(** The first server of the second group. *)
Definition demo_group : ShardHarness.group Z :=
  match get_group demo 1 with Ok g => g | _ => new_group demo 1 end.
Definition demo_server : ShardKV Z :=
  match slice_get (servers demo_group) 0 with
  | Ok (Some kv) => kv
  | _ => skv_StartServer [] 0 Persister.MakePersister 0 0 [] (0, 0, 0)
  end.

Lemma demo_group_Ok : get_group demo 1 = Ok demo_group.
Proof.
  assert (H : returns (get_group demo 1) = true) by (vm_compute; reflexivity).
  unfold demo_group. by destruct (get_group demo 1).
Qed.

Lemma demo_server_Ok : slice_get (servers demo_group) 0 = Ok (Some demo_server).
Proof.
  assert (H : match slice_get (servers demo_group) 0 with Ok (Some _) => true | _ => false end = true)
    by (vm_compute; reflexivity).
  unfold demo_server. by destruct (slice_get (servers demo_group) 0) as [[kv|]| |].
Qed.

Lemma demo_ends_names x : x ∈ Labrpc.ends (net demo) → ∃ t, x = tag_name "" t.
Proof.
  destruct (make_config_Ok (Cmd:=Z) (random "") 3 false 1000 (tag_name_inj "") ltac:(lia))
    as (cfg & H & _ & _ & Ho).
  assert (cfg = demo) as -> by (rewrite demo_Ok in H; congruence). intros (t & _ & ->)%Ho. by exists t.
Qed.

Lemma client_fresh v j t : "x" +:+ (v +:+ client_name j) ≠ tag_name "" t.
Proof. by destruct t. Qed.

Lemma crash_and_restart_witness :
  ∃ cfg1 cfg2 gg2 kv2,
    ShutdownServer demo 1 0 = Ok cfg1 ∧
    StartServer cfg1 1 0 (λ j, "xa" +:+ client_name j) (λ j, "xb" +:+ client_name j) (5, 7, 9) 99%nat
      = Ok cfg2 ∧
    get_group cfg2 1 = Ok gg2 ∧ slice_get (servers gg2) 0 = Ok (Some kv2) ∧
    Raft.role (skv_rf kv2) = Raft.Follower.
Proof.
  destruct (crash_and_restart demo 1 demo_group 0 demo_server
    (λ j, "xa" +:+ client_name j) (λ j, "xb" +:+ client_name j) (5, 7, 9) 99%nat)
    as (cfg1 & cfg2 & gg2 & kv2 & H1 & _ & _ & H2 & H3 & H4 & _ & _ & _ & H5 & _).
  - exact (wired_make_config _ _ _ _ _ demo_Ok).
  - exact demo_group_Ok.
  - exact demo_server_Ok.
  - vm_compute. reflexivity.
  - constructor.
    + intros j _ [t Ht]%demo_ends_names. exact (client_fresh "a" j t Ht).
    + intros j _ [t Ht]%demo_ends_names. exact (client_fresh "b" j t Ht).
    + by intros i j ?%string_app_inj_l%string_app_inj_l%(inj Itoa).
    + by intros i j ?%string_app_inj_l%string_app_inj_l%(inj Itoa).
    + done.
  - exists cfg1, cfg2, gg2, kv2. exact (conj H1 (conj H2 (conj H3 (conj H4 H5)))).
Defined.

Lemma make_config_sizes_witness :
  ((∃ cfg : config, make_config (random "") 4 false 0 = Ok cfg) ↔ 0 ≤ 4 ≤ 3) ∧
  ((∃ cfg cfg' : config, make_config (random "") 4 false 0 = Ok cfg ∧
     makeClient cfg 1 client_name = Ok cfg') ↔ 4 = 3).
Proof.
  apply (make_config_sizes (Cmd:=Z) (random "") 4 false 0 1 client_name).
  - apply tag_name_inj.
  - by intros i j ?%string_app_inj_l%(inj Itoa).
  - intros j t. by destruct t.
Defined.

(** With two servers a configuration exists, and making a client panics. *)
Example client_of_two :
  match make_config (Cmd:=Z) (random "") 2 false 0 with
  | Ok cfg => makeClient cfg 1 client_name
  | r => r
  end = Panic.
Proof. by vm_compute. Qed.
End ShardExamples.
